(* ===== verification/_CoqProject ===== *)
-Q . S2P
Prelude.v
Utf8.v
Config.v
BufIface.v
Str.v
Protocol.v
ProtocolFacts.v
ProtocolProps.v
Patterns.v
PatternFacts.v
RadixIface.v
Registry.v
RegistryFacts.v
RegistryProps.v
Async.v
Mutex.v
Preserve.v
ChanIface.v
World.v
Channel.v
Routing.v
RegistryOps.v
RegistrySpec.v
Dispatcher.v
Subscriber.v
Transport.v
ReplyDispatcher.v
Publisher.v
Client.v
Runtime.v
Simulate.v
Delivery.v
Conversation.v
Sharing.v
Quiet.v
Typing.v
TypedOps.v
RwLock.v
RegistryConc.v
RegistryRefine.v
RuntimeProps.v
RuntimeTypes.v
RunFacts.v
LifecycleProps.v
RegistryRace.v
MessagingProps.v
EndToEnd.v
PublisherProps.v
PublisherConc.v
Lines.v
ConcurrentDelivery.v
ConcurrentRequests.v
ConcurrentGroup.v
DispatcherProps.v
RuntimeDelivery.v
Upkeep.v
Correlation.v
CorrelationOps.v
CorrelationProps.v
Isolation.v
IsolationOps.v
IsolationProps.v
ChannelProps.v
UnitTests.v
