(* ===== verification/Prelude.v ===== *)
(** * arcella-broker: a verification library

    A shallow embedding of the in-process message broker arcella-broker (Rust), with the theorems
    that make it correct. Paths are relative to the repository; the crate's sources are src/src/.

    ** The program

    A broker routes messages between components of one process. A component makes a
    [BrokerClient], subscribes to addresses, and sends messages or requests. Addresses are
    colon-separated levels; a subscription may be to a pattern with [*] (one level) or a final
    [**] (any number). The registry keeps the routes in an immutable snapshot that writers replace
    under a mutex and readers load without it. A route's target is one subscription slot or a
    load-balanced group, whose dispatcher task hands each message of a shared queue to the next
    consumer that asks. Requests wait in a map of waiters for the reply with their message id,
    which a listener task delivers.

    ** The files

    Foundations
    - Prelude.v: results, bytes, machine integers, little-endian integers, notations, tactics and
      the lemmas shared by all files.
    - Utf8.v: UTF-8 validity and lossy decoding, as the Rust standard library defines them.
    - Str.v: [split], [starts_with], [ends_with], [contains] of [str] and slices.
    - Async.v: computations in atomic steps over a shared state ([proc]), run alone ([run]) or
      interleaved ([pool_step]), or dropped where they await ([abandon]); conditions that hold at
      the end of a computation in every interleaving ([ends_in]) and where it is dropped
      ([drops_in]), and what a computation may return ([may_return]).
    - Mutex.v: rely-guarantee simulation for state behind a mutex: computations that meet it do,
      in every interleaving, what atomic specifications do, and never wait while they hold it.
    - RwLock.v: the same for a cell behind an upgradable read-write lock: it is held consistently
      and cannot deadlock.
    - Simulate.v: computations that follow abstract programs one visible step at a time
      ([follows]), what that says of a pool of them under any scheduler, and that every execution
      of a pool ends.
    - Preserve.v: computations that keep an invariant of the shared state among others that do
      ([keeps]), with what remains known as the state grows; and, more generally, an invariant
      that relates the state to what is known beside it ([knows]).

    Interfaces to third-party code, as type classes whose laws are the documented behaviour, each
    with an instance
    - BufIface.v: [bytes::Buf] and [BufMut].
    - RadixIface.v: the [iradix] radix tree and its transactions.
    - ChanIface.v: tokio's [mpsc] and [oneshot] channels and [timeout].

    The model
    - Config.v: src/src/config/mod.rs, and [RoutingPolicy].
    - Protocol.v: src/src/protocol/mod.rs, the wire format: header, message, address validation.
    - Patterns.v: wildcard syntax and matching (registry/mod.rs) and [RegistryError].
    - Registry.v: what the registry's methods compute on one snapshot (registry/mod.rs).
    - World.v: the shared state: clock, channels, one-value channels, slots, groups, the published
      snapshot and its mutex, waiter maps, tasks, endpoint caches, and counters of the callers. An
      [Arc] is a key of a store.
    - Channel.v: transport/channel.rs.
    - Routing.v: registry/slot.rs, registry/load_balanced_group.rs (without its task),
      registry/routing.rs, and [TransportError].
    - RegistryOps.v: [LocalRegistry]'s methods: mutex, load, compute, store (registry/mod.rs).
    - Dispatcher.v: the task of registry/load_balanced_group.rs, as a state machine.
    - Subscriber.v: client/subscriber.rs.
    - Transport.v: the traits of transport/mod.rs as type classes with their provided methods, and
      transport/in_memory.rs as their instance.
    - ReplyDispatcher.v: client/reply_dispatcher.rs, with the round of its listener task.
    - Publisher.v: client/publisher.rs, generic in the transport, with its [RwLock] cache.
    - Client.v: client/mod.rs and broker/mod.rs.
    - Runtime.v: threads, spawned tasks, cancellation and time as one step relation, and the
      programs over the public interface that threads run, dropped futures and timeouts included.

    The theorems
    - ProtocolFacts.v, ProtocolProps.v: encoding and decoding are inverse, decoding is total and
      sound, truncated input is reported, the constructor's and the validator's exact conditions;
      and three inputs on which constructor, decoder and documentation disagree.
    - PatternFacts.v: validation, matching and overlap decide their specifications.
    - RegistryFacts.v, RegistryProps.v: the invariant of a snapshot, the outcome of registration on
      every branch, lookup as the unique covering route, round trips, and what the checks miss for
      [**] patterns (they are neither routed to nor seen by later exact registrations).
    - RegistrySpec.v: the registry as an abstract atomic object, on two levels: atomic calls on a
      snapshot, and atomic calls on a table from addresses to targets.
    - Quiet.v, RegistryConc.v: everything but the three methods that take the registry's mutex
      leaves the registry alone, and these three simulate the atomic calls: the registry is
      linearizable, and of the threads that race for an address exactly one registers it.
    - RegistryRace.v: such a race ends, with one factory called, once.
    - RegistryRefine.v: without [**] patterns the registry refines the table.
    - RuntimeProps.v: in every execution of a running broker each published snapshot is one whole
      operation on the one before, the invariant of the routes holds, and the mutex is released.
    - Typing.v, TypedOps.v, RuntimeTypes.v: a store typing of the shared state, that every
      operation keeps it, and that every reachable state has it: no dangling or reused handles,
      in objects, routes and caches, counters within their width, queues within their capacity.
    - RunFacts.v, LifecycleProps.v: subscriptions and groups from start to end, and what is left
      behind (a dead group's route, a poisoned mutex).
    - MessagingProps.v: sends on every branch, requests (forced mode and reply address, no waiter
      left in any interleaving, bounded wait), delivery of replies, and the stale guard.
    - EndToEnd.v: an exclusive subscriber receives what clients send to it, in order, and a request
      is completed by its reply.
    - PublisherProps.v: validity of cached endpoints, resolution, self-healing.
    - PublisherConc.v: a publisher shared by threads: its lock cannot deadlock, and it never
      resolves or caches an endpoint its own address was not routed to.
    - DispatcherProps.v: rounds, order and exactly-once hand-over under any environment, progress,
      and release of waiting consumers on cancellation. What a round takes and hands over is read
      off the queue and the replies, not off the dispatcher's position.
    - Delivery.v, Conversation.v, Sharing.v: three abstract systems of parties that take steps in
      any order: senders, lines and consumers, whose runs one history of sends explains;
      requesters, a service and a listener, where every request that is waited for is in exactly
      one place; senders, a dispatcher and consumers, whose runs a history of sends and one of
      deliveries explain.
    - Lines.v: sending to and receiving from a channel of the registry, a publisher's cache, and
      one-value channels, as steps of such systems. ConcurrentDelivery.v, ConcurrentRequests.v,
      ConcurrentGroup.v: whatever the scheduler does, everything that clients and publishers send
      to exclusive subscribers arrives, in order; every request gets its own answer; everything
      sent to a load-balanced group is received once, by one of its consumers; and nobody is left
      waiting.
    - RuntimeDelivery.v: executions that pass through several threads and tasks: a group's
      consumers get its messages through the dispatcher, also after one of them has given up, and
      a request comes back with its reply.
    - Upkeep.v: what an invariant relating the state to what is known beside it must survive, as
      type classes ([Upkeep], [Replies], [Locking], [Rounds]); what is composed of these then
      keeps it, up to whole executions of the runtime.
    - Correlation.v, CorrelationOps.v, CorrelationProps.v: what each one-value channel is for is
      known beside the state; in every execution a request is only ever answered with its own
      answer.
    - Isolation.v, IsolationOps.v, IsolationProps.v: the address each object was made for is known
      beside the state, and no operation mixes addresses up. Contracts of the public calls
      ([behaves]), and adequacy: components that keep to them never make the broker panic or
      poison its mutex, and get only messages meant for them, whatever the others do.
    - ChannelProps.v: receive timeouts, load, and the capacities the builders accept.
    - UnitTests.v: the crate's unit tests (the test modules of registry/mod.rs and client/mod.rs,
      with test_utils.rs), which pass on the definitions.

    ** How code corresponds to definitions

    A pure function is a function; a [Result] is [result]; an integer is a [Z] with its casts and
    wrap-around written out; a string or byte slice is [bytes]. A function that touches shared state
    is a [proc World]: every access to an atomic, an [ArcSwap], a lock or a channel is one step,
    and an [.await] or a lock that is taken is a step that is not enabled. A step at an [.await]
    carries what dropping the future there does; locals that live across it are [guarded] or
    [owning]. [parking_lot] locks held
    for one access are part of that step; [register_mutex] (a std mutex, with poisoning) and the
    publisher's [RwLock] are explicit. Drops are written where Rust runs them. Handles are dense
    fresh keys, never reused.

    The recursions are structural: over segments, entries, the steps of a computation, and the
    bytes of the input. No fuel is used. The dispatcher's and the listener's endless loops are
    rounds of a state machine, iterated by Runtime.v and by [dispatches].

    ** Assumptions and limits

    - The laws of the interface classes; atomic steps of atomics, [ArcSwap] and locks are
      sequentially consistent.
    - Strong counts are kept for request senders ([Arc::strong_count] is read by the code) and not
      for slots, groups and dispatchers: their [Drop] is an operation, not tied to a last reference.
    - The store of [World] has one registry, as one [Broker] has; [Weak::upgrade] of it succeeds.
    - A caller may drop the future of any single method it awaits; dropping a whole program with
      all the handles it owns is not a step of Runtime.v, and of the tasks only the crate's own
      two are aborted.
    - Concurrency theorems that speak of a pool of threads ([pool_step]) leave tasks and time
      aside; those that speak of [reachable] configurations include them.
    - In ConcurrentDelivery.v, ConcurrentRequests.v and ConcurrentGroup.v routes do not change, no
      two threads share a publisher, the receivers take as many messages as are sent, the
      dispatcher's loop makes a bounded but sufficient number of rounds, and, since a pool has no
      clock, no request times out.
    - An aborted task is dropped only where the source has an [.await]: the dispatcher is not while
      it hands a message over, nor after its loop.
    - Keys are numbers, so that a program of the model can register a target that was never handed
      out, as no Rust program can; [code_over] says which targets programs make up, and the typing
      of RuntimeTypes.v holds of the routes up to these.
    - Not modelled: logging; the display strings of errors; getters that return a field; the
      server stub, the command-line program and the load test. *)

From Stdlib Require Export ZArith Lia.
From Stdlib Require Import Strings.Byte Strings.String.
From Stdlib Require Export (notations) Strings.String.
From stdpp Require Export base tactics list gmap option countable.

(** ** Results of fallible code *)

(** Rust's [Result<A, E>]. *)
Inductive result (A E : Type) : Type :=
| Ok (a : A)
| Err (e : E).
Arguments Ok {A E} a.
Arguments Err {A E} e.

#[global] Instance result_eq_dec {A E} `{EqDecision A, EqDecision E} : EqDecision (result A E).
Proof. solve_decision. Defined.

Definition is_ok {A E} (r : result A E) : bool := match r with Ok _ => true | Err _ => false end.

(** ** Bytes *)

Abbreviation bytes := (list Byte.byte).

#[global] Instance byte_eq_dec : EqDecision Byte.byte := Byte.byte_eq_dec.

#[global] Program Instance byte_countable : Countable Byte.byte :=
  inj_countable Byte.to_N Byte.of_N _.
Next Obligation. exact Byte.of_to_N. Qed.

(** A byte string literal, Rust's [b"..."] and ["..."]. *)
Definition bs (s : String.string) : bytes := String.list_byte_of_string s.
Arguments bs s%_string.

(** The value of a byte, and the byte of a value ([z as u8]). *)
Definition byte_val (b : Byte.byte) : Z := Z.of_N (Byte.to_N b).

Definition byte_of (z : Z) : Byte.byte :=
  default Byte.x00 (Byte.of_N (Z.to_N (z mod 256))).

(** ** Machine integers: the value of an [as] cast to a w-bit unsigned integer *)

Definition as_u8 (z : Z) : Z := z mod 2 ^ 8.
Definition as_u16 (z : Z) : Z := z mod 2 ^ 16.
Definition as_u32 (z : Z) : Z := z mod 2 ^ 32.

(** [fetch_add] and [fetch_sub] on [AtomicU64] and [AtomicUsize] wrap around. *)
Definition u64_add (a b : Z) : Z := (a + b) mod 2 ^ 64.
Definition u64_sub (a b : Z) : Z := (a - b) mod 2 ^ 64.

(** ** Little-endian integers *)

Fixpoint le_bytes (n : nat) (z : Z) : bytes :=
  match n with
  | O => []
  | S n => byte_of z :: le_bytes n (z / 256)
  end.

Fixpoint le_val (l : bytes) : Z :=
  match l with
  | [] => 0
  | b :: l => byte_val b + 256 * le_val l
  end%Z.

(** ** Notations of the development *)

Declare Scope broker_scope.
Delimit Scope broker_scope with broker.

(** Rust's [let x = r?; k] where [r] is a pure [Result]: an [Err] returns early. *)
Notation "'let?' x ':=' r 'in' k" :=
  (match r with Ok x => k | Err e => Err e end)
  (at level 200, x binder, k at level 200, right associativity) : broker_scope.

(** The same inside a computation that threads a state [s] and may panic ([None]). *)
Notation "'let?' x ':=' r 'with' s 'in' k" :=
  (match r with Ok x => k | Err e => Some (Err e, s) end)
  (at level 200, x binder, s at level 0, k at level 200, right associativity) : broker_scope.

(** ** Tactics and hint databases *)

Create HintDb broker discriminated.
Create Rewrite HintDb broker.

(** Case analysis on every [if], [decide] and [match] of the goal or of a hypothesis. *)
Ltac step_case :=
  match goal with
  | |- context [decide ?P] => destruct (decide P)
  | |- context [match ?x with _ => _ end] => destruct x eqn:?
  | H : context [decide ?P] |- _ => destruct (decide P)
  | H : context [match ?x with _ => _ end] |- _ => destruct x eqn:?
  end.

(** Case analysis on the first [decide] of the goal only. *)
Ltac case_goal_decide := match goal with |- context [decide ?P] => destruct (decide P) end.

Ltac cases := repeat (step_case; simplify_eq/=; try done).

(** ** Lemmas on bytes and little-endian integers *)

Lemma byte_val_range b : (0 <= byte_val b < 256)%Z.
Proof. unfold byte_val. pose proof (Byte.to_N_bounded b). lia. Qed.

Lemma byte_val_of z : byte_val (byte_of z) = (z mod 256)%Z.
Proof.
  unfold byte_val, byte_of.
  pose proof (Z.mod_pos_bound z 256 ltac:(lia)) as Hz.
  destruct (Byte.of_N (Z.to_N (z mod 256))) as [b|] eqn:E; simpl.
  - apply Byte.to_of_N in E. rewrite E. lia.
  - apply Byte.of_N_None_iff in E. lia.
Qed.

Lemma byte_val_inj b1 b2 : byte_val b1 = byte_val b2 -> b1 = b2.
Proof.
  unfold byte_val. intros H%N2Z.inj.
  pose proof (Byte.of_to_N b1) as E1. pose proof (Byte.of_to_N b2) as E2. congruence.
Qed.

Lemma byte_of_val b : byte_of (byte_val b) = b.
Proof.
  apply byte_val_inj. rewrite byte_val_of. apply Z.mod_small, byte_val_range.
Qed.

Lemma length_le_bytes n z : length (le_bytes n z) = n.
Proof. revert z. induction n; simpl; auto. Qed.

Lemma le_val_range l : (0 <= le_val l < 256 ^ Z.of_nat (length l))%Z.
Proof.
  induction l as [|b l IH]; [simpl; lia|].
  simpl length. rewrite Nat2Z.inj_succ, Z.pow_succ_r by lia.
  simpl le_val. pose proof (byte_val_range b). lia.
Qed.

Lemma le_val_bytes n z : le_val (le_bytes n z) = (z mod 256 ^ Z.of_nat n)%Z.
Proof.
  revert z. induction n as [|n IH]; intros z; [simpl; by rewrite Z.mod_1_r|].
  cbn [le_bytes le_val]. rewrite IH, byte_val_of.
  rewrite Nat2Z.inj_succ, Z.pow_succ_r by lia.
  rewrite Z.rem_mul_r by lia. lia.
Qed.

Lemma le_bytes_val l : le_bytes (length l) (le_val l) = l.
Proof.
  induction l as [|b l IH]; [done|]. cbn [length le_val le_bytes].
  pose proof (byte_val_range b). f_equal.
  - apply byte_val_inj. rewrite byte_val_of, Z.mul_comm, Z.mod_add by lia.
    apply Z.mod_small. lia.
  - rewrite Z.add_comm, Z.mul_comm, Z.div_add_l by lia.
    rewrite Z.div_small by lia. by rewrite Z.add_0_r.
Qed.

Lemma le_bytes_val' n l : length l = n -> le_bytes n (le_val l) = l.
Proof. intros <-. apply le_bytes_val. Qed.

Lemma le_val_bytes_small n z :
  (0 <= z < 256 ^ Z.of_nat n)%Z -> le_val (le_bytes n z) = z.
Proof. intros H. rewrite le_val_bytes. by apply Z.mod_small. Qed.

#[export] Hint Rewrite length_le_bytes : broker.
#[export] Hint Resolve byte_val_range le_val_range : broker.

(** ** Lemmas on lists *)

Lemma take_app_exact {A} n (l k : list A) : length l = n -> take n (l ++ k) = l.
Proof. intros <-. apply take_app_length. Qed.

Lemma drop_app_exact {A} n (l k : list A) : length l = n -> drop n (l ++ k) = k.
Proof. intros <-. apply drop_app_length. Qed.

Lemma le_val_inj l1 l2 : length l1 = length l2 -> le_val l1 = le_val l2 -> l1 = l2.
Proof. intros Hl Hv. rewrite <-(le_bytes_val l1), <-(le_bytes_val l2). by rewrite Hl, Hv. Qed.

(** The two low bytes of an integer are those of its cast to [u16]. *)
Lemma le_bytes_as_u16 z : le_bytes 2 (as_u16 z) = le_bytes 2 z.
Proof.
  apply le_val_inj; [by rewrite !length_le_bytes|]. rewrite !le_val_bytes. apply Z.mod_mod. lia.
Qed.

(** A sum over a list of which one element changes. *)
Lemma sum_list_insert {A} (f : A -> nat) l i x y :
  l !! i = Some x -> (sum_list_with f (<[i := y]> l) + f x = sum_list_with f l + f y)%nat.
Proof.
  revert i. induction l as [|z l IH]; intros [|i] Hi; simplify_eq/=; [lia|].
  specialize (IH i Hi). lia.
Qed.

Lemma sum_list_lookup {A} (f : A -> nat) l i x :
  l !! i = Some x -> (f x <= sum_list_with f l)%nat.
Proof.
  revert i. induction l as [|z l IH]; intros [|i] Hi; simplify_eq/=; [lia|].
  specialize (IH i Hi). lia.
Qed.

Lemma sum_list_zero {A} (f : A -> nat) l :
  (forall i x, l !! i = Some x -> f x = 0%nat) -> sum_list_with f l = 0%nat.
Proof.
  induction l as [|x l IH]; intros Hl; [done|]. simpl. rewrite (Hl 0%nat x) by done.
  apply IH. intros i y. apply (Hl (S i)).
Qed.

Lemma sum_list_fmap {A} (f : A -> nat) (l : list A) : sum_list (f <$> l) = sum_list_with f l.
Proof. induction l as [|x l IH]; [done|]. rewrite fmap_cons. simpl. by rewrite <-IH. Qed.

Lemma sum_list_lengths {A} (l : list (list A)) : sum_list_with length l = length (concat l).
Proof. induction l as [|t l IH]; [done|]. simpl. by rewrite length_app, IH. Qed.

(** The elements with label [i], in their order. *)
Definition labelled {A} (i : nat) (l : list (nat * A)) : list A := (filter (fun e => e.1 = i) l).*2.

Lemma labelled_app {A} i (l k : list (nat * A)) : labelled i (l ++ k) = labelled i l ++ labelled i k.
Proof. unfold labelled. by rewrite list.filter_app, fmap_app. Qed.

Lemma labelled_cons {A} i j (x : A) l :
  labelled i ((j, x) :: l) = (if decide (j = i) then [x] else []) ++ labelled i l.
Proof. unfold labelled. rewrite list.filter_cons. cbn. by case_decide. Qed.

Lemma labelled_own {A} i (l : list (nat * A)) :
  Forall (fun e => e.1 = i) l -> forall k, labelled k l = if decide (k = i) then l.*2 else [].
Proof.
  intros Hl k. induction Hl as [|[j x] l Hj _ IH]; [by case_decide|].
  simpl in Hj. subst j. rewrite labelled_cons, IH. repeat case_decide; by try congruence.
Qed.

(** With at most [bs !! i] elements of label [i], the labels are exhausted when there are as many
    elements as the bounds allow. *)
Lemma labelled_total {A} (bs : list nat) (l : list (nat * A)) :
  (forall e, e ∈ l -> e.1 < length bs)%nat ->
  (forall i b, bs !! i = Some b -> length (labelled i l) <= b)%nat ->
  (length l <= sum_list bs)%nat /\
  ((sum_list bs <= length l)%nat <-> forall i b, bs !! i = Some b -> length (labelled i l) = b).
Proof.
  revert bs. induction l as [|[j x] l IH]; intros bs Hl Hb; simpl.
  { split; [lia|]. split.
    - intros Hz i b Hi. pose proof (sum_list_lookup id bs i b Hi). simpl in *. lia.
    - intros Hz. rewrite sum_list_zero; [done|]. intros i b Hi. by rewrite <-(Hz i b Hi). }
  destruct (lookup_lt_is_Some_2 bs j) as [b Hj]; [by apply (Hl (j, x)), list_elem_of_here|].
  pose proof (Hb j b Hj) as Hbj. rewrite labelled_cons, decide_True in Hbj by done. simpl in Hbj.
  destruct b as [|b]; [lia|]. pose proof (sum_list_insert id bs j (S b) b Hj) as Hs. simpl in Hs.
  destruct (IH (<[j := b]> bs)) as [Hle Hiff].
  - intros e He. rewrite length_insert. apply Hl. by apply list_elem_of_further.
  - intros i b'. rewrite list_lookup_insert_Some. intros [(<- & <- & _)|[Hij Hi]]; [lia|].
    specialize (Hb i b' Hi). rewrite labelled_cons, decide_False in Hb by done. done.
  - split; [unfold sum_list in *; lia|].
    transitivity (sum_list (<[j := b]> bs) <= length l)%nat; [unfold sum_list in *; lia|].
    rewrite Hiff. clear - Hj. split; intros H i b'.
    + intros Hi. rewrite labelled_cons, length_app. case_decide as E; [subst|].
      * simplify_eq. simpl. f_equal. apply (H i b). by eapply list_lookup_insert_eq, lookup_lt_Some.
      * apply H. by rewrite list_lookup_insert_ne.
    + rewrite list_lookup_insert_Some. intros [(<- & <- & _)|[Hij Hi]].
      * specialize (H j (S b) Hj). rewrite labelled_cons, decide_True in H by done. simpl in H. lia.
      * specialize (H i b' Hi). by rewrite labelled_cons, decide_False in H.
Qed.

(** Those that have a key have one of their own, below [fresh]. *)
Record keyed {A} (key : A -> option nat) (fresh : nat) (l : list A) : Prop := {
  keyed_fresh i x r : l !! i = Some x -> key x = Some r -> (r < fresh)%nat;
  keyed_apart i j x y r :
    l !! i = Some x -> l !! j = Some y -> key x = Some r -> key y = Some r -> i = j;
}.

Lemma keyed_none {A} (key : A -> option nat) fresh (l : list A) :
  (forall i x, l !! i = Some x -> key x = None) -> keyed key fresh l.
Proof. intros Hl. split; intros i x; [intros r Hx|intros y z r Hx _]; specialize (Hl _ _ Hx);
  congruence. Qed.

(** A key stays, goes, or is the next one. *)
Definition rekeyed {A} (key : A -> option nat) (fresh : nat) (x : A) (fresh' : nat) (y : A) : Prop :=
  (fresh <= fresh')%nat /\
  (key y = None \/ key y = key x \/ key y = Some fresh /\ fresh' = S fresh).

Lemma keyed_insert {A} (key : A -> option nat) fresh fresh' (l : list A) i x y :
  keyed key fresh l -> l !! i = Some x -> rekeyed key fresh x fresh' y ->
    keyed key fresh' (<[i := y]> l).
Proof.
  intros [Hf Ha] Hi [Hle Hk].
  assert (forall j z r, l !! j = Some z -> j <> i -> key z = Some r -> key y <> Some r) as Hapart.
  { intros j z r Hj Hji Hr Hr'. pose proof (Hf _ _ _ Hj Hr).
    destruct Hk as [?|[E|[E _]]]; [congruence| |assert (r = fresh) by congruence; lia].
    apply Hji. eapply (Ha j i); [done..|congruence]. }
  split.
  - intros j z r. rewrite list_lookup_insert_Some. intros [(<- & <- & _)|[Hij Hj]] Hr.
    + destruct Hk as [?|[E|[E Ef]]]; [congruence| |].
      * rewrite E in Hr. specialize (Hf _ _ _ Hi Hr). lia.
      * assert (r = fresh) as -> by congruence. lia.
    + specialize (Hf _ _ _ Hj Hr). lia.
  - intros j j' z z' r. rewrite !list_lookup_insert_Some.
    intros [(<- & <- & _)|[Hij Hj]] [(<- & <- & _)|[Hij' Hj']] Hr Hr'; [done|..].
    + by destruct (Hapart j' z' r Hj').
    + by destruct (Hapart j z r Hj).
    + by eapply (Ha j j').
Qed.

(** Every two elements at different positions are related. *)
Definition pairwise {A} (R : A -> A -> Prop) (l : list A) : Prop :=
  forall i j x y, l !! i = Some x -> l !! j = Some y -> i <> j -> R x y.

Lemma pairwise_snoc {A} (R : A -> A -> Prop) l x :
  pairwise R l -> (forall y, y ∈ l -> R x y /\ R y x) -> pairwise R (l ++ [x]).
Proof.
  intros Hl Hx i j y z [[? Hi]|[-> <-]]%lookup_snoc_Some [[? Hj]|[-> <-]]%lookup_snoc_Some Hij.
  - by apply (Hl i j).
  - by apply list_elem_of_lookup_2, Hx in Hi as [_ ?].
  - by apply list_elem_of_lookup_2, Hx in Hj as [? _].
  - done.
Qed.

Lemma pairwise_delete {A} (R : A -> A -> Prop) l k :
  pairwise R l -> pairwise R (delete k l).
Proof.
  intros Hl i j x y Hi Hj Hij.
  assert (forall n z, delete k l !! n = Some z ->
    l !! (if decide (n < k)%nat then n else S n) = Some z) as Hd.
  { intros n z Hn. case_decide.
    - by rewrite list_lookup_delete_lt in Hn.
    - by rewrite list_lookup_delete_ge in Hn by lia. }
  apply Hd in Hi, Hj. apply (Hl _ _ _ _ Hi Hj). repeat case_decide; lia.
Qed.

Lemma pairwise_elem {A} (R : A -> A -> Prop) l x y :
  pairwise R l -> x ∈ l -> y ∈ l -> x = y \/ R x y.
Proof.
  intros Hl [i Hi]%list_elem_of_lookup_1 [j Hj]%list_elem_of_lookup_1.
  destruct (decide (i = j)) as [->|Hij]; [left; congruence|right; by apply (Hl i j)].
Qed.

(** ** Maps *)

(** Changing the value under a key, as an insertion. *)
Lemma alter_put {X} (f : X -> X) k (m : gmap nat X) :
  alter f k m = match m !! k with Some x => <[k := f x]> m | None => m end.
Proof.
  apply map_eq. intros j. destruct (decide (k = j)) as [->|].
  - rewrite lookup_alter_eq. destruct (m !! j) as [x|] eqn:E; simpl; [by rewrite lookup_insert_eq|done].
  - rewrite lookup_alter_ne by done. destruct (m !! k); [by rewrite lookup_insert_ne|done].
Qed.
