(* ===== verification/Utf8.v ===== *)
(** * Utf8: the UTF-8 decoding of Rust's standard library

    [core::str::from_utf8] and [String::from_utf8_lossy] as the source uses them. A Rust [str]
    or [String] is modelled by its bytes; [is_utf8] is the invariant its type carries. *)

From S2P Require Import Prelude.

Local Open Scope Z_scope.

(** ** Definitions *)

Definition in_range (lo hi : Z) (b : Byte.byte) : bool :=
  (lo <=? byte_val b) && (byte_val b <=? hi).

(** A continuation byte, [10xxxxxx]. *)
Definition is_cont : Byte.byte -> bool := in_range 0x80 0xBF.

(** The length a leading byte announces; 0 when no sequence starts with it. *)
Definition utf8_width (b : Byte.byte) : nat :=
  if in_range 0x00 0x7F b then 1
  else if in_range 0xC2 0xDF b then 2
  else if in_range 0xE0 0xEF b then 3
  else if in_range 0xF0 0xF4 b then 4
  else 0.

(** The second byte a leading byte allows: no overlong form, no surrogate, at most U+10FFFF. *)
Definition utf8_second (b c : Byte.byte) : bool :=
  if byte_val b =? 0xE0 then in_range 0xA0 0xBF c
  else if byte_val b =? 0xED then in_range 0x80 0x9F c
  else if byte_val b =? 0xF0 then in_range 0x90 0xBF c
  else if byte_val b =? 0xF4 then in_range 0x80 0x8F c
  else is_cont c.

Fixpoint is_utf8 (l : bytes) : bool :=
  match l with
  | [] => true
  | a :: l1 =>
      match utf8_width a with
      | 1%nat => is_utf8 l1
      | 2%nat =>
          match l1 with
          | b :: l2 => utf8_second a b && is_utf8 l2
          | [] => false
          end
      | 3%nat =>
          match l1 with
          | b :: c :: l3 => utf8_second a b && is_cont c && is_utf8 l3
          | _ => false
          end
      | 4%nat =>
          match l1 with
          | b :: c :: d :: l4 => utf8_second a b && is_cont c && is_cont d && is_utf8 l4
          | _ => false
          end
      | _ => false
      end
  end.

(** [str::from_utf8]: the [Utf8Error] is dropped by every caller. *)
Definition from_utf8 (l : bytes) : result bytes unit :=
  if is_utf8 l then Ok l else Err tt.

(** U+FFFD REPLACEMENT CHARACTER. *)
Definition replacement : bytes := [Byte.xef; Byte.xbf; Byte.xbd].

(** [String::from_utf8_lossy]: each maximal ill-formed prefix becomes one U+FFFD. *)
Fixpoint from_utf8_lossy (l : bytes) : bytes :=
  match l with
  | [] => []
  | a :: l1 =>
      match utf8_width a with
      | 1%nat => a :: from_utf8_lossy l1
      | 2%nat =>
          match l1 with
          | b :: l2 =>
              if utf8_second a b then a :: b :: from_utf8_lossy l2
              else replacement ++ from_utf8_lossy l1
          | [] => replacement
          end
      | 3%nat =>
          match l1 with
          | b :: l2 =>
              if utf8_second a b then
                match l2 with
                | c :: l3 =>
                    if is_cont c then a :: b :: c :: from_utf8_lossy l3
                    else replacement ++ from_utf8_lossy l2
                | [] => replacement
                end
              else replacement ++ from_utf8_lossy l1
          | [] => replacement
          end
      | 4%nat =>
          match l1 with
          | b :: l2 =>
              if utf8_second a b then
                match l2 with
                | c :: l3 =>
                    if is_cont c then
                      match l3 with
                      | d :: l4 =>
                          if is_cont d then a :: b :: c :: d :: from_utf8_lossy l4
                          else replacement ++ from_utf8_lossy l3
                      | [] => replacement
                      end
                    else replacement ++ from_utf8_lossy l2
                | [] => replacement
                end
              else replacement ++ from_utf8_lossy l1
          | [] => replacement
          end
      | _ => replacement ++ from_utf8_lossy l1
      end
  end.

(** An ASCII byte. *)
Definition is_ascii (b : Byte.byte) : bool := in_range 0x00 0x7F b.

(** ** Lemmas *)

Lemma ascii_width b : is_ascii b = true -> utf8_width b = 1%nat.
Proof. unfold utf8_width, is_ascii. by intros ->. Qed.

(** ASCII text is UTF-8. *)
Lemma ascii_is_utf8 l : forallb is_ascii l = true -> is_utf8 l = true.
Proof.
  induction l as [|a l IH]; [done|]. cbn [forallb is_utf8].
  intros [Ha Hl]%andb_true_iff. rewrite (ascii_width a Ha). auto.
Qed.

(** Induction along the decoder's steps. *)
Lemma utf8_ind (P : bytes -> Prop) :
  P [] ->
  (forall a l, utf8_width a = 1%nat -> P l -> P (a :: l)) ->
  (forall a b l, utf8_width a = 2%nat -> utf8_second a b = true -> P l -> P (a :: b :: l)) ->
  (forall a b c l, utf8_width a = 3%nat -> utf8_second a b = true -> is_cont c = true ->
     P l -> P (a :: b :: c :: l)) ->
  (forall a b c d l, utf8_width a = 4%nat -> utf8_second a b = true -> is_cont c = true ->
     is_cont d = true -> P l -> P (a :: b :: c :: d :: l)) ->
  forall l, is_utf8 l = true -> P l.
Proof.
  intros P0 P1 P2 P3 P4 l. remember (length l) as n eqn:Hn.
  revert l Hn. induction (lt_wf n) as [n _ IH]. intros l -> H.
  destruct l as [|a l]; [done|]. cbn [is_utf8] in H.
  destruct (utf8_width a) as [|[|[|[|[|w]]]]] eqn:W; try done.
  - apply P1; [done|]. eapply IH; [|reflexivity|done]. simpl; lia.
  - destruct l as [|b l]; [done|]. apply andb_true_iff in H as [? H].
    apply P2; [done..|]. eapply IH; [|reflexivity|done]. simpl; lia.
  - destruct l as [|b [|c l]]; [done..|]. rewrite !andb_true_iff in H. destruct H as [[? ?] H].
    apply P3; [done..|]. eapply IH; [|reflexivity|done]. simpl; lia.
  - destruct l as [|b [|c [|d l]]]; [done..|]. rewrite !andb_true_iff in H.
    destruct H as [[[? ?] ?] H].
    apply P4; [done..|]. eapply IH; [|reflexivity|done]. simpl; lia.
Qed.

(** The lossy conversion is the identity on text that is already UTF-8. *)
Lemma from_utf8_lossy_id l : is_utf8 l = true -> from_utf8_lossy l = l.
Proof.
  revert l. apply utf8_ind; cbn [from_utf8_lossy]; [done|..].
  - intros a l -> IH. by rewrite IH.
  - intros a b l -> -> IH. by rewrite IH.
  - intros a b c l -> -> -> IH. by rewrite IH.
  - intros a b c d l -> -> -> -> IH. by rewrite IH.
Qed.

#[export] Hint Resolve ascii_is_utf8 from_utf8_lossy_id : broker.

Example from_utf8_lossy_ex :
  from_utf8_lossy [Byte.x61; Byte.xe2; Byte.x82; Byte.x62] =
  [Byte.x61] ++ replacement ++ [Byte.x62].
Proof. reflexivity. Qed.
