(* ===== verification/Config.v ===== *)
(** * Config: the configuration structures (src/src/config/mod.rs)

    [BrokerConfig], [ClientConfig] and [SubscriberConfig] with their defaults and their builder
    methods, and [RoutingPolicy] (src/src/broker_core/registry/routing.rs). The [usize], [u64] and
    [u8] fields are [Z]; a [Duration] is its number of milliseconds. *)

From S2P Require Import Prelude.

Local Open Scope Z_scope.

(** ** Definitions *)

Definition DEFAULT_REPLY_CHANNEL_CAPACITY : Z := 1024.
Definition DEFAULT_CHANNEL_CAPACITY : Z := 1024.
Definition MAX_CHANNEL_CAPACITY : Z := 65536.
Definition MAX_REPLY_CHANNEL_CAPACITY : Z := 65536.
Definition DEFAULT_REQUEST_TIMEOUT_MS : Z := 30000.
Definition DEFAULT_TTL : Z := 64.

Inductive ConfigError :=
| ZeroCapacity
| CapacityExceedsLimit (capacity : Z)
| ReplyCapacityExceedsLimit (capacity : Z).

#[global] Instance ConfigError_eq_dec : EqDecision ConfigError.
Proof. solve_decision. Defined.

(** Message delivery policy. *)
Inductive RoutingPolicy := Exclusive | LoadBalanced.

#[global] Instance RoutingPolicy_eq_dec : EqDecision RoutingPolicy.
Proof. solve_decision. Defined.

Record BrokerConfig := mkBrokerConfig {
  request_timeout_ms : Z;
  default_ttl : Z;
}.

Definition BrokerConfig_default : BrokerConfig :=
  {| request_timeout_ms := DEFAULT_REQUEST_TIMEOUT_MS; default_ttl := DEFAULT_TTL |}.

Definition with_request_timeout_ms (self : BrokerConfig) (timeout_ms : Z) : BrokerConfig :=
  {| request_timeout_ms := timeout_ms; default_ttl := default_ttl self |}.

Definition with_default_ttl (self : BrokerConfig) (ttl : Z) : BrokerConfig :=
  {| request_timeout_ms := request_timeout_ms self; default_ttl := ttl |}.

Definition request_timeout (self : BrokerConfig) : Z := request_timeout_ms self.

Record ClientConfig := mkClientConfig {
  reply_channel_capacity : Z;
}.

Definition ClientConfig_default : ClientConfig :=
  {| reply_channel_capacity := DEFAULT_REPLY_CHANNEL_CAPACITY |}.

Definition with_reply_channel_capacity (self : ClientConfig) (capacity : Z)
    : result ClientConfig ConfigError :=
  if capacity =? 0 then Err ZeroCapacity
  else if MAX_REPLY_CHANNEL_CAPACITY <? capacity then Err (ReplyCapacityExceedsLimit capacity)
  else Ok {| reply_channel_capacity := capacity |}.

Record SubscriberConfig := mkSubscriberConfig {
  channel_capacity : Z;
  routing_policy : RoutingPolicy;
}.

Definition SubscriberConfig_default : SubscriberConfig :=
  {| channel_capacity := DEFAULT_CHANNEL_CAPACITY; routing_policy := Exclusive |}.

Definition with_channel_capacity (self : SubscriberConfig) (capacity : Z)
    : result SubscriberConfig ConfigError :=
  if capacity =? 0 then Err ZeroCapacity
  else if MAX_CHANNEL_CAPACITY <? capacity then Err (CapacityExceedsLimit capacity)
  else Ok {| channel_capacity := capacity; routing_policy := routing_policy self |}.

(** ** Properties *)

(** A capacity the channel constructors accept and the limits allow. *)
Definition capacity_ok (limit capacity : Z) : Prop := 1 <= capacity <= limit.

Section Builders.
Context (capacity : Z) (Hu : 0 <= capacity).

Lemma subscriber_builder_ok self c :
  with_channel_capacity self capacity = Ok c <->
  capacity_ok MAX_CHANNEL_CAPACITY capacity /\
  c = {| channel_capacity := capacity; routing_policy := routing_policy self |}.
Proof.
  unfold with_channel_capacity, capacity_ok.
  destruct (Z.eqb_spec capacity 0) as [E|E];
    [|destruct (Z.ltb_spec MAX_CHANNEL_CAPACITY capacity) as [L|L]];
    (split; [intros [=]|intros [C ->]]); subst; try lia; try done; split; [lia|done].
Qed.

Lemma client_builder_ok self c :
  with_reply_channel_capacity self capacity = Ok c <->
  capacity_ok MAX_REPLY_CHANNEL_CAPACITY capacity /\
  c = {| reply_channel_capacity := capacity |}.
Proof.
  unfold with_reply_channel_capacity, capacity_ok.
  destruct (Z.eqb_spec capacity 0) as [E|E];
    [|destruct (Z.ltb_spec MAX_REPLY_CHANNEL_CAPACITY capacity) as [L|L]];
    (split; [intros [=]|intros [C ->]]); subst; try lia; try done; split; [lia|done].
Qed.
End Builders.
