(* ===== verification/BufIface.v ===== *)
(** * BufIface: what the protocol relies on of the [bytes] crate

    The traits [bytes::Buf] and [bytes::BufMut] as type classes: the operations the source calls,
    with their documented behaviour as laws over the unread (or written) contents. A panic is
    [None]. The library's own types are instances: [list byte] stands for [&[u8]] and [Bytes]
    (reading) and for [Vec<u8>] (writing). *)

From S2P Require Import Prelude.

Local Open Scope Z_scope.

(** ** Interfaces *)

(** [reads contents n f g]: [g] consumes [n] bytes and returns [f] of them, and panics when fewer
    than [n] remain. *)
Definition reads {B A} (contents : B -> bytes) (n : nat) (f : bytes -> A)
    (g : B -> option (A * B)) : Prop :=
  forall b,
    ((n <= length (contents b))%nat ->
       exists b', g b = Some (f (take n (contents b)), b') /\ contents b' = drop n (contents b)) /\
    ((length (contents b) < n)%nat -> g b = None).

Class Buf (B : Type) := {
  buf_bytes : B -> bytes;
  remaining : B -> nat;
  get_u8 : B -> option (Z * B);
  get_u16_le : B -> option (Z * B);
  get_u32_le : B -> option (Z * B);
  copy_to_slice : nat -> B -> option (bytes * B);
  copy_to_bytes : nat -> B -> option (bytes * B);
  remaining_spec b : remaining b = length (buf_bytes b);
  get_u8_spec : reads buf_bytes 1 le_val get_u8;
  get_u16_le_spec : reads buf_bytes 2 le_val get_u16_le;
  get_u32_le_spec : reads buf_bytes 4 le_val get_u32_le;
  copy_to_slice_spec n : reads buf_bytes n id (copy_to_slice n);
  copy_to_bytes_spec n : reads buf_bytes n id (copy_to_bytes n);
}.

(** [writes contents room l p]: [p] appends [l], and panics when there is no room for it. *)
Definition writes {B} (contents : B -> bytes) (room : B -> Z) (l : bytes)
    (p : B -> option B) : Prop :=
  forall b,
    (Z.of_nat (length l) <= room b ->
       exists b', p b = Some b' /\ contents b' = contents b ++ l /\
                  room b' = room b - Z.of_nat (length l)) /\
    (room b < Z.of_nat (length l) -> p b = None).

Class BufMut (B : Type) := {
  mut_bytes : B -> bytes;
  remaining_mut : B -> Z;
  put_u8 : Z -> B -> option B;
  put_u16_le : Z -> B -> option B;
  put_u32_le : Z -> B -> option B;
  put_slice : bytes -> B -> option B;
  remaining_mut_nonneg b : 0 <= remaining_mut b;
  put_u8_spec z : writes mut_bytes remaining_mut (le_bytes 1 z) (put_u8 z);
  put_u16_le_spec z : writes mut_bytes remaining_mut (le_bytes 2 z) (put_u16_le z);
  put_u32_le_spec z : writes mut_bytes remaining_mut (le_bytes 4 z) (put_u32_le z);
  put_slice_spec l : writes mut_bytes remaining_mut l (put_slice l);
}.

(** ** Instances *)

Definition list_read {A} (n : nat) (f : bytes -> A) (b : bytes) : option (A * bytes) :=
  if decide (n <= length b)%nat then Some (f (take n b), drop n b) else None.

Lemma list_read_spec {A} n (f : bytes -> A) : reads id n f (list_read n f).
Proof.
  intros b; unfold id, list_read; split; intros H; case_decide; try done; [eauto|lia].
Qed.

#[export, refine] Instance list_Buf : Buf bytes := {|
  buf_bytes := id;
  remaining := length;
  get_u8 := list_read 1 le_val;
  get_u16_le := list_read 2 le_val;
  get_u32_le := list_read 4 le_val;
  copy_to_slice n := list_read n id;
  copy_to_bytes n := list_read n id;
|}.
Proof. all: intros; first [done | apply list_read_spec]. Defined.

(** A [Vec<u8>] grows up to [isize::MAX] bytes. *)
Definition vec_room (b : bytes) : Z := Z.max 0 ((2 ^ 63 - 1) - Z.of_nat (length b)).

Lemma vec_room_nonneg b : 0 <= vec_room b.
Proof. unfold vec_room. lia. Qed.

Definition vec_write (l : bytes) (b : bytes) : option bytes :=
  if decide (Z.of_nat (length l) <= vec_room b) then Some (b ++ l) else None.

Lemma vec_write_spec l : writes id vec_room l (vec_write l).
Proof.
  intros b; unfold id, vec_write; split; intros H; case_decide; try done; [|lia].
  eexists; split; [done|]. split; [done|]. unfold vec_room in *. rewrite length_app. lia.
Qed.

#[export, refine] Instance vec_BufMut : BufMut bytes := {|
  mut_bytes := id;
  remaining_mut := vec_room;
  put_u8 z := vec_write (le_bytes 1 z);
  put_u16_le z := vec_write (le_bytes 2 z);
  put_u32_le z := vec_write (le_bytes 4 z);
  put_slice := vec_write;
|}.
Proof. all: intros; first [apply vec_room_nonneg | apply vec_write_spec]. Defined.

(** ** Lemmas: one step of a read or of a write *)

Lemma reads_app {B A} (contents : B -> bytes) n (f : bytes -> A) g b l k :
  reads contents n f g -> contents b = l ++ k -> length l = n ->
  exists b', g b = Some (f l, b') /\ contents b' = k.
Proof.
  intros Hg Hb Hl. destruct (Hg b) as [[b' [E Hb']] _].
  { rewrite Hb, length_app. lia. }
  exists b'. rewrite E, Hb', Hb. by rewrite take_app_exact, drop_app_exact.
Qed.

Lemma reads_split {B A} (contents : B -> bytes) n (f : bytes -> A) g b :
  reads contents n f g -> (n <= length (contents b))%nat ->
  exists l b', g b = Some (f l, b') /\ contents b = l ++ contents b' /\ length l = n.
Proof.
  intros Hg Hn. destruct (Hg b) as [[b' [E Hb']] _]; [done|].
  exists (take n (contents b)), b'. rewrite Hb', take_drop, length_take. split_and!; auto. lia.
Qed.

Lemma writes_step {B} (contents : B -> bytes) room l p b :
  writes contents room l p -> Z.of_nat (length l) <= room b ->
  exists b', p b = Some b' /\ contents b' = contents b ++ l /\
             room b' = room b - Z.of_nat (length l).
Proof. intros Hp Hb. by apply Hp. Qed.

(** Writing one piece after another writes their concatenation. *)
Lemma writes_bind {B} (contents : B -> bytes) room l1 l2 p1 p2 :
  writes contents room l1 p1 -> writes contents room l2 p2 ->
  writes contents room (l1 ++ l2) (fun b => b ← p1 b; p2 b).
Proof.
  intros H1 H2 b. rewrite length_app, Nat2Z.inj_add. split; intros Hb.
  - destruct (writes_step _ _ _ _ b H1) as (b1 & -> & Hc1 & Hr1); [lia|].
    destruct (writes_step _ _ _ _ b1 H2) as (b2 & E2 & Hc2 & Hr2); [lia|].
    exists b2. simpl. rewrite E2, Hc2, Hc1, Hr2, Hr1, app_assoc. split_and!; [done..|lia].
  - destruct (decide (Z.of_nat (length l1) <= room b)) as [Hl|Hl].
    + destruct (writes_step _ _ _ _ b H1) as (b1 & -> & Hc1 & Hr1); [done|].
      apply H2. lia.
    + destruct (H1 b) as [_ ->]; [done|lia].
Qed.

Lemma writes_nil {B} (contents : B -> bytes) room :
  (forall b, 0 <= room b) -> writes contents room [] (fun b => Some b).
Proof.
  intros Hr b. simpl. split; intros Hb; [|specialize (Hr b); lia].
  exists b. rewrite app_nil_r. split_and!; [done..|lia].
Qed.
