(* ===== verification/Str.v ===== *)
(** * Str: the string and slice operations of Rust's standard library the source uses

    A [&str] and a [&[u8]] are both their bytes. Every character the source searches for or splits
    at is ASCII, so [str::split], [str::contains], [str::starts_with] and [str::ends_with] agree
    with the same operations on bytes. *)

From Stdlib Require Import Strings.Byte.
From S2P Require Import Prelude.

(** ** Definitions *)

(** The separator of address levels. *)
Definition colon : Byte.byte := ":"%byte.

(** [slice::split(|b| b == c)] and [str::split(c)]: the empty input has one empty segment. *)
Fixpoint split_on (c : Byte.byte) (l : bytes) : list bytes :=
  match l with
  | [] => [[]]
  | x :: l =>
      if decide (x = c) then [] :: split_on c l
      else match split_on c l with
           | s :: r => (x :: s) :: r
           | [] => [[x]]
           end
  end.

Fixpoint join (c : Byte.byte) (segs : list bytes) : bytes :=
  match segs with
  | [] => []
  | [s] => s
  | s :: segs => s ++ c :: join c segs
  end.

Definition starts_with (p l : bytes) : bool := bool_decide (p `prefix_of` l).
Definition ends_with (p l : bytes) : bool := bool_decide (p `suffix_of` l).

Fixpoint contains (p l : bytes) : bool :=
  starts_with p l || match l with [] => false | _ :: l => contains p l end.

Definition contains_byte (c : Byte.byte) (l : bytes) : bool := bool_decide (c ∈ l).

Definition is_empty (l : bytes) : bool := match l with [] => true | _ => false end.

(** ** Lemmas *)

Section Split.
Context (c : Byte.byte).
Implicit Types l s : bytes.

Lemma split_on_cons l : exists s r, split_on c l = s :: r.
Proof.
  destruct l as [|x l]; simpl; [eauto|]. case_decide; [eauto|].
  destruct (split_on c l); eauto.
Qed.

Lemma split_on_not_nil l : split_on c l <> [].
Proof. destruct (split_on_cons l) as (s & r & ->). done. Qed.

Lemma join_cons s segs : segs <> [] -> join c (s :: segs) = s ++ c :: join c segs.
Proof. by destruct segs. Qed.

Lemma join_snoc segs s : segs <> [] -> join c (segs ++ [s]) = join c segs ++ c :: s.
Proof.
  induction segs as [|t segs IH]; intros Hn; [done|]. destruct segs as [|u segs]; [done|].
  rewrite <-app_comm_cons, (join_cons t ((u :: segs) ++ [s])), IH by done.
  rewrite (join_cons t (u :: segs)) by done. by rewrite <-app_assoc.
Qed.

Lemma is_empty_join segs :
  Forall (fun s => s <> []) segs -> is_empty (join c segs) = true <-> segs = [].
Proof.
  destruct segs as [|s [|t segs]]; [done|..]; rewrite Forall_cons_iff; intros [Hs _];
    by destruct s.
Qed.

Lemma join_split l : join c (split_on c l) = l.
Proof.
  induction l as [|x l IH]; [done|]. cbn [split_on]. case_decide as E.
  - subst x. rewrite join_cons by apply split_on_not_nil. by rewrite IH.
  - destruct (split_on_cons l) as (s & r & Hs). rewrite Hs in IH |- *.
    rewrite <-IH. by destruct r.
Qed.

Lemma split_no_sep l : Forall (fun s => c ∉ s) (split_on c l).
Proof.
  induction l as [|x l IH]; cbn [split_on].
  - repeat constructor. apply not_elem_of_nil.
  - case_decide; [by constructor; [apply not_elem_of_nil|]|].
    destruct (split_on_cons l) as (s & r & Hs). rewrite Hs in IH |- *.
    inversion IH; subst. constructor; [|done]. rewrite not_elem_of_cons. by split.
Qed.

Lemma split_app_sep s l : c ∉ s -> split_on c (s ++ c :: l) = s :: split_on c l.
Proof.
  induction s as [|x s IH]; simpl; [by rewrite decide_True|].
  rewrite not_elem_of_cons. intros [Hx Hs]. rewrite decide_False by done. by rewrite IH.
Qed.

Lemma split_no_sep_id s : c ∉ s -> split_on c s = [s].
Proof.
  induction s as [|x s IH]; [done|]. simpl.
  rewrite not_elem_of_cons. intros [Hx Hs]. rewrite decide_False by done. by rewrite IH.
Qed.

Lemma split_join segs :
  segs <> [] -> Forall (fun s => c ∉ s) segs -> split_on c (join c segs) = segs.
Proof.
  induction segs as [|s segs IH]; [done|]. intros _ H. inversion H; subst.
  destruct segs as [|s' segs]; [by apply split_no_sep_id|].
  rewrite join_cons by done. rewrite split_app_sep by done. by rewrite IH.
Qed.

(** The bytes of the segments are the bytes of the string other than the separator. *)
Lemma elem_of_split x l : x <> c -> (Exists (fun s => x ∈ s) (split_on c l) <-> x ∈ l).
Proof.
  intros Hx. induction l as [|y l IH]; cbn [split_on].
  - rewrite Exists_cons, Exists_nil. set_solver.
  - case_decide as E.
    + rewrite Exists_cons, IH. set_solver.
    + destruct (split_on c l) as [|s r] eqn:Hs; [by apply split_on_not_nil in Hs|].
      rewrite Exists_cons in IH |- *. set_solver.
Qed.

Lemma contains_byte_spec l : contains_byte c l = true <-> c ∈ l.
Proof. apply bool_decide_eq_true. Qed.

Lemma contains_byte_false l : contains_byte c l = false <-> c ∉ l.
Proof. apply bool_decide_eq_false. Qed.
End Split.

Section EmptySegments.
Context (c : Byte.byte).
Implicit Types l : bytes.

Lemma starts_with_cons x y p l :
  starts_with (x :: p) (y :: l) = bool_decide (x = y) && starts_with p l.
Proof.
  unfold starts_with. rewrite <-bool_decide_and. apply bool_decide_ext.
  split; [|intros [-> [k ->]]; by exists k]. intros [k E].
  injection E as <- ->. split; [done|by exists k].
Qed.

Lemma starts_with_nil l : starts_with [] l = true.
Proof. apply bool_decide_eq_true. by exists l. Qed.

Lemma ends_with_cons x l :
  ends_with [c] (x :: l) = if l then bool_decide (x = c) else ends_with [c] l.
Proof.
  unfold ends_with. destruct l as [|y l]; apply bool_decide_ext.
  - split; [|intros ->; by exists []]. intros [[|z k] E]; simplify_eq/=; [done|].
    by destruct k.
  - split; [|intros [k E]; exists (x :: k); by rewrite E].
    intros [[|z k] E]; simplify_eq/=. by exists k.
Qed.

Definition hd_empty (segs : list bytes) : bool :=
  match segs with s :: _ => is_empty s | [] => false end.

Lemma hd_empty_split l : hd_empty (split_on c l) = is_empty l || starts_with [c] l.
Proof.
  destruct l as [|x l]; [done|]. cbn [split_on is_empty orb].
  rewrite starts_with_cons, starts_with_nil, andb_true_r.
  case_decide as E; [by rewrite bool_decide_eq_true_2|].
  rewrite bool_decide_eq_false_2 by done. destruct (split_on c l); done.
Qed.

Lemma tail_empty_split l :
  existsb is_empty (tail (split_on c l)) = contains [c; c] l || ends_with [c] l.
Proof.
  induction l as [|x l IH]; [done|]. cbn [split_on contains].
  rewrite starts_with_cons, ends_with_cons. case_decide as E.
  - subst x. rewrite bool_decide_eq_true_2 by done. cbn [tail].
    pose proof (hd_empty_split l) as Hh. destruct (split_on_cons c l) as (s & r & Hs).
    rewrite Hs in *. cbn in Hh, IH |- *. rewrite Hh, IH.
    destruct l; [done|]. simpl is_empty. by destruct (starts_with [c] _), (contains _ _).
  - rewrite bool_decide_eq_false_2 by done. simpl.
    destruct (split_on_cons c l) as (s & r & Hs). rewrite Hs in *. cbn in IH |- *.
    rewrite IH. destruct l; [|done]. by rewrite bool_decide_eq_false_2.
Qed.

Lemma forall_not_empty segs :
  Forall (fun s => s <> []) segs <-> existsb is_empty segs = false.
Proof.
  induction segs as [|s r IH]; [done|]. cbn [existsb].
  rewrite Forall_cons_iff, orb_false_iff, IH. destruct s; naive_solver.
Qed.

(** No level of a separated string is empty exactly when it does not start or end with the
    separator and holds no two of them in a row. *)
Lemma no_empty_segment l :
  Forall (fun s => s <> []) (split_on c l) <->
  is_empty l = false /\ starts_with [c] l = false /\ ends_with [c] l = false /\
  contains [c; c] l = false.
Proof.
  pose proof (hd_empty_split l) as Hh. pose proof (tail_empty_split l) as Ht.
  destruct (split_on_cons c l) as (s & r & Hs). rewrite Hs in *. cbn in Hh, Ht.
  rewrite forall_not_empty. cbn [existsb].
  rewrite Hh, Ht, !orb_false_iff. tauto.
Qed.
End EmptySegments.

#[export] Hint Rewrite join_split : broker.
