(* ===== verification/Protocol.v ===== *)
(** * Protocol: the binary message format (src/src/protocol/mod.rs)

    Constants, [ProtocolError], [TransferMode], [FixedHeader], [validate_address] and [Message]
    with its constructor, decoder, encoder and size functions. Integer fields are [Z] with the
    casts of the source written out; [[u8; N]] arrays and [Bytes] are byte lists. Decoding is
    generic in a [Buf] and encoding in a [BufMut], as in the source; [None] is a panic. The
    theorems are in ProtocolFacts.v. *)

From Stdlib Require Import Strings.Byte.
From S2P Require Import Prelude.
From S2P Require Import Utf8.
From S2P Require Import BufIface.
From S2P Require Import Str.

Local Open Scope Z_scope.
Local Open Scope broker_scope.

(** ** Constants *)

Definition PROTOCOL_VERSION : Z := 1.
Definition MAX_MSG_TYPE_LEN : Z := 255.
Definition MAX_ADDRESS_LEN : Z := 1024.
Definition MAX_PAYLOAD_LEN : Z := 1048576.
Definition SESSION_TOKEN_LEN : nat := 32.
Definition MESSAGE_ID_LEN : nat := 16.
Definition SUB_MESSAGE_ID_LEN : nat := 4.
Definition FIXED_HEADER_SIZE : nat := 64.
Definition TRANSFER_MODE_MASK : Z := 1.
Definition TRANSFER_MODE_SHIFT : Z := 0.

(** ** Errors *)

Inductive ProtocolError :=
| IncompleteHeader
| UnsupportedVersion (version : Z)
| UnknownTransferMode (mode_bits : Z)
| MsgTypeTooLong (len : Z)
| AddressTooLong (len : Z)
| ReplyToTooLong (len : Z)
| PayloadTooLarge (len : Z)
| IncompleteMsgType
| IncompleteAddress
| IncompleteReplyTo
| IncompletePayload
| InvalidMsgTypeUtf8
| InvalidReplyToUtf8
| InvalidAddressUtf8
| InvalidAddressFormat (reason : bytes)
| EmptyAddressLevel
| MissingReplyToForInOut
| UnexpectedReplyToForInOnly.

#[global] Instance ProtocolError_eq_dec : EqDecision ProtocolError.
Proof. solve_decision. Defined.

(** ** Transfer mode *)

Inductive TransferMode := InOnly | InOut.

#[global] Instance TransferMode_eq_dec : EqDecision TransferMode.
Proof. solve_decision. Defined.

(** The [#[repr(u8)]] discriminant, [mode as u8]. *)
Definition TransferMode_as_u8 (m : TransferMode) : Z :=
  match m with InOnly => 0 | InOut => 1 end.

Definition from_flags (flags : Z) : result TransferMode ProtocolError :=
  let mode_bits := Z.land flags TRANSFER_MODE_MASK in
  match mode_bits with
  | 0 => Ok InOnly
  | 1 => Ok InOut
  | _ => Err (UnknownTransferMode mode_bits)
  end.

Definition to_flags (self : TransferMode) : Z :=
  as_u8 (Z.shiftl (TransferMode_as_u8 self) TRANSFER_MODE_SHIFT).

(** ** Fixed header *)

Record FixedHeader := mkFixedHeader {
  version : Z;
  flags : Z;
  priority : Z;
  session_token : bytes;
  message_id : bytes;
  sub_message_id : bytes;
  ttl : Z;
  msg_type_len : Z;
  address_len : Z;
  payload_len : Z;
}.

#[global] Instance FixedHeader_eq_dec : EqDecision FixedHeader.
Proof. solve_decision. Defined.

Definition FixedHeader_new (mode : TransferMode) (session_token message_id sub_message_id : bytes)
    (priority ttl msg_type_len address_len payload_len : Z) : result FixedHeader ProtocolError :=
  if MAX_MSG_TYPE_LEN <? msg_type_len then Err (MsgTypeTooLong msg_type_len)
  else if MAX_ADDRESS_LEN <? address_len then Err (AddressTooLong address_len)
  else if MAX_PAYLOAD_LEN <? payload_len then Err (PayloadTooLarge payload_len)
  else
    let flags := to_flags mode in
    Ok {|
      version := PROTOCOL_VERSION;
      flags := flags;
      priority := priority;
      session_token := session_token;
      message_id := message_id;
      sub_message_id := sub_message_id;
      ttl := ttl;
      msg_type_len := msg_type_len;
      address_len := address_len;
      payload_len := payload_len;
    |}.

Section HeaderCodec.
Context {B : Type}.

Definition FixedHeader_decode `{Buf B} (buf : B)
    : option (result FixedHeader ProtocolError * B) :=
  if decide (remaining buf < FIXED_HEADER_SIZE)%nat then Some (Err IncompleteHeader, buf) else
  '(version, buf) ← get_u16_le buf;
  if negb (version =? PROTOCOL_VERSION) then Some (Err (UnsupportedVersion version), buf) else
  '(flags, buf) ← get_u8 buf;
  let? _ := from_flags flags with buf in
  '(priority, buf) ← get_u8 buf;
  '(session_token, buf) ← copy_to_slice SESSION_TOKEN_LEN buf;
  '(message_id, buf) ← copy_to_slice MESSAGE_ID_LEN buf;
  '(sub_message_id, buf) ← copy_to_slice SUB_MESSAGE_ID_LEN buf;
  '(ttl, buf) ← get_u8 buf;
  '(msg_type_len, buf) ← get_u8 buf;
  '(address_len, buf) ← get_u16_le buf;
  '(payload_len, buf) ← get_u32_le buf;
  if MAX_MSG_TYPE_LEN <? msg_type_len then Some (Err (MsgTypeTooLong msg_type_len), buf)
  else if MAX_ADDRESS_LEN <? address_len then Some (Err (AddressTooLong address_len), buf)
  else if MAX_PAYLOAD_LEN <? payload_len then Some (Err (PayloadTooLarge payload_len), buf)
  else Some (Ok {|
    version := version;
    flags := flags;
    priority := priority;
    session_token := session_token;
    message_id := message_id;
    sub_message_id := sub_message_id;
    ttl := ttl;
    msg_type_len := msg_type_len;
    address_len := address_len;
    payload_len := payload_len;
  |}, buf).

Definition FixedHeader_encode `{BufMut B} (self : FixedHeader) (buf : B) : option B :=
  buf ← put_u16_le (version self) buf;
  buf ← put_u8 (flags self) buf;
  buf ← put_u8 (priority self) buf;
  buf ← put_slice (session_token self) buf;
  buf ← put_slice (message_id self) buf;
  buf ← put_slice (sub_message_id self) buf;
  buf ← put_u8 (ttl self) buf;
  buf ← put_u8 (msg_type_len self) buf;
  buf ← put_u16_le (address_len self) buf;
  put_u32_le (payload_len self) buf.
End HeaderCodec.

Definition FixedHeader_transfer_mode (self : FixedHeader) : result TransferMode ProtocolError :=
  from_flags (flags self).

(** ** Address validation *)

Definition is_ascii_alphanumeric (b : Byte.byte) : bool :=
  in_range 0x30 0x39 b || in_range 0x41 0x5A b || in_range 0x61 0x7A b.

Definition address_byte (b : Byte.byte) : bool :=
  is_ascii_alphanumeric b || bool_decide (b = "-"%byte) || bool_decide (b = "_"%byte)
  || bool_decide (b = colon).

Definition validate_address (address : bytes) : result unit ProtocolError :=
  if is_empty address then Err (InvalidAddressFormat (bs "Address cannot be empty"))
  else if starts_with [colon] address || ends_with [colon] address
          || contains [colon; colon] address
  then Err EmptyAddressLevel
  else
    let is_valid := forallb address_byte address in
    if negb is_valid then Err (InvalidAddressFormat (bs "Invalid character in address"))
    else Ok tt.

(** ** Full message *)

Record Message := mkMessage {
  header : FixedHeader;
  msg_type : bytes;
  address : bytes;
  reply_to : bytes;
  payload : bytes;
}.

#[global] Instance Message_eq_dec : EqDecision Message.
Proof. solve_decision. Defined.

(** [.len()] of a byte string. *)
Definition len (l : bytes) : Z := Z.of_nat (length l).

(** [str::from_utf8(b).map_err(|_| e)] *)
Definition utf8_or (e : ProtocolError) (b : bytes) : result bytes ProtocolError :=
  match from_utf8 b with Ok s => Ok s | Err _ => Err e end.

Definition Message_new (mode : TransferMode) (session_token message_id sub_message_id : bytes)
    (priority ttl : Z) (msg_type address reply_to payload : bytes)
    : result Message ProtocolError :=
  let? _ :=
    match mode with
    | InOut => if is_empty reply_to then Err MissingReplyToForInOut else Ok tt
    | InOnly => if negb (is_empty reply_to) then Err UnexpectedReplyToForInOnly else Ok tt
    end in
  let? address_str := utf8_or InvalidAddressUtf8 address in
  let? _ := validate_address address_str in
  let? _ :=
    (if negb (is_empty reply_to) then
       let? reply_to_str := utf8_or InvalidReplyToUtf8 reply_to in
       validate_address reply_to_str
     else Ok tt) in
  if MAX_MSG_TYPE_LEN <? len msg_type then Err (MsgTypeTooLong (as_u8 (len msg_type)))
  else if MAX_ADDRESS_LEN <? len address then Err (AddressTooLong (as_u16 (len address)))
  else if MAX_ADDRESS_LEN <? len reply_to then Err (ReplyToTooLong (as_u16 (len reply_to)))
  else
    let payload_len := as_u32 (len payload) in
    if MAX_PAYLOAD_LEN <? payload_len then Err (PayloadTooLarge payload_len) else
    let? header := FixedHeader_new mode session_token message_id sub_message_id priority ttl
                     (as_u8 (len msg_type)) (as_u16 (len address)) payload_len in
    Ok {|
      header := header;
      msg_type := msg_type;
      address := address;
      reply_to := reply_to;
      payload := payload;
    |}.

Section MessageCodec.
Context {B : Type}.

(** The reply-to part of [Message::decode], read only in [InOut] mode. *)
Definition decode_reply_to `{Buf B} (mode : TransferMode) (buf : B)
    : option (result bytes ProtocolError * B) :=
  if decide (mode = InOut) then
    if decide (remaining buf < 2)%nat then Some (Err IncompleteReplyTo, buf) else
    '(reply_to_len, buf) ← get_u16_le buf;
    if reply_to_len =? 0 then Some (Err MissingReplyToForInOut, buf)
    else if MAX_ADDRESS_LEN <? reply_to_len
    then Some (Err (ReplyToTooLong (as_u16 reply_to_len)), buf)
    else if decide (remaining buf < Z.to_nat reply_to_len)%nat
    then Some (Err IncompleteReplyTo, buf) else
    '(reply_to_bytes, buf) ← copy_to_bytes (Z.to_nat reply_to_len) buf;
    let? reply_to_str := utf8_or InvalidReplyToUtf8 reply_to_bytes with buf in
    let? _ := validate_address reply_to_str with buf in
    Some (Ok reply_to_bytes, buf)
  else Some (Ok [], buf).

Definition Message_decode `{Buf B} (buf : B) : option (result Message ProtocolError * B) :=
  '(h, buf) ← FixedHeader_decode buf;
  let? header := h with buf in
  let? mode := FixedHeader_transfer_mode header with buf in
  let msg_type_len := Z.to_nat (msg_type_len header) in
  if decide (remaining buf < msg_type_len)%nat then Some (Err IncompleteMsgType, buf) else
  '(msg_type, buf) ← copy_to_bytes msg_type_len buf;
  let? _ := utf8_or InvalidMsgTypeUtf8 msg_type with buf in
  let address_len := Z.to_nat (address_len header) in
  if decide (remaining buf < address_len)%nat then Some (Err IncompleteAddress, buf) else
  '(address, buf) ← copy_to_bytes address_len buf;
  let? address_str := utf8_or InvalidAddressUtf8 address with buf in
  let? _ := validate_address address_str with buf in
  '(r, buf) ← decode_reply_to mode buf;
  let? reply_to := r with buf in
  let payload_len := Z.to_nat (payload_len header) in
  if decide (remaining buf < payload_len)%nat then Some (Err IncompletePayload, buf) else
  '(payload, buf) ← copy_to_bytes payload_len buf;
  Some (Ok {|
    header := header;
    msg_type := msg_type;
    address := address;
    reply_to := reply_to;
    payload := payload;
  |}, buf).

Definition Message_encode `{BufMut B} (self : Message) (buf : B) : option B :=
  buf ← FixedHeader_encode (header self) buf;
  buf ← put_slice (msg_type self) buf;
  buf ← put_slice (address self) buf;
  buf ←
    (if decide (FixedHeader_transfer_mode (header self) = Ok InOut) then
       buf ← put_u16_le (as_u16 (len (reply_to self))) buf;
       put_slice (reply_to self) buf
     else Some buf);
  put_slice (payload self) buf.
End MessageCodec.

Definition Message_transfer_mode (self : Message) : result TransferMode ProtocolError :=
  FixedHeader_transfer_mode (header self).

Definition variable_header_size (self : Message) : Z :=
  let reply_to_overhead :=
    if decide (Message_transfer_mode self = Ok InOut) then 2 + len (reply_to self) else 0 in
  msg_type_len (header self) + address_len (header self) + reply_to_overhead.

Definition size (self : Message) : Z :=
  Z.of_nat FIXED_HEADER_SIZE + variable_header_size self + payload_len (header self).
