(* ===== verification/ProtocolFacts.v ===== *)
(** * ProtocolFacts: the wire format and the correctness of its codec

    [message_wire] is the layout the README documents, as a function to bytes; [message_wf] is the
    invariant of a message a constructor or the decoder returns. Every theorem is over an arbitrary
    [Buf] and [BufMut] implementation. *)

From Stdlib Require Import Strings.Byte.
From S2P Require Import Prelude.
From S2P Require Import Utf8.
From S2P Require Import BufIface.
From S2P Require Import Str.
From S2P Require Import Protocol.

Local Open Scope Z_scope.

(** ** The wire format *)

Definition header_wire (h : FixedHeader) : bytes :=
  le_bytes 2 (version h) ++ le_bytes 1 (flags h) ++ le_bytes 1 (priority h)
  ++ session_token h ++ message_id h ++ sub_message_id h
  ++ le_bytes 1 (ttl h) ++ le_bytes 1 (msg_type_len h)
  ++ le_bytes 2 (address_len h) ++ le_bytes 4 (payload_len h).

(** The length-prefixed reply-to field, present in [InOut] mode only. *)
Definition reply_wire (m : Message) : bytes :=
  if decide (Message_transfer_mode m = Ok InOut)
  then le_bytes 2 (len (reply_to m)) ++ reply_to m else [].

Definition message_wire (m : Message) : bytes :=
  header_wire (header m) ++ msg_type m ++ address m ++ reply_wire m ++ payload m.

(** The ranges the Rust field types enforce. *)
Record header_typed (h : FixedHeader) : Prop := {
  ht_version : 0 <= version h < 2 ^ 16;
  ht_flags : 0 <= flags h < 2 ^ 8;
  ht_priority : 0 <= priority h < 2 ^ 8;
  ht_token : length (session_token h) = SESSION_TOKEN_LEN;
  ht_id : length (message_id h) = MESSAGE_ID_LEN;
  ht_sub : length (sub_message_id h) = SUB_MESSAGE_ID_LEN;
  ht_ttl : 0 <= ttl h < 2 ^ 8;
  ht_type_len : 0 <= msg_type_len h < 2 ^ 8;
  ht_address_len : 0 <= address_len h < 2 ^ 16;
  ht_payload_len : 0 <= payload_len h < 2 ^ 32;
}.

Record header_valid (h : FixedHeader) : Prop := {
  hv_version : version h = PROTOCOL_VERSION;
  hv_address_len : address_len h <= MAX_ADDRESS_LEN;
  hv_payload_len : payload_len h <= MAX_PAYLOAD_LEN;
}.

(** An address is a colon-separated list of non-empty levels over [a-zA-Z0-9_-]. *)
Definition level_byte (b : Byte.byte) : bool :=
  is_ascii_alphanumeric b || bool_decide (b = "-"%byte) || bool_decide (b = "_"%byte).

Definition valid_level (s : bytes) : Prop := s <> [] /\ Forall (fun b => level_byte b = true) s.

Definition valid_address (a : bytes) : Prop :=
  exists segs, segs <> [] /\ Forall valid_level segs /\ a = join colon segs.

Definition reply_wf (m : Message) : Prop :=
  match Message_transfer_mode m with
  | Ok InOut => valid_address (reply_to m) /\ len (reply_to m) <= MAX_ADDRESS_LEN
  | _ => reply_to m = []
  end.

Record message_wf (m : Message) : Prop := {
  mw_typed : header_typed (header m);
  mw_valid : header_valid (header m);
  mw_type_len : msg_type_len (header m) = len (msg_type m);
  mw_type_utf8 : is_utf8 (msg_type m) = true;
  mw_address_len : address_len (header m) = len (address m);
  mw_address : valid_address (address m);
  mw_payload_len : payload_len (header m) = len (payload m);
  mw_reply : reply_wf m;
}.

(** The errors [FixedHeader::decode] reports, and on which input. *)
Inductive header_error (l : bytes) : ProtocolError -> Prop :=
| he_short : (length l < 64)%nat -> header_error l IncompleteHeader
| he_version v :
    (64 <= length l)%nat -> v = le_val (take 2 l) -> v <> PROTOCOL_VERSION ->
    header_error l (UnsupportedVersion v)
| he_address a :
    (64 <= length l)%nat -> le_val (take 2 l) = PROTOCOL_VERSION ->
    a = le_val (take 2 (drop 58 l)) -> MAX_ADDRESS_LEN < a ->
    header_error l (AddressTooLong a)
| he_payload p :
    (64 <= length l)%nat -> le_val (take 2 l) = PROTOCOL_VERSION ->
    le_val (take 2 (drop 58 l)) <= MAX_ADDRESS_LEN ->
    p = le_val (take 4 (drop 60 l)) -> MAX_PAYLOAD_LEN < p ->
    header_error l (PayloadTooLarge p).

(** ** Flags *)

Lemma land_1_cases z : Z.land z 1 = 0 \/ Z.land z 1 = 1.
Proof.
  change (Z.land z 1) with (Z.land z (Z.ones 1)). rewrite Z.land_ones by lia.
  change (2 ^ 1) with 2. pose proof (Z.mod_pos_bound z 2 ltac:(done)). lia.
Qed.

Lemma from_flags_total z : exists m, from_flags z = Ok m /\ Z.land z 1 = TransferMode_as_u8 m.
Proof.
  unfold from_flags, TRANSFER_MODE_MASK.
  destruct (land_1_cases z) as [-> | ->]; eauto.
Qed.

Lemma from_to_flags m : from_flags (to_flags m) = Ok m.
Proof. by destruct m. Qed.

Lemma to_flags_range m : 0 <= to_flags m < 2 ^ 8.
Proof. by destruct m. Qed.

#[export] Hint Resolve to_flags_range from_to_flags : broker.

(** ** Addresses *)

Lemma address_byte_level b : address_byte b = level_byte b || bool_decide (b = colon).
Proof. done. Qed.

Lemma level_byte_not_colon : level_byte colon = false.
Proof. done. Qed.

Lemma address_byte_ascii b : address_byte b = true -> is_ascii b = true.
Proof. destruct b; vm_compute; congruence. Qed.

Lemma forall_levels l :
  forallb address_byte l = true <->
  Forall (Forall (fun b => level_byte b = true)) (split_on colon l).
Proof.
  induction l as [|x l IH]; cbn [forallb split_on]; [split; repeat constructor|].
  rewrite andb_true_iff, IH, address_byte_level, orb_true_iff, bool_decide_eq_true.
  case_decide as E.
  - rewrite Forall_cons_iff. naive_solver.
  - destruct (split_on_cons colon l) as (s & r & ->).
    rewrite !Forall_cons_iff. naive_solver.
Qed.

(** [validate_address] accepts exactly the documented address syntax. *)
Lemma validate_address_spec a : validate_address a = Ok tt <-> valid_address a.
Proof.
  assert (validate_address a = Ok tt <-> Forall valid_level (split_on colon a)) as ->.
  { unfold valid_level. rewrite list.Forall_and, no_empty_segment, <-forall_levels.
    unfold validate_address.
    destruct (is_empty a), (starts_with [colon] a), (ends_with [colon] a),
      (contains [colon; colon] a), (forallb address_byte a); naive_solver. }
  split.
  - intros H. exists (split_on colon a). rewrite join_split. split_and!; auto.
    apply split_on_not_nil.
  - intros (segs & Hne & H & ->). rewrite split_join; try done.
    eapply list.Forall_impl; [exact H|]. intros s [_ Hs] Hc.
    rewrite list.Forall_forall in Hs. apply Hs in Hc.
    by rewrite level_byte_not_colon in Hc.
Qed.

Lemma valid_address_bytes a : valid_address a -> forallb address_byte a = true.
Proof.
  rewrite <-validate_address_spec. unfold validate_address.
  destruct (is_empty a); [done|]. destruct (_ || _); [done|].
  by destruct (forallb address_byte a).
Qed.

Lemma forallb_impl {A} (f g : A -> bool) l :
  (forall x, f x = true -> g x = true) -> forallb f l = true -> forallb g l = true.
Proof. intros H. rewrite !forallb_forall. auto. Qed.

Lemma valid_address_utf8 a : valid_address a -> is_utf8 a = true.
Proof.
  intros H%valid_address_bytes. apply ascii_is_utf8.
  eapply forallb_impl; [apply address_byte_ascii|done].
Qed.

Lemma valid_address_not_empty a : valid_address a -> is_empty a = false.
Proof.
  rewrite <-validate_address_spec. unfold validate_address. by destruct (is_empty a).
Qed.

Lemma utf8_or_valid e a : is_utf8 a = true -> utf8_or e a = Ok a.
Proof. unfold utf8_or, from_utf8. by intros ->. Qed.

Lemma utf8_or_ok e a s : utf8_or e a = Ok s -> s = a /\ is_utf8 a = true.
Proof. unfold utf8_or, from_utf8. destruct (is_utf8 a); naive_solver. Qed.

#[export] Hint Resolve valid_address_utf8 valid_address_not_empty utf8_or_valid : broker.

(** ** Stepping through a decoder *)

Lemma field_at {A} (pre l k b : list A) n m :
  b = pre ++ l ++ k -> length pre = n -> length l = m -> take m (drop n b) = l.
Proof. intros -> Hn Hm. by rewrite drop_app_exact, take_app_exact. Qed.

Lemma le_val_range_n n l : length l = n -> 0 <= le_val l < 256 ^ Z.of_nat n.
Proof. intros <-. apply le_val_range. Qed.

(** Consume the field written first: [Hb] says the buffer starts with its encoding. *)
Ltac read_field spec Hb :=
  let b' := fresh "buf" in
  let E := fresh "E" in
  let H := fresh "Hb" in
  edestruct (reads_app _ _ _ _ _ _ _ spec Hb) as (b' & E & H);
  [first [apply length_le_bytes | eassumption | reflexivity] |];
  rewrite E; clear E; cbn [mbind option_bind];
  clear Hb; rename H into Hb.

(** Split off the next field of a buffer that is long enough. *)
Ltac split_field spec :=
  let l := fresh "l" in
  let b' := fresh "buf" in
  let E := fresh "E" in
  let H := fresh "Hsplit" in
  let Hl := fresh "Hlen" in
  let Ht := fresh "Htot" in
  match goal with
  | |- context [mbind _ (_ ?b)] =>
      edestruct (reads_split _ _ _ _ b spec) as (l & b' & E & H & Hl); [lia |]
  end;
  rewrite E; clear E; cbn [mbind option_bind];
  pose proof (f_equal length H) as Ht; rewrite length_app in Ht.

(** A branch that returns early, with nothing to show of the result. *)
Ltac early_return := do 2 eexists; split; [reflexivity|exact I].

Section Decoding.
Context {B : Type} `{Buf B}.
Implicit Types b : B.

Lemma remaining_app b l k : buf_bytes b = l ++ k -> (length l <= remaining b)%nat.
Proof. intros E. rewrite remaining_spec, E, length_app. lia. Qed.

Lemma length_header_wire h : header_typed h -> length (header_wire h) = FIXED_HEADER_SIZE.
Proof.
  intros []. unfold header_wire. rewrite !length_app, !length_le_bytes.
  rewrite ht_token0, ht_id0, ht_sub0. done.
Qed.

(** Decoding the encoding of a valid header returns it and leaves the rest of the buffer. *)
Lemma header_decode_wire h k b :
  header_typed h -> header_valid h -> buf_bytes b = header_wire h ++ k ->
  exists b', FixedHeader_decode b = Some (Ok h, b') /\ buf_bytes b' = k.
Proof.
  intros Ht [Hv Ha Hp] Hb. unfold FixedHeader_decode.
  pose proof (remaining_app _ _ _ Hb) as Hr. rewrite length_header_wire in Hr by done.
  rewrite decide_False by lia.
  unfold header_wire in Hb. rewrite <-!app_assoc in Hb. destruct Ht.
  read_field get_u16_le_spec Hb. rewrite le_val_bytes_small, Hv by done. simpl negb.
  read_field get_u8_spec Hb. rewrite le_val_bytes_small by done.
  destruct (from_flags_total (flags h)) as (m & -> & _).
  read_field get_u8_spec Hb. rewrite le_val_bytes_small by done.
  read_field (copy_to_slice_spec SESSION_TOKEN_LEN) Hb.
  read_field (copy_to_slice_spec MESSAGE_ID_LEN) Hb.
  read_field (copy_to_slice_spec SUB_MESSAGE_ID_LEN) Hb.
  read_field get_u8_spec Hb. rewrite le_val_bytes_small by done.
  read_field get_u8_spec Hb. rewrite le_val_bytes_small by done.
  read_field get_u16_le_spec Hb. rewrite le_val_bytes_small by done.
  read_field get_u32_le_spec Hb. rewrite le_val_bytes_small by done.
  rewrite (proj2 (Z.ltb_ge _ _)) by (unfold MAX_MSG_TYPE_LEN; lia).
  rewrite !(proj2 (Z.ltb_ge _ _)) by done.
  eexists. split; [|exact Hb]. destruct h; simpl in *. by subst.
Qed.
(** [FixedHeader::decode] never panics; a header it returns is well formed and its encoding is
    exactly the bytes consumed; an error it returns is the one the input calls for. *)
Lemma header_decode_total b :
  exists r b', FixedHeader_decode b = Some (r, b') /\
    match r with
    | Ok h => header_typed h /\ header_valid h /\ buf_bytes b = header_wire h ++ buf_bytes b'
    | Err e => header_error (buf_bytes b) e
    end.
Proof.
  unfold FixedHeader_decode. rewrite remaining_spec. case_decide as Hlen64.
  { do 2 eexists. split; [done|]. by apply he_short. }
  unfold FIXED_HEADER_SIZE in Hlen64.
  split_field get_u16_le_spec.
  unfold SESSION_TOKEN_LEN, MESSAGE_ID_LEN, SUB_MESSAGE_ID_LEN.
  assert (l = take 2 (buf_bytes b)) as Hl by (by rewrite Hsplit, take_app_exact).
  destruct (Z.eqb_spec (le_val l) PROTOCOL_VERSION) as [Hv|Hv]; simpl negb; cbv iota.
  2:{ do 2 eexists. split; [done|]. apply he_version; subst; [lia|done|done]. }
  split_field get_u8_spec.
  destruct (from_flags_total (le_val l0)) as (m & -> & _).
  split_field get_u8_spec.
  split_field (copy_to_slice_spec 32).
  split_field (copy_to_slice_spec 16).
  split_field (copy_to_slice_spec 4).
  split_field get_u8_spec.
  split_field get_u8_spec.
  split_field get_u16_le_spec.
  split_field get_u32_le_spec.
  assert (buf_bytes b = l ++ l0 ++ l1 ++ l2 ++ l3 ++ l4 ++ l5 ++ l6 ++ l7 ++ l8 ++ buf_bytes buf8)
    as Hb by congruence.
  assert (take 2 (drop 58 (buf_bytes b)) = l7) as H7.
  { apply (field_at (l ++ l0 ++ l1 ++ l2 ++ l3 ++ l4 ++ l5 ++ l6) _ (l8 ++ buf_bytes buf8));
      rewrite ?length_app; [by rewrite Hb, <-!app_assoc|lia..]. }
  assert (take 4 (drop 60 (buf_bytes b)) = l8) as H8.
  { apply (field_at (l ++ l0 ++ l1 ++ l2 ++ l3 ++ l4 ++ l5 ++ l6 ++ l7) _ (buf_bytes buf8));
      rewrite ?length_app; [by rewrite Hb, <-!app_assoc|lia..]. }
  rewrite (proj2 (Z.ltb_ge MAX_MSG_TYPE_LEN _)).
  2:{ pose proof (le_val_range_n 1 l6 Hlen6). unfold MAX_MSG_TYPE_LEN. lia. }
  destruct (Z.ltb_spec MAX_ADDRESS_LEN (le_val l7)).
  { do 2 eexists. split; [done|]. apply he_address; subst; [lia|done..]. }
  destruct (Z.ltb_spec MAX_PAYLOAD_LEN (le_val l8)).
  { do 2 eexists. split; [done|]. apply he_payload; subst; [lia|done..]. }
  do 2 eexists. split; [reflexivity|]. split_and!.
  - split; simpl; first [done | by apply (le_val_range_n 2) | by apply (le_val_range_n 1)
      | by apply (le_val_range_n 4)].
  - by split.
  - unfold header_wire. cbn [version flags priority session_token message_id sub_message_id ttl
      msg_type_len address_len payload_len id].
    rewrite !le_bytes_val' by done. by rewrite Hb, <-!app_assoc.
Qed.

Lemma len_small l n : len l <= n -> n < 2 ^ 16 -> 0 <= len l < 256 ^ Z.of_nat 2.
Proof. unfold len. simpl. lia. Qed.

(** The reply-to field of a well-formed message decodes to itself. *)
Lemma reply_decode_wire m k b :
  reply_wf m -> buf_bytes b = reply_wire m ++ k ->
  exists mode b', Message_transfer_mode m = Ok mode /\
    decode_reply_to mode b = Some (Ok (reply_to m), b') /\ buf_bytes b' = k.
Proof.
  unfold reply_wf, reply_wire, decode_reply_to, Message_transfer_mode,
    FixedHeader_transfer_mode.
  destruct (from_flags_total (flags (header m))) as (mode & E & _). rewrite E.
  intros Hwf Hb. destruct mode.
  { rewrite decide_False in Hb by done. do 2 eexists. split; [done|].
    rewrite decide_False by done. by rewrite Hwf. }
  destruct Hwf as [Hva Hlen]. rewrite decide_True in Hb by done.
  rewrite <-app_assoc in Hb. exists InOut.
  pose proof (remaining_app _ _ _ Hb) as Hr. rewrite length_le_bytes in Hr.
  rewrite decide_True by done. rewrite decide_False by lia.
  read_field get_u16_le_spec Hb.
  rewrite le_val_bytes_small by (by apply (len_small _ MAX_ADDRESS_LEN)).
  rewrite (proj2 (Z.eqb_neq _ _)).
  2:{ pose proof (valid_address_not_empty _ Hva). destruct (reply_to m); [done|].
      unfold len. simpl. lia. }
  rewrite (proj2 (Z.ltb_ge _ _)) by done.
  pose proof (remaining_app _ _ _ Hb) as Hr'. unfold len in *. rewrite Nat2Z.id.
  rewrite decide_False by lia.
  read_field (copy_to_bytes_spec (length (reply_to m))) Hb.
  rewrite utf8_or_valid by auto with broker.
  rewrite (proj2 (validate_address_spec _)) by done. eauto.
Qed.

Lemma reply_decode_total mode b :
  exists r b', decode_reply_to mode b = Some (r, b') /\
    match r with
    | Ok a => buf_bytes b =
                (if decide (mode = InOut) then le_bytes 2 (len a) ++ a else []) ++ buf_bytes b' /\
              match mode with
              | InOut => valid_address a /\ len a <= MAX_ADDRESS_LEN
              | InOnly => a = []
              end
    | Err _ => True
    end.
Proof.
  unfold decode_reply_to. destruct mode; [by rewrite decide_False by done; do 2 eexists|].
  rewrite decide_True by done. rewrite remaining_spec. case_decide; [early_return|].
  split_field get_u16_le_spec. pose proof (le_val_range_n 2 l Hlen) as Hr.
  destruct (Z.eqb_spec (le_val l) 0); [early_return|].
  destruct (Z.ltb_spec MAX_ADDRESS_LEN (le_val l)); [early_return|].
  rewrite remaining_spec. case_decide; [early_return|].
  split_field (copy_to_bytes_spec (Z.to_nat (le_val l))). unfold id.
  destruct (utf8_or InvalidReplyToUtf8 l0) as [s|] eqn:Eu; [|early_return].
  apply utf8_or_ok in Eu as [-> _].
  destruct (validate_address l0) as [[]|] eqn:Ev; [|early_return].
  apply validate_address_spec in Ev. do 2 eexists. split; [reflexivity|]. cbv beta iota.
  assert (len l0 = le_val l) as El by (unfold len; lia).
  rewrite decide_True by done. rewrite El, le_bytes_val' by done.
  rewrite Hsplit, Hsplit0, app_assoc. split; [done|]. split; [done|lia].
Qed.

Lemma len_nat l : Z.to_nat (len l) = length l.
Proof. unfold len. lia. Qed.

(** Decoding the encoding of a well-formed message returns it and leaves the rest. *)
Lemma message_decode_wire m k b :
  message_wf m -> buf_bytes b = message_wire m ++ k ->
  exists b', Message_decode b = Some (Ok m, b') /\ buf_bytes b' = k.
Proof.
  intros Hwf Hb. destruct Hwf. unfold Message_decode, message_wire in *.
  rewrite <-!app_assoc in Hb.
  destruct (header_decode_wire _ _ _ mw_typed0 mw_valid0 Hb) as (b1 & -> & Hb1).
  cbn [mbind option_bind]. clear Hb.
  unfold FixedHeader_transfer_mode.
  destruct (from_flags_total (flags (header m))) as (mode & Em & _). rewrite Em.
  rewrite mw_type_len0, mw_address_len0, mw_payload_len0, !len_nat.
  pose proof (remaining_app _ _ _ Hb1). rewrite decide_False by lia.
  read_field (copy_to_bytes_spec (length (msg_type m))) Hb1.
  unfold id at 1. rewrite utf8_or_valid by done.
  pose proof (remaining_app _ _ _ Hb1). rewrite decide_False by lia.
  read_field (copy_to_bytes_spec (length (address m))) Hb1.
  unfold id at 1. rewrite utf8_or_valid by auto with broker.
  rewrite (proj2 (validate_address_spec _)) by done.
  destruct (reply_decode_wire m _ _ mw_reply0 Hb1) as (mode' & b' & E' & Ed & Hb').
  unfold Message_transfer_mode, FixedHeader_transfer_mode in E'.
  assert (mode' = mode) as -> by congruence. rewrite Ed. cbn [mbind option_bind].
  pose proof (remaining_app _ _ _ Hb'). rewrite decide_False by lia.
  read_field (copy_to_bytes_spec (length (payload m))) Hb'.
  eexists. split; [|exact Hb']. by destruct m.
Qed.

(** [Message::decode] never panics, and a message it returns is well formed and encodes to
    exactly the bytes consumed. *)
Lemma message_decode_total b :
  exists r b', Message_decode b = Some (r, b') /\
    match r with
    | Ok m => message_wf m /\ buf_bytes b = message_wire m ++ buf_bytes b'
    | Err _ => True
    end.
Proof.
  unfold Message_decode.
  destruct (header_decode_total b) as (r & b0 & -> & Hh). cbn [mbind option_bind].
  destruct r as [h|e]; [|early_return]. destruct Hh as (Ht & Hv & Hb).
  unfold FixedHeader_transfer_mode.
  destruct (from_flags_total (flags h)) as (mode & Em & _). rewrite Em.
  rewrite remaining_spec. case_decide; [early_return|].
  split_field (copy_to_bytes_spec (Z.to_nat (msg_type_len h))). unfold id.
  destruct (utf8_or InvalidMsgTypeUtf8 l) as [s|] eqn:Eu; [|early_return].
  apply utf8_or_ok in Eu as [_ Hu].
  rewrite remaining_spec. case_decide; [early_return|].
  split_field (copy_to_bytes_spec (Z.to_nat (address_len h))). unfold id.
  destruct (utf8_or InvalidAddressUtf8 l0) as [s'|] eqn:Eu'; [|early_return].
  apply utf8_or_ok in Eu' as [-> _].
  destruct (validate_address l0) as [[]|] eqn:Ea; [|early_return].
  apply validate_address_spec in Ea.
  destruct (reply_decode_total mode buf0) as (r & b1 & -> & Hr). cbn [mbind option_bind].
  destruct r as [rt|e]; [|early_return]. destruct Hr as [Hb1 Hrt].
  rewrite remaining_spec. case_goal_decide; [early_return|].
  split_field (copy_to_bytes_spec (Z.to_nat (payload_len h))). unfold id.
  do 2 eexists. split; [reflexivity|]. cbv beta iota.
  destruct Ht, Hv. unfold message_wire, reply_wire, Message_transfer_mode,
    FixedHeader_transfer_mode. cbn [header msg_type address reply_to payload].
  rewrite Em. split.
  - split; simpl; try done; unfold len; try lia; [by split..|].
    unfold reply_wf, Message_transfer_mode, FixedHeader_transfer_mode. simpl.
    rewrite Em. by destruct mode.
  - rewrite Hb, Hsplit, Hsplit0, Hb1, Hsplit1, <-!app_assoc. by destruct mode.
Qed.
End Decoding.
