(* ===== verification/ProtocolProps.v ===== *)
(** * ProtocolProps: the properties of the protocol codec

    Round trips, totality, error behaviour and bounds of src/src/protocol/mod.rs, each for every
    implementation of [Buf] and [BufMut]; and the cases in which the constructor accepts what the
    decoder will not give back. *)

From Stdlib Require Import Strings.Byte.
From S2P Require Import Prelude.
From S2P Require Import Utf8.
From S2P Require Import BufIface.
From S2P Require Import Str.
From S2P Require Import Protocol.
From S2P Require Import ProtocolFacts.

Local Open Scope Z_scope.

(** ** Encoding *)

Section Encoding.
Context {B : Type} `{BufMut B}.

Lemma header_encode_writes h :
  writes mut_bytes remaining_mut (header_wire h) (FixedHeader_encode h).
Proof.
  unfold FixedHeader_encode, header_wire.
  repeat (apply writes_bind; [first [apply put_u8_spec | apply put_u16_le_spec
    | apply put_slice_spec]|]).
  apply put_u32_le_spec.
Qed.

Lemma message_encode_writes m :
  writes mut_bytes remaining_mut (message_wire m) (Message_encode m).
Proof.
  unfold Message_encode, message_wire, reply_wire, Message_transfer_mode.
  apply writes_bind; [apply header_encode_writes|].
  apply writes_bind; [apply put_slice_spec|].
  apply writes_bind; [apply put_slice_spec|].
  apply writes_bind; [|apply put_slice_spec].
  case_goal_decide; [|apply writes_nil, remaining_mut_nonneg].
  apply writes_bind; [|apply put_slice_spec].
  rewrite <-le_bytes_as_u16. apply put_u16_le_spec.
Qed.
End Encoding.

(** ** Construction *)

Section New.
Context (mode : TransferMode) (token id sub : bytes) (prio ttl : Z).
Context (mt a r p : bytes).

(** What [Message::new] requires: the payload is compared after its length is cast to [u32]. *)
Record new_ok : Prop := {
  no_mode : mode = InOut <-> r <> [];
  no_address : valid_address a;
  no_reply : r <> [] -> valid_address r;
  no_type_len : len mt <= MAX_MSG_TYPE_LEN;
  no_address_len : len a <= MAX_ADDRESS_LEN;
  no_reply_len : len r <= MAX_ADDRESS_LEN;
  no_payload_len : as_u32 (len p) <= MAX_PAYLOAD_LEN;
}.

Definition new_message : Message :=
  {| header := {| version := PROTOCOL_VERSION; flags := to_flags mode; priority := prio;
                  session_token := token; message_id := id; sub_message_id := sub;
                  Protocol.ttl := ttl; msg_type_len := len mt; address_len := len a;
                  payload_len := as_u32 (len p) |};
     msg_type := mt; address := a; reply_to := r; payload := p |}.

Lemma as_u8_len l : len l <= MAX_MSG_TYPE_LEN -> as_u8 (len l) = len l.
Proof. intros H. apply Z.mod_small. unfold len, MAX_MSG_TYPE_LEN in *. lia. Qed.

Lemma as_u16_len l : len l <= MAX_ADDRESS_LEN -> as_u16 (len l) = len l.
Proof. intros H. apply Z.mod_small. unfold len, MAX_ADDRESS_LEN in *. lia. Qed.

Lemma utf8_validate e x :
  (exists s, utf8_or e x = Ok s /\ validate_address s = Ok tt) <-> valid_address x.
Proof.
  split.
  - intros (s & E & Hs). apply utf8_or_ok in E as [-> _]. by apply validate_address_spec.
  - intros Hx. exists x. split; [auto with broker|]. by apply validate_address_spec.
Qed.

Lemma message_new_complete :
  new_ok -> Message_new mode token id sub prio ttl mt a r p = Ok new_message.
Proof.
  intros []. unfold Message_new.
  replace (match mode with InOut => _ | InOnly => _ end) with (@Ok unit ProtocolError tt)
    by (destruct mode, r; naive_solver).
  rewrite utf8_or_valid, (proj2 (validate_address_spec a)) by auto with broker.
  replace (if negb (is_empty r) then _ else _) with (@Ok unit ProtocolError tt).
  2:{ destruct r as [|x l]; [done|]. simpl negb. cbv iota.
      assert (valid_address (x :: l)) as Hr by by apply no_reply0.
      by rewrite utf8_or_valid, (proj2 (validate_address_spec _)) by auto with broker. }
  rewrite as_u8_len, as_u16_len by done. unfold FixedHeader_new.
  by rewrite !(proj2 (Z.ltb_ge _ _)) by done.
Qed.

Lemma message_new_sound m :
  Message_new mode token id sub prio ttl mt a r p = Ok m -> new_ok.
Proof.
  unfold Message_new. intros Hm.
  destruct (match mode with InOut => _ | InOnly => _ end) as [[]|] eqn:Emode; [|done].
  destruct (utf8_or InvalidAddressUtf8 a) as [s|] eqn:Ea; [|done].
  destruct (validate_address s) as [[]|] eqn:Eva; [|done].
  destruct (if negb (is_empty r) then _ else _) as [[]|] eqn:Er in Hm; [|done].
  destruct (Z.ltb_spec MAX_MSG_TYPE_LEN (len mt)); [done|].
  destruct (Z.ltb_spec MAX_ADDRESS_LEN (len a)); [done|].
  destruct (Z.ltb_spec MAX_ADDRESS_LEN (len r)); [done|].
  destruct (Z.ltb_spec MAX_PAYLOAD_LEN (as_u32 (len p))); [done|].
  split; try done.
  - destruct mode, r; naive_solver.
  - apply (utf8_validate InvalidAddressUtf8). eauto.
  - intros Hne. apply (utf8_validate InvalidReplyToUtf8).
    destruct r; [done|]. simpl negb in Er. cbv iota in Er.
    destruct (utf8_or InvalidReplyToUtf8 _) as [s'|]; [|done]. eauto.
Qed.
End New.

(** The ranges the argument types of [Message::new] enforce. *)
Record args_typed (token id sub : bytes) (prio ttl : Z) : Prop := {
  at_token : length token = SESSION_TOKEN_LEN;
  at_id : length id = MESSAGE_ID_LEN;
  at_sub : length sub = SUB_MESSAGE_ID_LEN;
  at_prio : 0 <= prio < 2 ^ 8;
  at_ttl : 0 <= ttl < 2 ^ 8;
}.

Lemma as_u32_bounds z : 0 <= as_u32 z < 2 ^ 32.
Proof. by apply Z.mod_pos_bound. Qed.

Lemma len_nonneg l : 0 <= len l.
Proof. unfold len. lia. Qed.

#[export] Hint Resolve as_u32_bounds len_nonneg : broker.

Lemma new_header_typed mode token id sub prio ttl mt a r p :
  args_typed token id sub prio ttl -> new_ok mode mt a r p ->
  header_typed (header (new_message mode token id sub prio ttl mt a r p)).
Proof.
  intros [] []. pose proof (len_nonneg mt). pose proof (len_nonneg a).
  unfold MAX_MSG_TYPE_LEN, MAX_ADDRESS_LEN in *.
  split; simpl; auto with broker; first [done | lia].
Qed.

(** A message with the fields of a constructed one, whose payload has the recorded length. *)
Lemma new_message_wf mode token id sub prio ttl mt a r p p' :
  args_typed token id sub prio ttl -> new_ok mode mt a r p ->
  is_utf8 mt = true -> len p' = as_u32 (len p) ->
  let m := new_message mode token id sub prio ttl mt a r p in
  message_wf {| header := header m; msg_type := mt; address := a; reply_to := r; payload := p' |}.
Proof.
  intros Ht Hok Hu Hp m. pose proof (new_header_typed _ _ _ _ _ _ _ _ _ _ Ht Hok).
  destruct Hok. split; try done.
  unfold reply_wf, Message_transfer_mode, FixedHeader_transfer_mode. simpl.
  rewrite from_to_flags. destruct mode.
  - destruct r; [done|]. by discriminate (proj2 no_mode0).
  - split; [|done]. by apply no_reply0, no_mode0.
Qed.

Lemma message_size m : message_wf m -> size m = len (message_wire m).
Proof.
  intros []. unfold size, variable_header_size, message_wire, reply_wire, len in *.
  rewrite !length_app, length_header_wire by done.
  destruct (decide (Message_transfer_mode m = Ok InOut)); simpl length;
    rewrite ?length_app, ?length_le_bytes; lia.
Qed.

(** Encoding a well-formed message into a buffer with room for [size] bytes appends its wire
    form. *)
Lemma message_encode_wire {W} `{BufMut W} m (out : W) :
  message_wf m -> size m <= remaining_mut out ->
  exists out', Message_encode m out = Some out' /\ mut_bytes out' = mut_bytes out ++ message_wire m.
Proof.
  intros Hwf Hs. rewrite message_size in Hs by done.
  destruct (writes_step _ _ _ _ out (message_encode_writes m)) as (out' & E & Hout & _); eauto.
Qed.

(** The errors that say more input is needed. *)
Definition incomplete_errors : list ProtocolError :=
  [IncompleteHeader; IncompleteMsgType; IncompleteAddress; IncompleteReplyTo; IncompletePayload].

(** A prefix of [f ++ k] either ends inside [f] or holds all of it. *)
Lemma prefix_step (f k p q : bytes) :
  p ++ q = f ++ k ->
  (length p < length f)%nat \/ exists p', p = f ++ p' /\ p' ++ q = k.
Proof.
  intros E. destruct (decide (length p < length f)%nat) as [Hl|Hl]; [by left|right].
  assert (f = take (length f) p) as Hf.
  { apply (f_equal (take (length f))) in E. rewrite take_app_length in E.
    rewrite take_app_le in E by lia. done. }
  exists (drop (length f) p). rewrite Hf at 1. rewrite take_drop. split; [done|].
  apply (f_equal (drop (length f))) in E.
  by rewrite drop_app_length, drop_app_le in E by lia.
Qed.

Section Truncation.
Context {R : Type} `{Buf R}.

Lemma reply_decode_prefix m (b : R) q k mode :
  reply_wf m -> Message_transfer_mode m = Ok mode ->
  buf_bytes b ++ q = reply_wire m ++ k -> (length (buf_bytes b) < length (reply_wire m))%nat ->
  exists b', decode_reply_to mode b = Some (Err IncompleteReplyTo, b').
Proof.
  unfold reply_wf, reply_wire, decode_reply_to. intros Hwf Em Hb Hl. rewrite Em in *.
  destruct mode; [rewrite decide_False in Hl by done; simpl in Hl; lia|].
  rewrite decide_True in Hb, Hl by done. destruct Hwf as [Hva Hlen].
  rewrite decide_True by done. rewrite remaining_spec.
  rewrite <-app_assoc in Hb. destruct (prefix_step _ _ _ _ Hb) as [Hs|(p' & Hp & Hk)].
  { rewrite length_le_bytes in Hs. rewrite decide_True by done. eauto. }
  pose proof (f_equal length Hp) as HL. rewrite length_app, length_le_bytes in HL.
  rewrite decide_False by lia.
  read_field get_u16_le_spec Hp. rewrite le_val_bytes_small by (by eapply len_small).
  rewrite length_app, length_le_bytes in Hl.
  rewrite (proj2 (Z.eqb_neq _ _)).
  2:{ pose proof (valid_address_not_empty _ Hva). destruct (reply_to m); [done|].
      unfold len. simpl. lia. }
  rewrite (proj2 (Z.ltb_ge _ _)) by done. rewrite remaining_spec, Hp, len_nat.
  rewrite decide_True by lia. eauto.
Qed.

Lemma message_decode_prefix m (b : R) q :
  message_wf m -> q <> [] -> message_wire m = buf_bytes b ++ q ->
  exists e b', Message_decode b = Some (Err e, b') /\ e ∈ incomplete_errors.
Proof.
  intros [] Hq Hb. symmetry in Hb. unfold message_wire in Hb. unfold Message_decode.
  destruct (prefix_step _ _ _ _ Hb) as [Hs|(p & Hp & Hk)].
  { unfold FixedHeader_decode. rewrite length_header_wire in Hs by done.
    rewrite remaining_spec, decide_True by done.
    do 2 eexists. split; [reflexivity|]. set_solver. }
  destruct (header_decode_wire _ _ _ mw_typed mw_valid Hp) as (b1 & -> & Hb1).
  cbn [mbind option_bind]. unfold FixedHeader_transfer_mode.
  destruct (from_flags_total (flags (header m))) as (mode & Em & _). rewrite Em.
  rewrite mw_type_len, mw_address_len, mw_payload_len, !len_nat.
  rewrite <-Hb1 in Hk. rewrite remaining_spec.
  destruct (prefix_step _ _ _ _ Hk) as [Hs|(p1 & Hp1 & Hk1)].
  { rewrite decide_True by done. do 2 eexists. split; [reflexivity|]. set_solver. }
  rewrite decide_False by (rewrite Hp1, length_app; lia).
  read_field (copy_to_bytes_spec (length (msg_type m))) Hp1.
  unfold id at 1. rewrite utf8_or_valid by done. rewrite <-Hp1 in Hk1. rewrite remaining_spec.
  destruct (prefix_step _ _ _ _ Hk1) as [Hs|(p2 & Hp2 & Hk2)].
  { rewrite decide_True by done. do 2 eexists. split; [reflexivity|]. set_solver. }
  rewrite decide_False by (rewrite Hp2, length_app; lia).
  read_field (copy_to_bytes_spec (length (address m))) Hp2.
  unfold id at 1. rewrite utf8_or_valid by auto with broker.
  rewrite (proj2 (validate_address_spec _)) by done. rewrite <-Hp2 in Hk2.
  destruct (prefix_step _ _ _ _ Hk2) as [Hs|(p3 & Hp3 & Hk3)].
  { destruct (reply_decode_prefix m buf0 q _ mode mw_reply Em Hk2 Hs) as (b' & ->).
    do 2 eexists. split; [reflexivity|]. set_solver. }
  destruct (reply_decode_wire m _ _ mw_reply Hp3) as (mode' & b' & E' & Ed & Hb').
  unfold Message_transfer_mode, FixedHeader_transfer_mode in E'.
  assert (mode' = mode) as -> by congruence. rewrite Ed. cbn [mbind option_bind].
  rewrite remaining_spec, Hb'. rewrite decide_True.
  - do 2 eexists. split; [reflexivity|]. set_solver.
  - rewrite <-Hk3, length_app. destruct q; [done|]. simpl. lia.
Qed.
End Truncation.

Section Properties.
Context {R W : Type} `{Buf R, BufMut W}.

(** C1: Round trip. A message [Message::new] returns, with a UTF-8 type and a payload under
    4 GiB, is encoded by appending some bytes, and decoding those bytes in front of any others
    returns the same message and leaves the others unread. *)
Theorem message_roundtrip mode token id sub prio ttl mt a r p m (out : W) :
  args_typed token id sub prio ttl -> is_utf8 mt = true -> len p < 2 ^ 32 ->
  Message_new mode token id sub prio ttl mt a r p = Ok m ->
  size m <= remaining_mut out ->
  exists w out', Message_encode m out = Some out' /\ mut_bytes out' = mut_bytes out ++ w /\
    forall (inp : R) rest, buf_bytes inp = w ++ rest ->
      exists inp', Message_decode inp = Some (Ok m, inp') /\ buf_bytes inp' = rest.
Proof.
  intros Ht Hu Hp Hm Hs. pose proof (message_new_sound _ _ _ _ _ _ _ _ _ _ _ Hm) as Hok.
  rewrite (message_new_complete _ _ _ _ _ _ _ _ _ _ Hok) in Hm. injection Hm as <-.
  assert (message_wf (new_message mode token id sub prio ttl mt a r p)) as Hwf.
  { apply (new_message_wf mode token id sub prio ttl mt a r p p); try done.
    unfold as_u32. rewrite Z.mod_small; [done|]. split; [apply len_nonneg|done]. }
  destruct (message_encode_wire _ out Hwf Hs) as (out' & E & Hout).
  do 2 eexists. split; [exact E|]. split; [exact Hout|].
  intros inp rest Hb. eauto using message_decode_wire.
Qed.

(** C24: Decoding is total and exact. On every input [Message::decode] returns without a panic;
    when it returns a message, the bytes consumed are the ones [Message::encode] writes for it,
    the recorded lengths are those of the fields, both addresses are valid, and [reply_to] is
    present exactly in [InOut] mode. *)
Theorem message_decode_sound (inp : R) :
  exists r inp', Message_decode inp = Some (r, inp') /\
    forall m, r = Ok m ->
      exists w, buf_bytes inp = w ++ buf_bytes inp' /\ message_wf m /\ size m = len w /\
        forall out : W, len w <= remaining_mut out ->
          exists out', Message_encode m out = Some out' /\ mut_bytes out' = mut_bytes out ++ w.
Proof.
  destruct (message_decode_total inp) as (r & inp' & -> & Hr).
  do 2 eexists. split; [done|]. intros m ->. destruct Hr as [Hwf Hb].
  exists (message_wire m). rewrite <-message_size by done. split_and!; auto.
  intros out Hs. by apply message_encode_wire.
Qed.

(** A truncated message is reported as incomplete: decoding a strict prefix of an encoding
    returns the error that names the first missing part, never a message and never another
    error. *)
Theorem message_decode_truncated m (inp : R) w' :
  message_wf m -> w' <> [] -> message_wire m = buf_bytes inp ++ w' ->
  exists e inp', Message_decode inp = Some (Err e, inp') /\ e ∈ incomplete_errors.
Proof. intros. by eapply message_decode_prefix. Qed.
End Properties.

(** C30: [Message::new] returns a message exactly when the mode and [reply_to] agree, the addresses
    are valid and the lengths are within the limits (the payload's after its cast to [u32]); the
    message then holds the arguments, the current version and the mode's flags. *)
Theorem message_new_spec mode token id sub prio ttl mt a r p m :
  Message_new mode token id sub prio ttl mt a r p = Ok m <->
  new_ok mode mt a r p /\ m = new_message mode token id sub prio ttl mt a r p.
Proof.
  split.
  - intros Hm. pose proof (message_new_sound _ _ _ _ _ _ _ _ _ _ _ Hm) as Hok.
    split; [done|]. rewrite message_new_complete in Hm by done. congruence.
  - intros [Hok ->]. by apply message_new_complete.
Qed.

(** C31: [validate_address] accepts exactly the non-empty colon-separated lists of non-empty levels
    over [a-zA-Z0-9_-]. *)
Theorem validate_address_correct a : validate_address a = Ok tt <-> valid_address a.
Proof. apply validate_address_spec. Qed.

(** [FixedHeader::decode] never panics. It reports a short input, an unsupported version, or
    an address or payload length over its limit, in that order, and nothing else; otherwise it
    returns the header whose 64-byte encoding was consumed. *)
Theorem header_decode_spec {R} `{Buf R} (inp : R) :
  exists r inp', FixedHeader_decode inp = Some (r, inp') /\
    match r with
    | Ok h => header_valid h /\ length (header_wire h) = FIXED_HEADER_SIZE /\
              buf_bytes inp = header_wire h ++ buf_bytes inp'
    | Err e => header_error (buf_bytes inp) e
    end.
Proof.
  destruct (header_decode_total inp) as (r & inp' & E & Hr). do 2 eexists. split; [exact E|].
  destruct r; [|done]. destruct Hr as (Ht & Hv & Hb). split_and!; auto using length_header_wire.
Qed.

(** ** What the constructor accepts and the decoder does not give back *)

(** C40: A payload of 4 GiB or more passes the limit check of [Message::new], because its length is
    first cast to [u32]: the message is accepted with a truncated length, and decoding its
    encoding returns another message, with a shorter payload. *)
Theorem payload_length_wraps {R} `{Buf R} mode token id sub prio ttl mt a r p :
  args_typed token id sub prio ttl -> is_utf8 mt = true ->
  new_ok mode mt a r p -> 2 ^ 32 <= len p ->
  exists m, Message_new mode token id sub prio ttl mt a r p = Ok m /\
    payload_len (header m) < len (payload m) /\
    forall inp : R, buf_bytes inp = message_wire m ->
      exists m' inp', Message_decode inp = Some (Ok m', inp') /\
        payload m' = take (Z.to_nat (as_u32 (len p))) p /\ m' <> m /\
        buf_bytes inp' = drop (Z.to_nat (as_u32 (len p))) p.
Proof.
  intros Ht Hu Hok Hp. rewrite message_new_complete by done. eexists. split; [reflexivity|].
  pose proof (as_u32_bounds (len p)) as Hb. split; [simpl; lia|]. intros inp Hinp.
  set (n := Z.to_nat (as_u32 (len p))).
  assert (len (take n p) = as_u32 (len p)) as Hn.
  { unfold len, n. rewrite length_take. unfold len in Hp, Hb |- *. lia. }
  pose proof (new_message_wf _ _ _ _ _ _ _ _ _ _ (take n p) Ht Hok Hu Hn) as Hwf.
  cbv zeta in Hwf.
  match type of Hwf with message_wf ?m' =>
    destruct (message_decode_wire m' (drop n p) inp Hwf) as (inp' & E & Hr) end.
  { rewrite Hinp. unfold message_wire, reply_wire, Message_transfer_mode. simpl.
    by rewrite <-!app_assoc, take_drop. }
  do 2 eexists. split; [exact E|]. split_and!; [done| |done].
  intros [= Heq]. rewrite Heq in Hn. lia.
Qed.

(** [Message::new] does not check that the message type is UTF-8, and the decoder does: a
    message with any other type is built and encoded but its encoding is rejected. *)
Theorem message_type_utf8_unchecked {R} `{Buf R} mode token id sub prio ttl mt a r p (inp : R) :
  args_typed token id sub prio ttl -> is_utf8 mt = false -> new_ok mode mt a r p ->
  exists m, Message_new mode token id sub prio ttl mt a r p = Ok m /\
    (buf_bytes inp = message_wire m ->
     exists inp', Message_decode inp = Some (Err InvalidMsgTypeUtf8, inp')).
Proof.
  intros Ht Hu Hok. rewrite message_new_complete by done. eexists. split; [reflexivity|].
  pose proof (new_header_typed _ _ _ _ _ _ _ _ _ _ Ht Hok) as Hty. intros Hb.
  unfold message_wire in Hb. unfold Message_decode.
  destruct (header_decode_wire _ _ _ Hty ltac:(destruct Hok; by split) Hb) as (b1 & -> & Hb1).
  cbn [mbind option_bind]. unfold FixedHeader_transfer_mode.
  cbn [new_message header flags msg_type_len msg_type] in *. rewrite from_to_flags, len_nat.
  pose proof (remaining_app _ _ _ Hb1). rewrite decide_False by lia.
  read_field (copy_to_bytes_spec (length mt)) Hb1.
  unfold Datatypes.id at 1, utf8_or, from_utf8. rewrite Hu. eauto.
Qed.

(** The decoder ignores the reserved bits of the flags field: setting any of them in the
    encoding of a message still decodes, to the same message with those bits set. *)
Lemma reserved_flag_bits_accepted {R} `{Buf R} m f (inp : R) rest :
  message_wf m -> 0 <= f < 2 ^ 8 ->
  Z.land f TRANSFER_MODE_MASK = Z.land (flags (header m)) TRANSFER_MODE_MASK ->
  let h := header m in
  let m' := {| header := {| version := version h; flags := f; priority := priority h;
                 session_token := session_token h; message_id := message_id h;
                 sub_message_id := sub_message_id h; ttl := ttl h;
                 msg_type_len := msg_type_len h; address_len := address_len h;
                 payload_len := payload_len h |};
               msg_type := msg_type m; address := address m; reply_to := reply_to m;
               payload := payload m |} in
  buf_bytes inp = message_wire m' ++ rest ->
  exists inp', Message_decode inp = Some (Ok m', inp') /\ buf_bytes inp' = rest.
Proof.
  intros [[] [] ? ? ? ? ? Hr] Hf Hm h m'. apply message_decode_wire.
  split; try done. unfold reply_wf, Message_transfer_mode, FixedHeader_transfer_mode in *.
  simpl. unfold from_flags in *. by rewrite Hm.
Qed.

(** ** Witnesses *)

Definition ex_token : bytes := replicate 32 Byte.x00.
Definition ex_id : bytes := replicate 16 Byte.x01.
Definition ex_sub : bytes := replicate 4 Byte.x00.
Definition ex_address : bytes := bs "arcella:core:users".
Definition ex_reply : bytes := bs "arcella:core:sender".
Definition ex_type : bytes := bs "user:created".
Definition ex_payload : bytes := bs "hello".

Lemma ex_args_typed : args_typed ex_token ex_id ex_sub 128 64.
Proof. by split. Qed.

Lemma ex_valid_address : valid_address ex_address.
Proof. apply validate_address_spec. reflexivity. Qed.

Lemma ex_valid_reply : valid_address ex_reply.
Proof. apply validate_address_spec. reflexivity. Qed.

Lemma ex_new_ok mt p :
  len mt <= 255 -> as_u32 (len p) <= MAX_PAYLOAD_LEN -> new_ok InOut mt ex_address ex_reply p.
Proof.
  intros ??. split; auto using ex_valid_address, ex_valid_reply; done.
Qed.

Definition ex_message : Message :=
  new_message InOut ex_token ex_id ex_sub 128 64 ex_type ex_address ex_reply ex_payload.

Lemma ex_message_wf : message_wf ex_message.
Proof.
  apply (new_message_wf InOut ex_token ex_id ex_sub 128 64 ex_type ex_address ex_reply
           ex_payload ex_payload); [apply ex_args_typed|by apply ex_new_ok|done..].
Qed.

Lemma message_roundtrip_witness :
  exists w out', Message_encode ex_message [] = Some out' /\ mut_bytes out' = mut_bytes (B :=
    bytes) [] ++ w /\
    forall (inp : bytes) rest, buf_bytes inp = w ++ rest ->
      exists inp', Message_decode inp = Some (Ok ex_message, inp') /\ buf_bytes inp' = rest.
Proof.
  apply (message_roundtrip (R := bytes) (W := bytes) InOut ex_token ex_id ex_sub 128 64 ex_type
           ex_address ex_reply ex_payload ex_message []);
    [apply ex_args_typed|reflexivity|reflexivity|vm_compute; reflexivity|].
  vm_compute. discriminate.
Defined.

Lemma message_decode_truncated_witness :
  exists e inp', Message_decode (take 90 (message_wire ex_message)) = Some (Err e, inp') /\
    e ∈ incomplete_errors.
Proof.
  apply (message_decode_truncated ex_message _ (drop 90 (message_wire ex_message)));
    [apply ex_message_wf|vm_compute; discriminate|vm_compute; reflexivity].
Defined.

Lemma payload_length_wraps_witness :
  exists p, len p = 2 ^ 32 /\
  exists m, Message_new InOut ex_token ex_id ex_sub 128 64 ex_type ex_address ex_reply p = Ok m /\
    payload_len (header m) < len (payload m) /\
    forall inp : bytes, buf_bytes inp = message_wire m ->
      exists m' inp', Message_decode inp = Some (Ok m', inp') /\
        payload m' = take (Z.to_nat (as_u32 (len p))) p /\ m' <> m /\
        buf_bytes inp' = drop (Z.to_nat (as_u32 (len p))) p.
Proof.
  assert (exists p, len p = 2 ^ 32) as [p Hp].
  { exists (replicate (Z.to_nat (2 ^ 32)) Byte.x00). unfold len.
    rewrite length_replicate. by apply Z2Nat.id. }
  exists p. split; [exact Hp|].
  apply (payload_length_wraps (R := bytes)); [apply ex_args_typed|reflexivity| |by rewrite Hp].
  apply ex_new_ok; [vm_compute; discriminate|]. by rewrite Hp.
Defined.

Lemma message_type_utf8_unchecked_witness :
  exists m, Message_new InOut ex_token ex_id ex_sub 128 64 [Byte.xff] ex_address ex_reply
              ex_payload = Ok m /\
    (buf_bytes (message_wire m) = message_wire m ->
     exists inp', Message_decode (message_wire m) = Some (Err InvalidMsgTypeUtf8, inp')).
Proof.
  destruct (message_type_utf8_unchecked (R := bytes) InOut ex_token ex_id ex_sub 128 64
              [Byte.xff] ex_address ex_reply ex_payload
              (message_wire (new_message InOut ex_token ex_id ex_sub 128 64 [Byte.xff]
                               ex_address ex_reply ex_payload)))
    as (m & E & H); [apply ex_args_typed|reflexivity|by apply ex_new_ok|].
  vm_compute in E. injection E as <-. eexists. split; [vm_compute; reflexivity|exact H].
Defined.
