(* ===== verification/Patterns.v ===== *)
(** * Patterns: wildcard syntax and segment matching (src/src/broker_core/registry/mod.rs)

    [validate_wildcard_pattern], [compare_segments_bytes] and [static_prefix_bytes], with
    [RegistryError] (src/src/broker_core/registry/error.rs). *)

From Stdlib Require Import Strings.Byte.
From S2P Require Import Prelude.
From S2P Require Import Utf8.
From S2P Require Import Str.

Local Open Scope broker_scope.

(** ** Definitions *)

Inductive RegistryError :=
| AddressAlreadyOccupied (address : bytes)
| WildcardConflict (pattern existing : bytes)
| ConflictsWithWildcard (address existing : bytes)
| InvalidWildcardFormat (reason : bytes)
| WaiterAlreadyExists
| PolicyMismatch (address : bytes).

#[global] Instance RegistryError_eq_dec : EqDecision RegistryError.
Proof. solve_decision. Defined.

Definition asterisk : Byte.byte := "*"%byte.
Definition star : bytes := [asterisk].
Definition star2 : bytes := [asterisk; asterisk].

Definition is_wildcard (address : bytes) : bool := contains_byte asterisk address.

(** The loop of [validate_wildcard_pattern] over the segments that are left. *)
Fixpoint validate_segments (pattern : bytes) (found_starstar : bool) (segs : list bytes)
    : result unit RegistryError :=
  match segs with
  | [] => Ok tt
  | segment :: segs =>
      if is_empty segment then
        Err (InvalidWildcardFormat (bs "Empty segment in pattern '" ++ pattern ++ bs "'"))
      else if found_starstar then
        Err (InvalidWildcardFormat
               (bs "'**' must be the last segment in pattern '" ++ pattern ++ bs "'"))
      else if decide (segment = star2) then validate_segments pattern true segs
      else if decide (segment = star) then validate_segments pattern found_starstar segs
      else if contains_byte asterisk segment then
        Err (InvalidWildcardFormat (bs "Invalid wildcard segment '" ++ segment
               ++ bs "' in pattern '" ++ pattern ++ bs "'"))
      else validate_segments pattern found_starstar segs
  end.

Definition validate_wildcard_pattern (pattern : bytes) : result unit RegistryError :=
  if is_empty pattern then Err (InvalidWildcardFormat (bs "Pattern cannot be empty"))
  else if decide (pattern = star2) then
    Err (InvalidWildcardFormat (bs "Global '**' wildcard is not allowed;
      pattern must have at least one static prefix segment"))
  else if starts_with star pattern then
    Err (InvalidWildcardFormat (bs "Pattern cannot start with '*' or be a global '*' wildcard;
      must have a static prefix"))
  else validate_segments pattern false (split_on colon pattern).

(** The loop of [compare_segments_bytes] over the two segment iterators, its match arms in the
    order of the source. *)
Fixpoint compare_loop (pat tar : list bytes) (allow_wildcard_both_sides : bool) : bool :=
  match pat, tar with
  | [], [] => true
  | seg1 :: pat', _ =>
      if decide (seg1 = star2 /\ allow_wildcard_both_sides = true) then true
      else match tar with
           | seg2 :: tar' =>
               if decide (seg2 = star2 /\ allow_wildcard_both_sides = true) then true
               else if decide (seg1 = star2) then
                 match pat' with [] => true | _ => false end
               else if decide (seg1 <> star /\ seg2 <> star /\ seg1 <> seg2) then false
               else compare_loop pat' tar' allow_wildcard_both_sides
           | [] =>
               if decide (seg1 = star2) then match pat' with [] => true | _ => false end
               else false
           end
  | [], seg2 :: _ =>
      if decide (seg2 = star2 /\ allow_wildcard_both_sides = true) then true else false
  end.

Definition compare_segments_bytes (pattern target : bytes) (allow_wildcard_both_sides : bool)
    : bool :=
  compare_loop (split_on colon pattern) (split_on colon target) allow_wildcard_both_sides.

(** The bytes before the first [*], all of them when there is none. *)
Fixpoint static_prefix_bytes (pattern : bytes) : bytes :=
  match pattern with
  | [] => []
  | b :: pattern => if decide (b = asterisk) then [] else b :: static_prefix_bytes pattern
  end.

(** ** Specification *)

(** A literal segment of a pattern, and a segment of a concrete address. *)
Definition literal (s : bytes) : Prop := s <> [] /\ asterisk ∉ s.
Definition plain (s : bytes) : Prop := asterisk ∉ s.

(** The segment lists the wildcard rules allow: [**] only at the end, [*] only alone. *)
Inductive wf_segs : list bytes -> Prop :=
| wf_nil : wf_segs []
| wf_star2 : wf_segs [star2]
| wf_star r : wf_segs r -> wf_segs (star :: r)
| wf_literal s r : literal s -> wf_segs r -> wf_segs (s :: r).

(** A valid pattern also starts with a literal segment. *)
Inductive valid_pattern : bytes -> Prop :=
| vp_intro s r : literal s -> colon ∉ s -> Forall (fun t => colon ∉ t) r -> wf_segs r ->
    valid_pattern (join colon (s :: r)).

(** What a pattern matches: [*] is one segment, a trailing [**] is any number of them. *)
Inductive seg_match : list bytes -> list bytes -> Prop :=
| sm_nil : seg_match [] []
| sm_star2 a : seg_match [star2] a
| sm_star p x a : seg_match p a -> seg_match (star :: p) (x :: a)
| sm_literal s p a : literal s -> seg_match p a -> seg_match (s :: p) (s :: a).

Definition matches (pattern address : bytes) : Prop :=
  seg_match (split_on colon pattern) (split_on colon address).

(** An address, as opposed to a pattern: it holds no [*]. *)
Definition concrete (address : bytes) : Prop := is_wildcard address = false.

(** Two patterns overlap when some concrete address matches both. *)
Definition seg_overlap (p q : list bytes) : Prop :=
  exists a, Forall plain a /\ Forall (fun s => colon ∉ s) a /\ seg_match p a /\ seg_match q a.

Definition overlap (p q : bytes) : Prop :=
  exists a, concrete a /\ matches p a /\ matches q a.

#[export] Hint Constructors wf_segs seg_match : broker.
