(* ===== verification/PatternFacts.v ===== *)
(** * PatternFacts: correctness of wildcard validation and matching

    [validate_wildcard_pattern] accepts exactly the documented patterns; [compare_segments_bytes]
    decides matching (one-sided) and overlap (two-sided) of valid patterns. *)

From Stdlib Require Import Strings.Byte.
From S2P Require Import Prelude.
From S2P Require Import Utf8.
From S2P Require Import Str.
From S2P Require Import Patterns.

(** ** Segments *)

Lemma star_not_star2 : star <> star2.
Proof. done. Qed.

Lemma literal_not_star s : literal s -> s <> star /\ s <> star2.
Proof. intros [_ Hs]. split; intros ->; apply Hs; set_solver. Qed.

Lemma plain_not_star s : plain s -> s <> star /\ s <> star2.
Proof. intros Hs. split; intros ->; apply Hs; set_solver. Qed.

Lemma literal_plain s : literal s -> plain s.
Proof. by intros []. Qed.

Lemma concrete_plain a : concrete a <-> Forall plain (split_on colon a).
Proof.
  unfold concrete, is_wildcard, plain. rewrite contains_byte_false.
  rewrite <-(elem_of_split colon asterisk a) by done. by rewrite <-Forall_Exists_neg.
Qed.

Lemma literal_x : literal (bs "x").
Proof. split; [done|]. apply contains_byte_false. reflexivity. Qed.

#[export] Hint Resolve literal_x literal_plain : broker.

Lemma wf_star2_inv r : wf_segs (star2 :: r) <-> r = [].
Proof.
  split; [|intros ->; constructor]. intros H. inversion H; subst; try done.
  exfalso. by eapply literal_not_star.
Qed.

Lemma wf_star_inv r : wf_segs (star :: r) <-> wf_segs r.
Proof.
  split; [|by constructor]. intros H. inversion H; subst; try done.
Qed.

Lemma wf_other_inv s r :
  s <> star -> s <> star2 -> wf_segs (s :: r) <-> literal s /\ wf_segs r.
Proof.
  intros H1 H2. split; [|intros []; by constructor].
  intros H. inversion H; subst; done.
Qed.

(** ** Validation *)

Lemma validate_segments_spec p segs : validate_segments p false segs = Ok tt <-> wf_segs segs.
Proof.
  induction segs as [|s r IH]; [split; [constructor|done]|]. cbn [validate_segments].
  destruct s as [|b s]; [split; [done|]; inversion 1 as [| | |? ? [Hl _]]; done|].
  cbn [is_empty]. assert (b :: s <> []) as Hne by done. revert Hne.
  generalize (b :: s) as t. clear b s. intros t Hne.
  case_decide as E2; [subst|].
  { rewrite wf_star2_inv. destruct r as [|u r]; [done|]. cbn [validate_segments].
    destruct (is_empty u); done. }
  case_decide as E1; [subst; by rewrite wf_star_inv|].
  destruct (contains_byte asterisk t) eqn:Ec.
  - split; [done|]. rewrite wf_other_inv by done. intros [[_ Hl] _].
    by apply contains_byte_spec in Ec.
  - rewrite IH, wf_other_inv by done. apply contains_byte_false in Ec.
    unfold literal. tauto.
Qed.

Lemma starts_with_star p :
  starts_with star p = match split_on colon p with s :: _ => starts_with star s | [] => false end.
Proof.
  destruct p as [|b p]; [done|]. cbn [split_on]. unfold star. rewrite starts_with_cons.
  case_decide as E.
  - subst b. by rewrite bool_decide_eq_false_2.
  - destruct (split_on colon p); rewrite starts_with_cons, !starts_with_nil; done.
Qed.

Lemma starts_with_star_false s :
  starts_with star s = false -> s <> star /\ s <> star2.
Proof. intros H. split; intros ->; done. Qed.

Lemma literal_starts_with s : literal s -> starts_with star s = false.
Proof.
  intros [_ Hs]. apply bool_decide_eq_false. intros [k ->]. apply Hs. set_solver.
Qed.

Lemma validate_pattern_segs p :
  validate_wildcard_pattern p = Ok tt <->
  wf_segs (split_on colon p) /\ starts_with star p = false.
Proof.
  unfold validate_wildcard_pattern. destruct p as [|b p].
  { split; [done|]. intros [H _]. change (split_on colon []) with [@nil Byte.byte] in H.
    inversion H as [| | |? ? [Hl _]]; done. }
  cbn [is_empty]. case_decide as E; [rewrite E; naive_solver|].
  destruct (starts_with star (b :: p)); [naive_solver|].
  rewrite validate_segments_spec. tauto.
Qed.

(** The validation accepts exactly the documented patterns. *)
Lemma validate_pattern_spec p : validate_wildcard_pattern p = Ok tt <-> valid_pattern p.
Proof.
  rewrite validate_pattern_segs, starts_with_star. split.
  - pose proof (join_split colon p) as Hj. pose proof (split_no_sep colon p) as Hc.
    destruct (split_on_cons colon p) as (s & r & Hs). rewrite Hs in *.
    intros [Hwf Hst]. apply starts_with_star_false in Hst as [H1 H2].
    apply wf_other_inv in Hwf as [Hl Hr]; try done.
    apply Forall_cons_iff in Hc as [Hs' Hr']. rewrite <-Hj. by constructor.
  - intros [s r Hl Hs Hr Hwf]. rewrite split_join by (try done; by constructor).
    split; [by constructor|]. by apply literal_starts_with.
Qed.

Lemma validate_error p e :
  validate_wildcard_pattern p = Err e -> exists r, e = InvalidWildcardFormat r.
Proof.
  unfold validate_wildcard_pattern. destruct (is_empty p); [intros [= <-]; eauto|].
  case_decide; [intros [= <-]; eauto|]. destruct (starts_with star p); [intros [= <-]; eauto|].
  generalize (split_on colon p) false.
  intros segs; induction segs as [|s segs IH]; intros b; simpl; [done|].
  destruct (is_empty s); [intros [= <-]; eauto|]. destruct b; [intros [= <-]; eauto|].
  repeat (case_decide; [by apply IH|]).
  destruct (contains_byte asterisk s); [intros [= <-]; eauto|apply IH].
Qed.

(** ** One-sided comparison: matching *)

Lemma compare_lit s t p a both :
  literal s -> plain t ->
  compare_loop (s :: p) (t :: a) both = bool_decide (s = t) && compare_loop p a both.
Proof.
  intros [??]%literal_not_star [??]%plain_not_star. cbn [compare_loop].
  rewrite (decide_False (P := s = star2 /\ _)), (decide_False (P := t = star2 /\ _)),
    (decide_False (P := s = star2)) by tauto.
  destruct (decide (s = t)) as [->|Hne].
  - rewrite bool_decide_eq_true_2, decide_False by tauto. done.
  - rewrite bool_decide_eq_false_2, decide_True by tauto. done.
Qed.

Lemma compare_star_l t p a both :
  t <> star2 -> compare_loop (star :: p) (t :: a) both = compare_loop p a both.
Proof.
  intros Ht. cbn [compare_loop]. rewrite !decide_False; try done; naive_solver.
Qed.

Lemma compare_star2_l p both : compare_loop [star2] p both = true.
Proof. destruct both; [done|]. destruct p; [done|]. cbn [compare_loop].
  repeat case_goal_decide; naive_solver.
Qed.

Lemma seg_match_star_inv p a : seg_match (star :: p) a -> exists x a', a = x :: a' /\ seg_match p a'.
Proof.
  inversion 1; subst; eauto.
Qed.

Lemma seg_match_literal_inv s p a :
  literal s -> seg_match (s :: p) a -> exists a', a = s :: a' /\ seg_match p a'.
Proof. intros [? ?]%literal_not_star. inversion 1; subst; naive_solver. Qed.

(** Matching a valid pattern against an address with literal segments. *)
Lemma compare_match_spec p a :
  wf_segs p -> Forall plain a -> compare_loop p a false = true <-> seg_match p a.
Proof.
  intros Hp. revert a. induction Hp as [| |p Hp IH|s p Hs Hp IH]; intros a Ha.
  - destruct a as [|t a]; [split; [constructor|done]|].
    split; [|inversion 1]. cbn. rewrite decide_False by naive_solver. done.
  - rewrite compare_star2_l. split; [constructor|done].
  - destruct Ha as [|t a Ht Ha].
    { split; [done|]. by intros (? & ? & ? & ?)%seg_match_star_inv. }
    apply plain_not_star in Ht as Ht'. rewrite compare_star_l by tauto. rewrite IH by done.
    split; [by constructor|]. by intros (? & ? & [= <- <-] & ?)%seg_match_star_inv.
  - destruct Ha as [|t a Ht Ha].
    { apply literal_not_star in Hs as Hs'. split.
      - cbn [compare_loop]. repeat case_goal_decide; naive_solver.
      - by intros (? & ? & ?)%seg_match_literal_inv. }
    rewrite compare_lit, andb_true_iff, bool_decide_eq_true, IH by done.
    split; [intros [-> ?]; by constructor|].
    by intros (? & [= <- <-] & ?)%seg_match_literal_inv.
Qed.

(** ** Two-sided comparison: overlap *)

Lemma wf_segs_match p :
  wf_segs p -> Forall (fun s => colon ∉ s) p ->
  exists a, Forall plain a /\ Forall (fun s => colon ∉ s) a /\ seg_match p a.
Proof.
  induction 1 as [| |p Hp IH|s p Hs Hp IH]; intros Hc.
  - exists []. repeat constructor.
  - exists []. repeat constructor.
  - apply Forall_cons_iff in Hc as [_ Hc]. destruct (IH Hc) as (a & H1 & H2 & H3).
    exists (bs "x" :: a). split_and!; constructor; auto with broker.
    apply contains_byte_false. reflexivity.
  - apply Forall_cons_iff in Hc as [? Hc]. destruct (IH Hc) as (a & H1 & H2 & H3).
    exists (s :: a). split_and!; constructor; auto with broker.
Qed.

Lemma overlap_comm p q : seg_overlap p q -> seg_overlap q p.
Proof. intros (a & ? & ? & ? & ?). exists a. tauto. Qed.

Lemma overlap_cons s p q :
  literal s -> colon ∉ s -> seg_overlap p q -> forall s1 s2,
  s1 = star \/ s1 = s -> s2 = star \/ s2 = s -> seg_overlap (s1 :: p) (s2 :: q).
Proof.
  intros Hl Hc (a & Ha & Hca & Hp & Hq) s1 s2 H1 H2. exists (s :: a).
  split_and!; try (constructor; by auto with broker).
  - destruct H1 as [-> | ->]; by constructor.
  - destruct H2 as [-> | ->]; by constructor.
Qed.

Lemma overlap_cons_inv s1 s2 p q :
  s1 = star \/ literal s1 -> s2 = star \/ literal s2 -> seg_overlap (s1 :: p) (s2 :: q) ->
  seg_overlap p q /\ (s1 = star \/ s2 = star \/ s1 = s2).
Proof.
  intros H1 H2 (a & Ha & Hc & Hp & Hq).
  assert (exists x a', a = x :: a' /\ seg_match p a' /\ (s1 = star \/ s1 = x)) as Hp'.
  { destruct H1 as [-> | Hl]; [apply seg_match_star_inv in Hp|apply seg_match_literal_inv in Hp];
      naive_solver. }
  assert (exists x a', a = x :: a' /\ seg_match q a' /\ (s2 = star \/ s2 = x)) as Hq'.
  { destruct H2 as [-> | Hl]; [apply seg_match_star_inv in Hq|apply seg_match_literal_inv in Hq];
      naive_solver. }
  destruct Hp' as (x & a' & -> & Hp' & E1), Hq' as (x2 & a2 & [= <- <-] & Hq' & E2).
  apply Forall_cons_iff in Ha as [_ Ha]. apply Forall_cons_iff in Hc as [_ Hc].
  split; [exists a'; tauto|]. destruct E1, E2; subst; auto.
Qed.

Lemma compare_step s t p q both :
  s <> star2 -> t <> star2 ->
  compare_loop (s :: p) (t :: q) both =
  bool_decide (s = star \/ t = star \/ s = t) && compare_loop p q both.
Proof.
  intros Hs Ht. cbn [compare_loop].
  rewrite (decide_False (P := s = star2 /\ _)), (decide_False (P := t = star2 /\ _)),
    (decide_False (P := s = star2)) by tauto.
  destruct (decide (s = star \/ t = star \/ s = t)) as [Hd|Hd].
  - rewrite bool_decide_eq_true_2, decide_False by tauto. done.
  - rewrite bool_decide_eq_false_2, decide_True by tauto. done.
Qed.

Lemma compare_star2_r p q : compare_loop p (star2 :: q) true = true.
Proof. destruct p as [|s p]; cbn [compare_loop]; repeat case_goal_decide; naive_solver. Qed.

(** A segment that is not [**] is [*] or a literal. *)
Lemma wf_segs_cons s r :
  wf_segs (s :: r) -> (s = star2 /\ r = []) \/ ((s = star \/ literal s) /\ wf_segs r).
Proof.
  intros H. destruct (decide (s = star2)) as [->|H2].
  - left. by apply wf_star2_inv in H.
  - right. destruct (decide (s = star)) as [->|H1].
    + rewrite wf_star_inv in H. auto.
    + rewrite wf_other_inv in H by done. tauto.
Qed.

Lemma segment_not_star2 s : s = star \/ literal s -> s <> star2.
Proof. intros [-> | H%literal_not_star]; [done|tauto]. Qed.

Lemma no_overlap_nil s q : s = star \/ literal s -> ~ seg_overlap [] (s :: q).
Proof.
  intros Hs (a & _ & _ & Hn & Hq). inversion Hn; subst.
  destruct Hs as [-> | Hl].
  - by apply seg_match_star_inv in Hq as (? & ? & ? & ?).
  - by apply seg_match_literal_inv in Hq as (? & ? & ?).
Qed.

(** The segment of a common address at a position where two patterns agree. *)
Lemma common_segment s t :
  s = star \/ literal s -> t = star \/ literal t -> colon ∉ s -> colon ∉ t ->
  s = star \/ t = star \/ s = t ->
  exists x, literal x /\ (colon ∉ x) /\ (s = star \/ s = x) /\ (t = star \/ t = x).
Proof.
  intros Hs Ht Hcs Hct Hst.
  destruct Hs as [-> | Hs]; [destruct Ht as [-> | Ht]|].
  - exists (bs "x"). split_and!; auto with broker. apply contains_byte_false. reflexivity.
  - exists t. auto 6.
  - exists s. apply literal_not_star in Hs as Hs'. naive_solver.
Qed.

Lemma compare_overlap_segs p q :
  wf_segs p -> wf_segs q ->
  Forall (fun s => colon ∉ s) p -> Forall (fun s => colon ∉ s) q ->
  compare_loop p q true = true <-> seg_overlap p q.
Proof.
  revert q. induction p as [|s p IH]; intros q Hp Hq Hcp Hcq.
  - destruct q as [|t q].
    { split; [intros _; exists []; by repeat constructor|done]. }
    apply wf_segs_cons in Hq as [[-> ->]|[Ht Hq]].
    + rewrite compare_star2_r. split; [intros _|done].
      exists []. by repeat constructor.
    + split; [|by intros ?%no_overlap_nil]. cbn [compare_loop].
      apply segment_not_star2 in Ht. rewrite decide_False by tauto. done.
  - apply wf_segs_cons in Hp as [[-> ->]|[Hs Hp]].
    { split; [intros _|by rewrite compare_star2_l].
      destruct (wf_segs_match q Hq Hcq) as (a & ? & ? & ?). exists a.
      split_and!; auto; by constructor. }
    destruct q as [|t q].
    { split; [|by intros ?%overlap_comm%no_overlap_nil].
      apply segment_not_star2 in Hs. cbn [compare_loop]. rewrite !decide_False by tauto. done. }
    pose proof Hq as Hq'. apply wf_segs_cons in Hq as [[-> ->]|[Ht Hq]].
    { rewrite compare_star2_r. split; [intros _|done].
      destruct (wf_segs_match (s :: p)) as (a & ? & ? & ?); [|done|].
      - destruct Hs as [-> | Hs]; by constructor.
      - exists a. split_and!; auto; by constructor. }
    apply Forall_cons_iff in Hcp as [Hcs Hcp], Hcq as [Hct Hcq].
    rewrite compare_step by auto using segment_not_star2.
    rewrite andb_true_iff, bool_decide_eq_true, IH by done. split.
    + intros [Hst Ho].
      destruct (common_segment s t Hs Ht Hcs Hct Hst) as (x & ? & ? & ? & ?).
      by apply (overlap_cons x).
    + intros Ho. apply overlap_cons_inv in Ho; tauto.
Qed.

(** ** The byte-level functions *)

Lemma valid_pattern_segs p :
  valid_pattern p <-> wf_segs (split_on colon p) /\ starts_with star p = false.
Proof. by rewrite <-validate_pattern_spec, validate_pattern_segs. Qed.

Lemma compare_bytes_match p a :
  valid_pattern p -> concrete a -> compare_segments_bytes p a false = true <-> matches p a.
Proof. intros [Hp _]%valid_pattern_segs Ha%concrete_plain. by apply compare_match_spec. Qed.

Lemma valid_pattern_head p :
  valid_pattern p -> exists s r, split_on colon p = s :: r /\ literal s /\ wf_segs r.
Proof.
  intros [s r Hl Hs Hr Hwf]. exists s, r. by rewrite split_join by (try done; by constructor).
Qed.

Lemma overlap_segs p q :
  valid_pattern p -> overlap p q <-> seg_overlap (split_on colon p) (split_on colon q).
Proof.
  intros Hv. split.
  - intros (a & Ha & Hp & Hq). exists (split_on colon a).
    split_and!; try done; [by apply concrete_plain|].
    apply split_no_sep.
  - intros (a & Ha & Hc & Hp & Hq).
    assert (a <> []) as Hne.
    { destruct (valid_pattern_head p Hv) as (s & r & E & Hs & _). rewrite E in Hp.
      by apply seg_match_literal_inv in Hp as (? & -> & _). }
    exists (join colon a). rewrite concrete_plain. unfold matches. by rewrite split_join.
Qed.

(** The two-sided comparison of valid patterns decides whether some address matches both. *)
Lemma compare_bytes_overlap p q :
  valid_pattern p -> valid_pattern q ->
  compare_segments_bytes p q true = true <-> overlap p q.
Proof.
  intros Hp Hq. rewrite overlap_segs by done. unfold compare_segments_bytes.
  apply valid_pattern_segs in Hp as [? _], Hq as [? _].
  apply compare_overlap_segs; auto using split_no_sep.
Qed.

Lemma wf_segs_not_empty segs : wf_segs segs -> Forall (fun s => s <> []) segs.
Proof. induction 1 as [| | |s r [? _]]; repeat constructor; auto. Qed.

(** A pattern cut after some segments, with [**] for the rest, matches what the pattern does. *)
Lemma seg_match_cut q r a :
  wf_segs (q ++ r) -> Forall (fun s => s <> star2) q -> seg_match (q ++ r) a ->
  seg_match (q ++ [star2]) a.
Proof.
  intros Hwf Hq. revert a. induction Hq as [|s q Hs Hq IH]; intros a Hm; simpl in *; [constructor|].
  destruct (wf_segs_cons _ _ Hwf) as [[? _]|[[->|Hl] Hwf']]; [done|..].
  - apply seg_match_star_inv in Hm as (x & a' & -> & Hm). constructor. auto.
  - apply seg_match_literal_inv in Hm as (a' & -> & Hm); [|done]. constructor; auto.
Qed.

(** ** Static prefixes *)

(** A pattern that ends in [**]. *)
Definition is_prefix_pattern (p : bytes) : bool := ends_with star2 p.

Lemma static_prefix_literal s l :
  asterisk ∉ s -> static_prefix_bytes (s ++ l) = s ++ static_prefix_bytes l.
Proof.
  induction s as [|b s IH]; [done|]. rewrite not_elem_of_cons. intros [Hb Hs]. simpl.
  rewrite decide_False by done. by rewrite IH.
Qed.

(** Every address a pattern without [**] matches starts with the pattern's static prefix. *)
Lemma static_prefix_match_segs p a :
  wf_segs p -> star2 ∉ p -> seg_match p a ->
  static_prefix_bytes (join colon p) `prefix_of` join colon a.
Proof.
  induction 1 as [| |p Hp IH|s p Hs Hp IH] in a |- *; intros Hn Hm.
  - apply prefix_nil.
  - set_solver.
  - replace (static_prefix_bytes (join colon (star :: p))) with (@nil Byte.byte) by (by destruct p).
    apply prefix_nil.
  - apply seg_match_literal_inv in Hm as (a' & -> & Hm); [|done].
    apply not_elem_of_cons in Hn as [_ Hn]. destruct Hs as [_ Hs].
    destruct p as [|t p].
    { inversion Hm; subst. simpl. rewrite <-(app_nil_r s) at 1.
      rewrite static_prefix_literal by done. simpl. by rewrite app_nil_r. }
    assert (a' <> []) as Ha by (intros ->; inversion Hm; subst; set_solver).
    rewrite (join_cons _ s (t :: p)), (join_cons _ s a') by done. rewrite static_prefix_literal by done.
    apply prefix_app. simpl. by apply prefix_cons, IH.
Qed.

(** ** Patterns that end in [**] *)

Lemma suffix_app_sep (c : Byte.byte) w x l :
  c ∉ w -> w `suffix_of` (x ++ c :: l) <-> w `suffix_of` l.
Proof.
  intros Hc. split; [|intros [k ->]; exists (x ++ c :: k); by rewrite <-app_assoc].
  intros [k E]. apply app_eq_inv in E as [(k' & -> & ->)|(k' & -> & E)].
  - set_solver.
  - destruct k' as [|b k']; simpl in E; [|injection E as _ ->; by exists k'].
    subst w. set_solver.
Qed.

Lemma suffix_plain s : plain s -> ~ star2 `suffix_of` s.
Proof. intros Hs [k ->]. apply Hs. set_solver. Qed.

Lemma ends_with_star2_segs p :
  wf_segs p -> p <> [] -> star2 `suffix_of` join colon p <-> star2 ∈ p.
Proof.
  assert (colon ∉ star2) as Hc by (apply contains_byte_false; reflexivity).
  induction 1 as [| |p Hp IH|s p Hs Hp IH]; intros Hne; [done| | |].
  - split; [set_solver|intros _]. by exists [].
  - destruct p as [|t p].
    + split; [|intros E; by apply list_elem_of_singleton in E].
      intros [[|b [|b' k]] E]; simplify_eq/=.
    + rewrite join_cons, suffix_app_sep, IH by done. rewrite (elem_of_cons (t :: p)).
      pose proof star_not_star2. naive_solver.
  - pose proof (proj2 (literal_not_star s Hs)). destruct p as [|t p].
    + split; [intros ?%suffix_plain; auto with broker|set_solver].
      by apply literal_plain in Hs.
    + rewrite join_cons, suffix_app_sep, IH by done. rewrite (elem_of_cons (t :: p)).
      naive_solver.
Qed.

Lemma prefix_pattern_spec p :
  valid_pattern p -> is_prefix_pattern p = true <-> star2 ∈ split_on colon p.
Proof.
  intros [Hwf _]%valid_pattern_segs. unfold is_prefix_pattern, ends_with.
  rewrite bool_decide_eq_true, <-(join_split colon p) at 1.
  apply ends_with_star2_segs; [done|apply split_on_not_nil].
Qed.

(** An address a single-segment pattern matches starts with the pattern's static prefix. *)
Lemma static_prefix_match p a :
  valid_pattern p -> is_prefix_pattern p = false -> matches p a ->
  static_prefix_bytes p `prefix_of` a.
Proof.
  intros Hv Hn Hm. rewrite <-(join_split colon p), <-(join_split colon a).
  apply static_prefix_match_segs; [by apply valid_pattern_segs| |done].
  rewrite <-prefix_pattern_spec by done. by rewrite Hn.
Qed.

(** ** Property *)

(** C19: the pattern functions decide what they are named after. Validation accepts exactly the
    patterns that start with a literal level, have no empty level, use [*] only as a whole level
    and [**] only as the last one; comparing a valid pattern with an address decides whether it
    matches, and comparing two valid patterns decides whether some address matches both. *)
Theorem pattern_matching_correct p q a (Hp : valid_pattern p) :
  (validate_wildcard_pattern q = Ok tt <-> valid_pattern q) /\
  (concrete a -> compare_segments_bytes p a false = true <-> matches p a) /\
  (valid_pattern q -> compare_segments_bytes p q true = true <-> overlap p q) /\
  (is_prefix_pattern p = true <-> star2 ∈ split_on colon p).
Proof.
  split_and!; [apply validate_pattern_spec|by apply compare_bytes_match|by apply compare_bytes_overlap|
    by apply prefix_pattern_spec].
Qed.

Lemma pattern_matching_correct_witness :
  let p := bs "a:*:c:**" in
  valid_pattern p /\ matches p (bs "a:b:c:d:e") /\ overlap p (bs "a:b:**").
Proof.
  cbv zeta. assert (valid_pattern (bs "a:*:c:**")) as Hp by (by apply validate_pattern_spec).
  assert (valid_pattern (bs "a:b:**")) as Hq by (by apply validate_pattern_spec).
  pose proof (pattern_matching_correct (bs "a:*:c:**") (bs "a:b:**") (bs "a:b:c:d:e") Hp)
    as (_ & Hm & Ho & _).
  split; [exact Hp|]. split; [apply Hm; reflexivity|apply Ho; [exact Hq|reflexivity]].
Defined.
