(* ===== verification/RadixIface.v ===== *)
(** * RadixIface: what the registry relies on of the [iradix] crate

    [iradix::sync::Radix<u8, V>] and its transactions as a type class. The laws are the documented
    meaning of each operation over the entries of the tree: [get_ancestor] returns the value of the
    longest stored key that is a prefix of the argument, [walk_path] visits the entries whose key
    is a prefix of the argument, and [walk_prefix] those whose key starts with the argument. A
    finite map is an instance. *)

From S2P Require Import Prelude.

(** ** Interface *)

Class Radix (V T X : Type) := {
  rx_entries : T -> gmap bytes V;
  rx_pending : X -> gmap bytes V;
  rx_new : T;
  rx_is_empty : T -> bool;
  rx_get : T -> bytes -> option V;
  rx_get_ancestor : T -> bytes -> option V;
  rx_walk_path : T -> bytes -> list (bytes * V);
  rx_walk_prefix : T -> bytes -> list (bytes * V);
  rx_txn : T -> X;
  rx_insert : bytes -> V -> X -> X;
  rx_remove : bytes -> X -> X;
  rx_commit : X -> T;
  rx_new_spec : rx_entries rx_new = ∅;
  rx_is_empty_spec t : rx_is_empty t = true <-> rx_entries t = ∅;
  rx_get_spec t k : rx_get t k = rx_entries t !! k;
  rx_get_ancestor_spec t k :
    match rx_get_ancestor t k with
    | Some v => exists p, p `prefix_of` k /\ rx_entries t !! p = Some v /\
                  forall q, q `prefix_of` k -> is_Some (rx_entries t !! q) -> q `prefix_of` p
    | None => forall p, p `prefix_of` k -> rx_entries t !! p = None
    end;
  rx_walk_path_spec t k p v :
    (p, v) ∈ rx_walk_path t k <-> p `prefix_of` k /\ rx_entries t !! p = Some v;
  rx_walk_prefix_spec t k p v :
    (p, v) ∈ rx_walk_prefix t k <-> k `prefix_of` p /\ rx_entries t !! p = Some v;
  rx_txn_spec t : rx_pending (rx_txn t) = rx_entries t;
  rx_insert_spec k v x : rx_pending (rx_insert k v x) = <[k:=v]> (rx_pending x);
  rx_remove_spec k x : rx_pending (rx_remove k x) = delete k (rx_pending x);
  rx_commit_spec x : rx_entries (rx_commit x) = rx_pending x;
}.

#[export] Hint Mode Radix - ! - : typeclass_instances.
#[export] Hint Mode Radix - - ! : typeclass_instances.

(** ** Instance: a finite map *)

Section MapInstance.
Context {V : Type}.
Implicit Types m : gmap bytes V.

Definition map_walk_path (m : gmap bytes V) (k : bytes) : list (bytes * V) :=
  filter (fun e => e.1 `prefix_of` k) (map_to_list m).

Definition map_walk_prefix (m : gmap bytes V) (k : bytes) : list (bytes * V) :=
  filter (fun e => k `prefix_of` e.1) (map_to_list m).

(** The longest of the stored prefixes [take n k], [n] counting down. *)
Fixpoint map_ancestor (m : gmap bytes V) (k : bytes) (n : nat) : option V :=
  match m !! take n k with
  | Some v => Some v
  | None => match n with O => None | S n => map_ancestor m k n end
  end.

Lemma prefix_take (q k : bytes) : q `prefix_of` k -> q = take (length q) k.
Proof. intros [r ->]. by rewrite take_app_length. Qed.

Lemma map_ancestor_spec m k n :
  (n <= length k)%nat ->
  match map_ancestor m k n with
  | Some v => exists p, p `prefix_of` k /\ m !! p = Some v /\
      forall q, q `prefix_of` k -> (length q <= n)%nat -> is_Some (m !! q) -> q `prefix_of` p
  | None => forall p, p `prefix_of` k -> (length p <= n)%nat -> m !! p = None
  end.
Proof.
  induction n as [|n IH]; intros Hn; cbn [map_ancestor].
  - rewrite take_0. destruct (m !! []) as [v|] eqn:E.
    + exists []. split_and!; [apply prefix_nil|done|].
      intros q _ Hq _. destruct q; [apply prefix_nil|simpl in Hq; lia].
    + intros p _ Hp. destruct p; [done|simpl in Hp; lia].
  - destruct (m !! take (S n) k) as [v|] eqn:E.
    + exists (take (S n) k). split_and!; [by exists (drop (S n) k); rewrite take_drop|done|].
      intros q Hq Hl _. rewrite (prefix_take q k Hq). exists (drop (length q) (take (S n) k)).
      rewrite <-(take_drop (length q) (take (S n) k)) at 1. f_equal.
      rewrite take_take. f_equal. lia.
    + specialize (IH ltac:(lia)). assert (forall q, q `prefix_of` k -> (length q <= S n)%nat ->
        is_Some (m !! q) -> (length q <= n)%nat) as Hlt.
      { intros q Hq Hl [v Hv]. destruct (decide (length q = S n)) as [El|]; [|lia].
        rewrite (prefix_take q k Hq), El in Hv. congruence. }
      destruct (map_ancestor m k n) as [v|].
      * destruct IH as (p & ? & ? & IH). exists p. split_and!; [done..|].
        intros q Hq Hl Hs. apply IH; auto.
      * intros p Hp Hl. destruct (m !! p) as [v|] eqn:Ep; [|done].
        specialize (IH p Hp (Hlt p Hp Hl ltac:(by rewrite Ep))). congruence.
Qed.

#[global, refine] Instance map_Radix : Radix V (gmap bytes V) (gmap bytes V) := {|
  rx_entries := id;
  rx_pending := id;
  rx_new := ∅;
  rx_is_empty m := bool_decide (map_to_list m = []);
  rx_get m k := m !! k;
  rx_get_ancestor m k := map_ancestor m k (length k);
  rx_walk_path := map_walk_path;
  rx_walk_prefix := map_walk_prefix;
  rx_txn := id;
  rx_insert := insert;
  rx_remove := delete;
  rx_commit := id;
|}.
Proof.
  all: unfold id; try done.
  - intros m. rewrite bool_decide_eq_true. apply map_to_list_empty_iff.
  - intros m k. pose proof (map_ancestor_spec m k (length k) ltac:(done)) as Hs.
    destruct (map_ancestor m k (length k)) as [v|].
    + destruct Hs as (p & ? & ? & Hs). exists p. split_and!; auto using prefix_length.
    + intros p Hp. apply Hs; auto using prefix_length.
  - intros m k p v. unfold map_walk_path. by rewrite list_elem_of_filter, elem_of_map_to_list.
  - intros m k p v. unfold map_walk_prefix. by rewrite list_elem_of_filter, elem_of_map_to_list.
Defined.
End MapInstance.
