(* ===== verification/Registry.v ===== *)
(** * Registry: the routing tables of [LocalRegistry] (src/src/broker_core/registry/mod.rs)

    [RegistryInner] is one immutable snapshot of the routes; the functions here are what the
    registry's methods compute on a snapshot: conflict checks, insertion, removal and lookup.
    The methods themselves, with the mutex and the shared slots and groups, are in
    RegistryOps.v. The radix trees are any implementation of the [Radix] interface. *)

From Stdlib Require Import Strings.Byte.
From S2P Require Import Prelude.
From S2P Require Import Utf8.
From S2P Require Import Str.
From S2P Require Import Patterns.
From S2P Require Import RadixIface.

Local Open Scope broker_scope.

(** ** Definitions *)

(** An [Arc<SubscriptionSlot>] and an [Arc<LoadBalancedGroup>] are references into the shared
    store, so [Arc::ptr_eq] is equality. *)
Abbreviation slot_id := nat.
Abbreviation group_id := nat.

Inductive RouteTarget :=
| Single (slot : slot_id)
| LoadBalancedTarget (group : group_id).

#[global] Instance RouteTarget_eq_dec : EqDecision RouteTarget.
Proof. solve_decision. Defined.

Inductive LookupResult :=
| Duplicate (target : RouteTarget)
| Conflict (existing : bytes)
| NotFound.

Inductive RegisterResult :=
| Registered (target : RouteTarget)
| AlreadyExists (target : RouteTarget).

#[global] Instance RegisterResult_eq_dec : EqDecision RegisterResult.
Proof. solve_decision. Defined.

Record RegistryInner (T : Type) := mkRegistryInner {
  exact_tree : T;
  prefix_wildcard_tree : T;
  single_wildcards : list (bytes * RouteTarget);
}.
Arguments mkRegistryInner {T}.
Arguments exact_tree {T}.
Arguments prefix_wildcard_tree {T}.
Arguments single_wildcards {T}.

Section Registry.
Context {T X : Type} `{Radix RouteTarget T X}.
Implicit Types inner : RegistryInner T.

(** The empty snapshot [LocalRegistry::new] starts from. *)
Definition RegistryInner_new : RegistryInner T :=
  {| exact_tree := rx_new; prefix_wildcard_tree := rx_new; single_wildcards := [] |}.

(** The loop of [check_prefix_wildcard_conflicts] that probes "a:**", "a:b:**", ... for the
    segments of the pattern up to its [**]; returns the probe that is registered. *)
Fixpoint probe_prefixes (tree : T) (candidate : bytes) (segs : list bytes) : option bytes :=
  match segs with
  | [] => None
  | segment :: segs =>
      if decide (segment = star2) then None
      else
        let candidate :=
          (if is_empty candidate then [] else candidate ++ [colon]) ++ segment in
        let check_bytes := candidate ++ bs ":**" in
        match rx_get tree check_bytes with
        | Some _ => Some check_bytes
        | None => probe_prefixes tree candidate segs
        end
  end.

(** The first entry of a walk whose key conflicts with [pat_bytes], other than itself. *)
Fixpoint first_overlap (pat_bytes : bytes) (entries : list (bytes * RouteTarget))
    : option bytes :=
  match entries with
  | [] => None
  | (k, _) :: entries =>
      if decide (k = pat_bytes) then first_overlap pat_bytes entries
      else if compare_segments_bytes pat_bytes k true then Some k
      else first_overlap pat_bytes entries
  end.

Definition check_prefix_wildcard_conflicts (prefix_wildcard_tree : T) (pat_bytes : bytes)
    : option bytes :=
  if rx_is_empty prefix_wildcard_tree then None
  else
    match probe_prefixes prefix_wildcard_tree [] (split_on colon pat_bytes) with
    | Some check_bytes => Some (from_utf8_lossy check_bytes)
    | None =>
        let static_pref := static_prefix_bytes pat_bytes in
        from_utf8_lossy <$>
          first_overlap pat_bytes (rx_walk_prefix prefix_wildcard_tree static_pref)
    end.

Definition get_exact inner (address : bytes) : LookupResult :=
  match rx_get (exact_tree inner) address with
  | Some target => Duplicate target
  | None =>
      match rx_walk_path (prefix_wildcard_tree inner) address with
      | (k, _) :: _ => Conflict (from_utf8_lossy k)
      | [] =>
          match list_find (fun e => compare_segments_bytes e.1 address false = true)
                  (single_wildcards inner) with
          | Some (_, (pattern, _)) => Conflict (from_utf8_lossy pattern)
          | None => NotFound
          end
      end
  end.

Definition get_wildcard inner (pattern : bytes) : LookupResult :=
  let is_prefix_wildcard := ends_with star2 pattern in
  let duplicate :=
    if is_prefix_wildcard then rx_get (prefix_wildcard_tree inner) pattern
    else (fun e => e.2.2) <$> list_find (fun e => e.1 = pattern) (single_wildcards inner) in
  match duplicate with
  | Some target => Duplicate target
  | None =>
      match check_prefix_wildcard_conflicts (prefix_wildcard_tree inner) pattern with
      | Some existing => Conflict existing
      | None =>
          match list_find (fun e => compare_segments_bytes e.1 pattern true = true)
                  (single_wildcards inner) with
          | Some (_, (existing_pat, _)) => Conflict (from_utf8_lossy existing_pat)
          | None =>
              let static_pref := static_prefix_bytes pattern in
              match list_find (fun e => compare_segments_bytes pattern e.1 false = true)
                      (rx_walk_prefix (exact_tree inner) static_pref) with
              | Some (_, (k, _)) => Conflict (from_utf8_lossy k)
              | None => NotFound
              end
          end
      end
  end.

(** The check both registration methods start with. *)
Definition check_address inner (address : bytes) : result LookupResult RegistryError :=
  if is_wildcard address then
    let? _ := validate_wildcard_pattern address in
    Ok (get_wildcard inner address)
  else Ok (get_exact inner address).

(** The copy-on-write insertion both registration methods end with. *)
Definition insert_route inner (address : bytes) (target : RouteTarget) : RegistryInner T :=
  if negb (is_wildcard address) then
    {| exact_tree := rx_commit (rx_insert address target (rx_txn (exact_tree inner)));
       prefix_wildcard_tree := prefix_wildcard_tree inner;
       single_wildcards := single_wildcards inner |}
  else if ends_with star2 address then
    {| exact_tree := exact_tree inner;
       prefix_wildcard_tree :=
         rx_commit (rx_insert address target (rx_txn (prefix_wildcard_tree inner)));
       single_wildcards := single_wildcards inner |}
  else
    {| exact_tree := exact_tree inner;
       prefix_wildcard_tree := prefix_wildcard_tree inner;
       single_wildcards := single_wildcards inner ++ [(address, target)] |}.

(** The decision of [register]: the new snapshot, or the error. *)
Definition register_inner inner (address : bytes) (target : RouteTarget)
    : result (RegistryInner T) RegistryError :=
  let? lookup_result := check_address inner address in
  match lookup_result, is_wildcard address with
  | Duplicate _, _ => Err (AddressAlreadyOccupied address)
  | Conflict wc, true => Err (WildcardConflict address wc)
  | Conflict wc, false => Err (ConflictsWithWildcard address wc)
  | NotFound, _ => Ok (insert_route inner address target)
  end.

(** The target [unregister] finds under an address or pattern. *)
Definition find_route inner (address : bytes) : option RouteTarget :=
  if is_wildcard address then
    if ends_with star2 address then rx_get (prefix_wildcard_tree inner) address
    else (fun e => e.2.2) <$> list_find (fun e => e.1 = address) (single_wildcards inner)
  else rx_get (exact_tree inner) address.

(** [Vec::remove] of the first element with this pattern. *)
Definition remove_single (address : bytes) (l : list (bytes * RouteTarget))
    : list (bytes * RouteTarget) :=
  match list_find (fun e => e.1 = address) l with
  | Some (idx, _) => take idx l ++ drop (S idx) l
  | None => l
  end.

(** The copy-on-write removal of [unregister]. *)
Definition remove_route inner (address : bytes) : RegistryInner T :=
  if is_wildcard address then
    if ends_with star2 address then
      {| exact_tree := exact_tree inner;
         prefix_wildcard_tree :=
           rx_commit (rx_remove address (rx_txn (prefix_wildcard_tree inner)));
         single_wildcards := single_wildcards inner |}
    else
      {| exact_tree := exact_tree inner;
         prefix_wildcard_tree := prefix_wildcard_tree inner;
         single_wildcards := remove_single address (single_wildcards inner) |}
  else
    {| exact_tree := rx_commit (rx_remove address (rx_txn (exact_tree inner)));
       prefix_wildcard_tree := prefix_wildcard_tree inner;
       single_wildcards := single_wildcards inner |}.

Definition lookup_inner inner (address : bytes) : option RouteTarget :=
  match rx_get (exact_tree inner) address with
  | Some slot => Some slot
  | None =>
      match rx_get_ancestor (prefix_wildcard_tree inner) address with
      | Some slot => Some slot
      | None =>
          (fun e => e.2.2) <$>
            list_find (fun e => compare_segments_bytes e.1 address false = true)
              (single_wildcards inner)
      end
  end.

Definition has_local_inner inner (address : bytes) : bool :=
  match rx_get (exact_tree inner) address with Some _ => true | None => false end.

Definition has_route_inner inner (address : bytes) : bool :=
  match lookup_inner inner address with Some _ => true | None => false end.
End Registry.
