(* ===== verification/RegistryFacts.v ===== *)
(** * RegistryFacts: the invariant of a routing snapshot

    What every snapshot of the registry satisfies, that insertion and removal keep it, and what
    lookup returns under it. The statements hold for every implementation of [Radix]. *)

From Stdlib Require Import Strings.Byte.
From S2P Require Import Prelude.
From S2P Require Import Utf8.
From S2P Require Import Str.
From S2P Require Import Patterns.
From S2P Require Import PatternFacts.
From S2P Require Import RadixIface.
From S2P Require Import Registry.

Local Open Scope broker_scope.

(** ** Specification *)

(** A route registered under [p] is for address [a]. *)
Definition covers (p a : bytes) : Prop := if is_wildcard p then matches p a else p = a.

Section Facts.
Context {T X : Type} `{Radix RouteTarget T X}.
Implicit Types inner : RegistryInner T.

Definition exact_routes inner : gmap bytes RouteTarget := rx_entries (exact_tree inner).
Definition prefix_routes inner : gmap bytes RouteTarget :=
  rx_entries (prefix_wildcard_tree inner).

(** The routes other than the [**] patterns, and all of them. *)
Definition plain_route inner (p : bytes) (t : RouteTarget) : Prop :=
  exact_routes inner !! p = Some t \/ (p, t) ∈ single_wildcards inner.

Definition route inner (p : bytes) (t : RouteTarget) : Prop :=
  plain_route inner p t \/ prefix_routes inner !! p = Some t.

Record inner_wf inner : Prop := {
  wf_exact k : is_Some (exact_routes inner !! k) -> concrete k;
  wf_prefix k : is_Some (prefix_routes inner !! k) ->
    valid_pattern k /\ is_prefix_pattern k = true;
  wf_single p t : (p, t) ∈ single_wildcards inner ->
    is_wildcard p = true /\ valid_pattern p /\ is_prefix_pattern p = false;
  wf_exact_single k p t : is_Some (exact_routes inner !! k) ->
    (p, t) ∈ single_wildcards inner -> ~ matches p k;
  wf_disjoint : pairwise (fun e1 e2 => ~ overlap e1.1 e2.1) (single_wildcards inner);
}.

(** ** Patterns and addresses *)

Lemma overlap_refl p : valid_pattern p -> overlap p p.
Proof.
  intros Hv. apply overlap_segs; [done|].
  destruct (wf_segs_match (split_on colon p)) as (a & ? & ? & ?); [..|by exists a].
  - by apply valid_pattern_segs.
  - apply split_no_sep.
Qed.

Lemma overlap_sym p q : overlap p q -> overlap q p.
Proof. intros (a & ? & ? & ?). by exists a. Qed.

Lemma valid_not_concrete p : valid_pattern p -> is_prefix_pattern p = true -> ~ concrete p.
Proof.
  intros Hv Hp%prefix_pattern_spec Hc%concrete_plain; [|done].
  rewrite list.Forall_forall in Hc. by apply (plain_not_star star2); auto.
Qed.

(** A [**] pattern as a key is never a prefix of an address. *)
Lemma prefix_key_not_prefix p a :
  valid_pattern p -> is_prefix_pattern p = true -> concrete a -> ~ p `prefix_of` a.
Proof.
  intros Hv Hp Ha [r ->]. apply (valid_not_concrete p Hv Hp).
  unfold concrete, is_wildcard in *. apply contains_byte_false in Ha.
  apply contains_byte_false. set_solver.
Qed.

(** ** Entries of a changed snapshot *)

Lemma insert_routes inner a t :
  exact_routes (insert_route inner a t) =
    (if is_wildcard a then id else <[a := t]>) (exact_routes inner) /\
  prefix_routes (insert_route inner a t) =
    (if is_wildcard a && is_prefix_pattern a then <[a := t]> else id) (prefix_routes inner) /\
  single_wildcards (insert_route inner a t) =
    single_wildcards inner ++
    (if is_wildcard a && negb (is_prefix_pattern a) then [(a, t)] else []).
Proof.
  unfold exact_routes, prefix_routes, insert_route, is_prefix_pattern.
  destruct (is_wildcard a), (ends_with star2 a); simpl;
    by rewrite ?rx_commit_spec, ?rx_insert_spec, ?rx_txn_spec, ?app_nil_r.
Qed.

Lemma remove_routes inner a :
  exact_routes (remove_route inner a) =
    (if is_wildcard a then id else delete a) (exact_routes inner) /\
  prefix_routes (remove_route inner a) =
    (if is_wildcard a && is_prefix_pattern a then delete a else id) (prefix_routes inner) /\
  single_wildcards (remove_route inner a) =
    (if is_wildcard a && negb (is_prefix_pattern a) then remove_single a else id)
      (single_wildcards inner).
Proof.
  unfold exact_routes, prefix_routes, remove_route, is_prefix_pattern.
  destruct (is_wildcard a), (ends_with star2 a); simpl;
    by rewrite ?rx_commit_spec, ?rx_remove_spec, ?rx_txn_spec.
Qed.

(** ** What the checks establish *)

Lemma get_exact_not_found inner a :
  get_exact inner a = NotFound ->
  exact_routes inner !! a = None /\
  Forall (fun e => compare_segments_bytes e.1 a false <> true) (single_wildcards inner).
Proof.
  unfold get_exact, exact_routes. rewrite rx_get_spec. intros E. cases.
  split; [done|]. eapply (proj1 (list_find_None _ _)); eassumption.
Qed.

Lemma get_wildcard_not_found inner p :
  get_wildcard inner p = NotFound ->
  Forall (fun e => compare_segments_bytes e.1 p true <> true) (single_wildcards inner) /\
  (forall k, is_Some (exact_routes inner !! k) -> static_prefix_bytes p `prefix_of` k ->
     compare_segments_bytes p k false <> true).
Proof.
  unfold get_wildcard. intros E.
  destruct (if ends_with star2 p then _ else _) as [t|]; [done|].
  destruct (check_prefix_wildcard_conflicts _ _) as [k|]; [done|].
  destruct (list_find _ (single_wildcards inner)) as [[? [? ?]]|] eqn:E1; [done|].
  destruct (list_find _ (rx_walk_prefix _ _)) as [[? [? ?]]|] eqn:E2; [done|].
  apply (proj1 (list_find_None _ _)) in E1, E2. split; [done|].
  intros k [t Ht] Hk. rewrite list.Forall_forall in E2.
  by apply (E2 (k, t)), rx_walk_prefix_spec.
Qed.

(** A snapshot's free address is that of no route that can be told apart from the [**] ones. *)
Lemma check_exact_free inner a :
  inner_wf inner -> concrete a -> get_exact inner a = NotFound ->
  exact_routes inner !! a = None /\
  forall p t, (p, t) ∈ single_wildcards inner -> ~ matches p a.
Proof.
  intros Hwf Ha [Hn Hf]%get_exact_not_found. split; [done|].
  intros p t Hp. destruct (wf_single _ Hwf p t Hp) as (_ & Hv & _).
  rewrite <-compare_bytes_match by done. rewrite list.Forall_forall in Hf. by apply (Hf (p, t)).
Qed.

Lemma check_single_free inner p :
  inner_wf inner -> valid_pattern p -> is_prefix_pattern p = false ->
  get_wildcard inner p = NotFound ->
  (forall k, is_Some (exact_routes inner !! k) -> ~ matches p k) /\
  forall q t, (q, t) ∈ single_wildcards inner -> ~ overlap q p.
Proof.
  intros Hwf Hv Hp [Hs Hx]%get_wildcard_not_found. split.
  - intros k Hk Hm. pose proof (wf_exact _ Hwf k Hk) as Hc.
    apply (Hx k Hk); [by apply static_prefix_match|by apply compare_bytes_match].
  - intros q t Hq. destruct (wf_single _ Hwf q t Hq) as (_ & Hvq & _).
    rewrite <-compare_bytes_overlap by done. rewrite list.Forall_forall in Hs.
    by apply (Hs (q, t)).
Qed.

(** ** The invariant *)

Lemma new_wf : inner_wf RegistryInner_new.
Proof.
  split; [intros k|intros k|intros p t|intros k p t _|];
    unfold exact_routes, prefix_routes; simpl; rewrite ?rx_new_spec.
  - by intros ?%lookup_empty_is_Some.
  - by intros ?%lookup_empty_is_Some.
  - set_solver.
  - set_solver.
  - intros i j x y Hi. by rewrite lookup_nil in Hi.
Qed.

(** The outcome of the check the registration methods make. *)
Lemma check_address_found inner a :
  check_address inner a = Ok NotFound <->
  (concrete a /\ get_exact inner a = NotFound) \/
  (is_wildcard a = true /\ valid_pattern a /\ get_wildcard inner a = NotFound).
Proof.
  unfold check_address, concrete. rewrite <-validate_pattern_spec.
  destruct (is_wildcard a); [destruct (validate_wildcard_pattern a) as [[]|e]|];
    (split; [intros E; simplify_eq; auto|intros [(? & E)|(? & ? & E)]; by rewrite ?E]).
Qed.

Lemma insert_wf inner a t :
  inner_wf inner -> check_address inner a = Ok NotFound -> inner_wf (insert_route inner a t).
Proof.
  intros Hwf [[Ha Hf]|(Ha & Hv & Hf)]%check_address_found;
    destruct (insert_routes inner a t) as (Ex & Ep & Es).
  - apply check_exact_free in Hf as [Hn Hs]; [|done..]. rewrite Ha in *. simpl in *.
    rewrite app_nil_r in Es. split; rewrite ?Ex, ?Ep, ?Es.
    + intros k [->|[_ Hk]]%lookup_insert_is_Some; [done|by apply (wf_exact _ Hwf)].
    + apply (wf_prefix _ Hwf).
    + apply (wf_single _ Hwf).
    + intros k p u [->|[_ Hk]]%lookup_insert_is_Some; [by apply Hs|].
      by apply (wf_exact_single _ Hwf).
    + apply (wf_disjoint _ Hwf).
  - rewrite Ha in *. destruct (is_prefix_pattern a) eqn:Hp; simpl in *.
    + rewrite app_nil_r in Es. split; rewrite ?Ex, ?Ep, ?Es; try apply Hwf.
      intros k [->|[_ Hk]]%lookup_insert_is_Some; [done|by apply (wf_prefix _ Hwf)].
    + apply check_single_free in Hf as [Hx Hs]; [|done..].
      split; rewrite ?Ex, ?Ep, ?Es; try apply Hwf.
      * intros p u [Hin|Hin]%elem_of_app; [by apply (wf_single _ Hwf) in Hin|].
        apply list_elem_of_singleton in Hin. by simplify_eq.
      * intros k p u Hk [Hin|Hin]%elem_of_app; [by apply (wf_exact_single _ Hwf) with u|].
        apply list_elem_of_singleton in Hin. simplify_eq. by apply Hx.
      * apply pairwise_snoc; [apply Hwf|]. intros [q u] Hq. simpl.
        specialize (Hs q u Hq). split; [contradict Hs; by apply overlap_sym|done].
Qed.

(** Removal deletes one entry of the list of single-segment patterns, if any. *)
Lemma remove_single_delete a l :
  remove_single a l = l /\ Forall (fun e => e.1 <> a) l \/
  exists i e, list_find (fun e => e.1 = a) l = Some (i, e) /\ remove_single a l = delete i l.
Proof.
  unfold remove_single. destruct (list_find _ l) as [[i e]|] eqn:E.
  - right. exists i, e. by rewrite <-delete_take_drop.
  - left. split; [done|]. by apply (proj1 (list_find_None _ _)) in E.
Qed.

Lemma remove_single_subseteq a l e : e ∈ remove_single a l -> e ∈ l.
Proof.
  destruct (remove_single_delete a l) as [[-> _]|(i & u & _ & ->)]; [done|].
  intros He. by apply (sublist_subseteq (delete i l)); [apply sublist_delete|].
Qed.

Lemma remove_single_pairwise R a l : pairwise R l -> pairwise R (remove_single a l).
Proof.
  destruct (remove_single_delete a l) as [[-> _]|(i & u & _ & ->)]; [done|].
  apply pairwise_delete.
Qed.

Lemma remove_wf inner a : inner_wf inner -> inner_wf (remove_route inner a).
Proof.
  intros Hwf. destruct (remove_routes inner a) as (Ex & Ep & Es).
  assert (forall k, is_Some (exact_routes (remove_route inner a) !! k) ->
                    is_Some (exact_routes inner !! k)) as Hx.
  { intros k. rewrite Ex. destruct (is_wildcard a); [done|].
    rewrite lookup_delete_is_Some. tauto. }
  assert (forall e, e ∈ single_wildcards (remove_route inner a) ->
                    e ∈ single_wildcards inner) as Hs.
  { intros e. rewrite Es. destruct (is_wildcard a && negb _); [apply remove_single_subseteq|done]. }
  split.
  - intros k Hk. by apply (wf_exact _ Hwf), Hx.
  - intros k. rewrite Ep. destruct (is_wildcard a && _); [|apply Hwf].
    rewrite lookup_delete_is_Some. intros [_ ?]. by apply Hwf.
  - intros p t ?%Hs. by apply (wf_single _ Hwf p t).
  - intros k p t ?%Hx ?%Hs. by apply (wf_exact_single _ Hwf k p t).
  - rewrite Es. destruct (is_wildcard a && negb _); [apply remove_single_pairwise|]; apply Hwf.
Qed.

(** ** Lookup *)

Lemma no_prefix_ancestor inner a :
  inner_wf inner -> concrete a -> rx_get_ancestor (prefix_wildcard_tree inner) a = None.
Proof.
  intros Hwf Ha. pose proof (rx_get_ancestor_spec (prefix_wildcard_tree inner) a) as Hs.
  destruct (rx_get_ancestor _ a) as [t|]; [|done]. destruct Hs as (p & Hpa & Hp & _).
  destruct (wf_prefix _ Hwf p) as [Hv Hk]; [by exists t|].
  by apply prefix_key_not_prefix in Hpa.
Qed.

Lemma no_prefix_walk inner a :
  inner_wf inner -> concrete a -> rx_walk_path (prefix_wildcard_tree inner) a = [].
Proof.
  intros Hwf Ha. destruct (rx_walk_path _ a) as [|[p t] l] eqn:E; [done|].
  assert ((p, t) ∈ rx_walk_path (prefix_wildcard_tree inner) a) as Hin by (rewrite E; set_solver).
  apply rx_walk_path_spec in Hin as [Hpa Hp].
  destruct (wf_prefix _ Hwf p) as [Hv Hk]; [by exists t|].
  by apply prefix_key_not_prefix in Hpa.
Qed.

Lemma plain_route_covers inner p t a :
  inner_wf inner ->
  plain_route inner p t /\ covers p a <->
  p = a /\ exact_routes inner !! a = Some t \/
  (p, t) ∈ single_wildcards inner /\ matches p a.
Proof.
  intros Hwf. unfold plain_route, covers. split.
  - intros [[Hr|Hr] Hc].
    + rewrite (wf_exact _ Hwf p) in Hc by eauto. subst. auto.
    + destruct (wf_single _ Hwf p t Hr) as (Hw & _). rewrite Hw in Hc. auto.
  - intros [[-> Hr]|[Hr Hm]].
    + rewrite (wf_exact _ Hwf a) by eauto. auto.
    + destruct (wf_single _ Hwf p t Hr) as (Hw & _). rewrite Hw. auto.
Qed.

(** Two routes other than [**] ones for one address are the same entry. *)
Lemma covers_unique inner a p1 t1 p2 t2 :
  inner_wf inner -> concrete a ->
  plain_route inner p1 t1 -> covers p1 a -> plain_route inner p2 t2 -> covers p2 a ->
  p1 = p2 /\ t1 = t2.
Proof.
  intros Hwf Ha Hr1 Hc1 Hr2 Hc2.
  destruct (proj1 (plain_route_covers inner p1 t1 a Hwf)) as [[-> H1]|[H1 Hm1]];
    [done| |]; destruct (proj1 (plain_route_covers inner p2 t2 a Hwf)) as [[-> H2]|[H2 Hm2]];
    try done.
  - split; congruence.
  - by destruct (wf_exact_single _ Hwf a p2 t2); [eauto|..].
  - by destruct (wf_exact_single _ Hwf a p1 t1); [eauto|..].
  - destruct (pairwise_elem _ _ _ _ (wf_disjoint _ Hwf) H1 H2) as [|Ho]; [by simplify_eq|].
    destruct Ho. by exists a.
Qed.

Lemma lookup_inner_some inner a t :
  inner_wf inner -> concrete a -> lookup_inner inner a = Some t ->
  exists p, plain_route inner p t /\ covers p a.
Proof.
  intros Hwf Ha. unfold lookup_inner. rewrite rx_get_spec.
  destruct (rx_entries (exact_tree inner) !! a) as [u|] eqn:E.
  { intros [= ->]. exists a. apply plain_route_covers; auto. }
  rewrite no_prefix_ancestor by done.
  destruct (list_find _ _) as [[i [p u]]|] eqn:Ef; [|done]. intros [= ->].
  apply list_find_Some in Ef as (Hi & Hm & _). apply list_elem_of_lookup_2 in Hi.
  exists p. apply plain_route_covers; [done|]. right. split; [done|].
  destruct (wf_single _ Hwf _ _ Hi) as (_ & Hv & _). by apply compare_bytes_match in Hm.
Qed.

Lemma lookup_inner_none inner a :
  inner_wf inner -> concrete a -> lookup_inner inner a = None ->
  forall p t, plain_route inner p t -> ~ covers p a.
Proof.
  intros Hwf Ha. unfold lookup_inner. rewrite rx_get_spec.
  destruct (rx_entries (exact_tree inner) !! a) as [u|] eqn:E; [done|].
  rewrite no_prefix_ancestor by done.
  destruct (list_find _ _) as [[i [p u]]|] eqn:Ef; [done|]. intros _ p t Hr Hc.
  destruct (proj1 (plain_route_covers inner p t a Hwf)) as [[-> Hx]|[Hs Hm]]; [done| |].
  - unfold exact_routes in Hx. congruence.
  - destruct (wf_single _ Hwf _ _ Hs) as (_ & Hv & _).
    apply (proj1 (list_find_None _ _)) in Ef. rewrite list.Forall_forall in Ef.
    by apply (Ef (p, t) Hs), compare_bytes_match.
Qed.

(** Lookup is the map from addresses to the one route that covers them. *)
Lemma lookup_inner_iff inner a t :
  inner_wf inner -> concrete a ->
  lookup_inner inner a = Some t <-> exists p, plain_route inner p t /\ covers p a.
Proof.
  intros Hwf Ha. split; [by apply lookup_inner_some|]. intros (p & Hr & Hc).
  destruct (lookup_inner inner a) as [u|] eqn:E.
  - apply lookup_inner_some in E as (q & Hq & Hqc); [|done..].
    by destruct (covers_unique inner a p t q u) as [_ ->].
  - by destruct (lookup_inner_none inner a Hwf Ha E p t Hr).
Qed.
End Facts.

#[export] Hint Resolve new_wf insert_wf remove_wf : broker.
