(* ===== verification/RegistryProps.v ===== *)
(** * RegistryProps: the properties of registration, removal and lookup on a snapshot

    Correctness of the functions of Registry.v for every implementation of [Radix]: the outcome of
    a registration on every branch, lookup as the unique route that covers an address, and what
    the conflict checks miss for [**] patterns. *)

From Stdlib Require Import Strings.Byte.
From S2P Require Import Prelude.
From S2P Require Import Utf8.
From S2P Require Import Str.
From S2P Require Import Patterns.
From S2P Require Import PatternFacts.
From S2P Require Import RadixIface.
From S2P Require Import Registry.
From S2P Require Import RegistryFacts.

Local Open Scope broker_scope.

(** ** Conflict reports *)

Section Conflicts.
Context {T X : Type} `{Radix RouteTarget T X}.
Implicit Types inner : RegistryInner T.

(** A probe is the pattern cut after some segment, with [**] in place of the rest. *)
Lemma probe_prefixes_found (tree : T) pre segs k :
  Forall (fun s => s <> []) (pre ++ segs) ->
  probe_prefixes tree (join colon pre) segs = Some k ->
  exists q r, segs = q ++ r /\ Forall (fun s => s <> star2) q /\
    k = join colon (pre ++ q ++ [star2]) /\ is_Some (rx_entries tree !! k).
Proof.
  induction segs as [|s segs IH] in pre |- *; intros Hne E; [done|]. cbn [probe_prefixes] in E.
  case_decide as Hs; [done|].
  assert ((if is_empty (join colon pre) then [] else join colon pre ++ [colon]) ++ s =
    join colon (pre ++ [s])) as Ej.
  { apply Forall_app in Hne as [Hpre _]. pose proof (is_empty_join colon pre Hpre) as He.
    destruct (is_empty (join colon pre)).
    - by rewrite (proj1 He).
    - rewrite join_snoc by naive_solver. by rewrite <-app_assoc. }
  rewrite Ej in E. rewrite rx_get_spec in E.
  assert (join colon (pre ++ [s]) ++ bs ":**" = join colon (pre ++ [s] ++ [star2])) as Ek.
  { rewrite (app_assoc pre), (join_snoc colon (pre ++ [s])) by by destruct pre. reflexivity. }
  rewrite Ek in E. destruct (rx_entries tree !! join colon (pre ++ [s] ++ [star2])) as [t|] eqn:Ht.
  - simplify_eq. exists [s], segs. split_and!; [done|by repeat constructor|done|by exists t].
  - apply IH in E as (q & r & -> & Hq & -> & Hk); [|by rewrite <-app_assoc].
    rewrite <-app_assoc in Hk |- *. exists (s :: q), r. split_and!; auto.
Qed.

Lemma first_overlap_found p entries k :
  first_overlap p entries = Some k ->
  exists t, (k, t) ∈ entries /\ compare_segments_bytes p k true = true.
Proof.
  induction entries as [|[q t] entries IH]; simpl; [done|]. intros E. cases.
  - destruct (IH E) as (u & ? & ?). exists u. split; [by right|done].
  - exists t. split; [left|done].
  - destruct (IH E) as (u & ? & ?). exists u. split; [by right|done].
Qed.

Lemma prefix_conflict_found inner p e :
  inner_wf inner -> valid_pattern p ->
  check_prefix_wildcard_conflicts (prefix_wildcard_tree inner) p = Some e ->
  exists q t, prefix_routes inner !! q = Some t /\ e = from_utf8_lossy q /\ overlap p q.
Proof.
  intros Hwf Hv. pose proof (proj1 (valid_pattern_segs p) Hv) as [Hw _].
  unfold check_prefix_wildcard_conflicts. destruct (rx_is_empty _); [done|].
  destruct (probe_prefixes _ [] _) as [k|] eqn:E1.
  - intros [= <-]. apply (probe_prefixes_found _ []) in E1 as (q & r & Es & Hq & Ek & [t Ht]).
    + exists k, t. split_and!; [done..|]. destruct (wf_prefix _ Hwf k) as [Hvk _]; [by eexists|].
      apply overlap_segs; [done|].
      destruct (wf_segs_match (split_on colon p)) as (a & Ha & Hc & Hm); [done|apply split_no_sep|].
      exists a. split_and!; [done..|]. subst k. simpl.
      rewrite split_join.
      * apply seg_match_cut with r; [by rewrite <-Es|done|by rewrite <-Es].
      * by destruct q.
      * apply Forall_app; split.
        -- pose proof (split_no_sep colon p) as Hns. rewrite Es in Hns.
        by apply list.Forall_app in Hns as [? _].
        -- repeat constructor. by apply contains_byte_false.
    + simpl. by apply wf_segs_not_empty.
  - destruct (first_overlap _ _) as [k|] eqn:E2; [|done]. intros [= <-].
    apply first_overlap_found in E2 as (t & Hin & Hc). apply rx_walk_prefix_spec in Hin as [_ Ht].
    exists k, t. split_and!; [done..|]. destruct (wf_prefix _ Hwf k) as [Hvk _]; [by eexists|].
    by apply compare_bytes_overlap.
Qed.
End Conflicts.

(** ** Registration *)

(** The two route addresses can both receive a message sent to one address. *)
Definition clash (p q : bytes) : Prop := exists a, concrete a /\ covers p a /\ covers q a.

Section Registration.
Context {T X : Type} `{Radix RouteTarget T X}.
Implicit Types inner : RegistryInner T.

Lemma covers_self a : concrete a -> covers a a.
Proof. intros Ha. unfold covers. by rewrite Ha. Qed.

Lemma covers_wildcard p a : is_wildcard p = true -> covers p a <-> matches p a.
Proof. intros Hp. unfold covers. by rewrite Hp. Qed.

Lemma overlap_clash p q :
  is_wildcard p = true -> is_wildcard q = true -> overlap p q -> clash p q.
Proof. intros Hp Hq (a & ? & ? & ?). exists a. by rewrite !covers_wildcard. Qed.

Lemma prefix_is_wildcard inner p t :
  inner_wf inner -> prefix_routes inner !! p = Some t ->
  is_wildcard p = true /\ valid_pattern p /\ is_prefix_pattern p = true.
Proof.
  intros Hwf Hp. destruct (wf_prefix _ Hwf p) as [Hv Hs]; [by exists t|].
  split; [|done]. apply not_false_is_true. by apply valid_not_concrete.
Qed.

(** What is registered under exactly this pattern. *)
Lemma get_wildcard_duplicate inner p :
  is_wildcard p = true ->
  (if ends_with star2 p then rx_get (prefix_wildcard_tree inner) p
   else (fun e => e.2.2) <$> list_find (fun e => e.1 = p) (single_wildcards inner)) =
  find_route inner p.
Proof. intros Hp. unfold find_route. by rewrite Hp. Qed.

Lemma find_route_some inner a t : find_route inner a = Some t -> route inner a t.
Proof.
  unfold find_route, route, plain_route, exact_routes, prefix_routes. rewrite !rx_get_spec.
  destruct (is_wildcard a); [|auto]. destruct (ends_with _ _); [auto|].
  destruct (list_find _ _) as [[i [p u]]|] eqn:E; [|done]. intros [= ->].
  apply list_find_Some in E as (Hi%list_elem_of_lookup_2 & Ha & _). simpl in Ha. subst. auto.
Qed.

(** What an insertion, a removal and a lookup do to the routes, well formed or not. *)
Lemma route_insert inner a t p u :
  route (insert_route inner a t) p u -> (p = a /\ u = t) \/ route inner p u.
Proof.
  destruct (insert_routes inner a t) as (Ex & Ep & Es). unfold route, plain_route. rewrite Ex, Ep, Es.
  assert (forall m : gmap bytes RouteTarget, <[a := t]> m !! p = Some u ->
    (p = a /\ u = t) \/ m !! p = Some u) as Hm.
  { intros m [[<- <-]|[_ Hp]]%lookup_insert_Some; auto. }
  intros [[He|Hs]|Hp].
  - case_match; [by auto|]. apply Hm in He. tauto.
  - apply elem_of_app in Hs as [Hs|Hs]; [by auto|].
    case_match; [|by apply elem_of_nil in Hs].
    apply list_elem_of_singleton in Hs as [= -> ->]. auto.
  - case_match; [|by auto]. apply Hm in Hp. tauto.
Qed.

Lemma route_remove inner a p u : route (remove_route inner a) p u -> route inner p u.
Proof.
  destruct (remove_routes inner a) as (Ex & Ep & Es). unfold route, plain_route. rewrite Ex, Ep, Es.
  assert (forall m : gmap bytes RouteTarget, delete a m !! p = Some u -> m !! p = Some u) as Hm.
  { by intros m [_ Hp]%lookup_delete_Some. }
  intros [[He|Hs]|Hp].
  - case_match; auto.
  - left; right. case_match; [|done].
    by apply remove_single_subseteq in Hs.
  - case_match; auto.
Qed.

Lemma lookup_is_route inner x t : lookup_inner inner x = Some t -> exists a, route inner a t.
Proof.
  unfold lookup_inner. rewrite rx_get_spec. intros E.
  destruct (rx_entries (exact_tree inner) !! x) as [u|] eqn:Ex.
  { injection E as <-. exists x. by left; left. }
  pose proof (rx_get_ancestor_spec (prefix_wildcard_tree inner) x) as Ha.
  destruct (rx_get_ancestor _ x) as [u|].
  { injection E as <-. destruct Ha as (a & _ & Ha & _). exists a. by right. }
  apply fmap_Some in E as ([n [a u]] & (Hn%list_elem_of_lookup_2 & _)%list_find_Some & ->).
  exists a. by left; right.
Qed.

Lemma find_route_none inner a :
  inner_wf inner -> find_route inner a = None -> forall t, ~ route inner a t.
Proof.
  intros Hwf Hf t Hr. revert Hf. unfold find_route. rewrite !rx_get_spec.
  destruct Hr as [[Hr|Hr]|Hr].
  - rewrite (wf_exact _ Hwf a) by eauto. unfold exact_routes in Hr. congruence.
  - destruct (wf_single _ Hwf a t Hr) as (-> & _ & Hp). unfold is_prefix_pattern in Hp.
    rewrite Hp. destruct (list_find _ _) as [e|] eqn:E; [done|]. intros _.
    apply (proj1 (list_find_None _ _)) in E. rewrite list.Forall_forall in E.
    by apply (E (a, t)).
  - destruct (prefix_is_wildcard inner a t Hwf Hr) as (-> & _ & Hp).
    unfold is_prefix_pattern in Hp. rewrite Hp. unfold prefix_routes in Hr. congruence.
Qed.

(** The outcome of the check of an exact address. *)
Lemma get_exact_spec inner a :
  inner_wf inner -> concrete a ->
  match get_exact inner a with
  | Duplicate t => route inner a t
  | Conflict e => exists p t, route inner p t /\ clash a p /\ e = from_utf8_lossy p
  | NotFound => forall p t, plain_route inner p t -> ~ covers p a
  end.
Proof.
  intros Hwf Ha. destruct (get_exact inner a) as [t|e|] eqn:E.
  - unfold get_exact in E. cases. apply find_route_some. unfold find_route. by rewrite Ha.
  - unfold get_exact in E. rewrite (no_prefix_walk inner a) in E by done.
    destruct (rx_get _ _); [done|].
    destruct (list_find _ _) as [[i [p t]]|] eqn:Ef; [|done]. injection E as <-.
    apply list_find_Some in Ef as (Hi%list_elem_of_lookup_2 & Hm & _).
    destruct (wf_single _ Hwf p t Hi) as (Hw & Hv & _). simpl in Hm.
    apply compare_bytes_match in Hm; [|done..].
    exists p, t. split_and!; [by left; right|exists a|done].
    rewrite (covers_wildcard p) by done. auto using covers_self.
  - apply check_exact_free in E as [Hn Hs]; [|done..]. intros p t Hr Hc.
    destruct (proj1 (plain_route_covers inner p t a Hwf)) as [[_ Hx]|[Hx Hm]]; [done|congruence|].
    by apply (Hs p t).
Qed.

(** The outcome of the check of a pattern. *)
Lemma get_wildcard_spec inner w :
  inner_wf inner -> is_wildcard w = true -> valid_pattern w ->
  match get_wildcard inner w with
  | Duplicate t => route inner w t
  | Conflict e => exists p t, route inner p t /\ clash w p /\ e = from_utf8_lossy p
  | NotFound => forall t, ~ route inner w t
  end.
Proof.
  intros Hwf Hw Hv. unfold get_wildcard. rewrite get_wildcard_duplicate by done.
  destruct (find_route inner w) as [t|] eqn:Ef; [by apply find_route_some|].
  destruct (check_prefix_wildcard_conflicts _ _) as [e|] eqn:Ep.
  { apply prefix_conflict_found in Ep as (q & t & Hq & -> & Ho); [|done..].
    exists q, t. split_and!; [by right| |done].
    apply overlap_clash; [done|by apply (prefix_is_wildcard inner q t)|done]. }
  destruct (list_find _ (single_wildcards inner)) as [[i [p t]]|] eqn:Es.
  { apply list_find_Some in Es as (Hi%list_elem_of_lookup_2 & Hm & _). simpl in Hm.
    destruct (wf_single _ Hwf p t Hi) as (Hwp & Hvp & _).
    apply compare_bytes_overlap in Hm; [|done..].
    exists p, t. split_and!; [by left; right| |done].
    apply overlap_clash; [done..|by apply overlap_sym]. }
  destruct (list_find _ (rx_walk_prefix _ _)) as [[i [k t]]|] eqn:Ex.
  { apply list_find_Some in Ex as (Hi%list_elem_of_lookup_2 & Hm & _). simpl in Hm.
    apply rx_walk_prefix_spec in Hi as [_ Hi].
    assert (concrete k) as Hk by (apply (wf_exact _ Hwf); by exists t).
    apply compare_bytes_match in Hm; [|done..].
    exists k, t. split_and!; [by left; left|exists k|done].
    rewrite (covers_wildcard w) by done. auto using covers_self. }
  by apply find_route_none.
Qed.
End Registration.

(** ** Properties *)

Section Properties.
Context {T X : Type} `{Radix RouteTarget T X}.
Implicit Types inner : RegistryInner T.

Lemma insert_route_routes inner a t :
  inner_wf inner -> check_address inner a = Ok NotFound ->
  forall p u, route (insert_route inner a t) p u <-> (p = a /\ u = t) \/ route inner p u.
Proof.
  intros Hwf Hc p u. destruct (insert_routes inner a t) as (Ex & Ep & Es).
  unfold route, plain_route. rewrite Ex, Ep, Es.
  apply check_address_found in Hc as [[Ha Hf]|(Ha & Hv & Hf)]; rewrite Ha; simpl.
  - rewrite app_nil_r, lookup_insert_Some.
    apply check_exact_free in Hf as [Hn _]; [|done..]. unfold exact_routes in *.
    destruct (decide (a = p)) as [->|]; naive_solver congruence.
  - pose proof (get_wildcard_spec inner a Hwf Ha Hv) as Hs. rewrite Hf in Hs.
    destruct (is_prefix_pattern a); simpl.
    + rewrite app_nil_r, lookup_insert_Some. specialize (Hs u).
      unfold route, plain_route in Hs.
      destruct (decide (a = p)) as [->|]; naive_solver.
    + rewrite elem_of_app, list_elem_of_singleton. naive_solver.
Qed.

Lemma check_address_fresh inner a :
  inner_wf inner -> check_address inner a = Ok NotFound -> forall t, ~ route inner a t.
Proof.
  intros Hwf [[Ha Hf]|(Ha & Hv & Hf)]%check_address_found.
  - pose proof (get_exact_spec inner a Hwf Ha) as Hs. rewrite Hf in Hs.
    intros t [Hr|Hr]; [by apply (Hs a t Hr), covers_self|].
    apply prefix_is_wildcard in Hr as [Hw _]; [|done]. unfold concrete in Ha. congruence.
  - pose proof (get_wildcard_spec inner a Hwf Ha Hv) as Hs. by rewrite Hf in Hs.
Qed.

Lemma insert_route_plain inner a t p u :
  plain_route (insert_route inner a t) p u -> p <> a -> plain_route inner p u.
Proof.
  unfold plain_route. destruct (insert_routes inner a t) as (-> & _ & ->).
  destruct (is_wildcard a), (is_prefix_pattern a); simpl;
    rewrite ?lookup_insert_Some, elem_of_app, ?list_elem_of_singleton; set_solver.
Qed.

Lemma insert_route_mono inner a t p u :
  inner_wf inner -> check_address inner a = Ok NotFound ->
  plain_route inner p u -> plain_route (insert_route inner a t) p u.
Proof.
  intros Hwf Hc Hr. assert (p <> a) as Hp.
  { intros ->. apply (check_address_fresh inner a Hwf Hc u). by left. }
  revert Hr. unfold plain_route. destruct (insert_routes inner a t) as (-> & _ & ->).
  destruct (is_wildcard a); simpl; rewrite ?lookup_insert_ne, elem_of_app by done; tauto.
Qed.

(** Snapshots with the same routes for an address look it up alike. *)
Lemma lookup_inner_ext (i1 i2 : RegistryInner T) x :
  inner_wf i1 -> inner_wf i2 -> concrete x ->
  (forall u, (exists p, plain_route i1 p u /\ covers p x) <->
             (exists p, plain_route i2 p u /\ covers p x)) ->
  lookup_inner i1 x = lookup_inner i2 x.
Proof.
  intros H1 H2 Hx He. apply option_eq. intros u. by rewrite !lookup_inner_iff.
Qed.

(** C15: registering a route keeps the snapshot invariant. On success the new route is the only
    change; every error is justified: an occupied address has a route already, a conflict names
    a registered route that shares an address with the new one, and a malformed pattern is one
    the syntax rules exclude. *)
Theorem register_inner_spec inner a t (Hwf : inner_wf inner) :
  match register_inner inner a t with
  | Ok inner' => inner_wf inner' /\
      forall p u, route inner' p u <-> (p = a /\ u = t) \/ route inner p u
  | Err (AddressAlreadyOccupied b) => b = a /\ exists u, route inner a u
  | Err (WildcardConflict b e) => b = a /\ valid_pattern a /\
      exists p u, route inner p u /\ clash a p /\ e = from_utf8_lossy p
  | Err (ConflictsWithWildcard b e) => b = a /\ concrete a /\
      exists p u, route inner p u /\ clash a p /\ e = from_utf8_lossy p
  | Err (InvalidWildcardFormat _) => is_wildcard a = true /\ ~ valid_pattern a
  | Err _ => False
  end.
Proof.
  unfold register_inner. destruct (check_address inner a) as [r|e] eqn:Hc.
  - destruct (is_wildcard a) eqn:Ha.
    + unfold check_address in Hc. rewrite Ha in Hc.
      destruct (validate_wildcard_pattern a) as [[]|] eqn:Hv; [|done].
      apply validate_pattern_spec in Hv. injection Hc as Hc.
      pose proof (get_wildcard_spec inner a Hwf Ha Hv) as Hs. rewrite Hc in Hs.
      destruct r; eauto.
      assert (check_address inner a = Ok NotFound) by (apply check_address_found; auto).
      split; [by apply insert_wf|by apply insert_route_routes].
    + unfold check_address in Hc. rewrite Ha in Hc. injection Hc as Hc.
      pose proof (get_exact_spec inner a Hwf Ha) as Hs. rewrite Hc in Hs.
      destruct r; eauto.
      assert (check_address inner a = Ok NotFound) by (apply check_address_found; auto).
      split; [by apply insert_wf|by apply insert_route_routes].
  - unfold check_address in Hc. destruct (is_wildcard a) eqn:Ha; [|done].
    destruct (validate_wildcard_pattern a) as [[]|e'] eqn:Hv; [done|]. simplify_eq.
    destruct (validate_error a e Hv) as [r ->]. split; [done|].
    rewrite <-validate_pattern_spec. congruence.
Qed.

(** C14: every concrete address has at most one recipient among the exact and single-segment
    routes, and lookup finds it: lookup is the function from addresses to the route that covers
    them, whatever order the routes were registered in. *)
Theorem lookup_unique inner a t (Hwf : inner_wf inner) (Ha : concrete a) :
  (lookup_inner inner a = Some t <-> exists p, plain_route inner p t /\ covers p a) /\
  forall p1 t1 p2 t2, plain_route inner p1 t1 -> covers p1 a ->
    plain_route inner p2 t2 -> covers p2 a -> p1 = p2 /\ t1 = t2.
Proof. split; [by apply lookup_inner_iff|]. intros. by apply (covers_unique inner a). Qed.

(** C35: an exact address is accepted exactly when no exact or single-segment route covers it; a
    registered [**] pattern that covers it is not seen, although the documentation promises
    that such an address is refused. *)
Theorem register_exact_iff inner a t (Hwf : inner_wf inner) (Ha : concrete a) :
  is_ok (register_inner inner a t) = true <->
  forall p u, plain_route inner p u -> ~ covers p a.
Proof.
  unfold register_inner, check_address. rewrite Ha.
  pose proof (get_exact_spec inner a Hwf Ha) as Hs. unfold get_exact in *.
  destruct (rx_get (exact_tree inner) a) as [u|] eqn:E.
  { split; [done|]. intros Hn. rewrite rx_get_spec in E.
    by destruct (Hn a u); [left|apply covers_self]. }
  rewrite (no_prefix_walk inner a) in * by done.
  destruct (list_find _ _) as [[i [p u]]|] eqn:Ef; simpl in *; [|done].
  split; [done|]. intros Hn. apply list_find_Some in Ef as (Hi%list_elem_of_lookup_2 & Hm & _).
  destruct (wf_single _ Hwf p u Hi) as (Hw & Hv & _). simpl in Hm.
  apply compare_bytes_match in Hm; [|done..].
  destruct (Hn p u); [by right|by apply covers_wildcard].
Qed.

Lemma check_not_found_free (i : RegistryInner T) a : check_address i a = Ok NotFound ->
  find_route i a = None.
Proof.
  intros [[Ha Hf]|(Ha & _ & Hf)]%check_address_found.
  - unfold find_route. rewrite Ha. unfold get_exact in Hf. by destruct (rx_get _ _).
  - rewrite <-get_wildcard_duplicate by done. unfold get_wildcard in Hf.
    by destruct (if ends_with star2 a then _ else _).
Qed.

Lemma find_route_check (i : RegistryInner T) a t :
  inner_wf i -> find_route i a = Some t -> check_address i a = Ok (Duplicate t).
Proof.
  intros Hwf Hf. pose proof (find_route_some i a t Hf) as Hr. unfold check_address.
  destruct (is_wildcard a) eqn:Ha.
  - assert (valid_pattern a) as Hv.
    { destruct Hr as [[Hr|Hr]|Hr].
      - by rewrite (wf_exact _ Hwf a) in Ha by eauto.
      - by apply (wf_single _ Hwf) in Hr as (_ & ? & _).
      - by apply prefix_is_wildcard in Hr as (_ & ? & _). }
    apply validate_pattern_spec in Hv. rewrite Hv. f_equal.
    rewrite <-get_wildcard_duplicate in Hf by done. unfold get_wildcard. by rewrite Hf.
  - f_equal. unfold find_route in Hf. rewrite Ha in Hf. unfold get_exact. by rewrite Hf.
Qed.

Lemma find_route_insert (i : RegistryInner T) a t :
  find_route i a = None -> find_route (insert_route i a t) a = Some t.
Proof.
  destruct (insert_routes i a t) as (Ex & Ep & Es). unfold find_route.
  rewrite !rx_get_spec. unfold exact_routes, prefix_routes in Ex, Ep. rewrite Ex, Ep, Es.
  unfold is_prefix_pattern. destruct (is_wildcard a); simpl; [|by rewrite lookup_insert_eq].
  destruct (ends_with star2 a); simpl; [by rewrite lookup_insert_eq|].
  destruct (list_find _ (single_wildcards i)) as [e|] eqn:E; [done|]. intros _.
  rewrite (list_find_app_r _ _ _ E). simpl. by rewrite decide_True.
Qed.

Lemma check_address_of_register inner a t inner' :
  register_inner inner a t = Ok inner' ->
  check_address inner a = Ok NotFound /\ inner' = insert_route inner a t.
Proof. unfold register_inner. intros E. cases. Qed.

Lemma register_inner_free inner a t :
  check_address inner a = Ok NotFound ->
  register_inner inner a t = Ok (insert_route inner a t).
Proof. unfold register_inner. by intros ->. Qed.

(** The list without the first entry under [a] holds no entry under [a]. *)
Lemma remove_single_spec inner a p u :
  inner_wf inner ->
  (p, u) ∈ remove_single a (single_wildcards inner) <->
  p <> a /\ (p, u) ∈ single_wildcards inner.
Proof.
  intros Hwf. destruct (remove_single_delete a (single_wildcards inner)) as
    [[-> Hn]|(i & [q v] & Hf & ->)].
  - rewrite list.Forall_forall in Hn. split; [|tauto]. intros Hin. by split; [apply (Hn (p, u))|].
  - apply list_find_Some in Hf as (Hi & Hq & _). simpl in Hq. subst q.
    pose proof (wf_disjoint _ Hwf) as Hd. rewrite !list_elem_of_lookup. split.
    + intros [j Hj]. assert (exists k, k <> i /\
        single_wildcards inner !! k = Some (p, u)) as (k & Hk & Hl).
      { destruct (decide (j < i)%nat).
        - rewrite list_lookup_delete_lt in Hj by done. exists j. split; [lia|done].
        - rewrite list_lookup_delete_ge in Hj by lia. exists (S j). split; [lia|done]. }
      split; [|by exists k]. intros ->.
      apply (Hd _ _ _ _ Hl Hi Hk). apply overlap_refl.
      apply (wf_single _ Hwf a v). by apply list_elem_of_lookup_2 in Hi.
    + intros [Hp [j Hj]]. assert (j <> i) by (intros ->; congruence).
      destruct (decide (j < i)%nat).
      * exists j. by rewrite list_lookup_delete_lt.
      * exists (pred j). rewrite list_lookup_delete_ge by lia.
        by replace (S (pred j)) with j by lia.
Qed.

Lemma remove_route_plain inner a p u :
  inner_wf inner ->
  plain_route (remove_route inner a) p u <-> p <> a /\ plain_route inner p u.
Proof.
  intros Hwf. destruct (remove_routes inner a) as (Ex & Ep & Es).
  unfold plain_route. rewrite Ex, Es. destruct (is_wildcard a) eqn:Ha; simpl.
  - assert (exact_routes inner !! p = Some u -> p <> a).
    { intros Hp ->. pose proof (wf_exact _ Hwf a) as Hc. unfold concrete in Hc.
      rewrite Hc in Ha; eauto. done. }
    destruct (is_prefix_pattern a) eqn:Hp; simpl.
    + assert ((p, u) ∈ single_wildcards inner -> p <> a).
      { intros Hin ->. apply (wf_single _ Hwf) in Hin as (_ & _ & ?). congruence. }
      naive_solver.
    + rewrite remove_single_spec by done. naive_solver.
  - rewrite lookup_delete_Some. assert ((p, u) ∈ single_wildcards inner -> p <> a).
    { intros Hin ->. apply (wf_single _ Hwf) in Hin as (? & _). congruence. }
    naive_solver.
Qed.

Lemma remove_route_routes inner a p u :
  inner_wf inner -> route (remove_route inner a) p u <-> p <> a /\ route inner p u.
Proof.
  intros Hwf. unfold route. rewrite remove_route_plain by done.
  destruct (remove_routes inner a) as (_ & -> & _).
  assert (prefix_routes inner !! p = Some u -> is_wildcard a && is_prefix_pattern a = false ->
    p <> a).
  { intros Hp Ha ->. apply prefix_is_wildcard in Hp as (? & _ & ?); [|done]. 
    destruct (is_wildcard a), (is_prefix_pattern a); done. }
  destruct (is_wildcard a && is_prefix_pattern a); [rewrite lookup_delete_Some|]; naive_solver.
Qed.

(** Inserting a free address and removing it gives back the routes there were. *)
Lemma remove_insert_plain inner a t p u :
  inner_wf inner -> check_address inner a = Ok NotFound ->
  plain_route (remove_route (insert_route inner a t) a) p u <-> plain_route inner p u.
Proof.
  intros Hwf Hc. rewrite remove_route_plain by (by apply insert_wf). split.
  - intros [Hp Hr]. by apply insert_route_plain in Hr.
  - intros Hr. split; [|by apply insert_route_mono].
    intros ->. apply (check_address_fresh inner a Hwf Hc u). by left.
Qed.

Lemma remove_insert_routes inner a t :
  inner_wf inner -> check_address inner a = Ok NotFound ->
  forall p u, route (remove_route (insert_route inner a t) a) p u <-> route inner p u.
Proof.
  intros Hwf Hc p u. rewrite remove_route_routes by (by apply insert_wf).
  rewrite insert_route_routes by done. pose proof (check_address_fresh inner a Hwf Hc).
  naive_solver.
Qed.

Lemma remove_insert_lookup inner a t :
  inner_wf inner -> check_address inner a = Ok NotFound ->
  forall x, concrete x ->
  lookup_inner (remove_route (insert_route inner a t) a) x = lookup_inner inner x.
Proof.
  intros Hwf Hc x Hx. apply lookup_inner_ext; auto using remove_wf, insert_wf.
  intros u. by setoid_rewrite remove_insert_plain.
Qed.

Lemma insert_lookup_other inner a t x :
  inner_wf inner -> check_address inner a = Ok NotFound -> concrete x -> ~ covers a x ->
  lookup_inner (insert_route inner a t) x = lookup_inner inner x.
Proof.
  intros Hwf Hc Hx Hn. apply lookup_inner_ext; auto using insert_wf.
  intros u. split; intros (p & Hp & Hcp); exists p; (split; [|done]).
  - apply (insert_route_plain inner a t); [done|]. by intros ->.
  - by apply insert_route_mono.
Qed.

Lemma register_lookup inner a t x :
  inner_wf inner -> check_address inner a = Ok NotFound -> concrete x -> covers a x ->
  (is_wildcard a = true -> is_prefix_pattern a = false) ->
  lookup_inner (insert_route inner a t) x = Some t.
Proof.
  intros Hwf Hn Hx Hc Hk. apply lookup_inner_iff; auto using insert_wf. exists a. split; [|done].
  unfold plain_route. destruct (insert_routes inner a t) as (-> & _ & ->).
  destruct (is_wildcard a); [right|left; by rewrite lookup_insert_eq].
  rewrite Hk by done. simpl. set_solver.
Qed.

(** A successful registration followed by the removal of the same address gives back the
    routes there were, and no other address is looked up differently in between or after. *)
Theorem register_remove_roundtrip inner a t inner' (Hwf : inner_wf inner)
    (Hr : register_inner inner a t = Ok inner') :
  (forall p u, route (remove_route inner' a) p u <-> route inner p u) /\
  (forall x, concrete x -> lookup_inner (remove_route inner' a) x = lookup_inner inner x) /\
  (forall x, concrete x -> ~ covers a x -> lookup_inner inner' x = lookup_inner inner x).
Proof.
  apply check_address_of_register in Hr as [Hc ->].
  split_and!; intros; auto using remove_insert_routes, remove_insert_lookup, insert_lookup_other.
Qed.

(** C36: registering a [**] pattern changes the lookup of no address, the ones it matches
    included: the key of such a pattern holds a [*], so it is never a prefix of an address and
    [get_ancestor] does not return it. *)
Theorem prefix_pattern_not_routed inner p t inner' (Hwf : inner_wf inner)
    (Hp : is_prefix_pattern p = true) (Hr : register_inner inner p t = Ok inner')
    (Hw : is_wildcard p = true) :
  route inner' p t /\
  forall a, concrete a -> lookup_inner inner' a = lookup_inner inner a.
Proof.
  apply check_address_of_register in Hr as [Hc ->].
  split; [apply insert_route_routes; auto|]. intros a Ha.
  destruct (insert_routes inner p t) as (Ex & Ep & Es).
  apply lookup_inner_ext; auto using insert_wf. intros u. unfold plain_route. rewrite Ex, Es, Hw, Hp.
  simpl. by rewrite app_nil_r.
Qed.

(** After a registration, lookup of an address the new route covers returns it, when the
    route is an exact address or a single-segment pattern. *)
Theorem register_then_lookup inner a t inner' x (Hwf : inner_wf inner)
    (Hr : register_inner inner a t = Ok inner') (Hx : concrete x) (Hc : covers a x)
    (Hk : is_wildcard a = true -> is_prefix_pattern a = false) :
  lookup_inner inner' x = Some t /\ has_route_inner inner' x = true.
Proof.
  apply check_address_of_register in Hr as [Hn ->].
  pose proof (register_lookup inner a t x Hwf Hn Hx Hc Hk) as El.
  split; [done|]. unfold has_route_inner. by rewrite El.
Qed.
End Properties.

(** ** Examples: a registry over finite maps *)

Section Examples.
Definition tree := gmap bytes RouteTarget.
Definition empty_registry : RegistryInner tree := RegistryInner_new.
Definition registered (l : list (bytes * RouteTarget)) : RegistryInner tree :=
  foldl (fun inner e => match register_inner inner e.1 e.2 with
                        | Ok inner' => inner' | Err _ => inner end) empty_registry l.

Lemma registered_wf l : inner_wf (registered l).
Proof.
  unfold registered. assert (inner_wf empty_registry) as Hwf by apply new_wf. revert Hwf.
  generalize empty_registry. induction l as [|[a t] l IH]; intros inner Hwf; [done|].
  simpl. destruct (register_inner inner a t) as [i|e] eqn:E; apply IH; [|done].
  apply check_address_of_register in E as [Hc ->]. by apply insert_wf.
Qed.

Definition users : bytes := bs "arcella:core:users".
Definition core : bytes := bs "arcella:core:*".
Definition web : bytes := bs "arcella:web:**".
Definition web_page : bytes := bs "arcella:web:page".

Definition sample : RegistryInner tree :=
  registered [(core, Single 1); (web, Single 2); (bs "arcella:log", Single 3)].

Lemma sample_wf : inner_wf sample.
Proof. apply registered_wf. Qed.

Lemma register_inner_spec_witness :
  register_inner sample users (Single 4) = Err (ConflictsWithWildcard users core) /\
  exists p u, route sample p u /\ clash users p /\ core = from_utf8_lossy p.
Proof.
  assert (register_inner sample users (Single 4) = Err (ConflictsWithWildcard users core)) as E
    by (vm_compute; reflexivity).
  split; [exact E|]. pose proof (register_inner_spec sample users (Single 4) sample_wf) as Hs.
  rewrite E in Hs. apply Hs.
Defined.

Lemma lookup_unique_witness :
  lookup_inner sample users = Some (Single 1) /\
  exists p, plain_route sample p (Single 1) /\ covers p users.
Proof.
  assert (lookup_inner sample users = Some (Single 1)) as E by (vm_compute; reflexivity).
  split; [exact E|]. apply (lookup_unique sample users (Single 1) sample_wf); [reflexivity|exact E].
Defined.

Lemma register_exact_iff_witness :
  is_ok (register_inner sample web_page (Single 4)) = true /\ matches web web_page /\
  forall p u, plain_route sample p u -> ~ covers p web_page.
Proof.
  assert (is_ok (register_inner sample web_page (Single 4)) = true) as E
    by (vm_compute; reflexivity).
  split_and!; [exact E| |].
  - apply compare_bytes_match; [apply validate_pattern_spec|..]; vm_compute; reflexivity.
  - apply (register_exact_iff sample web_page (Single 4) sample_wf); [reflexivity|exact E].
Defined.

Definition single_c : bytes := bs "a:*:c".

Lemma sample_register_c :
  register_inner sample single_c (Single 4) = Ok (insert_route sample single_c (Single 4)).
Proof. apply register_inner_free. vm_compute. reflexivity. Qed.

Lemma register_remove_roundtrip_witness :
  is_ok (register_inner sample single_c (Single 4)) = true /\
  forall p u, route (remove_route (insert_route sample single_c (Single 4)) single_c) p u <->
              route sample p u.
Proof.
  split; [by rewrite sample_register_c|].
  apply (register_remove_roundtrip sample single_c (Single 4) _ sample_wf sample_register_c).
Defined.

Lemma prefix_pattern_not_routed_witness :
  lookup_inner (insert_route empty_registry web (Single 2)) web_page = None /\
  matches web web_page.
Proof.
  assert (register_inner empty_registry web (Single 2) =
    Ok (insert_route empty_registry web (Single 2))) as E
    by (apply register_inner_free; vm_compute; reflexivity).
  split.
  - rewrite (proj2 (prefix_pattern_not_routed empty_registry web (Single 2) _ new_wf
      eq_refl E eq_refl) web_page eq_refl). vm_compute; reflexivity.
  - apply compare_bytes_match; [apply validate_pattern_spec|..]; vm_compute; reflexivity.
Defined.

Lemma register_then_lookup_witness :
  lookup_inner (insert_route sample single_c (Single 4)) (bs "a:b:c") = Some (Single 4).
Proof.
  apply (register_then_lookup sample single_c (Single 4) _ (bs "a:b:c") sample_wf
    sample_register_c); [reflexivity| |reflexivity].
  apply compare_bytes_match; [apply validate_pattern_spec|..]; vm_compute; reflexivity.
Defined.

(** Whether two overlapping [**] patterns can both be registered depends on the order: the
    narrower one is accepted after the wider one [a:*:**], and refused before it. *)
Theorem exclusivity_depends_on_order :
  let wide := bs "a:*:**" in let narrow := bs "a:b:**" in
  overlap wide narrow /\
  (exists i1, register_inner empty_registry wide (Single 1) = Ok i1 /\
     is_ok (register_inner i1 narrow (Single 2)) = true) /\
  (exists i1, register_inner empty_registry narrow (Single 2) = Ok i1 /\
     register_inner i1 wide (Single 1) = Err (WildcardConflict wide narrow)).
Proof.
  split_and!.
  - apply compare_bytes_overlap; [apply validate_pattern_spec..|]; vm_compute; reflexivity.
  - eexists. split; [apply register_inner_free|]; vm_compute; reflexivity.
  - eexists. split; [apply register_inner_free|]; vm_compute; reflexivity.
Qed.
End Examples.
