(* ===== verification/Async.v ===== *)
(** * Async: computations that read and change a shared state in atomic steps

    An asynchronous or multi-threaded function of the source is a value of [proc S A]: it returns,
    panics, or makes one atomic step on the shared state [S] and goes on. A step that is not
    enabled ([None]) is a lock that is taken or an [.await] that is pending. [run] executes a
    computation alone; [pool_step] interleaves several. A computation may be dropped where it
    awaits ([abandon]): a step at an [.await] tells what that does. *)

From S2P Require Import Prelude.

(** ** Definitions *)

Inductive proc (S A : Type) : Type :=
| Ret (a : A)
| Panic
| Act (dropped : option (S -> S)) (f : S -> option (S * proc S A)).
Arguments Ret {S A} a.
Arguments Panic {S A}.
Arguments Act {S A} dropped f.

(** The result of running a computation alone. *)
Inductive outcome (S A : Type) : Type :=
| Done (s : S) (a : A)
| Panicked (s : S)
| Blocked (s : S) (p : proc S A).
Arguments Done {S A} s a.
Arguments Panicked {S A} s.
Arguments Blocked {S A} s p.

Section Proc.
Context {S : Type}.

Fixpoint bind {A B} (p : proc S A) (k : A -> proc S B) : proc S B :=
  match p with
  | Ret a => k a
  | Panic => Panic
  | Act d f => Act d (fun s => match f s with
                               | Some (s', p') => Some (s', bind p' k)
                               | None => None
                               end)
  end.

(** One atomic step: always enabled, or waiting at an [.await] until it is, or blocking the
    thread until it is, or panicking when it is not. *)
Definition act {A} (f : S -> S * A) : proc S A :=
  Act None (fun s => let '(s', a) := f s in Some (s', Ret a)).

Definition await {A} (f : S -> option (S * A)) : proc S A :=
  Act (Some id) (fun s => match f s with Some (s', a) => Some (s', Ret a) | None => None end).

Definition block {A} (f : S -> option (S * A)) : proc S A :=
  Act None (fun s => match f s with Some (s', a) => Some (s', Ret a) | None => None end).

Definition act_or_panic {A} (f : S -> option (S * A)) : proc S A :=
  Act None
    (fun s => match f s with Some (s', a) => Some (s', Ret a) | None => Some (s, Panic) end).

Definition read {A} (f : S -> A) : proc S A := act (fun s => (s, f s)).
Definition write (f : S -> S) : proc S unit := act (fun s => (f s, tt)).

(** A guard whose drop runs when its scope is left, normally or because the computation is
    dropped ([false]), or by a panic ([true]). *)
Fixpoint guarded {A} (drop : bool -> S -> S) (p : proc S A) : proc S A :=
  match p with
  | Ret a => Act None (fun s => Some (drop false s, Ret a))
  | Panic => Act None (fun s => Some (drop true s, Panic))
  | Act d f => Act ((fun g s => drop false (g s)) <$> d)
                   (fun s => match f s with
                             | Some (s', p') => Some (s', guarded drop p')
                             | None => None
                             end)
  end.

(** A value that [p] uses up when it ends, and that is dropped with [p]. *)
Fixpoint owning {A} (drop : S -> S) (p : proc S A) : proc S A :=
  match p with
  | Act d f => Act ((fun g s => drop (g s)) <$> d)
                   (fun s => match f s with
                             | Some (s', p') => Some (s', owning drop p')
                             | None => None
                             end)
  | _ => p
  end.

(** [p] beside another future: at an [.await] it is dropped, with result [None], when [stop]
    holds of the state and of whether [p] could go on. ([stop] may be more eager than a runtime,
    which polls on through an [.await] that is ready.) *)
Fixpoint abandon {A} (stop : S -> bool -> bool) (p : proc S A) : proc S (option A) :=
  match p with
  | Ret a => Ret (Some a)
  | Panic => Panic
  | Act d f =>
      Act d (fun s =>
        match d with
        | Some g =>
            if stop s (if f s then true else false) then Some (g s, Ret None)
            else match f s with Some (s', p') => Some (s', abandon stop p') | None => None end
        | None => match f s with Some (s', p') => Some (s', abandon stop p') | None => None end
        end)
  end.

(** A caller that drops a future as soon as it would have to wait for it. *)
Definition impatient (_ : S) (ready : bool) : bool := negb ready.

Fixpoint run {A} (p : proc S A) (s : S) : outcome S A :=
  match p with
  | Ret a => Done s a
  | Panic => Panicked s
  | Act _ f => match f s with
               | Some (s', p') => run p' s'
               | None => Blocked s p
               end
  end.

(** One step of one computation of a pool, the others staying as they are. *)
Inductive pool_step {A} : S * list (proc S A) -> S * list (proc S A) -> Prop :=
| pool_act s ps i d f s' p' :
    ps !! i = Some (Act d f) -> f s = Some (s', p') -> pool_step (s, ps) (s', <[i := p']> ps).
End Proc.

Notation "'let!' x ':=' p 'in' k" := (bind p (fun x => k))
  (at level 200, x binder, p at level 100, k at level 200, right associativity) : broker_scope.

(** [let x = p.await?; k] *)
Notation "'let!?' x ':=' p 'in' k" :=
  (bind p (fun r => match r with Ok x => k | Err e => Ret (Err e) end))
  (at level 200, x binder, p at level 100, k at level 200, right associativity) : broker_scope.

(** ** Running alone *)

Section Run.
Context {S : Type}.

Lemma proc_ind' {A} (P : proc S A -> Prop) :
  (forall a, P (Ret a)) -> P Panic ->
  (forall d f, (forall s s' p, f s = Some (s', p) -> P p) -> P (Act d f)) ->
  forall p, P p.
Proof.
  intros HR HP HA. fix IH 1. intros [a| |d f]; [apply HR|apply HP|].
  apply HA. intros s s' p E. destruct (f s) as [[s1 p1]|]; [|discriminate E].
  assert (p1 = p) as <- by congruence. apply IH.
Qed.

Lemma run_bind {A B} (p : proc S A) (k : A -> proc S B) s :
  run (bind p k) s =
    match run p s with
    | Done s' a => run (k a) s'
    | Panicked s' => Panicked s'
    | Blocked s' p' => Blocked s' (bind p' k)
    end.
Proof.
  revert s. induction p as [a| |d0 f IH] using proc_ind'; intros s; [done..|]. cbn [bind run].
  destruct (f s) as [[s' p']|] eqn:E; [|done]. by apply (IH s s' p').
Qed.

Lemma run_guarded {A} (d : bool -> S -> S) (p : proc S A) s :
  run (guarded d p) s =
    match run p s with
    | Done s' a => Done (d false s') a
    | Panicked s' => Panicked (d true s')
    | Blocked s' p' => Blocked s' (guarded d p')
    end.
Proof.
  revert s. induction p as [a| |d0 f IH] using proc_ind'; intros s; [done..|]. cbn [guarded run].
  destruct (f s) as [[s' p']|] eqn:E; [|done]. by apply (IH s s' p').
Qed.

Lemma run_act {A} (f : S -> S * A) s : run (act f) s = Done (f s).1 (f s).2.
Proof. unfold act. simpl. by destruct (f s). Qed.

Lemma run_owning {A} (d : S -> S) (p : proc S A) s :
  run (owning d p) s =
    match run p s with
    | Done s' a => Done s' a
    | Panicked s' => Panicked s'
    | Blocked s' p' => Blocked s' (owning d p')
    end.
Proof.
  revert s. induction p as [a| |d0 f IH] using proc_ind'; intros s; [done..|]. cbn [owning run].
  destruct (f s) as [[s' p']|] eqn:E; [|done]. by apply (IH s s' p').
Qed.

Lemma run_impatient {A} (p : proc S A) s :
  run (abandon impatient p) s =
    match run p s with
    | Done s' a => Done s' (Some a)
    | Panicked s' => Panicked s'
    | Blocked s' (Act (Some g) _) => Done (g s') None
    | Blocked s' p' => Blocked s' (abandon impatient p')
    end.
Proof.
  revert s. induction p as [a| |d f IH] using proc_ind'; intros s; [done..|]. cbn [abandon run].
  destruct d as [g|], (f s) as [[s' p']|] eqn:E; cbn [impatient negb]; try done;
    by apply (IH s s' p').
Qed.

Lemma run_await {A} (f : S -> option (S * A)) s s' a :
  f s = Some (s', a) -> run (await f) s = Done s' a.
Proof. intros E. unfold await. simpl. by rewrite E. Qed.
End Run.

(** ** Conditions at the end, in every interleaving *)

(** The values a computation may return, in any interleaving. *)
Inductive may_return {S A} : proc S A -> A -> Prop :=
| may_return_ret a : may_return (Ret a) a
| may_return_act d f s s' p a : f s = Some (s', p) -> may_return p a -> may_return (Act d f) a.

Lemma may_return_ret_inv {S A} (a b : A) : may_return (S := S) (Ret a) b -> a = b.
Proof. by inversion 1. Qed.

Lemma may_return_bind {S A B} (p : proc S A) (k : A -> proc S B) b :
  may_return (bind p k) b -> exists a, may_return p a /\ may_return (k a) b.
Proof.
  induction p as [a| |d0 f IH] using proc_ind'; intros Hb.
  - exists a. split; [constructor|done].
  - inversion Hb.
  - cbn [bind] in Hb. inversion Hb as [|? ? s s' p b' E Hb']; subst.
    destruct (f s) as [[s1 p1]|] eqn:Ef; [|done]. injection E as <- <-.
    destruct (IH _ _ _ Ef Hb') as (a & Ha & Hk). exists a. split; [by econstructor|done].
Qed.

(** The value a computation has ended with: [Some None] by a panic, [None] not yet. *)
Definition ended {S A} (p : proc S A) : option (option A) :=
  match p with Ret a => Some (Some a) | Panic => Some None | Act _ _ => None end.

(** Whatever happens between its steps, the step that ends the computation makes [Post] true. *)
Fixpoint ends_in {S A} (Post : option A -> S -> Prop) (p : proc S A) : Prop :=
  match p with
  | Act _ f => forall s, match f s with
                         | Some (s', p') =>
                             (forall r, ended p' = Some r -> Post r s') /\ ends_in Post p'
                         | None => True
                         end
  | _ => True
  end.

(** Wherever it is dropped, [Post] holds then. *)
Fixpoint drops_in {S A} (Post : S -> Prop) (p : proc S A) : Prop :=
  match p with
  | Act d f => (forall g s, d = Some g -> Post (g s)) /\
               forall s, match f s with Some (_, p') => drops_in Post p' | None => True end
  | _ => True
  end.

Lemma ended_guarded {S A} (d : bool -> S -> S) (p : proc S A) : ended (guarded d p) = None.
Proof. by destruct p. Qed.

Lemma ends_in_guarded {S A} (Post : option A -> S -> Prop) d (p : proc S A) :
  (forall r b s, Post r (d b s)) -> ends_in Post (guarded d p).
Proof.
  intros HP. induction p as [a| |d0 f IH] using proc_ind'; cbn [guarded ends_in].
  - intros s. by split.
  - intros s. by split.
  - intros s. destruct (f s) as [[s' p']|] eqn:E; [|done]. rewrite ended_guarded.
    split; [done|]. by eapply IH.
Qed.

Lemma drops_in_guarded {S A} (Post : S -> Prop) (d : bool -> S -> S) (p : proc S A) :
  (forall s, Post (d false s)) -> drops_in Post (guarded d p).
Proof.
  intros HP. induction p as [a| |d0 f IH] using proc_ind'; cbn [guarded drops_in]; [done..|].
  split; [by destruct d0; intros g x [= <-]|]. intros s.
  destruct (f s) as [[s' p']|] eqn:E; [|done]. by eapply IH.
Qed.

Lemma drops_in_mono {S A} (P Q : S -> Prop) (p : proc S A) :
  (forall s, P s -> Q s) -> drops_in P p -> drops_in Q p.
Proof.
  intros HPQ. induction p as [a| |d f IH] using proc_ind'; intros Hp; [done..|].
  cbn [drops_in] in *. destruct Hp as [Hd Hp]. split; [by intros g s E; apply HPQ, Hd|].
  intros s. specialize (Hp s). destruct (f s) as [[s' p']|] eqn:E; [|done]. by eapply IH.
Qed.

Lemma ended_abandon {S A} stop (p : proc S A) :
  ended (abandon stop p) = option_map (option_map Some) (ended p).
Proof. by destruct p. Qed.

(** A computation that may be dropped ends as it does alone, or where it is dropped. *)
Lemma ends_in_abandon {S A} (Post : option A -> S -> Prop) (Post' : option (option A) -> S -> Prop)
    stop (p : proc S A) :
  ends_in Post p -> drops_in (Post' (Some None)) p ->
  (forall r s, Post r s -> Post' (option_map Some r) s) -> ends_in Post' (abandon stop p).
Proof.
  intros Hp Hd HP. induction p as [a| |d f IH] using proc_ind'; [done..|].
  cbn [abandon ends_in drops_in] in *. destruct Hd as [Hg Hd]. intros s.
  specialize (Hp s). specialize (Hd s).
  assert (match match f s with Some (s', p') => Some (s', abandon stop p') | None => None end with
    | Some (s', p') => (forall r, ended p' = Some r -> Post' r s') /\ ends_in Post' p'
    | None => True
    end) as Hgo.
  { destruct (f s) as [[s' p']|] eqn:E; [|done]. destruct Hp as [He Hp].
    split; [|by eapply IH]. intros r Hr. rewrite ended_abandon in Hr.
    destruct (ended p') as [r'|]; [|done]. injection Hr as <-. by apply HP, He. }
  destruct d as [g|]; [|done]. destruct (stop _ _); [|done].
  split; [|done]. intros r [= <-]. by apply Hg.
Qed.

(** ** Runs as interleavings *)

(** A computation of a pool may run to its end before the others go on. *)
Lemma run_pool {S A} (ps : list (proc S A)) i p s s' a :
  ps !! i = Some p -> run p s = Done s' a -> rtc pool_step (s, ps) (s', <[i := Ret a]> ps).
Proof.
  revert ps s. induction p as [b| |d0 f IH] using proc_ind'; intros ps s Hi Hr; simpl in Hr.
  - simplify_eq. by rewrite list_insert_id.
  - done.
  - destruct (f s) as [[s1 p1]|] eqn:E; [|done].
    eapply rtc_l; [by eapply pool_act|].
    rewrite <-(list_insert_insert_eq ps i (Ret a) p1). eapply (IH s s1 p1 E); [|done].
    rewrite list_lookup_insert_eq; [done|]. by eapply lookup_lt_Some.
Qed.

Definition finished {S A} (ok : A -> bool) (o : outcome S A) : bool :=
  match o with Done _ a => ok a | _ => false end.

Lemma finished_inv {S A} (ok : A -> bool) (o : outcome S A) :
  finished ok o = true -> exists s a, o = Done s a /\ ok a = true.
Proof. destruct o; simpl; try done. eauto. Qed.

(** The state and the value of a finished run. *)
Definition final_state {S A} (o : outcome S A) : S :=
  match o with Done s _ => s | Panicked s => s | Blocked s _ => s end.

Lemma finished_run {S A} (ok : A -> bool) (p : proc S A) s :
  finished ok (run p s) = true ->
  exists a, run p s = Done (final_state (run p s)) a /\ ok a = true.
Proof. intros (s' & a & -> & Ha)%finished_inv. by exists a. Qed.
