(* ===== verification/Mutex.v ===== *)
(** * Mutex: simulation of computations that share state behind a mutex

    [locked] is the mutex and [view] the state it protects. A specification runs in parallel with
    each computation: its state is a ghost [g], and [gstep] its atomic steps on the view.
    [sim] is a rely-guarantee condition: a computation changes the view only while it holds the
    mutex and only by steps of its specification, never waits while it holds the mutex, and ends
    with what its specification ends with, assuming that the others behave as well. Computations
    that meet it simulate their specifications in every interleaving ([pool_simulates]). *)

From S2P Require Import Prelude.
From S2P Require Import Async.

(** ** Definitions *)

Section Mutex.
Context {S V G : Type} (locked : S -> bool) (view : S -> V).
Context (gstep : V -> G -> V -> G -> Prop).
Implicit Types (s : S) (g : G) (h : bool).

(** What any specification may do to the view. *)
Definition env (v v' : V) : Prop := exists g g', gstep v g v' g'.

(** What the others may do while this one holds the mutex, and while it does not. *)
Definition rely h s s' : Prop :=
  if h then locked s' = locked s /\ view s' = view s else rtc env (view s) (view s').

(** Taking, keeping and releasing the mutex; [h] and [h'] tell whether this one holds it before
    and after the step. *)
Definition mutex_step h s h' s' : Prop :=
  match h, h' with
  | false, true => locked s = false /\ locked s' = true
  | true, false => locked s' = false
  | _, _ => locked s' = locked s
  end.

(** What this one may do in one step: nothing to the view, or a step of its specification, which
    changes the view only under the mutex. *)
Definition guar h s g h' s' g' : Prop :=
  mutex_step h s h' s' /\
  (view s' = view s /\ g' = g \/
   (h && h' = true \/ view s' = view s) /\ gstep (view s) g (view s') g').

(** [hq] tells whether it holds the mutex at its end, [Q] relates its result to the ghost and the
    view of that moment. *)
Fixpoint sim {A} (Q : A -> G -> V -> Prop) (hq h : bool) (p : proc S A) (g : G) (s : S) : Prop :=
  match p with
  | Ret a => h = hq /\ Q a g (view s)
  | Panic => h = hq
  | Act _ f => forall s1, rely h s s1 ->
      match f s1 with
      | Some (s2, p') => exists h' g', guar h s1 g h' s2 g' /\ sim Q hq h' p' g' s2
      | None => h = false
      end
  end.

(** A computation none of whose steps touches the mutex or the view, nor does dropping it, and
    which waits only if it [may_wait]. *)
Fixpoint quiet_proc {A} (may_wait : bool) (p : proc S A) : Prop :=
  match p with
  | Act d f =>
      (forall dr s, d = Some dr -> locked (dr s) = locked s /\ view (dr s) = view s) /\
      forall s, match f s with
                | Some (s', p') => (locked s' = locked s /\ view s' = view s) /\
                                   quiet_proc may_wait p'
                | None => may_wait = true
                end
  | _ => True
  end.

(** ** One computation *)

Lemma rely_refl h s : rely h s s.
Proof. by destruct h; simpl. Qed.

Lemma rely_trans h s1 s2 s3 : rely h s1 s2 -> rely h s2 s3 -> rely h s1 s3.
Proof.
  destruct h; simpl; [intros [-> ->] [-> ->]; auto|]. intros. by etrans.
Qed.

Lemma rely_quiet h s s' : locked s' = locked s -> view s' = view s -> rely h s s'.
Proof. intros Hl Hv. destruct h; simpl; [done|by rewrite Hv]. Qed.

Lemma guar_quiet h s g s' : locked s' = locked s -> view s' = view s -> guar h s g h s' g.
Proof. intros Hl Hv. split; [by destruct h|by left]. Qed.

Lemma sim_rely {A} (Q : A -> G -> V -> Prop) hq h p g s s' :
  (hq = false -> forall a g v v', Q a g v -> Q a g v') ->
  rely h s s' -> sim Q hq h p g s -> sim Q hq h p g s'.
Proof.
  intros HQ Hr. destruct p as [a| |d0 f]; [|done|].
  - intros [-> Ha]. split; [done|]. destruct hq; [|by eapply HQ]. by destruct Hr as [_ ->].
  - intros Hs s1 H1. apply Hs. by eapply rely_trans.
Qed.

Lemma sim_act {A} (Q : A -> G -> V -> Prop) hq h d f p g s s' :
  sim Q hq h (Act d f) g s -> f s = Some (s', p) ->
  exists h' g', guar h s g h' s' g' /\ sim Q hq h' p g' s'.
Proof. intros Hs Hf. specialize (Hs s (rely_refl h s)). by rewrite Hf in Hs. Qed.

Lemma sim_bind {A B} (Q : A -> G -> V -> Prop) (Q' : B -> G -> V -> Prop) hq h p k g s :
  sim Q hq h p g s -> (forall a g s, Q a g (view s) -> sim Q' hq hq (k a) g s) ->
  sim Q' hq h (bind p k) g s.
Proof.
  intros Hs Hk. revert h g s Hs. induction p as [a| |d0 f IH] using proc_ind'; intros h g s Hs.
  - destruct Hs as [-> HQ]. by apply Hk.
  - exact Hs.
  - cbn [bind sim] in *. intros s1 H1. specialize (Hs s1 H1).
    destruct (f s1) as [[s2 p']|] eqn:E; [|done]. destruct Hs as (h' & g' & ? & Hs).
    exists h', g'. split; [done|]. by eapply IH.
Qed.

Lemma quiet_bind {A B} b (p : proc S A) (k : A -> proc S B) :
  quiet_proc b p -> (forall a, quiet_proc b (k a)) -> quiet_proc b (bind p k).
Proof.
  intros Hp Hk. revert Hp. induction p as [a| |d0 f IH] using proc_ind'; intros Hp; [apply Hk|done|].
  cbn [bind quiet_proc] in *. destruct Hp as [Hd Hp]. split; [exact Hd|]. intros s.
  specialize (Hp s).
  destruct (f s) as [[s' p']|] eqn:E; [|done]. destruct Hp as [? Hp]. split; [done|].
  by eapply IH.
Qed.

Lemma quiet_abandon {A} b stop (p : proc S A) : quiet_proc b p -> quiet_proc b (abandon stop p).
Proof.
  intros Hp. induction p as [a| |d f IH] using proc_ind'; [done..|].
  cbn [abandon quiet_proc] in *. destruct Hp as [Hd Hp]. split; [exact Hd|]. intros s.
  specialize (Hp s).
  assert (match match f s with Some (s', p') => Some (s', abandon stop p') | None => None end with
    | Some (s', p') => (locked s' = locked s /\ view s' = view s) /\ quiet_proc b p'
    | None => b = true
    end) as Hgo.
  { destruct (f s) as [[s' p']|] eqn:E; [|done]. destruct Hp as [? Hp]. split; [done|].
    by eapply IH. }
  destruct d as [g|]; [|done]. destruct (stop _ _); [|done]. split; [|done]. by apply Hd.
Qed.

Lemma quiet_owning {A} b (d : S -> S) (p : proc S A) :
  (forall s, locked (d s) = locked s /\ view (d s) = view s) ->
  quiet_proc b p -> quiet_proc b (owning d p).
Proof.
  intros Hd Hp. induction p as [a| |d0 f IH] using proc_ind'; [done..|].
  cbn [owning quiet_proc] in *. destruct Hp as [Hd0 Hp]. split.
  - destruct d0 as [g|]; intros g' s [= <-]. destruct (Hd (g s)) as [-> ->]. by apply Hd0.
  - intros s. specialize (Hp s). destruct (f s) as [[s' p']|] eqn:E; [|done].
    destruct Hp as [? Hp]. split; [done|]. by eapply IH.
Qed.

(** Quiet steps, then anything: the specification waits, and under the mutex the view stays. *)
Lemma sim_quiet_bind {A B} (Q : B -> G -> V -> Prop) h (p : proc S A) k g s :
  quiet_proc (negb h) p ->
  (forall a s', rely h s s' -> may_return p a -> sim Q h h (k a) g s') ->
  sim Q h h (bind p k) g s.
Proof.
  revert s. induction p as [a| |d0 f IH] using proc_ind'; intros s Hq Hk.
  - apply Hk; [apply rely_refl|constructor].
  - done.
  - cbn [bind sim quiet_proc] in *. destruct Hq as [_ Hq]. intros s1 H1. specialize (Hq s1).
    destruct (f s1) as [[s2 p']|] eqn:E; [|by destruct h]. destruct Hq as [[Hl Hv] Hq].
    exists h, g. split; [by apply guar_quiet|]. apply (IH s1 s2 p' E); [done|].
    intros a s' H' Ha. apply Hk; [|by econstructor]. eapply rely_trans; [exact H1|].
    eapply rely_trans; [by apply rely_quiet|exact H'].
Qed.

Lemma sim_quiet {A} (Q : A -> G -> V -> Prop) h (p : proc S A) g s :
  quiet_proc (negb h) p -> (forall a v, Q a g v) -> sim Q h h p g s.
Proof.
  intros Hq HQ. revert s. induction p as [a| |d0 f IH] using proc_ind'; intros s; [by split|done|].
  cbn [sim quiet_proc] in *. destruct Hq as [_ Hq]. intros s1 _. specialize (Hq s1).
  destruct (f s1) as [[s2 p']|] eqn:E; [|by destruct h]. destruct Hq as [[Hl Hv] Hq].
  exists h, g. split; [by apply guar_quiet|]. by eapply IH.
Qed.

(** A guard whose drop releases the mutex; the specification may take a last step with it. *)
Lemma sim_release {A} (Q Q' : A -> G -> V -> Prop) d (p : proc S A) h g s :
  (forall b s, locked (d b s) = false /\ view (d b s) = view s) ->
  (forall a g v, Q a g v -> exists g', (g' = g \/ gstep v g v g') /\ Q' a g' v) ->
  sim Q true h p g s -> sim Q' false h (guarded d p) g s.
Proof.
  intros Hd HQ'. revert h g s. induction p as [a| |d0 f IH] using proc_ind'; intros h g s Hs.
  - destruct Hs as [-> HQ]. intros s1 [_ Hv]. destruct (Hd false s1) as [Hl Hv'].
    rewrite <-Hv in HQ. destruct (HQ' _ _ _ HQ) as (g' & Hg & Hq). exists false, g'.
    split; [|split; [done|by rewrite Hv']]. split; [done|]. rewrite Hv'. destruct Hg as [->|Hg]; auto.
  - cbn in Hs. subst h. intros s1 _. exists false, g. destruct (Hd true s1).
    split; [split; [done|by left]|done].
  - cbn [guarded sim] in *. intros s1 H1. specialize (Hs s1 H1).
    destruct (f s1) as [[s2 p']|] eqn:E; [|done]. destruct Hs as (h' & g' & ? & Hs).
    exists h', g'. split; [done|]. by eapply IH.
Qed.

(** ** Who holds the mutex *)

Section Owner.
Context {X : Type} `{EqDecision X}.
Implicit Types (own : option X) (x y : X).

Definition holds own x : bool := bool_decide (own = Some x).

Definition is_held own : bool := match own with Some _ => true | None => false end.

(** A step of one computation, as the others see it. *)
Lemma owner_step own x h' s g s' g' :
  locked s = is_held own -> guar (holds own x) s g h' s' g' ->
  exists own', (own' = own \/ own' = Some x \/ own' = None) /\
    locked s' = is_held own' /\ holds own' x = h' /\
    (forall y, y <> x -> holds own' y = holds own y /\ rely (holds own y) s s').
Proof.
  intros Hl [Hm Hv]. unfold holds in *.
  assert (forall y, y <> x -> own <> Some y -> rely (bool_decide (own = Some y)) s s') as Hfree.
  { intros y Hy Ho. rewrite bool_decide_false by done. simpl.
    destruct Hv as [[-> _]|[_ Hg]]; [done|]. apply rtc_once. by eexists _, _. }
  destruct (bool_decide_reflect (own = Some x)) as [->|Hne]; destruct h'; simpl in Hm.
  - exists (Some x). rewrite Hm. split_and!; auto; [by rewrite bool_decide_true|].
    intros y Hy. split; [done|]. apply Hfree; congruence.
  - exists None. split_and!; auto. intros y Hy.
    split; [by rewrite !bool_decide_false by congruence|]. apply Hfree; congruence.
  - destruct Hm as [Hf Hl']. assert (own = None) as -> by (destruct own; simpl in *; congruence).
    exists (Some x). split_and!; auto; [by rewrite bool_decide_true|]. intros y Hy.
    split; [by rewrite !bool_decide_false by congruence|]. by apply Hfree.
  - exists own. rewrite Hm. split_and!; auto; [by rewrite bool_decide_false|].
    intros y Hy. split; [done|]. destruct (decide (own = Some y)) as [->|]; [|by apply Hfree].
    rewrite bool_decide_true by done. split; [done|].
    destruct Hv as [[? _]|[[?|?] _]]; done.
Qed.
End Owner.

(** ** Interleavings *)

(** One step of one of several specifications. *)
Inductive ghost_step : V * list G -> V * list G -> Prop :=
| ghost_step_at v gs i g v' g' :
    gs !! i = Some g -> gstep v g v' g' -> ghost_step (v, gs) (v', <[i := g']> gs).

Lemma ghost_length d d' : rtc ghost_step d d' -> length d'.2 = length d.2.
Proof.
  induction 1 as [|d1 d2 d3 H12 _ IH]; [done|]. rewrite IH. destruct H12. apply length_insert.
Qed.

Section Pool.
Context {A : Type} (R : A -> G -> Prop).

Local Abbreviation Q := (fun a g (_ : V) => R a g).

(** Every computation of the pool simulates its specification; [own] holds the mutex. *)
Record pool_sim (own : option nat) (c : S * list (proc S A)) (d : V * list G) : Prop := {
  pool_view : d.1 = view c.1;
  pool_each i p g :
    c.2 !! i = Some p -> d.2 !! i = Some g -> sim Q false (holds own i) p g c.1;
  pool_len : length c.2 = length d.2;
  pool_locked : locked c.1 = is_held own;
}.

Lemma pool_start s ps gs :
  locked s = false -> Forall2 (fun p g => sim Q false false p g s) ps gs ->
  pool_sim None (s, ps) (view s, gs).
Proof.
  intros Hl Hs. split; simpl; try done.
  - intros i p g Hp Hg. by eapply Forall2_lookup_lr in Hs.
  - by eapply Forall2_length.
Qed.

Lemma pool_sim_step own c d c' :
  pool_sim own c d -> pool_step c c' ->
  exists own' d', pool_sim own' c' d' /\ rtc ghost_step d d'.
Proof.
  intros Hc Hst. revert Hc. destruct Hst as [s ps i d0 f s' p Hi Hf], d as [v gs].
  intros [Hv Heach Hlen Hl]. simpl in *. subst v.
  destruct (lookup_lt_is_Some_2 gs i) as [g Hg]; [rewrite <-Hlen; by eapply lookup_lt_Some|].
  destruct (sim_act _ _ _ _ _ _ _ _ _ (Heach i _ g Hi Hg) Hf) as (h' & g' & Hgu & Hs).
  destruct (owner_step _ _ _ _ _ _ _ Hl Hgu) as (own' & _ & Hl' & Hh & Hy).
  exists own', (view s', <[i := g']> gs). split; [split; simpl|].
  - done.
  - intros j q r. rewrite !list_lookup_insert_Some.
    intros [(<- & <- & _)|[Hji Hj]] [(Hij & <- & _)|[? Hr]]; try done; [by rewrite Hh|].
    destruct (Hy j) as [-> Hrely]; [congruence|]. eapply sim_rely; [by auto|exact Hrely|]. eauto.
  - by rewrite !length_insert.
  - done.
  - destruct Hgu as [_ [[-> ->]|[_ Hstep]]]; [by rewrite list_insert_id|].
    apply rtc_once. by eapply ghost_step_at.
Qed.

(** In every interleaving the computations do what their specifications can do. *)
Lemma pool_simulates own c d c' :
  pool_sim own c d -> rtc pool_step c c' ->
  exists own' d', pool_sim own' c' d' /\ rtc ghost_step d d'.
Proof.
  intros Hs Hr. revert own d Hs. induction Hr as [c|c1 c2 c3 H12 _ IH]; intros own d Hs.
  { by exists own, d. }
  destruct (pool_sim_step own c1 d c2 Hs H12) as (own2 & d2 & Hs2 & Hd2).
  destruct (IH own2 d2 Hs2) as (own3 & d3 & Hs3 & Hd3).
  exists own3, d3. split; [done|by etrans].
Qed.
End Pool.
End Mutex.

(** A simulation seen through a map of ghosts. *)
Lemma sim_map {S V G G' A} (locked : S -> bool) (view : S -> V)
    (gstep : V -> G -> V -> G -> Prop) (gstep' : V -> G' -> V -> G' -> Prop) (f : G -> G')
    (Q : A -> G -> V -> Prop) (Q' : A -> G' -> V -> Prop) hq h p g s :
  (forall v g v' g', gstep v g v' g' -> gstep' v (f g) v' (f g')) ->
  (forall v v', env gstep' v v' -> env gstep v v') ->
  (forall a g v, Q a g v -> Q' a (f g) v) ->
  sim locked view gstep Q hq h p g s -> sim locked view gstep' Q' hq h p (f g) s.
Proof.
  intros Hstep Henv HQ. revert h g s.
  induction p as [a| |d0 k IH] using proc_ind'; intros h g s Hs; [|done|].
  - destruct Hs as [-> ?]. split; auto.
  - cbn [sim] in *. intros s1 H1.
    assert (rely locked view gstep h s s1) as H1'.
    { destruct h; [done|]. eapply rtc_subrel; [exact Henv|exact H1]. }
    specialize (Hs s1 H1'). destruct (k s1) as [[s2 p']|] eqn:E; [|done].
    destruct Hs as (h' & g' & [Hm Hv] & Hs). exists h', (f g').
    split; [|by eapply IH]. split; [done|].
    destruct Hv as [[? ->]|[? ?]]; [by left|right; auto].
Qed.
