(* ===== verification/Preserve.v ===== *)
(** * Preserve: computations that keep the shared state well formed

    [I k s]: the state [s] is well formed as far as [k] tells, where [k], ordered by [le], is what
    is known of the states so far. [knows Q p k]: from a state of which [k] is known on, whatever
    the others do in between as long as the state stays well formed for some greater knowledge,
    every step of [p] keeps it so too, dropping it included, and [p] ends with a value that
    satisfies [Q] for what is known then; [bad] says whether it may panic.

    [keeps] is the case where what is known is the state itself, well formed by [inv] and growing
    in the order [ext]. What was known of a state remains known when it is stable under [ext]. *)

From S2P Require Import Prelude.
From S2P Require Import Async.

(** What remains true as the knowledge grows. *)
Definition stable {K A} (le : K -> K -> Prop) (Q : A -> K -> Prop) : Prop :=
  forall a k k', le k k' -> Q a k -> Q a k'.

Definition any {K A} (a : A) (k : K) : Prop := True.

Lemma stable_any {K A} (le : K -> K -> Prop) : stable le (any (A := A)).
Proof. done. Qed.

(** What [p] ends with, if it is not dropped. *)
Definition if_done {K A} (Q : A -> K -> Prop) (r : option A) (k : K) : Prop :=
  match r with Some a => Q a k | None => True end.

#[export] Hint Extern 0 (any _ _) => exact I : core.

(** An order in which knowledge grows. *)
Class Knowledge (K : Type) := {
  le : relation K;
  le_preorder :: PreOrder le;
}.

Section Knows.
Context {K S : Type} `{!Knowledge K} (I : K -> S -> Prop) (bad : Prop).
Implicit Types (k : K) (s : S).

(** One step to a state that is well formed again. *)
Definition grows s s' : Prop := forall k, I k s -> exists k', le k k' /\ I k' s'.

#[global] Instance grows_preorder : PreOrder grows.
Proof.
  split; [by intros s k Hk; exists k|]. intros s1 s2 s3 H12 H23 k1 H1.
  destruct (H12 k1 H1) as (k2 & ? & H2), (H23 k2 H2) as (k3 & ? & H3). exists k3.
  split; [by etrans|done].
Qed.

Fixpoint knows {A} (Q : A -> K -> Prop) (p : proc S A) k : Prop :=
  match p with
  | Ret a => Q a k
  | Panic => bad
  | Act d f => forall k1 s1, le k k1 -> I k1 s1 ->
      (forall g, d = Some g -> exists k2, le k1 k2 /\ I k2 (g s1)) /\
      match f s1 with
      | Some (s2, p') => exists k2, le k1 k2 /\ I k2 s2 /\ knows Q p' k2
      | None => True
      end
  end.

(** What a step of the state makes known with its result. *)
Definition learns {A} (Q : A -> K -> Prop) k (f : S -> option (S * A)) : Prop :=
  forall k1 s1 s2 a, le k k1 -> I k1 s1 -> f s1 = Some (s2, a) ->
  exists k2, le k1 k2 /\ I k2 s2 /\ Q a k2.

Lemma knows_ext {A} (Q : A -> K -> Prop) p k k' :
  stable le Q -> le k k' -> knows Q p k -> knows Q p k'.
Proof.
  intros HQ Hk. destruct p as [a| |d f]; [by apply HQ|done|]. intros Hp k1 s1 H1. apply Hp. by etrans.
Qed.

Lemma knows_weaken {A} (Q R : A -> K -> Prop) p k :
  (forall a k', le k k' -> Q a k' -> R a k') -> knows Q p k -> knows R p k.
Proof.
  revert k. induction p as [a| |d f IH] using proc_ind'; intros k HQ; [by apply HQ|done|].
  cbn [knows]. intros Hp k1 s1 H1 Hi. destruct (Hp k1 s1 H1 Hi) as [Hd Hs]. split; [exact Hd|].
  destruct (f s1) as [[s2 p']|] eqn:E; [|done]. destruct Hs as (k2 & ? & ? & ?). exists k2.
  split_and!; [done..|]. eapply IH; [done| |done]. intros a k' ?. apply HQ. etrans; [exact H1|].
  by etrans.
Qed.

Lemma knows_mono {A} (Q R : A -> K -> Prop) p k :
  (forall a k, Q a k -> R a k) -> knows Q p k -> knows R p k.
Proof. intros HQ. by apply knows_weaken; auto. Qed.

Lemma knows_bind {A B} (Q : A -> K -> Prop) (R : B -> K -> Prop) p (c : A -> proc S B) k :
  knows Q p k -> (forall a k', le k k' -> Q a k' -> knows R (c a) k') -> knows R (bind p c) k.
Proof.
  revert k. induction p as [a| |d f IH] using proc_ind'; intros k Hp Hc; [by apply Hc|done|].
  cbn [bind knows] in *. intros k1 s1 H1 Hi. destruct (Hp k1 s1 H1 Hi) as [Hd Hs]. split; [exact Hd|].
  destruct (f s1) as [[s2 p']|] eqn:E; [|done]. destruct Hs as (k2 & ? & ? & Hs). exists k2.
  split_and!; [done..|]. eapply (IH s1 s2 p' E); [done|]. intros a k' H'. apply Hc.
  etrans; [exact H1|]. by etrans.
Qed.

Lemma knows_act {A} (Q : A -> K -> Prop) (f : S -> S * A) k :
  learns Q k (fun s => Some (f s)) -> knows Q (act f) k.
Proof.
  intros Hf k1 s1 H1 Hi. split; [done|]. destruct (f s1) as [s2 a] eqn:E.
  apply (Hf k1 s1 s2 a H1 Hi). by rewrite E.
Qed.

Lemma knows_block {A} (Q : A -> K -> Prop) (f : S -> option (S * A)) k :
  learns Q k f -> knows Q (block f) k.
Proof.
  intros Hf k1 s1 H1 Hi. split; [done|]. destruct (f s1) as [[s2 a]|] eqn:E; [|done].
  by apply (Hf k1 s1 s2 a).
Qed.

Lemma knows_await {A} (Q : A -> K -> Prop) (f : S -> option (S * A)) k :
  learns Q k f -> knows Q (await f) k.
Proof.
  intros Hf k1 s1 H1 Hi. split; [intros g [= <-]; by exists k1|].
  destruct (f s1) as [[s2 a]|] eqn:E; [|done]. by apply (Hf k1 s1 s2 a).
Qed.

Lemma knows_act_or_panic {A} (Q : A -> K -> Prop) (f : S -> option (S * A)) k :
  (forall s, f s = None -> bad) -> learns Q k f -> knows Q (act_or_panic f) k.
Proof.
  intros Hb Hf k1 s1 H1 Hi. split; [done|].
  destruct (f s1) as [[s2 a]|] eqn:E; [by apply (Hf k1 s1 s2 a)|]. exists k1.
  split_and!; [done..|]. by eapply Hb.
Qed.

(** Dropping once more after a drop. *)
Lemma grows_drop (d : S -> S) (d0 : option (S -> S)) k s :
  (forall s, grows s (d s)) ->
  (forall g, d0 = Some g -> exists k2, le k k2 /\ I k2 (g s)) ->
  forall g, (fun g s => d (g s)) <$> d0 = Some g -> exists k2, le k k2 /\ I k2 (g s).
Proof.
  intros Hd H0 g. destruct d0 as [g0|]; intros [= <-]. destruct (H0 g0 eq_refl) as (k1 & ? & H1).
  destruct (Hd _ _ H1) as (k2 & ? & ?). exists k2. split; [by etrans|done].
Qed.

(** What is dropped during a panic matters only where there may be one. *)
Lemma knows_guarded {A} (Q : A -> K -> Prop) (d : bool -> S -> S) p k :
  stable le Q -> (forall b s, (b = true -> bad) -> grows s (d b s)) -> knows Q p k ->
  knows Q (guarded d p) k.
Proof.
  intros HQ Hd. revert k. induction p as [a| |d0 f IH] using proc_ind'; intros k Hp.
  - intros k1 s1 H1 Hi. split; [done|].
    destruct (Hd false s1 ltac:(done) _ Hi) as (k2 & ? & ?). exists k2.
    split_and!; [done..|]. eapply HQ; [|exact Hp]. by etrans.
  - intros k1 s1 _ Hi. split; [done|].
    destruct (Hd true s1 (fun _ => Hp) _ Hi) as (k2 & ? & ?). by exists k2.
  - cbn [guarded knows] in *. intros k1 s1 H1 Hi. destruct (Hp k1 s1 H1 Hi) as [Hd0 Hs].
    split; [apply (grows_drop (d false)); [by intros; apply Hd|done]|].
    destruct (f s1) as [[s2 p']|] eqn:E; [|done]. destruct Hs as (k2 & ? & ? & ?). exists k2.
    split_and!; [done..|]. by eapply IH.
Qed.

Lemma knows_owning {A} (Q : A -> K -> Prop) (d : S -> S) p k :
  (forall s, grows s (d s)) -> knows Q p k -> knows Q (owning d p) k.
Proof.
  intros Hd. revert k. induction p as [a| |d0 f IH] using proc_ind'; intros k Hp; [done..|].
  cbn [owning knows] in *. intros k1 s1 H1 Hi. destruct (Hp k1 s1 H1 Hi) as [Hd0 Hs].
  split; [by apply grows_drop|].
  destruct (f s1) as [[s2 p']|] eqn:E; [|done]. destruct Hs as (k2 & ? & ? & ?). exists k2.
  split_and!; [done..|]. by eapply IH.
Qed.

Lemma knows_abandon {A} (Q : A -> K -> Prop) stop p k :
  knows Q p k -> knows (if_done Q) (abandon stop p) k.
Proof.
  revert k. induction p as [a| |d f IH] using proc_ind'; intros k Hp; [done..|].
  cbn [abandon knows] in *. intros k1 s1 H1 Hi. destruct (Hp k1 s1 H1 Hi) as [Hd Hs].
  split; [exact Hd|].
  assert (match match f s1 with Some (s', p') => Some (s', abandon stop p') | None => None end with
    | Some (s2, p') => exists k2, le k1 k2 /\ I k2 s2 /\ knows (if_done Q) p' k2
    | None => True
    end) as Hgo.
  { destruct (f s1) as [[s2 p']|] eqn:E; [|done]. destruct Hs as (k2 & ? & ? & ?). exists k2.
    split_and!; [done..|]. by eapply IH. }
  destruct d as [g|]; [|done]. destruct (stop _ _); [|done].
  destruct (Hd g eq_refl) as (k2 & ? & ?). by exists k2.
Qed.

(** A step of a computation, as the others see it. *)
Lemma knows_step {A} (Q : A -> K -> Prop) d f k s s' p :
  I k s -> knows Q (Act d f) k -> f s = Some (s', p) ->
  exists k', le k k' /\ I k' s' /\ knows Q p k'.
Proof. intros Hi Hp E. destruct (Hp k s ltac:(done) Hi) as [_ Hs]. by rewrite E in Hs. Qed.
End Knows.

(** What must not panic may be allowed to. *)
Lemma knows_bad {K S A} `{!Knowledge K} (I : K -> S -> Prop) (bad bad' : Prop)
    (Q : A -> K -> Prop) p k :
  (bad -> bad') -> knows I bad Q p k -> knows I bad' Q p k.
Proof.
  intros Hb. revert k. induction p as [a| |d f IH] using proc_ind'; intros k; [done|exact Hb|].
  cbn [knows]. intros Hp k1 s1 H1 Hi. destruct (Hp k1 s1 H1 Hi) as [Hd Hs]. split; [exact Hd|].
  destruct (f s1) as [[s2 p']|] eqn:E; [|done]. destruct Hs as (k2 & ? & ? & ?). exists k2.
  split_and!; [done..|]. by eapply IH.
Qed.

(** Computations whose value does not matter, and steps that what is known survives as it is. *)
Section Steady.
Context {K S : Type} `{!Knowledge K} (I : K -> S -> Prop) (bad : Prop).
Implicit Types (k : K) (s : S).

Definition harmless s s' : Prop := forall k, I k s -> I k s'.

#[global] Instance harmless_preorder : PreOrder harmless.
Proof. split; [by intros s k|]. intros s1 s2 s3 H12 H23 k H1. by apply H23, H12. Qed.

Lemma harmless_grows s s' : harmless s s' -> grows I s s'.
Proof. intros Hs k Hi. exists k. split; [done|by apply Hs]. Qed.

Lemma harmless_foldr {X} (f : X -> S -> S) l s :
  (forall x s, harmless s (f x s)) -> harmless s (foldr f s l).
Proof. intros Hf. induction l as [|x l IH]; [done|]. cbn [foldr]. etrans; [exact IH|apply Hf]. Qed.

Definition steady {A} (p : proc S A) : Prop := forall k, knows I bad any p k.

Lemma steady_ret {A} (a : A) : steady (Ret a).
Proof. done. Qed.

Lemma knows_any_bind {A B} (R : B -> K -> Prop) (p : proc S A) (c : A -> proc S B) k :
  steady p -> (forall a k', le k k' -> knows I bad R (c a) k') -> knows I bad R (bind p c) k.
Proof. intros Hp Hc. eapply knows_bind; [apply Hp|]. auto. Qed.

Lemma steady_bind {A B} (p : proc S A) (c : A -> proc S B) :
  steady p -> (forall a, steady (c a)) -> steady (bind p c).
Proof. intros Hp Hc k. apply knows_any_bind; [done|]. intros. apply Hc. Qed.

Lemma harmless_learns {A} (f : S -> option (S * A)) k :
  (forall s s' a, f s = Some (s', a) -> harmless s s') -> learns I any k f.
Proof. intros Hf k1 s s' a _ Hi E. exists k1. split_and!; [done| |done]. by eapply Hf. Qed.

Lemma steady_act {A} (f : S -> S * A) : (forall s, harmless s (f s).1) -> steady (act f).
Proof.
  intros Hf k. apply knows_act, harmless_learns. intros s s' a [= E]. pose proof (Hf s) as Hs.
  by rewrite E in Hs.
Qed.

Lemma steady_write f : (forall s, harmless s (f s)) -> steady (write f).
Proof. intros Hf. by apply steady_act. Qed.

Lemma steady_read {A} (f : S -> A) : steady (read f).
Proof. by apply steady_act. Qed.

Lemma steady_await {A} (f : S -> option (S * A)) :
  (forall s s' a, f s = Some (s', a) -> harmless s s') -> steady (await f).
Proof. intros Hf k. by apply knows_await, harmless_learns. Qed.

Lemma steady_block {A} (f : S -> option (S * A)) :
  (forall s s' a, f s = Some (s', a) -> harmless s s') -> steady (block f).
Proof. intros Hf k. by apply knows_block, harmless_learns. Qed.

Lemma steady_guarded {A} (d : bool -> S -> S) (p : proc S A) :
  (forall b s, (b = true -> bad) -> harmless s (d b s)) -> steady p -> steady (guarded d p).
Proof.
  intros Hd Hp k. apply knows_guarded; [done|intros; by apply harmless_grows, Hd|apply Hp].
Qed.

Lemma steady_owning {A} (d : S -> S) (p : proc S A) :
  (forall s, harmless s (d s)) -> steady p -> steady (owning d p).
Proof. intros Hd Hp k. apply knows_owning; [intros; apply harmless_grows, Hd|apply Hp]. Qed.

Lemma steady_abandon {A} stop (p : proc S A) : steady p -> steady (abandon stop p).
Proof. intros Hp k. eapply knows_mono; [|apply knows_abandon, Hp]. done. Qed.
End Steady.

Create HintDb steady.
#[export] Hint Constants Opaque : steady.
#[export] Hint Extern 0 (any _ _) => exact I : steady.
#[export] Hint Resolve steady_ret steady_read : steady.

(** Follows the structure of a computation down to operations known to be steady. *)
Ltac steadily :=
  repeat first
    [ fast_done
    | match goal with |- forall _, _ => intro end
    | progress (cbn beta iota)
    | solve [eauto 3 with steady typeclass_instances nocore]
    | match goal with
      | |- knows ?I ?bad any ?p ?k => refine ((_ : steady I bad p) k)
      | |- steady _ _ (bind _ _) => apply steady_bind
      | |- steady _ _ (guarded _ _) => apply steady_guarded
      | |- steady _ _ (owning _ _) => apply steady_owning
      | |- steady _ _ (write _) => apply steady_write
      end
    | case_match ].

Section Preserve.
Context {S : Type} (inv : S -> Prop) (ext : S -> S -> Prop) `{!PreOrder ext}.
Implicit Types s : S.

(** The state itself is known. *)
Definition itself s s' : Prop := s = s' /\ inv s'.

#[local] Instance state_knowledge : Knowledge S := {| le := ext |}.

Definition keeps {A} (Q : A -> S -> Prop) (p : proc S A) s : Prop := knows itself True Q p s.

(** One step that is an update of a well-formed state. *)
Definition update s s' : Prop := inv s -> inv s' /\ ext s s'.

Lemma update_grows s s' : update s s' <-> grows itself s s'.
Proof.
  split.
  - intros Hu k [-> Hi]. destruct (Hu Hi). by exists s'.
  - intros Hg Hi. destruct (Hg s) as (k & ? & <- & ?); done.
Qed.

#[global] Instance update_preorder : PreOrder update.
Proof.
  split; [done|]. intros s1 s2 s3 H12 H23 H1. destruct (H12 H1) as [H2 ?], (H23 H2) as [H3 ?].
  split; [done|by etrans].
Qed.

Lemma update_foldr {X} (f : X -> S -> S) l s :
  (forall x s, update s (f x s)) -> update s (foldr f s l).
Proof. intros Hf. induction l as [|x l IH]; [done|]. cbn [foldr]. etrans; [exact IH|apply Hf]. Qed.

(** What a step of a well-formed state makes true. *)
Definition updates {A} (Q : A -> S -> Prop) s (f : S -> option (S * A)) : Prop :=
  forall s1 s2 a, ext s s1 -> inv s1 -> f s1 = Some (s2, a) -> update s1 s2 /\ Q a s2.

Lemma updates_learns {A} (Q : A -> S -> Prop) s f : updates Q s f -> learns itself Q s f.
Proof.
  intros Hf k s1 s2 a H1 [-> Hi] E. destruct (Hf s1 s2 a H1 Hi E) as [Hu ?].
  destruct (Hu Hi). by exists s2.
Qed.

Lemma keeps_ext {A} (Q : A -> S -> Prop) p s s' :
  stable ext Q -> ext s s' -> keeps Q p s -> keeps Q p s'.
Proof. exact (knows_ext itself True Q p s s'). Qed.

Lemma keeps_mono {A} (Q R : A -> S -> Prop) p s :
  (forall a s, Q a s -> R a s) -> keeps Q p s -> keeps R p s.
Proof. apply knows_mono. Qed.

Lemma keeps_bind {A B} (Q : A -> S -> Prop) (R : B -> S -> Prop) p (k : A -> proc S B) s :
  keeps Q p s -> (forall a s', ext s s' -> Q a s' -> keeps R (k a) s') -> keeps R (bind p k) s.
Proof. exact (knows_bind itself True Q R p k s). Qed.

(** A step, and what comes after it. *)
Lemma keeps_first {A} (Q : A -> S -> Prop) d f s :
  (forall s1, ext s s1 -> inv s1 ->
    (forall g, d = Some g -> update s1 (g s1)) /\
    match f s1 with Some (s2, p) => update s1 s2 /\ keeps Q p s2 | None => True end) ->
  keeps Q (Act d f) s.
Proof.
  intros Hf k s1 H1 [-> Hi]. destruct (Hf s1 H1 Hi) as [Hd Hs]. split.
  - intros g Hg. destruct (Hd g Hg Hi). by exists (g s1).
  - destruct (f s1) as [[s2 p]|]; [|done]. destruct Hs as [Hu ?]. destruct (Hu Hi). by exists s2.
Qed.

Lemma keeps_act {A} (Q : A -> S -> Prop) (f : S -> S * A) s :
  (forall s1, ext s s1 -> inv s1 -> update s1 (f s1).1 /\ Q (f s1).2 (f s1).1) ->
  keeps Q (act f) s.
Proof.
  intros Hf. apply knows_act, updates_learns. intros s1 s2 a H1 Hi [= E].
  specialize (Hf s1 H1 Hi). by rewrite E in Hf.
Qed.

Lemma keeps_read {A} (Q : A -> S -> Prop) (f : S -> A) s :
  (forall s1, ext s s1 -> inv s1 -> Q (f s1) s1) -> keeps Q (read f) s.
Proof. intros Hf. apply keeps_act. intros s1 H1 Hi. by split; [|apply Hf]. Qed.

Lemma keeps_write (Q : unit -> S -> Prop) (f : S -> S) s :
  (forall s1, ext s s1 -> update s1 (f s1)) -> (forall s1, Q tt s1) -> keeps Q (write f) s.
Proof. intros Hf HQ. apply keeps_act. intros s1 H1 _. by split; [apply Hf|]. Qed.

Lemma keeps_await {A} (Q : A -> S -> Prop) (f : S -> option (S * A)) s :
  updates Q s f -> keeps Q (await f) s.
Proof. intros Hf. by apply knows_await, updates_learns. Qed.

Lemma keeps_block {A} (Q : A -> S -> Prop) (f : S -> option (S * A)) s :
  updates Q s f -> keeps Q (block f) s.
Proof. intros Hf. by apply knows_block, updates_learns. Qed.

Lemma keeps_act_or_panic {A} (Q : A -> S -> Prop) (f : S -> option (S * A)) s :
  updates Q s f -> keeps Q (act_or_panic f) s.
Proof. intros Hf. by apply knows_act_or_panic, updates_learns. Qed.

Lemma keeps_guarded {A} (Q : A -> S -> Prop) (d : bool -> S -> S) p s :
  stable ext Q -> (forall b s, update s (d b s)) -> keeps Q p s -> keeps Q (guarded d p) s.
Proof. intros HQ Hd. apply knows_guarded; [done..|]. intros b s1 _. by apply update_grows. Qed.

Lemma keeps_owning {A} (Q : A -> S -> Prop) (d : S -> S) p s :
  (forall s, update s (d s)) -> keeps Q p s -> keeps Q (owning d p) s.
Proof. intros Hd. apply knows_owning; [done..|]. intros s1. by apply update_grows. Qed.

Lemma keeps_abandon {A} (Q : A -> S -> Prop) stop p s :
  keeps Q p s -> keeps (if_done Q) (abandon stop p) s.
Proof. apply knows_abandon. Qed.

Lemma keeps_step {A} (Q : A -> S -> Prop) d f s s' p :
  inv s -> keeps Q (Act d f) s -> f s = Some (s', p) -> inv s' /\ ext s s' /\ keeps Q p s'.
Proof.
  intros Hi Hp E. by destruct (knows_step itself True Q d f s s s' p) as (k & ? & [-> ?] & ?).
Qed.

(** Computations whose value does not matter. *)
Lemma keeps_any_bind {A B} (R : B -> S -> Prop) (p : proc S A) (k : A -> proc S B) s :
  keeps any p s -> (forall a s', ext s s' -> keeps R (k a) s') -> keeps R (bind p k) s.
Proof. intros Hp Hk. eapply keeps_bind; [exact Hp|]. auto. Qed.

Lemma keeps_await_any {A} (f : S -> option (S * A)) s :
  (forall s1 s2 a, f s1 = Some (s2, a) -> update s1 s2) -> keeps any (await f) s.
Proof. intros Hf. apply keeps_await. intros ??? _ _ E. split; [by eapply Hf|done]. Qed.
End Preserve.
