(* ===== verification/ChanIface.v ===== *)
(** * ChanIface: what the broker relies on of tokio's channels and timer

    Bounded channels ([tokio::sync::mpsc]), one-value channels ([tokio::sync::oneshot]) and
    [tokio::time::timeout], as type classes. The state of a channel is abstract; its laws say
    that each operation acts on the view of that state (queue, capacity, handles) as documented.
    An operation that awaits is its poll: [None] while it is pending. *)

From S2P Require Import Prelude.

(** ** Bounded channels *)

Inductive mpsc_try_send_error (M : Type) : Type :=
| MpscFull (msg : M)
| MpscClosed (msg : M).
Arguments MpscFull {M} msg.
Arguments MpscClosed {M} msg.

Inductive mpsc_try_recv_error : Type := MpscEmpty | MpscDisconnected.

(** Messages queued, capacity, number of sender handles, and whether the receiver is alive. *)
Record mpsc_view (M : Type) : Type := mkMpsc {
  queue : list M;
  max_cap : Z;
  senders : nat;
  receiver : bool;
}.
Arguments mkMpsc {M}.
Arguments queue {M}.
Arguments max_cap {M}.
Arguments senders {M}.
Arguments receiver {M}.

(** The largest capacity a channel can have ([Semaphore::MAX_PERMITS] on 64-bit). *)
Definition max_permits : Z := 2 ^ 61 - 1.

Section MpscSpec.
Context {M : Type}.
Implicit Types v : mpsc_view M.

Definition free v : Z := max_cap v - Z.of_nat (length (queue v)).
Definition set_queue q v : mpsc_view M := mkMpsc q (max_cap v) (senders v) (receiver v).

Definition view_channel (capacity : Z) : option (mpsc_view M) :=
  if decide (1 <= capacity <= max_permits)%Z then Some (mkMpsc [] capacity 1 true) else None.

Definition view_try_send (m : M) v : result unit (mpsc_try_send_error M) * mpsc_view M :=
  if negb (receiver v) then (Err (MpscClosed m), v)
  else if decide (0 < free v)%Z then (Ok tt, set_queue (queue v ++ [m]) v)
  else (Err (MpscFull m), v).

Definition view_send (m : M) v : option (result unit M * mpsc_view M) :=
  match view_try_send m v with
  | (Ok tt, v') => Some (Ok tt, v')
  | (Err (MpscClosed m), v') => Some (Err m, v')
  | (Err (MpscFull _), _) => None
  end.

Definition view_try_recv v : result M mpsc_try_recv_error * mpsc_view M :=
  match queue v with
  | m :: q => (Ok m, set_queue q v)
  | [] => (Err (if decide (senders v = 0%nat) then MpscDisconnected else MpscEmpty), v)
  end.

Definition view_recv v : option (option M * mpsc_view M) :=
  match view_try_recv v with
  | (Ok m, v') => Some (Some m, v')
  | (Err MpscDisconnected, v') => Some (None, v')
  | (Err MpscEmpty, _) => None
  end.

Definition view_clone_sender v : mpsc_view M :=
  mkMpsc (queue v) (max_cap v) (S (senders v)) (receiver v).
Definition view_drop_sender v : mpsc_view M :=
  mkMpsc (queue v) (max_cap v) (pred (senders v)) (receiver v).
Definition view_drop_receiver v : mpsc_view M :=
  mkMpsc [] (max_cap v) (senders v) false.
End MpscSpec.

(** The second component of a pair seen through [view]. *)
Definition on_snd {A B C : Type} (view : B -> C) (p : A * B) : A * C := (p.1, view p.2).

Class Mpsc (C : Type -> Type) := {
  mpsc_look {M} : C M -> mpsc_view M;
  mpsc_channel {M} : Z -> option (C M);
  mpsc_send {M} : M -> C M -> option (result unit M * C M);
  mpsc_try_send {M} : M -> C M -> result unit (mpsc_try_send_error M) * C M;
  mpsc_recv {M} : C M -> option (option M * C M);
  mpsc_try_recv {M} : C M -> result M mpsc_try_recv_error * C M;
  mpsc_is_closed {M} : C M -> bool;
  mpsc_capacity {M} : C M -> Z;
  mpsc_max_capacity {M} : C M -> Z;
  mpsc_clone_sender {M} : C M -> C M;
  mpsc_drop_sender {M} : C M -> C M;
  mpsc_drop_receiver {M} : C M -> C M;
  mpsc_channel_spec {M} n : mpsc_look <$> mpsc_channel (M := M) n = view_channel n;
  mpsc_send_spec {M} (m : M) c :
    on_snd mpsc_look <$> mpsc_send m c = view_send m (mpsc_look c);
  mpsc_try_send_spec {M} (m : M) c :
    on_snd mpsc_look (mpsc_try_send m c) = view_try_send m (mpsc_look c);
  mpsc_recv_spec {M} (c : C M) : on_snd mpsc_look <$> mpsc_recv c = view_recv (mpsc_look c);
  mpsc_try_recv_spec {M} (c : C M) :
    on_snd mpsc_look (mpsc_try_recv c) = view_try_recv (mpsc_look c);
  mpsc_is_closed_spec {M} (c : C M) : mpsc_is_closed c = negb (receiver (mpsc_look c));
  mpsc_capacity_spec {M} (c : C M) : mpsc_capacity c = free (mpsc_look c);
  mpsc_max_capacity_spec {M} (c : C M) : mpsc_max_capacity c = max_cap (mpsc_look c);
  mpsc_clone_sender_spec {M} (c : C M) :
    mpsc_look (mpsc_clone_sender c) = view_clone_sender (mpsc_look c);
  mpsc_drop_sender_spec {M} (c : C M) :
    mpsc_look (mpsc_drop_sender c) = view_drop_sender (mpsc_look c);
  mpsc_drop_receiver_spec {M} (c : C M) :
    mpsc_look (mpsc_drop_receiver c) = view_drop_receiver (mpsc_look c);
}.

#[global] Instance view_Mpsc : Mpsc mpsc_view.
Proof.
  refine {|
    mpsc_look M := id;
    mpsc_channel M := view_channel;
    mpsc_send M := view_send;
    mpsc_try_send M := view_try_send;
    mpsc_recv M := view_recv;
    mpsc_try_recv M := view_try_recv;
    mpsc_is_closed M v := negb (receiver v);
    mpsc_capacity M := free;
    mpsc_max_capacity M := max_cap;
    mpsc_clone_sender M := view_clone_sender;
    mpsc_drop_sender M := view_drop_sender;
    mpsc_drop_receiver M := view_drop_receiver;
  |}; intros M; intros; unfold on_snd, id; try done.
  - by destruct (view_channel n).
  - by destruct (view_send m c) as [[? ?]|].
  - by destruct (view_try_send m c).
  - by destruct (view_recv c) as [[? ?]|].
  - by destruct (view_try_recv c).
Defined.

(** ** One-value channels *)

(** The value sent and not yet taken, and which ends are alive. *)
Record oneshot_view (M : Type) : Type := mkOneshot {
  value : option M;
  sender_alive : bool;
  receiver_alive : bool;
}.
Arguments mkOneshot {M}.
Arguments value {M}.
Arguments sender_alive {M}.
Arguments receiver_alive {M}.

Section OneshotSpec.
Context {M : Type}.
Implicit Types v : oneshot_view M.

Definition view_oneshot : oneshot_view M := mkOneshot None true true.

(** [Sender::send] consumes the sender, and gives the value back when nobody will read it. *)
Definition view_oneshot_send (m : M) v : result unit M * oneshot_view M :=
  if receiver_alive v then (Ok tt, mkOneshot (Some m) false true)
  else (Err m, mkOneshot (value v) false false).

Definition view_oneshot_recv v : option (result M unit * oneshot_view M) :=
  match value v with
  | Some m => Some (Ok m, mkOneshot None (sender_alive v) (receiver_alive v))
  | None => if sender_alive v then None else Some (Err tt, v)
  end.

Definition view_oneshot_drop_sender v : oneshot_view M :=
  mkOneshot (value v) false (receiver_alive v).
Definition view_oneshot_drop_receiver v : oneshot_view M :=
  mkOneshot None (sender_alive v) false.
End OneshotSpec.

Class Oneshot (O : Type -> Type) := {
  oneshot_look {M} : O M -> oneshot_view M;
  oneshot_channel {M} : O M;
  oneshot_send {M} : M -> O M -> result unit M * O M;
  oneshot_recv {M} : O M -> option (result M unit * O M);
  oneshot_drop_sender {M} : O M -> O M;
  oneshot_drop_receiver {M} : O M -> O M;
  oneshot_channel_spec {M} : oneshot_look (oneshot_channel (M := M)) = view_oneshot;
  oneshot_send_spec {M} (m : M) o :
    on_snd oneshot_look (oneshot_send m o) = view_oneshot_send m (oneshot_look o);
  oneshot_recv_spec {M} (o : O M) :
    on_snd oneshot_look <$> oneshot_recv o = view_oneshot_recv (oneshot_look o);
  oneshot_drop_sender_spec {M} (o : O M) :
    oneshot_look (oneshot_drop_sender o) = view_oneshot_drop_sender (oneshot_look o);
  oneshot_drop_receiver_spec {M} (o : O M) :
    oneshot_look (oneshot_drop_receiver o) = view_oneshot_drop_receiver (oneshot_look o);
}.

#[global] Instance view_Oneshot : Oneshot oneshot_view.
Proof.
  refine {|
    oneshot_look M := id;
    oneshot_channel M := view_oneshot;
    oneshot_send M := view_oneshot_send;
    oneshot_recv M := view_oneshot_recv;
    oneshot_drop_sender M := view_oneshot_drop_sender;
    oneshot_drop_receiver M := view_oneshot_drop_receiver;
  |}; intros M; intros; unfold on_snd, id; try done.
  - by destruct (view_oneshot_send m o).
  - by destruct (view_oneshot_recv o) as [[? ?]|].
Defined.

(** ** Timeouts *)

(** [timeout_poll deadline now inner] polls [timeout(d, fut)]: the outcome of [fut] when that is
    ready, else an error once the deadline has passed, with the timer's granularity. *)
Class Timeout := {
  timeout_poll {A : Type} : Z -> Z -> option A -> option (result A unit);
  timeout_slack : Z;
  timeout_ready {A} d n (a : A) : timeout_poll d n (Some a) = Some (Ok a);
  timeout_pending {A} d n : (n < d)%Z -> timeout_poll (A := A) d n None = None;
  timeout_elapsed {A} d n : (d + timeout_slack <= n)%Z ->
    timeout_poll (A := A) d n None = Some (Err tt);
  timeout_never_ok {A} d n (a : A) : timeout_poll d n None <> Some (Ok a);
}.

#[global] Program Instance exact_Timeout : Timeout := {|
  timeout_poll A d n inner :=
    match inner with
    | Some a => Some (Ok a)
    | None => if decide (n < d)%Z then None else Some (Err tt)
    end;
  timeout_slack := 0;
|}.
Next Obligation. done. Qed.
Next Obligation. intros A d n Hn. simpl. by rewrite decide_True. Qed.
Next Obligation. intros A d n Hn. simpl. rewrite decide_False; [done|lia]. Qed.
Next Obligation. intros A d n a. simpl. by case_decide. Qed.
