(* ===== verification/World.v ===== *)
(** * World: the shared state of a running broker

    Everything the source shares through [Arc], channels, locks and spawned tasks, as one record
    of stores. A handle is the key of its store entry, so cloning an [Arc] copies the key and
    [Arc::ptr_eq] is equality of keys. [Deps] bundles the third-party interfaces. *)

From S2P Require Import Prelude.
From S2P Require Import Protocol.
From S2P Require Import RadixIface.
From S2P Require Import ChanIface.
From S2P Require Import Async.
From S2P Require Import Registry.

Local Open Scope broker_scope.

(** ** Third-party code *)

Class Deps := {
  Chan : Type -> Type;
  One : Type -> Type;
  Tree : Type;
  Txn : Type;
  deps_mpsc :: Mpsc Chan;
  deps_oneshot :: Oneshot One;
  deps_radix :: Radix RouteTarget Tree Txn;
  deps_timeout :: Timeout;
}.

#[export] Instance view_Deps : Deps := {|
  Chan := mpsc_view;
  One := oneshot_view;
  Tree := gmap bytes RouteTarget;
  Txn := gmap bytes RouteTarget;
|}.

(** ** Handles *)

Abbreviation chan_id := nat.
Abbreviation req_id := nat.
Abbreviation oneshot_id := nat.
Abbreviation task_id := nat.
Abbreviation waiters_id := nat.
Abbreviation cache_id := nat.
Abbreviation counter_id := nat.

(** ** The shared objects *)

(** [SubscriptionSlot]: the sender, [None] once removed, and the version counter. *)
Record SubscriptionSlot := mkSlot {
  sender : option chan_id;
  slot_version : Z;
}.

(** [LoadBalancedGroup]; [req_strong] is the strong count of its [Arc<RequestSender>]. *)
Record LoadBalancedGroup := mkGroup {
  group_slot : slot_id;
  dispatcher_handle : option task_id;
  group_version : Z;
  req_tx : req_id;
  req_strong : Z;
  group_address : bytes;
  active_consumers : Z;
}.

(** [Subscriber]: a message receiver, or a shared reference to a group's request sender. *)
Inductive SubscriberMode :=
| Push (rx : chan_id)
| Pull (req_sender : req_id) (group : group_id).

Record Subscriber := mkSubscriber {
  mode : SubscriberMode;
  sub_address : bytes;
}.

(** Where the dispatcher task of a group is in its loop. *)
Inductive dispatcher_at :=
| WaitRequest
| WaitMessage (reply_tx : oneshot_id)
| Deliver (reply_tx : oneshot_id) (current_msg : Message)
| WaitNext (current_msg : Message)
| Finished.

(** What the dispatcher task captures. *)
Record dispatcher_env := mkDispatcherEnv {
  main_receiver : chan_id;
  req_rx : req_id;
  slot_for_drop : slot_id;
  address_for_task : bytes;
}.

Inductive task_state :=
| DispatcherTask (env : dispatcher_env) (at_ : dispatcher_at)
| ListenerTask (subscriber : Subscriber) (waiters : waiters_id).

Record task := mkTask {
  state : task_state;
  aborted : bool;
}.

(** [InMemoryEndpoint] (src/src/broker_core/transport/in_memory.rs): a target, and its version
    when it was resolved. *)
Record InMemoryEndpoint := mkEndpoint {
  target : RouteTarget;
  cached_version : Z;
}.

(** [parking_lot::RwLock<A>]: readers, at most one upgradable reader, at most one writer. *)
Record rwlock (A : Type) := mkRwLock {
  rw_value : A;
  rw_readers : nat;
  rw_upgradable : bool;
  rw_writer : bool;
}.
Arguments mkRwLock {A}.
Arguments rw_value {A}.
Arguments rw_readers {A}.
Arguments rw_upgradable {A}.
Arguments rw_writer {A}.

(** [std::sync::Mutex<()>]: held or not, and whether a holder panicked. *)
Record std_mutex := mkMutex { held : bool; poisoned : bool }.

Section World.
Context {D : Deps}.

Record World := mkWorld {
  now : Z;
  next_id : nat;
  chans : gmap chan_id (Chan Message);
  reqs : gmap req_id (Chan oneshot_id);
  oneshots : gmap oneshot_id (One Message);
  slots : gmap slot_id SubscriptionSlot;
  groups : gmap group_id LoadBalancedGroup;
  inner : RegistryInner Tree;
  register_mutex : std_mutex;
  waiter_maps : gmap waiters_id (gmap bytes oneshot_id);
  tasks : gmap task_id task;
  caches : gmap cache_id (rwlock (option InMemoryEndpoint));
  counters : gmap counter_id Z;
}.

(** The state a [Broker::new] starts from. *)
Definition World_new : World :=
  mkWorld 0 0 ∅ ∅ ∅ ∅ ∅ RegistryInner_new (mkMutex false false) ∅ ∅ ∅ ∅.

(** Field updates. *)
Definition set_now x w := mkWorld x (next_id w) (chans w) (reqs w) (oneshots w) (slots w)
  (groups w) (inner w) (register_mutex w) (waiter_maps w) (tasks w) (caches w) (counters w).
Definition bump_id w := mkWorld (now w) (S (next_id w)) (chans w) (reqs w) (oneshots w) (slots w)
  (groups w) (inner w) (register_mutex w) (waiter_maps w) (tasks w) (caches w) (counters w).
Definition set_chans x w := mkWorld (now w) (next_id w) x (reqs w) (oneshots w) (slots w)
  (groups w) (inner w) (register_mutex w) (waiter_maps w) (tasks w) (caches w) (counters w).
Definition set_reqs x w := mkWorld (now w) (next_id w) (chans w) x (oneshots w) (slots w)
  (groups w) (inner w) (register_mutex w) (waiter_maps w) (tasks w) (caches w) (counters w).
Definition set_oneshots x w := mkWorld (now w) (next_id w) (chans w) (reqs w) x (slots w)
  (groups w) (inner w) (register_mutex w) (waiter_maps w) (tasks w) (caches w) (counters w).
Definition set_slots x w := mkWorld (now w) (next_id w) (chans w) (reqs w) (oneshots w) x
  (groups w) (inner w) (register_mutex w) (waiter_maps w) (tasks w) (caches w) (counters w).
Definition set_groups x w := mkWorld (now w) (next_id w) (chans w) (reqs w) (oneshots w)
  (slots w) x (inner w) (register_mutex w) (waiter_maps w) (tasks w) (caches w) (counters w).
Definition set_inner x w := mkWorld (now w) (next_id w) (chans w) (reqs w) (oneshots w)
  (slots w) (groups w) x (register_mutex w) (waiter_maps w) (tasks w) (caches w) (counters w).
Definition set_mutex x w := mkWorld (now w) (next_id w) (chans w) (reqs w) (oneshots w)
  (slots w) (groups w) (inner w) x (waiter_maps w) (tasks w) (caches w) (counters w).
Definition set_waiter_maps x w := mkWorld (now w) (next_id w) (chans w) (reqs w) (oneshots w)
  (slots w) (groups w) (inner w) (register_mutex w) x (tasks w) (caches w) (counters w).
Definition set_tasks x w := mkWorld (now w) (next_id w) (chans w) (reqs w) (oneshots w)
  (slots w) (groups w) (inner w) (register_mutex w) (waiter_maps w) x (caches w) (counters w).
Definition set_caches x w := mkWorld (now w) (next_id w) (chans w) (reqs w) (oneshots w)
  (slots w) (groups w) (inner w) (register_mutex w) (waiter_maps w) (tasks w) x (counters w).
Definition set_counters x w := mkWorld (now w) (next_id w) (chans w) (reqs w) (oneshots w)
  (slots w) (groups w) (inner w) (register_mutex w) (waiter_maps w) (tasks w) (caches w) x.

(** [alloc set x] stores a new object under a fresh key, which it returns. *)
Definition alloc (put : nat -> World -> World) : proc World nat :=
  act (fun w => (bump_id (put (next_id w) w), next_id w)).

Definition new_slot (x : SubscriptionSlot) : proc World slot_id :=
  alloc (fun k w => set_slots (<[k := x]> (slots w)) w).
Definition new_group (x : LoadBalancedGroup) : proc World group_id :=
  alloc (fun k w => set_groups (<[k := x]> (groups w)) w).
Definition new_oneshot : proc World oneshot_id :=
  alloc (fun k w => set_oneshots (<[k := oneshot_channel]> (oneshots w)) w).
Definition new_waiter_map : proc World waiters_id :=
  alloc (fun k w => set_waiter_maps (<[k := ∅]> (waiter_maps w)) w).

(** [std::sync::atomic::AtomicUsize], which the callers of the crate count with: every access is
    one step, and addition wraps around. *)
Definition AtomicUsize_new (n : Z) : proc World counter_id :=
  alloc (fun k w => set_counters (<[k := n]> (counters w)) w).
Definition fetch_add (k : counter_id) (n : Z) : proc World Z :=
  act (fun w => (set_counters (alter (fun x => u64_add x n) k (counters w)) w,
                 default 0%Z (counters w !! k))).
Definition AtomicUsize_load (k : counter_id) : proc World Z :=
  read (fun w => default 0%Z (counters w !! k)).

(** [tokio::spawn]: the task joins the pool of the runtime. *)
Definition spawn (t : task_state) : proc World task_id :=
  alloc (fun k w => set_tasks (<[k := mkTask t false]> (tasks w)) w).

(** [JoinHandle::abort] marks the task; the runtime drops it at its next [.await]. *)
Definition abort (k : task_id) (w : World) : World :=
  set_tasks (alter (fun t => mkTask (state t) true) k (tasks w)) w.

(** Changing the object under a key. *)
Definition on_slot (f : SubscriptionSlot -> SubscriptionSlot) (k : slot_id) w :=
  set_slots (alter f k (slots w)) w.
Definition on_group (f : LoadBalancedGroup -> LoadBalancedGroup) (k : group_id) w :=
  set_groups (alter f k (groups w)) w.
Definition on_chan (f : Chan Message -> Chan Message) (k : chan_id) w :=
  set_chans (alter f k (chans w)) w.
Definition on_req (f : Chan oneshot_id -> Chan oneshot_id) (k : req_id) w :=
  set_reqs (alter f k (reqs w)) w.
Definition on_oneshot (f : One Message -> One Message) (k : oneshot_id) w :=
  set_oneshots (alter f k (oneshots w)) w.
Definition on_waiters (f : gmap bytes oneshot_id -> gmap bytes oneshot_id) (k : waiters_id) w :=
  set_waiter_maps (alter f k (waiter_maps w)) w.
End World.
