(* ===== verification/Channel.v ===== *)
(** * Channel: the typed channel wrappers (src/src/broker_core/transport/channel.rs)

    [Sender<T>] and [Receiver<T>] over the stored tokio channels, the error conversions, channel
    load, the pull requests of [RequestSender], and the two factories. *)

From Stdlib Require Import SpecFloat.
From S2P Require Import Prelude.
From S2P Require Import Protocol.
From S2P Require Import ChanIface.
From S2P Require Import Async.
From S2P Require Import World.

Local Open Scope broker_scope.

(** ** Definitions *)

Inductive SendError (M : Type) : Type := mkSendError (msg : M).
Arguments mkSendError {M} msg.

Inductive TrySendError (M : Type) : Type :=
| Full (msg : M)
| Disconnected (msg : M).
Arguments Full {M} msg.
Arguments Disconnected {M} msg.

Inductive TryRecvError := TryRecv_Empty | TryRecv_Disconnected.
Inductive RecvTimeoutError := RecvTimeout_Disconnected | RecvTimeout_Timeout.
Inductive TryRequestError := TryRequest_Full | TryRequest_Disconnected.

(** The [From] impls, and [Result::map_err]. *)
Definition SendError_from {M} (err : M) : SendError M := mkSendError err.

Definition TrySendError_from {M} (err : mpsc_try_send_error M) : TrySendError M :=
  match err with
  | MpscFull msg => Full msg
  | MpscClosed msg => Disconnected msg
  end.

Definition TryRecvError_from (err : mpsc_try_recv_error) : TryRecvError :=
  match err with
  | MpscEmpty => TryRecv_Empty
  | MpscDisconnected => TryRecv_Disconnected
  end.

Definition map_err {A E F} (f : E -> F) (r : result A E) : result A F :=
  match r with Ok a => Ok a | Err e => Err (f e) end.

Record ChannelLoad := mkLoad {
  capacity : Z;
  max_capacity : Z;
}.

(** [saturating_sub] on [usize]. *)
Definition pending_messages (l : ChannelLoad) : Z := Z.max 0 (max_capacity l - capacity l).

(** [x as f64] for an unsigned integer: the nearest binary64 number, ties to even. *)
Definition as_f64 (x : Z) : spec_float := binary_normalize 53 1024 x 0 false.

Definition f64_zero : spec_float := S754_zero false.

Definition utilization_ratio (l : ChannelLoad) : spec_float :=
  if (max_capacity l =? 0)%Z then f64_zero
  else SFdiv 53 1024 (as_f64 (pending_messages l)) (as_f64 (max_capacity l)).

(** The store of channels that carry [M]. *)
Class Channels {D : Deps} (M : Type) := {
  get_channels : World -> gmap nat (Chan M);
  set_channels : gmap nat (Chan M) -> World -> World;
}.

#[export] Instance message_channels {D : Deps} : Channels Message :=
  {| get_channels := chans; set_channels := set_chans |}.
#[export] Instance request_channels {D : Deps} : Channels oneshot_id :=
  {| get_channels := reqs; set_channels := set_reqs |}.

Section Channel.
Context {D : Deps}.

Section Generic.
Context {M : Type} `{!Channels M}.
Implicit Types (tx rx : nat) (w : World).

Definition put_channel (k : nat) (c : Chan M) w : World :=
  set_channels (<[k := c]> (get_channels w)) w.

(** An operation on the channel [k]: waits when the operation is pending. *)
Definition poll_channel {A} (k : nat) (f : Chan M -> option (A * Chan M)) w
    : option (World * A) :=
  c ← get_channels w !! k; '(a, c') ← f c; Some (put_channel k c' w, a).

Definition Sender_send tx (msg : M) : proc World (result unit (SendError M)) :=
  await (poll_channel tx (fun c =>
    '(r, c') ← mpsc_send msg c; Some (map_err SendError_from r, c'))).

Definition Sender_try_send tx (msg : M) : proc World (result unit (TrySendError M)) :=
  block (poll_channel tx (fun c =>
    let '(r, c') := mpsc_try_send msg c in Some (map_err TrySendError_from r, c'))).

Definition Sender_is_closed tx w : bool :=
  match get_channels w !! tx with Some c => mpsc_is_closed c | None => true end.

Definition Sender_load tx w : option ChannelLoad :=
  c ← get_channels w !! tx;
  Some {| capacity := mpsc_capacity c; max_capacity := mpsc_max_capacity c |}.

Definition Receiver_recv rx : proc World (option M) := await (poll_channel rx mpsc_recv).

Definition Receiver_try_recv rx : proc World (result M TryRecvError) :=
  block (poll_channel rx (fun c =>
    let '(r, c') := mpsc_try_recv c in Some (map_err TryRecvError_from r, c'))).

(** [tokio::time::timeout(timeout, self.inner.recv())]: the deadline is set when the call is
    made, the channel is polled first. *)
Definition Receiver_recv_timeout rx (timeout : Z) : proc World (result M RecvTimeoutError) :=
  let! deadline := read (fun w => (now w + timeout)%Z) in
  await (fun w =>
    let polled := poll_channel rx mpsc_recv w in
    let w' := match polled with Some (w', _) => w' | None => w end in
    r ← timeout_poll deadline (now w) (snd <$> polled);
    Some (w', match r with
              | Ok (Some msg) => Ok msg
              | Ok None => Err RecvTimeout_Disconnected
              | Err _ => Err RecvTimeout_Timeout
              end)).

(** [mpsc::channel(capacity)], which panics for a capacity out of range. *)
Definition channel (capacity : Z) : proc World nat :=
  act_or_panic (fun w =>
    c ← mpsc_channel capacity; Some (bump_id (put_channel (next_id w) c w), next_id w)).
End Generic.

Definition create_channel (capacity : Z) : proc World chan_id := channel (M := Message) capacity.
Definition create_request_channel (capacity : Z) : proc World req_id :=
  channel (M := oneshot_id) capacity.

(** [RequestSender::request]: the token goes to the producer, the reply end to the caller. On
    failure, or when the call is dropped, both ends of the one-value channel are dropped. *)
Definition RequestSender_request (tx : req_id)
    : proc World (result oneshot_id (SendError oneshot_id)) :=
  let! reply := new_oneshot in
  let! r := owning (fun w => on_oneshot oneshot_drop_receiver reply
                               (on_oneshot oneshot_drop_sender reply w))
              (Sender_send tx reply) in
  match r with
  | Ok _ => Ret (Ok reply)
  | Err e =>
      let! _ := write (on_oneshot oneshot_drop_receiver reply) in
      Ret (Err e)
  end.

Definition RequestSender_try_request (tx : req_id)
    : proc World (result oneshot_id TryRequestError) :=
  let! closed := read (Sender_is_closed (M := oneshot_id) tx) in
  if closed : bool then Ret (Err TryRequest_Disconnected)
  else
    let! reply := new_oneshot in
    let! r := Sender_try_send tx reply in
    match r with
    | Ok _ => Ret (Ok reply)
    | Err e =>
        let! _ := write (fun w => on_oneshot oneshot_drop_sender reply
                                    (on_oneshot oneshot_drop_receiver reply w)) in
        Ret (Err (match e with
                  | Full _ => TryRequest_Full
                  | Disconnected _ => TryRequest_Disconnected
                  end))
    end.

(** [oneshot::Sender::send] and [oneshot::Receiver::await] on a stored one-value channel. *)
Definition reply_send (k : oneshot_id) (msg : Message) (w : World)
    : World * result unit Message :=
  match oneshots w !! k with
  | Some o => let '(r, o') := oneshot_send msg o in
              (set_oneshots (<[k := o']> (oneshots w)) w, r)
  | None => (w, Err msg)
  end.

Definition reply_recv (k : oneshot_id) (w : World) : option (World * result Message unit) :=
  o ← oneshots w !! k; '(r, o') ← oneshot_recv o;
  Some (set_oneshots (<[k := o']> (oneshots w)) w, r).
End Channel.
