(* ===== verification/Routing.v ===== *)
(** * Routing: subscription slots, load-balanced groups and route targets

    src/src/broker_core/registry/slot.rs, load_balanced_group.rs and routing.rs. Every access to
    an [ArcSwap] or an atomic is a step of its own. The dispatcher task of a group, which calls
    the registry, is in Dispatcher.v. *)

From S2P Require Import Prelude.
From S2P Require Import Protocol.
From S2P Require Import ChanIface.
From S2P Require Import Async.
From S2P Require Import Registry.
From S2P Require Import World.
From S2P Require Import Channel.

Local Open Scope broker_scope.

(** [TransportError] (src/src/broker_core/transport/mod.rs). [Io] is never built. *)
Inductive TransportError :=
| ConnectionClosed
| TransportTimeout
| RecipientNotFound (address : bytes)
| TransportRegistry (e : Patterns.RegistryError)
| TransportProtocol (e : ProtocolError)
| Unsupported.

#[global] Instance TransportError_eq_dec : EqDecision TransportError.
Proof. solve_decision. Defined.

Section Routing.
Context {D : Deps}.
Implicit Types (w : World) (slot : slot_id) (group : group_id).

(** ** slot.rs *)

Definition SubscriptionSlot_new (tx : chan_id) : proc World slot_id :=
  new_slot {| sender := Some tx; slot_version := 1 |}.

(** Replacing the content of the [ArcSwap] drops the sender it held. *)
Definition store_sender (new_sender : option chan_id) slot w : World :=
  let w := match slots w !! slot with
           | Some {| sender := Some tx |} => on_chan mpsc_drop_sender tx w
           | _ => w
           end in
  on_slot (fun s => mkSlot new_sender (slot_version s)) slot w.

Definition bump_version (s : SubscriptionSlot) : SubscriptionSlot :=
  mkSlot (sender s) (u64_add (slot_version s) 1).

Definition SubscriptionSlot_update slot (new_sender : chan_id) : proc World unit :=
  let! _ := write (store_sender (Some new_sender) slot) in
  write (on_slot bump_version slot).

Definition mark_removed slot : proc World unit :=
  let! _ := write (store_sender None slot) in
  write (on_slot bump_version slot).

Definition load_sender slot w : option chan_id := slots w !! slot ≫= sender.

Definition load_version slot w : Z :=
  match slots w !! slot with Some s => slot_version s | None => 0 end.

Definition SubscriptionSlot_is_closed slot : proc World bool :=
  let! guard := read (load_sender slot) in
  match guard with
  | Some tx => read (Sender_is_closed (M := Message) tx)
  | None => Ret true
  end.

(** ** load_balanced_group.rs *)

Definition on_consumers (f : Z -> Z) (g : LoadBalancedGroup) : LoadBalancedGroup :=
  mkGroup (group_slot g) (dispatcher_handle g) (group_version g) (req_tx g) (req_strong g)
    (group_address g) (f (active_consumers g)).
Definition on_strong (f : Z -> Z) (g : LoadBalancedGroup) : LoadBalancedGroup :=
  mkGroup (group_slot g) (dispatcher_handle g) (group_version g) (req_tx g) (f (req_strong g))
    (group_address g) (active_consumers g).
Definition bump_group_version (g : LoadBalancedGroup) : LoadBalancedGroup :=
  mkGroup (group_slot g) (dispatcher_handle g) (u64_add (group_version g) 1) (req_tx g)
    (req_strong g) (group_address g) (active_consumers g).
Definition set_handle (h : option task_id) (g : LoadBalancedGroup) : LoadBalancedGroup :=
  mkGroup (group_slot g) h (group_version g) (req_tx g) (req_strong g) (group_address g)
    (active_consumers g).

Definition LoadBalancedGroup_new slot (main_receiver : chan_id) (req_channel_capacity : Z)
    (address : bytes) : proc World group_id :=
  let! req := create_request_channel req_channel_capacity in
  let! group := new_group {| group_slot := slot; dispatcher_handle := None; group_version := 1;
                             req_tx := req; req_strong := 1; group_address := address;
                             active_consumers := 0 |} in
  let! handle := spawn (DispatcherTask {| main_receiver := main_receiver; req_rx := req;
                                          slot_for_drop := slot;
                                          address_for_task := address |} WaitRequest) in
  let! _ := write (on_group (set_handle (Some handle)) group) in
  Ret group.

(** The clone of the [Arc<RequestSender>] goes to the subscriber. *)
Definition LoadBalancedGroup_subscribe group : proc World req_id :=
  let! _ := write (on_group (on_consumers (fun n => u64_add n 1)) group) in
  act (fun w => (on_group (on_strong Z.succ) group w,
                 match groups w !! group with Some g => req_tx g | None => 0%nat end)).

(** The handle is taken out and aborted under the write lock of [dispatcher_handle]. *)
Definition take_and_abort group w : World :=
  match groups w !! group with
  | Some g =>
      let w' := on_group (set_handle None) group w in
      match dispatcher_handle g with Some handle => abort handle w' | None => w' end
  | None => w
  end.

Definition slot_of group w : slot_id :=
  match groups w !! group with Some g => group_slot g | None => 0%nat end.

Definition shutdown group : proc World unit :=
  let! _ := write (take_and_abort group) in
  let! slot := read (slot_of group) in
  let! _ := mark_removed slot in
  write (on_group bump_group_version group).

Definition consumer_count group w : Z :=
  match groups w !! group with Some g => active_consumers g | None => 0 end.

Definition remove_consumer group : proc World unit :=
  let! prev_count := act (fun w =>
    (on_group (on_consumers (fun n => u64_sub n 1)) group w, consumer_count group w)) in
  if decide (prev_count = 1%Z) then shutdown group else Ret tt.

Definition group_load_version group w : Z :=
  match groups w !! group with Some g => group_version g | None => 0 end.

Definition LoadBalancedGroup_is_empty group w : bool :=
  match groups w !! group with Some g => bool_decide (req_strong g = 1%Z) | None => true end.

Definition LoadBalancedGroup_drop group : proc World unit := shutdown group.

(** ** routing.rs *)

(** [sender.load()] keeps the loaded sender alive for as long as the guard is held. *)
Definition guard_sender slot w : World * option chan_id :=
  match load_sender slot w with
  | Some tx => (on_chan mpsc_clone_sender tx w, Some tx)
  | None => (w, None)
  end.

(** The body both arms of [RouteTarget::send] share. The guard of the slot's sender lives across
    the [.await] of the channel. *)
Definition send_to_slot slot (message : Message) : proc World (result unit TransportError) :=
  let! guard := act (guard_sender slot) in
  match guard with
  | Some tx =>
      let! r := owning (on_chan mpsc_drop_sender tx) (Sender_send tx message) in
      let! _ := write (on_chan mpsc_drop_sender tx) in
      Ret (map_err (fun _ => ConnectionClosed) r)
  | None => Ret (Err ConnectionClosed)
  end.

Definition RouteTarget_send (target : RouteTarget) (message : Message)
    : proc World (result unit TransportError) :=
  match target with
  | Single slot => send_to_slot slot message
  | LoadBalancedTarget group =>
      let! slot := read (slot_of group) in
      send_to_slot slot message
  end.

(** Removes the slot when it is this target's: whether the route goes too. *)
Definition remove_slot (target : RouteTarget) slot : proc World bool :=
  match target with
  | Single existing_slot =>
      if decide (existing_slot = slot) then
        let! _ := mark_removed existing_slot in
        Ret true
      else Ret false
  | LoadBalancedTarget group =>
      let! group_slot := read (slot_of group) in
      if decide (group_slot = slot) then
        let! _ := shutdown group in
        Ret true
      else Ret false
  end.

Definition request_sender (target : RouteTarget) : proc World (option req_id) :=
  match target with
  | LoadBalancedTarget group =>
      let! req := LoadBalancedGroup_subscribe group in
      Ret (Some req)
  | Single _ => Ret None
  end.

Definition load_balanced_group (target : RouteTarget) : option group_id :=
  match target with LoadBalancedTarget group => Some group | Single _ => None end.

Definition RouteTarget_version (target : RouteTarget) w : Z :=
  match target with
  | Single slot => load_version slot w
  | LoadBalancedTarget group => group_load_version group w
  end.

Definition RouteTarget_is_closed (target : RouteTarget) : proc World bool :=
  match target with
  | Single slot => SubscriptionSlot_is_closed slot
  | LoadBalancedTarget group => read (LoadBalancedGroup_is_empty group)
  end.

Definition new_exclusive slot : RouteTarget := Single slot.

Definition new_load_balanced slot (main_receiver : chan_id) (req_channel_capacity : Z)
    (address : bytes) : proc World RouteTarget :=
  let! group := LoadBalancedGroup_new slot main_receiver req_channel_capacity address in
  Ret (LoadBalancedTarget group).
End Routing.
