(* ===== verification/RegistryOps.v ===== *)
(** * RegistryOps: the methods of [LocalRegistry] (src/src/broker_core/registry/mod.rs)

    [register], [get_existing_or_register] and [unregister] take [register_mutex], load the
    current snapshot, compute a new one with the functions of Registry.v and store it; [lookup]
    and its variants load a snapshot without the mutex. *)

From S2P Require Import Prelude.
From S2P Require Import Patterns.
From S2P Require Import RadixIface.
From S2P Require Import ChanIface.
From S2P Require Import Async.
From S2P Require Import Registry.
From S2P Require Import World.
From S2P Require Import Channel.
From S2P Require Import Routing.

Local Open Scope broker_scope.

Section RegistryOps.
Context {D : Deps}.
Implicit Types (w : World) (slot : slot_id) (address : bytes).

(** [register_mutex.lock().unwrap()]: waits while the mutex is held, and panics when an earlier
    holder panicked. *)
Definition lock : proc World unit :=
  Act None (fun w =>
    if held (register_mutex w) then None
    else if poisoned (register_mutex w) then Some (w, Panic)
    else Some (set_mutex (mkMutex true false) w, Ret tt)).

(** Dropping the guard releases the mutex, and poisons it during a panic. *)
Definition unlock (panicking : bool) w : World := set_mutex (mkMutex false panicking) w.

Definition with_lock {A} (body : proc World A) : proc World A :=
  let! _ := lock in guarded unlock body.

Definition load : proc World (RegistryInner Tree) := read inner.
Definition store (i : RegistryInner Tree) : proc World unit := write (set_inner i).

Definition register address (target : RouteTarget) : proc World (result unit RegistryError) :=
  with_lock (
    let! current := load in
    match register_inner current address target with
    | Ok new_inner => let! _ := store new_inner in Ret (Ok tt)
    | Err e => Ret (Err e)
    end).

(** [factory] runs under the mutex, only when the address is free. *)
Definition get_existing_or_register address
    (factory : proc World (result RouteTarget RegistryError))
    : proc World (result RegisterResult RegistryError) :=
  with_lock (
    let! current := load in
    match check_address current address with
    | Err e => Ret (Err e)
    | Ok (Duplicate target) => Ret (Ok (AlreadyExists target))
    | Ok (Conflict existing) =>
        Ret (Err (if is_wildcard address then WildcardConflict address existing
                  else ConflictsWithWildcard address existing))
    | Ok NotFound =>
        let!? target := factory in
        let! _ := store (insert_route current address target) in
        Ret (Ok (Registered target))
    end).

Definition unregister address slot : proc World (result unit RegistryError) :=
  with_lock (
    let! current := load in
    match find_route current address with
    | Some target =>
        let! removed := remove_slot target slot in
        if removed : bool then
          let! _ := store (remove_route current address) in
          Ret (Ok tt)
        else Ret (Ok tt)
    | None => Ret (Ok tt)
    end).

Definition lookup address : proc World (option RouteTarget) :=
  read (fun w => lookup_inner (inner w) address).

Definition has_local address : proc World bool :=
  read (fun w => has_local_inner (inner w) address).

Definition has_route address : proc World bool :=
  let! r := lookup address in
  Ret (match r with Some _ => true | None => false end).
End RegistryOps.
