(* ===== verification/RegistrySpec.v ===== *)
(** * RegistrySpec: what [LocalRegistry] promises its callers

    The registry as an atomic object, on two levels. On the first each call is one step on the
    published snapshot, with the functions of Registry.v ([on_snapshot]). On the second the
    snapshot is a plain table from addresses to targets in which no two keys overlap
    ([on_table]); it speaks of exact and single-segment addresses ([plain_address]), because the
    code does not keep the same promise for [**] patterns (see RegistryProps.v). RegistryConc.v
    and RegistryRefine.v show that the methods of RegistryOps.v implement them. *)

From S2P Require Import Prelude.
From S2P Require Import Utf8.
From S2P Require Import Patterns.
From S2P Require Import PatternFacts.
From S2P Require Import RadixIface.
From S2P Require Import ChanIface.
From S2P Require Import Async.
From S2P Require Import Registry.
From S2P Require Import RegistryFacts.
From S2P Require Import RegistryProps.
From S2P Require Import World.
From S2P Require Import Routing.
From S2P Require Import RegistryOps.

Local Open Scope broker_scope.

Abbreviation table := (gmap bytes RouteTarget).

Section Spec.
Context {D : Deps}.
Implicit Types (i : RegistryInner Tree) (a : bytes).

(** ** Calls and programs *)

(** One call of the registry; its index is the type of its result. *)
Inductive call : Type -> Type :=
| Register (address : bytes) (target : RouteTarget) : call (result unit RegistryError)
| Join (address : bytes) (factory : proc World (result RouteTarget RegistryError)) :
    call (result RegisterResult RegistryError)
| Unregister (address : bytes) (slot : slot_id) : call (result unit RegistryError)
| Lookup (address : bytes) : call (option RouteTarget)
| HasRoute (address : bytes) : call bool
| HasLocal (address : bytes) : call bool.

(** A program that makes calls, each chosen by the results of the earlier ones. *)
Inductive prog (A : Type) : Type :=
| Return (a : A)
| Call {R : Type} (c : call R) (k : R -> prog A).

(** The program run with the methods of [LocalRegistry]. *)
Definition call_proc {R} (c : call R) : proc World R :=
  match c with
  | Register address target => register address target
  | Join address factory => get_existing_or_register address factory
  | Unregister address slot => unregister address slot
  | Lookup address => lookup address
  | HasRoute address => has_route address
  | HasLocal address => has_local address
  end.

Fixpoint prog_proc {A} (p : prog A) : proc World A :=
  match p with
  | Return _ a => Ret a
  | Call _ c k => bind (call_proc c) (fun r => prog_proc (k r))
  end.

(** ** Atomic calls on a snapshot *)

(** The error of a conflict with the route [existing]. *)
Definition conflict_error a (existing : bytes) : RegistryError :=
  if is_wildcard a then WildcardConflict a existing else ConflictsWithWildcard a existing.

Definition on_snapshot {R} (c : call R) (i : RegistryInner Tree) : R -> RegistryInner Tree -> Prop :=
  match c in call R return R -> RegistryInner Tree -> Prop with
  | Register a t => fun r i' =>
      match register_inner i a t with
      | Ok i1 => r = Ok tt /\ i' = i1
      | Err e => r = Err e /\ i' = i
      end
  | Join a factory => fun r i' =>
      match check_address i a with
      | Err e => r = Err e /\ i' = i
      | Ok (Duplicate t) => r = Ok (AlreadyExists t) /\ i' = i
      | Ok (Conflict existing) => r = Err (conflict_error a existing) /\ i' = i
      | Ok NotFound => exists x, may_return factory x /\
          match x with
          | Ok t => r = Ok (Registered t) /\ i' = insert_route i a t
          | Err e => r = Err e /\ i' = i
          end
      end
  | Unregister a slot => fun r i' => r = Ok tt /\
      match find_route i a with
      | None => i' = i
      | Some (Single s) => i' = if decide (s = slot) then remove_route i a else i
      | Some (LoadBalancedTarget _) => i' = i \/ i' = remove_route i a
      end
  | Lookup a => fun r i' => i' = i /\ r = lookup_inner i a
  | HasRoute a => fun r i' => i' = i /\ r = has_route_inner i a
  | HasLocal a => fun r i' => i' = i /\ r = has_local_inner i a
  end.

(** One call of a program. *)
Definition prog_step {A} i (p : prog A) i' (p' : prog A) : Prop :=
  match p with
  | Return _ _ => False
  | Call _ c k => exists r, on_snapshot c i r i' /\ p' = k r
  end.

(** ** Atomic calls on a table *)

Implicit Types T : table.

Definition plain_address a : Prop := is_wildcard a = true -> is_prefix_pattern a = false.

(** The address may be registered: it is well formed and shares no address with a key. *)
Definition fits T a : Prop :=
  (is_wildcard a = true -> valid_pattern a) /\ forall p, is_Some (T !! p) -> ~ clash a p.

(** Why another call may not register [a]: its syntax, or a key that overlaps. *)
Definition refused T a (e : RegistryError) : Prop :=
  (is_wildcard a = true /\ ~ valid_pattern a /\ exists reason, e = InvalidWildcardFormat reason) \/
  (exists p, is_Some (T !! p) /\ clash a p /\ e = conflict_error a (from_utf8_lossy p)).

(** The key of a table that covers an address, and its target. *)
Definition routed T a t : Prop := exists p, T !! p = Some t /\ covers p a.

Definition on_table {R} (c : call R) T : R -> table -> Prop :=
  match c in call R return R -> table -> Prop with
  | Register a t => fun r T' =>
      (fits T a /\ r = Ok tt /\ T' = <[a := t]> T) \/
      (T' = T /\ is_Some (T !! a) /\ r = Err (AddressAlreadyOccupied a)) \/
      (T' = T /\ T !! a = None /\ exists e, refused T a e /\ r = Err e)
  | Join a factory => fun r T' =>
      (fits T a /\ exists x, may_return factory x /\
         match x with
         | Ok t => r = Ok (Registered t) /\ T' = <[a := t]> T
         | Err e => r = Err e /\ T' = T
         end) \/
      (T' = T /\ exists t, T !! a = Some t /\ r = Ok (AlreadyExists t)) \/
      (T' = T /\ T !! a = None /\ exists e, refused T a e /\ r = Err e)
  | Unregister a slot => fun r T' => r = Ok tt /\
      match T !! a with
      | None => T' = T
      | Some (Single s) => T' = if decide (s = slot) then delete a T else T
      | Some (LoadBalancedTarget _) => T' = T \/ T' = delete a T
      end
  | Lookup a => fun r T' => T' = T /\
      (concrete a -> forall t, r = Some t <-> routed T a t)
  | HasRoute a => fun r T' => T' = T /\
      (concrete a -> r = true <-> exists t, routed T a t)
  | HasLocal a => fun r T' => T' = T /\
      (r = true <-> concrete a /\ is_Some (T !! a))
  end.

Definition prog_on_table {A} T (p : prog A) T' (p' : prog A) : Prop :=
  match p with
  | Return _ _ => False
  | Call _ c k => exists r, on_table c T r T' /\ p' = k r
  end.

(** The table of a snapshot. *)
Record abstracts i T : Prop := {
  abs_wf : inner_wf i;
  abs_route p t : T !! p = Some t <-> route i p t;
  abs_plain p : is_Some (T !! p) -> plain_address p;
}.

End Spec.

Arguments Return {D A} a.
Arguments Call {D A R} c k.
