(* ===== verification/Dispatcher.v ===== *)
(** * Dispatcher: the background task of a load-balanced group

    The task [LoadBalancedGroup::new] spawns (src/src/broker_core/registry/load_balanced_group.rs).
    Its two nested loops are a state machine over the positions [dispatcher_at]; each step ends
    where the next [.await] or the next delivery begins. *)

From S2P Require Import Prelude.
From S2P Require Import Protocol.
From S2P Require Import ChanIface.
From S2P Require Import Async.
From S2P Require Import Registry.
From S2P Require Import World.
From S2P Require Import Channel.
From S2P Require Import Routing.
From S2P Require Import RegistryOps.

Local Open Scope broker_scope.

Section Dispatcher.
Context {D : Deps}.
Implicit Types (w : World) (env : dispatcher_env).

(** Dropping the receiver of requests drops the tokens queued in it. *)
Definition drop_req_receiver (k : req_id) w : World :=
  match reqs w !! k with
  | Some c => foldr (on_oneshot oneshot_drop_sender) (on_req mpsc_drop_receiver k w)
                (queue (mpsc_look c))
  | None => w
  end.

(** What the task owns is dropped when it ends or is aborted: the two receivers, and the reply
    token it holds. *)
Definition dispatcher_drop env (at_ : dispatcher_at) w : World :=
  let w := match at_ with
           | WaitMessage reply_tx | Deliver reply_tx _ =>
               on_oneshot oneshot_drop_sender reply_tx w
           | _ => w
           end in
  drop_req_receiver (req_rx env) (on_chan mpsc_drop_receiver (main_receiver env) w).

(** One round of the loop body; [None] when the task has ended. *)
Definition dispatcher_step env (at_ : dispatcher_at) : proc World (option dispatcher_at) :=
  match at_ with
  | WaitRequest =>
      let! r := Receiver_recv (M := oneshot_id) (req_rx env) in
      match r with
      | Some tx => Ret (Some (WaitMessage tx))
      | None => Ret (Some Finished)
      end
  | WaitMessage reply_tx =>
      let! r := Receiver_recv (M := Message) (main_receiver env) in
      match r with
      | Some m => Ret (Some (Deliver reply_tx m))
      | None =>
          let! _ := write (on_oneshot oneshot_drop_sender reply_tx) in
          Ret (Some Finished)
      end
  | Deliver reply_tx current_msg =>
      let! r := act (reply_send reply_tx current_msg) in
      match r with
      | Ok _ => Ret (Some WaitRequest)
      | Err msg => Ret (Some (WaitNext msg))
      end
  | WaitNext current_msg =>
      let! r := Receiver_recv (M := oneshot_id) (req_rx env) in
      match r with
      | Some next_reply_tx => Ret (Some (Deliver next_reply_tx current_msg))
      | None => Ret (Some WaitRequest)
      end
  | Finished =>
      let! _ := mark_removed (slot_for_drop env) in
      let! _ := unregister (address_for_task env) (slot_for_drop env) in
      let! _ := write (dispatcher_drop env Finished) in
      Ret None
  end.
End Dispatcher.
