(* ===== verification/Subscriber.v ===== *)
(** * Subscriber: receiving messages and ending subscriptions (src/src/client/subscriber.rs) *)

From S2P Require Import Prelude.
From S2P Require Import Protocol.
From S2P Require Import ChanIface.
From S2P Require Import Async.
From S2P Require Import Registry.
From S2P Require Import World.
From S2P Require Import Channel.
From S2P Require Import Routing.
From S2P Require Import RegistryOps.

Local Open Scope broker_scope.

(** How a [SubscriptionHandle] ends its subscription; the registry is the one of the [World]. *)
Inductive CleanupStrategy :=
| CleanupExclusive (slot : slot_id)
| CleanupLoadBalanced (group : group_id).

Record SubscriptionHandle := mkHandle {
  handle_address : bytes;
  cleanup : CleanupStrategy;
}.

Definition handle_new_exclusive (address : bytes) (slot : slot_id) : SubscriptionHandle :=
  {| handle_address := address; cleanup := CleanupExclusive slot |}.

Definition handle_new_load_balanced (address : bytes) (group : group_id) : SubscriptionHandle :=
  {| handle_address := address; cleanup := CleanupLoadBalanced group |}.

Definition new_push (rx : chan_id) (address : bytes) : Subscriber :=
  {| mode := Push rx; sub_address := address |}.

Definition new_pull (req_sender : req_id) (group : group_id) (address : bytes) : Subscriber :=
  {| mode := Pull req_sender group; sub_address := address |}.

Section Subscriber.
Context {D : Deps}.

Definition SubscriptionHandle_drop (h : SubscriptionHandle) : proc World unit :=
  match cleanup h with
  | CleanupExclusive slot =>
      let! _ := unregister (handle_address h) slot in
      Ret tt
  | CleanupLoadBalanced group => remove_consumer group
  end.

Definition Subscriber_recv (s : Subscriber) : proc World (option Message) :=
  match mode s with
  | Push rx => Receiver_recv (M := Message) rx
  | Pull req_sender _ =>
      let! r := RequestSender_request req_sender in
      match r with
      | Ok reply_rx =>
          let! m := owning (on_oneshot oneshot_drop_receiver reply_rx) (await (reply_recv reply_rx)) in
          Ret (match m with Ok m => Some m | Err _ => None end)
      | Err (mkSendError token) =>
          let! _ := write (on_oneshot oneshot_drop_sender token) in
          Ret None
      end
  end.

Definition Subscriber_try_recv (s : Subscriber) : proc World (result Message TryRecvError) :=
  match mode s with
  | Push rx => Receiver_try_recv (M := Message) rx
  | Pull _ _ => Ret (Err TryRecv_Empty)
  end.

(** Dropping a subscriber drops its receiver, or its reference to the request sender; the last
    reference drops the sender. *)
Definition Subscriber_drop (s : Subscriber) (w : World) : World :=
  match mode s with
  | Push rx => on_chan mpsc_drop_receiver rx w
  | Pull req group =>
      let w := on_group (on_strong Z.pred) group w in
      match groups w !! group with
      | Some g => if decide (req_strong g = 0%Z) then on_req mpsc_drop_sender req w else w
      | None => w
      end
  end.
End Subscriber.
