(* ===== verification/Transport.v ===== *)
(** * Transport: the transport interface and in-process delivery

    The traits [Endpoint] and [Transport] (src/src/broker_core/transport/mod.rs) as type classes,
    their provided methods, and [InMemoryEndpoint] and [InMemoryTransport]
    (src/src/broker_core/transport/in_memory.rs). *)

From S2P Require Import Prelude.
From S2P Require Import Utf8.
From S2P Require Import Protocol.
From S2P Require Import ChanIface.
From S2P Require Import Async.
From S2P Require Import Registry.
From S2P Require Import World.
From S2P Require Import Channel.
From S2P Require Import Routing.
From S2P Require Import RegistryOps.

Local Open Scope broker_scope.

(** ** Interfaces *)

Class Endpoint {D : Deps} (E : Type) := {
  endpoint_send : E -> Message -> proc World (result unit TransportError);
  endpoint_is_valid : E -> proc World bool;
}.

(** [ResolvedEndpoint<E>] is an [Arc<E>] of an immutable endpoint. *)
Record ResolvedEndpoint (E : Type) := mkResolved { resolved_inner : E }.
Arguments mkResolved {E}.
Arguments resolved_inner {E}.

Section Resolved.
Context {D : Deps} {E : Type} `{!Endpoint E}.

Definition ResolvedEndpoint_new (endpoint : E) : ResolvedEndpoint E := mkResolved endpoint.

Definition ResolvedEndpoint_send (ep : ResolvedEndpoint E) (message : Message) :=
  endpoint_send (resolved_inner ep) message.

Definition ResolvedEndpoint_is_valid (ep : ResolvedEndpoint E) : proc World bool :=
  endpoint_is_valid (resolved_inner ep).
End Resolved.

Class Transport {D : Deps} (T E : Type) `{!Endpoint E} := {
  resolve : T -> bytes -> proc World (result (ResolvedEndpoint E) TransportError);
  send_to : T -> ResolvedEndpoint E -> Message -> proc World (result unit TransportError);
  request_to : T -> ResolvedEndpoint E -> Message -> proc World (result Message TransportError);
  receive : T -> proc World (result Message TransportError);
  close : T -> proc World (result unit TransportError);
}.

(** The provided methods: the address is taken from the message. *)
Section Provided.
Context {D : Deps} {T E : Type} `{Transport T E}.

Definition address_str (message : Message) : result bytes TransportError :=
  map_err (fun _ => TransportProtocol InvalidAddressUtf8) (from_utf8 (address message)).

Definition Transport_send (transport : T) (message : Message)
    : proc World (result unit TransportError) :=
  match address_str message with
  | Err e => Ret (Err e)
  | Ok address =>
      let!? endpoint := resolve transport address in
      send_to transport endpoint message
  end.

Definition Transport_request (transport : T) (message : Message)
    : proc World (result Message TransportError) :=
  match address_str message with
  | Err e => Ret (Err e)
  | Ok address =>
      let!? endpoint := resolve transport address in
      request_to transport endpoint message
  end.
End Provided.

(** ** In-process delivery *)

(** [InMemoryEndpoint] is in World.v. The transport holds the registry of the [World]. *)
Inductive InMemoryTransport := mkInMemoryTransport.

Section InMemory.
Context {D : Deps}.

Definition InMemoryEndpoint_new (t : RouteTarget) : proc World InMemoryEndpoint :=
  let! v := read (RouteTarget_version t) in
  Ret {| target := t; cached_version := v |}.

Definition InMemoryEndpoint_send (ep : InMemoryEndpoint) (message : Message) :=
  RouteTarget_send (target ep) message.

(** [&&] checks liveness only when the version is the cached one. *)
Definition InMemoryEndpoint_is_valid (ep : InMemoryEndpoint) : proc World bool :=
  let! v := read (RouteTarget_version (target ep)) in
  if decide (v = cached_version ep) then
    let! closed := RouteTarget_is_closed (target ep) in
    Ret (negb closed)
  else Ret false.

#[export] Instance in_memory_endpoint : Endpoint InMemoryEndpoint :=
  {| endpoint_send := InMemoryEndpoint_send; endpoint_is_valid := InMemoryEndpoint_is_valid |}.

Definition InMemoryTransport_resolve (_ : InMemoryTransport) (address : bytes)
    : proc World (result (ResolvedEndpoint InMemoryEndpoint) TransportError) :=
  let! r := lookup address in
  match r with
  | Some channel =>
      let! ep := InMemoryEndpoint_new channel in
      Ret (Ok (ResolvedEndpoint_new ep))
  | None => Ret (Err (RecipientNotFound address))
  end.

Definition InMemoryTransport_send_to (_ : InMemoryTransport)
    (endpoint : ResolvedEndpoint InMemoryEndpoint) (message : Message) :=
  ResolvedEndpoint_send endpoint message.

Definition InMemoryTransport_request_to (_ : InMemoryTransport)
    (_ : ResolvedEndpoint InMemoryEndpoint) (_ : Message)
    : proc World (result Message TransportError) := Ret (Err Unsupported).

Definition InMemoryTransport_receive (_ : InMemoryTransport)
    : proc World (result Message TransportError) := Ret (Err ConnectionClosed).

Definition InMemoryTransport_close (_ : InMemoryTransport)
    : proc World (result unit TransportError) := Ret (Ok tt).

#[export] Instance in_memory_transport : Transport InMemoryTransport InMemoryEndpoint :=
  {| resolve := InMemoryTransport_resolve;
     send_to := InMemoryTransport_send_to;
     request_to := InMemoryTransport_request_to;
     receive := InMemoryTransport_receive;
     close := InMemoryTransport_close |}.
End InMemory.
