(* ===== verification/ReplyDispatcher.v ===== *)
(** * ReplyDispatcher: matching replies with the requests that wait for them
    (src/src/client/reply_dispatcher.rs)

    The map of waiters is behind a mutex held for one step at a time. [WaiterGuard::drop] removes
    the entry under its id. The listener task moves each reply to the waiter of its id. *)

From S2P Require Import Prelude.
From S2P Require Import Patterns.
From S2P Require Import Protocol.
From S2P Require Import ChanIface.
From S2P Require Import Async.
From S2P Require Import Registry.
From S2P Require Import World.
From S2P Require Import Channel.
From S2P Require Import Routing.
From S2P Require Import RegistryOps.
From S2P Require Import Subscriber.

Local Open Scope broker_scope.

Record WaiterGuard := mkGuard {
  guard_waiters : waiters_id;
  guard_id : bytes;
}.

(** [ReplyDispatcher]: the shared map and the listener task. *)
Record ReplyDispatcher := mkDispatcher {
  waiters : waiters_id;
  listener_task : task_id;
}.

Section ReplyDispatcher.
Context {D : Deps}.
Implicit Types (w : World) (message_id : bytes).

Definition waiter_map (k : waiters_id) w : gmap bytes oneshot_id :=
  default ∅ (waiter_maps w !! k).

(** The one-value channel is made first; when the id is taken both of its ends are dropped. *)
Definition WaiterGuard_new (k : waiters_id) message_id
    : proc World (result (WaiterGuard * oneshot_id) RegistryError) :=
  let! tx := new_oneshot in
  act (fun w =>
    match waiter_map k w !! message_id with
    | Some _ => (on_oneshot oneshot_drop_sender tx (on_oneshot oneshot_drop_receiver tx w),
                 Err WaiterAlreadyExists)
    | None => (on_waiters (<[message_id := tx]>) k w,
               Ok ({| guard_waiters := k; guard_id := message_id |}, tx))
    end).

(** Removing an entry drops the sender it holds. *)
Definition remove_entry (k : waiters_id) message_id w : World :=
  let w' := on_waiters (delete message_id) k w in
  match waiter_map k w !! message_id with
  | Some tx => on_oneshot oneshot_drop_sender tx w'
  | None => w'
  end.

Definition WaiterGuard_drop (g : WaiterGuard) w : World :=
  remove_entry (guard_waiters g) (guard_id g) w.

Definition ReplyDispatcher_new (subscriber : Subscriber) : proc World ReplyDispatcher :=
  let! k := new_waiter_map in
  let! t := spawn (ListenerTask subscriber k) in
  Ret {| waiters := k; listener_task := t |}.

(** The removal and the send happen under one lock of the map; a failed send is ignored, and a
    reply nobody waits for is dropped. *)
Definition deliver_reply (k : waiters_id) (response : Message) w : World :=
  let msg_id := message_id (header response) in
  let w' := on_waiters (delete msg_id) k w in
  match waiter_map k w !! msg_id with
  | Some sender => (reply_send sender response w').1
  | None => w'
  end.

(** One round of the listener's loop: whether it goes on. At the end of the task the subscriber
    is dropped. *)
Definition listener_step (subscriber : Subscriber) (k : waiters_id) : proc World bool :=
  let! r := Subscriber_recv subscriber in
  match r with
  | Some response =>
      let! _ := write (deliver_reply k response) in
      Ret true
  | None =>
      let! _ := write (Subscriber_drop subscriber) in
      Ret false
  end.

Definition register_waiter (d : ReplyDispatcher) message_id :=
  WaiterGuard_new (waiters d) message_id.

Definition remove_waiter (d : ReplyDispatcher) message_id w : World :=
  remove_entry (waiters d) message_id w.

(** The task is marked as aborted, then every waiter's sender is dropped. *)
Definition clear_waiters (k : waiters_id) w : World :=
  foldr (on_oneshot oneshot_drop_sender) (on_waiters (fun _ => ∅) k w)
    (map snd (map_to_list (waiter_map k w))).

Definition ReplyDispatcher_drop (d : ReplyDispatcher) : proc World unit :=
  let! _ := write (abort (listener_task d)) in
  write (clear_waiters (waiters d)).
End ReplyDispatcher.
