(* ===== verification/Publisher.v ===== *)
(** * Publisher: sending through a cached endpoint (src/src/client/publisher.rs)

    A publisher is generic in its transport and endpoint. Its cache is an [RwLock] in the shared
    store; the lock operations are steps, so that concurrent uses of one publisher interleave
    between them. *)

From S2P Require Import Prelude.
From S2P Require Import Patterns.
From S2P Require Import Config.
From S2P Require Import Protocol.
From S2P Require Import ChanIface.
From S2P Require Import Async.
From S2P Require Import Registry.
From S2P Require Import World.
From S2P Require Import Channel.
From S2P Require Import Routing.
From S2P Require Import RegistryOps.
From S2P Require Import Subscriber.
From S2P Require Import ReplyDispatcher.
From S2P Require Import Transport.

Local Open Scope broker_scope.

(** ** The lock operations of [parking_lot::RwLock] *)

Section RwLock.
Context {A : Type}.
Implicit Types l : rwlock A.

Definition rw_read l : option (rwlock A) :=
  if rw_writer l then None
  else Some (mkRwLock (rw_value l) (S (rw_readers l)) (rw_upgradable l) false).
Definition rw_read_unlock l : rwlock A :=
  mkRwLock (rw_value l) (pred (rw_readers l)) (rw_upgradable l) (rw_writer l).
Definition rw_upgradable_read l : option (rwlock A) :=
  if rw_writer l || rw_upgradable l then None
  else Some (mkRwLock (rw_value l) (rw_readers l) true false).
Definition rw_upgradable_unlock l : rwlock A :=
  mkRwLock (rw_value l) (rw_readers l) false (rw_writer l).
Definition rw_upgrade l : option (rwlock A) :=
  if decide (rw_readers l = 0%nat) then Some (mkRwLock (rw_value l) 0 false true) else None.
Definition rw_write l : option (rwlock A) :=
  if rw_writer l || rw_upgradable l then None else rw_upgrade l.
Definition rw_write_unlock l : rwlock A :=
  mkRwLock (rw_value l) (rw_readers l) (rw_upgradable l) false.
Definition rw_set (x : A) l : rwlock A :=
  mkRwLock x (rw_readers l) (rw_upgradable l) (rw_writer l).
Definition rw_new (x : A) : rwlock A := mkRwLock x 0 false false.
End RwLock.

(** The store of caches of endpoints [E]. *)
Class Caches {D : Deps} (E : Type) := {
  get_caches : World -> gmap cache_id (rwlock (option E));
  put_caches : gmap cache_id (rwlock (option E)) -> World -> World;
}.

#[export] Instance in_memory_caches {D : Deps} : Caches InMemoryEndpoint :=
  {| get_caches := caches; put_caches := set_caches |}.

(** ** Definitions *)

Record Publisher (T : Type) := mkPublisher {
  address : bytes;
  transport : T;
  reply_address : bytes;
  reply_dispatcher : ReplyDispatcher;
  broker_config : BrokerConfig;
  cached_endpoint : cache_id;
}.
Arguments mkPublisher {T}.
Arguments address {T}.
Arguments transport {T}.
Arguments reply_address {T}.
Arguments reply_dispatcher {T}.
Arguments broker_config {T}.
Arguments cached_endpoint {T}.

(** Both [request] methods set the transfer mode to [InOut], and the reply address to the
    caller's own. *)
Definition force_in_out (message : Message) (reply_to : bytes) : Message :=
  let h := header message in
  {| header := {| version := version h;
                  flags := Z.lor (Z.land (flags h) (Z.lxor TRANSFER_MODE_MASK 255)) (to_flags InOut);
                  priority := priority h; session_token := session_token h;
                  message_id := message_id h; sub_message_id := sub_message_id h;
                  ttl := ttl h; msg_type_len := msg_type_len h; address_len := address_len h;
                  payload_len := payload_len h |};
     msg_type := msg_type message; Protocol.address := Protocol.address message;
     Protocol.reply_to := reply_to; payload := payload message |}.

Section Reply.
Context {D : Deps}.

(** Awaiting the reply end of a waiter under [tokio::time::timeout]. *)
Definition await_reply (timeout : Z) (receiver : oneshot_id)
    : proc World (result Message TransportError) :=
  let! deadline := read (fun w => (now w + timeout)%Z) in
  await (fun w =>
    let polled := reply_recv receiver w in
    let w' := match polled with Some (w', _) => w' | None => w end in
    r ← timeout_poll deadline (now w) (snd <$> polled);
    Some (w', match r with
              | Ok (Ok response) => Ok response
              | Ok (Err _) => Err ConnectionClosed
              | Err _ => Err TransportTimeout
              end)).

(** The waiter's guard and reply end go out of scope together. *)
Definition drop_waiter (g : WaiterGuard) (receiver : oneshot_id) (_ : bool) (w : World) : World :=
  WaiterGuard_drop g (on_oneshot oneshot_drop_receiver receiver w).

(** What both [request] methods do with the message, given how it is sent. *)
Definition request_with (d : ReplyDispatcher) (timeout : Z) (message_id : bytes)
    (send_it : proc World (result unit TransportError))
    : proc World (result Message TransportError) :=
  let! registered := register_waiter d message_id in
  match registered with
  | Err e => Ret (Err (TransportRegistry e))
  | Ok (guard, receiver) =>
      guarded (drop_waiter guard receiver) (
        let!? _ := send_it in
        await_reply timeout receiver)
  end.
End Reply.

Section Publisher.
Context {D : Deps} {T E : Type} `{Transport T E} `{!Caches E}.
Implicit Types (self : Publisher T) (k : cache_id) (w : World).

Definition Publisher_new (address : bytes) (transport : T) (reply_address : bytes)
    (reply_dispatcher : ReplyDispatcher) (broker_config : BrokerConfig)
    : proc World (Publisher T) :=
  let! k := alloc (fun k w => put_caches (<[k := rw_new None]> (get_caches w)) w) in
  Ret (mkPublisher address transport reply_address reply_dispatcher broker_config k).

(** An operation of the lock, waiting while it cannot be taken. *)
Definition cache_lock k (f : rwlock (option E) -> option (rwlock (option E))) : proc World unit :=
  block (fun w => l ← get_caches w !! k; l' ← f l;
    Some (put_caches (<[k := l']> (get_caches w)) w, tt)).

Definition cache_update k (f : rwlock (option E) -> rwlock (option E)) : proc World unit :=
  write (fun w => put_caches (alter f k (get_caches w)) w).

(** The cached endpoint, when it is valid. *)
Definition valid_cached k : proc World (option (ResolvedEndpoint E)) :=
  let! cached := read (fun w => get_caches w !! k ≫= rw_value) in
  match cached with
  | Some ep =>
      let! valid := ResolvedEndpoint_is_valid (ResolvedEndpoint_new ep) in
      Ret (if valid : bool then Some (ResolvedEndpoint_new ep) else None)
  | None => Ret None
  end.

Definition get_or_resolve_endpoint self
    : proc World (result (ResolvedEndpoint E) TransportError) :=
  let k := cached_endpoint self in
  let! _ := cache_lock k rw_read in
  let! fast := valid_cached k in
  let! _ := cache_update k rw_read_unlock in
  match fast with
  | Some ep => Ret (Ok ep)
  | None =>
      let!? resolved_ep := resolve (transport self) (address self) in
      let! _ := cache_lock k rw_upgradable_read in
      let! updated := valid_cached k in
      match updated with
      | Some ep =>
          let! _ := cache_update k rw_upgradable_unlock in
          Ret (Ok ep)
      | None =>
          let! _ := cache_lock k rw_upgrade in
          let! updated := valid_cached k in
          match updated with
          | Some ep =>
              let! _ := cache_update k rw_write_unlock in
              Ret (Ok ep)
          | None =>
              let! _ := cache_update k (rw_set (Some (resolved_inner resolved_ep))) in
              let! _ := cache_update k rw_write_unlock in
              Ret (Ok resolved_ep)
          end
      end
  end.

Definition invalidate_cache self : proc World unit :=
  let k := cached_endpoint self in
  let! _ := cache_lock k rw_write in
  let! _ := cache_update k (rw_set None) in
  cache_update k rw_write_unlock.

(** Sending to an endpoint; a closed connection empties the cache. *)
Definition send_or_invalidate self (ep : ResolvedEndpoint E) (message : Message)
    : proc World (result unit TransportError) :=
  let! r := send_to (transport self) ep message in
  match r with
  | Err ConnectionClosed =>
      let! _ := invalidate_cache self in
      Ret r
  | _ => Ret r
  end.

Definition Publisher_send self (message : Message) : proc World (result unit TransportError) :=
  let!? ep := get_or_resolve_endpoint self in
  send_or_invalidate self ep message.

Definition Publisher_request self (message : Message)
    : proc World (result Message TransportError) :=
  let!? ep := get_or_resolve_endpoint self in
  request_with (reply_dispatcher self) (request_timeout (broker_config self))
    (message_id (header message))
    (send_or_invalidate self ep (force_in_out message (reply_address self))).
End Publisher.
