(* ===== verification/Client.v ===== *)
(** * Client: [BrokerClient] and [Broker] (src/src/client/mod.rs, src/src/broker/mod.rs)

    The operations a component calls: creating a client, subscribing under either policy, making
    a publisher, sending, and requests with a reply. *)

From S2P Require Import Prelude.
From S2P Require Import Patterns.
From S2P Require Import Config.
From S2P Require Import Protocol.
From S2P Require Import ChanIface.
From S2P Require Import Async.
From S2P Require Import Registry.
From S2P Require Import World.
From S2P Require Import Channel.
From S2P Require Import Routing.
From S2P Require Import RegistryOps.
From S2P Require Import Subscriber.
From S2P Require Import ReplyDispatcher.
From S2P Require Import Transport.
From S2P Require Import Publisher.

Local Open Scope broker_scope.

(** ** Definitions *)

(** [BrokerError] (src/src/error.rs). *)
Inductive BrokerError :=
| ChannelClosed (m : Message)
| ChannelFull (m : Message)
| RequestClosed
| BrokerRegistryError (e : RegistryError)
| BrokerProtocolError (e : ProtocolError).

(** The broker's configuration; its registry is the one of the [World]. *)
Record Broker := mkBroker { config : BrokerConfig }.

Record BrokerClient := mkClient {
  broker : Broker;
  local : InMemoryTransport;
  client_address : bytes;
  reply_handle : SubscriptionHandle;
  client_dispatcher : ReplyDispatcher;
}.

Definition REQ_CAPACITY : Z := 1000.

Section Client.
Context {D : Deps}.
Implicit Types (self : BrokerClient) (w : World).

(** [Broker::new]: the configuration, and the empty registry. *)
Definition Broker_new (config : BrokerConfig) : Broker * World := (mkBroker config, World_new).

Definition Broker_default_config : BrokerConfig := BrokerConfig_default.

Definition Broker_default : Broker * World := Broker_new BrokerConfig_default.

(** What goes when a registration is refused: the new slot with its sender, and the receiver. *)
Definition drop_unregistered (slot : slot_id) (receiver : chan_id) w : World :=
  on_chan mpsc_drop_receiver receiver (store_sender None slot w).

(** The exclusive registration [BrokerClient::new] and [subscribe] share. *)
Definition register_exclusive (capacity : Z) (address : bytes)
    : proc World (result (slot_id * chan_id) RegistryError) :=
  let! ch := create_channel capacity in
  let! slot := SubscriptionSlot_new ch in
  let! r := register address (new_exclusive slot) in
  match r with
  | Ok _ => Ret (Ok (slot, ch))
  | Err e =>
      let! _ := write (drop_unregistered slot ch) in
      Ret (Err e)
  end.

Definition BrokerClient_new (b : Broker) (config : ClientConfig) (address : bytes)
    : proc World (result BrokerClient RegistryError) :=
  let!? registered := register_exclusive (reply_channel_capacity config) address in
  let '(reply_slot, receiver) := registered in
  let! dispatcher := ReplyDispatcher_new (new_push receiver address) in
  Ret (Ok {| broker := b; local := mkInMemoryTransport; client_address := address;
             reply_handle := handle_new_exclusive address reply_slot;
             client_dispatcher := dispatcher |}).

Definition Broker_client (b : Broker) (config : ClientConfig) (address : bytes)
    : proc World (result BrokerClient BrokerError) :=
  let! r := BrokerClient_new b config address in
  Ret (map_err BrokerRegistryError r).

(** The fields are dropped in order; the dispatcher goes with its last reference, which a
    publisher of the client may still hold. *)
Definition BrokerClient_drop self (last_reference : bool) : proc World unit :=
  let! _ := SubscriptionHandle_drop (reply_handle self) in
  if last_reference then ReplyDispatcher_drop (client_dispatcher self) else Ret tt.

(** The closure [subscribe] passes to [get_existing_or_register]. *)
Definition group_factory (channel_capacity : Z) (address : bytes)
    : proc World (result RouteTarget RegistryError) :=
  let! ch := create_channel channel_capacity in
  let! slot := SubscriptionSlot_new ch in
  let! target := new_load_balanced slot ch REQ_CAPACITY address in
  Ret (Ok target).

Definition subscribe_exclusive (address : bytes) (channel_capacity : Z)
    : proc World (result (Subscriber * SubscriptionHandle) RegistryError) :=
  let!? registered := register_exclusive channel_capacity address in
  let '(slot, receiver) := registered in
  Ret (Ok (new_push receiver address, handle_new_exclusive address slot)).

Definition subscribe_load_balanced (address : bytes) (channel_capacity : Z)
    : proc World (result (Subscriber * SubscriptionHandle) RegistryError) :=
  let!? r := get_existing_or_register address (group_factory channel_capacity address) in
  let target := match r with Registered t => t | AlreadyExists t => t end in
  match load_balanced_group target with
  | None => Ret (Err (PolicyMismatch address))
  | Some group =>
      let! req_sender := LoadBalancedGroup_subscribe group in
      Ret (Ok (new_pull req_sender group address, handle_new_load_balanced address group))
  end.

Definition subscribe (address : bytes) (config : SubscriberConfig)
    : proc World (result (Subscriber * SubscriptionHandle) RegistryError) :=
  match routing_policy config with
  | Exclusive => subscribe_exclusive address (channel_capacity config)
  | LoadBalanced => subscribe_load_balanced address (channel_capacity config)
  end.

Definition BrokerClient_publisher self (address : bytes)
    : proc World (Publisher InMemoryTransport) :=
  Publisher_new address (local self) (client_address self) (client_dispatcher self)
    (config (broker self)).

Definition BrokerClient_send self (message : Message) : proc World (result unit TransportError) :=
  Transport_send (local self) message.

Definition BrokerClient_request self (message : Message)
    : proc World (result Message TransportError) :=
  request_with (client_dispatcher self) (request_timeout (config (broker self)))
    (message_id (header message))
    (Transport_send (local self) (force_in_out message (client_address self))).
End Client.
