(* ===== verification/Runtime.v ===== *)
(** * Runtime: threads, spawned tasks and time

    The tokio runtime as a step relation. A configuration is the shared state, the computations
    that run on threads, and the rounds of tasks that are under way. A spawned task starts a round
    when its first step is enabled; a task marked as aborted is dropped instead at its next
    [.await], which is where a round starts, except where the source has none ([at_await]). Time
    passes in steps of any length.

    [code_over] describes the programs threads run: anything that uses the broker through its
    public functions only, choosing each call by the results of the earlier ones, and dropping
    what it awaits whenever it likes; [client_code] is all of them. *)

From S2P Require Import Prelude.
From S2P Require Import Protocol.
From S2P Require Import ChanIface.
From S2P Require Import Async.
From S2P Require Import Registry.
From S2P Require Import World.
From S2P Require Import Channel.
From S2P Require Import Routing.
From S2P Require Import RegistryOps.
From S2P Require Import Dispatcher.
From S2P Require Import Subscriber.
From S2P Require Import ReplyDispatcher.
From S2P Require Import Transport.
From S2P Require Import Publisher.
From S2P Require Import Client.
From S2P Require Import Config.
From S2P Require Import Patterns.

Local Open Scope broker_scope.

Section Runtime.
Context {D : Deps}.
Implicit Types (w : World).

(** One round of a task: the state of its next round, or [None] at its end. *)
Definition task_round (t : task_state) : proc World (option task_state) :=
  match t with
  | DispatcherTask env at_ =>
      let! r := dispatcher_step env at_ in
      Ret (DispatcherTask env <$> r)
  | ListenerTask subscriber k =>
      let! go_on := listener_step subscriber k in
      Ret (if go_on : bool then Some t else None)
  end.

(** What an aborted task drops. *)
Definition task_drop (t : task_state) w : World :=
  match t with
  | DispatcherTask env at_ => dispatcher_drop env at_ w
  | ListenerTask subscriber _ => Subscriber_drop subscriber w
  end.

(** An aborted task is dropped at its next [.await]. The dispatcher has none between taking a
    message and handing it over, nor after its loop. *)
Definition at_await (t : task_state) : bool :=
  match t with DispatcherTask _ (Deliver _ _ | Finished) => false | _ => true end.

Record config := mkConfig {
  world : World;
  threads : list (proc World unit);
  rounds : gmap task_id (proc World (option task_state));
}.

(** What a finished round leaves. *)
Definition end_round (k : task_id) (r : option task_state) w : World :=
  match r with
  | Some t => set_tasks (alter (fun x => mkTask t (aborted x)) k (tasks w)) w
  | None => set_tasks (delete k (tasks w)) w
  end.

Inductive runtime_step : config -> config -> Prop :=
| thread_step w ts rs i d f w' p' :
    ts !! i = Some (Act d f) -> f w = Some (w', p') ->
    runtime_step (mkConfig w ts rs) (mkConfig w' (<[i := p']> ts) rs)
| round_start w ts rs k x d f w' p' :
    tasks w !! k = Some x -> rs !! k = None -> aborted x && at_await (state x) = false ->
    task_round (state x) = Act d f -> f w = Some (w', p') ->
    runtime_step (mkConfig w ts rs) (mkConfig w' ts (<[k := p']> rs))
| round_step w ts rs k d f w' p' :
    rs !! k = Some (Act d f) -> f w = Some (w', p') ->
    runtime_step (mkConfig w ts rs) (mkConfig w' ts (<[k := p']> rs))
| round_end w ts rs k r :
    rs !! k = Some (Ret r) ->
    runtime_step (mkConfig w ts rs) (mkConfig (end_round k r w) ts (delete k rs))
| round_panic w ts rs k x :
    rs !! k = Some Panic -> tasks w !! k = Some x ->
    runtime_step (mkConfig w ts rs)
      (mkConfig (task_drop (state x) (end_round k None w)) ts (delete k rs))
| task_cancel w ts rs k x :
    tasks w !! k = Some x -> rs !! k = None -> aborted x && at_await (state x) = true ->
    runtime_step (mkConfig w ts rs)
      (mkConfig (task_drop (state x) (end_round k None w)) ts rs)
| time_passes w ts rs d :
    (0 <= d)%Z ->
    runtime_step (mkConfig w ts rs) (mkConfig (set_now (now w + d)%Z w) ts rs).

(** The public methods a caller awaits. *)
Inductive async_call : forall {A : Type}, proc World A -> Prop :=
| call_recv s : async_call (Subscriber_recv s)
| call_send self m : async_call (BrokerClient_send self m)
| call_request self m : async_call (BrokerClient_request self m)
| call_publisher_send (p : Publisher InMemoryTransport) m : async_call (Publisher_send p m)
| call_publisher_request (p : Publisher InMemoryTransport) m : async_call (Publisher_request p m).

(** [tokio::time::timeout(duration, p)] of a caller: [p] is polled first, and dropped when it is
    pending after the deadline. *)
Definition with_timeout {A} (duration : Z) (p : proc World A) : proc World (option A) :=
  let! deadline := read (fun w => (now w + duration)%Z) in
  abandon (fun w ready =>
    negb ready && match timeout_poll (A := A) deadline (now w) None with
                  | Some _ => true
                  | None => false
                  end) p.

(** Programs over the public interface of the crate. A caller may drop the future of a method it
    awaits, for any reason, as with a timeout or in a [select!]. Keys are numbers, so that a program
    could register a target it made up; those it may make up satisfy [made_up]. *)
Inductive code_over (made_up : RouteTarget -> Prop) : forall {A : Type}, proc World A -> Prop :=
| code_ret {A} (a : A) : code_over made_up (Ret a)
| code_panic {A} : code_over made_up (Panic (A := A))
| code_bind {A B} (p : proc World A) (k : A -> proc World B) :
    code_over made_up p -> (forall a, code_over made_up (k a)) -> code_over made_up (bind p k)
| code_client b c a : code_over made_up (Broker_client b c a)
| code_client_drop self x : code_over made_up (BrokerClient_drop self x)
| code_subscribe a c : code_over made_up (subscribe a c)
| code_handle_drop h : code_over made_up (SubscriptionHandle_drop h)
| code_recv s : code_over made_up (Subscriber_recv s)
| code_try_recv s : code_over made_up (Subscriber_try_recv s)
| code_subscriber_drop s : code_over made_up (write (Subscriber_drop s))
| code_send self m : code_over made_up (BrokerClient_send self m)
| code_request self m : code_over made_up (BrokerClient_request self m)
| code_publisher self a : code_over made_up (BrokerClient_publisher self a)
| code_publisher_send (p : Publisher InMemoryTransport) m : code_over made_up (Publisher_send p m)
| code_publisher_request (p : Publisher InMemoryTransport) m : code_over made_up (Publisher_request p m)
| code_abandon {A} stop (p : proc World A) : async_call p -> code_over made_up (abandon stop p)
| code_register a t : made_up t -> code_over made_up (register a t)
| code_join a n : code_over made_up (get_existing_or_register a (group_factory n a))
| code_unregister a slot : code_over made_up (unregister a slot)
| code_lookup a : code_over made_up (lookup a)
| code_has_route a : code_over made_up (has_route a)
| code_has_local a : code_over made_up (has_local a)
| code_now {A} (f : Z -> A) : code_over made_up (read (fun w => f (now w))).

(** All of them: a program may register whatever it likes. *)
Abbreviation client_code := (code_over (fun _ => True)).

Lemma with_timeout_code {A} duration (p : proc World A) :
  async_call p -> client_code (with_timeout duration p).
Proof.
  intros Hp. apply code_bind; [apply (code_now _ (fun t => (t + duration)%Z))|].
  intros deadline. by apply code_abandon.
Qed.

(** A broker just started, and the programs that will use it. *)
Definition started (programs : list (proc World unit)) : config := mkConfig World_new programs ∅.

(** The states a broker reaches under programs of that kind. *)
Definition reachable_over (made_up : RouteTarget -> Prop) (c : config) : Prop :=
  exists programs, Forall (code_over made_up) programs /\ rtc runtime_step (started programs) c.

Definition reachable : config -> Prop := reachable_over (fun _ => True).
End Runtime.

Abbreviation client_code := (code_over (fun _ => True)).
