(* ===== verification/Simulate.v ===== *)
(** * Simulate: computations that do what abstract programs do, one visible step at a time

    [view] is the part of the shared state a specification speaks of, [gstep] the steps of the
    specification of one computation, whose state is a ghost. [follows] says that each step of a
    computation is silent or a step of its ghost, that it keeps the invariant [inv] of the shared
    state and the private parts ([own]) of the others, that it waits only where its ghost
    [waits], and that it ends with what the ghost ends with; where its ghost is [lost] it may do
    anything. In a pool of such computations every execution is an execution of the ghosts, as
    long as none of these can get lost, and where the pool is stuck, the ghosts are done or wait.
    Every execution of a pool is finite ([pool_terminates]). *)

From S2P Require Import Prelude.
From S2P Require Import Async.
From S2P Require Import Mutex.

Local Open Scope broker_scope.

(** ** Executions of a pool are finite *)

(** [p'] is what is left of [p] after some step. *)
Definition rest_of {S A} (p' p : proc S A) : Prop :=
  exists d f s s', p = Act d f /\ f s = Some (s', p').

Lemma rest_of_wf {S A} : well_founded (@rest_of S A).
Proof.
  intros p. induction p as [a| |d f IH] using proc_ind'; constructor;
    intros q (d' & g & s & s' & E & Hq);
    [done..|]. injection E as -> ->. by eapply IH.
Qed.

(** One element of a list is replaced by a smaller one. *)
Definition list_rel {A} (R : relation A) (l' l : list A) : Prop :=
  exists i x y, l !! i = Some x /\ R y x /\ l' = <[i := y]> l.

Lemma list_rel_wf {A} (R : relation A) : well_founded R -> well_founded (list_rel R).
Proof.
  intros HR l. induction l as [|x l IH].
  { constructor. intros l' (i & x & y & Hi & _). done. }
  induction (HR x) as [x _ IHx] in l, IH |- *. induction IH as [l Hl IHl].
  constructor. intros l' ([|i] & z & y & Hi & Hy & ->).
  - injection Hi as <-. by apply IHx; [|constructor].
  - apply IHl. by exists i, z, y.
Qed.

(** No scheduler can keep a pool running forever. *)
Lemma pool_terminates {S A} (c : S * list (proc S A)) : Acc (fun c' c => pool_step c c') c.
Proof.
  destruct c as [s ps]. revert s. induction (list_rel_wf _ rest_of_wf ps) as [ps _ IH]. intros s.
  constructor. intros c' Hst. inversion Hst as [? ? i d f s' p' Hi Hf]; subst. apply IH.
  exists i, (Act d f), p'. split_and!; [done| |done]. by exists d, f, s, s'.
Qed.

(** Whether some computation of a pool can go on. *)
Lemma pool_can_step {S A} (s : S) (ps : list (proc S A)) :
  (exists c', pool_step (s, ps) c') \/ forall c', ~ pool_step (s, ps) c'.
Proof.
  enough ((exists i d f s' p', ps !! i = Some (Act d f) /\ f s = Some (s', p')) \/
    forall i d f, ps !! i = Some (Act d f) -> f s = None) as [(i & d & f & s' & p' & Hi & Hf)|Hno].
  - left. eexists. by eapply pool_act.
  - right. intros c' Hst. inversion Hst as [? ? i d f s' p' Hi Hf]; subst.
    by rewrite (Hno i d f Hi) in Hf.
  - induction ps as [|p ps IH]; [by right|].
    destruct IH as [(i & d & f & s' & p' & Hi & Hf)|Hno];
      [left; by exists (Datatypes.S i), d, f, s', p'|].
    destruct p as [a| |d f].
    + right. intros [|i] d f Hi; [done|by eapply Hno].
    + right. intros [|i] d f Hi; [done|by eapply Hno].
    + destruct (f s) as [[s' p']|] eqn:Hf; [left; by exists 0%nat, d, f, s', p'|].
      right. intros [|i] d' f' Hi; [by simplify_eq/=|by eapply Hno].
Qed.

(** So every pool comes to where nobody can go on. *)
Lemma pool_settles {S A} (c : S * list (proc S A)) :
  exists c', rtc pool_step c c' /\ forall c'', ~ pool_step c' c''.
Proof.
  induction (pool_terminates c) as [[s ps] _ IH]. destruct (pool_can_step s ps) as [[c1 Hc1]|Hno].
  - destruct (IH c1 Hc1) as (c' & Hr & Hst). exists c'. split; [by eapply rtc_l|done].
  - by exists (s, ps).
Qed.

(** ** Simulation *)

Section Simulate.
Context {S V G Y : Type} (inv : S -> Prop) (view : S -> V) (own : nat -> S -> Y).
Context (gstep : V -> G -> V -> G -> Prop) (waits lost : V -> G -> Prop).
Implicit Types (s : S) (g : G) (y : Y).

(** [y] is the private part of this computation, number [i]. *)
Fixpoint follows {A} (i : nat) (Q : A -> G -> Y -> Prop) (p : proc S A) g y : Prop :=
  match p with
  | Ret a => Q a g y
  | Panic => False
  | Act _ f => forall s1, inv s1 -> own i s1 = y -> ~ lost (view s1) g ->
      match f s1 with
      | Some (s2, p') =>
          inv s2 /\ (forall j, j <> i -> own j s2 = own j s1) /\
          exists g', (view s2 = view s1 /\ g' = g \/ gstep (view s1) g (view s2) g') /\
            follows i Q p' g' (own i s2)
      | None => waits (view s1) g
      end
  end.

Lemma follows_bind {A B} i (Q : A -> G -> Y -> Prop) (R : B -> G -> Y -> Prop) p
    (k : A -> proc S B) g y :
  follows i Q p g y -> (forall a g y, Q a g y -> follows i R (k a) g y) ->
  follows i R (bind p k) g y.
Proof.
  intros Hp Hk. revert g y Hp. induction p as [a| |d f IH] using proc_ind'; intros g y Hp;
    [by apply Hk|done|].
  cbn [bind follows] in *. intros s1 Hi Hy Hl. specialize (Hp s1 Hi Hy Hl).
  destruct (f s1) as [[s2 p']|] eqn:E; [|done]. destruct Hp as (? & ? & g' & ? & Hp).
  split_and!; [done..|]. exists g'. split; [done|]. by eapply IH.
Qed.

Lemma follows_mono {A} i (Q R : A -> G -> Y -> Prop) p g y :
  (forall a g y, Q a g y -> R a g y) -> follows i Q p g y -> follows i R p g y.
Proof.
  intros HQ. revert g y.
  induction p as [a| |d f IH] using proc_ind'; intros g y Hp; [by apply HQ|done|].
  cbn [follows] in *. intros s1 Hi Hy Hl. specialize (Hp s1 Hi Hy Hl).
  destruct (f s1) as [[s2 p']|] eqn:E; [|done]. destruct Hp as (? & ? & g' & ? & Hp).
  split_and!; [done..|]. exists g'. split; [done|]. by eapply IH.
Qed.

Lemma follows_owning {A} i (Q : A -> G -> Y -> Prop) d (p : proc S A) g y :
  follows i Q p g y -> follows i Q (owning d p) g y.
Proof.
  revert g y. induction p as [a| |d0 f IH] using proc_ind'; intros g y Hp; [done..|].
  cbn [owning follows] in *. intros s1 Hi Hy Hl. specialize (Hp s1 Hi Hy Hl).
  destruct (f s1) as [[s2 p']|] eqn:E; [|done]. destruct Hp as (? & ? & g' & ? & Hp).
  split_and!; [done..|]. exists g'. split; [done|]. by eapply IH.
Qed.

(** A guard whose drop is a last step. *)
Lemma follows_guarded {A} i (Q R : A -> G -> Y -> Prop) d (p : proc S A) g y :
  follows i Q p g y ->
  (forall a g y s, Q a g y -> inv s -> own i s = y ->
     inv (d false s) /\ (forall j, j <> i -> own j (d false s) = own j s) /\
     exists g', (view (d false s) = view s /\ g' = g \/ gstep (view s) g (view (d false s)) g') /\
       R a g' (own i (d false s))) ->
  follows i R (guarded d p) g y.
Proof.
  intros Hp Hd. revert g y Hp. induction p as [a| |d0 f IH] using proc_ind'; intros g y Hp.
  - intros s1 Hi Hy _. by apply (Hd a g y).
  - done.
  - cbn [guarded follows] in *. intros s1 Hi Hy Hl. specialize (Hp s1 Hi Hy Hl).
    destruct (f s1) as [[s2 p']|] eqn:E; [|done]. destruct Hp as (? & ? & g' & ? & Hp).
    split_and!; [done..|]. exists g'. split; [done|]. by eapply IH.
Qed.

(** Reading is silent. *)
Lemma follows_read {A} i (Q : A -> G -> Y -> Prop) (f : S -> A) g y :
  (forall s, inv s -> own i s = y -> Q (f s) g y) -> follows i Q (read f) g y.
Proof.
  intros Hf s1 Hi Hy _. cbn. split_and!; [done..|]. exists g. split; [by left|].
  rewrite Hy. by apply Hf.
Qed.

(** A step that is always enabled. *)
Lemma follows_act {A} i (Q : A -> G -> Y -> Prop) (f : S -> S * A) g y :
  (forall s, inv s -> own i s = y -> ~ lost (view s) g ->
     inv (f s).1 /\ (forall j, j <> i -> own j (f s).1 = own j s) /\
     exists g', (view (f s).1 = view s /\ g' = g \/ gstep (view s) g (view (f s).1) g') /\
       Q (f s).2 g' (own i (f s).1)) ->
  follows i Q (act f) g y.
Proof.
  intros Hf s1 Hi Hy Hl. specialize (Hf s1 Hi Hy Hl). unfold act. cbn. by destruct (f s1).
Qed.

(** ** Pools *)

Section Pool.
Context {A : Type} (Q : nat -> A -> G -> Prop).

Local Abbreviation ends i := (fun a g (_ : Y) => Q i a g).

Record pool_follows (c : S * list (proc S A)) (d : V * list G) : Prop := {
  pf_inv : inv c.1;
  pf_view : d.1 = view c.1;
  pf_len : length c.2 = length d.2;
  pf_each i p g :
    c.2 !! i = Some p -> d.2 !! i = Some g -> follows i (ends i) p g (own i c.1);
}.

Lemma pool_follows_step c d c' :
  pool_follows c d -> (forall i g, d.2 !! i = Some g -> ~ lost d.1 g) -> pool_step c c' ->
  exists d', pool_follows c' d' /\ (d' = d \/ ghost_step gstep d d').
Proof.
  intros Hc Hlost Hst. revert Hc Hlost. destruct Hst as [s ps i d0 f s' p' Hi Hf], d as [v gs].
  intros [Hinv Hv Hlen Heach] Hlost. simpl in *. subst v.
  destruct (lookup_lt_is_Some_2 gs i) as [g Hg]; [rewrite <-Hlen; by eapply lookup_lt_Some|].
  pose proof (Heach i _ g Hi Hg s Hinv eq_refl (Hlost i g Hg)) as Hp. rewrite Hf in Hp.
  destruct Hp as (Hinv' & Hown & g' & Hg' & Hp).
  exists (view s', <[i := g']> gs). split; [split; simpl|].
  - done.
  - done.
  - by rewrite !length_insert.
  - intros j q r. rewrite !list_lookup_insert_Some.
    intros [(<- & <- & _)|[Hji Hj]] [(Hij & <- & _)|[? Hr]]; try done.
    rewrite Hown by congruence. by apply Heach.
  - destruct Hg' as [[-> ->]|Hstep]; [left; by rewrite list_insert_id|right].
    by eapply ghost_step_at.
Qed.

(** An invariant [J] of the specification that excludes lost ghosts. *)
Lemma pool_follows_rtc (J : V * list G -> Prop) c d c' :
  (forall d d', J d -> ghost_step gstep d d' -> J d') ->
  (forall d i g, J d -> d.2 !! i = Some g -> ~ lost d.1 g) ->
  J d -> pool_follows c d -> rtc pool_step c c' -> exists d', pool_follows c' d' /\ J d'.
Proof.
  intros HJ Hlost Hd Hs Hr. revert d Hd Hs.
  induction Hr as [c|c1 c2 c3 H12 _ IH]; intros d Hd Hs; [by exists d|].
  destruct (pool_follows_step c1 d c2 Hs (fun i g => Hlost d i g Hd) H12) as (d2 & Hs2 & [->|Hd2]);
    [by apply (IH d)|]. apply (IH d2); [|done]. by eapply HJ.
Qed.

(** Where no computation can go on, each has ended or its ghost waits. *)
Lemma pool_follows_stuck c d i p g :
  pool_follows c d -> (forall c', ~ pool_step c c') -> ~ lost d.1 g ->
  c.2 !! i = Some p -> d.2 !! i = Some g ->
  (exists a, p = Ret a /\ Q i a g) \/ waits d.1 g.
Proof.
  intros [Hinv Hv _ Heach] Hstuck Hl Hp Hg. pose proof (Heach i p g Hp Hg) as Hf.
  destruct p as [a| |d0 f]; [left; by exists a|done|right].
  specialize (Hf c.1 Hinv eq_refl). rewrite <-Hv in Hf. specialize (Hf Hl).
  destruct (f c.1) as [[s' p']|] eqn:E; [|done].
  destruct c as [s ps]. destruct (Hstuck (s', <[i := p']> ps)). by eapply pool_act.
Qed.
Lemma pool_follows_ended s ps d i g :
  pool_follows (s, ps) d -> (forall c', ~ pool_step (s, ps) c') -> ~ lost d.1 g -> d.2 !! i = Some g ->
  (exists a, ps !! i = Some (Ret a) /\ Q i a g) \/ waits d.1 g.
Proof.
  intros Hf Hstuck Hl Hg. destruct (lookup_lt_is_Some_2 ps i) as [p Hi].
  { pose proof (pf_len _ _ Hf) as Hlen. simpl in Hlen. rewrite Hlen. by eapply lookup_lt_Some. }
  destruct (pool_follows_stuck _ _ i p g Hf Hstuck Hl Hi Hg) as [(a & -> & Ha)|Hw];
    [left; by exists a|by right].
Qed.
End Pool.
End Simulate.
