(* ===== verification/Delivery.v ===== *)
(** * Delivery: many senders and receivers on bounded lines, abstractly

    Producers with messages for several lines put them into the queues of these lines, one
    consumer per line takes them out, in any interleaving. A line is a queue with a count of sender
    handles, one of which is never dropped. Whatever happens is explained by one history of
    sends ([explains]); where nobody can go on, everything has been delivered ([delivered]). *)

From S2P Require Import Prelude.
From S2P Require Import Mutex.

Local Open Scope broker_scope.

(** ** Definitions *)

Section Delivery.
Context {M : Type}.
Implicit Types (i j n : nat) (m : M) (q : list M) (t : list (nat * M)).

(** A line: what is queued and how many sender handles there are. *)
Local Abbreviation line_view := (list M * nat)%type.

(** A producer has no handle, holds one with the message still in hand, or holds one with the
    message queued on line [j]; [todo] starts with the message in hand. A consumer has taken
    [got] and wants [want] more. *)
Inductive party :=
| Between (todo : list (nat * M))
| Holding (todo : list (nat * M))
| Queued (j : nat) (todo : list (nat * M))
| Consumer (j want : nat) (got : list M).

Inductive move : list line_view -> party -> list line_view -> party -> Prop :=
| move_grab v j m t :
    move v (Between ((j, m) :: t)) (alter (fun x => (x.1, S x.2)) j v) (Holding ((j, m) :: t))
| move_put v j m t :
    move v (Holding ((j, m) :: t)) (alter (fun x => (x.1 ++ [m], x.2)) j v) (Queued j t)
| move_release v j t :
    move v (Queued j t) (alter (fun x => (x.1, pred x.2)) j v) (Between t)
| move_take v j want got m q n : v !! j = Some (m :: q, n) ->
    move v (Consumer j (S want) got) (alter (fun _ => (q, n)) j v) (Consumer j want (got ++ [m])).

(** Where a party may wait: a producer at a line that is not empty, a consumer at one that is,
    while there are senders; without senders it is lost. *)
Definition waits (v : list line_view) (g : party) : Prop :=
  match g with
  | Holding ((j, _) :: _) => exists m q n, v !! j = Some (m :: q, n)
  | Consumer j (S _) _ => exists n, v !! j = Some ([], S n)
  | _ => False
  end.

Definition lost (v : list line_view) (g : party) : Prop :=
  match g with Consumer j (S _) _ => v !! j = Some ([], 0) | _ => False end.

Definition done_with (g : party) : Prop :=
  match g with Between [] => True | Consumer _ O _ => True | _ => False end.

(** ** Histories *)

Definition handles j (g : party) : nat :=
  match g with
  | Holding ((k, _) :: _) => if decide (k = j) then 1 else 0
  | Queued k _ => if decide (k = j) then 1 else 0
  | _ => 0
  end.

Definition unsent (g : party) : list (nat * M) :=
  match g with Between t | Holding t | Queued _ t => t | Consumer _ _ _ => [] end.

Definition owed j (g : party) : nat := length (labelled j (unsent g)).

(** What the history says of one party; the producers come first and have [jobs]. *)
Definition explained (jobs : list (list (nat * M))) (v : list line_view) (gs : list party)
    (h : list (nat * (nat * M))) i (g : party) : Prop :=
  match g with
  | Consumer j want got =>
      i = length jobs + j /\ exists q n, v !! j = Some (q, n) /\ got ++ q = labelled j h.*2 /\
        want + length got = length (labelled j h.*2) + sum_list_with (owed j) gs
  | _ => jobs !! i = Some (labelled i h ++ unsent g)
  end.

Record explains jobs (d : list line_view * list party) h : Prop := {
  ex_each i g : d.2 !! i = Some g -> explained jobs d.1 d.2 h i g;
  ex_handles j q n : d.1 !! j = Some (q, n) -> n = S (sum_list_with (handles j) d.2);
  ex_len : length d.2 = length jobs + length d.1;
  ex_from e : e ∈ h -> e.1 < length jobs;
}.

(** ** Lemmas *)

(** Parties that do not move themselves, when [extra] is sent. *)
Lemma explained_frame jobs v gs h v' gs' extra k (g : party) :
  explained jobs v gs h k g -> labelled k extra = [] ->
  (forall j q n, v !! j = Some (q, n) ->
     (k = length jobs + j -> exists n', v' !! j = Some (q ++ labelled j extra.*2, n')) /\
     length (labelled j extra.*2) + sum_list_with (owed j) gs' = sum_list_with (owed j) gs) ->
  explained jobs v' gs' (h ++ extra) k g.
Proof.
  intros Hg Hk Hv. unfold explained in *. destruct g as [t|t|j t|j want got];
    try by rewrite labelled_app, Hk, app_nil_r.
  destruct Hg as (Hi & q & n & Hj & Hh & Hw). split; [done|].
  destruct (Hv j q n Hj) as [Hv' Ho]. destruct (Hv' Hi) as [n' Hn'].
  exists (q ++ labelled j extra.*2), n'. split_and!; [done|..].
  - by rewrite app_assoc, Hh, fmap_app, labelled_app.
  - rewrite fmap_app, labelled_app, length_app. lia.
Qed.

(** A move of a producer, seen from the lines: it sends [extra] and owes that much less. *)
Definition produces (v : list line_view) (g : party) (v' : list line_view) (g' : party) i
    (extra : list (nat * (nat * M))) : Prop :=
  Forall (fun e => e.1 = i) extra /\ unsent g = extra.*2 ++ unsent g' /\ length v' = length v /\
  forall j, v' !! j =
    (fun x => (x.1 ++ labelled j extra.*2, x.2 + handles j g' - handles j g)) <$> v !! j.

Local Ltac by_lines :=
  split_and!; [by repeat constructor|done|by rewrite length_alter|]; let k := fresh in intros k;
  rewrite list_lookup_alter; case_decide; subst; destruct (_ !! _) as [[? ?]|]; simpl; try done;
  rewrite ?labelled_cons, ?decide_True, ?decide_False by done;
  simpl; repeat f_equal; rewrite ?app_nil_r; try done; lia.

Lemma move_produces v g v' g' i :
  move v g v' g' -> (forall j w got, g <> Consumer j w got) ->
  (forall j w got, g' <> Consumer j w got) /\ exists extra, produces v g v' g' i extra.
Proof.
  destruct 1 as [v j m t|v j m t|v j t|]; intros Hc; try by destruct (Hc _ _ _ eq_refl).
  all: split; [done|].
  - exists []. by_lines.
  - exists [(i, (j, m))]. by_lines.
  - exists []. by_lines.
Qed.
Lemma explains_produce jobs v gs h i g v' g' extra :
  explains jobs (v, gs) h -> gs !! i = Some g -> produces v g v' g' i extra ->
  (forall j w got, g <> Consumer j w got) -> (forall j w got, g' <> Consumer j w got) ->
  explains jobs (v', <[i := g']> gs) (h ++ extra).
Proof.
  intros [Heach Hh Hlen Hfrom] Hi (Hown & Hun & Hlen' & Hv) Hg Hg'. simpl in *.
  assert (forall j, length (labelled j extra.*2) + owed j g' = owed j g) as Ho.
  { intros j. unfold owed. by rewrite Hun, labelled_app, length_app. }
  pose proof (labelled_own i extra Hown) as Hsent.
  assert (jobs !! i = Some (labelled i h ++ unsent g)) as Hj.
  { pose proof (Heach i g Hi) as Hex. by destruct g; try destruct (Hg _ _ _ eq_refl). }
  split; simpl.
  - intros k gk. rewrite list_lookup_insert_Some. intros [(<- & <- & _)|[Hki Hk]].
    + assert (jobs !! i = Some (labelled i (h ++ extra) ++ unsent g')) as Hj'.
      { rewrite Hj, labelled_app, Hsent, decide_True, Hun by done. by rewrite app_assoc. }
      by destruct g'; try destruct (Hg' _ _ _ eq_refl).
    + apply (explained_frame jobs v gs); [by apply Heach|by rewrite Hsent, decide_False|].
      intros j q n Hq. split.
      * intros _. rewrite Hv, Hq. by eexists.
      * pose proof (sum_list_insert (owed j) gs i g g' Hi). specialize (Ho j). lia.
  - intros j q' n'. rewrite Hv. destruct (v !! j) as [[q n]|] eqn:Hq; [|done]. intros [= _ <-].
    pose proof (sum_list_insert (handles j) gs i g g' Hi).
    pose proof (sum_list_lookup (handles j) gs i g Hi).
    rewrite (Hh j q n Hq). simpl. lia.
  - by rewrite length_insert, Hlen', Hlen.
  - intros e [He|He]%elem_of_app; [by apply Hfrom|].
    rewrite list.Forall_forall in Hown. rewrite (Hown e He). by eapply lookup_lt_Some.
Qed.

Lemma explains_take jobs v gs h i j w got m q n :
  explains jobs (v, gs) h -> gs !! i = Some (Consumer j (S w) got) -> v !! j = Some (m :: q, n) ->
  explains jobs (alter (fun _ => (q, n)) j v, <[i := Consumer j w (got ++ [m])]> gs) h.
Proof.
  intros [Heach Hh Hlen Hfrom] Hi Hj. simpl in *.
  assert (forall f : party -> nat, f (Consumer j (S w) got) = f (Consumer j w (got ++ [m])) ->
    sum_list_with f (<[i := Consumer j w (got ++ [m])]> gs) = sum_list_with f gs) as Hsum.
  { intros f Hf. pose proof (sum_list_insert f gs i _ (Consumer j w (got ++ [m])) Hi). lia. }
  pose proof (Heach i _ Hi) as (Hpos & q1 & n1 & Hj1 & Hl & Hw). simplify_eq/=.
  split; simpl.
  - intros k gk. rewrite list_lookup_insert_Some. intros [(<- & <- & _)|[Hki Hk]].
    + split; [done|]. exists q, n. split_and!.
      * by rewrite list_lookup_alter_eq, Hj.
      * by rewrite <-app_assoc.
      * rewrite Hsum by done. rewrite length_app. simpl. lia.
    + rewrite <-(app_nil_r h). apply (explained_frame jobs v gs); [by apply Heach|done|].
      intros j' q' n' Hj'. split; [|by rewrite Hsum].
      intros ->. exists n'. rewrite list_lookup_alter_ne by congruence. by rewrite Hj', app_nil_r.
  - intros j' q' n'. rewrite Hsum by done. rewrite list_lookup_alter.
    case_decide as E; [subst|apply Hh].
    rewrite Hj. intros [= <- <-]. by eapply Hh.
  - by rewrite length_insert, length_alter.
  - done.
Qed.

(** Every execution is explained by a history that grows. *)
Lemma explains_step jobs d d' h :
  explains jobs d h -> ghost_step move d d' -> exists h', explains jobs d' h' /\ h `prefix_of` h'.
Proof.
  intros Hd Hst. destruct Hst as [v gs i g v' g' Hi Hm].
  destruct g as [t|t|j t|j want got].
  1-3: destruct (move_produces _ _ _ _ i Hm) as (Hg' & extra & Hp); [done|];
    exists (h ++ extra); (split; [by eapply explains_produce|by apply prefix_app_r]).
  exists h. split; [|done]. inversion Hm as [| | |? ? ? ? m q n Hj]; subst. by eapply explains_take.
Qed.

Lemma explains_not_lost jobs d h g : explains jobs d h -> ~ lost d.1 g.
Proof.
  intros Hd Hl. destruct g as [| | |j [|w] got]; try done. by pose proof (ex_handles _ _ _ Hd _ _ _ Hl).
Qed.

(** What some history explains. *)
Definition explainable jobs (d : list line_view * list party) : Prop := exists h, explains jobs d h.

Lemma explainable_step jobs d d' :
  explainable jobs d -> ghost_step move d d' -> explainable jobs d'.
Proof. intros [h Hd] Hst. destruct (explains_step _ _ _ _ Hd Hst) as (h' & ? & _). by exists h'. Qed.

Lemma explainable_not_lost jobs d i g : explainable jobs d -> d.2 !! i = Some g -> ~ lost d.1 g.
Proof. intros [h Hd] _. by eapply explains_not_lost. Qed.

(** Before anything has happened. *)
Definition starting (jobs : list (list (nat * M))) (lines : nat) : list party :=
  (Between <$> jobs) ++
  ((fun j => Consumer j (sum_list_with (fun t => length (labelled j t)) jobs) []) <$> seq 0 lines).

Lemma explains_start jobs lines :
  explains jobs (replicate lines ([], 1), starting jobs lines) [].
Proof.
  assert (forall f : party -> nat, (forall j w got, f (Consumer j w got) = 0) ->
    sum_list_with f (starting jobs lines) = sum_list_with (fun t => f (Between t)) jobs) as Hsum.
  { intros f Hf. unfold starting. rewrite sum_list_with_app.
    rewrite (sum_list_zero f (_ <$> seq 0 lines)).
    - rewrite Nat.add_0_r. clear. induction jobs as [|t jobs IH]; [done|].
      rewrite fmap_cons. cbn [sum_list_with]. by rewrite IH.
    - intros i x. rewrite list_lookup_fmap_Some. intros (j & -> & _). by rewrite Hf. }
  split; simpl.
  - intros i g. unfold starting. rewrite lookup_app_Some, list_lookup_fmap_Some.
    intros [(t & -> & Ht)|[Hi Hg]]; [exact Ht|].
    rewrite length_fmap in Hi, Hg. apply list_lookup_fmap_Some in Hg as (j & -> & Hj).
    apply lookup_seq in Hj as [-> Hj]. simpl. split; [lia|].
    exists [], 1. split_and!; [|done|].
    + apply lookup_replicate. split; [done|lia].
    + rewrite Hsum by done. apply Nat.add_0_r.
  - intros j q n [[= -> ->] _]%lookup_replicate. f_equal. symmetry. rewrite Hsum by done.
    by apply sum_list_zero.
  - unfold starting. by rewrite length_app, !length_fmap, length_seq, length_replicate.
  - by intros e He%elem_of_nil.
Qed.

(** ** Nobody can go on *)

Definition stuck (d : list line_view * list party) : Prop :=
  forall i g, d.2 !! i = Some g -> done_with g \/ waits d.1 g.

(** Each line has its consumer. *)
Lemma explains_line jobs d h j x :
  explains jobs d h -> d.1 !! j = Some x ->
  exists want got, d.2 !! (length jobs + j) = Some (Consumer j want got).
Proof.
  intros [Heach _ Hlen _] Hj. destruct (lookup_lt_is_Some_2 d.2 (length jobs + j)) as [g Hg].
  { apply lookup_lt_Some in Hj. lia. }
  pose proof (Heach _ _ Hg) as He.
  assert (jobs !! (length jobs + j) = None) as Hn by (apply lookup_ge_None; lia).
  destruct g as [t|t|k t|k want got]; simpl in He; try congruence.
  destruct He as [Hi _]. assert (k = j) as -> by lia. by exists want, got.
Qed.

Lemma stuck_empty jobs d h j q n :
  explains jobs d h -> stuck d -> d.1 !! j = Some (q, n) -> q = [].
Proof.
  intros Hd Hst Hj. destruct (explains_line _ _ _ _ _ Hd Hj) as (want & got & Hg).
  pose proof (ex_each _ _ _ Hd _ _ Hg) as (_ & q1 & n1 & Hj1 & Hl & Hw). simplify_eq.
  destruct (Hst _ _ Hg) as [Hdone|Hwait]; destruct want as [|want]; try done.
  - apply (f_equal length) in Hl. rewrite length_app in Hl. apply length_zero_iff_nil. lia.
  - destruct Hwait as (n' & Hn'). congruence.
Qed.

(** Everything has been sent and received. *)
Lemma delivered jobs d h :
  explains jobs d h -> stuck d ->
  (forall i t, jobs !! i = Some t -> d.2 !! i = Some (Between []) /\ labelled i h = t) /\
  (forall j x, d.1 !! j = Some x -> x = ([], 1) /\
     d.2 !! (length jobs + j) = Some (Consumer j 0 (labelled j h.*2))).
Proof.
  intros Hd Hst.
  assert (forall i g, d.2 !! i = Some g ->
    (exists j w got, g = Consumer j w got) \/ g = Between []) as Hall.
  { intros i g Hg. destruct (Hst i g Hg) as [Hdone|Hwait];
    destruct g as [[|e t]|[|[j m] t]|k t|k [|w] got];
      try done; eauto. destruct Hwait as (m' & q & n & Hj).
    by pose proof (stuck_empty _ _ _ _ _ _ Hd Hst Hj). }
  split.
  - intros i t Ht. destruct (lookup_lt_is_Some_2 d.2 i) as [g Hg].
    { rewrite (ex_len _ _ _ Hd). apply lookup_lt_Some in Ht. lia. }
    pose proof (ex_each _ _ _ Hd _ _ Hg) as He. destruct (Hall i g Hg) as [(j & w & got & ->)| ->].
    + destruct He as [-> _]. apply lookup_lt_Some in Ht. lia.
    + split; [done|]. simpl in He. rewrite app_nil_r in He. congruence.
  - intros j [q n] Hj. destruct (explains_line _ _ _ _ _ Hd Hj) as (want & got & Hg).
    pose proof (ex_each _ _ _ Hd _ _ Hg) as (_ & q1 & n1 & Hj1 & Hl & Hw).
    rewrite (stuck_empty _ _ _ _ _ _ Hd Hst Hj1), app_nil_r in Hl. subst got. split.
    + rewrite (stuck_empty _ _ _ _ _ _ Hd Hst Hj), (ex_handles _ _ _ Hd _ _ _ Hj).
      rewrite sum_list_zero; [done|]. intros i g Hi.
      by destruct (Hall i g Hi) as [(k & w & got & ->)| ->].
    + rewrite sum_list_zero in Hw; [by assert (want = 0) as -> by lia|].
      intros i g Hi. by destruct (Hall i g Hi) as [(k & w & got & ->)| ->].
Qed.
End Delivery.
