(* ===== verification/Conversation.v ===== *)
(** * Conversation: concurrent requests over one listener, abstractly

    Requesters put requests into the line of a service (line 0) and wait, each on a one-value
    channel of its own that is registered under the id of its request; the service answers on the
    line of the listener (line 1), which hands each answer to the channel registered under its
    id. All of them take steps in any order. Of every request that is waited for exactly one copy,
    itself or its answer, is under way or already handed over ([converses]); where nobody can go
    on, every request has its answer ([conversed]). *)

From S2P Require Import Prelude.
From S2P Require Import ChanIface.
From S2P Require Import Mutex.

Local Open Scope broker_scope.

(** ** Definitions *)

Section Conversation.
Context {M : Type} (id : M -> bytes) (answer : M -> M).
Implicit Types (i j n r : nat) (m a : M) (q t : list M) (x : bytes).

(** The two lines, what is registered under each id, the one-value channels, the next key. *)
Record conv_view := mkConv {
  cv_lines : list (list M * nat);
  cv_waiters : gmap bytes nat;
  cv_replies : gmap nat (oneshot_view M);
  cv_fresh : nat;
}.
Implicit Types v : conv_view.

Definition touch_line (f : list M * nat -> list M * nat) j v : conv_view :=
  mkConv (alter f j (cv_lines v)) (cv_waiters v) (cv_replies v) (cv_fresh v).

(** What a requester is at with the first of its requests: its channel is [r]. *)
Inductive asking :=
| Idle
| Opened (r : nat)
| Enrolled (r : nat)
| Sending (r : nat)
| Posted (r : nat)
| Waiting (r : nat)
| Answered (r : nat) (a : M).

Inductive serving :=
| Free
| Taken (m : M)
| Replying (m : M)
| Replied.

(** A requester with the answers it [got] and the requests to come; the service and the listener
    with the number of messages they still take. *)
Inductive party :=
| Requester (st : asking) (got t : list M)
| Service (st : serving) (n : nat)
| Listener (hand : option M) (n : nat).

(** The end of a request: the receiver goes, and what is registered under its id. *)
Definition leave r x v : conv_view :=
  let replies := alter view_oneshot_drop_receiver r (cv_replies v) in
  mkConv (cv_lines v) (delete x (cv_waiters v))
    (match cv_waiters v !! x with
     | Some tx => alter view_oneshot_drop_sender tx replies
     | None => replies
     end) (cv_fresh v).

(** The listener hands an answer over. *)
Definition hand_over a v : conv_view :=
  mkConv (cv_lines v) (delete (id a) (cv_waiters v))
    (match cv_waiters v !! id a with
     | Some r => alter (fun o => (view_oneshot_send a o).2) r (cv_replies v)
     | None => cv_replies v
     end) (cv_fresh v).

Inductive move : conv_view -> party -> conv_view -> party -> Prop :=
| move_open v got m t :
    move v (Requester Idle got (m :: t))
      (mkConv (cv_lines v) (cv_waiters v) (<[cv_fresh v :=
        view_oneshot]> (cv_replies v)) (S (cv_fresh v)))
      (Requester (Opened (cv_fresh v)) got (m :: t))
| move_register v r got m t : cv_waiters v !! id m = None ->
    move v (Requester (Opened r) got (m :: t))
      (mkConv (cv_lines v) (<[id m := r]> (cv_waiters v)) (cv_replies v) (cv_fresh v))
      (Requester (Enrolled r) got (m :: t))
| move_grab v r got t :
    move v (Requester (Enrolled r) got t) (touch_line (fun y => (y.1, S y.2)) 0 v)
      (Requester (Sending r) got t)
| move_post v r got m t :
    move v (Requester (Sending r) got (m :: t)) (touch_line (fun y => (y.1 ++ [m], y.2)) 0 v)
      (Requester (Posted r) got (m :: t))
| move_release v r got t :
    move v (Requester (Posted r) got t) (touch_line (fun y => (y.1, pred y.2)) 0 v)
      (Requester (Waiting r) got t)
| move_receive v r o a got t : cv_replies v !! r = Some o -> value o = Some a ->
    move v (Requester (Waiting r) got t)
      (mkConv (cv_lines v) (cv_waiters v)
         (<[r := mkOneshot None (sender_alive o) (receiver_alive o)]> (cv_replies v)) (cv_fresh v))
      (Requester (Answered r a) got t)
| move_leave v r a got m t :
    move v (Requester (Answered r a) got (m :: t)) (leave r (id m) v) (Requester Idle (got ++ [a]) t)
| move_take v m q n k : cv_lines v !! 0 = Some (m :: q, k) ->
    move v (Service Free (S n)) (touch_line (fun _ => (q, k)) 0 v) (Service (Taken m) n)
| move_service_grab v m n :
    move v (Service (Taken m) n) (touch_line (fun y => (y.1, S y.2)) 1 v) (Service (Replying m) n)
| move_reply v m n :
    move v (Service (Replying m) n) (touch_line (fun y => (y.1 ++ [answer m],
      y.2)) 1 v) (Service Replied n)
| move_service_release v n :
    move v (Service Replied n) (touch_line (fun y => (y.1, pred y.2)) 1 v) (Service Free n)
| move_listen v a q n k : cv_lines v !! 1 = Some (a :: q, k) ->
    move v (Listener None (S n)) (touch_line (fun _ => (q, k)) 1 v) (Listener (Some a) n)
| move_hand v a n : move v (Listener (Some a) n) (hand_over a v) (Listener None n).

(** Where a party may wait: for room on a line, for a message, for its answer. *)
Definition waits v (g : party) : Prop :=
  match g with
  | Requester (Sending _) _ _ => exists m q n, cv_lines v !! 0 = Some (m :: q, n)
  | Requester (Waiting r) _ _ =>
      match cv_replies v !! r with
      | Some o => value o = None /\ sender_alive o = true
      | None => True
      end
  | Service Free (S _) => exists n, cv_lines v !! 0 = Some ([], S n)
  | Service (Replying _) _ => exists m q n, cv_lines v !! 1 = Some (m :: q, n)
  | Listener None (S _) => exists n, cv_lines v !! 1 = Some ([], S n)
  | _ => False
  end.

(** Where a party is lost: its id is taken, its waiter is gone, its line is closed. *)
Definition lost v (g : party) : Prop :=
  match g with
  | Requester (Opened _) _ (m :: _) => is_Some (cv_waiters v !! id m)
  | Requester (Waiting r) _ _ => exists o, cv_replies v !! r = Some o /\ value o = None /\
    sender_alive o = false
  | Service Free (S _) => cv_lines v !! 0 = Some ([], 0)
  | Listener None (S _) => cv_lines v !! 1 = Some ([], 0)
  | _ => False
  end.

Definition done_with (g : party) : Prop :=
  match g with Requester Idle _ [] | Service Free O | Listener None O => True | _ => False end.

(** ** Counting *)

Definition handles0 (g : party) : nat :=
  match g with Requester (Sending _ | Posted _) _ _ => 1 | _ => 0 end.
Definition handles1 (g : party) : nat :=
  match g with Service (Replying _ | Replied) _ => 1 | _ => 0 end.

(** Requests not yet posted; messages the service and the listener will still take. *)
Definition owed (g : party) : nat :=
  match g with
  | Requester (Posted _ | Waiting _ | Answered _ _) _ t => pred (length t)
  | Requester _ _ t => length t
  | _ => 0
  end.
Definition to_serve (g : party) : nat := match g with Service _ n => n | _ => 0 end.
Definition to_hear (g : party) : nat := match g with Listener _ n => n | _ => 0 end.
Definition unanswered (g : party) : nat :=
  match g with Service (Taken _ | Replying _) _ => 1 | _ => 0 end.

(** What a party has in hand, and how many messages with id [x] are under way. *)
Definition in_hand (g : party) : list M :=
  match g with
  | Service (Taken m | Replying m) _ => [m]
  | Listener (Some a) _ => [a]
  | _ => []
  end.
Definition copies x q : nat := length (filter (fun m => id m = x) q).
Definition queued j v : list M := match cv_lines v !! j with Some y => y.1 | None => [] end.
Definition under_way x v (gs : list party) : nat :=
  copies x (queued 0 v) + copies x (queued 1 v) + sum_list_with (fun g => copies x (in_hand g)) gs.

(** Every message is accounted for, and every sender handle. *)
Record balanced v (gs : list party) : Prop := {
  ba_lines : cv_lines v = [(queued 0 v, S (sum_list_with handles0 gs));
                           (queued 1 v, S (sum_list_with handles1 gs))];
  ba_serve : sum_list_with to_serve gs = length (queued 0 v) + sum_list_with owed gs;
  ba_hear : sum_list_with to_hear gs = length (queued 1 v) + length (queued 0 v) +
    sum_list_with unanswered gs + sum_list_with owed gs;
}.

Lemma balanced_step v gs i g v' g' :
  balanced v gs -> gs !! i = Some g -> move v g v' g' ->
  balanced v' (<[i := g']> gs).
Proof.
  intros [Hl Hs Hh] Hi Hm.
  enough (cv_lines v' = [(queued 0 v', S (sum_list_with handles0 (<[i := g']> gs)));
                         (queued 1 v', S (sum_list_with handles1 (<[i := g']> gs)))] /\
    sum_list_with to_serve (<[i := g']> gs) = length (queued 0 v') + sum_list_with owed (<[i :=
      g']> gs) /\
    sum_list_with to_hear (<[i := g']> gs) = length (queued 1 v') + length (queued 0 v') +
      sum_list_with unanswered (<[i := g']> gs) + sum_list_with owed (<[i := g']> gs))
    as (? & ? & ?) by done.
  repeat match goal with
  | |- context [sum_list_with ?f (<[i := g']> gs)] =>
      pose proof (sum_list_insert f gs i g g' Hi);
      generalize dependent (sum_list_with f (<[i := g']> gs)); intros
  end.
  repeat match goal with
  | H : context [sum_list_with ?f gs] |- _ => generalize dependent (sum_list_with f gs); intros
  end.
  unfold queued in *. destruct (cv_lines v) as [|[q0 k0] [|[q1 k1] [|]]] eqn:El; simplify_eq/=.
  destruct Hm; simpl in *; rewrite ?El in *; simpl; simplify_eq/=;
    rewrite ?length_app; simpl; (split_and!; [repeat f_equal; lia|lia..]).
Qed.

(** ** Where every request is *)

Section Jobs.
Context (jobs : list (list M)).

Definition asked m : Prop := exists i ms, jobs !! i = Some ms /\ m ∈ ms.
Definition an_answer a : Prop := exists m, asked m /\ a = answer m.

Lemma asked_concat m : asked m <-> m ∈ concat jobs.
Proof.
  unfold asked. rewrite list_elem_of_In, in_concat. setoid_rewrite <-list_elem_of_In.
  split; [intros (i & ms & Hi & Hm); exists ms; split; [by eapply list_elem_of_lookup_2|done]|].
  intros (ms & [i Hi]%list_elem_of_lookup & Hm). by exists i, ms.
Qed.

(** Nothing is registered or under way for this id. *)
Definition quiet v (gs : list party) x : Prop :=
  cv_waiters v !! x = None /\ under_way x v gs = 0.

(** The request at hand: not yet posted, or posted and under way, or answered. *)
Definition asking_ok v gs (st : asking) m : Prop :=
  match st with
  | Idle => quiet v gs (id m)
  | Opened r => quiet v gs (id m) /\ cv_replies v !! r = Some view_oneshot
  | Enrolled r | Sending r =>
      cv_waiters v !! id m = Some r /\ under_way (id m) v gs = 0 /\
      cv_replies v !! r = Some view_oneshot
  | Posted r | Waiting r =>
      (cv_waiters v !! id m = Some r /\ under_way (id m) v gs = 1 /\
       cv_replies v !! r = Some view_oneshot) \/
      (quiet v gs (id m) /\ cv_replies v !! r = Some (mkOneshot (Some (answer m)) false true))
  | Answered r a => quiet v gs (id m) /\ a = answer m
  end.

Definition party_ok v gs i (g : party) : Prop :=
  match g with
  | Requester st got t => exists past,
      jobs !! i = Some (past ++ t) /\ got = answer <$> past /\
      Forall (fun m => quiet v gs (id m)) past /\
      match t with
      | [] => st = Idle
      | m :: t => asking_ok v gs st m /\ Forall (fun m => quiet v gs (id m)) t
      end
  | Service _ _ => i = length jobs /\ Forall asked (in_hand g)
  | Listener _ _ => i = S (length jobs) /\ Forall an_answer (in_hand g)
  end.

(** The channel of a requester. *)
Definition reply_key (g : party) : option nat :=
  match g with
  | Requester (Opened r | Enrolled r | Sending r | Posted r | Waiting r | Answered r _) _ _ => Some r
  | _ => None
  end.

Record converses v gs : Prop := {
  co_balanced : balanced v gs;
  co_asked : Forall asked (queued 0 v);
  co_answers : Forall an_answer (queued 1 v);
  co_each i g : gs !! i = Some g -> party_ok v gs i g;
  co_keys : keyed reply_key (cv_fresh v) gs;
  co_len : length gs = S (S (length jobs));
}.

(** No two requests have the same id. *)
Hypothesis Hids : NoDup (id <$> concat jobs).
Hypothesis Hanswer : forall m, asked m -> id (answer m) = id m.

Lemma job_split i ms :
  jobs !! i = Some ms ->
  exists before after, concat jobs = before ++ ms ++ after /\
    forall j ms' m, jobs !! j = Some ms' -> j <> i -> m ∈ ms' -> m ∈ before ++ after.
Proof.
  intros Hi. exists (concat (take i jobs)), (concat (drop (S i) jobs)).
  rewrite <-(take_drop_middle jobs i ms Hi) at 1. rewrite concat_app. split; [done|].
  intros j ms' m Hj Hji Hm. rewrite elem_of_app, !list_elem_of_In, !in_concat.
  destruct (decide (j < i)).
  - left. exists ms'. rewrite <-!list_elem_of_In. split; [|done].
    apply (list_elem_of_lookup_2 _ j). by rewrite lookup_take_lt.
  - right. exists ms'. rewrite <-!list_elem_of_In. split; [|done].
    apply (list_elem_of_lookup_2 _ (j - S i)). rewrite lookup_drop. rewrite <-Hj. f_equal. lia.
Qed.

Lemma job_apart i j ms ms' m m' :
  jobs !! i = Some ms -> jobs !! j = Some ms' -> m ∈ ms -> m' ∈ ms' -> id m = id m' -> i = j.
Proof.
  intros Hi Hj Hm Hm' E. destruct (decide (j = i)) as [|Hne]; [done|exfalso].
  destruct (job_split i ms Hi) as (l1 & l2 & Ec & Hother). specialize (Hother j ms' m' Hj Hne Hm').
  assert (id m ∈ id <$> ms) as Hx by by apply list_elem_of_fmap_2.
  assert (id m ∈ (id <$> l1) ++ (id <$> l2)) as Hy.
  { rewrite <-fmap_app, E. by apply list_elem_of_fmap_2. }
  rewrite Ec, !fmap_app in Hids. apply list.NoDup_app in Hids as (_ & H1 & H2).
  apply list.NoDup_app in H2 as (_ & H2 & _). apply elem_of_app in Hy as [Hy|Hy].
  - apply (H1 _ Hy). rewrite elem_of_app. by left.
  - by apply (H2 _ Hx).
Qed.

Lemma job_nodup i ms : jobs !! i = Some ms -> NoDup (id <$> ms).
Proof.
  intros Hi. destruct (job_split i ms Hi) as (l1 & l2 & Ec & _).
  rewrite Ec, !fmap_app in Hids. apply list.NoDup_app in Hids as (_ & _ & H2).
  by apply list.NoDup_app in H2 as [? _].
Qed.

(** The other requests of a job. *)
Lemma job_others i past m t m' :
  jobs !! i = Some (past ++ m :: t) -> m' ∈ past ++ t -> id m' <> id m.
Proof.
  intros Hi%job_nodup Hm'. rewrite fmap_app, fmap_cons in Hi.
  apply list.NoDup_app in Hi as (_ & H1 & H2). apply list.NoDup_cons in H2 as [H2 _].
  apply elem_of_app in Hm' as [Hm'|Hm']; intros E.
  - apply (H1 (id m')); [by apply list_elem_of_fmap_2|]. rewrite E. by apply list_elem_of_here.
  - apply H2. rewrite <-E. by apply list_elem_of_fmap_2.
Qed.

(** ** What a move changes *)

Lemma copies_app x q1 q2 : copies x (q1 ++ q2) = copies x q1 + copies x q2.
Proof. unfold copies. by rewrite list.filter_app, length_app. Qed.

Lemma copies_one x m : copies x [m] = if decide (id m = x) then 1 else 0.
Proof. unfold copies. rewrite list.filter_cons. by case_decide. Qed.

Lemma copies_cons x m q : copies x (m :: q) = copies x [m] + copies x q.
Proof. apply (copies_app x [m] q). Qed.

Lemma copies_answer x m : asked m -> copies x [answer m] = copies x [m].
Proof. intros Hm. by rewrite !copies_one, Hanswer. Qed.

(** What the next move of a party puts on its way, and what it takes off. *)
Definition to_post (g : party) : list M :=
  match g with Requester (Sending _) _ (m :: _) => [m] | _ => [] end.
Definition to_hand (g : party) : list M :=
  match g with Listener (Some a) _ => [a] | _ => [] end.

Lemma move_under_way v gs i g v' g' x :
  balanced v gs -> gs !! i = Some g -> move v g v' g' ->
  Forall asked (in_hand g) \/ in_hand g = to_hand g ->
  under_way x v' (<[i := g']> gs) + copies x (to_hand g) = under_way x v gs + copies x (to_post g).
Proof.
  intros [Hl _ _] Hi Hm Ha. unfold under_way.
  pose proof (sum_list_insert (fun g => copies x (in_hand g)) gs i g g' Hi) as Hsum.
  generalize dependent (sum_list_with (fun g => copies x (in_hand g)) (<[i := g']> gs)).
  generalize (sum_list_with (fun g => copies x (in_hand g)) gs). intros s s' Hsum.
  unfold queued in *. destruct (cv_lines v) as [|[q0 k0] [|[q1 k1] [|]]] eqn:El; simplify_eq/=.
  destruct Hm; try done; simpl in *; rewrite ?El in *; simpl; simplify_eq/=;
    rewrite ?copies_app, ?(copies_cons x _ q) in *; change (copies x []) with 0 in *; try lia.
  destruct Ha as [Ha|Ha]; [|done]. apply list.Forall_cons in Ha as [Ha _].
  rewrite copies_answer by done. lia.
Qed.

(** The ids whose registration a move may change. *)
Definition touched (g : party) : list bytes :=
  match g with
  | Requester (Opened _ | Sending _ | Answered _ _) _ (m :: _) => [id m]
  | Listener (Some a) _ => [id a]
  | _ => []
  end.

Lemma move_waiters v g v' g' x :
  move v g v' g' -> x ∉ touched g -> cv_waiters v' !! x = cv_waiters v !! x.
Proof.
  destruct 1; simpl; rewrite ?not_elem_of_cons; intros Hx;
    rewrite ?lookup_insert_ne, ?lookup_delete_ne by (destruct Hx; congruence); done.
Qed.

(** The channels a move may change: the own one, a new one, and the one registered under an id
    that is touched. *)
Lemma move_replies v g v' g' r :
  move v g v' g' -> r < cv_fresh v -> reply_key g <> Some r ->
  (forall x, x ∈ touched g -> cv_waiters v !! x <> Some r) ->
  cv_replies v' !! r = cv_replies v !! r.
Proof.
  destruct 1 as [| | | | | |v r0 a got m t| | | | | |v a n]; try done; simpl; intros Hr Hk Hx.
  - rewrite lookup_insert_ne; [done|lia].
  - rewrite lookup_insert_ne; [done|congruence].
  - specialize (Hx (id m) ltac:(by apply list_elem_of_here)).
    destruct (cv_waiters v !! id m) as [tx|]; rewrite ?lookup_alter_ne by congruence; done.
  - specialize (Hx (id a) ltac:(by apply list_elem_of_here)).
    destruct (cv_waiters v !! id a) as [tx|]; rewrite ?lookup_alter_ne by congruence; done.
Qed.

(** A party for which nothing changes. *)
Lemma party_frame v gs v' gs' j g :
  party_ok v gs j g ->
  (forall ms m, jobs !! j = Some ms -> m ∈ ms ->
     cv_waiters v' !! id m = cv_waiters v !! id m /\ under_way (id m) v' gs' = under_way (id m) v gs) ->
  (forall r, reply_key g = Some r -> cv_replies v' !! r = cv_replies v !! r) ->
  party_ok v' gs' j g.
Proof.
  destruct g as [st got t| |]; try done. simpl. intros (past & Hj & Hgot & Hpast & Ht) Hsame Hr.
  assert (forall l, (forall m, m ∈ l -> m ∈ past ++ t) ->
    Forall (fun m => quiet v gs (id m)) l -> Forall (fun m => quiet v' gs' (id m)) l) as Hq.
  { intros l Hin Hl. rewrite list.Forall_forall in *. intros m Hm.
    destruct (Hsame _ m Hj (Hin m Hm)) as [Hw Hu]. unfold quiet. rewrite Hw, Hu. by apply Hl. }
  exists past. split_and!; [done|done|apply Hq; [set_solver|done]|].
  destruct t as [|m t]; [done|]. destruct Ht as [Ha Ht]. split; [|apply Hq; [set_solver|done]].
  destruct (Hsame _ m Hj) as [Hw Hu]; [set_solver|]. unfold asking_ok, quiet in *. rewrite Hw, Hu.
  destruct st; simpl in Hr; rewrite ?(Hr _ eq_refl); done.
Qed.

(** ** One move *)

Lemma not_lost v gs i g : converses v gs -> gs !! i = Some g -> ~ lost v g.
Proof.
  intros Hc Hi. pose proof (co_each _ _ Hc i g Hi) as Hg. unfold lost.
  rewrite (ba_lines _ _ (co_balanced _ _ Hc)). intros Hl.
  destruct g as [[| | | | |r|] got [|m t]|[] [|n]|[] [|n]]; try done.
  - destruct Hg as (past & _ & _ & _ & [[Hn _] _] & _). rewrite Hn in Hl. by destruct Hl.
  - by destruct Hg as (past & _ & _ & _ & Ht).
  - destruct Hl as (o & Ho & Hv & Hs). destruct Hg as (past & _ & _ & _ & [(_ & _ & Hr)|[_ Hr]] & _);
      rewrite Hr in Ho; by injection Ho as <-.
Qed.

Lemma party_hand v gs i g :
  party_ok v gs i g -> Forall asked (in_hand g) \/ in_hand g = to_hand g.
Proof. destruct g as [|st n|[a|] n]; simpl; [by right|intros [_ ?]; by left|by right..]. Qed.

(** Nothing changes for the ids a move does not touch. *)
Lemma untouched_same v gs i g v' g' x :
  converses v gs -> gs !! i = Some g -> move v g v' g' -> x ∉ touched g ->
  cv_waiters v' !! x = cv_waiters v !! x /\ under_way x v' (<[i := g']> gs) = under_way x v gs.
Proof.
  intros Hc Hi Hm Hx.
  split; [by eapply move_waiters|].
  pose proof (move_under_way v gs i g v' g' x (co_balanced _ _ Hc) Hi Hm
    (party_hand _ _ _ _ (co_each _ _ Hc i g Hi))) as Hu.
  assert (copies x (to_hand g) = 0 /\ copies x (to_post g) = 0) as [H1 H2]; [|lia].
  assert (forall m, x ∉ [id m] -> copies x [m] = 0) as H1.
  { intros m Hm'. rewrite copies_one, decide_False; [done|set_solver]. }
  destruct g as [[] ? [|]| |[]]; simpl in *; split; try done; by apply H1.
Qed.

Lemma quiet_same v gs v' gs' x :
  cv_waiters v' !! x = cv_waiters v !! x /\ under_way x v' gs' = under_way x v gs ->
  quiet v gs x -> quiet v' gs' x.
Proof. intros [Hw Hu] [? ?]. unfold quiet. by rewrite Hw, Hu. Qed.

(** The ids a requester touches are those of its own job. *)
Lemma touched_own v gs i g x :
  party_ok v gs i g -> to_hand g = [] -> x ∈ touched g ->
  exists ms m, jobs !! i = Some ms /\ m ∈ ms /\ x = id m /\
    (cv_waiters v !! x = None \/ cv_waiters v !! x = reply_key g).
Proof.
  destruct g as [st got t| |[a|] n]; try done; [|by intros _ _ Hx; apply not_elem_of_nil in Hx..].
  intros (past & Hj & _ & _ & Ht) _ Hx.
  destruct t as [|m t]; [by destruct st; apply not_elem_of_nil in Hx|].
  exists (past ++ m :: t), m. destruct Ht as [Ha _].
  destruct st; simpl in *; try (by apply not_elem_of_nil in Hx); apply list_elem_of_singleton in
    Hx as ->;
    (split_and!; [done|set_solver|done|]).
  - left. apply Ha.
  - right. apply Ha.
  - left. apply Ha.
Qed.

(** The other parties, unless the listener hands an answer over. *)
Lemma others_ok v gs i g v' g' j h :
  converses v gs -> gs !! i = Some g -> move v g v' g' -> to_hand g = [] ->
  gs !! j = Some h -> j <> i -> party_ok v' (<[i := g']> gs) j h.
Proof.
  intros Hc Hi Hm Hh Hj Hji. pose proof (co_each _ _ Hc i g Hi) as Hg.
  apply (party_frame v gs); [by apply (co_each _ _ Hc)|..].
  - intros ms m Hms Hin. eapply untouched_same; [done..|]. intros Hx.
    destruct (touched_own _ _ _ _ _ Hg Hh Hx) as (ms' & m' & Hms' & Hin' & E & _).
    apply Hji. by eapply (job_apart j i).
  - intros r Hr. eapply move_replies; [done..|by apply (keyed_fresh _ _ _ (co_keys _ _ Hc) j h)| |].
    + intros Hr'. apply Hji. by eapply (keyed_apart _ _ _ (co_keys _ _ Hc)).
    + intros x Hx Hw. destruct (touched_own _ _ _ _ _ Hg Hh Hx) as (_ & _ & _ & _ & _ & [Hn|Hk]);
        [congruence|].
      apply Hji. eapply (keyed_apart _ _ _ (co_keys _ _ Hc) j i h g r); [done..|congruence].
Qed.

(** A requester that moves: its request goes on, or is answered. *)
Lemma head_moves v gs i st got m t v' g' :
  let gs' := <[i := g']> gs in
  converses v gs -> gs !! i = Some (Requester st got (m :: t)) -> asking_ok v gs st m ->
  move v (Requester st got (m :: t)) v' g' ->
  (exists st', g' = Requester st' got (m :: t) /\ asking_ok v' gs' st' m) \/
  (g' = Requester Idle (got ++ [answer m]) t /\ quiet v' gs' (id m)).
Proof.
  cbv zeta. intros Hc Hi Ha Hm.
  pose proof (untouched_same _ _ _ _ _ _ (id m) Hc Hi Hm) as Hsame.
  pose proof (move_under_way v gs i _ v' g' (id m) (co_balanced _ _ Hc) Hi Hm (or_intror eq_refl)) as Hu.
  generalize dependent (<[i := g']> gs). intros gs' Hsame Hu. rewrite Nat.add_0_r in Hu.
  pose proof (copies_one (id m) m) as Hone. rewrite decide_True in Hone by done.
  inversion Hm; subst; try done; cbn [asking_ok touched to_post] in *; rewrite ?Hone in Hu;
    try specialize (Hsame (not_elem_of_nil _)).
  - left. eexists. split; [reflexivity|]. split; [by eapply quiet_same|apply lookup_insert_eq].
  - left. eexists. split; [reflexivity|]. destruct Ha as [[_ Hw] Ho].
    split_and!; [apply lookup_insert_eq|rewrite Hu, Hw; done|done].
  - left. eexists. split; [reflexivity|]. destruct Ha as (Hw & Hz & Ho), Hsame as [Hw' Hu'].
    cbn [asking_ok]. by rewrite Hw', Hu'.
  - left. eexists. split; [reflexivity|]. destruct Ha as (Hw & Hz & Ho). left.
    split_and!; [done|by rewrite Hu, Hz|done].
  - left. eexists. split; [reflexivity|]. destruct Ha as [(Hw & Hz & Ho)|[Hq Ho]]; [left|right].
    + destruct Hsame as [Hw' Hu']. by rewrite Hw', Hu'.
    + split; [by eapply quiet_same|done].
  - left. eexists. split; [reflexivity|].
    destruct Ha as [(_ & _ & Ho)|[Hq Ho]]; simplify_eq/=. split; [by eapply quiet_same|done].
  - right. destruct Ha as [[_ Hw] ->]. split; [done|].
    split; [apply lookup_delete_eq|]. rewrite Hu, Hw. done.
Qed.

Lemma requester_moves v gs i st got t v' g' :
  converses v gs -> gs !! i = Some (Requester st got t) -> move v (Requester st got t) v' g' ->
  party_ok v' (<[i := g']> gs) i g'.
Proof.
  intros Hc Hi Hm. pose proof (co_each _ _ Hc i _ Hi) as (past & Hj & Hgot & Hpast & Ht).
  assert (t <> []) as Hne by (intros ->; subst st; by inversion Hm).
  destruct t as [|m t]; [done|]. destruct Ht as [Ha Ht].
  assert (forall l, (forall m', m' ∈ l -> m' ∈ past ++ t) -> Forall (fun m => quiet v gs (id m)) l ->
    Forall (fun m => quiet v' (<[i := g']> gs) (id m)) l) as Hrest.
  { intros l Hl Hq. rewrite list.Forall_forall in *. intros m' Hm'.
  apply (quiet_same v gs), Hq; [|done].
    eapply untouched_same; [done..|]. pose proof (job_others _ _ _ _ _ Hj (Hl m' Hm')).
    destruct st; simpl; try apply not_elem_of_nil; by rewrite list_elem_of_singleton. }
  destruct (head_moves v gs i st got m t v' g' Hc Hi Ha Hm) as [(st' & -> & Ha')|[-> Hq]].
  - exists past. split_and!;
      [done..|apply Hrest; [set_solver|done]|done|apply Hrest; [set_solver|done]].
  - exists (past ++ [m]). rewrite <-app_assoc.
    pose proof (Hrest t ltac:(set_solver) Ht) as Ht'. split_and!; [done|by rewrite fmap_app, Hgot|..].
    + apply list.Forall_app. split; [apply Hrest; [set_solver|done]|by constructor].
    + destruct t as [|m' t]; [done|]. by apply list.Forall_cons in Ht'.
Qed.

(** The request an answer belongs to. *)
Lemma recipient v gs i a n :
  converses v gs -> gs !! i = Some (Listener (Some a) n) ->
  exists k st got m t r, gs !! k = Some (Requester st got (m :: t)) /\
    (st = Posted r \/ st = Waiting r) /\
    a = answer m /\ id a = id m /\ cv_waiters v !! id m = Some r /\ under_way (id m) v gs = 1 /\
    cv_replies v !! r = Some view_oneshot.
Proof.
  intros Hc Hi. pose proof (co_each _ _ Hc i _ Hi) as [_ Ha].
  apply list.Forall_cons in Ha as [(m & (k & ms & Hk & Hm) & Ea) _].
  assert (id a = id m) as Eid by (rewrite Ea; apply Hanswer; by exists k, ms).
  assert (under_way (id m) v gs <> 0) as Hu.
  { pose proof (sum_list_lookup (fun g => copies (id m) (in_hand g)) gs i _ Hi) as Hle.
    cbn [in_hand] in Hle. rewrite copies_one, decide_True in Hle by done. unfold under_way. lia. }
  destruct (lookup_lt_is_Some_2 gs k) as [g Hg].
  { rewrite (co_len _ _ Hc). apply lookup_lt_Some in Hk. lia. }
  pose proof (lookup_lt_Some _ _ _ Hk) as Hlt. pose proof (co_each _ _ Hc k g Hg) as Hok.
  destruct g as [st got t|st n'|h n']; [|destruct Hok as [-> _]; lia..].
  destruct Hok as (past & Hk' & _ & Hpast & Ht). assert (ms = past ++ t) as -> by congruence.
  rewrite list.Forall_forall in Hpast. apply elem_of_app in Hm as [Hm|Hm]; [by destruct (Hpast m Hm)|].
  destruct t as [|m' t]; [by apply not_elem_of_nil in Hm|]. destruct Ht as [Hask Ht].
  rewrite list.Forall_forall in Ht. apply elem_of_cons in Hm as [<-|Hm]; [|by destruct (Ht m Hm)].
  exists k, st, got, m, t. unfold asking_ok, quiet in Hask.
  destruct st as [|r|r|r|r|r|r b]; try (exfalso; tauto);
    (destruct Hask as [(Hw & Hone & Hr)|[[_ Hz] _]]; [|done]); exists r; split_and!; auto.
Qed.
(** The listener hands an answer over: it reaches the request it belongs to, and no other. *)
Lemma hand_others v gs i a n j h :
  let gs' := <[i := Listener None n]> gs in
  converses v gs -> gs !! i = Some (Listener (Some a) n) -> gs !! j = Some h -> j <> i ->
  party_ok (hand_over a v) gs' j h.
Proof.
  cbv zeta. intros Hc Hi Hj Hji. pose proof (move_hand v a n) as Hm.
  destruct (recipient v gs i a n Hc Hi) as (k & st & got & m & t & r & Hk & Hst & Ea & Eid & Hw & Hu & Hr).
  pose proof (co_each _ _ Hc k _ Hk) as (past & Hjobk & Hgot & Hpast & Hask & Ht).
  assert (m ∈ past ++ m :: t) as Hin by set_solver.
  assert (cv_replies (hand_over a v) = alter (fun o => (view_oneshot_send a o).2) r (cv_replies v)) as Hrep.
  { simpl. by rewrite Eid, Hw. }
  destruct (decide (j = k)) as [->|Hjk].
  - assert (h = Requester st got (m :: t)) as -> by congruence.
    assert (forall l, (forall m', m' ∈ l -> m' ∈ past ++ t) -> Forall (fun m => quiet v gs (id m)) l ->
      Forall (fun m => quiet (hand_over a v) (<[i := Listener None n]> gs) (id m)) l) as Hrest.
    { intros l Hl Hq. rewrite list.Forall_forall in *. intros m' Hm'.
    apply (quiet_same v gs), Hq; [|done].
      eapply untouched_same; [done..|]. simpl. rewrite list_elem_of_singleton, Eid.
      by eapply job_others, Hl. }
    exists past. split_and!; [done..|apply Hrest; [set_solver|done]| |apply Hrest; [set_solver|done]].
    pose proof (move_under_way v gs i _ _ _ (id m) (co_balanced _ _ Hc) Hi Hm (or_intror eq_refl)) as Hmove.
    cbn [to_hand to_post] in Hmove. rewrite copies_one, decide_True, Hu in Hmove by done.
    assert (asking_ok (hand_over a v) (<[i := Listener None n]> gs) (Waiting r) m) as Hdone.
    { right. split; [split;
      [simpl; rewrite Eid; apply lookup_delete_eq|unfold copies in *; simpl in *; lia]|].
      rewrite Hrep, lookup_alter_eq, Hr. by rewrite Ea. }
    by destruct Hst as [->| ->].
  - apply (party_frame v gs); [by apply (co_each _ _ Hc)|..].
    + intros ms m' Hms Hm'. eapply untouched_same; [done..|]. simpl.
      rewrite list_elem_of_singleton, Eid.
      intros E. apply Hjk. by eapply (job_apart j k).
    + intros r' Hr'. rewrite Hrep, lookup_alter_ne; [done|]. intros ->. apply Hjk.
      eapply (keyed_apart _ _ _ (co_keys _ _ Hc)); [done..|]. by destruct Hst as [->| ->].
Qed.

(** The key of a party's channel stays, goes, or is new. *)
Lemma move_key v g v' g' : move v g v' g' -> rekeyed reply_key (cv_fresh v) g (cv_fresh v') g'.
Proof. destruct 1; (split; [simpl; lia|auto]). Qed.

Lemma move_queues v gs i g v' g' :
  converses v gs -> gs !! i = Some g -> move v g v' g' ->
  Forall asked (queued 0 v') /\ Forall an_answer (queued 1 v').
Proof.
  intros Hc Hi Hm. pose proof (co_each _ _ Hc i g Hi) as Hg.
  destruct Hc as [[Hl _ _] H0 H1 _ _ _]. unfold queued in *.
  destruct (cv_lines v) as [|[q0 k0] [|[q1 k1] [|]]] eqn:El; simplify_eq/=.
  destruct Hm; try done; simpl in *; rewrite ?El in *; simpl; simplify_eq/=; try done.
  - split; [|done]. apply list.Forall_app. split; [done|]. constructor; [|done].
    destruct Hg as (past & Hj & _). exists i, (past ++ m :: t). split; [done|set_solver].
  - by apply list.Forall_cons in H0 as [_ ?].
  - split; [done|]. apply list.Forall_app. split; [done|]. constructor; [|done].
    destruct Hg as [_ Hg]. apply list.Forall_cons in Hg as [Hg _]. by exists m.
  - by apply list.Forall_cons in H1 as [_ ?].
Qed.

(** The service and the listener have taken what was queued. *)
Lemma servers_move v gs i g v' g' :
  converses v gs -> gs !! i = Some g -> move v g v' g' ->
  (forall st got t, g <> Requester st got t) -> party_ok v' (<[i := g']> gs) i g'.
Proof.
  intros Hc Hi Hm Hreq. pose proof (co_each _ _ Hc i g Hi) as Hg.
  destruct Hc as [_ H0 H1 _ _ _]. unfold queued in *.
  destruct Hm as [| | | | | | |v m q n k Hq| | | |v a q n k Hq|]; try done;
    try by destruct (Hreq _ _ _ eq_refl).
  - rewrite Hq in H0. apply list.Forall_cons in H0 as [? _]. destruct Hg as [-> _].
    by repeat constructor.
  - destruct Hg as [-> _]. by repeat constructor.
  - rewrite Hq in H1. apply list.Forall_cons in H1 as [? _]. destruct Hg as [-> _].
    by repeat constructor.
  - destruct Hg as [-> _]. by repeat constructor.
Qed.

Lemma converses_step v gs i g v' g' :
  converses v gs -> gs !! i = Some g -> move v g v' g' -> converses v' (<[i := g']> gs).
Proof.
  intros Hc Hi Hm.
  destruct (move_queues _ _ _ _ _ _ Hc Hi Hm) as [H0 H1].
  pose proof (balanced_step _ _ _ _ _ _ (co_balanced _ _ Hc) Hi Hm).
  split; [done..| | |].
  - intros j h. rewrite list_lookup_insert_Some. intros [(<- & <- & _)|[Hij Hj]].
    + destruct g as [st got t|st n|h n]; [by eapply requester_moves|by eapply servers_move..].
    + destruct (to_hand g) as [|a l] eqn:Eh; [by eapply others_ok|].
      destruct g as [| |[b|] n]; try done.
      assert (v' = hand_over b v /\ g' = Listener None n) as [-> ->].
      { inversion Hm; by subst. }
      by eapply hand_others.
  - eapply keyed_insert; [by apply (co_keys _ _ Hc)|done|by apply move_key].
  - by rewrite length_insert, (co_len _ _ Hc).
Qed.

(** The invariant, of configurations of parties. *)
Definition conversing (d : conv_view * list party) : Prop := converses d.1 d.2.

Lemma conversing_step d d' : conversing d -> ghost_step move d d' -> conversing d'.
Proof. intros Hd Hst. destruct Hst as [v gs i g v' g' Hi Hm]. by eapply converses_step. Qed.

Lemma conversing_not_lost d i g : conversing d -> d.2 !! i = Some g -> ~ lost d.1 g.
Proof. apply not_lost. Qed.

(** ** The start *)

Definition starting : list party :=
  (Requester Idle [] <$> jobs) ++
  [Service Free (length (concat jobs)); Listener None (length (concat jobs))].

Lemma sum_requesters (f : party -> nat) (l : list (list M)) :
  sum_list_with f (Requester Idle [] <$> l) = sum_list_with (fun t => f (Requester Idle [] t)) l.
Proof. induction l as [|t l IH]; [done|]. rewrite fmap_cons. cbn [sum_list_with]. by rewrite IH. Qed.

Lemma starting_sum (f : party -> nat) :
  sum_list_with f starting = sum_list_with (fun t => f (Requester Idle [] t)) jobs +
    (f (Service Free (length (concat jobs))) + (f (Listener None (length (concat jobs))) + 0)).
Proof. unfold starting. by rewrite sum_list_with_app, sum_requesters. Qed.

Lemma converses_start v :
  cv_lines v = [([], 1); ([], 1)] -> (forall m, asked m -> cv_waiters v !! id m = None) ->
  converses v starting.
Proof.
  intros Hl Hw. assert (forall x, under_way x v starting = 0) as Hu.
  { intros x. unfold under_way, queued. rewrite Hl, starting_sum. simpl.
    by rewrite sum_list_zero. }
  split.
  - split; unfold queued; rewrite Hl, !starting_sum; simpl.
    + by rewrite !sum_list_zero.
    + rewrite sum_list_zero, !sum_list_lengths by done. lia.
    + rewrite !sum_list_zero, !sum_list_lengths by done. lia.
  - unfold queued. by rewrite Hl.
  - unfold queued. by rewrite Hl.
  - intros i g. unfold starting. rewrite lookup_app_Some, list_lookup_fmap_Some.
    intros [(t & -> & Ht)|[Hi Hg]].
    + exists []. split_and!; [done..|]. destruct t as [|m t]; [done|].
      assert (forall m', m' ∈ m :: t -> quiet v starting (id m')) as Hq.
      { intros m' Hm'. split; [apply Hw; by exists i, (m :: t)|apply Hu]. }
      split; [apply Hq; set_solver|]. apply list.Forall_forall. intros m' Hm'. apply Hq. set_solver.
    + rewrite length_fmap in Hi, Hg.
      destruct (i - length jobs) as [|[|j]] eqn:E; simplify_eq/=; (split; [lia|constructor]).
  - apply keyed_none. intros i g. unfold starting. rewrite lookup_app_Some, list_lookup_fmap_Some.
    intros [(t & -> & Ht)|[Hi Hg]]; [done|]. by destruct (i - _) as [|[|j]]; simplify_eq/=.
  - unfold starting. rewrite length_app, length_fmap. simpl. lia.
Qed.

(** ** Nobody can go on *)

Definition stuck v (gs : list party) : Prop :=
  forall i g, gs !! i = Some g -> done_with g \/ waits v g.

Lemma stuck_queues v gs :
  converses v gs -> stuck v gs -> queued 0 v = [] /\ queued 1 v = [].
Proof.
  intros Hc Hst. destruct (co_balanced _ _ Hc) as [Hl Hs Hh]. unfold stuck, waits in Hst.
  rewrite Hl in Hst.
  assert (queued 1 v = []) as H1.
  { destruct (queued 1 v) as [|a q]; [done|exfalso]. rewrite sum_list_zero in Hh; [simpl in Hh; lia|].
    intros i g Hi. destruct g as [| |[b|] [|n]]; try done; destruct (Hst i _ Hi) as [?|?]; try done.
    by destruct H as (? & ?). }
  split; [|done]. destruct (queued 0 v) as [|m q]; [done|exfalso].
  rewrite sum_list_zero in Hs; [simpl in Hs; lia|]. rewrite H1 in Hst.
  intros i g Hi. destruct g as [|[] [|n]|]; try done; destruct (Hst i _ Hi) as [?|Hw]; try done.
  - by destruct Hw as (? & ?).
  - by destruct Hw as (? & ? & ? & ?).
Qed.

(** Then a party is done, or waits for a message that never comes. *)
Lemma stuck_party v gs i g :
  converses v gs -> stuck v gs -> gs !! i = Some g ->
  (exists got, g = Requester Idle got []) \/ (exists n, g = Service Free n) \/
  (exists n, g = Listener None n).
Proof.
  intros Hc Hst. destruct (stuck_queues _ _ Hc Hst) as [H0 H1].
  pose proof (ba_lines _ _ (co_balanced _ _ Hc)) as Hl. rewrite H0, H1 in Hl.
  assert (forall i g, gs !! i = Some g -> in_hand g = []) as Hhand.
  { intros j h Hj. destruct (Hst j h Hj) as [Hd|Hw].
    - by destruct h as [| [] |[]].
    - destruct h as [|[] n|[b|] n]; simpl in Hw; try done. rewrite Hl in Hw.
      by destruct Hw as (? & ? & ? & ?). }
  assert (forall x, under_way x v gs = 0) as Hu.
  { intros x. unfold under_way. rewrite H0, H1. apply sum_list_zero. intros j h Hj.
  by rewrite (Hhand j h Hj). }
  intros Hi. pose proof (co_each _ _ Hc i g Hi) as Hok.
  destruct (Hst i g Hi) as [Hd|Hw].
  - destruct g as [[] got [|]|[] n|[|] n]; try done; eauto.
  - destruct g as [[] got t|[] n|[|] n]; simpl in Hw; try done; eauto; rewrite ?Hl in Hw;
      try by destruct Hw as (? & ? & ? & ?).
    destruct Hok as (past & _ & _ & _ & Ht). destruct t as [|m t]; [done|].
    destruct Ht as [[(_ & Hone & _)|[_ Hr]] _]; [by rewrite Hu in Hone|].
    rewrite Hr in Hw. by destruct Hw.
Qed.

Lemma stuck_zero v gs (f : party -> nat) :
  converses v gs -> stuck v gs -> (forall got, f (Requester Idle got []) = 0) ->
  (forall n, f (Service Free n) = 0) -> (forall n, f (Listener None n) = 0) -> sum_list_with f gs = 0.
Proof.
  intros Hc Hst Hf1 Hf2 Hf3. apply sum_list_zero. intros i g Hi.
  by destruct (stuck_party _ _ i g Hc Hst Hi) as [(? & ->)|[(? & ->)|(? & ->)]].
Qed.

Lemma stuck_requester v gs i ms :
  converses v gs -> stuck v gs -> jobs !! i = Some ms ->
  gs !! i = Some (Requester Idle (answer <$> ms) []) /\ Forall (fun m => quiet v gs (id m)) ms.
Proof.
  intros Hc Hst Hms. pose proof (lookup_lt_Some _ _ _ Hms).
  destruct (lookup_lt_is_Some_2 gs i) as [g Hg]; [rewrite (co_len _ _ Hc); lia|].
  pose proof (co_each _ _ Hc i g Hg) as Hok.
  destruct (stuck_party _ _ i g Hc Hst Hg) as [(got & ->)|[(n & ->)|(n & ->)]]; [|destruct Hok; lia..].
  destruct Hok as (past & Hp & -> & Hq & _). rewrite app_nil_r in Hp. by simplify_eq.
Qed.

(** The service and the listener have nothing left to take. *)
Lemma stuck_server v gs i :
  converses v gs -> stuck v gs -> length jobs <= i -> i < S (S (length jobs)) ->
  gs !! i = Some (if decide (i = length jobs) then Service Free 0 else Listener None 0).
Proof.
  intros Hc Hst Hle Hlt. destruct (co_balanced _ _ Hc) as [_ Hs Hh].
  destruct (stuck_queues _ _ Hc Hst) as [H0 H1]. rewrite H0, H1 in *.
  rewrite (stuck_zero v gs owed) in Hs, Hh by done. rewrite (stuck_zero v gs unanswered) in Hh by done.
  destruct (lookup_lt_is_Some_2 gs i) as [g Hg]; [by rewrite (co_len _ _ Hc)|].
  pose proof (co_each _ _ Hc _ g Hg) as Hok.
  pose proof (sum_list_lookup to_serve gs i g Hg) as Hns.
  pose proof (sum_list_lookup to_hear gs i g Hg) as Hnh.
  simpl in Hs, Hh. rewrite Hg.
  destruct (stuck_party _ _ i g Hc Hst Hg) as [(got & ->)|[(n & ->)|(n & ->)]]; simpl in Hns, Hnh.
  - destruct Hok as (past & Hp & _). apply lookup_lt_Some in Hp. lia.
  - destruct Hok as [-> _]. rewrite decide_True by done. by assert (n = 0) as -> by lia.
  - destruct Hok as [-> _]. rewrite decide_False by lia. by assert (n = 0) as -> by lia.
Qed.

(** Every request has its answer, and nothing is left of any of them. *)
Lemma conversed v gs :
  converses v gs -> stuck v gs ->
  (forall i ms, jobs !! i = Some ms -> gs !! i = Some (Requester Idle (answer <$> ms) [])) /\
  gs !! length jobs = Some (Service Free 0) /\ gs !! S (length jobs) = Some (Listener None 0) /\
  cv_lines v = [([], 1); ([], 1)] /\ (forall m, asked m -> cv_waiters v !! id m = None).
Proof.
  intros Hc Hst. split_and!.
  - intros i ms Hms. by apply (stuck_requester v gs).
  - rewrite (stuck_server v gs) by (done || lia). by rewrite decide_True.
  - rewrite (stuck_server v gs) by (done || lia). rewrite decide_False; [done|lia].
  - destruct (stuck_queues _ _ Hc Hst) as [H0 H1]. rewrite (ba_lines _ _ (co_balanced _ _ Hc)), H0, H1.
    by rewrite !(stuck_zero v gs) by done.
  - intros m (i & ms & Hms & Hm). destruct (stuck_requester v gs i ms Hc Hst Hms) as [_ Hq].
    rewrite list.Forall_forall in Hq. by apply Hq.
Qed.
End Jobs.
End Conversation.
