(* ===== verification/Sharing.v ===== *)
(** * Sharing: consumers that share a line through a dispatcher, abstractly

    Senders put messages into one line. A consumer that wants a message opens a one-value channel
    and queues its key, its token; the dispatcher takes a token, then a message, and hands the one
    to the channel of the other. All of them take steps in any order. A history of sends and a
    history of deliveries explain every execution ([shares]); where nobody can go on, everything
    has been delivered ([shared]). *)

From S2P Require Import Prelude.
From S2P Require Import ChanIface.
From S2P Require Import Mutex.

Local Open Scope broker_scope.

(** ** Definitions *)

Section Sharing.
Context {M : Type}.
Implicit Types (i j k n r : nat) (m : M) (q t got late : list M).

(** The line, the queued tokens, the one-value channels, the next key. *)
Record share_view := mkShare {
  sv_lines : list (list M * nat);
  sv_tokens : list nat;
  sv_replies : gmap nat (oneshot_view M);
  sv_fresh : nat;
}.
Implicit Types v : share_view.

Definition touch_line (f : list M * nat -> list M * nat) j v : share_view :=
  mkShare (alter f j (sv_lines v)) (sv_tokens v) (sv_replies v) (sv_fresh v).

(** A sender has no handle, holds one with the message still in hand, or has queued it. *)
Inductive sending := Between | Holding | Queued.

(** A consumer's channel is new, or its token is queued. *)
Inductive taking := Resting | Opened (r : nat) | Asked (r : nat).

(** The dispatcher has nothing, a token, or a token and a message. *)
Inductive serving := Ready | Token (r : nat) | Handing (r : nat) (m : M).

(** A sender with its messages to come; a consumer with what it [got] and how many more it
    takes; the dispatcher with the rounds it still makes. *)
Inductive party :=
| Sender (st : sending) (t : list M)
| Consumer (st : taking) (got : list M) (n : nat)
| Dispatcher (st : serving) (n : nat).

Inductive move : share_view -> party -> share_view -> party -> Prop :=
| move_grab v m t :
    move v (Sender Between (m :: t)) (touch_line (fun y => (y.1, S y.2)) 0 v) (Sender Holding (m :: t))
| move_put v m t :
    move v (Sender Holding (m :: t)) (touch_line (fun y => (y.1 ++ [m], y.2)) 0 v) (Sender Queued t)
| move_release v t :
    move v (Sender Queued t) (touch_line (fun y => (y.1, pred y.2)) 0 v) (Sender Between t)
| move_open v got n :
    move v (Consumer Resting got (S n))
      (mkShare (sv_lines v) (sv_tokens v) (<[sv_fresh v :=
        view_oneshot]> (sv_replies v)) (S (sv_fresh v)))
      (Consumer (Opened (sv_fresh v)) got (S n))
| move_ask v r got n :
    move v (Consumer (Opened r) got n)
      (mkShare (sv_lines v) (sv_tokens v ++ [r]) (sv_replies v) (sv_fresh v))
      (Consumer (Asked r) got n)
| move_receive v r o m got n : sv_replies v !! r = Some o -> value o = Some m ->
    move v (Consumer (Asked r) got (S n))
      (mkShare (sv_lines v) (sv_tokens v)
         (<[r := mkOneshot None (sender_alive o) (receiver_alive o)]> (sv_replies v)) (sv_fresh v))
      (Consumer Resting (got ++ [m]) n)
| move_token v r l n : sv_tokens v = r :: l ->
    move v (Dispatcher Ready (S n)) (mkShare (sv_lines v) l (sv_replies v) (sv_fresh v))
      (Dispatcher (Token r) n)
| move_message v r m q k n : sv_lines v !! 0 = Some (m :: q, k) ->
    move v (Dispatcher (Token r) (S n)) (touch_line (fun _ => (q, k)) 0 v) (Dispatcher (Handing r m) n)
| move_hand v r m n :
    move v (Dispatcher (Handing r m) (S n))
      (mkShare (sv_lines v) (sv_tokens v)
         (alter (fun o => (view_oneshot_send m o).2) r (sv_replies v)) (sv_fresh v))
      (Dispatcher Ready n).

(** Where a party may wait: for room, for a message or a token, for its delivery. *)
Definition waits v (g : party) : Prop :=
  match g with
  | Sender Holding _ => exists m q n, sv_lines v !! 0 = Some (m :: q, n)
  | Consumer (Opened _) _ _ => sv_tokens v <> []
  | Consumer (Asked r) _ _ =>
      match sv_replies v !! r with
      | Some o => value o = None /\ sender_alive o = true
      | None => True
      end
  | Dispatcher Ready (S _) => sv_tokens v = []
  | Dispatcher (Token _) (S _) => exists n, sv_lines v !! 0 = Some ([], S n)
  | _ => False
  end.

(** Where a party is lost: its channel or its line is closed. *)
Definition lost v (g : party) : Prop :=
  match g with
  | Consumer (Asked r) _ _ =>
      exists o, sv_replies v !! r = Some o /\ value o = None /\ sender_alive o = false
  | Dispatcher (Token _) (S _) => sv_lines v !! 0 = Some ([], 0)
  | Dispatcher (Handing r _) (S _) => ~ exists o, sv_replies v !! r = Some o /\ receiver_alive o = true
  | _ => False
  end.

Definition done_with (g : party) : Prop :=
  match g with Sender Between [] | Consumer Resting _ O | Dispatcher _ O => True | _ => False end.

(** ** What explains an execution *)

Definition queued v : list M := match sv_lines v !! 0 with Some y => y.1 | None => [] end.
Definition handles (g : party) : nat :=
  match g with Sender (Holding | Queued) _ => 1 | _ => 0 end.

(** What the dispatcher holds, how far it is in the three rounds of a delivery. *)
Definition in_hand (st : serving) : list M := match st with Handing _ m => [m] | _ => [] end.
Definition holds (st : serving) : list nat :=
  match st with Token r | Handing r _ => [r] | Ready => [] end.
Definition phase (st : serving) : nat :=
  match st with Ready => 0 | Token _ => 1 | Handing _ _ => 2 end.

(** A delivery is [late] from when it is in the channel until the consumer takes it. *)
Definition taking_ok v (held : list nat) (st : taking) n late : Prop :=
  match st with
  | Resting => late = []
  | Opened r => late = [] /\ 0 < n /\ (r ∉ held) /\ sv_replies v !! r = Some view_oneshot
  | Asked r => 0 < n /\
      (late = [] /\ r ∈ held /\ sv_replies v !! r = Some view_oneshot \/
       exists m, late = [m] /\ (r ∉ held) /\ sv_replies v !! r = Some (mkOneshot (Some m) false true))
  end.

Section Jobs.
Context (jobs : list (list M)) (wants : list nat).

(** The parties are the senders with their jobs, the consumers, and the dispatcher. *)
Definition last_party : nat := length jobs + length wants.

(** [h] is the history of sends, [d] that of deliveries. *)
Definition party_ok v held (h d : list (nat * M)) i (g : party) : Prop :=
  match g with
  | Sender _ t => jobs !! i = Some (labelled i h ++ t)
  | Consumer st got n => exists j late, i = length jobs + j /\ wants !! j = Some (length got + n) /\
      labelled j d = got ++ late /\ taking_ok v held st n late
  | Dispatcher st n => i = last_party /\ 3 * length (concat jobs) <= n + phase st + 3 * length d
  end.

(** The channel of a consumer. *)
Definition reply_key (g : party) : option nat :=
  match g with Consumer (Opened r | Asked r) _ _ => Some r | _ => None end.

Record shares v gs (h d : list (nat * M)) (st : serving) : Prop := {
  sh_dispatcher : exists n, gs !! last_party = Some (Dispatcher st n);
  sh_line : sv_lines v = [(queued v, S (sum_list_with handles gs))];
  sh_queue : h.*2 = d.*2 ++ in_hand st ++ queued v;
  sh_held : NoDup (holds st ++ sv_tokens v);
  sh_owner r : r ∈ holds st ++ sv_tokens v -> exists i got n, gs !! i = Some (Consumer (Asked r) got n);
  sh_each i g : gs !! i = Some g -> party_ok v (holds st ++ sv_tokens v) h d i g;
  sh_keys : keyed reply_key (sv_fresh v) gs;
  sh_senders e : e ∈ h -> e.1 < length jobs;
  sh_consumers e : e ∈ d -> e.1 < length wants;
  sh_len : length gs = S last_party;
}.
Lemma share_key v g v' g' : move v g v' g' -> rekeyed reply_key (sv_fresh v) g (sv_fresh v') g'.
Proof. destruct 1; (split; [simpl; lia|auto]). Qed.

(** ** What a move leaves alone *)

(** A party that does not move itself. *)
Lemma share_frame v held h d v' held' h' d' k (g : party) :
  party_ok v held h d k g ->
  (forall st t, g = Sender st t -> labelled k h' = labelled k h) ->
  (forall st got n j, g = Consumer st got n -> k = length jobs + j -> labelled j d' = labelled j d) ->
  (forall r, reply_key g = Some r -> sv_replies v' !! r = sv_replies v !! r /\
    (r ∈ held' <-> r ∈ held)) ->
  (forall st n, g = Dispatcher st n -> length d' = length d) ->
  party_ok v' held' h' d' k g.
Proof.
  intros Hg Hh Hd Hr Hl. destruct g as [st t|st got n|st n]; simpl in *.
  - by rewrite (Hh st t).
  - destruct Hg as (j & late & Hk & Hw & Hj & Ht). exists j, late. split_and!; [done|done| |].
    + by rewrite (Hd st got n j).
    + destruct st as [|r|r]; simpl in *; [done|..]; destruct (Hr r eq_refl) as [-> Hiff];
        by setoid_rewrite Hiff.
  - by rewrite (Hl st n).
Qed.

Lemma dispatcher_stays (gs : list party) i (g g' : party) st :
  (exists n, gs !! last_party = Some (Dispatcher st n)) -> gs !! i = Some g ->
  (forall st' n, g <> Dispatcher st' n) -> exists n, <[i :=
    g']> gs !! last_party = Some (Dispatcher st n).
Proof.
  intros [n Hn] Hi Hg. exists n. rewrite list_lookup_insert_ne; [done|]. intros ->.
  rewrite Hn in Hi. simplify_eq. by destruct (Hg st n).
Qed.

(** ** Moves of senders *)

Lemma sender_produces v (gs : list party) i sd t v' g' :
  sv_lines v = [(queued v, S (sum_list_with handles gs))] ->
  gs !! i = Some (Sender sd t) -> move v (Sender sd t) v' g' ->
  exists sd' t' extra, g' = Sender sd' t' /\ t = extra ++ t' /\
    v' = mkShare [(queued v ++ extra, S (sum_list_with handles (<[i := g']> gs)))]
           (sv_tokens v) (sv_replies v) (sv_fresh v).
Proof.
  intros Hl Hi Hm. pose proof (sum_list_insert handles gs i _ g' Hi) as Hs. simpl in Hs.
  inversion Hm; subst; simpl in Hs; unfold touch_line; rewrite Hl; simpl.
  - eexists _, _, []. split_and!; [done..|]. rewrite app_nil_r. do 3 f_equal. lia.
  - eexists _, _, [_]. split_and!; [done..|]. do 3 f_equal. lia.
  - eexists _, _, []. split_and!; [done..|]. rewrite app_nil_r. do 3 f_equal. lia.
Qed.

Lemma sender_moves v gs h d st i sd t v' g' :
  shares v gs h d st -> gs !! i = Some (Sender sd t) -> move v (Sender sd t) v' g' ->
  exists h', shares v' (<[i := g']> gs) h' d st.
Proof.
  intros Hc Hi Hm. pose proof (sh_each _ _ _ _ _ Hc i _ Hi) as Hjob. simpl in Hjob.
  destruct (sender_produces _ _ _ _ _ _ _ (sh_line _ _ _ _ _ Hc) Hi Hm) as (sd' & t' & extra & ->
    & -> & ->).
  assert (forall k, labelled k ((i,.) <$> extra) = if decide (k = i) then extra else []) as Hown.
  { intros k. rewrite (labelled_own i), <-list_fmap_compose;
    [|by apply list.Forall_fmap, list.Forall_true].
    case_decide; [|done]. apply list_fmap_id. }
  exists (h ++ ((i,.) <$> extra)). split.
  - by eapply dispatcher_stays; [apply (sh_dispatcher _ _ _ _ _ Hc)|..].
  - done.
  - rewrite fmap_app, (sh_queue _ _ _ _ _ Hc), <-list_fmap_compose. unfold queued at 2. simpl.
    rewrite <-!app_assoc. do 3 f_equal. apply list_fmap_id.
  - apply (sh_held _ _ _ _ _ Hc).
  - intros r Hr. destruct (sh_owner _ _ _ _ _ Hc r Hr) as (j & got & n & Hj). exists j, got, n.
    rewrite list_lookup_insert_ne; [done|]. by intros ->; simplify_eq.
  - intros k g. rewrite list_lookup_insert_Some. intros [(<- & <- & _)|[Hki Hk]].
    + simpl. rewrite labelled_app, Hown, decide_True by done. by rewrite <-app_assoc.
    + eapply share_frame; [by apply (sh_each _ _ _ _ _ Hc)|..]; try done.
      intros _ _ _. by rewrite labelled_app, Hown, decide_False, app_nil_r.
  - eapply keyed_insert; [apply (sh_keys _ _ _ _ _ Hc)|done|by split; [|auto]].
  - intros e [He|He]%elem_of_app; [by apply (sh_senders _ _ _ _ _ Hc)|].
    apply list_elem_of_fmap in He as (m & -> & _). simpl. by eapply lookup_lt_Some.
  - apply (sh_consumers _ _ _ _ _ Hc).
  - by rewrite length_insert, (sh_len _ _ _ _ _ Hc).
Qed.

(** ** Moves of consumers *)

Lemma consumer_frame v gs h d st i ct got n v' ct' got' n' :
  shares v gs h d st -> gs !! i = Some (Consumer ct got n) ->
  move v (Consumer ct got n) v' (Consumer ct' got' n') -> sv_lines v' = sv_lines v ->
  NoDup (holds st ++ sv_tokens v') ->
  (forall r, r ∈ holds st ++ sv_tokens v' -> r ∈ holds st ++ sv_tokens v /\
    ct <> Asked r \/ ct' = Asked r) ->
  (forall k g r, gs !! k = Some g -> k <> i -> reply_key g = Some r ->
     sv_replies v' !! r = sv_replies v !! r /\
     (r ∈ holds st ++ sv_tokens v' <-> r ∈ holds st ++ sv_tokens v)) ->
  party_ok v' (holds st ++ sv_tokens v') h d i (Consumer ct' got' n') ->
  shares v' (<[i := Consumer ct' got' n']> gs) h d st.
Proof.
  intros Hc Hi Hm Hl Hnd Hown Hother Hok.
  pose proof (sum_list_insert handles gs i _ (Consumer ct' got' n') Hi) as Hs. simpl in Hs.
  assert (queued v' = queued v) as Eq by (unfold queued; by rewrite Hl). split.
  - by eapply dispatcher_stays; [apply (sh_dispatcher _ _ _ _ _ Hc)|..].
  - rewrite Hl, Eq, (sh_line _ _ _ _ _ Hc). do 3 f_equal. lia.
  - rewrite Eq. apply (sh_queue _ _ _ _ _ Hc).
  - done.
  - intros r Hr. destruct (Hown r Hr) as [[Hr' Hct]| ->].
    + destruct (sh_owner _ _ _ _ _ Hc r Hr') as (j & got1 & n1 & Hj). exists j, got1, n1.
      rewrite list_lookup_insert_ne; [done|]. by intros ->; simplify_eq.
    + eexists i, _, _. by eapply list_lookup_insert_eq, lookup_lt_Some.
  - intros k g. rewrite list_lookup_insert_Some. intros [(<- & <- & _)|[Hki Hk]]; [done|].
    eapply share_frame; [by apply (sh_each _ _ _ _ _ Hc)|done|done| |done].
    intros r. by apply (Hother k g).
  - eapply keyed_insert; [apply (sh_keys _ _ _ _ _ Hc)|done|by apply share_key].
  - apply (sh_senders _ _ _ _ _ Hc).
  - apply (sh_consumers _ _ _ _ _ Hc).
  - by rewrite length_insert, (sh_len _ _ _ _ _ Hc).
Qed.

(** What is held belongs to a consumer, so it is not fresh. *)
Lemma held_fresh v gs h d st r : shares v gs h d st -> r ∈ holds st ++ sv_tokens v -> r < sv_fresh v.
Proof.
  intros Hc Hr. destruct (sh_owner _ _ _ _ _ Hc r Hr) as (j & got & n & Hj).
  by eapply (keyed_fresh _ _ _ (sh_keys _ _ _ _ _ Hc)).
Qed.

Lemma consumer_moves v gs h d st i ct got n v' g' :
  shares v gs h d st -> gs !! i = Some (Consumer ct got n) -> move v (Consumer ct got n) v' g' ->
  shares v' (<[i := g']> gs) h d st.
Proof.
  intros Hc Hi Hm. pose proof (sh_each _ _ _ _ _ Hc i _ Hi) as (j & late & Hij & Hw & Hd & Ht).
  assert (forall k g r, gs !! k = Some g -> k <> i -> reply_key g = Some r ->
    r < sv_fresh v /\ reply_key (Consumer ct got n) <> Some r) as Hkeys.
  { intros k g r Hk Hki Hr. split; [by eapply (keyed_fresh _ _ _ (sh_keys _ _ _ _ _ Hc))|].
    intros Hr'. apply Hki. by eapply (keyed_apart _ _ _ (sh_keys _ _ _ _ _ Hc)). }
  inversion Hm as [| | |? ? n1|? r ? ?|? r o m ? n1 Ho Hv| | |]; subst;
    (eapply consumer_frame; [done..| | | |]); simpl in *.
  - apply (sh_held _ _ _ _ _ Hc).
  - by left.
  - intros k g r Hk Hki Hr. split; [|done]. rewrite lookup_insert_ne; [done|].
    destruct (Hkeys k g r Hk Hki Hr). lia.
  - exists j, late. split_and!; [done..|lia| |by rewrite lookup_insert_eq].
    intros Hf. apply (held_fresh _ _ _ _ _ _ Hc) in Hf. lia.
  - destruct Ht as (_ & _ & Hr & _). rewrite app_assoc. apply list.NoDup_app.
    split_and!; [apply (sh_held _ _ _ _ _ Hc)|set_solver|apply NoDup_singleton].
  - intros r'. rewrite app_assoc, elem_of_app, list_elem_of_singleton.
    intros [?| ->]; [by left|by right].
  - intros k g r' Hk Hki Hr. split; [done|]. destruct (Hkeys k g r' Hk Hki Hr) as [_ Hne].
    rewrite app_assoc, elem_of_app, list_elem_of_singleton. split; [intros [?| ->]; done|by left].
  - destruct Ht as (-> & ? & Hr & Hrep). exists j, []. split_and!; [done..|]. left. set_solver.
  - apply (sh_held _ _ _ _ _ Hc).
  - intros r' Hr'. left. split; [done|]. intros [= ->].
    destruct Ht as [_ [(_ & _ & E)|(? & _ & ? & _)]]; [|done].
    by rewrite Ho in E; simplify_eq.
  - intros k g r' Hk Hki Hr. split; [|done]. rewrite lookup_insert_ne; [done|].
    destruct (Hkeys k g r' Hk Hki Hr). congruence.
  - destruct Ht as [_ [(_ & _ & E)|(m' & -> & _ & E)]]; rewrite Ho in E; simplify_eq; simplify_eq/=.
    exists j, []. rewrite length_app, app_nil_r. split_and!; [done| |done|done]. rewrite Hw.
    f_equal. simpl. lia.
Qed.

(** ** Moves of the dispatcher *)

Lemma dispatcher_frame v gs h d st i st0 n v' d' st' n' :
  shares v gs h d st -> gs !! i = Some (Dispatcher st0 n) -> sv_fresh v' = sv_fresh v ->
  sv_lines v' = [(queued v', S (sum_list_with handles gs))] ->
  h.*2 = d'.*2 ++ in_hand st' ++ queued v' ->
  NoDup (holds st' ++ sv_tokens v') ->
  (forall r, r ∈ holds st' ++ sv_tokens v' -> r ∈ holds st ++ sv_tokens v) ->
  (forall e, e ∈ d' -> e.1 < length wants) ->
  (forall k g, gs !! k = Some g -> k <> i -> party_ok v' (holds st' ++ sv_tokens v') h d' k g) ->
  3 * length (concat jobs) <= n' + phase st' + 3 * length d' ->
  shares v' (<[i := Dispatcher st' n']> gs) h d' st'.
Proof.
  intros Hc Hi Hf Hl Hq Hnd Hheld Hd Hother Hn.
  pose proof (sum_list_insert handles gs i _ (Dispatcher st' n') Hi) as Hs. simpl in Hs.
  pose proof (sh_each _ _ _ _ _ Hc i _ Hi) as [-> _]. split; try done.
  - exists n'. by eapply list_lookup_insert_eq, lookup_lt_Some.
  - rewrite Hl. do 3 f_equal. lia.
  - intros r Hr. destruct (sh_owner _ _ _ _ _ Hc r (Hheld r Hr)) as (j & got1 & n1 & Hj).
    exists j, got1, n1. rewrite list_lookup_insert_ne; [done|]. by intros <-; simplify_eq.
  - intros k g. rewrite list_lookup_insert_Some.
    intros [(<- & <- & _)|[Hki Hk]]; [done|by apply Hother].
  - rewrite Hf. eapply keyed_insert; [apply (sh_keys _ _ _ _ _ Hc)|done|]. split; [done|by left].
  - apply (sh_senders _ _ _ _ _ Hc).
  - by rewrite length_insert, (sh_len _ _ _ _ _ Hc).
Qed.

(** The dispatcher that takes something hands nothing over. *)
Lemma others_stay v gs h d st v' st' :
  shares v gs h d st -> sv_replies v' = sv_replies v ->
  holds st' ++ sv_tokens v' = holds st ++ sv_tokens v ->
  forall k g, gs !! k = Some g -> party_ok v' (holds st' ++ sv_tokens v') h d k g.
Proof.
  intros Hc Hr -> k g Hk. eapply share_frame; [by apply (sh_each _ _ _ _ _ Hc)|done|done| |done].
  intros r _. by rewrite Hr.
Qed.

(** The consumer whose token the dispatcher holds waits for a message. *)
Lemma held_owner v gs h d st r :
  shares v gs h d st -> r ∈ holds st ++ sv_tokens v ->
  exists j got n, gs !! (length jobs + j) = Some (Consumer (Asked r) got n) /\ (0 < n) /\
      wants !! j = Some (length got + n) /\ labelled j d = got /\ sv_replies v !! r = Some view_oneshot.
Proof.
  intros Hc Hr. destruct (sh_owner _ _ _ _ _ Hc r Hr) as (i & got & n & Hi).
  pose proof (sh_each _ _ _ _ _ Hc i _ Hi) as (j & late & ->
    & Hw & Hd & Hn & [(-> & _ & E)|(m & _ & Hno & _)]); [|done].
  rewrite app_nil_r in Hd. by exists j, got, n.
Qed.

Lemma deliver_moves v gs h d r i m n :
  shares v gs h d (Handing r m) -> gs !! i = Some (Dispatcher (Handing r m) (S n)) ->
  exists d', shares (mkShare (sv_lines v) (sv_tokens v)
      (alter (fun o => (view_oneshot_send m o).2) r (sv_replies v)) (sv_fresh v))
    (<[i := Dispatcher Ready n]> gs) h d' Ready.
Proof.
  intros Hc Hi. pose proof (sh_held _ _ _ _ _ Hc) as [Hnr Hnd]%list.NoDup_cons.
  destruct (held_owner _ _ _ _ _ r Hc) as (j & got & n1 & Hj & Hn1 & Hw & Hd & Hrep);
    [by apply list_elem_of_here|].
  pose proof (sh_each _ _ _ _ _ Hc i _ Hi) as [_ Hrounds].
  exists (d ++ [(j, m)]). eapply dispatcher_frame; [exact Hc|exact Hi|done| | |done| | | |]; simpl.
  - apply (sh_line _ _ _ _ _ Hc).
  - rewrite (sh_queue _ _ _ _ _ Hc), fmap_app. by rewrite <-!app_assoc.
  - intros r' Hr'. by apply list_elem_of_further.
  - intros e [He| ->%list_elem_of_singleton]%elem_of_app; [by apply (sh_consumers _ _ _ _ _ Hc)|].
    simpl. by eapply lookup_lt_Some.
  - intros k g Hk Hki. destruct (decide (k = length jobs + j)) as [->|Hkj].
    + assert (g = Consumer (Asked r) got n1) as -> by congruence. exists j, [m].
      split_and!; [done|done| |].
      * by rewrite labelled_app, labelled_cons, decide_True, Hd.
      * split; [done|]. right. exists m. split_and!; [done|done|]. cbn [sv_replies].
        by rewrite lookup_alter_eq, Hrep.
    + eapply share_frame; [by apply (sh_each _ _ _ _ _ Hc)|done| | |].
      * intros st got' n' j' -> ->. rewrite labelled_app, labelled_cons, decide_False by lia.
        by rewrite app_nil_r.
      * intros r' Hr'. assert (r' <> r) as Hne.
        { intros ->. apply Hkj. by eapply (keyed_apart _ _ _ (sh_keys _ _ _ _ _ Hc)). }
        cbn [sv_replies]. rewrite lookup_alter_ne by done. split; [done|]. simpl.
        rewrite elem_of_cons. tauto.
      * intros st' n' ->. pose proof (sh_each _ _ _ _ _ Hc k _ Hk) as [-> _].
        pose proof (sh_each _ _ _ _ _ Hc i _ Hi) as [-> _]. done.
  - rewrite length_app. simpl in *. lia.
Qed.

Lemma dispatcher_moves v gs h d st i st0 n v' g' :
  shares v gs h d st -> gs !! i = Some (Dispatcher st0 n) -> move v (Dispatcher st0 n) v' g' ->
  exists d' st', shares v' (<[i := g']> gs) h d' st'.
Proof.
  intros Hc Hi Hm. pose proof (sh_each _ _ _ _ _ Hc i _ Hi) as [-> Hn].
  destruct (sh_dispatcher _ _ _ _ _ Hc) as [n0 Hst]. simplify_eq.
  pose proof (sh_line _ _ _ _ _ Hc) as Hl. pose proof (sh_queue _ _ _ _ _ Hc) as Hq.
  inversion Hm as [| | | | | |? r l n1 Ht|? r m q k n1 Hlk|? r m n1]; subst.
  - exists d, (Token r). pose proof (sh_held _ _ _ _ _ Hc) as Hnd. simpl in Hnd. rewrite Ht in Hnd.
    eapply dispatcher_frame; [done..| | | |].
    + simpl. by rewrite Ht.
    + apply (sh_consumers _ _ _ _ _ Hc).
    + intros k g Hk _. by eapply (others_stay _ _ _ _ _ _ (Token r)); [done|done|simpl; rewrite Ht|].
    + simpl in *. lia.
  - exists d, (Handing r m). rewrite Hl in Hlk. injection Hlk as Hqv <-. rewrite Hqv in Hq.
    eapply dispatcher_frame;
      [done|done|done| | |apply (sh_held _ _ _ _ _ Hc)|done|apply (sh_consumers _ _ _ _ _ Hc)| |].
    + unfold queued, touch_line. rewrite Hl. simpl. done.
    + rewrite Hq. unfold queued, touch_line. by rewrite Hl.
    + intros k g Hk _. by eapply (others_stay _ _ _ _ _ _ (Handing r m)).
    + simpl in *. lia.
  - destruct (deliver_moves _ _ _ _ _ _ _ _ Hc Hi) as [d' Hd']. by exists d', Ready.
Qed.

(** ** Executions *)

(** What some histories explain. *)
Definition sharing (c : share_view * list party) : Prop := exists h d st, shares c.1 c.2 h d st.

Lemma sharing_step c c' : sharing c -> ghost_step move c c' -> sharing c'.
Proof.
  intros (h & d & st & Hc) Hst. destruct Hst as [v gs i g v' g' Hi Hm]. unfold sharing. simpl in *.
  destruct g as [sd t|ct got n|st0 n].
  - destruct (sender_moves _ _ _ _ _ _ _ _ _ _ Hc Hi Hm) as [h' Hc']. by exists h', d, st.
  - exists h, d, st. by eapply consumer_moves.
  - destruct (dispatcher_moves _ _ _ _ _ _ _ _ _ _ Hc Hi Hm) as (d' & st' & Hc'). by exists h, d', st'.
Qed.

Lemma sharing_not_lost c i g : sharing c -> c.2 !! i = Some g -> ~ lost c.1 g.
Proof.
  intros (h & d & st & Hc) Hi Hlost. destruct g as [sd t|[|r|r] got n|[|r|r m] [|n]]; try done.
  - destruct Hlost as (o & Ho & Hv & Ha).
    pose proof (sh_each _ _ _ _ _ Hc i _ Hi) as (j & late & _ & _ & _ & _ & [(_ & _ & E)|(m & _ & _ & E)]);
      rewrite Ho in E; by simplify_eq.
  - simpl in Hlost. by rewrite (sh_line _ _ _ _ _ Hc) in Hlost.
  - apply Hlost. pose proof (sh_each _ _ _ _ _ Hc i _ Hi) as [-> _].
    destruct (sh_dispatcher _ _ _ _ _ Hc) as [n0 Hst]. simplify_eq.
    destruct (held_owner _ _ _ _ _ r Hc) as (j & got & n1 & _ & _ & _ & _ & Hrep);
      [by apply list_elem_of_here|].
    by eexists.
Qed.

(** ** The start *)

Definition starting (rounds : nat) : list party :=
  (Sender Between <$> jobs) ++ (Consumer Resting [] <$> wants) ++ [Dispatcher Ready rounds].

Lemma starting_lookup rounds i g :
  starting rounds !! i = Some g <->
  (exists t, jobs !! i = Some t /\ g = Sender Between t) \/
  (exists j w, i = length jobs + j /\ wants !! j = Some w /\ g = Consumer Resting [] w) \/
  i = last_party /\ g = Dispatcher Ready rounds.
Proof.
  unfold starting, last_party.
  rewrite !lookup_app_Some, !list_lookup_fmap_Some, !length_fmap, list_lookup_singleton_Some.
  split.
  - intros [(t & -> & Ht)|[Hi [(w & -> & Hw)|(Hj & Hz & <-)]]].
    + left. by exists t.
    + right. left. exists (i - length jobs), w. split_and!; [lia|done..].
    + right. right. split; [lia|done].
  - intros [(t & Ht & ->)|[(j & w & -> & Hw & ->)|[-> ->]]].
    + left. by exists t.
    + right. split; [lia|]. left. exists w. by replace (length jobs + j - length jobs) with j by lia.
    + right. split; [lia|]. right. split_and!; [lia..|done].
Qed.

Lemma shares_start v rounds :
  sv_lines v = [([], 1)] -> sv_tokens v = [] -> 3 * length (concat jobs) <= rounds ->
  shares v (starting rounds) [] [] Ready.
Proof.
  intros Hl Ht Hr. split.
  - exists rounds. apply starting_lookup. by right; right.
  - unfold queued. rewrite Hl. do 3 f_equal. symmetry. apply sum_list_zero.
    by intros i g [(t & _ & ->)|[(j & w & _ & _ & ->)|[_ ->]]]%starting_lookup.
  - unfold queued. by rewrite Hl.
  - rewrite Ht. constructor.
  - rewrite Ht. by intros r ?%not_elem_of_nil.
  - intros i g [(t & Hi & ->)|[(j & w & -> & Hw & ->)|[-> ->]]]%starting_lookup; simpl.
    + done.
    + by exists j, [].
    + split; [done|lia].
  - apply keyed_none. by intros i g [(t & _ & ->)|[(j & w & _ & _ & ->)|[_ ->]]]%starting_lookup.
  - by intros e He%elem_of_nil.
  - by intros e He%elem_of_nil.
  - unfold starting, last_party. rewrite !length_app, !length_fmap. simpl. lia.
Qed.

(** ** Nobody can go on *)

Definition stuck v (gs : list party) : Prop :=
  forall i g, gs !! i = Some g -> done_with g \/ waits v g.

Lemma job_party v gs h d st i t :
  shares v gs h d st -> jobs !! i = Some t ->
  exists sd t', gs !! i = Some (Sender sd t') /\ t = labelled i h ++ t'.
Proof.
  intros Hc Ht. pose proof (lookup_lt_Some _ _ _ Ht) as Hlt.
  destruct (lookup_lt_is_Some_2 gs i) as [g Hg];
    [rewrite (sh_len _ _ _ _ _ Hc); unfold last_party; lia|].
  pose proof (sh_each _ _ _ _ _ Hc i g Hg) as Hok. unfold party_ok, last_party in *.
  destruct g as [sd t'|ct got n|st0 n]; [|destruct Hok as (j & _ & -> & _)|destruct Hok as [-> _]];
    [|lia..].
  simplify_eq. by exists sd, t'.
Qed.

Lemma want_party v gs h d st j w :
  shares v gs h d st -> wants !! j = Some w ->
  exists ct got n late, gs !! (length jobs + j) = Some (Consumer ct got n) /\ w = length got + n /\
    labelled j d = got ++ late /\ taking_ok v (holds st ++ sv_tokens v) ct n late.
Proof.
  intros Hc Hw. pose proof (lookup_lt_Some _ _ _ Hw) as Hlt.
  destruct (lookup_lt_is_Some_2 gs (length jobs + j)) as [g Hg];
    [rewrite (sh_len _ _ _ _ _ Hc); unfold last_party; lia|].
  pose proof (sh_each _ _ _ _ _ Hc _ g Hg) as Hok. unfold party_ok, last_party in *.
  destruct g as [sd t'|ct got n|st0 n]; [| |destruct Hok; lia].
  - apply lookup_lt_Some in Hok. lia.
  - destruct Hok as (j' & late & Hj & Hw' & Hd & Ht). assert (j' = j) as -> by lia. simplify_eq.
    by exists ct, got, n, late.
Qed.

(** No more is sent than there is, and all of it only when every sender is through. *)
Lemma sent_total v gs h d st :
  shares v gs h d st ->
  length h <= length (concat jobs) /\
  (length (concat jobs) <= length h <-> forall i t, jobs !! i = Some t -> labelled i h = t).
Proof.
  intros Hc. rewrite <-sum_list_lengths, <-sum_list_fmap.
  destruct (labelled_total (length <$> jobs) h) as [Hle Hiff].
  - intros e He. rewrite length_fmap. by apply (sh_senders _ _ _ _ _ Hc).
  - intros i b Hb. apply list_lookup_fmap_Some in Hb as (t & -> & Ht).
    destruct (job_party _ _ _ _ _ _ _ Hc Ht) as (sd & t' & _ & ->). rewrite length_app. lia.
  - split; [done|]. rewrite Hiff. split; intros Hall i.
    + intros t Ht. destruct (job_party _ _ _ _ _ _ _ Hc Ht) as (sd & t' & _ & E).
      specialize (Hall i (length t)). rewrite list_lookup_fmap, Ht in Hall. specialize (Hall eq_refl).
      rewrite E, length_app in Hall. assert (length t' = 0) as Hz by lia.
      apply length_zero_iff_nil in Hz as ->. by rewrite E, app_nil_r.
    + intros b Hb. apply list_lookup_fmap_Some in Hb as (t & -> & Ht). by rewrite (Hall i t Ht).
Qed.

Lemma taken_total v gs h d st :
  shares v gs h d st ->
  length d <= sum_list wants /\
  (sum_list wants <= length d <-> forall j w, wants !! j = Some w -> length (labelled j d) = w).
Proof.
  intros Hc. apply labelled_total; [apply (sh_consumers _ _ _ _ _ Hc)|].
  intros j w Hw. destruct (want_party _ _ _ _ _ _ _ Hc Hw) as (ct & got & n & late & _ & -> & -> & Ht).
  rewrite length_app. destruct ct as [|r|r]; simpl in Ht;
    [subst; simpl; lia|destruct Ht as [-> _]; simpl; lia|].
  destruct Ht as [Hn [[-> _]|(m & -> & _)]]; simpl; lia.
Qed.

(** Where nobody can go on, the senders are through or there is something in the queue. *)
Lemma stuck_senders v gs h d st i sd t :
  shares v gs h d st -> stuck v gs -> queued v = [] -> gs !! i = Some (Sender sd t) ->
  sd = Between /\ t = [].
Proof.
  intros Hc Hst Hq Hi. destruct (Hst i _ Hi) as [Hd|Hw]; destruct sd; try done; [by destruct t|].
  destruct Hw as (m & q & n & Hl). rewrite (sh_line _ _ _ _ _ Hc), Hq in Hl. done.
Qed.

(** A consumer that still waits has its token with the dispatcher. *)
Lemma stuck_consumers v gs h d st j w :
  shares v gs h d st -> stuck v gs -> wants !! j = Some w ->
  gs !! (length jobs + j) = Some (Consumer Resting (labelled j d) 0) /\ length (labelled j d) = w \/
  holds st ++ sv_tokens v <> [] /\ length (labelled j d) < w.
Proof.
  intros Hc Hst Hw. destruct (want_party _ _ _ _ _ _ _ Hc Hw) as (ct & got & n & late & Hi & ->
    & -> & Ht).
  destruct (Hst _ _ Hi) as [Hd|Hwait]; destruct ct as [|r|r]; try done; simpl in Ht.
  - left. destruct n as [|n]; [|done]. subst late. rewrite app_nil_r. split; [done|lia].
  - right. destruct Ht as (-> & Hn & _). rewrite app_nil_r. split; [|lia]. simpl in Hwait.
    intros E. by apply app_eq_nil in E as [_ ?].
  - right. simpl in Hwait.
    destruct Ht as [Hn [(-> & Hr & _)|(m & _ & _ & E)]]; [|by rewrite E in Hwait; destruct Hwait].
    rewrite app_nil_r. split; [|lia]. intros E. rewrite E in Hr. by apply not_elem_of_nil in Hr.
Qed.

(** Then everything has been handed over. *)
Lemma stuck_total v gs h d st :
  shares v gs h d st -> stuck v gs -> sum_list wants = length (concat jobs) ->
  st = Ready /\ length (concat jobs) <= length d.
Proof.
  intros Hc Hst Hsum. destruct (sh_dispatcher _ _ _ _ _ Hc) as [n Hn].
  pose proof (sh_each _ _ _ _ _ Hc _ _ Hn) as [_ Hrounds].
  destruct (sent_total _ _ _ _ _ Hc) as [Hh Hsent], (taken_total _ _ _ _ _ Hc) as [_ Htaken].
  pose proof (f_equal length (sh_queue _ _ _ _ _ Hc)) as Hq. rewrite !length_app, !length_fmap in Hq.
  assert (forall r, r ∈ holds st ++ sv_tokens v -> length d < length (concat jobs)) as Hheld.
  { intros r Hr. destruct (held_owner _ _ _ _ _ r Hc Hr) as (j & got & n1 & _ & Hn1 & Hw & Hd & _).
    destruct (decide (sum_list wants <= length d)) as [Hle|]; [|lia].
    pose proof (proj1 Htaken Hle j _ Hw). rewrite Hd in *. lia. }
  destruct st as [|r|r m]; simpl in *.
  - split; [done|]. destruct (Hst _ _ Hn) as [Hd|Hwait]; destruct n as [|n]; try done; [lia|].
    simpl in Hwait. rewrite <-Hsum. apply Htaken. intros j w Hw.
    destruct (stuck_consumers _ _ _ _ _ _ _ Hc Hst Hw) as [[_ ?]|[Hne _]]; [done|].
    by simpl in Hne; rewrite Hwait in Hne.
  - exfalso. specialize (Hheld r (list_elem_of_here _ _)).
    destruct (Hst _ _ Hn) as [Hd|Hwait]; destruct n as [|n]; try done; [lia|].
    destruct Hwait as (k & Hk). rewrite (sh_line _ _ _ _ _ Hc) in Hk. injection Hk as Hk _.
    assert (length (concat jobs) <= length h) as Hall; [|rewrite Hk in Hq; simpl in Hq; lia].
    apply Hsent. intros i t Ht. destruct (job_party _ _ _ _ _ _ _ Hc Ht) as (sd & t' & Hi & ->).
    destruct (stuck_senders _ _ _ _ _ _ _ _ Hc Hst Hk Hi) as [_ ->]. by rewrite app_nil_r.
  - exfalso. destruct (Hst _ _ Hn) as [Hd|Hwait]; [|done]. destruct n as [|n]; [|done]. lia.
Qed.

(** The same messages have been sent and taken, and nothing is left behind. *)
Lemma shared v gs h d st :
  shares v gs h d st -> stuck v gs -> sum_list wants = length (concat jobs) ->
  h.*2 = d.*2 /\
  (forall i t, jobs !! i = Some t -> gs !! i = Some (Sender Between []) /\ labelled i h = t) /\
  (forall j w, wants !! j = Some w ->
     gs !! (length jobs + j) = Some (Consumer Resting (labelled j d) 0) /\ length (labelled j d) = w) /\
  sv_lines v = [([], 1)] /\ sv_tokens v = [].
Proof.
  intros Hc Hst Hsum. destruct (stuck_total _ _ _ _ _ Hc Hst Hsum) as [-> Hd].
  destruct (sent_total _ _ _ _ _ Hc) as [Hh Hsent], (taken_total _ _ _ _ _ Hc) as [_ Htaken].
  pose proof (sh_queue _ _ _ _ _ Hc) as Hq. simpl in Hq.
  pose proof (f_equal length Hq) as Hlen. rewrite length_app, !length_fmap in Hlen.
  assert (queued v = []) as Eq by (apply length_zero_iff_nil; lia).
  assert (sv_tokens v = []) as Et.
  { destruct (sv_tokens v) as [|r l] eqn:E; [done|exfalso].
    destruct (held_owner _ _ _ _ _ r Hc) as (j & got & n & _ & Hn & Hw & Hgot & _);
      [simpl; rewrite E; apply list_elem_of_here|].
    pose proof (proj1 Htaken ltac:(lia) j _ Hw). rewrite Hgot in *. lia. }
  split_and!.
  - by rewrite Hq, Eq, app_nil_r.
  - intros i t Ht. destruct (job_party _ _ _ _ _ _ _ Hc Ht) as (sd & t' & Hi & E).
    destruct (stuck_senders _ _ _ _ _ _ _ _ Hc Hst Eq Hi) as [-> ->]. rewrite app_nil_r in E. by subst.
  - intros j w Hw. destruct (stuck_consumers _ _ _ _ _ _ _ Hc Hst Hw) as [?|[Hne _]]; [done|].
    by simpl in Hne; rewrite Et in Hne.
  - rewrite (sh_line _ _ _ _ _ Hc), Eq. do 3 f_equal. apply sum_list_zero.
    intros i g Hi. destruct g as [sd t|ct got n|st n]; [|done..].
    by destruct (stuck_senders _ _ _ _ _ _ _ _ Hc Hst Eq Hi) as [-> _].
  - done.
Qed.
End Jobs.
End Sharing.
