(* ===== verification/Quiet.v ===== *)
(** * Quiet: the operations that leave the registry and its mutex alone

    A computation is quiet when none of its steps changes the published snapshot or the mutex
    that guards it ([quiet_proc] of Mutex.v). Everything but the three methods that take the mutex
    is quiet; what runs under the mutex is moreover never made to wait. *)

From S2P Require Import Prelude.
From S2P Require Import Protocol.
From S2P Require Import ChanIface.
From S2P Require Import Async.
From S2P Require Import Mutex.
From S2P Require Import Registry.
From S2P Require Import World.
From S2P Require Import Channel.
From S2P Require Import Routing.
From S2P Require Import RegistryOps.
From S2P Require Import Dispatcher.
From S2P Require Import Subscriber.
From S2P Require Import Transport.
From S2P Require Import ReplyDispatcher.
From S2P Require Import Publisher.
From S2P Require Import Client.

Local Open Scope broker_scope.

Create HintDb quiet.
#[export] Hint Constants Opaque : quiet.

(** ** Definitions *)

Definition locked {D : Deps} (w : World) : bool := held (register_mutex w).

(** The mutex is held in both states or in neither, and the snapshot is the same. *)
Definition same {D : Deps} (w w' : World) : Prop := locked w' = locked w /\ inner w' = inner w.

Abbreviation quiet := (quiet_proc locked inner).

(** A store of channels is kept apart from the registry. *)
Class QuietChannels {D : Deps} (M : Type) `{!Channels M} :=
  quiet_set_channels : forall m w, same w (set_channels m w).

#[export] Instance quiet_messages {D : Deps} : QuietChannels Message.
Proof. done. Qed.
#[export] Instance quiet_requests {D : Deps} : QuietChannels oneshot_id.
Proof. done. Qed.

#[export] Instance same_preorder {D : Deps} : PreOrder (@same D).
Proof.
  split; [done|]. intros w1 w2 w3 [L1 I1] [L2 I2]. split; congruence.
Qed.

Section Quiet.
Context {D : Deps}.
Implicit Types (w : World) (b : bool).

(** ** Steps *)

Lemma quiet_ret {A} b (a : A) : quiet b (Ret a).
Proof. done. Qed.

Lemma quiet_act {A} b (f : World -> World * A) : (forall w, same w (f w).1) -> quiet b (act f).
Proof. intros Hf. split; [done|]. intros w. specialize (Hf w). by destruct (f w). Qed.

Lemma quiet_write b (f : World -> World) : (forall w, same w (f w)) -> quiet b (write f).
Proof. intros Hf. by apply quiet_act. Qed.

Lemma quiet_read {A} b (f : World -> A) : quiet b (read f).
Proof. by apply quiet_act. Qed.

Lemma quiet_alloc b put : (forall k w, same w (put k w)) -> quiet b (alloc put).
Proof. intros Hp. apply quiet_act. intros w. apply Hp. Qed.

Lemma quiet_await {A} (f : World -> option (World * A)) :
  (forall w w' a, f w = Some (w', a) -> same w w') -> quiet true (await f).
Proof.
  intros Hf. split; [by intros g w [= <-]|]. intros w.
  destruct (f w) as [[w' a]|] eqn:E; [|done]. split; [by eapply Hf|done].
Qed.

Lemma quiet_block {A} (f : World -> option (World * A)) :
  (forall w w' a, f w = Some (w', a) -> same w w') -> quiet true (block f).
Proof.
  intros Hf. split; [done|]. intros w.
  destruct (f w) as [[w' a]|] eqn:E; [|done]. split; [by eapply Hf|done].
Qed.

Lemma quiet_act_or_panic {A} b (f : World -> option (World * A)) :
  (forall w w' a, f w = Some (w', a) -> same w w') -> quiet b (act_or_panic f).
Proof.
  intros Hf. split; [done|]. intros w. destruct (f w) as [[w' a]|] eqn:E; [by split; [eapply Hf|]|done].
Qed.

Lemma quiet_guarded {A} b (d : bool -> World -> World) (p : proc World A) :
  (forall x w, same w (d x w)) -> quiet b p -> quiet b (guarded d p).
Proof.
  intros Hd. induction p as [a| |d0 f IH] using proc_ind'; cbn [guarded quiet_proc].
  - intros _. split; [done|]. intros w. split; [apply Hd|done].
  - intros _. split; [done|]. intros w. split; [apply Hd|done].
  - intros [Hd0 Hp]. split.
    + destruct d0 as [g|]; intros g' w [= <-].
      change (same w (d false (g w))). etrans; [by apply Hd0|apply Hd].
    + intros w. specialize (Hp w). destruct (f w) as [[w' p']|] eqn:E; [|done].
      destruct Hp as [? ?]. split; [done|]. by eapply IH.
Qed.

Lemma same_foldr {A} (f : A -> World -> World) l w :
  (forall x w, same w (f x w)) -> same w (foldr f w l).
Proof. intros Hf. induction l as [|x l IH]; [done|]. cbn [foldr]. etrans; [exact IH|apply Hf]. Qed.
End Quiet.

#[export] Hint Resolve quiet_ret quiet_read : quiet.
#[global] Arguments quiet_proc : simpl never.

(** Follows the structure of a computation down to operations known to be quiet. *)
Ltac quiet :=
  repeat first
    [ done
    | match goal with |- forall _, _ => intro end
    | progress (cbn beta iota)
    | solve [eauto with quiet typeclass_instances nocore]
    | apply quiet_bind
    | apply quiet_guarded
    | apply quiet_owning
    | apply quiet_alloc
    | apply quiet_write
    | apply quiet_act
    | case_match ].

Section Operations.
Context {D : Deps}.
Implicit Types (w : World) (b : bool) (slot : slot_id) (g : group_id).

(** ** Channels *)

Section Channels.
Context {M : Type} `{QuietChannels M}.

Lemma same_poll {A} k (f : Chan M -> option (A * Chan M)) u u' a :
  poll_channel k f u = Some (u', a) -> same u u'.
Proof.
  unfold poll_channel. destruct (get_channels u !! k) as [c|]; [|done]. simpl.
  destruct (f c) as [[x c']|]; [|done]. intros [= <- _]. apply quiet_set_channels.
Qed.

Lemma quiet_send k (m : M) : quiet true (Sender_send k m).
Proof. apply quiet_await, same_poll. Qed.

Lemma quiet_try_send k (m : M) : quiet true (Sender_try_send k m).
Proof. apply quiet_block, same_poll. Qed.

Lemma quiet_recv k : quiet true (Receiver_recv (M := M) k).
Proof. apply quiet_await, same_poll. Qed.

Lemma quiet_try_recv k : quiet true (Receiver_try_recv (M := M) k).
Proof. apply quiet_block, same_poll. Qed.

Lemma quiet_channel b n : quiet b (channel (M := M) n).
Proof.
  apply quiet_act_or_panic. intros w w' a E.
  destruct (mpsc_channel n); simplify_eq/=. apply quiet_set_channels.
Qed.
End Channels.

Lemma quiet_request k : quiet true (RequestSender_request k).
Proof. apply quiet_bind; [by quiet|]. intros r.
  apply quiet_bind; [apply quiet_owning; [done|apply quiet_send]|]. quiet.
Qed.

(** ** Slots and groups *)

Lemma same_store_sender s slot w : same w (store_sender s slot w).
Proof. unfold store_sender. by destruct (slots w !! slot) as [[[]]|]. Qed.

Lemma same_take_and_abort g w : same w (take_and_abort g w).
Proof. unfold take_and_abort. destruct (groups w !! g) as [[? []]|]; done. Qed.

Lemma same_guard_sender slot w : same w (guard_sender slot w).1.
Proof. unfold guard_sender. by destruct (load_sender slot w). Qed.
End Operations.

#[export] Hint Resolve quiet_send quiet_try_send quiet_recv quiet_try_recv quiet_channel
  quiet_request same_store_sender same_take_and_abort same_guard_sender : quiet.

Section Operations2.
Context {D : Deps}.
Implicit Types (w : World) (b : bool) (slot : slot_id) (g : group_id).

Lemma quiet_mark_removed b slot : quiet b (mark_removed slot).
Proof. unfold mark_removed. quiet. Qed.

Lemma quiet_shutdown b g : quiet b (shutdown g).
Proof. unfold shutdown. pose proof (quiet_mark_removed b). quiet. Qed.

Lemma quiet_remove_slot b t slot : quiet b (remove_slot t slot).
Proof.
  pose proof (quiet_mark_removed b). pose proof (quiet_shutdown b).
  destruct t; unfold remove_slot; quiet.
Qed.

Lemma quiet_remove_consumer b g : quiet b (remove_consumer g).
Proof. pose proof (quiet_shutdown b). unfold remove_consumer. quiet. Qed.

Lemma quiet_group_subscribe b g : quiet b (LoadBalancedGroup_subscribe g).
Proof. unfold LoadBalancedGroup_subscribe. quiet. Qed.

Lemma quiet_group_factory b n address : quiet b (group_factory n address).
Proof.
  unfold group_factory, create_channel, SubscriptionSlot_new, new_load_balanced,
    LoadBalancedGroup_new, create_request_channel, new_slot, new_group, spawn. quiet.
Qed.

Lemma quiet_send_to_slot slot m : quiet true (send_to_slot slot m).
Proof. unfold send_to_slot. quiet. Qed.

Lemma quiet_target_send t m : quiet true (RouteTarget_send t m).
Proof. pose proof quiet_send_to_slot. destruct t; unfold RouteTarget_send; quiet. Qed.

Lemma quiet_target_closed t : quiet true (RouteTarget_is_closed t).
Proof. destruct t; unfold RouteTarget_is_closed, SubscriptionSlot_is_closed; quiet. Qed.
End Operations2.

#[export] Hint Resolve quiet_mark_removed quiet_shutdown quiet_remove_slot quiet_remove_consumer
  quiet_group_subscribe quiet_group_factory quiet_send_to_slot quiet_target_send
  quiet_target_closed : quiet.

Section Clients.
Context {D : Deps}.
Implicit Types (w : World) (b : bool).

(** ** Subscribers *)

Lemma same_reply_recv k w w' a : reply_recv k w = Some (w', a) -> same w w'.
Proof.
  unfold reply_recv. destruct (oneshots w !! k) as [o|]; [|done]. simpl.
  destruct (oneshot_recv o) as [[x o']|]; [|done]. by intros [= <- _].
Qed.

Lemma quiet_reply_recv k : quiet true (await (reply_recv k)).
Proof. apply quiet_await, same_reply_recv. Qed.

Lemma same_reply_send k m w : same w (reply_send k m w).1.
Proof.
  unfold reply_send. destruct (oneshots w !! k) as [o|]; [|done]. by destruct (oneshot_send m o).
Qed.

Lemma quiet_subscriber_recv s : quiet true (Subscriber_recv s).
Proof. pose proof quiet_reply_recv. destruct s as [[]]; unfold Subscriber_recv; cbn [mode]; quiet. Qed.

Lemma quiet_subscriber_try_recv s : quiet true (Subscriber_try_recv s).
Proof. destruct s as [[]]; unfold Subscriber_try_recv; cbn [mode]; quiet. Qed.

Lemma same_subscriber_drop s w : same w (Subscriber_drop s w).
Proof. destruct s as [[]]; unfold Subscriber_drop; simpl; by repeat case_match. Qed.

Lemma same_drop_unregistered slot k w : same w (drop_unregistered slot k w).
Proof. by apply (same_store_sender None slot w). Qed.

(** ** Replies *)

Lemma same_remove_entry k id w : same w (remove_entry k id w).
Proof. unfold remove_entry. by destruct (waiter_map k w !! id). Qed.

Lemma same_drop_waiter g r x w : same w (drop_waiter g r x w).
Proof. by apply (same_remove_entry _ _ (on_oneshot oneshot_drop_receiver r w)). Qed.

Lemma same_deliver_reply k m w : same w (deliver_reply k m w).
Proof.
  unfold deliver_reply. destruct (waiter_map k w !! _) as [r|]; [|done].
  by apply (same_reply_send r m (on_waiters _ k w)).
Qed.

Lemma same_clear_waiters k w : same w (clear_waiters k w).
Proof. by apply (same_foldr _ _ (on_waiters (fun _ => ∅) k w)). Qed.

Lemma quiet_guard_new k id : quiet true (WaiterGuard_new k id).
Proof. unfold WaiterGuard_new, new_oneshot. quiet. Qed.

Lemma quiet_dispatcher_drop d : quiet true (ReplyDispatcher_drop d).
Proof. pose proof same_clear_waiters. unfold ReplyDispatcher_drop. quiet. Qed.

Lemma quiet_dispatcher_new s : quiet true (ReplyDispatcher_new s).
Proof. unfold ReplyDispatcher_new, new_waiter_map, spawn. quiet. Qed.

Lemma quiet_await_reply t r : quiet true (await_reply t r).
Proof.
  unfold await_reply. quiet. apply quiet_await. intros w w' x.
  pose proof (same_reply_recv r w) as Hq. cbv zeta.
  destruct (reply_recv r w) as [[w1 y]|]; destruct (timeout_poll _ _ _) as [z|]; simpl;
    try done; intros [= <- _]; try done. by eapply Hq.
Qed.

Lemma quiet_request_with d t id p : quiet true p -> quiet true (request_with d t id p).
Proof.
  intros Hp. pose proof quiet_guard_new. pose proof quiet_await_reply.
  pose proof same_drop_waiter. unfold request_with, register_waiter. quiet.
Qed.

(** ** Dispatchers *)

Lemma same_drop_req_receiver k w : same w (drop_req_receiver k w).
Proof.
  unfold drop_req_receiver. destruct (reqs w !! k); [|done].
  by apply (same_foldr _ _ (on_req mpsc_drop_receiver k w)).
Qed.

Lemma same_dispatcher_drop env a w : same w (dispatcher_drop env a w).
Proof.
  unfold dispatcher_drop. etrans; [|apply same_drop_req_receiver]. by destruct a.
Qed.
End Clients.

#[export] Hint Resolve quiet_reply_recv quiet_subscriber_recv quiet_subscriber_try_recv
  quiet_guard_new quiet_dispatcher_drop quiet_dispatcher_new quiet_await_reply quiet_request_with
  same_drop_unregistered same_reply_send same_subscriber_drop same_remove_entry same_drop_waiter same_deliver_reply
  same_clear_waiters same_drop_req_receiver same_dispatcher_drop : quiet.

(** ** The in-memory transport and its publishers *)

(** Replaces the interfaces' methods by the in-memory ones. *)
Ltac in_memory :=
  cbn [resolve send_to in_memory_transport];
  unfold InMemoryTransport_send_to, ResolvedEndpoint_send, ResolvedEndpoint_is_valid;
  cbn [endpoint_send endpoint_is_valid in_memory_endpoint];
  unfold InMemoryEndpoint_send, InMemoryEndpoint_is_valid.

Section Publishing.
Context {D : Deps}.
Implicit Types (w : World) (p : Publisher InMemoryTransport).

Lemma quiet_lookup b address : quiet b (lookup address).
Proof. apply quiet_read. Qed.

Lemma quiet_resolve t address : quiet true (InMemoryTransport_resolve t address).
Proof. pose proof quiet_lookup. unfold InMemoryTransport_resolve, InMemoryEndpoint_new. quiet. Qed.

Lemma quiet_transport_send (t : InMemoryTransport) m : quiet true (Transport_send t m).
Proof.
  pose proof quiet_resolve. unfold Transport_send. in_memory. quiet.
Qed.

Lemma quiet_cache_lock k f : quiet true (cache_lock (E := InMemoryEndpoint) k f).
Proof.
  apply quiet_block. intros w w' a. simpl. destruct (caches w !! k); [|done]. simpl.
  destruct (f _); [|done]. by intros [= <- _].
Qed.

Lemma quiet_cache_update k f : quiet true (cache_update (E := InMemoryEndpoint) k f).
Proof. unfold cache_update. quiet. Qed.

Lemma quiet_valid_cached k : quiet true (valid_cached (E := InMemoryEndpoint) k).
Proof.
  unfold valid_cached. in_memory. quiet.
Qed.

Lemma quiet_get_or_resolve p : quiet true (get_or_resolve_endpoint p).
Proof.
  pose proof quiet_cache_lock. pose proof quiet_cache_update. pose proof quiet_valid_cached.
  pose proof quiet_resolve. unfold get_or_resolve_endpoint. in_memory. quiet.
Qed.

Lemma quiet_send_or_invalidate p ep m : quiet true (send_or_invalidate p ep m).
Proof.
  pose proof quiet_cache_lock. pose proof quiet_cache_update.
  unfold send_or_invalidate, invalidate_cache. in_memory. quiet.
Qed.

Lemma quiet_publisher_send p m : quiet true (Publisher_send p m).
Proof.
  pose proof quiet_get_or_resolve. pose proof quiet_send_or_invalidate.
  unfold Publisher_send. quiet.
Qed.

Lemma quiet_publisher_request p m : quiet true (Publisher_request p m).
Proof.
  pose proof quiet_get_or_resolve. pose proof quiet_send_or_invalidate.
  unfold Publisher_request. quiet.
Qed.

Lemma quiet_client_request self m : quiet true (BrokerClient_request self m).
Proof. apply quiet_request_with, quiet_transport_send. Qed.
End Publishing.

#[export] Hint Resolve quiet_lookup quiet_transport_send quiet_publisher_send
  quiet_publisher_request quiet_client_request : quiet.
