(* ===== verification/Typing.v ===== *)
(** * Typing: the well-formed states of the broker

    A store typing of the [World]: every key is one that has been handed out, every reference
    stored in an object, and every target in a route or a cache, is to an object of its kind, but
    for targets that programs made up ([MadeUp]); every counter is within its width, no queue is
    longer than its capacity, and no lock is held in two incompatible ways. Objects are never
    deleted, tasks apart, so what refers to one goes on to do so. The operations that update one
    store, and that they keep a state well typed. *)

From S2P Require Import Prelude.
From S2P Require Import Protocol.
From S2P Require Import ChanIface.
From S2P Require Import Async.
From S2P Require Import Preserve.
From S2P Require Import Registry.
From S2P Require Import RegistryFacts.
From S2P Require Import RegistryProps.
From S2P Require Import World.
From S2P Require Import Channel.
From S2P Require Import Routing.
From S2P Require Import RegistryOps.
From S2P Require Import Dispatcher.
From S2P Require Import Subscriber.
From S2P Require Import ReplyDispatcher.
From S2P Require Import Publisher.

Local Open Scope broker_scope.

(** ** Definitions *)

(** The route targets that programs may make up and register. *)
Class MadeUp := made_up : RouteTarget -> Prop.

Section Typing.
Context {D : Deps} {U : MadeUp}.
Implicit Types w : World.

Definition is_u64 (z : Z) : Prop := (0 <= z < 2 ^ 64)%Z.

Definition has_chan w (k : chan_id) : Prop := is_Some (chans w !! k).
Definition has_req w (k : req_id) : Prop := is_Some (reqs w !! k).
Definition has_oneshot w (k : oneshot_id) : Prop := is_Some (oneshots w !! k).
Definition has_slot w (k : slot_id) : Prop := is_Some (slots w !! k).
Definition has_group w (k : group_id) : Prop := is_Some (groups w !! k).
Definition has_waiters w (k : waiters_id) : Prop := is_Some (waiter_maps w !! k).

(** The state has grown: new keys have been handed out, and the objects there were are there. *)
Record extends w w' : Prop := {
  ext_next : (next_id w <= next_id w')%nat;
  ext_chan k : has_chan w k -> has_chan w' k;
  ext_req k : has_req w k -> has_req w' k;
  ext_oneshot k : has_oneshot w k -> has_oneshot w' k;
  ext_slot k : has_slot w k -> has_slot w' k;
  ext_group k : has_group w k -> has_group w' k;
  ext_waiters k : has_waiters w k -> has_waiters w' k;
}.

#[global] Instance extends_preorder : PreOrder extends.
Proof. split; [by split; auto|]. intros w1 w2 w3 [] []. split; [lia|auto..]. Qed.

(** A channel holds at most as many messages as its capacity, none once its receiver is gone. *)
Definition mpsc_ok {M} (v : mpsc_view M) : Prop :=
  (1 <= max_cap v <= max_permits)%Z /\ (Z.of_nat (length (queue v)) <= max_cap v)%Z /\
  (receiver v = false -> queue v = []).

(** A value is in a one-value channel only after its sender was used and while it can be read. *)
Definition one_ok {M} (v : oneshot_view M) : Prop :=
  is_Some (value v) -> sender_alive v = false /\ receiver_alive v = true.

(** A writer excludes everyone else. *)
Definition rw_ok {A} (l : rwlock A) : Prop :=
  rw_writer l = true -> rw_readers l = 0%nat /\ rw_upgradable l = false.

(** A channel whose messages satisfy [ok]. *)
Definition channel_ok {M} (ok : World -> M -> Prop) w (c : Chan M) : Prop :=
  mpsc_ok (mpsc_look c) /\ Forall (ok w) (queue (mpsc_look c)).

Definition chan_ok : World -> Chan Message -> Prop := channel_ok (fun _ _ => True).
Definition req_ok : World -> Chan oneshot_id -> Prop := channel_ok has_oneshot.
Definition oneshot_ok w (o : One Message) : Prop := one_ok (oneshot_look o).
Definition slot_ok w (s : SubscriptionSlot) : Prop :=
  is_u64 (slot_version s) /\ forall tx, sender s = Some tx -> has_chan w tx.
Definition group_ok w (g : LoadBalancedGroup) : Prop :=
  is_u64 (group_version g) /\ is_u64 (active_consumers g) /\ has_slot w (group_slot g) /\
  has_req w (req_tx g) /\ forall t, dispatcher_handle g = Some t -> (t < next_id w)%nat.
Definition waiters_ok w (m : gmap bytes oneshot_id) : Prop :=
  map_Forall (fun _ => has_oneshot w) m.

(** What a target refers to is there. *)
Definition target_ok w (t : RouteTarget) : Prop :=
  match t with Single slot => has_slot w slot | LoadBalancedTarget group => has_group w group end.
Definition routed_ok w (t : RouteTarget) : Prop := target_ok w t \/ made_up t.
Definition routes_ok w (i : RegistryInner Tree) : Prop := forall a t, route i a t -> routed_ok w t.
Definition endpoint_ok w (ep : InMemoryEndpoint) : Prop := routed_ok w (target ep).
Definition cache_ok w (l : rwlock (option InMemoryEndpoint)) : Prop :=
  rw_ok l /\ forall ep, rw_value l = Some ep -> endpoint_ok w ep.

Definition env_ok w (env : dispatcher_env) : Prop :=
  has_chan w (main_receiver env) /\ has_req w (req_rx env) /\ has_slot w (slot_for_drop env).
Definition at_ok w (at_ : dispatcher_at) : Prop :=
  match at_ with
  | WaitMessage reply_tx | Deliver reply_tx _ => has_oneshot w reply_tx
  | _ => True
  end.
Definition subscriber_ok w (s : Subscriber) : Prop :=
  match mode s with
  | Push rx => has_chan w rx
  | Pull req_sender group => has_req w req_sender /\ has_group w group
  end.
Definition task_state_ok w (t : task_state) : Prop :=
  match t with
  | DispatcherTask env at_ => env_ok w env /\ at_ok w at_
  | ListenerTask subscriber k => subscriber_ok w subscriber /\ has_waiters w k
  end.
Definition task_ok w (t : task) : Prop := task_state_ok w (state t).

(** Every entry of a store has a key that was handed out, and is well formed. *)
Definition store_ok {X} w (ok : World -> X -> Prop) (m : gmap nat X) : Prop :=
  map_Forall (fun k x => (k < next_id w)%nat /\ ok w x) m.

Record typed w : Prop := {
  ty_chans : store_ok w chan_ok (chans w);
  ty_reqs : store_ok w req_ok (reqs w);
  ty_oneshots : store_ok w oneshot_ok (oneshots w);
  ty_slots : store_ok w slot_ok (slots w);
  ty_groups : store_ok w group_ok (groups w);
  ty_waiters : store_ok w waiters_ok (waiter_maps w);
  ty_tasks : store_ok w task_ok (tasks w);
  ty_caches : store_ok w cache_ok (caches w);
  ty_routes : routes_ok w (inner w);
  ty_mutex : held (register_mutex w) = true -> poisoned (register_mutex w) = false;
}.

Abbreviation upd := (update typed extends).

(** ** Stability *)

Class Monotone {X} (ok : World -> X -> Prop) : Prop := {
  monotone x w w' : extends w w' -> ok w x -> ok w' x;
}.

#[global] Instance has_oneshot_mono : Monotone has_oneshot.
Proof. split. intros o w w' Hw. apply Hw. Qed.
#[global] Instance channel_ok_mono {M} (ok : World -> M -> Prop) `{!Monotone ok} :
  Monotone (channel_ok ok).
Proof.
  split. intros c w w' Hw [? Hq]. split; [done|]. eapply list.Forall_impl; [exact Hq|].
  intros m. by apply monotone.
Qed.
#[global] Instance chan_ok_mono : Monotone chan_ok.
Proof. apply channel_ok_mono. by split. Qed.
#[global] Instance req_ok_mono : Monotone req_ok.
Proof. apply channel_ok_mono, _. Qed.
#[global] Instance oneshot_ok_mono : Monotone oneshot_ok.
Proof. by split. Qed.
#[global] Instance slot_ok_mono : Monotone slot_ok.
Proof. split. intros s w w' Hw [? Hs]. split; [done|]. intros tx E. by apply Hw, Hs. Qed.
#[global] Instance group_ok_mono : Monotone group_ok.
Proof.
  split. intros g w w' Hw (? & ? & ? & ? & Ht). split_and!; [done..|by apply Hw|by apply Hw|].
  intros t E. pose proof (Ht t E). pose proof (ext_next _ _ Hw). lia.
Qed.
#[global] Instance waiters_ok_mono : Monotone waiters_ok.
Proof. split. intros m w w' Hw Hm. eapply map_Forall_impl; [exact Hm|]. intros i o. apply Hw. Qed.
#[global] Instance target_ok_mono : Monotone target_ok.
Proof. split. intros [slot|group] w w' Hw; apply Hw. Qed.
#[global] Instance routed_ok_mono : Monotone routed_ok.
Proof. split. intros t w w' Hw [Ht|Ht]; [left; by eapply monotone|by right]. Qed.
#[global] Instance routes_ok_mono : Monotone routes_ok.
Proof. split. intros i w w' Hw Hi a t Ht. eapply monotone; [exact Hw|]. by eapply Hi. Qed.
#[global] Instance endpoint_ok_mono : Monotone endpoint_ok.
Proof. split. intros ep w w'. apply (monotone (target ep)). Qed.
#[global] Instance cache_ok_mono : Monotone cache_ok.
Proof. split. intros l w w' Hw [? He]. split; [done|]. intros ep E. by eapply monotone, He. Qed.
#[global] Instance env_ok_mono : Monotone env_ok.
Proof. split. intros env w w' [] (? & ? & ?). split_and!; auto. Qed.
#[global] Instance at_ok_mono : Monotone at_ok.
Proof. split. intros at_ w w' []. destruct at_; simpl; auto. Qed.
#[global] Instance subscriber_ok_mono : Monotone subscriber_ok.
Proof. split. intros s w w' []. unfold subscriber_ok. destruct (mode s); naive_solver. Qed.
#[global] Instance task_state_ok_mono : Monotone task_state_ok.
Proof.
  split. intros [env at_|s k] w w' Hw [? ?]; (split; [by eapply monotone|]);
    [by eapply monotone|by apply Hw].
Qed.
#[global] Instance task_ok_mono : Monotone task_ok.
Proof. split. intros t w w'. apply (monotone (state t)). Qed.

Lemma store_ok_mono {X} (ok : World -> X -> Prop) `{!Monotone ok} w w' m :
  extends w w' -> store_ok w ok m -> store_ok w' ok m.
Proof.
  intros Hw Hm. eapply map_Forall_impl; [exact Hm|]. intros k x [? ?].
  split; [|by eapply monotone]. pose proof (ext_next _ _ Hw). lia.
Qed.

Lemma store_ok_insert {X} (ok : World -> X -> Prop) `{!Monotone ok} w w' m k x :
  extends w w' -> store_ok w ok m -> (k < next_id w)%nat -> ok w x -> store_ok w' ok (<[k := x]> m).
Proof.
  intros Hw Hm Hk Hx. apply map_Forall_insert_2; [|by eapply store_ok_mono].
  split; [|by eapply monotone]. pose proof (ext_next _ _ Hw). lia.
Qed.

Lemma store_ok_lookup {X} (ok : World -> X -> Prop) w m k x :
  store_ok w ok m -> m !! k = Some x -> (k < next_id w)%nat /\ ok w x.
Proof. intros Hm Hk. by apply Hm in Hk. Qed.

(** ** Updates of one store *)

Lemma is_Some_insert {X} (m : gmap nat X) k x j : is_Some (m !! j) -> is_Some (<[k := x]> m !! j).
Proof. intros. apply lookup_insert_is_Some'. by right. Qed.
End Typing.

Abbreviation upd := (update typed extends).

(** The store that changes keeps its entries, the others stay as they are. *)
Ltac put_store :=
  match goal with
  | |- update _ _ ?w ?w' =>
      let Hw := fresh "Hw" in let He := fresh "He" in
      intros Hw;
      assert (extends w w') as He
        by (split; [simpl; lia|intros j; solve [exact id|apply is_Some_insert]..]);
      split; [|exact He]; destruct Hw; split; try done;
      first [by apply (store_ok_mono _ _ _ _ He)|by apply (store_ok_insert _ _ _ _ _ _ He)
            |by apply (monotone _ _ _ He)]
  end.

Section Updates.
Context {D : Deps} {U : MadeUp}.
Implicit Types w : World.

Lemma upd_bump w : upd w (bump_id w).
Proof. put_store. Qed.

Lemma upd_now w n : upd w (set_now n w).
Proof. put_store. Qed.

Lemma upd_inner w i : routes_ok w i -> upd w (set_inner i w).
Proof. intros Hi. put_store. Qed.

Lemma upd_mutex w m : (held m = true -> poisoned m = false) -> upd w (set_mutex m w).
Proof. intros Hm. put_store. Qed.

Lemma upd_put_chan w k c :
  (k < next_id w)%nat -> chan_ok w c -> upd w (set_chans (<[k := c]> (chans w)) w).
Proof. intros Hk Hc. put_store. Qed.

Lemma upd_put_req w k c :
  (k < next_id w)%nat -> req_ok w c -> upd w (set_reqs (<[k := c]> (reqs w)) w).
Proof. intros Hk Hc. put_store. Qed.

Lemma upd_put_oneshot w k o :
  (k < next_id w)%nat -> oneshot_ok w o -> upd w (set_oneshots (<[k := o]> (oneshots w)) w).
Proof. intros Hk Ho. put_store. Qed.

Lemma upd_put_slot w k x :
  (k < next_id w)%nat -> slot_ok w x -> upd w (set_slots (<[k := x]> (slots w)) w).
Proof. intros Hk Hx. put_store. Qed.

Lemma upd_put_group w k x :
  (k < next_id w)%nat -> group_ok w x -> upd w (set_groups (<[k := x]> (groups w)) w).
Proof. intros Hk Hx. put_store. Qed.

Lemma upd_put_waiters w k x :
  (k < next_id w)%nat -> waiters_ok w x -> upd w (set_waiter_maps (<[k := x]> (waiter_maps w)) w).
Proof. intros Hk Hx. put_store. Qed.

Lemma upd_put_task w k x :
  (k < next_id w)%nat -> task_ok w x -> upd w (set_tasks (<[k := x]> (tasks w)) w).
Proof. intros Hk Hx. put_store. Qed.

Lemma upd_put_cache w k x :
  (k < next_id w)%nat -> cache_ok w x -> upd w (set_caches (<[k := x]> (caches w)) w).
Proof. intros Hk Hx. put_store. Qed.

Lemma upd_delete_task w k : upd w (set_tasks (delete k (tasks w)) w).
Proof.
  intros Hw. assert (extends w (set_tasks (delete k (tasks w)) w)) as He by (split; auto).
  split; [|done]. destruct Hw. split; try done;
    first [by apply (store_ok_mono _ _ _ _ He)|by apply map_Forall_delete
          |by apply (monotone _ _ _ He)].
Qed.
(** An update may rely on the state it starts from. *)
Lemma upd_typed w w' : (typed w -> upd w w') -> upd w w'.
Proof. intros Hu Hw. by apply Hu. Qed.

(** Changing the object under a key. *)

Ltac on_store :=
  rewrite alter_put; match goal with
  | |- context [?m !! ?k] => destruct (m !! k) eqn:?;
    [|by match goal with |- upd ?w _ => destruct w end]
  end.

Lemma upd_on_chan f k w : (forall c, chan_ok w c -> chan_ok w (f c)) -> upd w (on_chan f k w).
Proof.
  intros Hf. apply upd_typed. intros Hw. unfold on_chan. on_store.
  destruct (store_ok_lookup _ _ _ _ _ (ty_chans _ Hw) Heqo). apply upd_put_chan; auto.
Qed.

Lemma upd_on_req f k w : (forall c, req_ok w c -> req_ok w (f c)) -> upd w (on_req f k w).
Proof.
  intros Hf. apply upd_typed. intros Hw. unfold on_req. on_store.
  destruct (store_ok_lookup _ _ _ _ _ (ty_reqs _ Hw) Heqo). apply upd_put_req; auto.
Qed.

Lemma upd_on_oneshot f k w : (forall o, oneshot_ok w o -> oneshot_ok w (f o)) ->
  upd w (on_oneshot f k w).
Proof.
  intros Hf. apply upd_typed. intros Hw. unfold on_oneshot. on_store.
  destruct (store_ok_lookup _ _ _ _ _ (ty_oneshots _ Hw) Heqo). apply upd_put_oneshot; auto.
Qed.

Lemma upd_on_slot f k w : (forall s, slot_ok w s -> slot_ok w (f s)) -> upd w (on_slot f k w).
Proof.
  intros Hf. apply upd_typed. intros Hw. unfold on_slot. on_store.
  destruct (store_ok_lookup _ _ _ _ _ (ty_slots _ Hw) Heqo). apply upd_put_slot; auto.
Qed.

Lemma upd_on_group f k w : (forall g, group_ok w g -> group_ok w (f g)) -> upd w (on_group f k w).
Proof.
  intros Hf. apply upd_typed. intros Hw. unfold on_group. on_store.
  destruct (store_ok_lookup _ _ _ _ _ (ty_groups _ Hw) Heqo). apply upd_put_group; auto.
Qed.

Lemma upd_on_waiters f k w : (forall m, waiters_ok w m -> waiters_ok w (f m)) ->
  upd w (on_waiters f k w).
Proof.
  intros Hf. apply upd_typed. intros Hw. unfold on_waiters. on_store.
  destruct (store_ok_lookup _ _ _ _ _ (ty_waiters _ Hw) Heqo). apply upd_put_waiters; auto.
Qed.

Lemma upd_alter_task f k w :
  (forall t, task_ok w t -> task_ok w (f t)) -> upd w (set_tasks (alter f k (tasks w)) w).
Proof.
  intros Hf. apply upd_typed. intros Hw. on_store.
  destruct (store_ok_lookup _ _ _ _ _ (ty_tasks _ Hw) Heqo). apply upd_put_task; auto.
Qed.

Lemma upd_alter_cache f k w :
  (forall l, cache_ok w l -> cache_ok w (f l)) -> upd w (set_caches (alter f k (caches w)) w).
Proof.
  intros Hf. apply upd_typed. intros Hw. on_store.
  destruct (store_ok_lookup _ _ _ _ _ (ty_caches _ Hw) Heqo). apply upd_put_cache; auto.
Qed.
End Updates.

(** ** Channels *)

Section Views.
Context {M : Type}.
Implicit Types v : mpsc_view M.

Lemma view_channel_ok n v : view_channel n = Some v -> mpsc_ok v /\ queue v = [].
Proof. unfold view_channel. case_decide; [|done]. intros [= <-]. repeat split; simpl; lia. Qed.

Lemma view_try_send_ok m v :
  mpsc_ok v -> mpsc_ok (view_try_send m v).2 /\
  forall x, x ∈ queue (view_try_send m v).2 -> x = m \/ x ∈ queue v.
Proof.
  intros Hv. unfold view_try_send. destruct (receiver v) eqn:E; simpl; [|by auto].
  case_decide as Hf; simpl; [|by auto]. destruct Hv as (Hc & Hq & Hr). split.
  - unfold free in Hf. split; [done|]. simpl. rewrite length_app. simpl. split; [lia|congruence].
  - intros x. rewrite elem_of_app, list_elem_of_singleton. tauto.
Qed.

Lemma view_send_ok m v r v' :
  view_send m v = Some (r, v') -> v' = (view_try_send m v).2.
Proof. unfold view_send. destruct (view_try_send m v) as [[[]|[]] ?]; by intros [= _ <-]. Qed.

Lemma view_try_recv_ok v :
  mpsc_ok v -> mpsc_ok (view_try_recv v).2 /\
  queue v = match (view_try_recv v).1 with Ok m => [m] | Err _ => [] end ++ queue (view_try_recv v).2.
Proof.
  intros Hv. unfold view_try_recv. destruct (queue v) as [|m q] eqn:E; simpl; [by split|].
  destruct Hv as (Hc & Hq & Hr). rewrite E in *.
  split; [|done]. split; [done|]. simpl in *. split; [lia|]. intros Hn. by specialize (Hr Hn).
Qed.

Lemma view_recv_ok v r v' :
  view_recv v = Some (r, v') -> v' = (view_try_recv v).2 /\
  r = match (view_try_recv v).1 with Ok m => Some m | Err _ => None end.
Proof. unfold view_recv. destruct (view_try_recv v) as [[?|[]] ?]; by intros [= <- <-]. Qed.
End Views.

Section Channels.
Context {D : Deps}.
Implicit Types w : World.

Section Ops.
Context {M : Type} (ok : World -> M -> Prop).
Implicit Types c : Chan M.

Lemma try_send_ok w m c : ok w m -> channel_ok ok w c -> channel_ok ok w (mpsc_try_send m c).2.
Proof.
  intros Hm [Hc Hq]. pose proof (mpsc_try_send_spec m c) as Hs. unfold on_snd in Hs.
  destruct (view_try_send_ok m _ Hc) as [H1 H2]. rewrite <-Hs in H1, H2. split; [done|].
  rewrite list.Forall_forall in *. intros x [->|?]%H2; auto.
Qed.

Lemma send_ok w m c r c' :
  ok w m -> channel_ok ok w c -> mpsc_send m c = Some (r, c') -> channel_ok ok w c'.
Proof.
  intros Hm [Hc Hq] E. pose proof (mpsc_send_spec m c) as Hs. rewrite E in Hs. simpl in Hs.
  unfold on_snd in Hs. simpl in Hs. symmetry in Hs. apply view_send_ok in Hs.
  destruct (view_try_send_ok m _ Hc) as [H1 H2]. rewrite <-Hs in H1, H2. split; [done|].
  rewrite list.Forall_forall in *. intros x [->|?]%H2; auto.
Qed.

Lemma try_recv_ok w c : 
  channel_ok ok w c -> channel_ok ok w (mpsc_try_recv c).2 /\
  forall m, (mpsc_try_recv c).1 = Ok m -> ok w m.
Proof.
  intros [Hc Hq]. pose proof (mpsc_try_recv_spec c) as Hs. unfold on_snd in Hs.
  destruct (view_try_recv_ok _ Hc) as [H1 H2]. rewrite <-Hs in H1, H2. simpl in *.
  rewrite H2 in Hq. apply list.Forall_app in Hq as [Hq1 Hq2]. split; [by split|].
  intros m E. rewrite E in Hq1. by inversion Hq1.
Qed.

Lemma recv_ok w c r c' :
  channel_ok ok w c -> mpsc_recv c = Some (r, c') ->
  channel_ok ok w c' /\ forall m, r = Some m -> ok w m.
Proof.
  intros [Hc Hq] E. pose proof (mpsc_recv_spec c) as Hs. rewrite E in Hs. simpl in Hs.
  unfold on_snd in Hs. simpl in Hs. symmetry in Hs. apply view_recv_ok in Hs as [Hv ->].
  destruct (view_try_recv_ok _ Hc) as [H1 H2]. rewrite <-Hv in H1, H2.
  rewrite H2 in Hq. apply list.Forall_app in Hq as [Hq1 Hq2]. split; [by split|].
  intros m Hm. destruct (view_try_recv (mpsc_look c)).1; simplify_eq. by inversion Hq1.
Qed.

Lemma clone_sender_ok w c : channel_ok ok w c -> channel_ok ok w (mpsc_clone_sender c).
Proof. unfold channel_ok. by rewrite mpsc_clone_sender_spec. Qed.

Lemma drop_sender_ok w c : channel_ok ok w c -> channel_ok ok w (mpsc_drop_sender c).
Proof. unfold channel_ok. by rewrite mpsc_drop_sender_spec. Qed.

Lemma drop_receiver_ok w c : channel_ok ok w c -> channel_ok ok w (mpsc_drop_receiver c).
Proof.
  unfold channel_ok. rewrite mpsc_drop_receiver_spec. intros [(Hc & _) _].
  split; [|constructor]. split; [done|]. simpl. split; [lia|done].
Qed.

Lemma channel_new_ok w n c : mpsc_channel n = Some c -> channel_ok ok w c.
Proof.
  intros E. pose proof (mpsc_channel_spec (M := M) n) as Hs. rewrite E in Hs. simpl in Hs.
  symmetry in Hs. apply view_channel_ok in Hs as [? Hq]. split; [done|]. by rewrite Hq.
Qed.
End Ops.

Lemma oneshot_new_ok w : oneshot_ok w oneshot_channel.
Proof. unfold oneshot_ok. rewrite oneshot_channel_spec. by intros [? [=]]. Qed.

Lemma oneshot_send_ok w m o : oneshot_ok w o -> oneshot_ok w (oneshot_send m o).2.
Proof.
  unfold oneshot_ok. intros Ho. pose proof (oneshot_send_spec m o) as Hs. unfold on_snd in Hs.
  unfold view_oneshot_send in Hs. destruct (receiver_alive (oneshot_look o)) eqn:E;
    injection Hs as _ Hs; rewrite Hs; [done|]. simpl. intros Hv. destruct (Ho Hv). congruence.
Qed.

Lemma oneshot_recv_ok w o r o' :
  oneshot_ok w o -> oneshot_recv o = Some (r, o') -> oneshot_ok w o'.
Proof.
  unfold oneshot_ok. intros Ho E. pose proof (oneshot_recv_spec o) as Hs. rewrite E in Hs.
  simpl in Hs. unfold on_snd, view_oneshot_recv in Hs. simpl in Hs.
  destruct (value (oneshot_look o)) eqn:Ev; [injection Hs as _ Hs; rewrite Hs; by intros [? [=]]|].
  destruct (sender_alive (oneshot_look o)); [done|]. injection Hs as _ Hs. by rewrite Hs.
Qed.

Lemma oneshot_drop_sender_ok w o : oneshot_ok w o -> oneshot_ok w (oneshot_drop_sender o).
Proof.
  unfold oneshot_ok. rewrite oneshot_drop_sender_spec. intros Ho Hv. simpl in *.
  by destruct (Ho Hv).
Qed.

Lemma oneshot_drop_receiver_ok w o : oneshot_ok w o -> oneshot_ok w (oneshot_drop_receiver o).
Proof. unfold oneshot_ok. rewrite oneshot_drop_receiver_spec. by intros _ [? [=]]. Qed.
End Channels.
