(* ===== verification/TypedOps.v ===== *)
(** * TypedOps: every operation keeps the state well typed

    Each operation of the broker, run among others that keep the state well typed (Typing.v),
    does so too, and the handles it returns or stores refer to objects of their kind. *)

From S2P Require Import Prelude.
From S2P Require Import Protocol.
From S2P Require Import ChanIface.
From S2P Require Import Async.
From S2P Require Import Preserve.
From S2P Require Import Registry.
From S2P Require Import RegistryFacts.
From S2P Require Import RegistryProps.
From S2P Require Import World.
From S2P Require Import Channel.
From S2P Require Import Routing.
From S2P Require Import RegistryOps.
From S2P Require Import Dispatcher.
From S2P Require Import Subscriber.
From S2P Require Import Transport.
From S2P Require Import ReplyDispatcher.
From S2P Require Import Publisher.
From S2P Require Import Client.
From S2P Require Import Runtime.
From S2P Require Import Quiet.
From S2P Require Import Typing.

Local Open Scope broker_scope.

Abbreviation types := (keeps typed extends).
Abbreviation well_typed p := (forall w, types any p w).

Create HintDb typing.
#[export] Hint Constants Opaque : typing.
#[export] Hint Extern 0 (any _ _) => exact I : typing.

(** ** Steps *)

Section Steps.
Context {D : Deps} {U : MadeUp}.
Implicit Types w : World.

Lemma types_write f : (forall w, upd w (f w)) -> well_typed (write f).
Proof. intros Hf w. apply keeps_write; auto. Qed.

Lemma types_read {A} (f : World -> A) : well_typed (read f).
Proof. intros w. by apply keeps_read. Qed.

Lemma types_act {A} (f : World -> World * A) : (forall w, upd w (f w).1) -> well_typed (act f).
Proof. intros Hf w. apply keeps_act. auto. Qed.

Lemma types_await {A} (f : World -> option (World * A)) :
  (forall w1 w2 a, f w1 = Some (w2, a) -> upd w1 w2) -> well_typed (await f).
Proof. intros Hf w. apply keeps_await_any; [auto]. Qed.

Lemma types_bind {A B} (p : proc World A) (k : A -> proc World B) :
  well_typed p -> (forall a, well_typed (k a)) -> well_typed (bind p k).
Proof. intros Hp Hk w. apply keeps_any_bind; [apply Hp|]. intros. apply Hk. Qed.

Lemma types_ret {A} (a : A) : well_typed (Ret a).
Proof. done. Qed.

Lemma types_guarded {A} (d : bool -> World -> World) (p : proc World A) :
  (forall b w, upd w (d b w)) -> well_typed p -> well_typed (guarded d p).
Proof. intros Hd Hp w. apply keeps_guarded; [done|done|apply Hp]. Qed.

Lemma types_owning {A} (d : World -> World) (p : proc World A) :
  (forall w, upd w (d w)) -> well_typed p -> well_typed (owning d p).
Proof. intros Hd Hp w. apply keeps_owning; [done|apply Hp]. Qed.

Lemma types_abandon {A} stop (p : proc World A) : well_typed p -> well_typed (abandon stop p).
Proof.
  intros Hp w. eapply keeps_mono; [|apply keeps_abandon, Hp]. done.
Qed.

(** A new object has the key that is returned. *)
Lemma types_alloc (Q : nat -> World -> Prop) put w :
  (forall k w1, extends w w1 -> (k < next_id w1)%nat -> upd w1 (put k w1)) ->
  (forall w1, Q (next_id w1) (bump_id (put (next_id w1) w1))) ->
  (forall k w1, bump_id (put k w1) = put k (bump_id w1)) -> types Q (alloc put) w.
Proof.
  intros Hput HQ Hb. apply keeps_act. intros w1 H1 _. split; [|apply HQ]. cbn [fst].
  rewrite Hb. etrans; [apply upd_bump|]. intros Hw. apply Hput; [|simpl; lia|done].
  etrans; [exact H1|]. split; simpl; auto.
Qed.
End Steps.

#[export] Hint Resolve types_read types_ret : typing.

(** Follows the structure of a computation down to operations known to be well typed. *)
Ltac typing :=
  repeat first
    [ fast_done
    | match goal with |- forall _, _ => intro end
    | progress (cbn beta iota)
    | solve [eauto 2 with typing nocore]
    | match goal with
      | |- keeps _ _ _ (bind _ _) _ => apply types_bind
      | |- keeps _ _ _ (guarded _ _) _ => apply types_guarded
      | |- keeps _ _ _ (owning _ _) _ => apply types_owning
      | |- keeps _ _ _ (write _) _ => apply types_write
      end
    | case_match ].

(** ** Objects *)

Section Objects.
Context {D : Deps} {U : MadeUp}.
Implicit Types w : World.

Lemma u64_add_ok a b : is_u64 (u64_add a b).
Proof. unfold is_u64, u64_add. by apply Z.mod_pos_bound. Qed.

Lemma u64_sub_ok a b : is_u64 (u64_sub a b).
Proof. unfold is_u64, u64_sub. by apply Z.mod_pos_bound. Qed.

Lemma upd_clone_sender k w : upd w (on_chan mpsc_clone_sender k w).
Proof. apply upd_on_chan. intros c. apply clone_sender_ok. Qed.

Lemma upd_drop_sender k w : upd w (on_chan mpsc_drop_sender k w).
Proof. apply upd_on_chan. intros c. apply drop_sender_ok. Qed.

Lemma upd_drop_receiver k w : upd w (on_chan mpsc_drop_receiver k w).
Proof. apply upd_on_chan. intros c. apply drop_receiver_ok. Qed.

Lemma upd_drop_req_sender k w : upd w (on_req mpsc_drop_sender k w).
Proof. apply upd_on_req. intros c. apply drop_sender_ok. Qed.

Lemma upd_drop_req_receiver' k w : upd w (on_req mpsc_drop_receiver k w).
Proof. apply upd_on_req. intros c. apply drop_receiver_ok. Qed.

Lemma upd_oneshot_drop_sender k w : upd w (on_oneshot oneshot_drop_sender k w).
Proof. apply upd_on_oneshot. intros o. apply oneshot_drop_sender_ok. Qed.

Lemma upd_oneshot_drop_receiver k w : upd w (on_oneshot oneshot_drop_receiver k w).
Proof. apply upd_on_oneshot. intros o. apply oneshot_drop_receiver_ok. Qed.

Lemma upd_abort k w : upd w (abort k w).
Proof. by apply upd_alter_task. Qed.

Lemma upd_bump_version k w : upd w (on_slot bump_version k w).
Proof. apply upd_on_slot. intros s [_ ?]. split; [apply u64_add_ok|done]. Qed.

Lemma upd_bump_group_version k w : upd w (on_group bump_group_version k w).
Proof. apply upd_on_group. intros g (_ & ?). split; [apply u64_add_ok|done]. Qed.

Lemma upd_consumers f k w : (forall n, is_u64 (f n)) -> upd w (on_group (on_consumers f) k w).
Proof. intros Hf. apply upd_on_group. intros g (? & _ & ?). split; [done|]. by split; [apply Hf|]. Qed.

Lemma upd_strong f k w : upd w (on_group (on_strong f) k w).
Proof. by apply upd_on_group. Qed.

Lemma upd_no_handle k w : upd w (on_group (set_handle None) k w).
Proof. apply upd_on_group. intros g (? & ? & ? & ? & _). by repeat (split; [done|]). Qed.

Lemma upd_set_handle t k w : (t < next_id w)%nat -> upd w (on_group (set_handle (Some t)) k w).
Proof.
  intros Ht. apply upd_on_group. intros g (? & ? & ? & ? & _).
  repeat (split; [done|]). by intros t' [= <-].
Qed.

Lemma upd_store_sender s k w :
  (forall tx, s = Some tx -> has_chan w tx) -> upd w (store_sender s k w).
Proof.
  intros Hs Hw. unfold store_sender. revert Hw.
  change (upd w (on_slot (fun x => mkSlot s (slot_version x)) k
    (match slots w !! k with Some {| sender :=
      Some tx |} => on_chan mpsc_drop_sender tx w | _ => w end))).
  assert (forall w', extends w w' ->
    upd w' (on_slot (fun x => mkSlot s (slot_version x)) k w')) as Hset.
  { intros w' He. apply upd_on_slot. intros x [? _]. split; [done|]. intros tx Htx. by apply He, Hs. }
  destruct (slots w !! k) as [[[tx|] v]|]; [|by apply Hset..].
  intros Hw. destruct (upd_drop_sender tx w Hw) as [Hw1 He]. destruct (Hset _ He Hw1).
  split; [done|by etrans].
Qed.

Lemma upd_guard_sender k w : upd w (guard_sender k w).1.
Proof. unfold guard_sender. destruct (load_sender k w); [apply upd_clone_sender|done]. Qed.

Lemma upd_take_and_abort g w : upd w (take_and_abort g w).
Proof.
  unfold take_and_abort. destruct (groups w !! g) as [x|]; [|done].
  destruct (dispatcher_handle x); [etrans; [|apply upd_abort]|]; apply upd_no_handle.
Qed.

Lemma upd_reply_send k m w : upd w (reply_send k m w).1.
Proof.
  apply upd_typed. intros Hw. unfold reply_send. destruct (oneshots w !! k) as [o|] eqn:E; [|done].
  destruct (store_ok_lookup _ _ _ _ _ (ty_oneshots _ Hw) E) as [? Ho].
  pose proof (oneshot_send_ok w m o Ho). destruct (oneshot_send m o). by apply upd_put_oneshot.
Qed.

Lemma upd_reply_recv k w w' r : reply_recv k w = Some (w', r) -> upd w w'.
Proof.
  intros E. apply upd_typed. intros Hw. unfold reply_recv in E.
  destruct (oneshots w !! k) as [o|] eqn:Eo; [|done]. simpl in E.
  destruct (oneshot_recv o) as [[x o']|] eqn:Er; [|done]. injection E as <- _.
  destruct (store_ok_lookup _ _ _ _ _ (ty_oneshots _ Hw) Eo) as [? Ho].
  apply upd_put_oneshot; [done|]. by eapply oneshot_recv_ok.
Qed.

Lemma upd_drop_req_receiver k w : upd w (drop_req_receiver k w).
Proof.
  unfold drop_req_receiver. destruct (reqs w !! k); [|done].
  etrans; [apply upd_drop_req_receiver'|]. apply update_foldr; [apply _|]. intros.
  apply upd_oneshot_drop_sender.
Qed.

Lemma upd_subscriber_drop s w : upd w (Subscriber_drop s w).
Proof.
  unfold Subscriber_drop. destruct (mode s) as [rx|req g]; [apply upd_drop_receiver|].
  cbv zeta. destruct (groups _ !! g); [case_decide; [etrans; [|apply upd_drop_req_sender]|]|];
    apply upd_strong.
Qed.

Lemma upd_dispatcher_drop env at_ w : upd w (dispatcher_drop env at_ w).
Proof.
  unfold dispatcher_drop. etrans; [|apply upd_drop_req_receiver].
  etrans; [|apply upd_drop_receiver]. destruct at_; try done; apply upd_oneshot_drop_sender.
Qed.

Lemma upd_drop_unregistered k ch w : upd w (drop_unregistered k ch w).
Proof. unfold drop_unregistered. etrans; [|apply upd_drop_receiver]. by apply upd_store_sender. Qed.

Lemma upd_delete_waiter id k w : upd w (on_waiters (delete id) k w).
Proof. apply upd_on_waiters. intros m Hm. by apply map_Forall_delete. Qed.

Lemma upd_remove_entry k id w : upd w (remove_entry k id w).
Proof.
  unfold remove_entry. cbv zeta.
  destruct (waiter_map k w !! id); [etrans; [|apply upd_oneshot_drop_sender]|];
    apply upd_delete_waiter.
Qed.

Lemma upd_drop_waiter g r b w : upd w (drop_waiter g r b w).
Proof. unfold drop_waiter, WaiterGuard_drop.
  etrans; [apply upd_oneshot_drop_receiver|apply upd_remove_entry]. Qed.

Lemma upd_deliver_reply k m w : upd w (deliver_reply k m w).
Proof.
  unfold deliver_reply. cbv zeta. destruct (waiter_map k w !! _); [etrans; [|apply upd_reply_send]|];
    apply upd_delete_waiter.
Qed.

Lemma upd_clear_waiters k w : upd w (clear_waiters k w).
Proof.
  unfold clear_waiters. etrans;
    [|apply update_foldr; [apply _|]; intros; apply upd_oneshot_drop_sender].
  by apply upd_on_waiters.
Qed.

Lemma upd_unlock b w : upd w (unlock b w).
Proof. by apply upd_mutex. Qed.
End Objects.

#[export] Hint Resolve upd_clone_sender upd_drop_sender upd_drop_receiver upd_drop_req_sender
  upd_oneshot_drop_sender upd_oneshot_drop_receiver upd_abort upd_bump_version
  upd_bump_group_version upd_strong upd_guard_sender upd_take_and_abort upd_reply_send
  upd_drop_req_receiver upd_subscriber_drop upd_dispatcher_drop upd_drop_unregistered
  upd_remove_entry upd_drop_waiter upd_deliver_reply upd_clear_waiters upd_unlock : typing.

(** ** Channels *)

(** A store of channels that carry well-formed messages. *)
Class TypedChannels {D : Deps} {U : MadeUp} (M : Type) `{!Channels M} := {
  msg_ok : World -> M -> Prop;
  msg_ok_mono :: Monotone msg_ok;
  ty_channels w : typed w -> store_ok w (channel_ok msg_ok) (get_channels w);
  upd_put_channel k (c : Chan M) w :
    (k < next_id w)%nat -> channel_ok msg_ok w c -> upd w (put_channel k c w);
  has_put_channel k (c : Chan M) w : is_Some (get_channels (put_channel k c w) !! k);
  bump_put_channel k (c : Chan M) w : bump_id (put_channel k c w) = put_channel k c (bump_id w);
  bump_get_channels w : get_channels (bump_id w) = get_channels (M := M) w;
}.

#[export] Program Instance typed_messages {D : Deps} {U : MadeUp} : TypedChannels Message :=
  {| msg_ok _ _ := True |}.
Next Obligation. by split. Qed.
Next Obligation. intros D U w Hw. apply Hw. Qed.
Next Obligation. intros D U k c w. apply upd_put_chan. Qed.
Next Obligation. intros D U k c w. exists c. apply lookup_insert_eq. Qed.
Next Obligation. done. Qed.
Next Obligation. done. Qed.

#[export] Program Instance typed_requests {D : Deps} {U : MadeUp} : TypedChannels oneshot_id :=
  {| msg_ok := has_oneshot |}.
Next Obligation. intros D U w Hw. apply Hw. Qed.
Next Obligation. intros D U k c w. apply upd_put_req. Qed.
Next Obligation. intros D U k c w. exists c. apply lookup_insert_eq. Qed.
Next Obligation. done. Qed.
Next Obligation. done. Qed.

Section Channels.
Context {D : Deps} {U : MadeUp} {M : Type} `{!Channels M} `{!TypedChannels M}.
Implicit Types w : World.

Lemma poll_ok {A} k (f : Chan M -> option (A * Chan M)) (Q : A -> World -> Prop) w w' a :
  stable extends Q ->
  (forall c c' b, channel_ok msg_ok w c -> f c = Some (b, c') -> channel_ok msg_ok w c' /\ Q b w) ->
  typed w -> poll_channel k f w = Some (w', a) -> upd w w' /\ Q a w'.
Proof.
  intros HQ Hf Hw E. unfold poll_channel in E.
  destruct (get_channels w !! k) as [c|] eqn:Ec; [|done]. simpl in E.
  destruct (f c) as [[b c']|] eqn:Ef; [|done]. injection E as <- <-.
  destruct (store_ok_lookup _ _ _ _ _ (ty_channels w Hw) Ec) as [Hk Hc].
  destruct (Hf _ _ _ Hc Ef) as [Hc' Hb]. pose proof (upd_put_channel k c' w Hk Hc') as Hu.
  split; [done|]. destruct (Hu Hw) as [_ He]. by eapply HQ.
Qed.

Lemma types_send k (m : M) w : msg_ok w m -> types any (Sender_send k m) w.
Proof.
  intros Hm. apply keeps_await. intros w1 w2 a H1 Hw1. apply (poll_ok _ _ any); [done| |done].
  intros c c' b Hc E. destruct (mpsc_send m c) as [[r c1]|] eqn:Es; [|done]. injection E as _ <-.
  split; [|done]. eapply send_ok; [|exact Hc|exact Es]. by eapply monotone.
Qed.

Lemma types_recv k w :
  types (fun r w => forall m, r = Some m -> msg_ok w m) (Receiver_recv (M := M) k) w.
Proof.
  apply keeps_await. intros w1 w2 a H1 Hw1.
  apply (poll_ok _ _ (fun r w => forall m, r = Some m -> msg_ok w m)); [| |done].
  - intros r w3 w4 He Hr m Hm. by eapply monotone, Hr.
  - intros c c' b. apply recv_ok.
Qed.

Lemma types_recv_any k : well_typed (Receiver_recv (M := M) k).
Proof. intros w. eapply keeps_mono; [|apply types_recv]. done. Qed.

Lemma types_try_recv k : well_typed (Receiver_try_recv (M := M) k).
Proof.
  intros w. apply keeps_block. intros w1 w2 a H1 Hw1. apply (poll_ok _ _ any); [done| |done].
  intros c c' b Hc E. pose proof (proj1 (try_recv_ok msg_ok w1 c Hc)).
  destruct (mpsc_try_recv c). by injection E as _ <-.
Qed.

Lemma types_channel n w :
  types (fun k w => is_Some (get_channels (M := M) w !! k)) (channel (M := M) n) w.
Proof.
  apply keeps_act_or_panic. intros w1 w2 a H1 Hw1 E.
  destruct (mpsc_channel (M := M) n) as [c|] eqn:Ec; [|done].
  injection E as <- <-.
  rewrite bump_put_channel. split; [|apply has_put_channel].
  etrans; [apply upd_bump|]. apply upd_put_channel; [simpl; lia|]. by eapply channel_new_ok.
Qed.
End Channels.

#[export] Hint Resolve types_recv_any types_try_recv : typing.

(** ** Slots, groups and the registry *)

Section Operations.
Context {D : Deps} {U : MadeUp}.
Implicit Types (w : World) (slot : slot_id) (g : group_id).

(** What a computation returns may be used by the rest of it, in any later state. *)
Lemma types_post {A B} (Q : A -> World -> Prop) (R : B -> World -> Prop) (p : proc World A)
    (k : A -> proc World B) w :
  types Q p w -> (forall a w', extends w w' -> Q a w' -> types R (k a) w') ->
  types R (bind p k) w.
Proof. apply keeps_bind. Qed.

Lemma types_any {A} (Q : A -> World -> Prop) (p : proc World A) w : types Q p w -> types any p w.
Proof. by apply keeps_mono. Qed.

Lemma types_create_channel n w : types (fun k w => has_chan w k) (create_channel n) w.
Proof. exact (types_channel (M := Message) n w). Qed.

Lemma types_create_request_channel n w : types (fun k w => has_req w k) (create_request_channel n) w.
Proof. exact (types_channel (M := oneshot_id) n w). Qed.

Lemma types_new_slot tx w :
  has_chan w tx -> types (fun k w => has_slot w k) (SubscriptionSlot_new tx) w.
Proof.
  intros Htx. apply types_alloc; [|intros w1; eexists; apply lookup_insert_eq|done].
  intros k w1 H1 Hk. apply upd_put_slot; [done|]. split; [by split|].
  intros tx' [= <-]. by apply H1.
Qed.

Lemma types_new_group x w :
  group_ok w x -> types (fun k w => has_group w k) (new_group x) w.
Proof.
  intros Hx. apply types_alloc; [|intros w1; eexists; apply lookup_insert_eq|done].
  intros k w1 H1 Hk. apply upd_put_group; [done|]. by eapply monotone.
Qed.

Lemma types_new_oneshot w : types (fun k w => has_oneshot w k) new_oneshot w.
Proof.
  apply types_alloc; [|intros w1; eexists; apply lookup_insert_eq|done].
  intros k w1 _ Hk. apply upd_put_oneshot; [done|]. apply oneshot_new_ok.
Qed.

Lemma types_new_waiter_map w : types (fun k w => has_waiters w k) new_waiter_map w.
Proof.
  apply types_alloc; [|intros w1; eexists; apply lookup_insert_eq|done].
  intros k w1 _ Hk. by apply upd_put_waiters.
Qed.

Lemma types_spawn t w : task_state_ok w t -> types (fun k w => (k < next_id w)%nat) (spawn t) w.
Proof.
  intros Ht. apply types_alloc; [|intros w1; simpl; lia|done]. intros k w1 H1 Hk.
  apply upd_put_task; [done|]. by apply (monotone t _ _ H1).
Qed.

Lemma types_mark_removed slot : well_typed (mark_removed slot).
Proof. unfold mark_removed. pose proof upd_store_sender. typing. by apply upd_store_sender. Qed.

Lemma types_shutdown g : well_typed (shutdown g).
Proof. pose proof types_mark_removed. unfold shutdown. typing. Qed.

Lemma types_remove_slot t slot : well_typed (remove_slot t slot).
Proof. pose proof types_mark_removed. pose proof types_shutdown. unfold remove_slot. typing. Qed.

Lemma types_remove_consumer g : well_typed (remove_consumer g).
Proof.
  pose proof types_shutdown. unfold remove_consumer. typing.
  apply types_act. intros. apply upd_consumers. intros. apply u64_sub_ok.
Qed.

Lemma types_group_subscribe g : well_typed (LoadBalancedGroup_subscribe g).
Proof.
  unfold LoadBalancedGroup_subscribe. typing.
  - apply upd_consumers. intros. apply u64_add_ok.
  - apply types_act. intros. apply upd_strong.
Qed.

Lemma types_group_new slot rx n address w :
  has_slot w slot -> has_chan w rx ->
  types (fun k w => has_group w k) (LoadBalancedGroup_new slot rx n address) w.
Proof.
  intros Hs Hrx. unfold LoadBalancedGroup_new.
  eapply types_post; [apply types_create_request_channel|]. intros req w1 H1 Hreq.
  eapply types_post; [apply types_new_group|].
  { do 2 (split; [by split|]). split; [by apply H1|]. by split. }
  intros group w2 H2 Hg.
  eapply types_post; [apply types_spawn|].
  { split; [|done]. split_and!; simpl; [by apply H2, H1|by apply H2|by apply H2, H1]. }
  intros handle w3 H3 Hh. apply keeps_any_bind; [|intros _ w4 H4; by apply H4, H3].
  apply keeps_write; [|done]. intros w4 H4. apply upd_set_handle.
  pose proof (ext_next _ _ H4). cbv beta in Hh. lia.
Qed.

(** The factory of a group returns a target that is there. *)
Lemma types_group_factory n address w :
  types (fun r w => forall t, r = Ok t -> routed_ok w t) (group_factory n address) w.
Proof.
  unfold group_factory, new_load_balanced.
  eapply types_post; [apply types_create_channel|]. intros ch w1 H1 Hch.
  eapply types_post; [by apply types_new_slot|]. intros slot w2 H2 Hslot.
  eapply (types_post (fun t => flip target_ok t)); [|by intros t w3 _ Ht ? [= <-]; left].
  eapply types_post; [apply types_group_new; [done|by apply H2]|]. by intros g w3 _ Hg.
Qed.

Lemma types_with_lock {A} (Q : A -> World -> Prop) (body : proc World A) w :
  stable extends Q -> (forall w', extends w w' -> types Q body w') -> types Q (with_lock body) w.
Proof.
  intros HQ Hb. unfold with_lock. apply keeps_any_bind.
  - apply keeps_first. intros w1 _ _. split; [done|].
    destruct (held (register_mutex w1)); [done|]. destruct (poisoned (register_mutex w1)); [done|].
    split; [by apply upd_mutex|done].
  - intros _ w' Hw'. apply keeps_guarded; [done|intros; apply upd_unlock|by apply Hb].
Qed.

(** A snapshot that was loaded, and what may be stored. *)
Lemma types_load w : types (fun i w => routes_ok w i) load w.
Proof. apply keeps_read. intros w1 _ Hw. apply Hw. Qed.

Lemma types_store i w : routes_ok w i -> types any (store i) w.
Proof. intros Hi. apply keeps_write; [|done]. intros w1 H1. apply upd_inner. by eapply monotone. Qed.

Lemma insert_ok w i a t : routes_ok w i -> routed_ok w t -> routes_ok w (insert_route i a t).
Proof. intros Hi Ht p u [[_ ->]|Hp]%route_insert; [done|by eapply Hi]. Qed.

Lemma remove_ok w i a : routes_ok w i -> routes_ok w (remove_route i a).
Proof. intros Hi p u Hp%route_remove. by eapply Hi. Qed.

Lemma types_register a t w : routed_ok w t -> types any (register a t) w.
Proof.
  intros Ht. apply types_with_lock; [done|]. intros w0 H0.
  eapply types_post; [apply types_load|]. intros i w1 H1 Hi.
  destruct (register_inner i a t) as [i'|e] eqn:E; [|done].
  apply check_address_of_register in E as [_ ->]. apply keeps_any_bind; [|done].
  apply types_store, insert_ok; [done|]. apply (monotone t _ _ H1), (monotone t _ _ H0), Ht.
Qed.

Lemma types_join a n : well_typed (get_existing_or_register a (group_factory n a)).
Proof.
  intros w. apply types_with_lock; [done|]. intros w0 _.
  eapply types_post; [apply types_load|]. intros i w1 H1 Hi.
  destruct (check_address i a) as [[t|e|]|e]; [done..| |done].
  eapply types_post; [apply types_group_factory|]. intros [t|e] w2 H2 Ht; [|done].
  apply keeps_any_bind; [|done]. apply types_store, insert_ok; [by eapply monotone|by apply Ht].
Qed.

Lemma types_unregister a slot : well_typed (unregister a slot).
Proof.
  intros w. apply types_with_lock; [done|]. intros w0 _.
  eapply types_post; [apply types_load|]. intros i w1 H1 Hi.
  destruct (find_route i a) as [t|]; [|done].
  apply keeps_any_bind; [apply types_remove_slot|]. intros [] w2 H2; [|done].
  apply keeps_any_bind; [|done]. apply types_store, remove_ok. by eapply monotone.
Qed.

(** A lookup finds a target that is there. *)
Lemma types_lookup_target a w : types (fun r w => forall t, r = Some t -> routed_ok w t) (lookup a) w.
Proof.
  apply keeps_read. intros w1 _ Hw t (p & Hp)%lookup_is_route. by eapply (ty_routes _ Hw).
Qed.

Lemma types_lookup a : well_typed (lookup a).
Proof. intros w. eapply types_any, types_lookup_target. Qed.
End Operations.

#[export] Hint Resolve types_join types_unregister types_lookup types_shutdown
  types_mark_removed types_remove_consumer types_group_subscribe : typing.

(** ** Messages, subscribers and replies *)

Section Messages.
Context {D : Deps} {U : MadeUp}.
Implicit Types (w : World) (slot : slot_id).

Lemma types_send_message k (m : Message) : well_typed (Sender_send k m).
Proof. intros w. by apply (types_send (M := Message)). Qed.

Lemma types_send_to_slot slot m : well_typed (send_to_slot slot m).
Proof.
  pose proof types_send_message. unfold send_to_slot. typing. apply types_act. apply upd_guard_sender.
Qed.

Lemma types_target_send t m : well_typed (RouteTarget_send t m).
Proof. pose proof types_send_to_slot. unfold RouteTarget_send. typing. Qed.

Lemma types_target_closed t : well_typed (RouteTarget_is_closed t).
Proof. unfold RouteTarget_is_closed, SubscriptionSlot_is_closed. typing. Qed.

Lemma types_request tx : well_typed (RequestSender_request tx).
Proof.
  intros w. unfold RequestSender_request. eapply types_post; [apply types_new_oneshot|].
  intros reply w1 _ Hr. apply keeps_any_bind; [|intros r w2 _; typing].
  apply keeps_owning; [|by apply (types_send (M := oneshot_id))]. intros w2.
  etrans; [apply upd_oneshot_drop_sender|apply upd_oneshot_drop_receiver].
Qed.

Lemma types_reply_recv k : well_typed (await (reply_recv k)).
Proof. apply types_await. intros w1 w2 a. apply upd_reply_recv. Qed.

Lemma types_subscriber_recv s : well_typed (Subscriber_recv s).
Proof.
  pose proof types_request. pose proof types_reply_recv.
  pose proof (types_recv_any (M := Message)). unfold Subscriber_recv. typing.
Qed.

Lemma types_subscriber_try_recv s : well_typed (Subscriber_try_recv s).
Proof. pose proof (types_try_recv (M := Message)). unfold Subscriber_try_recv. typing. Qed.

Lemma types_handle_drop h : well_typed (SubscriptionHandle_drop h).
Proof. unfold SubscriptionHandle_drop. typing. Qed.

Lemma types_guard_new k id : well_typed (WaiterGuard_new k id).
Proof.
  intros w. unfold WaiterGuard_new. eapply types_post; [apply types_new_oneshot|].
  intros tx w1 _ Htx. apply keeps_act. intros w2 H2 _. split; [|done].
  destruct (waiter_map k w2 !! id); cbn [fst].
  - etrans; [apply upd_oneshot_drop_receiver|apply upd_oneshot_drop_sender].
  - apply upd_on_waiters. intros m Hm. apply map_Forall_insert_2; [|done]. by apply H2.
Qed.

Lemma types_dispatcher_new s w :
  subscriber_ok w s -> types any (ReplyDispatcher_new s) w.
Proof.
  intros Hs. unfold ReplyDispatcher_new. eapply types_post; [apply types_new_waiter_map|].
  intros k w1 H1 Hk. apply keeps_any_bind; [|done].
  eapply types_any, types_spawn. split; [|done]. by eapply monotone.
Qed.

Lemma types_dispatcher_drop d : well_typed (ReplyDispatcher_drop d).
Proof. unfold ReplyDispatcher_drop. typing. Qed.

Lemma types_await_reply t r : well_typed (await_reply t r).
Proof.
  unfold await_reply. typing. apply types_await. intros w1 w2 x E. cbv zeta in E.
  pose proof (upd_reply_recv r w1) as Hu. destruct (reply_recv r w1) as [[w' y]|];
    destruct (timeout_poll _ _ _) as [z|]; simpl in E; simplify_eq; [by eapply Hu|done].
Qed.

Lemma types_request_with d t id p : well_typed p -> well_typed (request_with d t id p).
Proof.
  intros Hp. pose proof types_guard_new. pose proof types_await_reply.
  unfold request_with, register_waiter. typing.
Qed.
End Messages.

#[export] Hint Resolve types_target_send types_target_closed types_request types_subscriber_recv
  types_subscriber_try_recv types_handle_drop types_dispatcher_drop types_request_with : typing.

(** ** Publishers *)

Section Publishing.
Context {D : Deps} {U : MadeUp}.
Implicit Types (w : World) (p : Publisher InMemoryTransport).

(** The lock operations keep a writer alone, and the value as it is. *)
Section Lock.
Context {A : Type}.
Implicit Types l : rwlock A.

Definition takes (f : rwlock A -> option (rwlock A)) : Prop :=
  forall l l', f l = Some l' -> rw_ok l' /\ rw_value l' = rw_value l.
Definition frees (f : rwlock A -> rwlock A) : Prop :=
  forall l, rw_ok l -> rw_ok (f l) /\ rw_value (f l) = rw_value l.

Lemma takes_same f : takes f -> forall l l', f l = Some l' -> rw_value l' = rw_value l.
Proof. intros Hf l l' E. by destruct (Hf l l' E). Qed.

Lemma rw_read_takes : takes rw_read.
Proof. intros l l'. unfold rw_read. destruct (rw_writer l) eqn:E; [done|]. by intros [= <-]. Qed.

Lemma rw_upgradable_read_takes : takes rw_upgradable_read.
Proof. intros l l'. unfold rw_upgradable_read. destruct (_ || _); [done|]. by intros [= <-]. Qed.

Lemma rw_upgrade_takes : takes rw_upgrade.
Proof. intros l l'. unfold rw_upgrade. case_decide; [|done]. by intros [= <-]. Qed.

Lemma rw_write_takes : takes rw_write.
Proof. intros l l'. unfold rw_write. destruct (_ || _); [done|]. apply rw_upgrade_takes. Qed.

Lemma rw_read_unlock_frees : frees rw_read_unlock.
Proof.
  intros l Hl. split; [|done]. intros Hw. destruct (Hl Hw) as [E ?]. split; [simpl; by rewrite E|done].
Qed.

Lemma rw_upgradable_unlock_frees : frees rw_upgradable_unlock.
Proof. intros l Hl. split; [|done]. intros Hw. by destruct (Hl Hw). Qed.

Lemma rw_write_unlock_frees : frees rw_write_unlock.
Proof. done. Qed.
End Lock.

Lemma types_cache_lock k f : takes f -> well_typed (cache_lock (E := InMemoryEndpoint) k f).
Proof.
  intros Hf w. apply keeps_block. intros w1 w2 a _ Hw E. split; [|done]. simpl in E.
  destruct (caches w1 !! k) as [l|] eqn:El; [|done]. simpl in E.
  destruct (f l) as [l'|] eqn:Ef; [|done]. injection E as <- _.
  destruct (store_ok_lookup _ _ _ _ _ (ty_caches _ Hw) El) as [Hk [_ He]].
  apply upd_put_cache; [done|]. destruct (Hf _ _ Ef) as [? Ev]. split; [done|]. by rewrite Ev.
Qed.

Lemma types_cache_unlock k f : frees f -> well_typed (cache_update (E := InMemoryEndpoint) k f).
Proof.
  intros Hf. unfold cache_update. apply types_write. intros w. apply upd_alter_cache.
  intros l [Hl He]. destruct (Hf l Hl) as [? Ev]. split; [done|]. by rewrite Ev.
Qed.

Lemma types_cache_set k x w :
  (forall ep, x = Some ep -> endpoint_ok w ep) -> types any (cache_update k (rw_set x)) w.
Proof.
  intros Hx. apply keeps_write; [|done]. intros w1 H1. apply upd_alter_cache. intros l [Hl _].
  split; [exact Hl|]. intros ep E. by apply (monotone ep _ _ H1), Hx.
Qed.

#[local] Hint Resolve rw_read_takes rw_upgradable_read_takes rw_upgrade_takes rw_write_takes
  rw_read_unlock_frees rw_upgradable_unlock_frees rw_write_unlock_frees : typing.
#[local] Hint Resolve types_cache_lock types_cache_unlock : typing.

(** The endpoints that are resolved and cached lead to targets that are there. *)
Definition endpoint_in (ep : ResolvedEndpoint InMemoryEndpoint) w : Prop :=
  endpoint_ok w (resolved_inner ep).

Lemma types_resolve t address w :
  types (fun r w => forall ep, r = Ok ep -> endpoint_in ep w) (InMemoryTransport_resolve t address) w.
Proof.
  unfold InMemoryTransport_resolve, InMemoryEndpoint_new.
  eapply types_post; [apply types_lookup_target|]. intros [x|] w1 _ Hx; [|done].
  eapply (types_post (fun ep w => endpoint_ok w ep)); [|by intros ep w2 _ He ? [= <-]].
  apply keeps_any_bind; [typing|]. intros v w2 H2. apply (monotone x _ _ H2). by apply Hx.
Qed.

Lemma types_resolve_any t address : well_typed (InMemoryTransport_resolve t address).
Proof. intros w. eapply types_any, types_resolve. Qed.

Lemma types_transport_send (t : InMemoryTransport) m : well_typed (Transport_send t m).
Proof. pose proof types_resolve_any. unfold Transport_send. in_memory. typing. Qed.

Lemma types_valid_cached k : well_typed (valid_cached (E := InMemoryEndpoint) k).
Proof. unfold valid_cached. in_memory. typing. Qed.

Lemma types_get_or_resolve p : well_typed (get_or_resolve_endpoint p).
Proof.
  pose proof types_valid_cached. unfold get_or_resolve_endpoint. in_memory. intros w.
  do 3 (apply keeps_any_bind; [typing|]; intros ???). case_match; [done|].
  eapply types_post; [apply types_resolve|]. intros [ep|e] w' _ Hep; [|done].
  do 2 (apply keeps_any_bind; [typing|]; intros ???). case_match; [typing|].
  do 2 (apply keeps_any_bind; [typing|]; intros ???). case_match; [typing|].
  apply keeps_any_bind; [|intros ???; typing]. apply types_cache_set. intros x [= <-].
  do 4 (eapply monotone; [done|]). by apply Hep.
Qed.

Lemma types_invalidate p : well_typed (invalidate_cache p).
Proof.
  unfold invalidate_cache. in_memory. intros w. apply keeps_any_bind; [typing|]. intros _ w1 _.
  apply keeps_any_bind; [by apply types_cache_set|]. intros _ w2 _. typing.
Qed.

Lemma types_send_or_invalidate p ep m : well_typed (send_or_invalidate p ep m).
Proof. pose proof types_invalidate. unfold send_or_invalidate. in_memory. typing. Qed.

Lemma types_publisher_send p m : well_typed (Publisher_send p m).
Proof.
  pose proof types_get_or_resolve. pose proof types_send_or_invalidate. unfold Publisher_send. typing.
Qed.

Lemma types_publisher_request p m : well_typed (Publisher_request p m).
Proof.
  pose proof types_get_or_resolve. pose proof types_send_or_invalidate. unfold Publisher_request.
  typing.
Qed.

Lemma types_publisher_new a (t : InMemoryTransport) ra d c : well_typed (Publisher_new a t ra d c).
Proof.
  unfold Publisher_new. apply types_bind; [|done]. intros w. apply types_alloc; [|done..].
  intros k w1 _ Hk. by apply upd_put_cache.
Qed.
End Publishing.

#[export] Hint Resolve types_transport_send types_publisher_send types_publisher_request
  types_publisher_new : typing.

(** ** Clients *)

Section Clients.
Context {D : Deps} {U : MadeUp}.
Implicit Types w : World.

Lemma types_register_exclusive n a w :
  types (fun r w => forall slot ch, r = Ok (slot, ch) -> has_chan w ch) (register_exclusive n a) w.
Proof.
  unfold register_exclusive. eapply types_post; [apply types_create_channel|]. intros ch w1 H1 Hch.
  eapply types_post; [by apply types_new_slot|]. intros slot w2 H2 Hslot.
  apply keeps_any_bind; [by apply types_register; left|]. intros [u|e] w3 H3.
  - intros ?? [= <- <-]. by apply H3, H2.
  - apply keeps_any_bind; [apply types_write, upd_drop_unregistered|done].
Qed.

Lemma types_register_exclusive_any n a : well_typed (register_exclusive n a).
Proof. intros w. eapply types_any, types_register_exclusive. Qed.

Lemma types_client b c a : well_typed (Broker_client b c a).
Proof.
  intros w. unfold Broker_client, BrokerClient_new. apply keeps_any_bind; [|done].
  eapply types_post; [apply types_register_exclusive|]. intros [[slot ch]|e] w1 _ Hr; [|done].
  apply keeps_any_bind; [|done]. apply types_dispatcher_new. exact (Hr slot ch eq_refl).
Qed.

Lemma types_subscribe a c : well_typed (subscribe a c).
Proof.
  pose proof types_register_exclusive_any.
  unfold subscribe, subscribe_exclusive, subscribe_load_balanced. typing.
Qed.

Lemma types_async_call {A} (p : proc World A) : async_call p -> well_typed p.
Proof. induction 1; unfold BrokerClient_send, BrokerClient_request; typing. Qed.

Lemma types_code_register a t : made_up t -> well_typed (register a t).
Proof. intros Ht w. apply types_register. by right. Qed.

Lemma types_client_code {A} (p : proc World A) : code_over made_up p -> well_typed p.
Proof.
  pose proof types_client. pose proof types_subscribe. pose proof types_code_register.
  induction 1;
    [..|by apply types_abandon, types_async_call| | | | | | |];
      unfold BrokerClient_drop, BrokerClient_send, BrokerClient_request,
    BrokerClient_publisher, has_route, has_local; typing.
Qed.
End Clients.
