(* ===== verification/RwLock.v ===== *)
(** * RwLock: computations that share a cell behind an upgradable read-write lock

    [cell] is the lock and the value it protects. Every computation is at each moment in a [phase]:
    it holds the lock in one of three ways or not at all. [discipline] is a condition on a
    computation that its steps change the lock as its phase changes, write only as the writer,
    never wait while they hold the lock (but for an upgrade, which waits for the readers), end
    without it, and may be dropped only where they do not hold it.
    In a pool of such computations the lock counts the holders at every moment,
    and the holders alone can always bring it back to rest. *)

From S2P Require Import Prelude.
From S2P Require Import Async.
From S2P Require Import World.
From S2P Require Import Publisher.
From S2P Require Import Typing.

(** ** Definitions *)

Inductive phase := Free | Reading | Upgrading | Writing.

#[global] Instance phase_eq_dec : EqDecision phase.
Proof. solve_decision. Defined.

(** What a holder counts for in each part of the lock. *)
Definition as_reader (ph : phase) : nat := if decide (ph = Reading) then 1 else 0.
Definition as_upgrader (ph : phase) : nat := if decide (ph = Upgrading) then 1 else 0.
Definition as_writer (ph : phase) : nat := if decide (ph = Writing) then 1 else 0.

Definition next_phase (ph ph' : phase) : Prop :=
  match ph, ph' with
  | Free, _ | _, Free => True
  | Upgrading, Writing => True
  | _, _ => ph = ph'
  end.

Section RwLock.
Context {St A : Type} (cell : St -> option (rwlock A)).
Implicit Types (s : St) (l : rwlock A) (ph : phase).

(** The lock counts at least this holder. *)
Definition counted ph l : Prop :=
  as_reader ph <= rw_readers l /\ as_upgrader ph <= Nat.b2n (rw_upgradable l) /\
  as_writer ph <= Nat.b2n (rw_writer l) /\ rw_ok l.

(** A step that takes its computation from one phase to another. *)
Definition lock_step ph l ph' l' : Prop :=
  next_phase ph ph' /\ rw_ok l' /\
  rw_readers l' + as_reader ph = rw_readers l + as_reader ph' /\
  Nat.b2n (rw_upgradable l') + as_upgrader ph = Nat.b2n (rw_upgradable l) + as_upgrader ph' /\
  Nat.b2n (rw_writer l') + as_writer ph = Nat.b2n (rw_writer l) + as_writer ph' /\
  (rw_value l' = rw_value l \/ ph = Writing).

Definition may_wait ph l : Prop := ph = Free \/ ph = Upgrading /\ rw_readers l <> 0.

Fixpoint discipline {B} (ph : phase) (p : proc St B) : Prop :=
  match p with
  | Act d f =>
      (forall g s, d = Some g -> ph = Free /\ cell (g s) = cell s) /\
      forall s l, cell s = Some l -> counted ph l ->
      match f s with
      | Some (s', p') => exists ph' l', cell s' = Some l' /\ lock_step ph l ph' l' /\ discipline ph' p'
      | None => may_wait ph l
      end
  | _ => ph = Free
  end.

(** A computation that leaves the cell alone, and never waits, nor awaits, unless it [may]. *)
Fixpoint aloof {B} (may : bool) (p : proc St B) : Prop :=
  match p with
  | Act d f =>
      (forall g s, d = Some g -> may = true /\ cell (g s) = cell s) /\
      forall s, match f s with
                | Some (s', p') => cell s' = cell s /\ aloof may p'
                | None => may = true
                end
  | _ => True
  end.

(** No [Panic] inside: what runs while the lock is held returns. *)
Fixpoint safe {B} (p : proc St B) : Prop :=
  match p with
  | Ret _ => True
  | Panic => False
  | Act _ f => forall s, match f s with Some (_, p') => safe p' | None => True end
  end.

(** ** One computation *)

Lemma lock_step_refl ph l : rw_ok l -> lock_step ph l ph l.
Proof. intros Hl. split_and!; try done; [by destruct ph|auto]. Qed.

Lemma aloof_bind {B C} may (p : proc St B) (k : B -> proc St C) :
  aloof may p -> (forall b, aloof may (k b)) -> aloof may (bind p k).
Proof.
  intros Hp Hk. revert Hp. induction p as [b| |d0 f IH] using proc_ind'; intros Hp; [apply Hk|done|].
  cbn [bind aloof] in *. destruct Hp as [Hd Hp]. split; [exact Hd|]. intros s. specialize (Hp s).
  destruct (f s) as [[s' p']|] eqn:E; [|done]. destruct Hp as [? Hp]. split; [done|]. by eapply IH.
Qed.

Lemma safe_bind {B C} (p : proc St B) (k : B -> proc St C) :
  safe p -> (forall b, safe (k b)) -> safe (bind p k).
Proof.
  intros Hp Hk. revert Hp. induction p as [b| |d0 f IH] using proc_ind'; intros Hp; [apply Hk|done|].
  cbn [bind safe] in *. intros s. specialize (Hp s).
  destruct (f s) as [[s' p']|] eqn:E; [|done]. by eapply IH.
Qed.

Lemma discipline_bind {B C} ph (p : proc St B) (k : B -> proc St C) :
  discipline ph p -> (forall b, discipline Free (k b)) -> discipline ph (bind p k).
Proof.
  intros Hp Hk. revert ph Hp.
  induction p as [b| |d0 f IH] using proc_ind'; intros ph Hp; [simpl in Hp; subst; apply Hk|done|].
  cbn [bind discipline] in *. destruct Hp as [Hd Hp]. split; [exact Hd|].
  intros s l Hs Hl. specialize (Hp s l Hs Hl).
  destruct (f s) as [[s' p']|] eqn:E; [|done]. destruct Hp as (ph' & l' & ? & ? & Hp).
  exists ph', l'. split_and!; [done..|]. by eapply IH.
Qed.

(** Steps that leave the cell alone, in any phase. *)
Lemma discipline_aloof {B C} ph (p : proc St B) (k : B -> proc St C) :
  aloof (bool_decide (ph = Free)) p -> (ph = Free \/ safe p) -> (forall b, discipline ph (k b)) ->
  discipline ph (bind p k).
Proof.
  intros Hp Hs Hk. revert Hp Hs.
  induction p as [b| |d0 f IH] using proc_ind'; intros Hp Hs; [apply Hk|by destruct Hs|].
  cbn [bind aloof safe discipline] in *. destruct Hp as [Hd Hp]. split.
  { intros g s E. destruct (Hd g s E) as [Hf ?]. by apply bool_decide_eq_true_1 in Hf. }
  intros s l Hc [? [? [? Hok]]].
  specialize (Hp s). destruct (f s) as [[s' p']|] eqn:E.
  - destruct Hp as [Hc' Hp]. exists ph, l. rewrite Hc'.
    split_and!; [done|by apply lock_step_refl|]. eapply IH; [done..|].
    destruct Hs as [Hs|Hs]; [by left|right]. specialize (Hs s). by rewrite E in Hs.
  - left. by apply bool_decide_eq_true_1 in Hp.
Qed.

Lemma discipline_free {B} may (p : proc St B) : aloof may p -> discipline Free p.
Proof.
  induction p as [b| |d0 f IH] using proc_ind'; intros Hp; [done..|]. cbn [aloof discipline] in *.
  destruct Hp as [Hd Hp]. split; [intros g s E; by destruct (Hd g s E)|].
  intros s l Hs (_ & _ & _ & Hok). specialize (Hp s).
  destruct (f s) as [[s' p']|] eqn:E; [|by left]. destruct Hp as [Hs' Hp]. exists Free, l.
  rewrite Hs'. split_and!; [done|by apply lock_step_refl|by eapply IH].
Qed.

(** A computation that never waits may be used where waiting is allowed. *)
Lemma aloof_weaken {B} may (p : proc St B) : aloof false p -> aloof may p.
Proof.
  induction p as [b| |d0 f IH] using proc_ind'; intros Hp; [done..|]. cbn [aloof] in *.
  destruct Hp as [Hd Hp]. split; [intros g s E; by destruct (Hd g s E)|].
  intros s. specialize (Hp s). destruct (f s) as [[s' p']|] eqn:E; [|done]. destruct Hp.
  split; [done|]. by eapply IH.
Qed.

Lemma discipline_guarded {B} (d : bool -> St -> St) (p : proc St B) ph :
  (forall b s, cell (d b s) = cell s) -> discipline ph p -> discipline ph (guarded d p).
Proof.
  intros Hd. revert ph. induction p as [b| |d0 f IH] using proc_ind'; intros ph Hp.
  1, 2: (simpl in Hp; subst ph; split; [done|]; intros s l Hs (_ & _ & _ & Hok); exists Free, l;
    rewrite Hd; split_and!; [done|by apply lock_step_refl|done]).
  cbn [guarded discipline] in *. destruct Hp as [Hd0 Hp]. split.
  { destruct d0 as [g|]; intros g' s [= <-]. rewrite Hd. by apply Hd0. }
  intros s l Hs Hl. specialize (Hp s l Hs Hl).
  destruct (f s) as [[s' p']|] eqn:E; [|done]. destruct Hp as (ph' & l' & ? & ? & Hp).
  exists ph', l'. split_and!; [done..|]. by eapply IH.
Qed.

Lemma aloof_owning {B} may (d : St -> St) (p : proc St B) :
  (forall s, cell (d s) = cell s) -> aloof may p -> aloof may (owning d p).
Proof.
  intros Hd Hp. induction p as [b| |d0 f IH] using proc_ind'; [done..|].
  cbn [owning aloof] in *. destruct Hp as [Hd0 Hp]. split.
  { destruct d0 as [g|]; intros g' s [= <-]. rewrite Hd. by apply Hd0. }
  intros s. specialize (Hp s). destruct (f s) as [[s' p']|] eqn:E; [|done].
  destruct Hp. split; [done|]. by eapply IH.
Qed.

(** A computation that keeps the discipline keeps it when it may be dropped. *)
Lemma discipline_abandon {B} stop (p : proc St B) ph :
  discipline ph p -> discipline ph (abandon stop p).
Proof.
  revert ph. induction p as [b| |d f IH] using proc_ind'; intros ph Hp; [done..|].
  cbn [abandon discipline] in *. destruct Hp as [Hd Hp]. split; [exact Hd|]. intros s l Hs Hl.
  specialize (Hp s l Hs Hl).
  assert (match match f s with Some (s', p') => Some (s', abandon stop p') | None => None end with
    | Some (s', p') =>
        exists ph' l', cell s' = Some l' /\ lock_step ph l ph' l' /\ discipline ph' p'
    | None => may_wait ph l
    end) as Hgo.
  { destruct (f s) as [[s' p']|] eqn:E; [|done]. destruct Hp as (ph' & l' & ? & ? & Hp).
    exists ph', l'. split_and!; [done..|]. by eapply IH. }
  destruct d as [g|]; [|done]. destruct (stop _ _); [|done].
  destruct (Hd g s eq_refl) as [-> Hc]. destruct Hl as (_ & _ & _ & Hok).
  exists Free, l. rewrite Hc. split_and!; [done|by apply lock_step_refl|done].
Qed.

(** ** Interleavings *)

Section Pool.
Context {B : Type}.

(** How many computations hold the lock in each way. *)
Definition holders (f : phase -> nat) (phs : list phase) : nat := sum_list_with f phs.

Record pool_locks (c : St * list (proc St B)) (phs : list phase) (l : rwlock A) : Prop := {
  pl_cell : cell c.1 = Some l;
  pl_each i p ph : c.2 !! i = Some p -> phs !! i = Some ph -> discipline ph p;
  pl_len : length c.2 = length phs;
  pl_ok : rw_ok l;
  pl_readers : rw_readers l = holders as_reader phs;
  pl_upgrader : Nat.b2n (rw_upgradable l) = holders as_upgrader phs;
  pl_writer : Nat.b2n (rw_writer l) = holders as_writer phs;
}.

Lemma holders_insert f phs i ph ph' :
  phs !! i = Some ph -> holders f (<[i := ph']> phs) + f ph = holders f phs + f ph'.
Proof. apply sum_list_insert. Qed.

Lemma holders_lookup f phs i ph : phs !! i = Some ph -> f ph <= holders f phs.
Proof. apply sum_list_lookup. Qed.

Lemma pool_counted c phs l i ph : pool_locks c phs l -> phs !! i = Some ph -> counted ph l.
Proof.
  intros [_ _ _ Hok Hr Hu Hw] Hi.
  pose proof (holders_lookup as_reader phs i ph Hi).
  pose proof (holders_lookup as_upgrader phs i ph Hi).
  pose proof (holders_lookup as_writer phs i ph Hi). split_and!; [lia..|done].
Qed.

Lemma pool_locks_step c phs l i d f s' p' :
  pool_locks c phs l -> c.2 !! i = Some (Act d f) -> f c.1 = Some (s', p') ->
  exists ph ph' l', phs !! i = Some ph /\ next_phase ph ph' /\
    (rw_value l' = rw_value l \/ ph = Writing) /\
    pool_locks (s', <[i := p']> c.2) (<[i := ph']> phs) l'.
Proof.
  intros Hc Hi Hf. destruct c as [s ps]. simpl in *.
  destruct (lookup_lt_is_Some_2 phs i) as [ph Hph].
  { rewrite <-(pl_len _ _ _ Hc). by eapply lookup_lt_Some. }
  pose proof (pool_counted _ _ _ _ _ Hc Hph) as Hcount.
  destruct Hc as [Hcell Heach Hlen Hok Hr Hu Hw]. simpl in *.
  pose proof (proj2 (Heach i _ ph Hi Hph) s l Hcell Hcount) as Hd. rewrite Hf in Hd.
  destruct Hd as (ph' & l' & Hcell' & (Hn & Hok' & Er & Eu & Ew & Hv) & Hd).
  exists ph, ph', l'. split_and!; [done..|]. 
  pose proof (holders_insert as_reader phs i ph ph' Hph).
  pose proof (holders_insert as_upgrader phs i ph ph' Hph).
  pose proof (holders_insert as_writer phs i ph ph' Hph).
  split; simpl; [done| |by rewrite !length_insert|done|lia..].
  intros j q qh. rewrite !list_lookup_insert_Some.
  intros [(<- & <- & _)|[Hj Hq]] [(? & <- & _)|[? Hqh]]; try done. by eapply Heach.
Qed.

Lemma pool_locks_rtc c c' phs l :
  pool_locks c phs l -> rtc pool_step c c' -> exists phs' l', pool_locks c' phs' l'.
Proof.
  intros Hc Hr. revert phs l Hc. induction Hr as [c|c1 c2 c3 H12 _ IH]; intros phs l Hc; [eauto|].
  destruct H12 as [s ps i d0 f s' p' Hi Hf].
  destruct (pool_locks_step _ _ _ _ _ _ _ _ Hc Hi Hf) as (ph & ph' & l' & _ & _ & _ & Hc'). eauto.
Qed.

(** A holder that need not wait for readers goes on until it has released the lock. *)
Lemma holder_releases p s ps phs l i ph :
  pool_locks (s, ps) phs l -> ps !! i = Some p -> phs !! i = Some ph ->
  (ph = Upgrading -> rw_readers l = 0) ->
  exists s' ps' l', rtc pool_step (s, ps) (s', ps') /\ pool_locks (s', ps') (<[i := Free]> phs) l'.
Proof.
  revert s ps phs l ph. induction p as [b| |d0 f IH] using proc_ind';
    intros s ps phs l ph Hc Hi Hph Hup.
  1, 2: (assert (ph = Free) as -> by (by apply (pl_each _ _ _ Hc i _ _ Hi Hph));
    exists s, ps, l; by rewrite list_insert_id).
  destruct (decide (ph = Free)) as [->|Hne]; [exists s, ps, l; by rewrite list_insert_id|].
  pose proof (proj2 (pl_each _ _ _ Hc i _ _ Hi Hph) s l (pl_cell _ _ _ Hc) (pool_counted _ _ _ _ _ Hc Hph)) as Hd.
  destruct (f s) as [[s1 p1]|] eqn:Hf; [|destruct Hd as [?|[Hu Hn]]; [done|by destruct Hn, Hup]].
  destruct (pool_locks_step (s, ps) _ _ _ _ _ _ _ Hc Hi Hf) as (ph0 & ph1 & l1 & E & Hn & _ & Hc1).
  simplify_eq. simpl in Hc1.
  assert (ps !! i = Some (Act d0 f)) as Hi' by done. apply lookup_lt_Some in Hi' as Hlt.
  apply lookup_lt_Some in Hph as Hlt2.
  destruct (IH s s1 p1 Hf s1 (<[i := p1]> ps) (<[i :=
    ph1]> phs) l1 ph1 Hc1) as (s' & ps' & l' & Hr & Hc').
  - by rewrite list_lookup_insert_eq.
  - by rewrite list_lookup_insert_eq.
  - intros ->. destruct ph; try done. specialize (Hup eq_refl).
    pose proof (pl_readers _ _ _ Hc) as E1. pose proof (pl_readers _ _ _ Hc1) as E2.
    pose proof (holders_insert as_reader phs i Upgrading Upgrading Hph). lia.
  - exists s', ps', l'. rewrite list_insert_insert_eq in Hc'. split; [|done].
    eapply rtc_l; [by eapply pool_act|done].
Qed.

(** How many computations hold the lock at all. *)
Definition holding (ph : phase) : nat := if decide (ph = Free) then 0 else 1.

Lemma holders_pos f phs : 0 < holders f phs -> exists i ph, phs !! i = Some ph /\ 0 < f ph.
Proof.
  induction phs as [|x phs IH]; unfold holders in *; simpl; [lia|]. intros H.
  destruct (decide (0 < f x)) as [Hx|]; [by exists 0, x|].
  destruct IH as (i & ph & ? & ?); [lia|]. by exists (S i), ph.
Qed.

(** The holders alone bring the lock to rest. *)
Lemma lock_released s ps phs l :
  pool_locks (s, ps) phs l ->
  exists s' ps' l', rtc pool_step (s, ps) (s', ps') /\ cell s' = Some l' /\
    rw_readers l' = 0 /\ rw_upgradable l' = false /\ rw_writer l' = false.
Proof.
  remember (holders holding phs) as n eqn:Hn.
  revert s ps phs l Hn. induction (lt_wf n) as [n _ IH]. intros s ps phs l -> Hc.
  assert (forall i ph, phs !! i = Some ph -> ph <> Free -> (ph = Upgrading -> rw_readers l = 0) ->
    exists s' ps' l', rtc pool_step (s, ps) (s', ps') /\ cell s' = Some l' /\
      rw_readers l' = 0 /\ rw_upgradable l' = false /\ rw_writer l' = false) as Hone.
  { intros i ph Hi Hne Hup.
    destruct (lookup_lt_is_Some_2 ps i) as [p Hp].
    { change (length ps) with (length (s, ps).2). rewrite (pl_len _ _ _ Hc). by eapply lookup_lt_Some. }
    destruct (holder_releases p s ps phs l i ph Hc Hp Hi Hup) as (s1 & ps1 & l1 & Hr & Hc1).
    pose proof (holders_insert holding phs i ph Free Hi) as E.
    unfold holding at 2 4 in E. rewrite decide_False, decide_True in E by done.
    destruct (IH (holders holding (<[i := Free]> phs)) ltac:(lia) s1 ps1 _ l1 eq_refl Hc1)
      as (s2 & ps2 & l2 & Hr2 & H2).
    exists s2, ps2, l2. split; [by etrans|done]. }
  destruct (decide (rw_readers l = 0)) as [E0|E0].
  - destruct (rw_upgradable l) eqn:Eu; [|destruct (rw_writer l) eqn:Ew].
    + pose proof (pl_upgrader _ _ _ Hc) as E. rewrite Eu in E. simpl in E.
      destruct (holders_pos as_upgrader phs) as (i & ph & Hi & Hp); [lia|].
      unfold as_upgrader in Hp. case_decide; [|lia]. by apply (Hone i ph); subst.
    + pose proof (pl_writer _ _ _ Hc) as E. rewrite Ew in E. simpl in E.
      destruct (holders_pos as_writer phs) as (i & ph & Hi & Hp); [lia|].
      unfold as_writer in Hp. case_decide; [|lia]. by apply (Hone i ph); subst.
    + exists s, ps, l. split_and!; try done. apply Hc.
  - pose proof (pl_readers _ _ _ Hc) as E.
    destruct (holders_pos as_reader phs) as (i & ph & Hi & Hp); [lia|].
    unfold as_reader in Hp. case_decide; [|lia]. by apply (Hone i ph); subst.
Qed.

(** A pool that starts without the lock. *)
Lemma pool_locks_start s ps x :
  cell s = Some (rw_new x) -> Forall (discipline Free) ps ->
  pool_locks (s, ps) (replicate (length ps) Free) (rw_new x).
Proof.
  intros Hs Hps.
  assert (forall f, f Free = 0 -> holders f (replicate (length ps) Free) = 0) as Hz.
  { intros f Hf. unfold holders. induction (length ps); simpl; [done|]. lia. }
  split; simpl; try done; try (by rewrite Hz).
  - intros i p ph Hi [-> _]%lookup_replicate. by eapply Forall_lookup_1 in Hps.
  - by rewrite length_replicate.
Qed.
End Pool.
End RwLock.
