(* ===== verification/RegistryConc.v ===== *)
(** * RegistryConc: the registry under concurrent calls

    The methods of [LocalRegistry] simulate the atomic calls of RegistrySpec.v: each takes effect
    in one step, a step between its start and its end, on the snapshot of that moment. Hence any
    programs that make such calls, in any interleaving, behave as if every call were atomic; and
    of the threads that race for one address exactly one registers it. *)

From S2P Require Import Prelude.
From S2P Require Import Str.
From S2P Require Import Patterns.
From S2P Require Import PatternFacts.
From S2P Require Import RadixIface.
From S2P Require Import ChanIface.
From S2P Require Import Async.
From S2P Require Import Mutex.
From S2P Require Import Registry.
From S2P Require Import RegistryFacts.
From S2P Require Import RegistryProps.
From S2P Require Import World.
From S2P Require Import Channel.
From S2P Require Import Routing.
From S2P Require Import RegistryOps.
From S2P Require Import RegistrySpec.
From S2P Require Import Client.
From S2P Require Import Quiet.

Local Open Scope broker_scope.

Section Conc.
Context {D : Deps}.
Implicit Types (w : World) (i : RegistryInner Tree).

(** ** Critical sections *)

Section Critical.
Context {G : Type} (gstep : RegistryInner Tree -> G -> RegistryInner Tree -> G -> Prop).
Implicit Types (g : G).

Local Abbreviation sim := (sim locked inner gstep).

(** The specification may take a last step when the mutex is released. *)
Lemma sim_with_lock {A} (Q Q' : A -> G -> RegistryInner Tree -> Prop) (body : proc World A) g w :
  (forall a g i, Q a g i -> exists g', (g' = g \/ gstep i g i g') /\ Q' a g' i) ->
  (forall w, sim Q true true body g w) -> sim Q' false false (with_lock body) g w.
Proof.
  intros HQ Hb. unfold with_lock. cbn [bind lock Mutex.sim]. intros w1 _.
  destruct (held (register_mutex w1)) eqn:Eh; [done|].
  destruct (poisoned (register_mutex w1)).
  - exists false, g. split; [by apply guar_quiet|done].
  - exists true, g. split; [by split; [|left]|]. by eapply sim_release.
Qed.

Lemma sim_load {A} (Q : A -> G -> RegistryInner Tree -> Prop) hq h
    (k : RegistryInner Tree -> proc World A) g w :
  (forall w1, rely locked inner gstep h w w1 -> sim Q hq h (k (inner w1)) g w1) ->
  sim Q hq h (bind load k) g w.
Proof.
  intros Hk. cbn. intros w1 H1. exists h, g. split; [by apply guar_quiet|]. by apply Hk.
Qed.

(** Storing a snapshot is a step of the specification. *)
Lemma sim_store {A} (Q : A -> G -> RegistryInner Tree -> Prop) i (k : unit -> proc World A) g g' w :
  gstep (inner w) g i g' ->
  (forall w1, inner w1 = i -> sim Q true true (k tt) g' w1) ->
  sim Q true true (bind (store i) k) g w.
Proof.
  intros Hg Hk. cbn. intros w1 [Hl Hi]. exists true, g'. split; [|by apply Hk].
  split; [done|]. right. split; [by left|]. by rewrite Hi.
Qed.
End Critical.

(** ** The methods and their atomic calls *)

(** Factories neither touch the registry nor wait. *)
Definition call_ok {R} (c : call R) : Prop :=
  match c with Join _ factory => quiet false factory | _ => True end.

Fixpoint prog_ok {A} (p : prog A) : Prop :=
  match p with
  | Return _ => True
  | Call c k => call_ok c /\ forall r, prog_ok (k r)
  end.

Section Calls.
Context {A : Type}.

Local Abbreviation sim := (sim locked inner (@prog_step D A)).

(** The specification has made the call, with result [r]. *)
Definition called {R} (k : R -> prog A) (r : R) (p : prog A) (_ : RegistryInner Tree) : Prop :=
  p = k r.

(** It has, or it can make it now, with this result and without a change. *)
Definition callable {R} (k : R -> prog A) (r : R) (p : prog A) i : Prop :=
  p = k r \/ prog_step i p i (k r).

Lemma sim_method {R} (k : R -> prog A) (body : proc World R) g w :
  (forall w, sim (callable k) true true body g w) ->
  sim (called k) false false (with_lock body) g w.
Proof.
  apply sim_with_lock. intros r p i Hc. exists (k r). split; [|done]. destruct Hc as [->|]; auto.
Qed.

Lemma sim_made {R} (k : R -> prog A) r w : sim (callable k) true true (Ret r) (k r) w.
Proof. split; [done|by left]. Qed.

Lemma sim_register a t k w : sim (called k) false false (register a t) (Call (Register a t) k) w.
Proof.
  apply sim_method. intros w1. apply sim_load. intros w2 _.
  destruct (register_inner (inner w2) a t) as [i|e] eqn:E.
  - apply sim_store with (g' := k (Ok tt)); [|intros; apply sim_made].
    exists (Ok tt). cbn. rewrite E. auto.
  - split; [done|]. right. exists (Err e). cbn. rewrite E. auto.
Qed.

Lemma sim_join a f k w :
  quiet false f ->
  sim (called k) false false (get_existing_or_register a f) (Call (Join a f) k) w.
Proof.
  intros Hq. apply sim_method. intros w1. apply sim_load. intros w2 _.
  assert (forall r i', on_snapshot (Join a f) (inner w2) r i' ->
    prog_step (inner w2) (Call (Join a f) k) i' (k r)) as Hstep by (intros r i' Hr; by exists r).
  cbn [on_snapshot] in Hstep. destruct (check_address (inner w2) a) as [[t|existing|]|e].
  1, 2, 4: (split; [done|]; right; by apply Hstep).
  apply sim_quiet_bind; [done|]. intros [t|e] w3 [_ Hi] Hx.
  - apply sim_store with (g' := k (Ok (Registered t))); [|intros; apply sim_made].
    rewrite Hi. apply Hstep. by exists (Ok t).
  - split; [done|]. right. rewrite Hi. apply Hstep. by exists (Err e).
Qed.

Lemma sim_unregister a slot k w :
  sim (called k) false false (unregister a slot) (Call (Unregister a slot) k) w.
Proof.
  apply sim_method. intros w1. apply sim_load. intros w2 _. set (i := inner w2).
  assert (forall i', match find_route i a with
      | None => i' = i
      | Some (Single s) => i' = if decide (s = slot) then remove_route i a else i
      | Some (LoadBalancedTarget _) => i' = i \/ i' = remove_route i a
      end -> prog_step i (Call (Unregister a slot) k) i' (k (Ok tt))) as Hstep.
  { intros i' Hi. exists (Ok tt). by split; [|done]. }
  destruct (find_route i a) as [t|]; [|by split; [|right; apply Hstep]].
  apply sim_quiet_bind; [apply quiet_remove_slot|]. intros removed w3 [_ Hi] Hr. fold i in Hi.
  assert (match t with Single s => removed = bool_decide (s = slot) | _ => True end) as Ht.
  { destruct t as [s|g]; [|done]. unfold remove_slot in Hr.
    destruct (decide (s = slot)) as [->|Hne].
    - rewrite bool_decide_true by done.
      by apply may_return_bind in Hr as (? & _ & <-%may_return_ret_inv).
    - rewrite bool_decide_false by done. by apply may_return_ret_inv in Hr. }
  destruct removed.
  - apply sim_store with (g' := k (Ok tt)); [|intros; apply sim_made]. rewrite Hi. apply Hstep.
    destruct t as [s|g]; [|auto]. by rewrite decide_True by (by eapply bool_decide_eq_true).
  - split; [done|]. right. rewrite Hi. apply Hstep.
    destruct t as [s|g]; [|auto]. by rewrite decide_False by (by eapply bool_decide_eq_false).
Qed.

Lemma sim_lookup a k w : sim (called k) false false (lookup a) (Call (Lookup a) k) w.
Proof.
  cbn. intros w1 _. exists false, (k (lookup_inner (inner w1) a)). split; [|done].
  split; [done|]. right. split; [by right|]. by eexists.
Qed.

Lemma sim_has_route a k w : sim (called k) false false (has_route a) (Call (HasRoute a) k) w.
Proof.
  cbn. intros w1 _. exists false, (k (has_route_inner (inner w1) a)). split.
  - split; [done|]. right. split; [by right|]. by eexists.
  - split; [done|]. unfold called, has_route_inner. by destruct (lookup_inner _ _).
Qed.

Lemma sim_has_local a k w : sim (called k) false false (has_local a) (Call (HasLocal a) k) w.
Proof.
  cbn. intros w1 _. exists false, (k (has_local_inner (inner w1) a)). split; [|done].
  split; [done|]. right. split; [by right|]. by eexists.
Qed.

Lemma sim_call {R} (c : call R) k w :
  call_ok c -> sim (called k) false false (call_proc c) (Call c k) w.
Proof.
  destruct c; intros Hc; [apply sim_register|by apply sim_join|apply sim_unregister
    |apply sim_lookup|apply sim_has_route|apply sim_has_local].
Qed.

(** A program simulates itself with atomic calls. *)
Lemma sim_prog (p : prog A) w :
  prog_ok p -> sim (fun a g _ => g = Return a) false false (prog_proc p) p w.
Proof.
  revert w. induction p as [a|R c k IH]; intros w; [by split|]. intros [Hc Hk].
  cbn [prog_proc]. eapply sim_bind; [by apply sim_call|]. intros r g w1 ->. by apply IH.
Qed.
End Calls.

(** ** Properties *)

(** A pool that simulates its specifications ends with their results. *)
Lemma pool_results {A} ps (gs : list (prog A)) w w' ps' :
  pool_sim locked inner prog_step (fun a g => g = Return a) None (w, ps) (inner w, gs) ->
  rtc pool_step (w, ps) (w', ps') ->
  exists rest, rtc (ghost_step prog_step) (inner w, gs) (inner w', rest) /\
    length rest = length ps' /\
    forall k a, ps' !! k = Some (Ret a) -> rest !! k = Some (Return a).
Proof.
  intros Hsim Hrun.
  destruct (pool_simulates _ _ _ _ _ _ _ _ Hsim Hrun) as (own & [i rest] & [Hi Heach Hlen _] & Hr).
  simpl in *. subst i. exists rest. split_and!; [done..|]. intros k a Hk.
  destruct (lookup_lt_is_Some_2 rest k) as [g Hg]; [rewrite <-Hlen; by eapply lookup_lt_Some|].
  destruct (Heach k _ g Hk Hg) as [_ ->]. done.
Qed.

Lemma linearized {A} (progs : list (prog A)) w w' ps' :
  locked w = false -> Forall prog_ok progs ->
  rtc pool_step (w, prog_proc <$> progs) (w', ps') ->
  exists rest, rtc (ghost_step prog_step) (inner w, progs) (inner w', rest) /\
    length rest = length ps' /\
    forall k a, ps' !! k = Some (Ret a) -> rest !! k = Some (Return a).
Proof.
  intros Hfree Hok. apply pool_results, pool_start; [done|].
  apply Forall2_fmap_l, Forall_Forall2_diag.
  eapply list.Forall_impl; [exact Hok|]. intros p Hp. by apply sim_prog.
Qed.

(** C3: the registry is linearizable: whatever programs any number of threads run with its
    methods, in every interleaving of their steps they do what the same programs do when every
    call is one atomic step on the published snapshot. At every moment the snapshot is the one
    the atomic calls made so far have led to, and a program that has ended has the result the
    atomic calls give it. *)
Theorem registry_linearizable {A} (progs : list (prog A)) w w' ps'
    (Hfree : locked w = false) (Hok : Forall prog_ok progs)
    (Hrun : rtc pool_step (w, prog_proc <$> progs) (w', ps')) :
  exists rest, rtc (ghost_step prog_step) (inner w, progs) (inner w', rest) /\
    length rest = length ps' /\
    forall k a, ps' !! k = Some (Ret a) -> rest !! k = Some (Return a).
Proof. by apply linearized. Qed.

(** ** Changes of the snapshot *)

(** One whole call on a snapshot. *)
Definition legal i i' : Prop := exists R (c : call R) r, on_snapshot c i r i'.

Lemma legal_wf i i' : legal i i' -> inner_wf i -> inner_wf i'.
Proof.
  intros (R & c & r & Hc) Hwf. destruct c as [a t|a f|a slot|a|a|a]; cbn in Hc.
  - destruct (register_inner i a t) as [i1|e] eqn:E; destruct Hc as [_ ->]; [|done].
    apply check_address_of_register in E as [? ->]. by apply insert_wf.
  - destruct (check_address i a) as [[t|p|]|e] eqn:E;
      [by destruct Hc as [_ ->]..| |by destruct Hc as [_ ->]].
    destruct Hc as ([t|e] & _ & _ & ->); [by apply insert_wf|done].
  - destruct Hc as [_ Hc]. pose proof (remove_wf i a Hwf).
    destruct (find_route i a) as [[s|g]|]; [|by destruct Hc as [-> | ->]|by subst].
    subst. by case_decide.
  - by destruct Hc as [-> _].
  - by destruct Hc as [-> _].
  - by destruct Hc as [-> _].
Qed.

Lemma legal_rtc_wf i i' : rtc legal i i' -> inner_wf i -> inner_wf i'.
Proof. induction 1; eauto using legal_wf. Qed.

(** The specification that makes any calls at any time, and the computations that use the
    registry and its mutex as it does. *)
Definition any_call i (_ : unit) i' (_ : unit) : Prop := legal i i'.

Definition well_behaved {A} (h : bool) (p : proc World A) w : Prop :=
  sim locked inner any_call (fun _ _ _ => True) false h p tt w.

Lemma call_behaved {R} (c : call R) w : call_ok c -> well_behaved false (call_proc c) w.
Proof.
  intros Hc. unfold well_behaved.
  eapply (sim_map locked inner (@prog_step D unit) _ (fun _ => tt)
    (called (fun _ => Return tt))); [..|by apply sim_call].
  - intros i [|R' c' k] i' g'; [done|]. intros (r & Hr & _). by exists R', c', r.
  - intros i i' (_ & _ & R' & c' & r & Hr). exists (Call c' (fun _ => Return tt)), (Return tt).
    by exists r.
  - done.
Qed.

(** ** Racing for one address *)

Local Abbreviation factory := (proc World (result RouteTarget RegistryError)).

(** A thread that joins [a], and the result of thread [k] when thread [j] registers [t]. *)
Definition joiner (a : bytes) (f : factory) := Call (Join a f) Return.

Definition race_result (t : RouteTarget) (j k : nat) : RegisterResult :=
  if decide (k = j) then Registered t else AlreadyExists t.

Definition infallible (f : factory) : Prop :=
  quiet false f /\ forall x, may_return f x -> is_ok x = true.

Lemma check_inserted i a t :
  inner_wf i -> check_address i a = Ok NotFound ->
  check_address (insert_route i a t) a = Ok (Duplicate t).
Proof.
  intros Hwf Hc. apply find_route_check; [by apply insert_wf|].
  by apply find_route_insert, check_not_found_free.
Qed.

Lemma joiner_call a (fs : list factory) k (q : prog (result RegisterResult RegistryError)) :
  (joiner a <$> fs) !! k = Some q -> exists f, q = joiner a f /\ f ∈ fs.
Proof.
  intros (f & -> & Hf)%list_lookup_fmap_Some. exists f. split; [done|].
  by eapply list_elem_of_lookup_2.
Qed.

(** The race on atomic calls: not decided, or won by thread [j] with target [t]. *)
Definition race_state a (fs : list factory) i (d : RegistryInner Tree * list (prog _)) : Prop :=
  d = (i, joiner a <$> fs) \/
  exists t j, d.1 = insert_route i a t /\ d.2 !! j = Some (Return (Ok (Registered t))) /\
    forall k q, d.2 !! k = Some q ->
      (exists f, q = joiner a f /\ f ∈ fs) \/ q = Return (Ok (race_result t j k)).

Lemma race_step a fs i d d' :
  inner_wf i -> check_address i a = Ok NotFound -> Forall infallible fs ->
  race_state a fs i d -> ghost_step prog_step d d' -> race_state a fs i d'.
Proof.
  intros Hwf Hc Hfs Hd Hst. revert Hd. destruct Hst as [v gs k g v' g' Hk Hg].
  intros [[= -> ->]|(t & j & Hv & Hj & Hall)]; right; simpl in *.
  - apply joiner_call in Hk as Hf. destruct Hf as (f & -> & Hf).
    destruct Hg as (r & Hon & ->). cbn in Hon. rewrite Hc in Hon.
    destruct Hon as (x & Hx & Hon). rewrite list.Forall_forall in Hfs.
    pose proof (proj2 (Hfs f Hf) x Hx) as Hok. destruct x as [t|e]; [|done].
    destruct Hon as [-> ->]. exists t, k. split; [done|].
    split; [rewrite list_lookup_insert_eq; [done|by eapply lookup_lt_Some]|].
    intros n q [(-> & <- & _)|[Hn Hq]]%list_lookup_insert_Some.
    + right. unfold race_result. by rewrite decide_True.
    + left. by eapply joiner_call.
  - destruct (Hall k g Hk) as [(f & -> & Hf)| ->]; [|done].
    destruct Hg as (r & Hon & ->). cbn in Hon. subst v. rewrite check_inserted in Hon by done.
    destruct Hon as [-> ->]. exists t, j. split; [done|].
    assert (k <> j) as Hkj by (intros ->; rewrite Hj in Hk; done). split.
    + by rewrite list_lookup_insert_ne.
    + intros n q [(-> & <- & _)|[Hn Hq]]%list_lookup_insert_Some; [|by apply Hall].
      right. unfold race_result. by rewrite decide_False.
Qed.

Lemma race_atomic a fs i d :
  inner_wf i -> check_address i a = Ok NotFound -> Forall infallible fs ->
  rtc (ghost_step prog_step) (i, joiner a <$> fs) d -> race_state a fs i d.
Proof.
  intros Hwf Hc Hfs Hr. revert d Hr. apply rtc_ind_r; [by left|].
  intros d d' _ Hst Hd. by eapply race_step.
Qed.

Lemma joined_race a (fs : list factory) w w' ps' :
  locked w = false -> inner_wf (inner w) -> check_address (inner w) a = Ok NotFound ->
  Forall infallible fs -> rtc pool_step (w, get_existing_or_register a <$> fs) (w', ps') ->
  length ps' = length fs /\
  ((inner w' = inner w /\ forall k r, ps' !! k <> Some (Ret r)) \/
   exists t j, inner w' = insert_route (inner w) a t /\ j < length fs /\
     forall k r, ps' !! k = Some (Ret r) -> r = Ok (race_result t j k)).
Proof.
  intros Hfree Hwf Hnew Hfs Hrun.
  assert (pool_sim locked inner prog_step (fun r g => g = Return r) None
    (w, get_existing_or_register a <$> fs) (inner w, joiner a <$> fs)) as Hsim.
  { apply pool_start; [done|]. apply Forall2_fmap, Forall_Forall2_diag.
    eapply list.Forall_impl; [exact Hfs|]. intros f [Hq _]. by apply sim_join. }
  destruct (pool_results _ _ _ _ _ Hsim Hrun) as (rest & Hr & Hlen & Hres).
  pose proof (ghost_length _ _ _ Hr) as El. simpl in El. rewrite length_fmap in El.
  split; [by rewrite <-Hlen|].
  pose proof (race_atomic a fs _ _ Hwf Hnew Hfs Hr) as [[= Hi ->]|(t & j & Hi & Hj & Hall)];
    [left|right]; simpl in *.
  - split; [done|]. intros k r (f & ? & _)%Hres%joiner_call. done.
  - exists t, j. split; [done|]. split.
    { rewrite <-El. by eapply lookup_lt_Some. }
    intros k r Hk%Hres. destruct (Hall _ _ Hk) as [(f & ? & _)|E]; [done|]. by injection E.
Qed.

(** C16: when any number of threads race to join one free address, exactly one of them registers
    it: either nothing has happened yet, or the snapshot has one new route, one thread is the one
    that registered it, and every other one that is done has been given this route's target;
    nobody fails, and nobody ends up in a group of its own. *)
Theorem join_race a (fs : list factory) w w' ps'
    (Hfree : locked w = false) (Hwf : inner_wf (inner w))
    (Hnew : check_address (inner w) a = Ok NotFound) (Hfs : Forall infallible fs)
    (Hrun : rtc pool_step (w, get_existing_or_register a <$> fs) (w', ps')) :
  (inner w' = inner w /\ forall k r, ps' !! k <> Some (Ret r)) \/
  exists t j, inner w' = insert_route (inner w) a t /\ j < length fs /\
    forall k r, ps' !! k = Some (Ret r) -> r = Ok (race_result t j k).
Proof. by apply joined_race. Qed.
End Conc.

(** ** Witnesses *)

Section Witnesses.
Definition w0 : World := World_new.

(** Two threads: one registers, looks up and removes an address, the other joins another one. *)
Definition busy_thread : prog nat :=
  Call (Register users (Single 1)) (fun _ =>
  Call (Lookup users) (fun r =>
  Call (Unregister users 1) (fun _ => Return (if r then 1 else 0)))).

Definition join_thread : prog nat :=
  Call (Join core (group_factory 10 core)) (fun r => Return (if is_ok r then 1 else 0)).

Lemma threads_ok : Forall prog_ok [busy_thread; join_thread].
Proof.
  apply list.Forall_cons. split; [by repeat split|]. apply list.Forall_singleton.
  split; [apply quiet_group_factory|done].
Qed.

(** One of their runs. *)
Lemma threads_run :
  exists w', rtc pool_step (w0, prog_proc <$> [busy_thread; join_thread]) (w', [Ret 1; Ret 1]).
Proof.
  destruct (finished_run (fun n => Nat.eqb n 1) (prog_proc busy_thread) w0) as (n1 & H1 & E1);
    [vm_compute; reflexivity|]. apply Nat.eqb_eq in E1 as ->.
  destruct (finished_run (fun n => Nat.eqb n 1) (prog_proc join_thread)
    (final_state (run (prog_proc busy_thread) w0))) as (n2 & H2 & E2);
    [vm_compute; reflexivity|]. apply Nat.eqb_eq in E2 as ->.
  pose proof (run_pool (prog_proc <$> [busy_thread; join_thread]) 0 _ _ _ _ eq_refl H1) as P1.
  pose proof (run_pool [Ret 1; prog_proc join_thread] 1 _ _ _ _ eq_refl H2) as P2.
  eexists. etrans; [exact P1|exact P2].
Qed.

Lemma registry_linearizable_witness :
  exists w' rest, rtc pool_step (w0, prog_proc <$> [busy_thread; join_thread]) (w', [Ret 1; Ret 1]) /\
    rtc (ghost_step prog_step) (inner w0, [busy_thread; join_thread]) (inner w', rest) /\
    rest !! 0 = Some (Return 1) /\ rest !! 1 = Some (Return 1).
Proof.
  destruct threads_run as (w' & P).
  pose proof (registry_linearizable [busy_thread; join_thread] w0 _ _ eq_refl threads_ok P)
    as (rest & Hr & _ & Hres).
  exists w', rest. split; [exact P|]. split; [exact Hr|].
  split; [exact (Hres 0 1 eq_refl)|exact (Hres 1 1 eq_refl)].
Defined.

Lemma group_infallible n a : infallible (group_factory n a).
Proof.
  split; [apply quiet_group_factory|]. intros x Hx.
  apply may_return_bind in Hx as (ch & _ & Hx). apply may_return_bind in Hx as (slot & _ & Hx).
  apply may_return_bind in Hx as (t & _ & Hx). by apply may_return_ret_inv in Hx as <-.
Qed.

Definition joins : list (proc World (result RouteTarget RegistryError)) :=
  [group_factory 10 users; group_factory 20 users].

Lemma join_race_witness :
  exists w' r1 r2 t, rtc pool_step (w0, get_existing_or_register users <$> joins)
      (w', [Ret (Ok r1); Ret (Ok r2)]) /\
    inner w' = insert_route (inner w0) users t /\
    (r1 = Registered t /\ r2 = AlreadyExists t \/ r1 = AlreadyExists t /\ r2 = Registered t).
Proof.
  set (join := fun n => get_existing_or_register users (group_factory n users)).
  destruct (finished_run is_ok (join 10%Z) w0) as ([r1|] & H1 & E1); [vm_compute; reflexivity| |done].
  destruct (finished_run is_ok (join 20%Z) (final_state (run (join 10%Z) w0)))
    as ([r2|] & H2 & E2); [vm_compute; reflexivity| |done].
  pose proof (run_pool (get_existing_or_register users <$> joins) 0 _ _ _ _ eq_refl H1) as P1.
  pose proof (run_pool [Ret (Ok r1); join 20%Z] 1 _ _ _ _ eq_refl H2) as P2.
  pose proof (transitivity (R := rtc pool_step) P1 P2) as P.
  assert (Forall infallible joins) as Hfs.
  { apply Forall_cons; [apply group_infallible|]. apply Forall_cons; [apply group_infallible|done]. }
  assert (check_address (inner w0) users = Ok NotFound) as Hn by (vm_compute; reflexivity).
  pose proof (join_race users joins w0 _ _ eq_refl new_wf Hn Hfs P)
    as [[_ Hnone]|(t & j & Hi & Hj & Hres)]; [by destruct (Hnone 0 _ eq_refl)|].
  pose proof (Hres 0 _ eq_refl) as [= ->]. pose proof (Hres 1 _ eq_refl) as [= ->].
  eexists _, _, _, t. split; [exact P|]. split; [exact Hi|].
  destruct j as [|[|j]]; [left; split; reflexivity|right; split; reflexivity|simpl in Hj; lia].
Defined.
End Witnesses.
