(* ===== verification/RegistryRefine.v ===== *)
(** * RegistryRefine: the registry implements a table of routes

    On exact and single-segment addresses the registry behaves as a table from addresses to
    targets no two keys of which overlap (RegistrySpec.v): each call on a snapshot refines a call
    on the table the snapshot represents, and so do any programs of calls in any interleaving. *)

From S2P Require Import Prelude.
From S2P Require Import Utf8.
From S2P Require Import Patterns.
From S2P Require Import PatternFacts.
From S2P Require Import RadixIface.
From S2P Require Import ChanIface.
From S2P Require Import Async.
From S2P Require Import Mutex.
From S2P Require Import Registry.
From S2P Require Import RegistryFacts.
From S2P Require Import RegistryProps.
From S2P Require Import World.
From S2P Require Import Channel.
From S2P Require Import Routing.
From S2P Require Import RegistryOps.
From S2P Require Import RegistrySpec.
From S2P Require Import Client.
From S2P Require Import Quiet.
From S2P Require Import RegistryConc.

Local Open Scope broker_scope.

Section Refine.
Context {D : Deps}.
Implicit Types (i : RegistryInner Tree) (T : table) (a : bytes).

(** Calls and programs that register no [**] pattern. *)
Definition plain_call {R} (c : call R) : Prop :=
  match c with Register a _ | Join a _ => plain_address a | _ => True end.

Fixpoint plain_prog {A} (p : prog A) : Prop :=
  match p with
  | Return _ => True
  | Call c k => plain_call c /\ forall r, plain_prog (k r)
  end.

(** ** The table of a snapshot *)

Lemma abstracts_new : abstracts RegistryInner_new ∅.
Proof.
  split; [apply new_wf| |by intros p [? ?]]. intros p t. rewrite lookup_empty.
  unfold route, plain_route, exact_routes, prefix_routes. simpl. rewrite !rx_new_spec, !lookup_empty.
  set_solver.
Qed.

Lemma abstracts_plain i T p t : abstracts i T -> T !! p = Some t <-> plain_route i p t.
Proof.
  intros HT. rewrite (abs_route _ _ HT). split; [|by left]. intros Hr.
  assert (plain_address p) as Hp by (apply (abs_plain _ _ HT); exists t; by apply (abs_route _ _ HT)).
  destruct Hr as [Hr|Hr]; [done|]. apply prefix_is_wildcard in Hr as (Hw & _ & Hk); [|apply HT].
  rewrite (Hp Hw) in Hk. done.
Qed.

Lemma abstracts_find i T a : abstracts i T -> find_route i a = T !! a.
Proof.
  intros HT. destruct (find_route i a) as [t|] eqn:E; symmetry.
  - by apply (abs_route _ _ HT), find_route_some.
  - apply eq_None_not_Some. intros [t Ht]. apply (abs_route _ _ HT) in Ht.
    by eapply find_route_none in E; [|apply HT].
Qed.

Lemma abstracts_insert i T a t :
  abstracts i T -> plain_address a -> check_address i a = Ok NotFound ->
  abstracts (insert_route i a t) (<[a := t]> T).
Proof.
  intros HT Ha Hc. pose proof (abs_wf _ _ HT) as Hwf.
  assert (T !! a = None) as Hn by (by rewrite <-(abstracts_find i), check_not_found_free).
  split; [by apply insert_wf| |].
  - intros p u. rewrite insert_route_routes, lookup_insert_Some, (abs_route _ _ HT) by done.
    rewrite <-(abs_route _ _ HT). destruct (decide (p = a)); naive_solver.
  - intros p [->|[_ Hp]]%lookup_insert_is_Some; [done|]. by apply (abs_plain _ _ HT).
Qed.

Lemma abstracts_remove i T a : abstracts i T -> abstracts (remove_route i a) (delete a T).
Proof.
  intros HT. pose proof (abs_wf _ _ HT) as Hwf. split; [by apply remove_wf| |].
  - intros p u. rewrite remove_route_routes, lookup_delete_Some, (abs_route _ _ HT) by done.
    naive_solver.
  - intros p [_ Hp]%lookup_delete_is_Some. by apply (abs_plain _ _ HT).
Qed.

(** ** The check both registrations make *)

(** A free address overlaps no key. *)
Lemma free_fits i T a :
  abstracts i T -> plain_address a -> check_address i a = Ok NotFound -> fits T a.
Proof.
  intros HT Ha Hc. pose proof (abs_wf _ _ HT) as Hwf.
  apply check_address_found in Hc as [[Hx Hf]|(Hw & Hv & Hf)].
  - split; [unfold concrete in Hx; congruence|]. intros p [t Ht] (x & _ & Hax & Hpx).
    unfold covers at 1 in Hax. rewrite Hx in Hax. subst x.
    pose proof (get_exact_spec i a Hwf Hx) as Hs. rewrite Hf in Hs.
    apply (Hs p t); [by apply (abstracts_plain i T)|done].
  - split; [done|]. intros p [t Ht] (x & Hx & Hax & Hpx).
    apply covers_wildcard in Hax; [|done].
    destruct (check_single_free i a Hwf Hv (Ha Hw) Hf) as [Hk Hq].
    apply (abstracts_plain i T) in Ht; [|done].
    destruct (proj1 (plain_route_covers i p t x Hwf)) as [[-> He]|[Hs Hm]]; [done|by apply (Hk x)|].
    apply (Hq p t Hs). by exists x.
Qed.

(** The outcome of the check, told on the table. *)
Lemma check_address_table i T a :
  abstracts i T -> plain_address a ->
  match check_address i a with
  | Ok (Duplicate t) => T !! a = Some t
  | Ok (Conflict existing) => T !! a = None /\ refused T a (conflict_error a existing)
  | Ok NotFound => fits T a
  | Err e => T !! a = None /\ refused T a e
  end.
Proof.
  intros HT Ha. pose proof (abs_wf _ _ HT) as Hwf.
  assert (forall e, (exists p t, route i p t /\ clash a p /\ e = from_utf8_lossy p) ->
    refused T a (conflict_error a e)) as Href.
  { intros e (p & t & Hr & Hc & ->). right. exists p. split_and!; [|done..].
    exists t. by apply (abs_route _ _ HT). }
  pose proof (free_fits i T a HT Ha) as Hfits.
  destruct (T !! a) as [t|] eqn:E.
  { rewrite <-(abstracts_find i) in E by done. by rewrite (find_route_check i a t). }
  assert (forall t, ~ route i a t) as Hn by (intros t Hr%(abs_route _ _ HT); congruence).
  unfold check_address in *. destruct (is_wildcard a) eqn:Hw.
  - destruct (validate_wildcard_pattern a) as [[]|e] eqn:Hv.
    + apply validate_pattern_spec in Hv. cbn in *. pose proof (get_wildcard_spec i a Hwf Hw Hv) as Hs.
      destruct (get_wildcard i a); [by destruct (Hn target)|by auto|by apply Hfits].
    + cbn. split; [done|]. left. split; [done|]. rewrite <-validate_pattern_spec, Hv.
      split; [done|]. by apply validate_error in Hv.
  - pose proof (get_exact_spec i a Hwf Hw) as Hs.
    destruct (get_exact i a); [by destruct (Hn target)|by auto|by apply Hfits].
Qed.

(** ** Calls *)

Lemma refine_register i T a t r i' :
  abstracts i T -> plain_address a -> on_snapshot (Register a t) i r i' ->
  exists T', on_table (Register a t) T r T' /\ abstracts i' T'.
Proof.
  intros HT Ha. pose proof (check_address_table i T a HT Ha) as Hc. cbn. unfold register_inner.
  destruct (check_address i a) as [[u|e|]|e] eqn:E; cbn.
  - intros [-> ->]. exists T. split; [|done]. right. left. by rewrite Hc.
  - unfold conflict_error in *. destruct Hc as [Hn Hr].
    destruct (is_wildcard a); intros [-> ->]; exists T; (split; [|done]); right; right; eauto.
  - intros [-> ->]. exists (<[a := t]> T). split; [by left|]. by apply abstracts_insert.
  - intros [-> ->]. exists T. destruct Hc. split; [|done]. right. right. eauto.
Qed.

Lemma refine_join i T a f r i' :
  abstracts i T -> plain_address a -> on_snapshot (Join a f) i r i' ->
  exists T', on_table (Join a f) T r T' /\ abstracts i' T'.
Proof.
  intros HT Ha. pose proof (check_address_table i T a HT Ha) as Hc. cbn.
  destruct (check_address i a) as [[u|e|]|e] eqn:E.
  - intros [-> ->]. exists T. split; [|done]. right. left. eauto.
  - intros [-> ->]. exists T. destruct Hc. split; [|done]. right. right. eauto.
  - intros ([t|e] & Hx & -> & ->).
    + exists (<[a := t]> T). split; [left; split; [done|by exists (Ok t)]|]. by apply abstracts_insert.
    + exists T. split; [left; split; [done|by exists (Err e)]|done].
  - intros [-> ->]. exists T. destruct Hc. split; [|done]. right. right. eauto.
Qed.

Lemma refine_unregister i T a slot r i' :
  abstracts i T -> on_snapshot (Unregister a slot) i r i' ->
  exists T', on_table (Unregister a slot) T r T' /\ abstracts i' T'.
Proof.
  intros HT [-> Hi]. cbn. rewrite (abstracts_find i T) in Hi by done.
  pose proof (abstracts_remove i T a HT) as Hrem.
  destruct (T !! a) as [[s|g]|]; [|destruct Hi as [-> | ->]; eauto|subst; eauto].
  exists (if decide (s = slot) then delete a T else T). split; [done|]. subst i'. by case_decide.
Qed.

Lemma routed_plain i T a t :
  abstracts i T -> concrete a -> lookup_inner i a = Some t <-> routed T a t.
Proof.
  intros HT Ha. rewrite lookup_inner_iff by (done || apply HT). unfold routed.
  by setoid_rewrite (abstracts_plain i T _ _ HT).
Qed.

Lemma has_local_table i T a :
  abstracts i T -> has_local_inner i a = true <-> concrete a /\ is_Some (T !! a).
Proof.
  intros HT. pose proof (abs_wf _ _ HT) as Hwf. unfold has_local_inner. rewrite rx_get_spec.
  assert (concrete a /\ is_Some (T !! a) <-> is_Some (exact_routes i !! a)) as ->.
  { split.
    - intros [Ha Hs]. rewrite <-(abstracts_find i) in Hs by done. unfold find_route in Hs.
      by rewrite Ha, rx_get_spec in Hs.
    - intros Hs. pose proof (wf_exact _ Hwf a Hs) as Ha. split; [done|].
      rewrite <-(abstracts_find i) by done. unfold find_route. by rewrite Ha, rx_get_spec. }
  unfold exact_routes. destruct (rx_entries _ !! a) as [t|]; [|split; [done|by intros [? ?]]].
  split; [by exists t|done].
Qed.

(** A call on a snapshot is the call on its table. *)
Lemma on_snapshot_table {R} (c : call R) i T r i' :
  plain_call c -> abstracts i T -> on_snapshot c i r i' ->
  exists T', on_table c T r T' /\ abstracts i' T'.
Proof.
  intros Hc HT. destruct c as [a t|a f|a slot|a|a|a].
  - by apply refine_register.
  - by apply refine_join.
  - by apply refine_unregister.
  - intros [-> ->]. exists T. split; [|done]. split; [done|]. intros Ha t. by apply routed_plain.
  - intros [-> ->]. exists T. split; [|done]. split; [done|]. intros Ha. unfold has_route_inner.
    setoid_rewrite <-(routed_plain i T a _ HT Ha).
    destruct (lookup_inner i a) as [t|]; [split; [by exists t|done]|split; [done|by intros [? ?]]].
  - intros [-> ->]. exists T. split; [|done]. split; [done|]. by apply has_local_table.
Qed.

(** ** Programs *)

Lemma ghost_refine {A} i T (gs : list (prog A)) d :
  abstracts i T -> Forall plain_prog gs -> rtc (ghost_step prog_step) (i, gs) d ->
  exists T', rtc (ghost_step prog_on_table) (T, gs) (T', d.2) /\ abstracts d.1 T'.
Proof.
  intros HT Hgs Hr. remember (i, gs) as c eqn:Hd. revert i T gs HT Hgs Hd.
  induction Hr as [c|c1 c2 c3 H12 _ IH]; intros i T gs HT Hgs ->; [by exists T|].
  inversion H12 as [v gs' k g v' g' Hk Hg]; simplify_eq.
  destruct g as [a|R c kont]; [done|]. destruct Hg as (r & Hc & ->).
  pose proof (Forall_lookup_1 _ _ _ _ Hgs Hk) as [Hpc Hpk].
  destruct (on_snapshot_table c i T r v' Hpc HT Hc) as (T1 & Ht & HT1).
  destruct (IH v' T1 (<[k := kont r]> gs) HT1) as (T' & Hr' & HT'); [|done|].
  { apply Forall_insert; auto. }
  exists T'. split; [|done]. eapply rtc_l; [|exact Hr']. eapply ghost_step_at; [done|]. by exists r.
Qed.

(** ** Property *)

(** C4: the registry refines a table of routes: whatever programs any number of threads run with
    its methods, as long as they register no [**] pattern, in every interleaving they do what the
    same programs do when each call is one atomic step on a table from addresses to targets. There
    a registration succeeds exactly when the address overlaps no key, every refusal names its
    reason, an address is looked up under the key that covers it, and removal deletes a key. The
    snapshot represents the table at every moment, and the results are the same. *)
Theorem registry_refines_table {A} (progs : list (prog A)) T w w' ps'
    (Hfree : locked w = false) (HT : abstracts (inner w) T)
    (Hok : Forall prog_ok progs) (Hplain : Forall plain_prog progs)
    (Hrun : rtc pool_step (w, prog_proc <$> progs) (w', ps')) :
  exists rest T', rtc (ghost_step prog_on_table) (T, progs) (T', rest) /\
    abstracts (inner w') T' /\
    forall k r, ps' !! k = Some (Ret r) -> rest !! k = Some (Return r).
Proof.
  destruct (linearized progs w w' ps' Hfree Hok Hrun) as (rest & Hr & _ & Hres).
  destruct (ghost_refine _ _ _ _ HT Hplain Hr) as (T' & Hr' & HT'). by exists rest, T'.
Qed.
End Refine.

(** ** Witness *)

Lemma busy_thread_plain : Forall plain_prog [busy_thread; join_thread].
Proof.
  apply list.Forall_cons. split; [by repeat split|]. apply list.Forall_singleton. by repeat split.
Qed.

Lemma registry_refines_table_witness :
  exists w' rest T', rtc pool_step (w0, prog_proc <$> [busy_thread; join_thread]) (w', [Ret 1;
    Ret 1]) /\
    rtc (ghost_step prog_on_table) (∅, [busy_thread; join_thread]) (T', rest) /\
    abstracts (inner w') T' /\ rest !! 0 = Some (Return 1) /\ rest !! 1 = Some (Return 1).
Proof.
  destruct threads_run as (w' & P).
  pose proof (registry_refines_table [busy_thread; join_thread] ∅ w0 _ _ eq_refl abstracts_new
    threads_ok busy_thread_plain P) as (rest & T' & Hr & HT' & Hres).
  exists w', rest, T'. split; [exact P|]. split; [exact Hr|]. split; [exact HT'|].
  split; [exact (Hres 0 1 eq_refl)|exact (Hres 1 1 eq_refl)].
Defined.
