(* ===== verification/RuntimeProps.v ===== *)
(** * RuntimeProps: the registry of a whole running broker

    The step relation of Runtime.v: threads that run any programs over the public interface, the
    dispatchers and listeners they spawn, cancellation and time. The registry changes only by
    whole operations, its invariant always holds, and its mutex is always released. *)

From S2P Require Import Prelude.
From S2P Require Import Patterns.
From S2P Require Import RadixIface.
From S2P Require Import ChanIface.
From S2P Require Import Async.
From S2P Require Import Mutex.
From S2P Require Import Registry.
From S2P Require Import RegistryFacts.
From S2P Require Import RegistryProps.
From S2P Require Import World.
From S2P Require Import Channel.
From S2P Require Import Routing.
From S2P Require Import RegistryOps.
From S2P Require Import RegistrySpec.
From S2P Require Import Dispatcher.
From S2P Require Import Subscriber.
From S2P Require Import Transport.
From S2P Require Import ReplyDispatcher.
From S2P Require Import Publisher.
From S2P Require Import Client.
From S2P Require Import Runtime.
From S2P Require Import Quiet.
From S2P Require Import RegistryConc.

Local Open Scope broker_scope.

Section RuntimeProps.
Context {D : Deps}.
Implicit Types (w : World) (c : config).

(** ** Well-behaved computations *)

Lemma well_behaved_bind {A B} (p : proc World A) (k : A -> proc World B) w :
  (forall w, well_behaved false p w) -> (forall a w, well_behaved false (k a) w) ->
  well_behaved false (bind p k) w.
Proof. intros Hp Hk. eapply sim_bind; [apply Hp|]. intros a [] w1 _. apply Hk. Qed.

Lemma well_behaved_quiet {A} (p : proc World A) w : quiet true p -> well_behaved false p w.
Proof. intros Hq. by apply sim_quiet. Qed.

Lemma well_behaved_register a t w : well_behaved false (register a t) w.
Proof. by apply (call_behaved (Register a t)). Qed.

Lemma well_behaved_join a n w :
  well_behaved false (get_existing_or_register a (group_factory n a)) w.
Proof. apply (call_behaved (Join a (group_factory n a))), quiet_group_factory. Qed.

Lemma well_behaved_unregister a slot w : well_behaved false (unregister a slot) w.
Proof. by apply (call_behaved (Unregister a slot)). Qed.

Create HintDb behaved.
#[local] Hint Constants Opaque : behaved.
#[local] Hint Resolve well_behaved_register well_behaved_join well_behaved_unregister : behaved.

Ltac behaved :=
  repeat first
    [ solve [eauto with behaved nocore]
    | match goal with |- forall _, _ => intro end
    | match goal with |- well_behaved _ (bind _ _) _ => apply well_behaved_bind end
    | case_match
    | solve [apply well_behaved_quiet; quiet] ].

Lemma well_behaved_register_exclusive n a w : well_behaved false (register_exclusive n a) w.
Proof. unfold register_exclusive, create_channel, SubscriptionSlot_new, new_slot. behaved. Qed.
#[local] Hint Resolve well_behaved_register_exclusive : behaved.

Lemma well_behaved_client b n a w : well_behaved false (Broker_client b n a) w.
Proof. unfold Broker_client, BrokerClient_new. behaved. Qed.

Lemma well_behaved_subscribe a n w : well_behaved false (subscribe a n) w.
Proof. unfold subscribe, subscribe_exclusive, subscribe_load_balanced. behaved. Qed.

Lemma well_behaved_handle_drop h w : well_behaved false (SubscriptionHandle_drop h) w.
Proof. unfold SubscriptionHandle_drop. behaved. Qed.
#[local] Hint Resolve well_behaved_client well_behaved_subscribe well_behaved_handle_drop : behaved.

Lemma quiet_async_call {A} (p : proc World A) : async_call p -> quiet true p.
Proof. destruct 1; unfold BrokerClient_send; quiet. Qed.

Lemma client_code_behaved {A} (p : proc World A) : client_code p -> forall w, well_behaved false p w.
Proof.
  induction 1; intros w; [done|done|by apply well_behaved_bind|..].
  all: try by apply well_behaved_quiet, quiet_abandon, quiet_async_call.
  all: unfold BrokerClient_drop, BrokerClient_send, BrokerClient_publisher, Publisher_new,
    has_route, has_local; behaved.
Qed.

Lemma task_round_behaved t w : well_behaved false (task_round t) w.
Proof.
  destruct t as [env a|s k]; unfold task_round, listener_step; [|behaved].
  apply well_behaved_bind; [|done]. intros w1.
  destruct a; unfold dispatcher_step; behaved.
Qed.

Lemma same_task_drop t w : same w (task_drop t w).
Proof. destruct t; [apply same_dispatcher_drop|apply same_subscriber_drop]. Qed.

Lemma same_end_round k r w : same w (end_round k r w).
Proof. by destruct r. Qed.

(** ** Configurations *)

Definition computation : Type := nat + task_id.

(** Every computation is well behaved, and the one that holds the mutex exists. *)
Record runtime_safe (own : option computation) (c : config) : Prop := {
  safe_threads i p :
    threads c !! i = Some p -> well_behaved (holds own (inl i)) p (world c);
  safe_rounds k p :
    rounds c !! k = Some p -> well_behaved (holds own (inr k)) p (world c);
  safe_locked : locked (world c) = is_held own;
  safe_owner x : own = Some x ->
    match x with inl i => is_Some (threads c !! i) | inr k => is_Some (rounds c !! k) end;
}.

Lemma well_behaved_stable {A} h (p : proc World A) w w' :
  rely locked inner any_call h w w' -> well_behaved h p w -> well_behaved h p w'.
Proof. by apply sim_rely. Qed.

Lemma same_rely h w w' : same w w' -> rely locked inner any_call h w w'.
Proof. intros [Hl Hi]. by apply rely_quiet. Qed.

Lemma same_legal w w' : same w w' -> rtc legal (inner w) (inner w').
Proof. by intros [_ ->]. Qed.

(** A step of one computation, as the others see it. *)
Lemma well_behaved_step {A} own x d f w w' (p : proc World A) :
  locked w = is_held own -> well_behaved (holds own x) (Act d f) w -> f w = Some (w', p) ->
  exists own', (own' = own \/ own' = Some x \/ own' = None) /\
    locked w' = is_held own' /\ well_behaved (holds own' x) p w' /\
    (forall y : computation, y <> x ->
       holds own' y = holds own y /\ rely locked inner any_call (holds own y) w w') /\
    rtc legal (inner w) (inner w').
Proof.
  intros Hl Hs Hf. destruct (sim_act _ _ _ _ _ _ d _ _ _ _ _ Hs Hf) as (h' & [] & Hg & Hp).
  destruct (owner_step _ _ _ own x _ _ _ _ _ Hl Hg) as (own' & Hown & Hl' & <- & Hy).
  exists own'. split_and!; try done. destruct Hg as [_ [[-> _]|[_ Hv]]]; [done|by apply rtc_once].
Qed.

(** A step of a thread, of a round, and one outside all computations. *)
Lemma thread_keeps_safe own w ts rs i d f w' p :
  runtime_safe own (mkConfig w ts rs) -> ts !! i = Some (Act d f) -> f w = Some (w', p) ->
  exists own', runtime_safe own' (mkConfig w' (<[i := p]> ts) rs) /\ rtc legal (inner w) (inner w').
Proof.
  intros [Ht Hr Hl Ho] Hi Hf. simpl in *.
  destruct (well_behaved_step _ _ _ _ _ _ _ Hl (Ht _ _ Hi) Hf) as (own' & Hown & Hl' & Hp & Hy & Hv).
  exists own'. split; [|done]. split; simpl.
  - intros j q [(<- & <- & _)|[Hj Hq]]%list_lookup_insert_Some; [done|].
    destruct (Hy (inl j)) as [-> ?]; [congruence|]. eapply well_behaved_stable; eauto.
  - intros k q Hq. destruct (Hy (inr k)) as [-> ?]; [done|]. eapply well_behaved_stable; eauto.
  - done.
  - intros x Hx. destruct Hown as [->|[->| ->]]; [|injection Hx as <-|done].
    + specialize (Ho x Hx). destruct x as [j|k]; [|done].
      destruct (decide (i = j)) as [->|]; [|by rewrite list_lookup_insert_ne].
      rewrite list_lookup_insert_eq by by eapply lookup_lt_Some. by eexists.
    + rewrite list_lookup_insert_eq by by eapply lookup_lt_Some. by eexists.
Qed.

Lemma round_keeps_safe own w ts rs k d f w' p :
  runtime_safe own (mkConfig w ts rs) -> well_behaved (holds own (inr k)) (Act d f) w ->
  f w = Some (w', p) ->
  exists own', runtime_safe own' (mkConfig w' ts (<[k := p]> rs)) /\ rtc legal (inner w) (inner w').
Proof.
  intros [Ht Hr Hl Ho] Hk Hf. simpl in *.
  destruct (well_behaved_step _ _ _ _ _ _ _ Hl Hk Hf) as (own' & Hown & Hl' & Hp & Hy & Hv).
  exists own'. split; [|done]. split; simpl.
  - intros j q Hq. destruct (Hy (inl j)) as [-> ?]; [done|]. eapply well_behaved_stable; eauto.
  - intros j q [(<- & <-)|[Hj Hq]]%lookup_insert_Some; [done|].
    destruct (Hy (inr j)) as [-> ?]; [congruence|]. eapply well_behaved_stable; eauto.
  - done.
  - intros x Hx. destruct Hown as [->|[->| ->]]; [|injection Hx as <-|done].
    + specialize (Ho x Hx). destruct x as [j|j]; [done|].
      apply lookup_insert_is_Some'. by right.
    + rewrite lookup_insert_eq. by eexists.
Qed.

Lemma same_keeps_safe own w ts rs rs' w' :
  runtime_safe own (mkConfig w ts rs) -> same w w' ->
  (forall k, rs' !! k = rs !! k \/ holds own (inr k) = false /\ rs' !! k = None) ->
  runtime_safe own (mkConfig w' ts rs').
Proof.
  intros [Ht Hr Hl Ho] Hs Hrs. pose proof (fun h => same_rely h w w' Hs) as Hrely. simpl in *.
  split; simpl.
  - intros i p Hi. eapply well_behaved_stable; eauto.
  - intros k p Hk. destruct (Hrs k) as [E|[_ E]]; [|congruence]. rewrite E in Hk.
    eapply well_behaved_stable; eauto.
  - destruct Hs as [-> _]. done.
  - intros [i|k] Hx; specialize (Ho _ Hx); [done|].
    destruct (Hrs k) as [E|[Hh _]]; [by rewrite E|].
    unfold holds in Hh. by rewrite bool_decide_true in Hh.
Qed.

Lemma runtime_step_safe own c c' :
  runtime_safe own c -> runtime_step c c' ->
  exists own', runtime_safe own' c' /\ rtc legal (inner (world c)) (inner (world c')).
Proof.
  intros Hs Hst. destruct Hst as [w ts rs i d0 f w' p Hi Hf|w ts rs k x d0 f w' p Hx Hk Ha Ht Hf
    |w ts rs k d0 f w' p Hk Hf|w ts rs k r Hk|w ts rs k x Hk Hx|w ts rs k x Hx Hk Ha|w ts rs d Hd].
  - by eapply thread_keeps_safe.
  - eapply round_keeps_safe; [done| |done]. rewrite <-Ht.
    assert (holds own (inr k) = false) as ->; [|apply task_round_behaved].
    apply bool_decide_eq_false. intros ->. destruct (safe_owner _ _ Hs _ eq_refl) as [? E].
    simpl in E. congruence.
  - eapply round_keeps_safe; [done| |done]. by apply (safe_rounds _ _ Hs k).
  - pose proof (safe_rounds _ _ Hs k _ Hk) as [Hh _].
    pose proof (same_end_round k r w) as Hsame. exists own. split.
    + eapply same_keeps_safe; [done..|]. intros j.
      destruct (decide (k = j)) as [->|]; [right|left; by apply lookup_delete_ne].
      by rewrite lookup_delete_eq.
    + exact (same_legal _ _ Hsame).
  - pose proof (safe_rounds _ _ Hs k _ Hk) as Hh.
    assert (same w (task_drop (state x) (end_round k None w))) as Hsame.
    { etrans; [apply (same_end_round k None)|apply same_task_drop]. }
    exists own. split.
    + eapply same_keeps_safe; [done..|]. intros j.
      destruct (decide (k = j)) as [->|]; [right|left; by apply lookup_delete_ne].
      by rewrite lookup_delete_eq.
    + exact (same_legal _ _ Hsame).
  - assert (same w (task_drop (state x) (end_round k None w))) as Hsame.
    { etrans; [apply (same_end_round k None)|apply same_task_drop]. }
    exists own. split; [|exact (same_legal _ _ Hsame)].
    eapply same_keeps_safe; [done..|]. by left.
  - exists own. split; [|done]. eapply same_keeps_safe; [done..|]. by left.
Qed.

Lemma runtime_rtc_safe own c c' :
  runtime_safe own c -> rtc runtime_step c c' ->
  exists own', runtime_safe own' c' /\ rtc legal (inner (world c)) (inner (world c')).
Proof.
  intros Hs Hr. revert own Hs. induction Hr as [c|c1 c2 c3 H12 _ IH]; intros own Hs; [by exists own|].
  destruct (runtime_step_safe own c1 c2 Hs H12) as (own2 & Hs2 & Hv2).
  destruct (IH own2 Hs2) as (own3 & Hs3 & Hv3). exists own3. split; [done|by etrans].
Qed.

Lemma reachable_safe c :
  reachable c -> (exists own, runtime_safe own c) /\ inner_wf (inner (world c)).
Proof.
  intros (ps & Hps & Hr).
  assert (runtime_safe None (started ps)) as Hs.
  { split; simpl; [|done..]. intros i p Hi. eapply Forall_lookup_1 in Hps; [|done].
    by apply client_code_behaved. }
  destruct (runtime_rtc_safe _ _ _ Hs Hr) as (own & Hs' & Hv). split; [eauto|].
  eapply legal_rtc_wf; [exact Hv|]. apply new_wf.
Qed.

(** ** Properties *)

(** C2: whatever programs any number of components run over the public interface, and however
    the runtime interleaves them with the tasks they spawn, the published snapshot changes from
    any moment to any later one only by whole registrations and removals, each applied to the
    snapshot before it: no check is made on a stale snapshot and no update is lost; and the
    invariant of the routes always holds. *)
Theorem runtime_registry c c' (Hreach : reachable c) (Hrun : rtc runtime_step c c') :
  rtc legal (inner (world c)) (inner (world c')) /\ inner_wf (inner (world c')).
Proof.
  destruct (reachable_safe c Hreach) as [(own & Hs) Hwf].
  destruct (runtime_rtc_safe own c c' Hs Hrun) as (_ & _ & Hv). split; [done|].
  by eapply legal_rtc_wf.
Qed.

(** The steps of one computation. *)
Definition step_of (x : computation) (c c' : config) : Prop :=
  runtime_step c c' /\
  match x with
  | inl i => exists p, threads c' = <[i := p]> (threads c) /\ rounds c' = rounds c
  | inr k => exists p, rounds c' = <[k := p]> (rounds c) /\ threads c' = threads c
  end.

Lemma thread_releases i p w ts rs :
  well_behaved true p w -> ts !! i = Some p ->
  exists c', rtc (step_of (inl i)) (mkConfig w ts rs) c' /\ locked (world c') = false.
Proof.
  revert w ts. induction p as [a| |d0 f IH] using proc_ind'; intros w ts Hs Hi.
  - by destruct Hs.
  - done.
  - pose proof (Hs w (rely_refl locked inner any_call true w)) as Hw.
    destruct (f w) as [[w' p]|] eqn:E; [|done]. destruct Hw as (h' & [] & Hg & Hp).
    assert (step_of (inl i) (mkConfig w ts rs) (mkConfig w' (<[i := p]> ts) rs)) as Hstep.
    { split; [by eapply thread_step|by exists p]. }
    destruct h'.
    + destruct (IH w w' p E w' (<[i := p]> ts)) as (c' & Hr & Hl); [done|..].
      { rewrite list_lookup_insert_eq; [done|]. by eapply lookup_lt_Some. }
      exists c'. split; [by eapply rtc_l|done].
    + eexists. split; [by apply rtc_once|]. by destruct Hg.
Qed.

Lemma round_releases k p w ts rs :
  well_behaved true p w -> rs !! k = Some p ->
  exists c', rtc (step_of (inr k)) (mkConfig w ts rs) c' /\ locked (world c') = false.
Proof.
  revert w rs. induction p as [a| |d0 f IH] using proc_ind'; intros w rs Hs Hk.
  - by destruct Hs.
  - done.
  - pose proof (Hs w (rely_refl locked inner any_call true w)) as Hw.
    destruct (f w) as [[w' p]|] eqn:E; [|done]. destruct Hw as (h' & [] & Hg & Hp).
    assert (step_of (inr k) (mkConfig w ts rs) (mkConfig w' ts (<[k := p]> rs))) as Hstep.
    { split; [by eapply round_step|by exists p]. }
    destruct h'.
    + destruct (IH w w' p E w' (<[k := p]> rs)) as (c' & Hr & Hl);
        [done|by rewrite lookup_insert_eq|].
      exists c'. split; [by eapply rtc_l|done].
    + eexists. split; [by apply rtc_once|]. by destruct Hg.
Qed.

(** C25: the registry's mutex cannot deadlock: whenever it is held, one thread or task holds it,
    and the steps of that one alone, none of which has to wait for anything, release it. *)
Theorem registry_mutex_released c (Hreach : reachable c) (Hheld : locked (world c) = true) :
  exists x c', rtc (step_of x) c c' /\ locked (world c') = false.
Proof.
  destruct (reachable_safe c Hreach) as [(own & [Ht Hr Hl Ho]) _].
  destruct own as [x|]; [|simpl in Hl; congruence]. exists x. destruct c as [w ts rs].
  specialize (Ho x eq_refl). assert (holds (Some x) x = true) as Hx by by apply bool_decide_true.
  destruct x as [i|k]; destruct Ho as [p Hp]; simpl in *.
  - eapply thread_releases; [|done]. rewrite <-Hx. by apply Ht.
  - eapply round_releases; [|done]. rewrite <-Hx. by apply Hr.
Qed.
End RuntimeProps.

(** ** Witnesses *)

Section Witnesses.
Lemma run_thread {D : Deps} i p w w' ts rs :
  ts !! i = Some p -> run p w = Done w' tt ->
  rtc runtime_step (mkConfig w ts rs) (mkConfig w' (<[i := Ret tt]> ts) rs).
Proof.
  revert w ts. induction p as [[]| |d0 f IH] using proc_ind'; intros w ts Hi Hr; simpl in Hr.
  - simplify_eq. by rewrite list_insert_id.
  - done.
  - destruct (f w) as [[w1 p1]|] eqn:E; [|done].
    eapply rtc_l; [by eapply thread_step|].
    rewrite <-(list_insert_insert_eq ts i (Ret tt) p1). eapply (IH w w1 p1 E); [|done].
    rewrite list_lookup_insert_eq; [done|]. by eapply lookup_lt_Some.
Qed.

(** One component joins a group, which spawns a dispatcher; another one registers a slot. *)
Definition joiner : proc World unit :=
  let! _ := get_existing_or_register users (group_factory 10 users) in Ret tt.
Definition registrar : proc World unit := let! _ :=
  register (bs "arcella:log:writer") (Single 7) in Ret tt.

Lemma programs_ok : Forall client_code [joiner; registrar].
Proof. repeat constructor; intros; apply code_ret. Qed.

(** One of their runs. *)
Lemma programs_run :
  exists c, rtc runtime_step (started [joiner; registrar]) c /\ threads c = [Ret tt; Ret tt].
Proof.
  destruct (finished_run (fun _ => true) joiner World_new) as ([] & H1 & _);
    [vm_compute; reflexivity|].
  destruct (finished_run (fun _ => true) registrar (final_state (run joiner World_new)))
    as ([] & H2 & _); [vm_compute; reflexivity|].
  pose proof (run_thread 0 _ _ _ [joiner; registrar] ∅ eq_refl H1) as R1.
  pose proof (run_thread 1 _ _ _ [Ret tt; registrar] ∅ eq_refl H2) as R2.
  eexists. split; [etrans; [exact R1|exact R2]|reflexivity].
Qed.

Lemma runtime_registry_witness :
  exists c, rtc runtime_step (started [joiner; registrar]) c /\
    threads c = [Ret tt; Ret tt] /\
    rtc legal RegistryInner_new (inner (world c)) /\ inner_wf (inner (world c)).
Proof.
  destruct programs_run as (c & Hr & Ht).
  assert (reachable (started [joiner; registrar])) as Hs.
  { exists [joiner; registrar]. split; [apply programs_ok|done]. }
  exists c. split; [exact Hr|]. split; [exact Ht|]. exact (runtime_registry _ _ Hs Hr).
Defined.

(** The registrar has taken the mutex. *)
Definition mid_registration : config :=
  match registrar with
  | Act _ f => match f World_new with
             | Some (w, p) => mkConfig w [joiner; p] ∅
             | None => started []
             end
  | _ => started []
  end.

Lemma registry_mutex_released_witness :
  locked (world mid_registration) = true /\
  exists x c', rtc (step_of x) mid_registration c' /\ locked (world c') = false.
Proof.
  assert (locked (world mid_registration) = true) as Hl by (vm_compute; reflexivity).
  assert (reachable mid_registration) as Hr.
  { exists [joiner; registrar]. split; [apply programs_ok|]. apply rtc_once.
    apply (thread_step World_new [joiner; registrar] ∅ 1 _ _ _ _ eq_refl eq_refl). }
  split; [exact Hl|]. exact (registry_mutex_released mid_registration Hr Hl).
Defined.
End Witnesses.
