(* ===== verification/RuntimeTypes.v ===== *)
(** * RuntimeTypes: a running broker is always well typed

    The programs, the rounds of the tasks, and the steps of the runtime keep the shared state well
    typed (Typing.v), from its start on. *)

From S2P Require Import Prelude.
From S2P Require Import Protocol.
From S2P Require Import ChanIface.
From S2P Require Import RadixIface.
From S2P Require Import Async.
From S2P Require Import Preserve.
From S2P Require Import Registry.
From S2P Require Import RegistryFacts.
From S2P Require Import RegistryProps.
From S2P Require Import World.
From S2P Require Import Channel.
From S2P Require Import Routing.
From S2P Require Import RegistryOps.
From S2P Require Import Dispatcher.
From S2P Require Import Subscriber.
From S2P Require Import ReplyDispatcher.
From S2P Require Import Transport.
From S2P Require Import Publisher.
From S2P Require Import Client.
From S2P Require Import Runtime.
From S2P Require Import Config.
From S2P Require Import Patterns.
From S2P Require Import Typing.
From S2P Require Import TypedOps.
From S2P Require Import RuntimeProps.

Local Open Scope broker_scope.

Section RuntimeTypes.
Context {D : Deps} {U : MadeUp}.
Implicit Types (w : World) (c : config).

(** ** Tasks *)

(** What a round returns is the state of a task again. *)
Definition next_ok {X} (ok : World -> X -> Prop) (r : option X) w : Prop :=
  forall x, r = Some x -> ok w x.

Lemma next_ok_stable {X} (ok : World -> X -> Prop) `{!Monotone ok} : stable extends (next_ok ok).
Proof. intros r w w' He Hr x Hx. by eapply monotone, Hr. Qed.

Lemma next_some {X} (ok : World -> X -> Prop) x w : ok w x -> types (next_ok ok) (Ret (Some x)) w.
Proof. intros Hx y [= <-]. done. Qed.

Lemma next_none {X} (ok : World -> X -> Prop) w : types (next_ok ok) (Ret None) w.
Proof. by intros y. Qed.

Lemma types_dispatcher_step env at_ w :
  env_ok w env -> at_ok w at_ -> types (next_ok at_ok) (dispatcher_step env at_) w.
Proof.
  intros He Ha. destruct at_ as [|tx|tx m|m|]; unfold dispatcher_step.
  - eapply types_post; [apply (types_recv (M := oneshot_id))|]. intros [tx|] w1 _ Hr;
      apply next_some; [by apply Hr|done].
  - apply keeps_any_bind; [apply (types_recv_any (M := Message))|]. intros [m|] w1 H1.
    + apply next_some. by apply H1.
    + apply keeps_any_bind; [apply types_write, upd_oneshot_drop_sender|].
      intros _ w2 _. by apply next_some.
  - apply keeps_any_bind; [apply types_act, upd_reply_send|].
    intros [u|msg] w1 _; by apply next_some.
  - eapply types_post; [apply (types_recv (M := oneshot_id))|]. intros [tx|] w1 _ Hr;
      apply next_some; [by apply Hr|done].
  - do 3 (apply keeps_any_bind; [typing|]; intros).
    apply next_none.
Qed.

Lemma types_task_round t w : task_state_ok w t -> types (next_ok task_state_ok) (task_round t) w.
Proof.
  destruct t as [env at_|s k]; intros [H1 H2]; unfold task_round.
  - eapply types_post; [by apply types_dispatcher_step|]. intros [a|] w1 Hw Hr; [|apply next_none].
    apply next_some. split; [by eapply monotone|by apply Hr].
  - apply keeps_any_bind; [unfold listener_step; typing|]. intros [] w1 Hw; [|apply next_none].
    apply next_some. split; [by eapply monotone|by apply Hw].
Qed.

Lemma upd_task_drop t w : upd w (task_drop t w).
Proof. destruct t; [apply upd_dispatcher_drop|apply upd_subscriber_drop]. Qed.

Lemma upd_end_round k r w : next_ok task_state_ok r w -> upd w (end_round k r w).
Proof.
  intros Hr. destruct r as [t|]; [|apply upd_delete_task].
  apply upd_alter_task. intros x _. by apply Hr.
Qed.

(** ** Configurations *)

Record config_typed c : Prop := {
  ct_world : typed (world c);
  ct_threads i p : threads c !! i = Some p -> types any p (world c);
  ct_rounds k p : rounds c !! k = Some p -> types (next_ok task_state_ok) p (world c);
}.

(** An update of the state leaves everything else typed. *)
Lemma config_typed_update w w' ts rs rs' :
  config_typed (mkConfig w ts rs) -> upd w w' -> (forall k p, rs' !! k = Some p -> rs !! k = Some p) ->
  config_typed (mkConfig w' ts rs').
Proof.
  intros [Hw Ht Hr] Hu Hrs. simpl in *. destruct (Hu Hw) as [Hw' He]. split; [done|..]; simpl.
  - intros i p Hi. eapply keeps_ext; [apply stable_any|exact He|]. eauto.
  - intros k p Hk. eapply keeps_ext; [apply next_ok_stable, _|exact He|]. eauto.
Qed.

Lemma config_typed_thread w ts rs i d0 f w' p :
  config_typed (mkConfig w ts rs) -> ts !! i = Some (Act d0 f) -> f w = Some (w', p) ->
  config_typed (mkConfig w' (<[i := p]> ts) rs).
Proof.
  intros Hc Hi Hf. destruct (keeps_step _ _ _ _ _ _ _ _ (ct_world _ Hc) (ct_threads _ Hc i _ Hi) Hf)
    as (Hw' & He & Hp).
  destruct (config_typed_update w w' ts rs rs Hc) as [_ Ht Hr]; [done|auto|].
  split; [done|simpl|done].
  intros j q [(<- & <- & _)|[_ Hj]]%list_lookup_insert_Some; [done|by eapply Ht].
Qed.

Lemma config_typed_round w ts rs k d0 f w' p :
  config_typed (mkConfig w ts rs) -> types (next_ok task_state_ok) (Act d0 f) w -> f w = Some (w', p) ->
  config_typed (mkConfig w' ts (<[k := p]> rs)).
Proof.
  intros Hc Hk Hf. destruct (keeps_step _ _ _ _ _ _ _ _ (ct_world _ Hc) Hk Hf) as (Hw' & He & Hp).
  destruct (config_typed_update w w' ts rs rs Hc) as [_ Ht Hr]; [done|auto|].
  split; [done|done|simpl]. intros j q [(<- & <-)|[_ Hj]]%lookup_insert_Some; [done|by eapply Hr].
Qed.

Lemma delete_subseteq {X} (m : gmap task_id X) k j x : delete k m !! j = Some x -> m !! j = Some x.
Proof. by intros [_ ?]%lookup_delete_Some. Qed.

Lemma upd_cancel k t w : upd w (task_drop t (end_round k None w)).
Proof. etrans; [by apply (upd_end_round k None)|apply upd_task_drop]. Qed.

Lemma runtime_step_typed c c' : config_typed c -> runtime_step c c' -> config_typed c'.
Proof.
  intros Hc Hst. destruct Hst as [w ts rs i d0 f w' p Hi Hf|w ts rs k x d0 f w' p Hx Hk Ha Ht Hf
    |w ts rs k d0 f w' p Hk Hf|w ts rs k r Hk|w ts rs k x Hk Hx|w ts rs k x Hx Hk Ha|w ts rs d Hd].
  - by eapply config_typed_thread.
  - eapply config_typed_round; [done| |done]. rewrite <-Ht. apply types_task_round.
    by destruct (store_ok_lookup _ _ _ _ _ (ty_tasks _ (ct_world _ Hc)) Hx).
  - eapply config_typed_round; [done| |done]. by apply (ct_rounds _ Hc k).
  - eapply config_typed_update; [done| |apply delete_subseteq].
    apply upd_end_round. exact (ct_rounds _ Hc k _ Hk).
  - eapply config_typed_update; [done|apply upd_cancel|apply delete_subseteq].
  - eapply config_typed_update; [done|apply upd_cancel|done].
  - eapply config_typed_update; [done|apply upd_now|done].
Qed.

Lemma new_typed : typed World_new.
Proof.
  split; try done; try (intros k x E; simpl in E; by rewrite lookup_empty in E).
  unfold routes_ok, route, plain_route, exact_routes, prefix_routes. simpl. rewrite rx_new_spec.
  intros a t [[Hr|Hr]|Hr]; set_solver.
Qed.

(** ** Property *)

Lemma reachable_typed c : reachable_over made_up c -> typed (world c).
Proof.
  intros (ps & Hps & Hr). apply ct_world.
  assert (config_typed (started ps)) as Hs.
  { split; [apply new_typed| |done]. intros i p Hi. eapply Forall_lookup_1 in Hps; [|done].
    by apply types_client_code. }
  induction Hr as [|c1 c2 c3 H12 _ IH]; [done|]. apply IH. by eapply runtime_step_typed.
Qed.
End RuntimeTypes.

(** C5: a running broker is always well typed. Whatever programs its components run over the
    public interface, however they interleave with the spawned tasks, and whenever tasks are
    aborted: every key is one that was handed out, so no new object takes the place of another;
    every reference in a slot, group, task, waiter map or queue of requests is to an object of
    its kind that exists; so is the target of every route and of every endpoint in a publisher's
    cache, unless a program registered a target it had made up, one of [made_up] (with
    [made_up := fun _ => False] there is none); the task a group holds a handle of is one that was
    spawned, and may have ended; versions and consumer counts stay within 64 bits; no queue holds
    more than its capacity, or anything once its receiver is gone; a reply sits only in a channel
    whose sender is used up and whose receiver lives; a writer of a publisher's cache is alone. *)
Theorem runtime_typed {D : Deps} (made_up : RouteTarget -> Prop) c
    (Hreach : reachable_over made_up c) :
  typed (U := made_up) (world c).
Proof. by apply (reachable_typed (U := made_up)). Qed.

(** ** Witness *)

(** Where no target was made up, every route leads to an object that is there. *)
Lemma typed_routes {D : Deps} w :
  typed (U := fun _ => False) w -> forall a t, route (inner w) a t -> target_ok w t.
Proof. intros Hw a t Ha. by destruct (ty_routes w Hw a t Ha). Qed.

Section Witness.
(** A component that makes up no target: it subscribes to two addresses, and publishes to one. *)
Definition greeting : Message :=
  {| header := {| version := 1; flags := 0; priority := 0; session_token := [];
                  message_id := bs "0123456789abcdef"; sub_message_id := []; ttl := 64;
                  msg_type_len := 5; address_len := 18; payload_len := 2 |};
     msg_type := bs "greet"; Protocol.address := users; Protocol.reply_to := [];
     payload := bs "hi" |}.

Definition provider : proc World unit :=
  let! client := Broker_client (mkBroker BrokerConfig_default) ClientConfig_default (bs "arcella:app") in
  match client with
  | Ok self =>
      let! _ := subscribe users (mkSubscriberConfig 4 Exclusive) in
      let! _ := subscribe (bs "arcella:log:*") (mkSubscriberConfig 4 LoadBalanced) in
      let! p := BrokerClient_publisher self users in
      let! _ := Publisher_send p greeting in
      Ret tt
  | Err _ => Ret tt
  end.

Lemma provider_code : code_over (fun _ => False) provider.
Proof.
  unfold provider. apply code_bind; [apply code_client|]. intros [self|e]; [|apply code_ret].
  do 2 (apply code_bind; [apply code_subscribe|intros _]).
  apply code_bind; [apply code_publisher|intros p].
  apply code_bind; [apply code_publisher_send|intros _; apply code_ret].
Qed.

(** It ends with three routes, one to a group, and an endpoint in the publisher's cache, and each
    of them leads to an object that is there. *)
Lemma runtime_typed_witness :
  exists c, reachable_over (fun _ => False) c /\ threads c = [Ret tt] /\
    find_route (inner (world c)) users = Some (Single 5) /\
    (exists g, find_route (inner (world c)) (bs "arcella:log:*") = Some (LoadBalancedTarget g) /\
      has_group (world c) g) /\
    (exists k l v, caches (world c) !! k = Some l /\ rw_value l = Some (mkEndpoint (Single 5) v)) /\
    has_slot (world c) 5 /\
    (forall a t, route (inner (world c)) a t -> target_ok (world c) t) /\
    typed (U := fun _ => False) (world c).
Proof.
  destruct (finished_run (fun _ => true) provider World_new) as ([] & H & _);
    [vm_compute; reflexivity|].
  pose proof (run_thread 0 _ _ _ [provider] ∅ eq_refl H) as R.
  set (c := mkConfig (final_state _) _ _) in R.
  assert (reachable_over (fun _ => False) c) as Hc.
  { exists [provider]. split; [|exact R]. constructor; [apply provider_code|constructor]. }
  pose proof (runtime_typed (fun _ => False) c Hc) as Ht.
  pose proof (typed_routes (world c) Ht) as Hr.
  exists c. split_and!; [exact Hc|reflexivity|vm_compute; reflexivity| | |vm_compute; eauto|exact Hr
    |exact Ht].
  - eexists. split; [vm_compute; reflexivity|vm_compute; eauto].
  - exists 11%nat, (rw_new (Some (mkEndpoint (Single 5) 1))), 1%Z. split; vm_compute; reflexivity.
Defined.
End Witness.
