(* ===== verification/RunFacts.v ===== *)
(** * RunFacts: what the operations do when they run alone

    Equations for [run] of the registry's methods and of the operations on slots and groups, used
    by the properties of the client. [calm w] says that nobody holds or has poisoned the
    registry's mutex. *)

From S2P Require Import Prelude.
From S2P Require Import Str.
From S2P Require Import Patterns.
From S2P Require Import RadixIface.
From S2P Require Import ChanIface.
From S2P Require Import Async.
From S2P Require Import Registry.
From S2P Require Import RegistryFacts.
From S2P Require Import RegistryProps.
From S2P Require Import Protocol.
From S2P Require Import World.
From S2P Require Import Channel.
From S2P Require Import Routing.
From S2P Require Import RegistryOps.
From S2P Require Import Subscriber.

Local Open Scope broker_scope.

Section RunFacts.
Context {D : Deps}.
Implicit Types (w : World) (slot : slot_id) (group : group_id).

Definition calm w : Prop := register_mutex w = mkMutex false false.

Definition locked_world w : World := set_mutex (mkMutex true false) w.

Lemma unlock_world w (f : World -> World) :
  calm w -> (forall m v, f (set_mutex m v) = set_mutex m (f v)) ->
    register_mutex (f w) = register_mutex w ->
  unlock false (f (locked_world w)) = f w.
Proof.
  intros Hc Hf Hm. unfold unlock, locked_world. rewrite Hf.
  destruct (f w) as [? ? ? ? ? ? ? ? m ? ? ? ?] eqn:E. simpl in *. unfold set_mutex. simpl.
  by rewrite Hm, Hc.
Qed.

Lemma run_with_lock {A} (body : proc World A) w :
  calm w ->
  run (with_lock body) w =
    match run body (locked_world w) with
    | Done w' a => Done (unlock false w') a
    | Panicked w' => Panicked (unlock true w')
    | Blocked w' p => Blocked w' (guarded unlock p)
    end.
Proof.
  intros Hc. unfold with_lock. rewrite run_bind. cbn [run lock].
  rewrite Hc. cbn. by rewrite run_guarded.
Qed.

Lemma run_write (f : World -> World) w : run (write f) w = Done (f w) tt.
Proof. done. Qed.

Lemma run_read_bind {A B} (f : World -> A) (k : A -> proc World B) w :
  run (bind (read f) k) w = run (k (f w)) w.
Proof. done. Qed.

Lemma run_write_bind {B} (f : World -> World) (k : unit -> proc World B) w :
  run (bind (write f) k) w = run (k tt) (f w).
Proof. done. Qed.

Lemma run_act_bind {A B} (f : World -> World * A) (k : A -> proc World B) w :
  run (bind (act f) k) w = run (k (f w).2) (f w).1.
Proof. unfold act. simpl. by destruct (f w). Qed.

Lemma run_poll_bind {M A B} `{!Channels M} k c (f : Chan M -> option (A * Chan M))
    (g : A -> proc World B) w :
  get_channels w !! k = Some c ->
  run (bind (await (poll_channel k f)) g) w =
    match f c with
    | Some (a, c') => run (g a) (put_channel k c' w)
    | None => Blocked w (bind (await (poll_channel k f)) g)
    end.
Proof.
  intros Hc. unfold await at 1. cbn [bind run]. unfold poll_channel at 1. rewrite Hc.
  cbn [mbind option_bind]. by destruct (f c) as [[a c']|].
Qed.

Lemma run_owning_poll_bind {M A B} `{!Channels M} d k c (f : Chan M -> option (A * Chan M))
    (g : A -> proc World B) w :
  get_channels w !! k = Some c ->
  run (bind (owning d (await (poll_channel k f))) g) w =
    match f c with
    | Some (a, c') => run (g a) (put_channel k c' w)
    | None => Blocked w (bind (owning d (await (poll_channel k f))) g)
    end.
Proof.
  intros Hc. unfold await at 1. cbn [bind owning run]. unfold poll_channel at 1. rewrite Hc.
  cbn [mbind option_bind]. by destruct (f c) as [[a c']|].
Qed.

Lemma locked_unlock w : calm w -> unlock false (locked_world w) = w.
Proof. intros Hc. by apply (unlock_world w id). Qed.

Lemma run_register a t w :
  calm w ->
  run (register a t) w =
    match register_inner (inner w) a t with
    | Ok i => Done (set_inner i w) (Ok tt)
    | Err e => Done w (Err e)
    end.
Proof.
  intros Hc. unfold register. rewrite run_with_lock by done. unfold load. rewrite run_read_bind.
  change (inner (locked_world w)) with (inner w).
  destruct (register_inner (inner w) a t) as [i|e].
  - unfold store. rewrite run_write_bind. cbn [run].
    by rewrite (unlock_world w (set_inner i)).
  - cbn [run]. by rewrite locked_unlock.
Qed.

Lemma run_join a f t w :
  calm w -> check_address (inner w) a = Ok (Duplicate t) ->
  run (get_existing_or_register a f) w = Done w (Ok (AlreadyExists t)).
Proof.
  intros Hc Hd. unfold get_existing_or_register. rewrite run_with_lock by done.
  unfold load. rewrite run_read_bind. change (inner (locked_world w)) with (inner w).
  rewrite Hd. cbn [run]. by rewrite locked_unlock.
Qed.

(** A poisoned mutex makes every later call panic. *)
Lemma run_poisoned {A} (body : proc World A) w :
  register_mutex w = mkMutex false true -> run (with_lock body) w = Panicked w.
Proof. intros Hm. unfold with_lock. rewrite run_bind. cbn [run lock]. by rewrite Hm. Qed.

(** ** Slots and groups *)

Definition removed slot w : World := on_slot bump_version slot (store_sender None slot w).

Lemma run_mark_removed slot w : run (mark_removed slot) w = Done (removed slot w) tt.
Proof. done. Qed.

Definition shut group w : World :=
  let w' := take_and_abort group w in
  on_group bump_group_version group (removed (slot_of group w') w').

Lemma run_shutdown group w : run (shutdown group) w = Done (shut group w) tt.
Proof. done. Qed.

Lemma slot_of_take group w : slot_of group (take_and_abort group w) = slot_of group w.
Proof.
  unfold take_and_abort, slot_of. destruct (groups w !! group) as [[? [] ? ? ? ? ?]|] eqn:E; simpl;
    rewrite ?lookup_alter_eq, E; done.
Qed.

(** Operations that leave the routing state alone commute with the mutex. *)
Lemma removed_mutex slot m w : removed slot (set_mutex m w) = set_mutex m (removed slot w).
Proof. unfold removed, store_sender. simpl. by destruct (slots w !! slot) as [[[]]|]. Qed.

Lemma take_mutex group m w :
  take_and_abort group (set_mutex m w) = set_mutex m (take_and_abort group w).
Proof. unfold take_and_abort. simpl. by destruct (groups w !! group) as [[? [] ? ? ? ? ?]|]. Qed.

Lemma shut_mutex group m w : shut group (set_mutex m w) = set_mutex m (shut group w).
Proof.
  unfold shut. rewrite take_mutex.
  change (slot_of group (set_mutex m (take_and_abort group w)))
    with (slot_of group (take_and_abort group w)). by rewrite removed_mutex.
Qed.

Lemma removed_same slot w :
  register_mutex (removed slot w) = register_mutex w /\ inner (removed slot w) = inner w.
Proof. unfold removed, store_sender. by destruct (slots w !! slot) as [[[]]|]. Qed.

Lemma take_same group w :
  register_mutex (take_and_abort group w) = register_mutex w /\
  inner (take_and_abort group w) = inner w.
Proof. unfold take_and_abort. by destruct (groups w !! group) as [[? [] ? ? ? ? ?]|]. Qed.

Lemma shut_same group w :
  register_mutex (shut group w) = register_mutex w /\ inner (shut group w) = inner w.
Proof.
  destruct (removed_same (slot_of group (take_and_abort group w)) (take_and_abort group w))
    as [E1 E2]. destruct (take_same group w) as [E3 E4].
  split; [by etrans; [exact E1|]|by etrans; [exact E2|]].
Qed.

(** ** Removing a subscription *)

(** Whether a target is the given slot's, and the state once its slot is gone. *)
Definition owns (t : RouteTarget) slot w : bool :=
  match t with
  | Single s => bool_decide (s = slot)
  | LoadBalancedTarget g => bool_decide (slot_of g w = slot)
  end.

Definition after_removal (t : RouteTarget) w : World :=
  match t with
  | Single s => removed s w
  | LoadBalancedTarget g => shut g w
  end.

Lemma run_remove_slot t slot w :
  run (remove_slot t slot) w =
    if owns t slot w then Done (after_removal t w) true else Done w false.
Proof.
  destruct t as [s|g]; unfold remove_slot, owns.
  - destruct (decide (s = slot)); [rewrite bool_decide_eq_true_2 by done|
      by rewrite bool_decide_eq_false_2]. rewrite run_bind, run_mark_removed. done.
  - rewrite run_read_bind. destruct (decide (slot_of g w = slot));
      [rewrite bool_decide_eq_true_2 by done|by rewrite bool_decide_eq_false_2].
    rewrite run_bind, run_shutdown. done.
Qed.

Lemma after_removal_mutex t m w :
  after_removal t (set_mutex m w) = set_mutex m (after_removal t w).
Proof. destruct t; [apply removed_mutex|apply shut_mutex]. Qed.

Lemma after_removal_same t w :
  register_mutex (after_removal t w) = register_mutex w /\ inner (after_removal t w) = inner w.
Proof. destruct t; [apply removed_same|apply shut_same]. Qed.

Lemma run_unregister a slot w :
  calm w ->
  run (unregister a slot) w =
    match find_route (inner w) a with
    | Some t =>
        if owns t slot w
        then Done (set_inner (remove_route (inner w) a) (after_removal t w)) (Ok tt)
        else Done w (Ok tt)
    | None => Done w (Ok tt)
    end.
Proof.
  intros Hc. unfold unregister. rewrite run_with_lock by done. unfold load. rewrite run_read_bind.
  change (inner (locked_world w)) with (inner w).
  destruct (find_route (inner w) a) as [t|]; [|cbn [run]; by rewrite locked_unlock].
  rewrite run_bind, run_remove_slot.
  change (owns t slot (locked_world w)) with (owns t slot w).
  destruct (owns t slot w); [|cbn [run]; by rewrite locked_unlock].
  unfold store. rewrite run_write_bind. cbn [run].
  rewrite (unlock_world w (fun v => set_inner (remove_route (inner w) a) (after_removal t v)));
    [done|done| |].
  - intros m v. by rewrite after_removal_mutex.
  - apply after_removal_same.
Qed.
End RunFacts.
