(* ===== verification/LifecycleProps.v ===== *)
(** * LifecycleProps: subscribing, unsubscribing and what is left behind

    The life of exclusive subscriptions and of load-balanced groups through the operations of the
    client, run alone in a state where the registry's mutex is free. *)

From S2P Require Import Prelude.
From S2P Require Import Str.
From S2P Require Import Patterns.
From S2P Require Import PatternFacts.
From S2P Require Import Config.
From S2P Require Import RadixIface.
From S2P Require Import ChanIface.
From S2P Require Import Async.
From S2P Require Import Registry.
From S2P Require Import RegistryFacts.
From S2P Require Import RegistryProps.
From S2P Require Import Protocol.
From S2P Require Import World.
From S2P Require Import Channel.
From S2P Require Import Routing.
From S2P Require Import RegistryOps.
From S2P Require Import Subscriber.
From S2P Require Import ReplyDispatcher.
From S2P Require Import Transport.
From S2P Require Import Publisher.
From S2P Require Import Client.
From S2P Require Import RunFacts.

Local Open Scope broker_scope.

Section Lifecycle.
Context {D : Deps}.
Implicit Types (w : World) (slot : slot_id) (group : group_id) (a : bytes).

Definition valid_capacity (n : Z) : Prop := (1 <= n <= max_permits)%Z.

Lemma channel_some {M} n : valid_capacity n -> exists c : Chan M,
  mpsc_channel n = Some c /\ mpsc_look c = mkMpsc [] n 1 true.
Proof.
  intros Hn. pose proof (mpsc_channel_spec (M := M) n) as Hs. unfold view_channel in Hs.
  rewrite decide_True in Hs by done.
  destruct (mpsc_channel n) as [c|]; [|done]. injection Hs as Hs. by exists c.
Qed.

Lemma channel_none {M} n : ~ valid_capacity n -> mpsc_channel (M := M) (C := Chan) n = None.
Proof.
  intros Hn. pose proof (mpsc_channel_spec (M := M) n) as Hs. unfold view_channel in Hs.
  rewrite decide_False in Hs by done. by destruct (mpsc_channel n).
Qed.

(** ** Exclusive subscriptions *)

(** The state with the new channel and slot, before the registration. *)
Definition with_slot (c : Chan Message) w : World :=
  let k := next_id w in
  let w1 := bump_id (set_chans (<[k := c]> (chans w)) w) in
  bump_id (set_slots (<[S k := mkSlot (Some k) 1]> (slots w1)) w1).

Lemma run_channel_bind {M B} `{!Channels M} n c (k : nat -> proc World B) w :
  mpsc_channel (M := M) n = Some c ->
  run (bind (channel (M := M) n) k) w =
  run (k (next_id w)) (bump_id (put_channel (next_id w) c w)).
Proof. intros Hn. unfold channel, act_or_panic. cbn [bind run]. by rewrite Hn. Qed.

Lemma run_channel_panic {M B} `{!Channels M} n (k : nat -> proc World B) w :
  ~ valid_capacity n -> run (bind (channel (M := M) n) k) w = Panicked w.
Proof. intros Hn. unfold channel, act_or_panic. cbn [bind run]. by rewrite channel_none. Qed.

Lemma run_alloc_bind {B} put (k : nat -> proc World B) w :
  run (bind (alloc put) k) w = run (k (next_id w)) (bump_id (put (next_id w) w)).
Proof. done. Qed.

Lemma run_register_exclusive n a w c :
  calm w -> mpsc_channel n = Some c ->
  run (register_exclusive n a) w =
    match register_inner (inner w) a (Single (S (next_id w))) with
    | Ok i => Done (set_inner i (with_slot c w)) (Ok (S (next_id w), next_id w))
    | Err e => Done (drop_unregistered (S (next_id w)) (next_id w) (with_slot c w)) (Err e)
    end.
Proof.
  intros Hc Hn. unfold register_exclusive, create_channel.
  rewrite (run_channel_bind n c) by done. unfold SubscriptionSlot_new, new_slot.
  rewrite run_alloc_bind. cbn [next_id bump_id put_channel set_channels message_channels set_chans].
  rewrite run_bind. unfold new_exclusive.
  change (bump_id (set_slots _ _)) with (with_slot c w).
  rewrite run_register by done.
  change (inner (with_slot c w)) with (inner w).
  by destruct (register_inner (inner w) a (Single (S (next_id w)))).
Qed.

(** ** Unregistering *)

Lemma removed_sender slot w s :
  slots w !! slot = Some s ->
  slots (removed slot w) !! slot = Some (mkSlot None (u64_add (slot_version s) 1)).
Proof.
  intros Hs. unfold removed, on_slot, store_sender. rewrite Hs.
  destruct s as [[tx|] v]; simpl; by rewrite !lookup_alter_eq, Hs.
Qed.

Lemma lookup_removed (i : RegistryInner Tree) a x :
  inner_wf i -> concrete x ->
  (covers a x -> (exists t, plain_route i a t) -> lookup_inner (remove_route i a) x = None) /\
  (~ covers a x -> lookup_inner (remove_route i a) x = lookup_inner i x).
Proof.
  intros Hwf Hx. pose proof (remove_wf i a Hwf) as Hwf'. split.
  - intros Hc [t Ht]. destruct (lookup_inner (remove_route i a) x) as [u|] eqn:E; [|done].
    apply lookup_inner_iff in E as (p & Hp & Hpx); [|done..].
    apply remove_route_plain in Hp as [Hpa Hp]; [|done].
    by destruct (covers_unique i x p u a t) as [? _].
  - intros Hc. apply lookup_inner_ext; [done..|]. intros u. split.
    + intros (p & Hp & Hpx). apply remove_route_plain in Hp as [_ Hp]; eauto.
    + intros (p & Hp & Hpx). exists p. split; [|done]. apply remove_route_plain; [done|].
      split; [by intros ->|done].
Qed.

(** Unregistering an exclusive subscription removes its route and no other, marks the slot
    as removed and gives it a new version, so that no address the route covered is routed any
    more; with a slot that is not the registered one it changes nothing. *)
Theorem unregister_exclusive a s slot x w
    (Hcalm : calm w) (Hwf : inner_wf (inner w)) (Hx : concrete x)
    (Hroute : find_route (inner w) a = Some (Single s))
    (Hslot : is_Some (slots w !! s)) :
  (slot <> s -> run (unregister a slot) w = Done w (Ok tt)) /\
  exists w', run (unregister a s) w = Done w' (Ok tt) /\ inner_wf (inner w') /\
    slots w' !! s = (fun v => mkSlot None (u64_add (slot_version v) 1)) <$> slots w !! s /\
    (forall p t, route (inner w') p t <-> p <> a /\ route (inner w) p t) /\
    (~ covers a x -> lookup_inner (inner w') x = lookup_inner (inner w) x) /\
    (covers a x -> plain_route (inner w) a (Single s) -> lookup_inner (inner w') x = None).
Proof.
  rewrite !run_unregister, Hroute by done. unfold owns, after_removal. split.
  - intros Hne. by rewrite bool_decide_eq_false_2.
  - rewrite bool_decide_eq_true_2 by done. eexists. split; [reflexivity|].
    destruct Hslot as [v Hv]. pose proof (lookup_removed (inner w) a x Hwf Hx) as [Hl1 Hl2].
    split_and!.
    + by apply remove_wf.
    + change (slots (set_inner ?i ?u)) with (slots u). by rewrite (removed_sender s w v), Hv.
    + intros p t. by apply remove_route_routes.
    + intros Hc. by apply Hl2.
    + intros Hc Hp. apply Hl1; eauto.
Qed.

(** ** Groups *)

Lemma take_handle group w g :
  groups w !! group = Some g ->
  groups (take_and_abort group w) !! group = Some (set_handle None g) /\
  slots (take_and_abort group w) = slots w /\
  (forall k t, dispatcher_handle g = Some k -> tasks w !! k = Some t ->
     tasks (take_and_abort group w) !! k = Some (mkTask (state t) true)).
Proof.
  intros Hg. unfold take_and_abort. rewrite Hg. destruct g as [gs [h|] v rt n ga cs]; simpl.
  - rewrite lookup_alter_eq, Hg. split_and!; [done..|].
    intros k t [= ->] Ht. by rewrite lookup_alter_eq, Ht.
  - rewrite lookup_alter_eq, Hg. by split_and!.
Qed.

Lemma removed_other slot w :
  groups (removed slot w) = groups w /\ tasks (removed slot w) = tasks w.
Proof. unfold removed, store_sender. by destruct (slots w !! slot) as [[[]]|]. Qed.

Lemma shut_group group w g s :
  groups w !! group = Some g -> slots w !! group_slot g = Some s ->
  groups (shut group w) !! group = Some (bump_group_version (set_handle None g)) /\
  slots (shut group w) !! group_slot g = Some (mkSlot None (u64_add (slot_version s) 1)) /\
  (forall k t, dispatcher_handle g = Some k -> tasks w !! k = Some t ->
     tasks (shut group w) !! k = Some (mkTask (state t) true)).
Proof.
  intros Hg Hs. destruct (take_handle group w g Hg) as (Hg' & Hs' & Ht).
  unfold shut. rewrite slot_of_take. unfold slot_of. rewrite Hg.
  set (w1 := take_and_abort group w) in *. destruct (removed_other (group_slot g) w1) as [Eg Et].
  split_and!.
  - change (alter bump_group_version group (groups (removed (group_slot g) w1)) !! group =
            Some (bump_group_version (set_handle None g))).
    by rewrite Eg, lookup_alter_eq, Hg'.
  - change (slots (removed (group_slot g) w1) !! group_slot g =
            Some (mkSlot None (u64_add (slot_version s) 1))).
    apply removed_sender. by rewrite Hs'.
  - intros k t Hk Hkt. change (tasks (removed (group_slot g) w1) !! k = Some (mkTask (state t) true)).
    rewrite Et. by apply Ht.
Qed.

(** C37: when the last consumer of a load-balanced group drops its handle, the group is shut
    down (its dispatcher is aborted, its slot removed) but its route stays: messages to its
    addresses fail, the next consumer joins the dead group, and the address stays occupied. *)
Theorem last_consumer_leaves_route a group g s w
    (Hroute : find_route (inner w) a = Some (LoadBalancedTarget group))
    (Hgroup : groups w !! group = Some g) (Hslot : slots w !! group_slot g = Some s)
    (Hlast : active_consumers g = 1%Z)
    (Hcalm : calm w) (Hwf : inner_wf (inner w)) :
  exists w', run (SubscriptionHandle_drop (handle_new_load_balanced a group)) w = Done w' tt /\
    inner w' = inner w /\
    load_sender (group_slot g) w' = None /\
    (forall k t, dispatcher_handle g = Some k -> tasks w !! k = Some t ->
       tasks w' !! k = Some (mkTask (state t) true)) /\
    (forall m, run (RouteTarget_send (LoadBalancedTarget group) m) w' =
               Done w' (Err ConnectionClosed)) /\
    (forall f, run (get_existing_or_register a f) w' =
               Done w' (Ok (AlreadyExists (LoadBalancedTarget group)))) /\
    (forall slot, run (register a (Single slot)) w' =
                  Done w' (Err (AddressAlreadyOccupied a))).
Proof.
  set (w1 := on_group (on_consumers (fun n => u64_sub n 1)) group w).
  exists (shut group w1). 
  assert (groups w1 !! group = Some (on_consumers (fun n => u64_sub n 1) g)) as Hg1.
  { simpl. by rewrite lookup_alter_eq, Hgroup. }
  destruct (shut_group group w1 _ s Hg1 Hslot) as (Hg2 & Hs2 & Ht2).
  destruct (shut_same group w1) as [Hm Hi].
  assert (load_sender (group_slot g) (shut group w1) = None) as Hsend.
  { unfold load_sender. change (group_slot (on_consumers _ g)) with (group_slot g) in Hs2.
    by rewrite Hs2. }
  split_and!.
  - unfold SubscriptionHandle_drop, handle_new_load_balanced, remove_consumer, cleanup.
    rewrite run_act_bind. simpl (fst _). simpl (snd _). unfold consumer_count.
    rewrite Hgroup, decide_True by done. apply run_shutdown.
  - exact Hi.
  - exact Hsend.
  - exact Ht2.
  - intros m. unfold RouteTarget_send. rewrite run_read_bind. unfold send_to_slot.
    rewrite run_act_bind. unfold slot_of. rewrite Hg2. simpl (group_slot _).
    unfold guard_sender. by rewrite Hsend.
  - intros f. apply run_join; [unfold calm; by rewrite Hm|]. rewrite Hi. by apply find_route_check.
  - intros slot. rewrite run_register by (unfold calm; by rewrite Hm).
    rewrite Hi. change (inner w1) with (inner w). unfold register_inner.
    rewrite (find_route_check (inner w) a _ Hwf Hroute). by destruct (is_wildcard a).
Qed.

(** ** Whole subscriptions *)

(** C26: an exclusive subscription followed by the drop of its handle leaves every address routed
    as it was before; in between, the addresses it covers go to it alone, unless it is to a
    pattern with [**], which covers addresses too, and receives nothing. *)
Theorem exclusive_subscription_roundtrip n a w w1 sub handle x
    (Hcalm : calm w) (Hwf : inner_wf (inner w)) (Hn : valid_capacity n) (Hx : concrete x)
    (Hsub : run (subscribe a (mkSubscriberConfig n Exclusive)) w = Done w1 (Ok (sub, handle))) :
  (exists slot, handle = handle_new_exclusive a slot /\
     (covers a x -> (is_wildcard a = true -> is_prefix_pattern a = false) ->
      lookup_inner (inner w1) x = Some (Single slot))) /\
  exists w2, run (SubscriptionHandle_drop handle) w1 = Done w2 tt /\
    lookup_inner (inner w2) x = lookup_inner (inner w) x /\
    forall p t, route (inner w2) p t <-> route (inner w) p t.
Proof.
  revert Hsub. unfold subscribe, routing_policy, channel_capacity, subscribe_exclusive.
  destruct (channel_some (M := Message) n Hn) as (c & Hc & _).
  rewrite run_bind, (run_register_exclusive n a w c) by done.
  set (s := S (next_id w)).
  destruct (register_inner (inner w) a (Single s)) as [i|e] eqn:Er; [|done].
  intros [= <- <- <-]. pose proof (check_address_of_register _ _ _ _ Er) as [Hca ->].
  pose proof (insert_wf _ a (Single s) Hwf Hca) as Hwf1. split.
  - exists s. split; [done|]. intros Hcov Hk. by apply register_lookup.
  - unfold SubscriptionHandle_drop, handle_new_exclusive, cleanup, handle_address.
    rewrite run_bind, run_unregister by done.
    change (inner (set_inner ?i ?u)) with i.
    rewrite find_route_insert by (by apply check_not_found_free).
    unfold owns, after_removal. rewrite bool_decide_eq_true_2 by done.
    eexists. split; [reflexivity|].
    change (inner (set_inner ?i ?u)) with i.
    pose proof (remove_insert_routes (inner w) a (Single s) Hwf Hca) as Hr.
    pose proof (remove_insert_lookup (inner w) a (Single s) Hwf Hca) as Hl. auto.
Qed.

(** ** Load-balanced subscriptions *)

(** C38: a load-balanced subscription whose channel capacity is out of range panics inside the
    registry's critical section and poisons its mutex: from then on every registration and every
    removal on this broker panics too. *)
Theorem bad_capacity_poisons_registry a n w
    (Hcalm : calm w) (Hfree : check_address (inner w) a = Ok NotFound)
    (Hn : ~ valid_capacity n) :
  exists w', run (subscribe a (mkSubscriberConfig n LoadBalanced)) w = Panicked w' /\
    inner w' = inner w /\
    forall b t slot f, run (register b t) w' = Panicked w' /\
      run (get_existing_or_register b f) w' = Panicked w' /\
      run (unregister b slot) w' = Panicked w'.
Proof.
  exists (unlock true (locked_world w)). split; [|split; [done|]].
  - unfold subscribe, routing_policy, channel_capacity, subscribe_load_balanced.
    rewrite run_bind. unfold get_existing_or_register. rewrite run_with_lock by done.
    unfold load. rewrite run_read_bind. change (inner (locked_world w)) with (inner w).
    rewrite Hfree, run_bind. unfold group_factory, create_channel.
    by rewrite run_channel_panic.
  - intros b t slot f. split_and!; by apply run_poisoned.
Qed.

(** The state once the group of a new route exists, and the keys of its parts: channel, slot,
    requests, group and dispatcher task, in the order they are made. *)
Definition with_group (c : Chan Message) (rc : Chan oneshot_id) a w : World :=
  let k := next_id w in
  let w2 := with_slot c w in
  let w3 := bump_id (set_reqs (<[S (S k) := rc]> (reqs w2)) w2) in
  let g := mkGroup (S k) None 1 (S (S k)) 1 a 0 in
  let w4 := bump_id (set_groups (<[S (S (S k)) := g]> (groups w3)) w3) in
  let env := mkDispatcherEnv k (S (S k)) (S k) a in
  let w5 := bump_id (set_tasks
    (<[S (S (S (S k))) := mkTask (DispatcherTask env WaitRequest) false]> (tasks w4)) w4) in
  on_group (set_handle (Some (S (S (S (S k)))))) (S (S (S k))) w5.

Lemma next_id_with_slot c w : next_id (with_slot c w) = S (S (next_id w)).
Proof. reflexivity. Qed.

Lemma run_new_slot_bind {B} c (k : nat -> proc World B) w :
  run (bind (SubscriptionSlot_new (next_id w)) k) (bump_id (put_channel (next_id w) c w)) =
  run (k (S (next_id w))) (with_slot c w).
Proof. reflexivity. Qed.

Lemma run_group_new c rc a w k :
  mpsc_channel REQ_CAPACITY = Some rc -> k = next_id w ->
  run (LoadBalancedGroup_new (S k) k REQ_CAPACITY a) (with_slot c w) =
    Done (with_group c rc a w) (S (S (S k))).
Proof.
  intros Hrc ->. unfold LoadBalancedGroup_new, create_request_channel.
  rewrite (run_channel_bind REQ_CAPACITY rc), next_id_with_slot by done.
  unfold new_group. rewrite run_alloc_bind. unfold spawn. rewrite run_alloc_bind, run_write_bind.
  reflexivity.
Qed.

Lemma run_group_factory n a w c rc :
  mpsc_channel n = Some c -> mpsc_channel REQ_CAPACITY = Some rc ->
  run (group_factory n a) w =
    Done (with_group c rc a w) (Ok (LoadBalancedTarget (S (S (S (next_id w)))))).
Proof.
  intros Hc Hrc. unfold group_factory, create_channel. rewrite (run_channel_bind n c) by done.
  rewrite run_new_slot_bind. unfold new_load_balanced.
  by rewrite run_bind, run_bind, (run_group_new c rc).
Qed.

(** Joining counts the consumer and hands out another reference to the request sender. *)
Definition joined_group group w : World :=
  on_group (on_strong Z.succ) group
    (on_group (on_consumers (fun n => u64_add n 1)) group w).

Lemma run_subscribe_group group w g :
  groups w !! group = Some g ->
  run (LoadBalancedGroup_subscribe group) w = Done (joined_group group w) (req_tx g).
Proof.
  intros Hg. unfold LoadBalancedGroup_subscribe. rewrite run_write_bind. cbn. 
  by rewrite lookup_alter_eq, Hg.
Qed.

(** C21: subscribing under the load-balanced policy on every branch. A free address gets a new
    group with one consumer and a running dispatcher; an address with a group is joined, adding
    one consumer; an exclusive route, a conflict or a malformed pattern is an error that changes
    nothing. *)
Theorem subscribe_load_balanced_spec a n w (Hcalm : calm w) (Hn : valid_capacity n) :
  let o := run (subscribe a (mkSubscriberConfig n LoadBalanced)) w in
  match check_address (inner w) a with
  | Err e => o = Done w (Err e)
  | Ok (Conflict e) =>
      o = Done w (Err (if is_wildcard a then WildcardConflict a e else ConflictsWithWildcard a e))
  | Ok (Duplicate (Single _)) => o = Done w (Err (PolicyMismatch a))
  | Ok (Duplicate (LoadBalancedTarget group)) =>
      forall g, groups w !! group = Some g ->
      o = Done (joined_group group w)
            (Ok (new_pull (req_tx g) group a, handle_new_load_balanced a group))
  | Ok NotFound =>
      exists w' group g t req,
        o = Done w' (Ok (new_pull req group a, handle_new_load_balanced a group)) /\
        inner w' = insert_route (inner w) a (LoadBalancedTarget group) /\
        find_route (inner w') a = Some (LoadBalancedTarget group) /\ calm w' /\
        groups w' !! group = Some g /\ active_consumers g = 1%Z /\ req_tx g = req /\
        load_sender (group_slot g) w' <> None /\ dispatcher_handle g = Some t /\
        exists env, tasks w' !! t = Some (mkTask (DispatcherTask env WaitRequest) false) /\
          load_sender (slot_for_drop env) w' = Some (main_receiver env) /\
          req_rx env = req /\ address_for_task env = a
  end.
Proof.
  cbv zeta. unfold subscribe, routing_policy, channel_capacity, subscribe_load_balanced.
  rewrite run_bind. unfold get_existing_or_register. rewrite run_with_lock by done.
  unfold load. rewrite run_read_bind. change (inner (locked_world w)) with (inner w).
  destruct (check_address (inner w) a) as [[[s|group]|e|]|e] eqn:E;
    try (cbn [run]; rewrite locked_unlock by done; cbn [run load_balanced_group]; done).
  - cbn [run]. rewrite locked_unlock by done. cbn [load_balanced_group]. intros g Hg.
    rewrite run_bind. by rewrite (run_subscribe_group group w g).
  - destruct (channel_some (M := Message) n Hn) as (c & Hc & _).
    destruct (channel_some (M := oneshot_id) REQ_CAPACITY) as (rc & Hrc & _).
    { unfold valid_capacity, max_permits, REQ_CAPACITY. lia. }
    rewrite run_bind, (run_group_factory n a _ c rc) by done.
    unfold store. rewrite run_write_bind. cbn [run load_balanced_group].
    set (k := next_id w). change (next_id (locked_world w)) with k.
    rewrite run_bind. erewrite run_subscribe_group; [cbn [run]|].
    2:{ simpl. by rewrite lookup_alter_eq, lookup_insert_eq. }
    eexists _, (S (S (S k))), _, (S (S (S (S k)))), _. split; [reflexivity|].
    split; [reflexivity|]. split; [by apply find_route_insert, check_not_found_free|].
    split; [done|]. split.
    { simpl. rewrite !lookup_alter_eq, lookup_insert_eq. reflexivity. }
    split_and!; try done.
    + unfold load_sender. simpl. by rewrite lookup_insert_eq.
    + exists (mkDispatcherEnv k (S (S k)) (S k) a). split_and!; try done.
      * simpl. by rewrite lookup_insert_eq.
      * unfold load_sender. simpl. by rewrite lookup_insert_eq.
Qed.
End Lifecycle.

(** ** Witnesses *)

Section Witnesses.
Definition start : World := World_new.

Lemma start_calm : calm start.
Proof. reflexivity. Qed.

Lemma start_wf : inner_wf (inner start).
Proof. apply new_wf. Qed.

(** One exclusive subscriber, slot 1 with channel 0. *)
Definition subscribed : World :=
  set_inner (insert_route RegistryInner_new users (Single 1))
    (with_slot (mkMpsc [] 4 1 true) start).

Lemma users_free : check_address (inner start) users = Ok NotFound.
Proof. vm_compute. reflexivity. Qed.

Lemma subscribed_wf : inner_wf (inner subscribed).
Proof. apply (insert_wf _ users (Single 1)); [apply new_wf|exact users_free]. Qed.

Lemma unregister_exclusive_witness :
  exists w', run (unregister users 1) subscribed = Done w' (Ok tt) /\
    lookup_inner (inner w') users = None.
Proof.
  assert (calm subscribed) as Hc by reflexivity.
  assert (find_route (inner subscribed) users = Some (Single 1)) as Hf by (vm_compute; reflexivity).
  assert (is_Some (slots subscribed !! 1)) as Hs by (vm_compute; eauto).
  pose proof (unregister_exclusive users 1 1 users subscribed Hc subscribed_wf eq_refl Hf Hs) as
    [_ (w' & Hr & _ & _ & _ & _ & Hl)].
  exists w'. split; [exact Hr|]. apply Hl; [reflexivity|left; vm_compute; reflexivity].
Defined.

(** One load-balanced group 3 with one consumer. *)
Definition grouped : World :=
  joined_group 3 (set_inner (insert_route RegistryInner_new users (LoadBalancedTarget 3))
    (with_group (mkMpsc [] 4 1 true) (mkMpsc [] 1000 1 true) users start)).

Lemma grouped_wf : inner_wf (inner grouped).
Proof. apply (insert_wf _ users (LoadBalancedTarget 3)); [apply new_wf|exact users_free]. Qed.

Lemma last_consumer_leaves_route_witness :
  exists w', run (SubscriptionHandle_drop (handle_new_load_balanced users 3)) grouped = Done w' tt /\
    lookup_inner (inner w') users = Some (LoadBalancedTarget 3) /\
    run (register users (Single 9)) w' = Done w' (Err (AddressAlreadyOccupied users)).
Proof.
  assert (find_route (inner grouped) users = Some (LoadBalancedTarget 3)) as Hf
    by (vm_compute; reflexivity).
  assert (groups grouped !! 3 = Some (mkGroup 1 (Some 4) 1 2 2 users 1)) as Hg
    by (vm_compute; reflexivity).
  assert (slots grouped !! 1 = Some (mkSlot (Some 0%nat) 1)) as Hs by (vm_compute; reflexivity).
  pose proof (last_consumer_leaves_route users 3 _ _ grouped Hf Hg Hs eq_refl eq_refl grouped_wf)
    as (w' & Hr & Hi & _ & _ & _ & _ & Hreg).
  exists w'. split; [exact Hr|]. split; [rewrite Hi; vm_compute; reflexivity|apply Hreg].
Defined.

Lemma exclusive_subscription_roundtrip_witness :
  exists w1 w2 sub handle,
    run (subscribe users (mkSubscriberConfig 4 Exclusive)) start = Done w1 (Ok (sub, handle)) /\
    run (SubscriptionHandle_drop handle) w1 = Done w2 tt /\
    lookup_inner (inner w1) users = Some (Single 1) /\ lookup_inner (inner w2) users = None.
Proof.
  assert (run (subscribe users (mkSubscriberConfig 4 Exclusive)) start =
    Done subscribed (Ok (new_push 0%nat users, handle_new_exclusive users 1))) as Hs.
  { unfold subscribe, routing_policy, channel_capacity, subscribe_exclusive.
    rewrite run_bind, (run_register_exclusive 4 users start (mkMpsc [] 4 1 true)) by reflexivity.
    by rewrite (register_inner_free (inner start) users (Single (S (next_id start))) users_free). }
  destruct (exclusive_subscription_roundtrip 4 users start subscribed _ _ users start_calm start_wf
    ltac:(unfold valid_capacity, max_permits; lia) eq_refl Hs) as [_ (w2 & Hd & Hl & _)].
  exists subscribed, w2, (new_push 0%nat users), (handle_new_exclusive users 1).
  split_and!; [exact Hs|exact Hd|vm_compute; reflexivity|rewrite Hl; vm_compute; reflexivity].
Defined.

Lemma bad_capacity_poisons_registry_witness :
  exists w', run (subscribe users (mkSubscriberConfig 0 LoadBalanced)) start = Panicked w' /\
    run (register core (Single 1)) w' = Panicked w'.
Proof.
  destruct (bad_capacity_poisons_registry users 0 start start_calm users_free) as (w' & Hr & _ & Hp).
  { unfold valid_capacity. lia. }
  exists w'. split; [exact Hr|]. apply (Hp core (Single 1) 0%nat (Ret (Ok (Single 1)))).
Defined.

Lemma subscribe_load_balanced_spec_witness :
  exists w' group req, run (subscribe users (mkSubscriberConfig 4 LoadBalanced)) start =
      Done w' (Ok (new_pull req group users, handle_new_load_balanced users group)) /\
    find_route (inner w') users = Some (LoadBalancedTarget group).
Proof.
  pose proof (subscribe_load_balanced_spec users 4 start start_calm
    ltac:(unfold valid_capacity, max_permits; lia)) as Hs.
  cbv zeta in Hs. rewrite users_free in Hs. destruct Hs as (w' & group & g & t & req & Hr & _ & Hf & _).
  exists w', group, req. split; [exact Hr|exact Hf].
Defined.
End Witnesses.
