(* ===== verification/RegistryRace.v ===== *)
(** * RegistryRace: threads that race for one address call one factory

    Threads call [get_existing_or_register] (src/src/broker_core/registry/mod.rs) for one free
    address, with factories that count their calls in a shared atomic counter. Under the mutex a
    thread is alone: from taking it to releasing it nobody else can take a step, so that the
    section runs as if by itself ([run]). *)

From S2P Require Import Prelude.
From S2P Require Import Patterns.
From S2P Require Import Protocol.
From S2P Require Import RadixIface.
From S2P Require Import ChanIface.
From S2P Require Import Async.
From S2P Require Import Registry.
From S2P Require Import RegistryFacts.
From S2P Require Import RegistryProps.
From S2P Require Import World.
From S2P Require Import Channel.
From S2P Require Import Routing.
From S2P Require Import RegistryOps.
From S2P Require Import RegistrySpec.
From S2P Require Import Client.
From S2P Require Import Simulate.
From S2P Require Import RegistryConc.
From S2P Require Import RunFacts.
From S2P Require Import LifecycleProps.

Local Open Scope broker_scope.

Section Race.
Context {D : Deps} (k : counter_id).
Implicit Types (w : World).

Local Abbreviation factory := (proc World (result RouteTarget RegistryError)).
Local Abbreviation thread := (proc World (result RegisterResult RegistryError)).

(** ** Definitions *)

(** A factory that counts its calls. *)
Definition counted (f : factory) : factory :=
  let! _ := fetch_add k 1 in f.

(** It returns a target, neither waiting nor panicking, and leaves the registry and the counter
    alone. *)
Fixpoint orderly (f : factory) : Prop :=
  match f with
  | Ret r => is_ok r = true
  | Panic => False
  | Act _ g => forall w,
      match g w with
      | Some (w', f') =>
          (register_mutex w' = register_mutex w /\ inner w' = inner w /\
           counters w' !! k = counters w !! k) /\ orderly f'
      | None => False
      end
  end.

(** None of its steps touches the mutex. *)
Fixpoint inside {A} (p : proc World A) : Prop :=
  match p with
  | Act _ f => forall w,
      match f w with
      | Some (w', p') => register_mutex w' = register_mutex w /\ inside p'
      | None => True
      end
  | _ => True
  end.

(** ** The section under the mutex *)

Lemma inside_bind {A B} (p : proc World A) (c : A -> proc World B) :
  inside p -> (forall a, inside (c a)) -> inside (bind p c).
Proof.
  intros Hp Hc. induction p as [a| |d f IH] using proc_ind'; [apply Hc|done|].
  cbn [bind inside] in *. intros w. specialize (Hp w).
  destruct (f w) as [[w1 p1]|] eqn:Ef; [|done]. destruct Hp. split; [done|]. by eapply IH.
Qed.

Lemma orderly_inside f : orderly f -> inside f.
Proof.
  intros Hf. induction f as [r| |d g IH] using proc_ind'; [done..|]. intros w.
  specialize (Hf w). destruct (g w) as [[w1 f1]|] eqn:E; [|done]. destruct Hf as [(Hm & _) H1].
  split; [done|]. by eapply IH.
Qed.

(** What a factory returns when it runs alone. *)
Lemma orderly_run f w :
  orderly f -> exists w' t, run f w = Done w' (Ok t) /\ register_mutex w' = register_mutex w /\
    inner w' = inner w /\ counters w' !! k = counters w !! k.
Proof.
  revert w. induction f as [r| |d g IH] using proc_ind'; intros w Hf; [|done|].
  - destruct r as [t|e]; [by exists w, t|done].
  - specialize (Hf w). cbn [run]. destruct (g w) as [[w1 f1]|] eqn:E; [|done].
    destruct Hf as [(Hm & Hi & Hn) H1].
    destruct (IH w w1 f1 E w1 H1) as (w' & t & Hr & Hm' & Hi' & Hn'). exists w', t.
    split_and!; [done|congruence..].
Qed.

Definition section (a : bytes) (f : factory) : thread :=
  let! current := load in
  match check_address current a with
  | Err e => Ret (Err e)
  | Ok (Duplicate target) => Ret (Ok (AlreadyExists target))
  | Ok (Conflict existing) =>
      Ret (Err (if is_wildcard a then WildcardConflict a existing else ConflictsWithWildcard a existing))
  | Ok NotFound =>
      let!? target := f in
      let! _ := store (insert_route current a target) in
      Ret (Ok (Registered target))
  end.

Lemma section_inside a f : inside f -> inside (section a f).
Proof.
  intros Hf. apply inside_bind; [done|]. intros i.
  destruct (check_address i a) as [[t|e|]|e]; try done. apply inside_bind; [done|].
  intros [t|e]; [|done]. done.
Qed.

Lemma counted_inside f : orderly f -> inside (counted f).
Proof. intros Hf. apply inside_bind; [done|]. intros _. by apply orderly_inside. Qed.

(** It calls the factory once when the address is free. *)
Lemma run_section_free a f w :
  check_address (inner w) a = Ok NotFound -> orderly f ->
  exists w' t, run (section a (counted f)) w = Done w' (Ok (Registered t)) /\
    inner w' = insert_route (inner w) a t /\
    counters w' !! k = (fun n => u64_add n 1) <$> counters w !! k.
Proof.
  intros Hc Hf. unfold section, load. rewrite run_read_bind, Hc, run_bind. unfold counted, fetch_add.
  rewrite run_act_bind. cbn [fst snd].
  destruct (orderly_run f (set_counters (alter (fun x => u64_add x 1) k (counters w)) w) Hf)
    as (w' & t & -> & _ & Hi & Hn).
  exists (set_inner (insert_route (inner w) a t) w'), t. split_and!; [done|done|].
  simpl in *. by rewrite Hn, lookup_alter_eq.
Qed.

(** And does not when it is taken. *)
Lemma run_section_taken a f w t :
  check_address (inner w) a = Ok (Duplicate t) ->
  run (section a f) w = Done w (Ok (AlreadyExists t)).
Proof. intros Hc. unfold section, load. by rewrite run_read_bind, Hc. Qed.

(** ** The race *)

Context (a : bytes) (fs : list factory) (i0 : RegistryInner Tree).
Context (Hwf : inner_wf i0) (Hfree : check_address i0 a = Ok NotFound) (Hfs : Forall orderly fs).

Definition start (f : factory) : thread := get_existing_or_register a (counted f).

(** Nobody has entered yet, or thread [j] has registered [t]. *)
Definition outcome_of w (ps : list thread) : Prop :=
  inner w = i0 /\ counters w !! k = Some 0%Z /\ ps = start <$> fs \/
  exists t j, inner w = insert_route i0 a t /\ counters w !! k = Some 1%Z /\
    ps !! j = Some (Ret (Ok (Registered t))) /\
    forall n p, ps !! n = Some p ->
      (exists f, fs !! n = Some f /\ p = start f) \/ p = Ret (Ok (race_result t j n)).

(** Nobody is in the section; or one thread is, and alone it gets to such a state. *)
Definition open_state w (ps : list thread) : Prop :=
  register_mutex w = mkMutex false false /\ length ps = length fs /\ outcome_of w ps.

Definition entered w (ps : list thread) : Prop :=
  exists n q w1 r, register_mutex w = mkMutex true false /\ ps !! n = Some (guarded unlock q) /\
    inside q /\ run q w = Done w1 r /\ open_state (unlock false w1) (<[n := Ret r]> ps).

Lemma open_thread w ps n p :
  open_state w ps -> ps !! n = Some p ->
  (exists f, fs !! n = Some f /\ p = start f) \/ exists r, p = Ret r.
Proof.
  intros (_ & _ & [(_ & _ & ->)|(t & j & _ & _ & _ & Hall)]) Hn.
  - apply list_lookup_fmap_Some in Hn as (f & -> & Hf). eauto.
  - destruct (Hall n p Hn); eauto.
Qed.

(** Whoever enters gets the right result. *)
Lemma open_enter w ps n f :
  open_state w ps -> fs !! n = Some f -> ps !! n = Some (start f) ->
  exists w1 r, run (section a (counted f)) (locked_world w) = Done w1 r /\
    open_state (unlock false w1) (<[n := Ret r]> ps).
Proof.
  intros (Hm & Hlen & Hout) Hf Hn. assert (orderly f) as Ho by (by eapply Forall_lookup_1).
  destruct Hout as [(Hi & Hk & ->)|(t & j & Hi & Hk & Hj & Hall)].
  - destruct (run_section_free a f (locked_world w)) as (w1 & t & Hr & Hi1 & Hk1);
      [by simpl; rewrite Hi|done|].
    exists w1, (Ok (Registered t)). split; [done|].
    split; [done|]. split; [by rewrite length_insert|]. right. exists t, n. simpl in *.
    rewrite Hi1, Hi, Hk1, Hk. split_and!; [done|done| |].
    { apply list_lookup_insert_eq. by eapply lookup_lt_Some. }
    intros m p [(<- & <- & _)|[Hne Hp]]%list_lookup_insert_Some.
    + right. unfold race_result. by rewrite decide_True.
    + left. apply list_lookup_fmap_Some in Hp as (f' & -> & Hf'). eauto.
  - assert (j <> n) as Hjn by (by intros ->; simplify_eq).
    exists (locked_world w), (Ok (AlreadyExists t)). split.
    { apply run_section_taken. simpl. rewrite Hi. by apply check_inserted. }
    split; [done|]. split; [by rewrite length_insert|]. right. exists t, j. simpl.
    split_and!; [done|done|by rewrite list_lookup_insert_ne|].
    intros m p [(<- & <- & _)|[Hne Hp]]%list_lookup_insert_Some; [|by apply Hall].
    right. unfold race_result. by rewrite decide_False.
Qed.

Lemma race_step_state w ps c' :
  open_state w ps \/ entered w ps -> pool_step (w, ps) c' ->
  open_state c'.1 c'.2 \/ entered c'.1 c'.2.
Proof.
  intros Hs Hst. inversion Hst as [? ? n d f w' p' Hn Hf]; subst. simpl. destruct Hs as [Ho|He].
  - right. destruct (open_thread w ps n _ Ho Hn) as [(g & Hg & E)|[r ?]]; [|done].
    assert (ps !! n = Some (start g)) as Hn' by (by rewrite Hn, E).
    unfold start, get_existing_or_register, with_lock in E. cbn [bind lock] in E.
    injection E as -> ->. rewrite (proj1 Ho) in Hf.
    destruct (open_enter w ps n g) as (w1 & r & Hr & Ho1); [done..|].
    assert (w' = locked_world w /\ p' = guarded unlock (section a (counted g))) as [-> ->]
      by (by injection Hf as <- <-).
    clear Hf Hst Hn.
    exists n, (section a (counted g)), w1, r.
    split_and!; [done| |by apply section_inside, counted_inside;
      eapply Forall_lookup_1|exact Hr|by rewrite list_insert_insert_eq].
    apply list_lookup_insert_eq. by eapply lookup_lt_Some in Hn'.
  - destruct He as (m & q & w1 & r & Hm & Hq & Hin & Hr & Ho).
    destruct (decide (n = m)) as [->|Hne].
    + rewrite Hn in Hq. injection Hq as Hq. destruct q as [x| |d0 g]; cbn [guarded run] in *.
      * injection Hq as -> ->. injection Hf as <- <-. injection Hr as -> ->. by left.
      * done.
      * injection Hq as -> ->. destruct (g w) as [[w2 q2]|] eqn:Eg; [|done]. injection Hf as <- <-.
        specialize (Hin w). rewrite Eg in Hin. destruct Hin as [Hm2 Hin2]. right. exists m, q2, w1, r.
        split_and!; [congruence| |done|done|by rewrite list_insert_insert_eq].
        apply list_lookup_insert_eq. by eapply lookup_lt_Some.
    + exfalso. destruct (open_thread _ _ n (Act d f) Ho) as [(g & Hg & E)|[x ?]];
        [by rewrite list_lookup_insert_ne| |done].
      unfold start, get_existing_or_register, with_lock in E. cbn [bind lock] in E.
      injection E as -> ->. by rewrite Hm in Hf.
Qed.

Lemma race_states w ps c' :
  open_state w ps -> rtc pool_step (w, ps) c' -> open_state c'.1 c'.2 \/ entered c'.1 c'.2.
Proof.
  intros Ho Hr. revert c' Hr. apply rtc_ind_r; [by left|].
  intros [w1 ps1] c2 _ Hst H1. by eapply race_step_state.
Qed.

(** Where no thread can take a step, all have returned. *)
Lemma race_ended w ps :
  open_state w ps \/ entered w ps -> (forall c, ~ pool_step (w, ps) c) -> fs <> [] ->
  counters w !! k = Some 1%Z /\ exists t j, inner w = insert_route i0 a t /\ (j < length fs)%nat /\
    length ps = length fs /\
    forall n p, ps !! n = Some p -> p = Ret (Ok (race_result t j n)).
Proof.
  intros [Ho|He] Hstuck Hne.
  - assert (forall n f, ps !! n <> Some (start f)) as Hno.
    { intros n f Hn. eapply Hstuck. eapply (pool_act w ps n); [exact Hn|]. cbn [lock].
      destruct Ho as [-> _]. reflexivity. }
    destruct Ho as (Hm & Hlen & [(_ & _ & ->)|(t & j & Hi & Hk & Hj & Hall)]).
    + destruct fs as [|f l]; [done|]. by destruct (Hno 0%nat f).
    + split; [done|]. exists t, j. split_and!; [done| |done|].
      { rewrite <-Hlen. by eapply lookup_lt_Some. }
      intros n p Hn. destruct (Hall n p Hn) as [(f & _ & ->)|?]; [by destruct (Hno n f)|done].
  - destruct He as (n & q & w1 & r & _ & Hn & _ & Hr & _). exfalso.
    destruct q as [x| |d g]; cbn [guarded run] in *; [|done|].
    + eapply Hstuck, (pool_act w ps n); [exact Hn|reflexivity].
    + destruct (g w) as [[w2 q2]|] eqn:E; [|done].
      eapply Hstuck, (pool_act w ps n); [exact Hn|]. cbn beta. by rewrite E.
Qed.
End Race.

(** Where an execution of the race cannot go on. *)
Lemma race_decided {D : Deps} k a (fs : list (proc World (result RouteTarget RegistryError))) w w' ps :
  calm w -> inner_wf (inner w) -> check_address (inner w) a = Ok NotFound ->
  counters w !! k = Some 0%Z -> Forall (orderly k) fs -> fs <> [] ->
  rtc pool_step (w, get_existing_or_register a <$> (counted k <$> fs)) (w', ps) ->
  (forall c, ~ pool_step (w', ps) c) ->
  counters w' !! k = Some 1%Z /\
  exists t j, inner w' = insert_route (inner w) a t /\ (j < length fs)%nat /\
    length ps = length fs /\ forall n p, ps !! n = Some p -> p = Ret (Ok (race_result t j n)).
Proof.
  rewrite <-list_fmap_compose. intros Hcalm Hwf Hfree Hcount Hfs Hsome Hr Hstuck.
  eapply (race_ended k a fs (inner w)); [..|exact Hstuck|exact Hsome]; try done.
  apply (race_states k a fs (inner w) Hwf Hfree Hfs w (start k a <$> fs) (w', ps)); [|exact Hr].
  split; [exact Hcalm|]. split; [by rewrite length_fmap|]. by left.
Qed.

(** ** Property *)

(** C34: threads that race to join one free address call one factory, once. For any number of
    threads, each with a factory that counts its calls in one atomic counter, returns a target,
    and neither waits, panics, nor touches the registry or the counter: no execution goes on
    forever, and when no thread can take another step, the counter is 1, all threads have
    returned, one of them has registered the target its factory made, and all others have been
    given that target. *)
Theorem factory_called_once {D : Deps} k a (fs : list (proc World (result RouteTarget RegistryError))) w
    (Hcalm : calm w) (Hwf : inner_wf (inner w)) (Hfree : check_address (inner w) a = Ok NotFound)
    (Hcount : counters w !! k = Some 0%Z) (Hfs : Forall (orderly k) fs) (Hsome : fs <> []) :
  let threads := get_existing_or_register a <$> (counted k <$> fs) in
  Acc (fun c' c => pool_step c c') (w, threads) /\
  forall w' ps, rtc pool_step (w, threads) (w', ps) -> (forall c, ~ pool_step (w', ps) c) ->
    counters w' !! k = Some 1%Z /\
    exists t j, inner w' = insert_route (inner w) a t /\ (j < length fs)%nat /\
      length ps = length fs /\
      forall n p, ps !! n = Some p -> p = Ret (Ok (race_result t j n)).
Proof. split; [apply pool_terminates|]. intros w' ps. by apply race_decided. Qed.

(** ** Witness *)

Section Witness.
Definition slot_factory {D : Deps} (n : Z) : proc World (result RouteTarget RegistryError) :=
  let! ch := create_channel n in
  let! slot := SubscriptionSlot_new ch in
  Ret (Ok (new_exclusive slot)).

Lemma slot_factory_orderly {D : Deps} k n : valid_capacity n -> orderly k (slot_factory n).
Proof.
  intros (c & Hc & _)%(channel_some (M := Message)).
  unfold slot_factory, create_channel, channel, act_or_panic. cbn [bind orderly]. intros w.
  rewrite Hc. cbn. split; [done|]. intros w1. by split.
Qed.

Definition counting : World := set_counters {[0 := 0%Z]} World_new.

Definition three : list (proc World (result RouteTarget RegistryError)) :=
  [slot_factory 4; slot_factory 8; slot_factory 15].

Lemma factory_called_once_witness :
  exists w' ps t j,
    rtc pool_step (counting, get_existing_or_register users <$> (counted 0 <$> three)) (w', ps) /\
    counters w' !! 0%nat = Some 1%Z /\
    ps = (fun n => Ret (Ok (race_result t j n))) <$> [0; 1; 2]%nat.
Proof.
  assert (calm counting) as Hcalm by reflexivity.
  assert (check_address (inner counting) users = Ok NotFound) as Hfree by (vm_compute; reflexivity).
  assert (counters counting !! 0%nat = Some 0%Z) as Hcount by reflexivity.
  assert (Forall (orderly 0) three) as Hfs.
  { repeat (constructor; [apply slot_factory_orderly; by vm_compute|]). constructor. }
  pose proof (factory_called_once 0 users three counting Hcalm new_wf Hfree Hcount Hfs ltac:(done)) as [_ H].
  destruct (pool_settles (counting, get_existing_or_register users <$> (counted 0 <$> three)))
    as ([w' ps] & Hr & Hstuck).
  destruct (H w' ps Hr Hstuck) as (Hk & t & j & _ & _ & Hl & Hres).
  exists w', ps, t, j. split; [exact Hr|]. split; [exact Hk|].
  destruct ps as [|p0 [|p1 [|p2 [|p3 ps]]]]; try discriminate Hl.
  rewrite (Hres 0%nat p0 eq_refl), (Hres 1%nat p1 eq_refl), (Hres 2%nat p2 eq_refl). reflexivity.
Defined.
End Witness.
