(* ===== verification/MessagingProps.v ===== *)
(** * MessagingProps: sending, requesting and replying

    What [send] and [request] of the client and of a publisher do with a message, on every branch,
    and how replies reach the requests that wait for them. *)

From S2P Require Import Prelude.
From S2P Require Import Utf8.
From S2P Require Import Str.
From S2P Require Import Patterns.
From S2P Require Import PatternFacts.
From S2P Require Import Config.
From S2P Require Import RadixIface.
From S2P Require Import ChanIface.
From S2P Require Import Async.
From S2P Require Import Registry.
From S2P Require Import RegistryFacts.
From S2P Require Import RegistryProps.
From S2P Require Import Protocol.
From S2P Require Import World.
From S2P Require Import Channel.
From S2P Require Import Routing.
From S2P Require Import RegistryOps.
From S2P Require Import Subscriber.
From S2P Require Import ReplyDispatcher.
From S2P Require Import Transport.
From S2P Require Import Publisher.
From S2P Require Import Client.
From S2P Require Import RunFacts.
From S2P Require Import LifecycleProps.

Local Open Scope broker_scope.

Section Messaging.
Context {D : Deps}.
Implicit Types (w : World) (slot : slot_id) (tx : chan_id) (m : Message).

(** ** Sending *)

Definition chan_view tx w : option (mpsc_view Message) := mpsc_look <$> chans w !! tx.

Definition target_slot (t : RouteTarget) w : slot_id :=
  match t with Single slot => slot | LoadBalancedTarget group => slot_of group w end.

Definition target_sender (t : RouteTarget) w : option chan_id :=
  load_sender (target_slot t w) w.

(** A send that has left the channel as it was, apart from the view [v']. *)
Definition sent tx (v' : mpsc_view Message) w w' : Prop :=
  chan_view tx w' = Some v' /\ inner w' = inner w /\ slots w' = slots w /\
  caches w' = caches w /\ oneshots w' = oneshots w /\ waiter_maps w' = waiter_maps w /\
  (forall other, other <> tx -> chans w' !! other = chans w !! other) /\ tasks w' = tasks w.

Lemma clone_drop_view {M} (v : mpsc_view M) q :
  view_drop_sender (set_queue q (view_clone_sender v)) = set_queue q v.
Proof. by destruct v. Qed.

Lemma run_send_to_slot slot tx m w v :
  load_sender slot w = Some tx -> chan_view tx w = Some v ->
  let o := run (send_to_slot slot m) w in
  if negb (receiver v) then exists w', o = Done w' (Err ConnectionClosed) /\ sent tx v w w'
  else if decide (0 < free v)%Z then
    exists w', o = Done w' (Ok tt) /\ sent tx (set_queue (queue v ++ [m]) v) w w'
  else exists w' dr f, o = Blocked w' (Act (Some dr) f) /\ sent tx (view_clone_sender v) w w' /\
    sent tx v w (dr w').
Proof.
  intros Hs Hv. unfold chan_view in Hv. destruct (chans w !! tx) as [c|] eqn:Hc; [|done].
  injection Hv as Hv. cbv zeta. unfold send_to_slot. rewrite run_act_bind.
  unfold guard_sender. rewrite Hs. cbn [fst snd].
  set (w1 := on_chan mpsc_clone_sender tx w).
  assert (chans w1 !! tx = Some (mpsc_clone_sender c)) as Hc1.
  { simpl. by rewrite lookup_alter_eq, Hc. }
  pose proof (mpsc_send_spec m (mpsc_clone_sender c)) as Hsend.
  rewrite mpsc_clone_sender_spec, Hv in Hsend.
  unfold view_send, view_try_send in Hsend. cbn [receiver view_clone_sender] in Hsend.
  change (free (view_clone_sender v)) with (free v) in Hsend.
  unfold Sender_send. rewrite (run_owning_poll_bind _ tx (mpsc_clone_sender c)) by exact Hc1.
  assert (forall c2, mpsc_look c2 = view_clone_sender v ->
    sent tx v w (on_chan mpsc_drop_sender tx (put_channel tx c2 w1))) as Hback.
  { intros c2 E2. split_and!; [|done..| |done].
    - unfold chan_view. simpl. rewrite lookup_alter_eq, lookup_insert_eq. simpl.
      rewrite mpsc_drop_sender_spec, E2. by destruct v.
    - intros other Ho. simpl. rewrite lookup_alter_ne, lookup_insert_ne, lookup_alter_ne; done. }
  destruct (mpsc_send m (mpsc_clone_sender c)) as [[r c2]|]; simpl in Hsend.
  - destruct (receiver v); [destruct (decide (0 < free v)%Z)|]; [|done|];
      simpl in Hsend; injection Hsend as -> E2; cbn [mbind option_bind map_err];
      rewrite run_write_bind; cbn [run map_err].
    + eexists. split; [reflexivity|]. split_and!; [|done..| |done].
      * unfold chan_view. simpl. rewrite lookup_alter_eq, lookup_insert_eq. simpl.
        by rewrite mpsc_drop_sender_spec, E2, clone_drop_view.
      * intros other Ho. simpl. rewrite lookup_alter_ne, lookup_insert_ne, lookup_alter_ne; done.
    + eexists. split; [reflexivity|]. by apply Hback.
  - destruct (receiver v); [destruct (decide (0 < free v)%Z)|]; [done| |done].
    cbn [mbind option_bind]. eexists _, _, _. split; [reflexivity|].
    split; [split_and!; [|done..| |done]|].
    + unfold chan_view. rewrite Hc1. simpl. by rewrite mpsc_clone_sender_spec, Hv.
    + intros other Ho. simpl. by rewrite lookup_alter_ne.
    + assert (put_channel (M := Message) tx (mpsc_clone_sender c) w1 = w1) as Ew.
      { unfold put_channel. cbn [get_channels set_channels message_channels].
        rewrite insert_id by exact Hc1. done. }
      rewrite <-Ew at 1. apply Hback. by rewrite mpsc_clone_sender_spec, Hv.
Qed.

Lemma run_target_send t m w : run (RouteTarget_send t m) w = run (send_to_slot (target_slot t w) m) w.
Proof. by destruct t. Qed.

Lemma run_resolve tr a w :
  run (InMemoryTransport_resolve tr a) w =
    match lookup_inner (inner w) a with
    | Some t => Done w (Ok (mkResolved (mkEndpoint t (RouteTarget_version t w))))
    | None => Done w (Err (RecipientNotFound a))
    end.
Proof.
  unfold InMemoryTransport_resolve, lookup. rewrite run_read_bind.
  by destruct (lookup_inner (inner w) a).
Qed.

(** Sending by the address of the message. *)
Lemma run_transport_send (tr : InMemoryTransport) m w :
  run (Transport_send tr m) w =
    match from_utf8 (Protocol.address m) with
    | Err _ => Done w (Err (TransportProtocol InvalidAddressUtf8))
    | Ok a =>
        match lookup_inner (inner w) a with
        | None => Done w (Err (RecipientNotFound a))
        | Some t => run (send_to_slot (target_slot t w) m) w
        end
    end.
Proof.
  unfold Transport_send, address_str. destruct (from_utf8 (Protocol.address m)) as [a|]; [|done].
  cbn [map_err]. rewrite run_bind. cbn [resolve in_memory_transport]. rewrite run_resolve.
  destruct (lookup_inner (inner w) a) as [t|]; [|done].
  cbn [send_to in_memory_transport]. unfold InMemoryTransport_send_to, ResolvedEndpoint_send.
  cbn [endpoint_send in_memory_endpoint resolved_inner]. unfold InMemoryEndpoint_send.
  cbn [World.target]. apply run_target_send.
Qed.

(** C17: [BrokerClient::send] on every branch: an address that is not UTF-8 or has no route is an
    error, so is a removed slot or a dropped receiver; otherwise the message is queued, last and
    once, in the channel of the one target of its address and nothing else changes; with a full
    queue the send waits and the queue is left alone, and a caller that drops the future then
    leaves everything as it was. *)
Theorem client_send_spec self m w :
  let o := run (BrokerClient_send self m) w in
  match from_utf8 (Protocol.address m) with
  | Err _ => o = Done w (Err (TransportProtocol InvalidAddressUtf8))
  | Ok a =>
      match lookup_inner (inner w) a with
      | None => o = Done w (Err (RecipientNotFound a))
      | Some t =>
          match target_sender t w with
          | None => o = Done w (Err ConnectionClosed)
          | Some tx => forall v, chan_view tx w = Some v ->
              if negb (receiver v) then
                exists w', o = Done w' (Err ConnectionClosed) /\ sent tx v w w'
              else if decide (0 < free v)%Z then
                exists w', o = Done w' (Ok tt) /\ sent tx (set_queue (queue v ++ [m]) v) w w'
              else exists w' p w'', o = Blocked w' p /\ sent tx (view_clone_sender v) w w' /\
                run (abandon impatient (BrokerClient_send self m)) w = Done w'' None /\
                sent tx v w w''
          end
      end
  end.
Proof.
  cbv zeta. unfold BrokerClient_send. pose proof (run_transport_send (local self) m w) as Hrun.
  rewrite Hrun. destruct (from_utf8 (Protocol.address m)) as [a|]; [|done].
  destruct (lookup_inner (inner w) a) as [t|]; [|done]. unfold target_sender.
  destruct (load_sender (target_slot t w) w) as [tx|] eqn:Hs.
  - intros v Hv. pose proof (run_send_to_slot _ tx m w v Hs Hv) as Hsend. cbv zeta in Hsend.
    destruct (negb (receiver v)); [done|]. case_decide; [done|].
    destruct Hsend as (w' & dr & f & Hr & Hw & Hd). exists w', (Act (Some dr) f), (dr w').
    split_and!; [exact Hr|done| |done]. by rewrite run_impatient, Hrun, Hr.
  - unfold send_to_slot. rewrite run_act_bind. unfold guard_sender. by rewrite Hs.
Qed.

(** ** Requests *)

Implicit Types (k : waiters_id) (id : bytes).

Lemma waiter_map_on f k w :
  is_Some (waiter_maps w !! k) -> waiter_map k (on_waiters f k w) = f (waiter_map k w).
Proof.
  intros [x Hx]. unfold waiter_map, on_waiters. simpl. by rewrite lookup_alter_eq, Hx.
Qed.

Lemma waiter_map_remove k id w : waiter_map k (remove_entry k id w) !! id = None.
Proof.
  assert (waiter_map k (on_waiters (delete id) k w) !! id = None) as Hd.
  { unfold waiter_map, on_waiters. simpl. rewrite lookup_alter_eq.
    destruct (waiter_maps w !! k); simpl; [apply lookup_delete_eq|apply lookup_empty]. }
  unfold remove_entry. by destruct (waiter_map k w !! id).
Qed.

Lemma waiter_map_guard_drop k id rx b w :
  waiter_map k (drop_waiter (mkGuard k id) rx b w) !! id = None.
Proof. apply waiter_map_remove. Qed.

(** Registering a waiter: the key of its one-value channel is fresh. *)
Lemma run_register_waiter_bind {B} d id (f : _ -> proc World B) w :
  let k := waiters d in
  let w1 := bump_id (set_oneshots (<[next_id w := oneshot_channel]> (oneshots w)) w) in
  run (bind (register_waiter d id) f) w =
    match waiter_map k w !! id with
    | Some _ => run (f (Err WaiterAlreadyExists))
        (on_oneshot oneshot_drop_sender (next_id w)
           (on_oneshot oneshot_drop_receiver (next_id w) w1))
    | None => run (f (Ok (mkGuard k id, next_id w)))
        (on_waiters (<[id := next_id w]>) k w1)
    end.
Proof.
  cbv zeta. unfold register_waiter, WaiterGuard_new. rewrite run_bind.
  unfold new_oneshot. rewrite run_alloc_bind, run_act.
  change (waiter_map (waiters d) (bump_id _)) with (waiter_map (waiters d) w).
  by destruct (waiter_map (waiters d) w !! id).
Qed.

(** What the end of a request establishes: no waiter, unless the id was taken. *)
Definition no_waiter k id (r : option (result Message TransportError)) w : Prop :=
  r = Some (Err (TransportRegistry WaiterAlreadyExists)) \/ waiter_map k w !! id = None.

Lemma request_with_ends d timeout id p :
  ends_in (no_waiter (waiters d) id) (request_with d timeout id p).
Proof.
  unfold request_with, register_waiter, WaiterGuard_new, new_oneshot, alloc, act.
  cbn [bind ends_in]. intros w. split; [done|]. intros w1.
  destruct (waiter_map (waiters d) w1 !! id) as [tx|].
  - cbn [bind ends_in ended]. split; [|done]. intros r [= <-]. by left.
  - cbn [bind]. rewrite ended_guarded. split; [done|].
    apply ends_in_guarded. intros r b s. right. apply waiter_map_guard_drop.
Qed.

Lemma request_with_taken d timeout id p w :
  is_Some (waiter_map (waiters d) w !! id) ->
  exists w', run (request_with d timeout id p) w =
      Done w' (Err (TransportRegistry WaiterAlreadyExists)) /\
    chans w' = chans w /\ waiter_maps w' = waiter_maps w /\ inner w' = inner w.
Proof.
  intros [tx Htx]. unfold request_with. rewrite run_register_waiter_bind. cbv zeta. rewrite Htx.
  eexists. split; [reflexivity|]. done.
Qed.

Lemma request_with_drops d timeout id p :
  drops_in (fun w => waiter_map (waiters d) w !! id = None) (request_with d timeout id p).
Proof.
  unfold request_with, register_waiter, WaiterGuard_new, new_oneshot, alloc, act.
  cbn [bind drops_in]. split; [done|]. intros w. split; [done|]. intros w1.
  destruct (waiter_map (waiters d) w1 !! id) as [tx|]; [done|]. cbn [bind].
  apply drops_in_guarded. intros s. apply waiter_map_guard_drop.
Qed.

(** C20: a request leaves no waiter behind. However the steps of other threads and tasks fall
    between its own, when [BrokerClient::request] ends, with a reply, an error, a timeout or a
    panic, or because its future is dropped at any of its [.await]s, no entry for its message is
    left in the map of waiters; and while another request with the same id is waiting, the call
    fails without sending anything. *)
Theorem request_leaves_no_waiter self m :
  let k := waiters (client_dispatcher self) in
  let id := message_id (header m) in
  ends_in (no_waiter k id) (BrokerClient_request self m) /\
  (forall stop, ends_in (fun r => no_waiter k id (mjoin r))
     (abandon stop (BrokerClient_request self m))) /\
  forall w, is_Some (waiter_map k w !! id) ->
    exists w', run (BrokerClient_request self m) w =
        Done w' (Err (TransportRegistry WaiterAlreadyExists)) /\
      chans w' = chans w /\ waiter_maps w' = waiter_maps w.
Proof.
  cbv zeta. split; [apply request_with_ends|]. split.
  { intros stop. eapply ends_in_abandon; [apply request_with_ends| |].
    - eapply drops_in_mono; [|apply request_with_drops]. intros w Hw. by right.
    - intros [x|] w; [by intros [[= ->]|?]; [left|right]|]. intros [?|?]; [done|by right]. }
  intros w Hid.
  destruct (request_with_taken (client_dispatcher self)
    (request_timeout (config (broker self))) (message_id (header m))
    (Transport_send (local self) (force_in_out m (client_address self))) w Hid)
    as (w' & ? & ? & ? & _). by exists w'.
Qed.

(** A request goes out in [InOut] mode with the caller's own reply address, whatever the
    message said before; its other header bits and fields, its address and its payload are the
    ones it came with. *)
Lemma forced_request m reply (Hflags : (0 <= flags (header m) < 256)%Z) :
  let m' := force_in_out m reply in
  FixedHeader_transfer_mode (header m') = Ok InOut /\
  Protocol.reply_to m' = reply /\
  (0 <= flags (header m') < 256)%Z /\
  (forall i, (1 <= i)%Z -> Z.testbit (flags (header m')) i = Z.testbit (flags (header m)) i) /\
  message_id (header m') = message_id (header m) /\
  Protocol.address m' = Protocol.address m /\ msg_type m' = msg_type m /\ payload m' = payload m.
Proof.
  cbv zeta. set (x := flags (header m)) in *.
  assert (flags (header (force_in_out m reply)) = Z.lor (Z.land x 254) 1) as E by done.
  assert (forall i, (1 <= i)%Z -> Z.testbit (Z.lor (Z.land x 254) 1) i = Z.testbit x i) as Hbits.
  { intros i Hi. rewrite Z.lor_spec, Z.land_spec.
    destruct (decide (i < 8)%Z) as [Hlt|Hge].
    - assert (i = 1 \/ i = 2 \/ i = 3 \/ i = 4 \/ i = 5 \/ i = 6 \/ i = 7)%Z as Hi' by lia.
      destruct Hi' as [->|[->|[->|[->|[->|[->| ->]]]]]]; cbn; by rewrite andb_true_r, orb_false_r.
    - assert (x = x mod 2 ^ 8)%Z as -> by (rewrite Z.mod_small; lia).
      rewrite Z.mod_pow2_bits_high by lia.
      rewrite (Z.bits_above_log2 1) by (simpl; lia). done. }
  assert (Z.testbit (Z.lor (Z.land x 254) 1) 0 = true) as Hb0.
  { rewrite Z.lor_spec. by rewrite orb_true_r. }
  split_and!; try done.
  - unfold FixedHeader_transfer_mode, from_flags. rewrite E.
    assert (Z.land (Z.lor (Z.land x 254) 1) TRANSFER_MODE_MASK = 1%Z) as ->.
    { apply Z.bits_inj'. intros i Hi. rewrite Z.land_spec.
      destruct (decide (i = 0)%Z) as [->|]; [by rewrite Hb0|].
      change TRANSFER_MODE_MASK with 1%Z. rewrite !(Z.bits_above_log2 1) by (simpl; lia).
      apply andb_false_r. }
    reflexivity.
  - rewrite E. apply Z.lor_nonneg. split; [apply Z.land_nonneg; lia|lia].
  - rewrite E. apply Z.log2_lt_cancel. rewrite Z.log2_lor by (try apply Z.land_nonneg; lia).
    pose proof (Z.log2_land x 254 ltac:(lia) ltac:(lia)). change (Z.log2 254) with 7%Z in *.
    change (Z.log2 1) with 0%Z. change (Z.log2 256) with 8%Z. lia.
Qed.

(** ** Waiting for a reply *)

Definition reply_view (r : oneshot_id) w : option (oneshot_view Message) :=
  oneshot_look <$> oneshots w !! r.

Lemma reply_recv_view r w v :
  reply_view r w = Some v ->
  match view_oneshot_recv v with
  | Some (x, v') => exists w', reply_recv r w = Some (w', x) /\ reply_view r w' = Some v'
  | None => reply_recv r w = None
  end.
Proof.
  unfold reply_view, reply_recv. destruct (oneshots w !! r) as [o|]; [|done]. intros [= <-].
  pose proof (oneshot_recv_spec o) as Hs. cbn [mbind option_bind].
  destruct (oneshot_recv o) as [[x o']|]; simpl in Hs; rewrite <-Hs; [|done].
  eexists. split; [reflexivity|]. simpl. by rewrite lookup_insert_eq.
Qed.

(** C29: waiting for a reply is bounded. While there is none the wait goes on until the request
    timeout, counted from the start of the wait; after it (and the timer's granularity) it ends
    with a timeout. A reply that is there when the wait is next polled is returned, even late;
    and a dropped reply sender ends the wait with a closed connection. *)
Theorem reply_wait_bounded timeout r w
    (Hpend : reply_view r w = Some (mkOneshot None true true)) (Htime : (0 < timeout)%Z) :
  exists p, run (await_reply timeout r) w = Blocked w p /\ forall v,
    (forall m sa ra, reply_view r v = Some (mkOneshot (Some m) sa ra) ->
       exists v', run p v = Done v' (Ok m)) /\
    (forall ra, reply_view r v = Some (mkOneshot None false ra) ->
       exists v', run p v = Done v' (Err ConnectionClosed)) /\
    (forall ra, reply_view r v = Some (mkOneshot None true ra) ->
       ((now v < now w + timeout)%Z -> run p v = Blocked v p) /\
       ((now w + timeout + timeout_slack <= now v)%Z ->
        run p v = Done v (Err TransportTimeout))).
Proof.
  unfold await_reply. rewrite run_read_bind. unfold await. cbn [run].
  assert (forall v ra, reply_view r v = Some (mkOneshot None true ra) -> reply_recv r v = None) as Hn.
  { intros v ra Hv. by apply reply_recv_view in Hv. }
  rewrite (Hn w true Hpend). cbn [fmap option_fmap option_map].
  rewrite timeout_pending by lia. cbn [mbind option_bind].
  eexists. split; [reflexivity|]. intros v. split_and!.
  - intros m sa ra Hv. apply reply_recv_view in Hv as (v' & Hr & _). exists v'.
    cbn [run]. rewrite Hr. cbn [fmap option_fmap option_map snd]. by rewrite timeout_ready.
  - intros ra Hv. apply reply_recv_view in Hv as (v' & Hr & _). exists v'.
    cbn [run]. rewrite Hr. cbn [fmap option_fmap option_map snd]. by rewrite timeout_ready.
  - intros ra Hv. apply Hn in Hv. split; intros Ht; cbn [run]; rewrite Hv;
      cbn [fmap option_fmap option_map].
    + by rewrite timeout_pending.
    + by rewrite timeout_elapsed.
Qed.

(** ** Delivering replies *)

Lemma deliver_reply_waiter k m w r v :
  waiter_map k w !! message_id (header m) = Some r -> reply_view r w = Some v ->
  reply_view r (deliver_reply k m w) =
    Some (if receiver_alive v then mkOneshot (Some m) false true
          else mkOneshot (value v) false false).
Proof.
  intros E. unfold deliver_reply. rewrite E. unfold reply_send, reply_view.
  set (w1 := on_waiters _ k w). change (oneshots w1) with (oneshots w).
  destruct (oneshots w !! r) as [o|]; [|done]. intros [= <-].
  pose proof (oneshot_send_spec m o) as Hs.
  destruct (oneshot_send m o) as [x o']. unfold on_snd in Hs. simpl in *.
  rewrite lookup_insert_eq. simpl. f_equal. unfold view_oneshot_send in Hs.
  by destruct (receiver_alive (oneshot_look o)); simplify_eq.
Qed.

(** The listener hands a reply to the one waiter of its message id, and removes that waiter
    and no other; a reply whose waiter has gone, or that nobody waits for, is dropped. *)
Theorem deliver_reply_spec k m w
    (Hmap : is_Some (waiter_maps w !! k)) :
  let id := message_id (header m) in
  let w' := deliver_reply k m w in
  waiter_map k w' = delete id (waiter_map k w) /\ inner w' = inner w /\ chans w' = chans w /\
  (forall tx v, waiter_map k w !! id = Some tx -> reply_view tx w = Some v ->
     reply_view tx w' = Some (if receiver_alive v then mkOneshot (Some m) false true
                              else mkOneshot (value v) false false)) /\
  (forall r, waiter_map k w !! id <> Some r -> reply_view r w' = reply_view r w).
Proof.
  cbv zeta. unfold deliver_reply. set (id := message_id (header m)).
  set (w1 := on_waiters (delete id) k w).
  assert (waiter_map k w1 = delete id (waiter_map k w)) as Hd by (by apply waiter_map_on).
  destruct (waiter_map k w !! id) as [tx|] eqn:E.
  - assert (forall v, reply_view tx w = Some v -> reply_view tx (reply_send tx m w1).1 =
      Some (if receiver_alive v then mkOneshot (Some m) false true
            else mkOneshot (value v) false false)) as Htx.
    { intros v Hv. pose proof (deliver_reply_waiter k m w tx v E Hv) as Hw.
      unfold deliver_reply in Hw. fold id in Hw. by rewrite E in Hw. }
    assert (forall tx' v, Some tx = Some tx' -> reply_view tx' w = Some v ->
      reply_view tx' (reply_send tx m w1).1 = Some (if receiver_alive v then
        mkOneshot (Some m) false true else mkOneshot (value v) false false)) as Htx'.
    { intros tx' v [= <-]. apply Htx. }
    revert Htx'. unfold reply_send. change (oneshots w1) with (oneshots w).
    destruct (oneshots w !! tx) as [o|]; [destruct (oneshot_send m o) as [x o']|];
      intros Htx'; split_and!; try done.
    intros r Hr. unfold reply_view. simpl. rewrite lookup_insert_ne; congruence.
  - split_and!; try done.
Qed.

(** C39: the guard of a request removes whatever waiter is registered under its id, not only its
    own. When a reply has been delivered and the same id is used again before the first request
    drops its guard, that drop cancels the second request: its wait ends with a closed
    connection. *)
Theorem stale_guard_cancels_newer_request k id tx r v w timeout
    (Hwaiter : waiter_map k w !! id = Some r)
    (Hpend : reply_view r w = Some (mkOneshot None true v)) (Hother : tx <> r)
    (Htime : (0 < timeout)%Z) :
  let w' := drop_waiter (mkGuard k id) tx false w in
  waiter_map k w' !! id = None /\
  exists w'', run (await_reply timeout r) w' = Done w'' (Err ConnectionClosed).
Proof.
  cbv zeta. split; [apply waiter_map_guard_drop|].
  unfold drop_waiter, WaiterGuard_drop, remove_entry. cbn [guard_waiters guard_id].
  set (w1 := on_oneshot oneshot_drop_receiver tx w).
  change (waiter_map k w1) with (waiter_map k w). rewrite Hwaiter.
  set (w' := on_oneshot oneshot_drop_sender r (on_waiters (delete id) k w1)).
  assert (reply_view r w' = Some (mkOneshot None false v)) as Hv.
  { unfold reply_view in *. unfold w', w1. simpl. rewrite lookup_alter_eq, lookup_alter_ne by done.
    destruct (oneshots w !! r) as [o|]; [|done]. simpl in *. injection Hpend as Hpend.
    by rewrite oneshot_drop_sender_spec, Hpend. }
  apply reply_recv_view in Hv as (w'' & Hr & _).
  unfold await_reply. rewrite run_read_bind. unfold await. cbn [run]. rewrite Hr.
  cbn [fmap option_fmap option_map snd]. rewrite timeout_ready. cbn [mbind option_bind run].
  by exists w''.
Qed.
End Messaging.

(** ** Witnesses *)

Section Witnesses.
Definition ping_id : bytes := bs "0123456789abcdef".

Definition ping : Message :=
  {| header := {| version := 1; flags := 0; priority := 0; session_token := [];
                  message_id := ping_id; sub_message_id := []; ttl := 64;
                  msg_type_len := 4; address_len := 18; payload_len := 2 |};
     msg_type := bs "ping"; Protocol.address := users; Protocol.reply_to := [];
     payload := bs "hi" |}.

Definition a_client : BrokerClient :=
  mkClient (mkBroker BrokerConfig_default) mkInMemoryTransport (bs "me")
    (handle_new_exclusive (bs "me") 9) (mkDispatcher 5 6).

Lemma client_send_spec_witness :
  exists w', run (BrokerClient_send a_client ping) subscribed = Done w' (Ok tt) /\
    chan_view 0 w' = Some (mkMpsc [ping] 4 1 true).
Proof.
  pose proof (client_send_spec a_client ping subscribed) as Hs. cbv zeta in Hs.
  assert (from_utf8 (Protocol.address ping) = Ok users) as E1 by (vm_compute; reflexivity).
  assert (lookup_inner (inner subscribed) users = Some (Single 1)) as E2 by (vm_compute; reflexivity).
  assert (target_sender (Single 1) subscribed = Some 0%nat) as E3 by (vm_compute; reflexivity).
  rewrite E1, E2, E3 in Hs. specialize (Hs (mkMpsc [] 4 1 true) eq_refl). simpl in Hs.
  destruct Hs as (w' & Hr & Hv & _). exists w'. split; [exact Hr|exact Hv].
Defined.

(** One request waiting in map 5 for the reply of channel 7. *)
Definition waiting : World :=
  set_waiter_maps {[5 := {[ping_id := 7]}]} (set_oneshots {[7 := view_oneshot]} subscribed).

Lemma request_leaves_no_waiter_witness :
  exists w', run (BrokerClient_request a_client ping) waiting =
    Done w' (Err (TransportRegistry WaiterAlreadyExists)).
Proof.
  assert (is_Some (waiter_map 5 waiting !! ping_id)) as Hid by (vm_compute; eauto).
  pose proof (proj2 (proj2 (request_leaves_no_waiter a_client ping)) waiting Hid) as (w' & Hr & _).
  exists w'. exact Hr.
Defined.

Lemma waiting_reply : reply_view 7 waiting = Some (mkOneshot None true true).
Proof. vm_compute. reflexivity. Qed.

Lemma reply_wait_bounded_witness :
  exists p, run (await_reply 30 7) waiting = Blocked waiting p /\
    run p (set_now 30 waiting) = Done (set_now 30 waiting) (Err TransportTimeout).
Proof.
  pose proof (reply_wait_bounded 30 7 waiting waiting_reply ltac:(lia)) as (p & Hp & Hv).
  exists p. split; [exact Hp|]. apply (Hv (set_now 30 waiting)) with (ra := true);
    [exact waiting_reply|simpl; lia].
Defined.

Lemma deliver_reply_spec_witness :
  reply_view 7 (deliver_reply 5 ping waiting) = Some (mkOneshot (Some ping) false true).
Proof.
  assert (is_Some (waiter_maps waiting !! 5)) as Hm by (eexists; apply (lookup_singleton_eq 5)).
  assert (waiter_map 5 waiting !! ping_id = Some 7) as Hw by (vm_compute; reflexivity).
  pose proof (deliver_reply_spec 5 ping waiting Hm) as (_ & _ & _ & Hd & _).
  exact (Hd 7 (mkOneshot None true true) Hw waiting_reply).
Defined.

Lemma stale_guard_cancels_newer_request_witness :
  exists w'', run (await_reply 30 7) (drop_waiter (mkGuard 5 ping_id) 4 false waiting) =
    Done w'' (Err ConnectionClosed).
Proof.
  assert (waiter_map 5 waiting !! ping_id = Some 7) as Hw by (vm_compute; reflexivity).
  pose proof (stale_guard_cancels_newer_request 5 ping_id 4 7 true waiting 30 Hw waiting_reply
    ltac:(lia) ltac:(lia)) as [_ Hd]. exact Hd.
Defined.
End Witnesses.
