(* ===== verification/EndToEnd.v ===== *)
(** * EndToEnd: what the broker promises its clients

    Whole conversations: messages that clients send to an exclusive subscriber arrive, each once
    and in order, and a request is completed by the reply to it. *)

From S2P Require Import Prelude.
From S2P Require Import Str.
From S2P Require Import Utf8.
From S2P Require Import Patterns.
From S2P Require Import PatternFacts.
From S2P Require Import RadixIface.
From S2P Require Import Config.
From S2P Require Import ChanIface.
From S2P Require Import Async.
From S2P Require Import Registry.
From S2P Require Import RegistryFacts.
From S2P Require Import RegistryProps.
From S2P Require Import Protocol.
From S2P Require Import World.
From S2P Require Import Channel.
From S2P Require Import Routing.
From S2P Require Import RegistryOps.
From S2P Require Import Subscriber.
From S2P Require Import ReplyDispatcher.
From S2P Require Import Transport.
From S2P Require Import Publisher.
From S2P Require Import Client.
From S2P Require Import RunFacts.
From S2P Require Import LifecycleProps.
From S2P Require Import MessagingProps.

Local Open Scope broker_scope.

Section EndToEnd.
Context {D : Deps}.
Implicit Types (w : World) (slot : slot_id) (tx : chan_id) (m : Message).

(** ** Definitions *)

(** Clients that send one message each, one after the other. *)
Fixpoint send_all (ms : list (BrokerClient * Message))
    : proc World (list (result unit TransportError)) :=
  match ms with
  | [] => Ret []
  | (self, m) :: ms =>
      let! r := BrokerClient_send self m in
      let! rs := send_all ms in
      Ret (r :: rs)
  end.

(** A subscriber that receives [n] times. *)
Fixpoint recv_all (s : Subscriber) (n : nat) : proc World (list (option Message)) :=
  match n with
  | O => Ret []
  | S n =>
      let! r := Subscriber_recv s in
      let! rs := recv_all s n in
      Ret (r :: rs)
  end.

(** The messages in the channel of a slot that is in use. *)
Definition line slot tx n q w : Prop :=
  load_sender slot w = Some tx /\ chan_view tx w = Some (mkMpsc q n 1 true).

(** The message is routed to the slot. *)
Definition goes_to slot w m : Prop :=
  exists x, from_utf8 (Protocol.address m) = Ok x /\
    lookup_inner (inner w) x = Some (Single slot).

(** ** Sending and receiving in order *)

Lemma run_send_line self slot tx n q m w :
  line slot tx n q w -> goes_to slot w m -> (Z.of_nat (length q) < n)%Z ->
  exists w', run (BrokerClient_send self m) w = Done w' (Ok tt) /\
    line slot tx n (q ++ [m]) w' /\ inner w' = inner w.
Proof.
  intros [Hs Hv] (x & Hx & Hr) Hn. unfold BrokerClient_send.
  rewrite run_transport_send, Hx, Hr. cbn [target_slot].
  pose proof (run_send_to_slot slot tx m w _ Hs Hv) as Hsend. cbv zeta in Hsend.
  cbn [receiver negb] in Hsend. rewrite decide_True in Hsend by (unfold free; simpl; lia).
  destruct Hsend as (w' & ? & Hc & Hi & Hsl & _). exists w'. split; [done|]. split; [|done].
  split; [|exact Hc]. unfold load_sender in *. by rewrite Hsl.
Qed.

Lemma run_send_all slot tx n q ms w :
  line slot tx n q w -> Forall (goes_to slot w) ms.*2 ->
  (Z.of_nat (length q + length ms) <= n)%Z ->
  exists w', run (send_all ms) w = Done w' (replicate (length ms) (Ok tt)) /\
    line slot tx n (q ++ ms.*2) w'.
Proof.
  revert q w. induction ms as [|[self m] ms IH]; intros q w Hl Hms Hn.
  - exists w. by rewrite app_nil_r.
  - rewrite fmap_cons, list.Forall_cons in Hms. destruct Hms as [Hm Hms].
    rewrite length_cons in Hn.
    destruct (run_send_line self slot tx n q m w) as (w1 & Hr1 & Hl1 & Hi1); [done..|lia|].
    destruct (IH (q ++ [m]) w1) as (w2 & Hr2 & Hl2); [done| |rewrite length_app; simpl; lia|].
    { eapply list.Forall_impl; [exact Hms|]. intros m' (x & ? & ?). exists x. by rewrite Hi1. }
    exists w2. split; [|by rewrite <-app_assoc in Hl2].
    cbn [send_all]. by rewrite run_bind, Hr1, run_bind, Hr2.
Qed.

Lemma run_recv_line a tx n m q w :
  chan_view tx w = Some (mkMpsc (m :: q) n 1 true) ->
  exists w', run (Subscriber_recv (new_push tx a)) w = Done w' (Some m) /\
    chan_view tx w' = Some (mkMpsc q n 1 true).
Proof.
  unfold chan_view. destruct (chans w !! tx) as [c|] eqn:Hc; [|done]. intros [= Hv].
  pose proof (mpsc_recv_spec c) as Hs. rewrite Hv in Hs.
  destruct (mpsc_recv c) as [[r c']|] eqn:E; [|done]. injection Hs as -> Hc'.
  exists (put_channel tx c' w). split.
  - unfold Subscriber_recv, new_push. cbn [mode]. apply run_await.
    unfold poll_channel. cbn [get_channels message_channels]. rewrite Hc. simpl. by rewrite E.
  - simpl. rewrite lookup_insert_eq. simpl. by rewrite Hc'.
Qed.

Lemma run_recv_all a tx n q rest w :
  chan_view tx w = Some (mkMpsc (q ++ rest) n 1 true) ->
  exists w', run (recv_all (new_push tx a) (length q)) w = Done w' (Some <$> q) /\
    chan_view tx w' = Some (mkMpsc rest n 1 true).
Proof.
  revert w. induction q as [|m q IH]; intros w Hv; [by exists w|].
  destruct (run_recv_line a tx n m (q ++ rest) w Hv) as (w1 & Hr1 & Hv1).
  destruct (IH w1 Hv1) as (w2 & Hr2 & Hv2). exists w2. split; [|done].
  cbn [length recv_all]. by rewrite run_bind, Hr1, run_bind, Hr2.
Qed.

Lemma recv_waits a tx n w :
  chan_view tx w = Some (mkMpsc [] n 1 true) ->
  exists p, run (Subscriber_recv (new_push tx a)) w = Blocked w p.
Proof.
  unfold chan_view. destruct (chans w !! tx) as [c|] eqn:Hc; [|done]. intros [= Hv].
  pose proof (mpsc_recv_spec c) as Hs. rewrite Hv in Hs.
  destruct (mpsc_recv c) as [[r c']|] eqn:E; [done|].
  unfold Subscriber_recv, new_push, Receiver_recv, await, poll_channel. cbn [mode run].
  cbn [get_channels message_channels]. rewrite Hc. cbn [mbind option_bind]. rewrite E. by eexists.
Qed.

(** C13: an exclusive subscriber receives what is sent to it. After a successful subscription to
    an exact address or to a pattern without [**], any clients may send any messages, one send
    after another and no more messages than the channel holds, to addresses the subscription
    covers: every send succeeds, and the subscriber then receives exactly these messages, each
    once and in the order they were sent, and waits for more. (A pattern with [**] covers
    addresses too, and receives nothing.) *)
Theorem exclusive_delivery n a w w1 sub handle ms
    (Hcalm : calm w) (Hwf : inner_wf (inner w)) (Hn : valid_capacity n)
    (Hkind : is_wildcard a = true -> is_prefix_pattern a = false)
    (Hsub : run (subscribe a (mkSubscriberConfig n Exclusive)) w = Done w1 (Ok (sub, handle)))
    (Hms : Forall (fun m => exists x, from_utf8 (Protocol.address m) = Ok x /\ concrete x /\
             covers a x) ms.*2)
    (Hlen : (Z.of_nat (length ms) <= n)%Z) :
  exists w2 w3 p,
    run (send_all ms) w1 = Done w2 (replicate (length ms) (Ok tt)) /\
    run (recv_all sub (length ms)) w2 = Done w3 (Some <$> ms.*2) /\
    run (Subscriber_recv sub) w3 = Blocked w3 p.
Proof.
  revert Hsub. unfold subscribe, routing_policy, channel_capacity, subscribe_exclusive.
  destruct (channel_some (M := Message) n Hn) as (c & Hc & Hview).
  rewrite run_bind, (run_register_exclusive n a w c) by done.
  set (s := S (next_id w)).
  destruct (register_inner (inner w) a (Single s)) as [i|e] eqn:Er; [|done].
  intros [= <- <- <-]. pose proof (check_address_of_register _ _ _ _ Er) as [Hca ->].
  pose proof (insert_wf _ a (Single s) Hwf Hca) as Hwf1.
  set (w1' := set_inner _ _).
  assert (line s (next_id w) n [] w1') as Hline.
  { split; [unfold load_sender; simpl; by rewrite lookup_insert_eq|].
    unfold chan_view. simpl. rewrite lookup_insert_eq. simpl. by rewrite Hview. }
  assert (Forall (goes_to s w1') ms.*2) as Hgo.
  { eapply list.Forall_impl; [exact Hms|]. intros m (x & Hx & Hcx & Hcov). exists x.
    split; [done|]. by apply register_lookup. }
  destruct (run_send_all s _ n [] ms w1' Hline Hgo) as (w2 & Hr2 & _ & Hv2); [simpl; lia|].
  destruct (run_recv_all a (next_id w) n ms.*2 [] w2) as (w3 & Hr3 & Hv3);
    [by rewrite app_nil_r|].
  destruct (recv_waits a (next_id w) n w3 Hv3) as [p Hp].
  exists w2, w3, p. rewrite length_fmap in Hr3. done.
Qed.

(** ** Requests *)

(** A wait with no reply yet, and how it goes on once there is one. *)
Lemma await_reply_pending timeout r w :
  reply_view r w = Some (mkOneshot None true true) -> (0 < timeout)%Z ->
  exists p, run (await_reply timeout r) w = Blocked w p /\
    forall v m sa ra, reply_view r v = Some (mkOneshot (Some m) sa ra) ->
      exists v', run p v = Done v' (Ok m).
Proof.
  intros Hv Ht. apply reply_recv_view in Hv. simpl in Hv.
  unfold await_reply. rewrite run_read_bind. unfold await. cbn [run]. rewrite Hv.
  cbn [fmap option_fmap option_map]. rewrite timeout_pending by lia. cbn [mbind option_bind].
  eexists. split; [reflexivity|]. intros v m sa ra Hm.
  apply reply_recv_view in Hm as (v' & Hr & _). exists v'.
  cbn [run]. rewrite Hr. cbn [fmap option_fmap option_map snd]. by rewrite timeout_ready.
Qed.

(** The waiter of a request is registered, its one-value channel is new and empty. *)
Definition registered k id w : World :=
  on_waiters (<[id := next_id w]>) k
    (bump_id (set_oneshots (<[next_id w := oneshot_channel]> (oneshots w)) w)).

Lemma registered_waiter k id w :
  is_Some (waiter_maps w !! k) -> waiter_map k (registered k id w) !! id = Some (next_id w).
Proof.
  intros Hk. unfold registered. rewrite waiter_map_on by done. by rewrite lookup_insert_eq.
Qed.

Lemma registered_reply k id w :
  reply_view (next_id w) (registered k id w) = Some (mkOneshot None true true).
Proof.
  unfold reply_view, registered. simpl. rewrite lookup_insert_eq. simpl.
  by rewrite oneshot_channel_spec.
Qed.

(** The channel [tx] holds one more message, and the request waits under [r]; the rest of the
    world is as it was. *)
Definition request_sent self tx q r w w1 : Prop :=
  let k := waiters (client_dispatcher self) in
  (exists v, chan_view tx w = Some v /\ chan_view tx w1 = Some (set_queue (queue v ++ [q]) v)) /\
  waiter_map k w1 !! message_id (header q) = Some r /\ is_Some (waiter_maps w1 !! k) /\
  reply_view r w1 = Some (mkOneshot None true true) /\
  inner w1 = inner w /\ slots w1 = slots w /\ tasks w1 = tasks w /\
  forall other, other <> tx -> chans w1 !! other = chans w !! other.

Lemma request_waits self m w a t tx v :
  from_utf8 (Protocol.address m) = Ok a -> lookup_inner (inner w) a = Some t ->
  target_sender t w = Some tx -> chan_view tx w = Some v -> receiver v = true ->
  (0 < free v)%Z -> (0 < request_timeout (config (broker self)))%Z ->
  is_Some (waiter_maps w !! waiters (client_dispatcher self)) ->
  waiter_map (waiters (client_dispatcher self)) w !! message_id (header m) = None ->
  exists w1 p,
    run (BrokerClient_request self m) w = Blocked w1 p /\
    request_sent self tx (force_in_out m (client_address self)) (next_id w) w w1 /\
    forall reply w2 sa ra,
      reply_view (next_id w) w2 = Some (mkOneshot (Some reply) sa ra) ->
      exists w3, run p w2 = Done w3 (Ok reply) /\
        waiter_map (waiters (client_dispatcher self)) w3 !! message_id (header m) = None.
Proof.
  intros Hutf8 Hroute Htx Hv Hopen Hroom Htime Hk Hid.
  set (k := waiters (client_dispatcher self)) in *. set (id := message_id (header m)) in *.
  set (r := next_id w). set (q := force_in_out m (client_address self)).
  set (w0 := registered k id w).
  pose proof (run_send_to_slot (target_slot t w) tx q w0 v Htx Hv) as Hsend. cbv zeta in Hsend.
  rewrite Hopen in Hsend. cbn [negb] in Hsend. rewrite decide_True in Hsend by done.
  destruct Hsend as (w1 & Hsend & Hq & Hi & Hsl & _ & Ho & Hw & Hc & Ht).
  assert (reply_view r w1 = Some (mkOneshot None true true)) as Hv1.
  { unfold reply_view. rewrite Ho. apply registered_reply. }
  destruct (await_reply_pending (request_timeout (config (broker self))) r w1 Hv1 Htime)
    as (p & Hp & Hdone).
  exists w1, (guarded (drop_waiter (mkGuard k id) r) p). split_and!.
  - unfold BrokerClient_request, request_with. rewrite run_register_waiter_bind. cbv zeta.
    fold k id. rewrite Hid. change (on_waiters _ k _) with w0.
    rewrite run_guarded, run_bind, run_transport_send.
    change (Protocol.address (force_in_out _ _)) with (Protocol.address m). rewrite Hutf8.
    change (inner w0) with (inner w). rewrite Hroute.
    change (target_slot t w0) with (target_slot t w). fold q r. by rewrite Hsend, Hp.
  - split_and!; try done; [by exists v|..].
    + unfold waiter_map. rewrite Hw. by apply registered_waiter.
    + rewrite Hw. unfold w0, registered. simpl. fold k. rewrite lookup_alter_eq.
      destruct Hk as [x ->]. by eexists.
  - intros reply w2 sa ra Hd. destruct (Hdone _ _ _ _ Hd) as (w3 & Hr3).
    rewrite run_guarded, Hr3. eexists. split; [reflexivity|]. apply waiter_map_guard_drop.
Qed.

(** A request is completed by its reply. When its address is routed to a channel with room,
    [BrokerClient::request] queues the message there, last, in [InOut] mode and with the
    client's own address to reply to, and waits under the id of the message; whatever happens in
    the meantime, as long as that waiter is left alone, a reply with this id that reaches the
    listener completes the request with it, and the waiter is gone. *)
Theorem request_answered self m w a t tx v
    (Hutf8 : from_utf8 (Protocol.address m) = Ok a)
    (Hroute : lookup_inner (inner w) a = Some t) (Htx : target_sender t w = Some tx)
    (Hv : chan_view tx w = Some v) (Hopen : receiver v = true) (Hroom : (0 < free v)%Z)
    (Hflags : (0 <= flags (header m) < 256)%Z)
    (Htime : (0 < request_timeout (config (broker self)))%Z) :
  let k := waiters (client_dispatcher self) in
  let id := message_id (header m) in
  is_Some (waiter_maps w !! k) -> waiter_map k w !! id = None ->
  exists w1 p q r,
    run (BrokerClient_request self m) w = Blocked w1 p /\
    chan_view tx w1 = Some (set_queue (queue v ++ [q]) v) /\
    FixedHeader_transfer_mode (header q) = Ok InOut /\
    Protocol.reply_to q = client_address self /\ message_id (header q) = id /\
    Protocol.address q = Protocol.address m /\ payload q = payload m /\
    waiter_map k w1 !! id = Some r /\
    forall reply w2, message_id (header reply) = id ->
      waiter_map k w2 !! id = Some r -> reply_view r w2 = reply_view r w1 ->
      exists w3, run p (deliver_reply k reply w2) = Done w3 (Ok reply) /\
        waiter_map k w3 !! id = None.
Proof.
  cbv zeta. intros Hk Hid.
  pose proof (forced_request m (client_address self) Hflags) as (Hmode & Hto & _ & _ & Hqid & Hqa & _ & Hqp).
  destruct (request_waits self m w a t tx v) as (w1 & p & Hr & Hsent & Hdone); [done..|].
  destruct Hsent as ((v' & Hv' & Hq) & Hwr & _ & Hview & _). rewrite Hv in Hv'. simplify_eq.
  rewrite Hqid in Hwr. exists w1, p, (force_in_out m (client_address self)), (next_id w).
  split_and!; [done..|]. intros reply w2 Hid2 Hw2 Hv2. rewrite Hview in Hv2. rewrite <-Hid2 in Hw2.
  pose proof (deliver_reply_waiter _ reply w2 _ _ Hw2 Hv2) as Hd. cbn [receiver_alive] in Hd.
  by eapply Hdone.
Qed.
End EndToEnd.

(** ** Witnesses *)

Section Witnesses.
Lemma exclusive_delivery_witness :
  exists w2 w3 p,
    run (send_all [(a_client, ping); (a_client, force_in_out ping users)]) subscribed =
      Done w2 [Ok tt; Ok tt] /\
    run (recv_all (new_push 0%nat users) 2) w2 =
      Done w3 [Some ping; Some (force_in_out ping users)] /\
    run (Subscriber_recv (new_push 0%nat users)) w3 = Blocked w3 p.
Proof.
  assert (run (subscribe users (mkSubscriberConfig 4 Exclusive)) start =
    Done subscribed (Ok (new_push 0%nat users, handle_new_exclusive users 1))) as Hs.
  { unfold subscribe, routing_policy, channel_capacity, subscribe_exclusive.
    rewrite run_bind, (run_register_exclusive 4 users start (mkMpsc [] 4 1 true)) by reflexivity.
    by rewrite (register_inner_free (inner start) users (Single (S (next_id start))) users_free). }
  apply (exclusive_delivery 4 users start subscribed _ _
    [(a_client, ping); (a_client, force_in_out ping users)] start_calm start_wf
    ltac:(unfold valid_capacity, max_permits; lia) ltac:(discriminate) Hs);
    [|vm_compute; discriminate].
  repeat constructor; exists users; split_and!; vm_compute; reflexivity.
Defined.

(** A client whose waiter map is empty. *)
Definition asking : World := set_waiter_maps {[5 := ∅]} subscribed.

Lemma request_answered_witness :
  exists w1 p r, run (BrokerClient_request a_client ping) asking = Blocked w1 p /\
    waiter_map 5 w1 !! ping_id = Some r /\
    exists w3, run p (deliver_reply 5 ping w1) = Done w3 (Ok ping).
Proof.
  assert (from_utf8 (Protocol.address ping) = Ok users) as E1 by (vm_compute; reflexivity).
  assert (lookup_inner (inner asking) users = Some (Single 1)) as E2 by (vm_compute; reflexivity).
  assert (target_sender (Single 1) asking = Some 0%nat) as E3 by (vm_compute; reflexivity).
  assert (is_Some (waiter_maps asking !! 5)) as Hm by (eexists; apply (lookup_singleton_eq 5)).
  assert (waiter_map 5 asking !! ping_id = None) as Hw by (vm_compute; reflexivity).
  pose proof (request_answered a_client ping asking users (Single 1) 0%nat (mkMpsc [] 4 1 true)
    E1 E2 E3 eq_refl eq_refl ltac:(vm_compute; reflexivity) ltac:(simpl; lia)
    ltac:(vm_compute; reflexivity) Hm Hw) as (w1 & p & q & r & Hr & _ & _ & _ & _ & _ & _ & Hw1 & Hd).
  exists w1, p, r. split; [exact Hr|]. split; [exact Hw1|].
  destruct (Hd ping w1 eq_refl Hw1 eq_refl) as (w3 & H3 & _). exists w3. exact H3.
Defined.
End Witnesses.
