(* ===== verification/PublisherProps.v ===== *)
(** * PublisherProps: cached endpoints

    When a cached endpoint is valid, how a publisher resolves and caches one, and what it does when
    the connection turns out to be closed. *)

From S2P Require Import Prelude.
From S2P Require Import Utf8.
From S2P Require Import Str.
From S2P Require Import Patterns.
From S2P Require Import PatternFacts.
From S2P Require Import Config.
From S2P Require Import RadixIface.
From S2P Require Import ChanIface.
From S2P Require Import Async.
From S2P Require Import Registry.
From S2P Require Import RegistryFacts.
From S2P Require Import RegistryProps.
From S2P Require Import Protocol.
From S2P Require Import World.
From S2P Require Import Channel.
From S2P Require Import Routing.
From S2P Require Import RegistryOps.
From S2P Require Import Subscriber.
From S2P Require Import ReplyDispatcher.
From S2P Require Import Transport.
From S2P Require Import Publisher.
From S2P Require Import Client.
From S2P Require Import RunFacts.
From S2P Require Import LifecycleProps.
From S2P Require Import MessagingProps.

Local Open Scope broker_scope.

Section Publishing.
Context {D : Deps}.
Implicit Types (w : World) (slot : slot_id) (tx : chan_id) (m : Message).
Implicit Types (ep : InMemoryEndpoint) (self : Publisher InMemoryTransport) (k : cache_id).

(** ** Validity *)

Definition target_closed (t : RouteTarget) w : bool :=
  match t with
  | Single slot =>
      match load_sender slot w with
      | Some tx => Sender_is_closed (M := Message) tx w
      | None => true
      end
  | LoadBalancedTarget group => LoadBalancedGroup_is_empty group w
  end.

Definition valid_now ep w : bool :=
  bool_decide (RouteTarget_version (target ep) w = cached_version ep) &&
  negb (target_closed (target ep) w).

Lemma run_is_closed t w : run (RouteTarget_is_closed t) w = Done w (target_closed t w).
Proof.
  destruct t as [s|g]; [|done]. cbn [RouteTarget_is_closed target_closed].
  unfold SubscriptionSlot_is_closed. rewrite run_read_bind. by destruct (load_sender s w).
Qed.

Lemma run_is_valid ep w : run (InMemoryEndpoint_is_valid ep) w = Done w (valid_now ep w).
Proof.
  unfold InMemoryEndpoint_is_valid, valid_now. rewrite run_read_bind.
  destruct (decide (RouteTarget_version (target ep) w = cached_version ep)) as [E|E].
  - rewrite bool_decide_eq_true_2 by done. by rewrite run_bind, run_is_closed.
  - by rewrite bool_decide_eq_false_2.
Qed.

Lemma u64_add_1_neq n : (0 <= n < 2 ^ 64)%Z -> u64_add n 1 <> n.
Proof.
  intros Hn. unfold u64_add. destruct (decide (n = 2 ^ 64 - 1)%Z) as [->|Hne].
  - by vm_compute.
  - rewrite Z.mod_small; lia.
Qed.

(** C28: a cached endpoint of an exclusive subscription is valid right after it was resolved,
    while the receiver lives; it is no longer once the subscription is removed or its sender
    replaced, since either gives the slot a new version, the counter's wrap-around included. *)
Theorem endpoint_validity slot tx c n w
    (Hslot : slots w !! slot = Some (mkSlot (Some tx) n)) (Hchan : chans w !! tx = Some c)
    (Hn : (0 <= n < 2 ^ 64)%Z) :
  exists ep, run (InMemoryEndpoint_new (Single slot)) w = Done w ep /\
    run (InMemoryEndpoint_is_valid ep) w = Done w (receiver (mpsc_look c)) /\
    (exists w', run (mark_removed slot) w = Done w' tt /\
      run (InMemoryEndpoint_is_valid ep) w' = Done w' false) /\
    (forall tx', exists w', run (SubscriptionSlot_update slot tx') w = Done w' tt /\
      load_sender slot w' = Some tx' /\
      run (InMemoryEndpoint_is_valid ep) w' = Done w' false).
Proof.
  eexists. split; [reflexivity|]. rewrite run_is_valid. unfold valid_now.
  cbn [target cached_version RouteTarget_version target_closed].
  assert (load_version slot w = n) as Hv by (unfold load_version; by rewrite Hslot).
  assert (forall w' s', slots w' !! slot = Some (mkSlot s' (u64_add n 1)) ->
    run (InMemoryEndpoint_is_valid (mkEndpoint (Single slot) (load_version slot w))) w' =
    Done w' false) as Hstale.
  { intros w' s' Hs'. rewrite run_is_valid. unfold valid_now.
    cbn [target cached_version RouteTarget_version].
    rewrite bool_decide_eq_false_2; [done|]. rewrite Hv. unfold load_version. rewrite Hs'.
    by apply u64_add_1_neq. }
  split_and!.
  - rewrite bool_decide_eq_true_2 by done. unfold load_sender. rewrite Hslot.
    cbn [mbind option_bind World.sender]. unfold Sender_is_closed. cbn [get_channels message_channels].
    by rewrite Hchan, mpsc_is_closed_spec, negb_involutive.
  - eexists. split; [apply run_mark_removed|]. eapply Hstale. by apply (removed_sender slot w _ Hslot).
  - intros tx'. set (w' := on_slot bump_version slot (store_sender (Some tx') slot w)).
    assert (slots w' !! slot = Some (mkSlot (Some tx') (u64_add n 1))) as Hs'.
    { unfold w', store_sender. rewrite Hslot. simpl. by rewrite !lookup_alter_eq, Hslot. }
    exists w'. split; [reflexivity|]. split; [unfold load_sender; by rewrite Hs'|by eapply Hstale].
Qed.

(** ** Resolving *)

Lemma run_valid_cached k w :
  run (valid_cached (E := InMemoryEndpoint) k) w =
    Done w (match caches w !! k ≫= rw_value with
            | Some ep => if valid_now ep w then Some (mkResolved ep) else None
            | None => None
            end).
Proof.
  unfold valid_cached. rewrite run_read_bind. cbn [get_caches in_memory_caches].
  destruct (caches w !! k ≫= rw_value) as [ep|]; [|done].
  rewrite run_bind. unfold ResolvedEndpoint_is_valid.
  cbn [endpoint_is_valid in_memory_endpoint resolved_inner ResolvedEndpoint_new].
  rewrite run_is_valid. by destruct (valid_now ep w).
Qed.

Lemma run_cache_lock_bind {B} k l l' f (g : unit -> proc World B) w :
  caches w !! k = Some l -> f l = Some l' ->
  run (bind (cache_lock (E := InMemoryEndpoint) k f) g) w =
  run (g tt) (set_caches (<[k := l']> (caches w)) w).
Proof. intros Hl Hf. unfold cache_lock, await. cbn. rewrite Hl. cbn. by rewrite Hf. Qed.

(** A change of the caches alone. *)
Definition recached w w' : Prop := exists cs, w' = set_caches cs w.

Lemma valid_now_caches ep cs w : valid_now ep (set_caches cs w) = valid_now ep w.
Proof. done. Qed.

(** The cell of a cache nobody has locked. *)
Definition idle (x : option InMemoryEndpoint) : rwlock (option InMemoryEndpoint) :=
  mkRwLock x 0 false false.

Lemma run_update_bind {B} k f (g : unit -> proc World B) w :
  run (bind (cache_update (E := InMemoryEndpoint) k f) g) w =
  run (g tt) (set_caches (alter f k (caches w)) w).
Proof. done. Qed.

Lemma run_get_or_resolve self x w
    (Hcell : caches w !! cached_endpoint self = Some (idle x)) :
  exists w', recached w w' /\
    match (x ≫= fun ep => if valid_now ep w then Some ep else None),
          lookup_inner (inner w) (address self) with
    | Some ep, _ =>
        run (get_or_resolve_endpoint self) w = Done w' (Ok (mkResolved ep)) /\
        caches w' !! cached_endpoint self = Some (idle x)
    | None, Some t =>
        let ep := mkEndpoint t (RouteTarget_version t w) in
        run (get_or_resolve_endpoint self) w = Done w' (Ok (mkResolved ep)) /\
        caches w' !! cached_endpoint self = Some (idle (Some ep))
    | None, None =>
        run (get_or_resolve_endpoint self) w = Done w' (Err (RecipientNotFound (address self))) /\
        caches w' !! cached_endpoint self = Some (idle x)
    end.
Proof.
  unfold get_or_resolve_endpoint. set (k := cached_endpoint self) in *.
  erewrite run_cache_lock_bind by (done || reflexivity).
  set (w1 := set_caches _ w).
  assert (caches w1 !! k = Some (mkRwLock x 1 false false)) as H1 by apply lookup_insert_eq.
  rewrite run_bind, run_valid_cached, H1. cbn [mbind option_bind rw_value].
  rewrite run_update_bind.
  set (w2 := set_caches _ w1).
  assert (caches w2 !! k = Some (idle x)) as H2.
  { unfold w2. simpl. by rewrite lookup_alter_eq, lookup_insert_eq. }
  assert (recached w w2) as R2 by (by eexists).
  set (found := x ≫= fun ep => if valid_now ep w then Some ep else None).
  assert (match x with
          | Some ep => if valid_now ep w1 then Some (mkResolved ep) else None
          | None => None
          end = mkResolved <$> found) as ->.
  { unfold found. destruct x as [ep|]; [|done]. simpl.
    change (valid_now ep w1) with (valid_now ep w). by destruct (valid_now ep w). }
  destruct found as [ep|] eqn:Hfound.
  { exists w2. split; [done|]. by destruct (lookup_inner (inner w) (address self)). }
  cbn [fmap option_fmap option_map resolve in_memory_transport].
  rewrite run_bind, run_resolve. change (inner w2) with (inner w).
  destruct (lookup_inner (inner w) (address self)) as [t|]; [|by exists w2].
  erewrite run_cache_lock_bind; [|exact H2|reflexivity]. set (w3 := set_caches _ w2).
  assert (caches w3 !! k = Some (mkRwLock x 0 true false)) as H3 by apply lookup_insert_eq.
  assert (forall v l, recached w v -> caches v !! k = Some l -> rw_value l = x ->
    run (valid_cached (E := InMemoryEndpoint) k) v = Done v None) as Hstill.
  { intros v l [cs ->] Hl Hx. rewrite run_valid_cached, Hl. cbn [mbind option_bind]. rewrite Hx.
    unfold found in Hfound. destruct x as [ep|]; [|done]. simpl in Hfound.
    rewrite valid_now_caches. by destruct (valid_now ep w). }
  rewrite run_bind, (Hstill w3 _ ltac:(by eexists) H3 eq_refl).
  erewrite run_cache_lock_bind; [|exact H3|reflexivity]. set (w4 := set_caches _ w3).
  assert (caches w4 !! k = Some (mkRwLock x 0 false true)) as H4 by apply lookup_insert_eq.
  rewrite run_bind, (Hstill w4 _ ltac:(by eexists) H4 eq_refl).
  rewrite !run_update_bind. set (w5 := set_caches _ w4). set (w6 := set_caches _ w5).
  exists w6. split; [by eexists|]. split; [reflexivity|].
  unfold w6, w5. simpl. by rewrite !lookup_alter_eq, lookup_insert_eq.
Qed.

(** A publisher resolves its own address. With a valid endpoint in its cache it returns that
    one and leaves the registry alone; otherwise it looks its address up, and caches the endpoint
    it finds; an address without a route is an error. *)
Theorem publisher_resolve_spec self x w
    (Hcell : caches w !! cached_endpoint self = Some (idle x)) :
  exists w', recached w w' /\
    match (x ≫= fun ep => if valid_now ep w then Some ep else None),
          lookup_inner (inner w) (address self) with
    | Some ep, _ =>
        run (get_or_resolve_endpoint self) w = Done w' (Ok (mkResolved ep)) /\
        caches w' !! cached_endpoint self = Some (idle x)
    | None, Some t =>
        let ep := mkEndpoint t (RouteTarget_version t w) in
        run (get_or_resolve_endpoint self) w = Done w' (Ok (mkResolved ep)) /\
        caches w' !! cached_endpoint self = Some (idle (Some ep))
    | None, None =>
        run (get_or_resolve_endpoint self) w = Done w' (Err (RecipientNotFound (address self))) /\
        caches w' !! cached_endpoint self = Some (idle x)
    end.
Proof. by apply run_get_or_resolve. Qed.

(** C27: a publisher whose cache is empty sends a message to the target of its own address,
    whatever address the message carries: it is queued there, and the endpoint stays cached; when
    the receiver has gone the send fails and the cache is empty again, so that the next send
    resolves anew. *)
Theorem publisher_send_spec self m t tx v w
    (Hcell : caches w !! cached_endpoint self = Some (idle None))
    (Hroute : lookup_inner (inner w) (address self) = Some t)
    (Hsender : target_sender t w = Some tx) (Hview : chan_view tx w = Some v)
    (Hroom : (0 < free v)%Z) :
  exists w', chan_view tx w' =
      Some (if receiver v then set_queue (queue v ++ [m]) v else v) /\
    run (Publisher_send self m) w =
      Done w' (if receiver v then Ok tt else Err ConnectionClosed) /\
    caches w' !! cached_endpoint self =
      Some (idle (if receiver v then Some (mkEndpoint t (RouteTarget_version t w)) else None)).
Proof.
  unfold Publisher_send.
  destruct (run_get_or_resolve self None w Hcell) as (w1 & [cs ->] & Hr).
  cbn [mbind option_bind] in Hr. rewrite Hroute in Hr. cbv zeta in Hr. destruct Hr as [Hr Hc].
  rewrite run_bind, Hr. cbn [send_or_invalidate].
  unfold send_or_invalidate. cbn [send_to in_memory_transport].
  unfold InMemoryTransport_send_to, ResolvedEndpoint_send.
  cbn [endpoint_send in_memory_endpoint resolved_inner]. unfold InMemoryEndpoint_send.
  cbn [World.target]. rewrite run_bind, run_target_send.
  pose proof (run_send_to_slot (target_slot t (set_caches cs w)) tx m (set_caches cs w) v) as Hs.
  cbv zeta in Hs. specialize (Hs Hsender Hview).
  set (k := cached_endpoint self) in *. set (ep := mkEndpoint t (RouteTarget_version t w)) in *.
  destruct (receiver v); cbn [negb] in Hs.
  - rewrite decide_True in Hs by done. destruct Hs as (w' & Hrun & Hsent & _ & _ & Hcs & _).
    rewrite Hrun. exists w'. split; [done|]. split; [done|]. by rewrite Hcs.
  - destruct Hs as (w' & Hrun & Hsent & _ & _ & Hcs & _). rewrite Hrun.
    unfold invalidate_cache. cbn [bind]. rewrite run_bind.
    erewrite run_cache_lock_bind; [|by rewrite Hcs|reflexivity]. rewrite run_update_bind.
    unfold cache_update. rewrite run_write. cbn [run].
    eexists. split; [|split; [reflexivity|]]; [exact Hsent|].
    simpl. by rewrite !lookup_alter_eq, lookup_insert_eq.
Qed.
End Publishing.

(** ** Witnesses *)

Section Witnesses.
(** A publisher for [users] with an empty cache, in the world of one exclusive subscriber. *)
Definition cached : World := set_caches {[8 := idle None]} subscribed.

Definition a_publisher : Publisher InMemoryTransport :=
  mkPublisher users mkInMemoryTransport (bs "me") (mkDispatcher 5 6) BrokerConfig_default 8.

Lemma cached_cell : caches cached !! cached_endpoint a_publisher = Some (idle None).
Proof. apply (lookup_singleton_eq 8). Qed.

Lemma endpoint_validity_witness :
  exists ep, run (InMemoryEndpoint_is_valid ep) subscribed = Done subscribed true /\
    exists w', run (mark_removed 1) subscribed = Done w' tt /\
      run (InMemoryEndpoint_is_valid ep) w' = Done w' false.
Proof.
  assert (slots subscribed !! 1 = Some (mkSlot (Some 0%nat) 1)) as Hs by (vm_compute; reflexivity).
  assert (chans subscribed !! 0 = Some (mkMpsc [] 4 1 true)) as Hc by (vm_compute; reflexivity).
  pose proof (endpoint_validity 1 0 _ 1 subscribed Hs Hc ltac:(lia)) as (ep & _ & Hv & Hr & _).
  exists ep. split; [exact Hv|exact Hr].
Defined.

Lemma publisher_resolve_spec_witness :
  exists w', run (get_or_resolve_endpoint a_publisher) cached =
      Done w' (Ok (mkResolved (mkEndpoint (Single 1) 1))) /\
    caches w' !! 8 = Some (idle (Some (mkEndpoint (Single 1) 1))).
Proof.
  pose proof (publisher_resolve_spec a_publisher None cached cached_cell) as (w' & _ & Hr).
  assert (lookup_inner (inner cached) (address a_publisher) = Some (Single 1)) as E
    by (vm_compute; reflexivity).
  assert (RouteTarget_version (Single 1) cached = 1%Z) as Ev by (vm_compute; reflexivity).
  rewrite E in Hr. cbv zeta in Hr. cbn [mbind option_bind] in Hr. rewrite Ev in Hr.
  exists w'. exact Hr.
Defined.

Lemma publisher_send_spec_witness :
  exists w', run (Publisher_send a_publisher ping) cached = Done w' (Ok tt) /\
    chan_view 0 w' = Some (mkMpsc [ping] 4 1 true).
Proof.
  assert (lookup_inner (inner cached) (address a_publisher) = Some (Single 1)) as E
    by (vm_compute; reflexivity).
  assert (target_sender (Single 1) cached = Some 0%nat) as Es by (vm_compute; reflexivity).
  assert (chan_view 0 cached = Some (mkMpsc [] 4 1 true)) as Ev by (vm_compute; reflexivity).
  pose proof (publisher_send_spec a_publisher ping _ 0 _ cached cached_cell E Es Ev ltac:(done))
    as (w' & Hv & Hr & _).
  exists w'. split; [exact Hr|exact Hv].
Defined.
End Witnesses.
