(* ===== verification/PublisherConc.v ===== *)
(** * PublisherConc: one publisher used by many threads

    The cache of a publisher is behind an upgradable lock. Threads that send and make requests
    with one publisher hold that lock as RwLock.v demands, so it cannot deadlock and is never held
    while a thread waits for a channel or a reply; and what the cache holds was resolved for the
    publisher's own address, whatever happens in between. *)

From S2P Require Import Prelude.
From S2P Require Import Config.
From S2P Require Import Protocol.
From S2P Require Import RadixIface.
From S2P Require Import ChanIface.
From S2P Require Import Async.
From S2P Require Import Mutex.
From S2P Require Import Preserve.
From S2P Require Import Registry.
From S2P Require Import RegistryProps.
From S2P Require Import World.
From S2P Require Import Channel.
From S2P Require Import Routing.
From S2P Require Import RegistryOps.
From S2P Require Import Subscriber.
From S2P Require Import ReplyDispatcher.
From S2P Require Import Transport.
From S2P Require Import Publisher.
From S2P Require Import Client.
From S2P Require Import Quiet.
From S2P Require Import Typing.
From S2P Require Import RwLock.
From S2P Require Import LifecycleProps.
From S2P Require Import MessagingProps.
From S2P Require Import PublisherProps.

Local Open Scope broker_scope.

Section Conc.
Context {D : Deps}.
Implicit Types (w : World) (self : Publisher InMemoryTransport) (k : cache_id).

(** ** Operations that leave the caches alone *)

Definition cell_of k w : option (rwlock (option InMemoryEndpoint)) := caches w !! k.

Abbreviation aloof_at k := (aloof (cell_of k)).

Lemma aloof_act {A} k b (f : World -> World * A) :
  (forall w, caches (f w).1 = caches w) -> aloof_at k b (act f).
Proof.
  intros Hf. split; [done|]. intros w. specialize (Hf w). destruct (f w). split; [|done].
  unfold cell_of. simpl in Hf. by rewrite Hf.
Qed.

Lemma aloof_read {A} k b (f : World -> A) : aloof_at k b (read f).
Proof. by apply aloof_act. Qed.

Lemma aloof_write k b (f : World -> World) :
  (forall w, caches (f w) = caches w) -> aloof_at k b (write f).
Proof. intros Hf. by apply aloof_act. Qed.

Lemma aloof_await {A} k (f : World -> option (World * A)) :
  (forall w w' a, f w = Some (w', a) -> caches w' = caches w) -> aloof_at k true (await f).
Proof.
  intros Hf. split; [by intros g w [= <-]|]. intros w.
  destruct (f w) as [[w' a]|] eqn:E; [|done]. split; [|done]. unfold cell_of. by rewrite (Hf _ _ _ E).
Qed.

Lemma aloof_lookup k b a : aloof_at k b (lookup a).
Proof. apply aloof_read. Qed.

Lemma aloof_resolve k t a : aloof_at k true (InMemoryTransport_resolve t a).
Proof.
  unfold InMemoryTransport_resolve, InMemoryEndpoint_new.
  apply aloof_bind; [apply aloof_lookup|]. intros [c|]; [|done].
  apply aloof_bind; [|done]. apply aloof_bind; [apply aloof_read|done].
Qed.

Lemma caches_poll {M A} `{!Channels M} (f : Chan M -> option (A * Chan M)) i w w' a :
  (forall m w, caches (set_channels (M := M) m w) = caches w) ->
  poll_channel i f w = Some (w', a) -> caches w' = caches w.
Proof.
  intros Hm. unfold poll_channel. destruct (get_channels w !! i) as [c|]; [|done]. simpl.
  destruct (f c) as [[x c']|]; [|done]. intros [= <- _]. apply Hm.
Qed.

Lemma aloof_target_send k t m : aloof_at k true (RouteTarget_send t m).
Proof.
  assert (forall slot, aloof_at k true (send_to_slot slot m)) as Hs.
  { intros slot. unfold send_to_slot. apply aloof_bind.
    - apply aloof_act. intros w. unfold guard_sender. by destruct (load_sender slot w).
    - intros [tx|]; [|done]. apply aloof_bind.
      + apply aloof_owning; [done|]. apply aloof_await. intros w w' a.
        by apply (caches_poll (M := Message)).
      + intros r. apply aloof_bind; [by apply aloof_write|done]. }
  destruct t; unfold RouteTarget_send; [apply Hs|]. apply aloof_bind; [apply aloof_read|done].
Qed.

Lemma caches_reply_recv r w w' x : reply_recv r w = Some (w', x) -> caches w' = caches w.
Proof.
  unfold reply_recv. destruct (oneshots w !! r) as [o|]; [|done]. simpl.
  destruct (oneshot_recv o) as [[y o']|]; [|done]. by intros [= <- _].
Qed.

Lemma aloof_await_reply k t r : aloof_at k true (await_reply t r).
Proof.
  unfold await_reply. apply aloof_bind; [apply aloof_read|]. intros d. apply aloof_await.
  intros w w' x. cbv zeta. pose proof (caches_reply_recv r w) as Hr.
  destruct (reply_recv r w) as [[w1 y]|]; destruct (timeout_poll _ _ _) as [z|]; simpl; try done;
    intros [= <- _]; [by eapply Hr|done].
Qed.

Lemma caches_remove_entry j id w : caches (remove_entry j id w) = caches w.
Proof. unfold remove_entry. by destruct (waiter_map j w !! id). Qed.

Lemma aloof_guard_new k j id : aloof_at k true (WaiterGuard_new j id).
Proof.
  unfold WaiterGuard_new, new_oneshot, alloc. apply aloof_bind; [by apply aloof_act|].
  intros tx. apply aloof_act. intros w. by destruct (waiter_map j w !! id).
Qed.

(** Reading the cache and checking the endpoint neither waits nor panics. *)
Lemma aloof_valid_cached k j : aloof_at k false (valid_cached (E := InMemoryEndpoint) j) /\
  safe (valid_cached (E := InMemoryEndpoint) j).
Proof.
  split; unfold valid_cached; in_memory.
  - apply aloof_bind; [apply aloof_read|]. intros [ep|]; [|done]. apply aloof_bind; [|done].
    cbn [resolved_inner ResolvedEndpoint_new]. apply aloof_bind; [apply aloof_read|]. intros v.
    case_decide; [|done].
    apply aloof_bind; [|done]. destruct (target ep); [|apply aloof_read].
    cbn [RouteTarget_is_closed]. unfold SubscriptionSlot_is_closed.
    apply aloof_bind; [apply aloof_read|]. intros [tx|]; [apply aloof_read|done].
  - apply safe_bind; [done|]. intros [ep|]; [|done]. apply safe_bind; [|done].
    cbn [resolved_inner ResolvedEndpoint_new]. apply safe_bind; [done|]. intros v.
    case_decide; [|done]. apply safe_bind; [|done].
    destruct (target ep); [|done]. cbn [RouteTarget_is_closed]. unfold SubscriptionSlot_is_closed.
    apply safe_bind; [done|]. by intros [tx|].
Qed.

(** ** The lock operations *)

Lemma discipline_lock {B} k f ph ph' (K : unit -> proc World B) :
  (forall l, counted ph l ->
     match f l with Some l' => lock_step ph l ph' l' | None => may_wait ph l end) ->
  discipline (cell_of k) ph' (K tt) ->
  discipline (cell_of k) ph (bind (cache_lock (E := InMemoryEndpoint) k f) K).
Proof.
  intros Hf HK. unfold cache_lock, block. cbn [bind discipline]. split; [done|]. intros w l Hl Hc.
  cbn [get_caches in_memory_caches]. unfold cell_of in Hl. rewrite Hl. cbn [mbind option_bind].
  specialize (Hf l Hc). destruct (f l) as [l'|]; cbn [mbind option_bind]; [|done].
  exists ph', l'. split; [|done]. unfold cell_of. simpl. apply lookup_insert_eq.
Qed.

Lemma discipline_update {B} k f ph ph' (K : unit -> proc World B) :
  (forall l, counted ph l -> lock_step ph l ph' (f l)) -> discipline (cell_of k) ph' (K tt) ->
  discipline (cell_of k) ph (bind (cache_update (E := InMemoryEndpoint) k f) K).
Proof.
  intros Hf HK. unfold cache_update, write, act. cbn [bind discipline]. split; [done|].
  intros w l Hl Hc.
  exists ph', (f l). split; [|split; [by apply Hf|done]]. unfold cell_of in *. simpl.
  by rewrite lookup_alter_eq, Hl.
Qed.

Lemma discipline_last_update k f ph :
  (forall l, counted ph l -> lock_step ph l Free (f l)) ->
  discipline (cell_of k) ph (cache_update (E := InMemoryEndpoint) k f).
Proof.
  intros Hf. unfold cache_update, write, act. cbn [discipline]. split; [done|]. intros w l Hl Hc.
  exists Free, (f l). split; [|by split; [apply Hf|]]. unfold cell_of in *. simpl.
  by rewrite lookup_alter_eq, Hl.
Qed.

Section Lock.
Context {A : Type}.
Implicit Types l : rwlock A.

Ltac lock_cases :=
  intros [v r u x]; unfold counted, lock_step, may_wait, rw_ok, as_reader, as_upgrader, as_writer;
  rewrite ?decide_True, ?decide_False by done; simpl; destruct u, x; simpl;
  repeat case_decide; simpl; intuition (congruence || lia).

Lemma step_read l : counted Free l ->
  match rw_read l with Some l' => lock_step Free l Reading l' | None => may_wait Free l end.
Proof. revert l. unfold rw_read. lock_cases. Qed.

Lemma step_read_unlock l : counted Reading l -> lock_step Reading l Free (rw_read_unlock l).
Proof. revert l. lock_cases. Qed.

Lemma step_upgradable l : counted Free l ->
  match rw_upgradable_read l with
  | Some l' => lock_step Free l Upgrading l'
  | None => may_wait Free l
  end.
Proof. revert l. unfold rw_upgradable_read. lock_cases. Qed.

Lemma step_upgradable_unlock l :
  counted Upgrading l -> lock_step Upgrading l Free (rw_upgradable_unlock l).
Proof. revert l. lock_cases. Qed.

Lemma step_upgrade l : counted Upgrading l ->
  match rw_upgrade l with
  | Some l' => lock_step Upgrading l Writing l'
  | None => may_wait Upgrading l
  end.
Proof. revert l. unfold rw_upgrade. lock_cases. Qed.

Lemma step_write l : counted Free l ->
  match rw_write l with Some l' => lock_step Free l Writing l' | None => may_wait Free l end.
Proof. revert l. unfold rw_write, rw_upgrade. lock_cases. Qed.

Lemma step_set y l : counted Writing l -> lock_step Writing l Writing (rw_set y l).
Proof. revert l. lock_cases. Qed.

Lemma step_write_unlock l : counted Writing l -> lock_step Writing l Free (rw_write_unlock l).
Proof. revert l. lock_cases. Qed.
End Lock.

(** ** The publisher *)

Lemma discipline_valid {B} k ph (K : option (ResolvedEndpoint InMemoryEndpoint) -> proc World B) :
  (forall r, discipline (cell_of k) ph (K r)) -> discipline (cell_of k) ph (bind (valid_cached k) K).
Proof.
  intros HK. destruct (aloof_valid_cached k k) as [Ha Hs]. apply discipline_aloof; [|by right|done].
  by apply aloof_weaken.
Qed.

Lemma discipline_resolve self : discipline (cell_of (cached_endpoint self)) Free (get_or_resolve_endpoint self).
Proof.
  unfold get_or_resolve_endpoint. cbv zeta.
  eapply discipline_lock; [apply step_read|]. apply discipline_valid. intros fast.
  eapply discipline_update; [apply step_read_unlock|]. destruct fast as [ep|]; [done|].
  apply discipline_aloof; [apply aloof_resolve|by left|]. intros [ep|e]; [|done].
  eapply discipline_lock; [apply step_upgradable|]. apply discipline_valid. intros [ep'|].
  { eapply discipline_update; [apply step_upgradable_unlock|done]. }
  eapply discipline_lock; [apply step_upgrade|]. apply discipline_valid. intros [ep'|].
  { eapply discipline_update; [apply step_write_unlock|done]. }
  eapply discipline_update; [apply step_set|]. eapply discipline_update; [apply step_write_unlock|done].
Qed.

Lemma discipline_send_or_invalidate self ep m :
  discipline (cell_of (cached_endpoint self)) Free (send_or_invalidate self ep m).
Proof.
  unfold send_or_invalidate. apply discipline_aloof; [|by left|].
  { in_memory. apply aloof_target_send. }
  intros [u|[]]; try done. apply discipline_bind; [|done]. unfold invalidate_cache. cbv zeta.
  eapply discipline_lock; [apply step_write|]. eapply discipline_update; [apply step_set|].
  apply discipline_last_update, step_write_unlock.
Qed.

Lemma discipline_send self m :
  discipline (cell_of (cached_endpoint self)) Free (Publisher_send self m).
Proof.
  unfold Publisher_send. apply discipline_bind; [apply discipline_resolve|]. intros [ep|e]; [|done].
  apply discipline_send_or_invalidate.
Qed.

Lemma discipline_request self m :
  discipline (cell_of (cached_endpoint self)) Free (Publisher_request self m).
Proof.
  unfold Publisher_request. apply discipline_bind; [apply discipline_resolve|]. intros [ep|e]; [|done].
  unfold request_with, register_waiter. apply discipline_aloof; [apply aloof_guard_new|by left|].
  intros [[guard r]|e]; [|done]. apply discipline_guarded.
  { intros b w. unfold cell_of, drop_waiter, WaiterGuard_drop. by rewrite caches_remove_entry. }
  apply discipline_bind; [apply discipline_send_or_invalidate|]. intros [u|e]; [|done].
  eapply discipline_free, aloof_await_reply.
Qed.

(** What a thread does with the publisher, one use after another; it may drop the future of a use
    that it awaits. *)
Inductive use :=
| Sending (m : Message)
| Requesting (m : Message)
| Dropping (stop : World -> bool -> bool) (u : use).

Fixpoint use_proc self (u : use) : proc World unit :=
  match u with
  | Sending m => let! _ := Publisher_send self m in Ret tt
  | Requesting m => let! _ := Publisher_request self m in Ret tt
  | Dropping stop u => let! _ := abandon stop (use_proc self u) in Ret tt
  end.

Fixpoint uses self (us : list use) : proc World unit :=
  match us with
  | [] => Ret tt
  | u :: us => let! _ := use_proc self u in uses self us
  end.

Lemma discipline_uses self us : discipline (cell_of (cached_endpoint self)) Free (uses self us).
Proof.
  assert (forall u, discipline (cell_of (cached_endpoint self)) Free (use_proc self u)) as Hu.
  { induction u as [m|m|stop u IH]; cbn [use_proc]; (apply discipline_bind; [|done]);
      [apply discipline_send|apply discipline_request|by apply discipline_abandon]. }
  induction us as [|u us IH]; [done|]. cbn [uses]. by apply discipline_bind; [|intros []].
Qed.

(** ** Properties *)

(** C22: any number of threads may share one publisher: however their sends and requests
    interleave, and wherever their futures are dropped,
      its cache is never written while another thread holds it, and it cannot deadlock:
    from every moment, whatever channels are full and whatever replies are missing, steps of the
    threads lead to one at which the lock is free. *)
Theorem publisher_shared self x (threads : list (list use)) w w' ps'
    (Hcell : caches w !! cached_endpoint self = Some (rw_new x))
    (Hrun : rtc pool_step (w, uses self <$> threads) (w', ps')) :
  exists l, caches w' !! cached_endpoint self = Some l /\
    (rw_writer l = true -> rw_readers l = 0 /\ rw_upgradable l = false) /\
    exists w2 ps2 y, rtc pool_step (w', ps') (w2, ps2) /\
      caches w2 !! cached_endpoint self = Some (rw_new y).
Proof.
  assert (Forall (discipline (cell_of (cached_endpoint self)) Free) (uses self <$> threads)) as Hd.
  { apply list.Forall_fmap, list.Forall_true. intros us. apply discipline_uses. }
  pose proof (pool_locks_start (cell_of (cached_endpoint self)) w _ x Hcell Hd) as Hs.
  destruct (pool_locks_rtc _ _ _ _ _ Hs Hrun) as (phs & l & Hl).
  exists l. split; [exact (pl_cell _ _ _ _ Hl)|]. split; [apply (pl_ok _ _ _ _ Hl)|].
  destruct (lock_released _ _ _ _ _ Hl) as (w2 & ps2 & [y r u z] & Hr & Hc & Hr0 & Hu0 & Hw0).
  exists w2, ps2, y. split; [done|]. simpl in *. by subst.
Qed.

(** ** What the cache holds *)

Section OnRoute.
Context (Ts : RouteTarget -> Prop) (self : Publisher InMemoryTransport).

(** The publisher's address is routed to targets of [Ts] only, and its cache holds one of them
    if any. *)
Definition on_route w : Prop :=
  (forall t, lookup_inner (inner w) (address self) = Some t -> Ts t) /\
  (forall l ep, caches w !! cached_endpoint self = Some l -> rw_value l = Some ep ->
     Ts (target ep)).

Definition anyhow w w' : Prop := True.

#[local] Instance anyhow_preorder : PreOrder anyhow.
Proof. by split. Qed.

Abbreviation stays Q p w := (keeps on_route anyhow Q p w).

Lemma stays_bind {A B} (Q : A -> Prop) (R : B -> World -> Prop) p (k : A -> proc World B) w :
  (forall w, stays (fun a _ => Q a) p w) -> (forall a w, Q a -> stays R (k a) w) ->
    stays R (bind p k) w.
Proof. intros Hp Hk. eapply keeps_bind; [apply Hp|]. intros a w' _. apply Hk. Qed.

Lemma on_route_same w w' :
  same w w' -> cell_of (cached_endpoint self) w' = cell_of (cached_endpoint self) w ->
  on_route w -> on_route w'.
Proof.
  intros [_ Hi] Hc [Hr He]. unfold cell_of in Hc. split; [by rewrite Hi|by rewrite Hc].
Qed.

(** Steps that change neither the registry nor the caches. *)
Lemma stays_aloof {A} (p : proc World A) w :
  quiet true p -> aloof_at (cached_endpoint self) true p -> stays (fun _ _ => True) p w.
Proof.
  intros Hq Ha. revert w. induction p as [a| |d0 f IH] using proc_ind'; intros w; [done..|].
  apply keeps_first. intros w1 _ Hw. cbn [aloof quiet_proc] in *.
  destruct Hq as [Hdq Hq], Ha as [Hda Ha]. split.
  { intros g Hg. split; [|done]. eapply on_route_same; [by apply Hdq|by apply Hda|done]. }
  specialize (Hq w1). specialize (Ha w1).
  destruct (f w1) as [[w2 p']|] eqn:E; [|done]. destruct Hq as [Hs Hq], Ha as [Hc Ha].
  split; [|by eapply IH]. split; [|done]. by eapply on_route_same.
Qed.

Lemma stays_lock f w :
  (forall l l', f l = Some l' -> rw_value l' = rw_value l) ->
  stays (fun _ _ => True) (cache_lock (E := InMemoryEndpoint) (cached_endpoint self) f) w.
Proof.
  intros Hf. apply keeps_block. intros w1 w2 a _ [Hr Hc] E. split; [|done]. intros _. split; [|done].
  cbn in E. destruct (caches w1 !! cached_endpoint self) as [l|] eqn:El; [|done]. cbn in E.
  destruct (f l) as [l'|] eqn:Ef; [|done]. injection E as <- _. split; [exact Hr|].
  cbn. rewrite lookup_insert_eq. intros l2 ep [= <-]. rewrite (Hf _ _ Ef). by apply Hc.
Qed.

Lemma stays_update f w :
  (forall l ep, rw_value (f l) = Some ep -> rw_value l = Some ep \/ Ts (target ep)) ->
  stays (fun _ _ => True) (cache_update (E := InMemoryEndpoint) (cached_endpoint self) f) w.
Proof.
  intros Hf. apply keeps_act. intros w1 _ [Hr Hc]. split; [|done]. intros _. split; [|done].
  split; [exact Hr|]. cbn. rewrite lookup_alter_eq. intros l2 ep E.
  destruct (caches w1 !! cached_endpoint self) as [l|] eqn:El; [|done]. injection E as <-.
  intros [Hv|Ht]%Hf; [by eapply Hc|done].
Qed.

Definition resolved_on_route (r : result (ResolvedEndpoint InMemoryEndpoint) TransportError) : Prop :=
  forall ep, r = Ok ep -> Ts (target (resolved_inner ep)).

Lemma stays_valid w :
  stays (fun r _ => forall ep, r = Some ep -> Ts (target (resolved_inner ep)))
    (valid_cached (E := InMemoryEndpoint) (cached_endpoint self)) w.
Proof.
  unfold valid_cached. in_memory. eapply keeps_bind; [|].
  - apply (keeps_read _ _ (fun x _ => forall ep, x = Some ep -> Ts (target ep))).
    intros w1 _ [_ Hc] ep E. cbn in E.
    destruct (caches w1 !! cached_endpoint self) as [l|] eqn:El; [|done]. by eapply Hc.
  - intros [ep|] w1 _ Hep; [|done]. eapply (stays_bind (fun _ => True)); [|].
    + intros w2. eapply keeps_mono; [|apply stays_aloof]; [done| |].
      * quiet.
      * cbn [resolved_inner ResolvedEndpoint_new]. apply aloof_bind; [apply aloof_read|]. intros v.
        case_decide; [|done]. apply aloof_bind; [|done].
        destruct (target ep); [|apply aloof_read]. cbn [RouteTarget_is_closed].
        unfold SubscriptionSlot_is_closed.
        apply aloof_bind; [apply aloof_read|]. intros [tx|]; [apply aloof_read|done].
    + intros [] w2 _; [|done]. intros ep' [= <-]. by apply Hep.
Qed.

Lemma stays_resolve t w :
  stays (fun r _ => resolved_on_route r) (InMemoryTransport_resolve t (address self)) w.
Proof.
  unfold InMemoryTransport_resolve. eapply keeps_bind; [|].
  - apply (keeps_read _ _ (fun r _ => forall t, r = Some t -> Ts t)). intros w1 _ [Hr _]. exact Hr.
  - intros [c|] w1 _ Hc; [|done]. unfold InMemoryEndpoint_new.
    eapply (stays_bind (fun ep => target ep = c)).
    + intros w2. eapply keeps_bind; [by apply (keeps_read _ _ (fun _ _ => True))|].
      intros v w3 _ _. done.
    + intros ep w2 <- ep' [= <-]. by apply Hc.
Qed.

Lemma stays_get_or_resolve w :
  stays (fun r _ => resolved_on_route r) (get_or_resolve_endpoint self) w.
Proof.
  unfold get_or_resolve_endpoint. cbv zeta.
  apply (stays_bind (fun _ => True)); [intros; apply stays_lock|intros _ w1 _].
  { unfold rw_read. intros l l'. by destruct (rw_writer l); intros [= <-]. }
  eapply stays_bind; [intros; apply stays_valid|intros fast w2 Hfast].
  apply (stays_bind (fun _ => True)); [intros; apply stays_update; by left|intros _ w3 _].
  destruct fast as [ep|]; [intros ep' [= <-]; by apply Hfast|].
  eapply stays_bind; [intros; apply stays_resolve|intros [ep|e] w4 Hep; [|by intros ep'] ].
  apply (stays_bind (fun _ => True)); [intros; apply stays_lock|intros _ w5 _].
  { unfold rw_upgradable_read. intros l l'. by destruct (_ || _); intros [= <-]. }
  eapply stays_bind; [intros; apply stays_valid|intros updated w6 Hupd].
  destruct updated as [ep1|].
  { apply (stays_bind (fun _ => True)); [intros; apply stays_update; by left|].
    intros _ w7 _ ep' [= <-]. by apply Hupd. }
  apply (stays_bind (fun _ => True)); [intros; apply stays_lock|intros _ w7 _].
  { unfold rw_upgrade. intros l l'. by case_decide; intros [= <-]. }
  eapply stays_bind; [intros; apply stays_valid|intros updated w8 Hupd'].
  destruct updated as [ep1|].
  { apply (stays_bind (fun _ => True)); [intros; apply stays_update; by left|].
    intros _ w9 _ ep' [= <-]. by apply Hupd'. }
  apply (stays_bind (fun _ => True)); [intros; apply stays_update|intros _ w9 _].
  { intros l ep' [= <-]. right. by apply Hep. }
  apply (stays_bind (fun _ => True)); [intros; apply stays_update; by left|].
  intros _ w10 _ ep' [= <-]. by apply Hep.
Qed.

Lemma stays_send_or_invalidate ep m w :
  stays (fun _ _ => True) (send_or_invalidate self ep m) w.
Proof.
  unfold send_or_invalidate. in_memory. apply (stays_bind (fun _ => True)).
  - intros w2. apply stays_aloof; [apply quiet_target_send|apply aloof_target_send].
  - intros [u|[]] w2 _; try done. apply (stays_bind (fun _ => True)); [|done].
    intros w3. unfold invalidate_cache. cbv zeta.
    apply (stays_bind (fun _ => True)); [intros; apply stays_lock|intros _ w4 _].
    { unfold rw_write, rw_upgrade. intros l l'. destruct (_ || _); [done|].
      by case_decide; intros [= <-]. }
    apply (stays_bind (fun _ => True)); [intros; by apply stays_update|intros _ w5 _].
    apply stays_update. by left.
Qed.

Lemma stays_drop_waiter g r b w : update on_route anyhow w (drop_waiter g r b w).
Proof.
  intros Hw. split; [|done]. eapply on_route_same; [apply same_drop_waiter| |exact Hw].
  unfold cell_of, drop_waiter, WaiterGuard_drop. by rewrite caches_remove_entry.
Qed.

(** C23: a publisher never sends astray. As long as its address is routed to targets of some set
    only, whatever other threads do in between, sends and requests with this publisher among them,
    every endpoint it resolves, from its cache or anew, has a target of that set, and so has the
    endpoint a send or a request leaves in its cache, wherever its future is dropped. *)
Theorem publisher_stays_on_route w :
  keeps on_route anyhow (fun r _ => resolved_on_route r) (get_or_resolve_endpoint self) w /\
  forall m, keeps on_route anyhow any (Publisher_send self m) w /\
            keeps on_route anyhow any (Publisher_request self m) w.
Proof.
  split; [apply stays_get_or_resolve|]. intros m. unfold Publisher_send, Publisher_request.
  split; (eapply stays_bind; [apply stays_get_or_resolve|intros [ep|e] w1 _; [|done]]).
  { apply stays_send_or_invalidate. }
  unfold request_with, register_waiter. apply (stays_bind (fun _ => True)).
  { intros w2. apply stays_aloof; [apply quiet_guard_new|apply aloof_guard_new]. }
  intros [[g r]|e] w2 _; [|done]. apply keeps_guarded; [done|intros; apply stays_drop_waiter|].
  apply (stays_bind (fun _ => True)); [apply stays_send_or_invalidate|]. intros [u|e] w3 _; [|done].
  apply stays_aloof; [apply quiet_await_reply|apply aloof_await_reply].
Qed.
End OnRoute.
End Conc.

(** ** Witnesses *)

Section Witnesses.
(** Two threads with the publisher of PublisherProps.v: one sends, one makes a request and gives
    it up when it has to wait. *)
Definition sharing : list (list use) :=
  [[Sending ping]; [Dropping (fun _ ready => negb ready) (Requesting ping)]].

(** The first thread has taken the lock for reading. *)
Definition mid_use : World * list (proc World unit) :=
  match uses a_publisher [Sending ping] with
  | Act _ f => match f cached with
               | Some (w, p) => (w, [p;
                 uses a_publisher [Dropping (fun _ ready => negb ready) (Requesting ping)]])
               | None => (cached, [])
               end
  | _ => (cached, [])
  end.

Lemma publisher_shared_witness :
  rw_readers <$> caches mid_use.1 !! cached_endpoint a_publisher = Some 1 /\
  exists w2 ps2 y, rtc pool_step mid_use (w2, ps2) /\
    caches w2 !! cached_endpoint a_publisher = Some (rw_new y).
Proof.
  split; [vm_compute; reflexivity|].
  assert (rtc pool_step (cached, uses a_publisher <$> sharing) mid_use) as Hr.
  { apply rtc_once. exact (pool_act cached (uses a_publisher <$> sharing) 0 _ _ _ _ eq_refl eq_refl). }
  pose proof (publisher_shared a_publisher None sharing cached mid_use.1 mid_use.2 cached_cell Hr)
    as (l & _ & _ & Hfree).
  exact Hfree.
Defined.
End Witnesses.
