(* ===== verification/Lines.v ===== *)
(** * Lines: what threads do to the channels of subscriptions, step by step

    A line is the target of a route with its slot and channel. Sending, receiving and a publisher's
    private cache, as computations that follow a specification (Simulate.v) of which it matters
    here only what it says of the lines: [view] is all it sees, [touch] changes one line of it. *)

From S2P Require Import Prelude.
From S2P Require Import Utf8.
From S2P Require Import Str.
From S2P Require Import Patterns.
From S2P Require Import Config.
From S2P Require Import RadixIface.
From S2P Require Import ChanIface.
From S2P Require Import Async.
From S2P Require Import Mutex.
From S2P Require Import Simulate.
From S2P Require Import Registry.
From S2P Require Import RegistryProps.
From S2P Require Import Protocol.
From S2P Require Import World.
From S2P Require Import Channel.
From S2P Require Import Routing.
From S2P Require Import RegistryOps.
From S2P Require Import Subscriber.
From S2P Require Import ReplyDispatcher.
From S2P Require Import Transport.
From S2P Require Import Publisher.
From S2P Require Import Client.
From S2P Require Import LifecycleProps.
From S2P Require Import MessagingProps.
From S2P Require Import PublisherProps.

Local Open Scope broker_scope.

(** What is queued on a line, and how many sender handles there are. *)
Abbreviation line_view := (list Message * nat)%type.

Section Lines.
Context {D : Deps}.
Implicit Types (w : World) (m : Message) (k : cache_id) (i j : nat).

(** ** Definitions *)

(** What a thread sends with. *)
Inductive source :=
| FromClient (self : BrokerClient)
| FromPublisher (self : Publisher InMemoryTransport).

Definition source_send (x : source) m : proc World (result unit TransportError) :=
  match x with
  | FromClient self => BrokerClient_send self m
  | FromPublisher self => Publisher_send self m
  end.

(** A thread that sends its messages one after the other. *)
Fixpoint send_each (x : source) (ms : list Message)
    : proc World (list (result unit TransportError)) :=
  match ms with
  | [] => Ret []
  | m :: ms =>
      let! r := source_send x m in
      let! rs := send_each x ms in
      Ret (r :: rs)
  end.

Definition source_cell (x : source) : option cache_id :=
  match x with FromPublisher self => Some (cached_endpoint self) | FromClient _ => None end.

(** A target of the registry: its slot, its channel with its capacity, its address. *)
Record line := mkLine {
  line_target : RouteTarget;
  line_slot : slot_id;
  line_chan : chan_id;
  line_capacity : Z;
  line_address : bytes;
}.

(** The subscriber of an exclusive line. *)
Definition line_subscriber (l : line) : Subscriber := new_push (line_chan l) (line_address l).

(** No two threads share a publisher. *)
Definition private_caches (xs : list source) : Prop :=
  forall i i' x x' k, xs !! i = Some x -> xs !! i' = Some x' ->
    source_cell x = Some k -> source_cell x' = Some k -> i = i'.

Definition cell_at (xs : list source) i : option cache_id := xs !! i ≫= source_cell.

Lemma cell_at_inj xs i i' k :
  private_caches xs -> cell_at xs i = Some k -> cell_at xs i' = Some k -> i = i'.
Proof.
  intros Hp. unfold cell_at.
  destruct (xs !! i) as [x|] eqn:Hx, (xs !! i') as [x'|] eqn:Hx'; try done. simpl. by eapply Hp.
Qed.

(** ** One-value channels *)

(** All that is known of the one-value channels. *)
Definition replies_view w : gmap oneshot_id (oneshot_view Message) := oneshot_look <$> oneshots w.

Definition with_oneshot w : World :=
  bump_id (set_oneshots (<[next_id w := oneshot_channel]> (oneshots w)) w).

Lemma with_oneshot_view w :
  replies_view (with_oneshot w) = <[next_id w := view_oneshot]> (replies_view w).
Proof. unfold replies_view. simpl. by rewrite fmap_insert, oneshot_channel_spec. Qed.

Lemma on_oneshot_view w f g r :
  (forall o : One Message, oneshot_look (f o) = g (oneshot_look o)) ->
  replies_view (on_oneshot f r w) = alter g r (replies_view w).
Proof.
  intros Hf. unfold replies_view. apply map_eq. intros j. simpl. rewrite lookup_fmap.
  destruct (decide (j = r)) as [->|].
  - rewrite !lookup_alter_eq, lookup_fmap. destruct (oneshots w !! r); [|done]. simpl. by rewrite Hf.
  - by rewrite !lookup_alter_ne, lookup_fmap.
Qed.

(** What is sent goes into the channel; without a receiver it comes back. *)
Lemma reply_send_view r m w :
  exists os, (reply_send r m w).1 = set_oneshots os w /\
  replies_view (set_oneshots os w) = alter (fun o => (view_oneshot_send m o).2) r (replies_view w) /\
  (reply_send r m w).2 =
    match replies_view w !! r with Some o => (view_oneshot_send m o).1 | None => Err m end.
Proof.
  unfold reply_send, replies_view. rewrite lookup_fmap.
  destruct (oneshots w !! r) as [o|] eqn:Ho; simpl.
  - pose proof (oneshot_send_spec m o) as Hs. destruct (oneshot_send m o) as [res o'].
    eexists. split; [done|]. simpl. rewrite <-Hs. split; [|done]. apply map_eq. intros j.
    rewrite lookup_fmap.
    destruct (decide (j = r)) as [->|].
    + rewrite lookup_insert_eq, lookup_alter_eq, lookup_fmap, Ho. simpl. by rewrite <-Hs.
    + by rewrite lookup_insert_ne, lookup_alter_ne, lookup_fmap.
  - exists (oneshots w). split; [by destruct w|]. split; [|done]. apply map_eq. intros j.
    destruct (decide (j = r)) as [->|]; [by rewrite lookup_alter_eq, lookup_fmap, Ho|].
    by rewrite lookup_alter_ne.
Qed.

(** Polling a one-value channel whose sender has not given up. *)
Lemma reply_recv_poll r w :
  ~ (exists o, replies_view w !! r = Some o /\ value o = None /\ sender_alive o = false) ->
  match reply_recv r w with
  | Some (w', res) => exists os o m, w' = set_oneshots os w /\ res = Ok m /\
      replies_view w !! r = Some o /\ value o = Some m /\
      replies_view w' = <[r := mkOneshot None (sender_alive o) (receiver_alive o)]> (replies_view w)
  | None => match replies_view w !! r with
            | Some o => value o = None /\ sender_alive o = true
            | None => True
            end
  end.
Proof.
  unfold reply_recv, replies_view. rewrite lookup_fmap. intros Hlost.
  destruct (oneshots w !! r) as [o|] eqn:Ho; [|done].
  cbn [mbind option_bind fmap option_fmap option_map] in *.
  pose proof (oneshot_recv_spec o) as Hspec. unfold view_oneshot_recv in Hspec.
  destruct (oneshot_recv o) as [[res o']|]; cbn [mbind option_bind fmap option_fmap option_map snd].
  - destruct (value (oneshot_look o)) as [m|] eqn:Hv.
    + injection Hspec as -> Ho'. eexists _, (oneshot_look o), m. split_and!; [done..|].
      simpl. by rewrite fmap_insert, Ho'.
    + destruct Hlost. exists (oneshot_look o). split_and!; [done..|].
      by destruct (sender_alive (oneshot_look o)).
  - destruct (value (oneshot_look o)); [done|]. by destruct (sender_alive (oneshot_look o)).
Qed.

Section State.
Context (lines : list line) (accepts : nat -> Message -> Prop) (routes : RegistryInner Tree).

(** [accepts j] is what may be queued on line [j]. *)
Definition fits j (l : line) (q : list Message) : Prop :=
  (Z.of_nat (length q) <= line_capacity l)%Z /\ Forall (accepts j) q.

(** The slot of the target is known and has the sender of the channel. *)
Definition sends_on w (l : line) : Prop :=
  target_slot (line_target l) w = line_slot l /\ load_sender (line_slot l) w = Some (line_chan l).

Definition line_ok w j (l : line) : Prop :=
  sends_on w l /\ (0 < line_capacity l)%Z /\
  exists q n, chan_view (line_chan l) w = Some (mkMpsc q (line_capacity l) n true) /\ fits j l q.

Definition in_place w : Prop :=
  inner w = routes /\ forall j l, lines !! j = Some l -> line_ok w j l.

Definition line_state w (l : line) : line_view :=
  match chan_view (line_chan l) w with Some v => (queue v, senders v) | None => ([], 0%nat) end.

Definition lines_view w : list line_view := line_state w <$> lines.

(** The subscription is in place, nothing is queued. *)
Definition ready w (l : line) : Prop :=
  sends_on w l /\
  chan_view (line_chan l) w = Some (mkMpsc [] (line_capacity l) 1 true) /\
  (0 < line_capacity l)%Z.

(** Nothing that lines depend on has changed. *)
Definition undisturbed w w' : Prop :=
  inner w' = inner w /\ slots w' = slots w /\ groups w' = groups w /\ chans w' = chans w /\
  caches w' = caches w.

(** What a specification sees of the state, and what else its state must satisfy. *)
Class LineSpec {V} (view : World -> V) (touch : (line_view -> line_view) -> nat -> V -> V)
    (more : World -> Prop) : Prop := {
  view_chans w cs f j : lines_view (set_chans cs w) = alter f j (lines_view w) ->
    view (set_chans cs w) = touch f j (view w);
  view_caches w cs : view (set_caches cs w) = view w;
  more_chans w cs : more w -> more (set_chans cs w);
  more_caches w cs : more w -> more (set_caches cs w);
}.

(** ** Changes of one line *)

Lemma line_chan_at w j l :
  in_place w -> lines !! j = Some l ->
  sends_on w l /\ (0 < line_capacity l)%Z /\
  exists c q n, chans w !! line_chan l = Some c /\
    mpsc_look c = mkMpsc q (line_capacity l) n true /\ fits j l q /\ lines_view w !! j = Some (q, n).
Proof.
  intros [_ Hok] Hj. destruct (Hok j l Hj) as (Hs & Hcap & q & n & Hv & Hl). split_and!; [done..|].
  unfold chan_view in Hv. destruct (chans w !! line_chan l) as [c|] eqn:Hc; [|done].
  injection Hv as Hv. exists c, q, n. split_and!; [done..|]. unfold lines_view.
  rewrite list_lookup_fmap, Hj. simpl. unfold line_state, chan_view. by rewrite Hc; simpl; rewrite Hv.
Qed.

(** Lines that are ready are in place and empty. *)
Lemma ready_in_place w : inner w = routes -> Forall (ready w) lines -> in_place w.
Proof.
  intros Hi Hr. rewrite list.Forall_lookup in Hr. split; [done|]. intros j l Hj.
  destruct (Hr j l Hj) as (Hs & Hv & Hcap). split_and!; [done..|]. exists [], 1%nat.
  split; [done|]. split; [simpl; lia|constructor].
Qed.

Lemma ready_empty w :
  Forall (ready w) lines -> lines_view w = replicate (length lines) ([], 1%nat).
Proof.
  intros Hr. rewrite list.Forall_lookup in Hr. apply list_eq. intros j. unfold lines_view.
  rewrite list_lookup_fmap. destruct (lines !! j) as [l|] eqn:Hj; symmetry.
  - apply lookup_replicate. split; [|by eapply lookup_lt_Some].
    destruct (Hr j l Hj) as (_ & Hl & _). unfold line_state. by rewrite Hl.
  - apply lookup_replicate_None. by apply lookup_ge_None.
Qed.

(** What is known of the view of a line is known of its channel. *)
Lemma in_place_view w j l q n :
  in_place w -> lines !! j = Some l -> lines_view w !! j = Some (q, n) ->
  chan_view (line_chan l) w = Some (mkMpsc q (line_capacity l) n true).
Proof.
  intros [_ Hok] Hj Hl. destruct (Hok j l Hj) as (_ & _ & q' & n' & Hv & _).
  unfold lines_view in Hl. rewrite list_lookup_fmap, Hj in Hl. simpl in Hl.
  unfold line_state in Hl. rewrite Hv in Hl. by injection Hl as <- <-.
Qed.

Lemma in_place_empty w :
  in_place w -> lines_view w = replicate (length lines) ([], 1%nat) ->
  Forall (fun l => chan_view (line_chan l) w = Some (mkMpsc [] (line_capacity l) 1 true)) lines.
Proof.
  intros Hp Hv. apply list.Forall_lookup. intros j l Hj. apply (in_place_view w j); [done..|].
  rewrite Hv. apply lookup_replicate. split; [done|by eapply lookup_lt_Some].
Qed.

Lemma in_place_bounded w :
  in_place w ->
  Forall (fun l => exists v, chan_view (line_chan l) w = Some v /\ (0 <= free v)%Z) lines.
Proof.
  intros [_ Hok]. apply list.Forall_lookup. intros j l Hj.
  destruct (Hok j l Hj) as (_ & _ & q & n & Hl & Hq & _). eexists. split; [exact Hl|].
  unfold free. simpl. lia.
Qed.

Lemma on_chan_put w tx (c : Chan Message) (f : Chan Message -> Chan Message) :
  chans w !! tx = Some c -> on_chan f tx w = set_chans (<[tx := f c]> (chans w)) w.
Proof.
  intros Hc. unfold on_chan. f_equal. apply map_eq. intros k.
  destruct (decide (k = tx)) as [->|]; [by rewrite lookup_alter_eq, lookup_insert_eq, Hc|].
  by rewrite lookup_alter_ne, lookup_insert_ne.
Qed.

(** ** Specifications of threads *)

Section Following.
Context {V G : Type} (view : World -> V) (touch : (line_view -> line_view) -> nat -> V -> V).
Context (more : World -> Prop) `{!LineSpec view touch more}.
Context (gstep : V -> G -> V -> G -> Prop) (waits lost : V -> G -> Prop) (cell : nat ->
  option cache_id).
Hypothesis Hcells : forall i i' k, cell i = Some k -> cell i' = Some k -> i = i'.
Hypothesis Hlines : NoDup (line_chan <$> lines).
Implicit Types g : G.

Definition lines_inv w : Prop := in_place w /\ more w.

(** The cache of thread [i] is its own. *)
Definition own_cell i w : option (rwlock (option InMemoryEndpoint)) :=
  cell i ≫= fun k => caches w !! k.

Abbreviation follows_line := (follows lines_inv view own_cell gstep waits lost).

(** A step that leaves lines and caches alone. *)
Lemma undisturbed_step w w' :
  lines_inv w -> undisturbed w w' -> more w' ->
  lines_inv w' /\ (forall i, own_cell i w' = own_cell i w) /\ lines_view w' = lines_view w.
Proof.
  intros [[Hi Hl] _] (Ei & Es & Eg & Ec & Eca) Hm.
  split_and!; [split; [split|done]| |].
  - by rewrite Ei.
  - intros j l Hj. destruct (Hl j l Hj) as ([Ht Hs] & Hc & q & n & Hv & Hf).
    unfold line_ok, sends_on, target_slot, slot_of, load_sender, chan_view in *. rewrite Eg, Es, Ec.
    split_and!; [done..|]. by exists q, n.
  - intros i. unfold own_cell. by rewrite Eca.
  - unfold lines_view. apply list_fmap_ext. intros ? l _. unfold line_state, chan_view. by rewrite Ec.
Qed.

(** A step that leaves them alone, and is always enabled. *)
Lemma follows_undisturbed {A} i (Q : A -> G -> _ -> Prop) (f : World -> World * A) g y :
  (forall w, lines_inv w -> ~ lost (view w) g ->
     undisturbed w (f w).1 /\ more (f w).1 /\
     exists g', (view (f w).1 = view w /\ g' = g \/ gstep (view w) g (view (f w).1) g') /\
       Q (f w).2 g' y) ->
  follows_line i Q (act f) g y.
Proof.
  intros Hf. apply follows_act. intros w Hp Hy Hl. destruct (Hf w Hp Hl) as (Hu & Hm & Hg).
  destruct (undisturbed_step w (f w).1 Hp Hu Hm) as (? & Hown & _). split_and!; [done..|].
  by rewrite Hown, Hy.
Qed.

Lemma follows_new_oneshot i g (opened : oneshot_id -> G) y :
  (forall w, more w -> more (with_oneshot w)) ->
  (forall w, gstep (view w) g (view (with_oneshot w)) (opened (next_id w))) ->
  follows_line i (fun r g' y' => g' = opened r /\ y' = y) new_oneshot g y.
Proof.
  intros Hmore Hg. apply follows_undisturbed. intros w [_ Hm] _.
  split_and!; [done|by apply Hmore|]. exists (opened (next_id w)). split; [right; apply Hg|done].
Qed.

(** A new state of the channel of one line. *)
Lemma line_step w j l c c' q n (f : line_view -> line_view) :
  lines_inv w -> lines !! j = Some l -> chans w !! line_chan l = Some c ->
  mpsc_look c' = mkMpsc q (line_capacity l) n true -> fits j l q ->
  f (queue (mpsc_look c), senders (mpsc_look c)) = (q, n) ->
  let w' := set_chans (<[line_chan l := c']> (chans w)) w in
  lines_inv w' /\ view w' = touch f j (view w) /\ forall i, own_cell i w' = own_cell i w.
Proof.
  intros [[Hi Hok] Hm] Hj Hc Hc' Hq Hf. cbv zeta. set (w' := set_chans _ _).
  assert (forall j' l', lines !! j' = Some l' -> chan_view (line_chan l') w' =
    if decide (j = j') then Some (mpsc_look c') else chan_view (line_chan l') w) as Hview.
  { intros j' l' Hj'. unfold chan_view, w'. simpl. case_decide as E; [subst|].
    - assert (l' = l) as -> by congruence. by rewrite lookup_insert_eq.
    - rewrite lookup_insert_ne; [done|]. intros Heq. apply E.
      apply (NoDup_lookup (line_chan <$> lines) j j' (line_chan l)); [done|..];
        rewrite list_lookup_fmap; [by rewrite Hj|by rewrite Hj', Heq]. }
  split_and!; [split; [split|by apply more_chans]|apply view_chans|done]; [exact Hi|..].
  - intros j' l' Hj'. destruct (Hok j' l' Hj') as (Hs & Hcap & q1 & n1 & Hv & Hl).
    split_and!; [exact Hs|done|]. rewrite (Hview j' l' Hj'). case_decide as E; [subst|by eauto].
    assert (l' = l) as -> by congruence. rewrite Hc'. by exists q, n.
  - fold w'. apply list_eq. intros j'. rewrite list_lookup_alter. unfold lines_view.
    rewrite !list_lookup_fmap.
    case_decide as E; [subst j'|].
    + rewrite Hj. simpl. unfold line_state. rewrite (Hview j l Hj), decide_True by done.
      unfold chan_view. rewrite Hc. simpl. by rewrite Hc', Hf.
    + destruct (lines !! j') as [l'|] eqn:Hj'; [|done]. simpl. unfold line_state.
      by rewrite (Hview j' l' Hj'), decide_False.
Qed.

(** Sending [m] to line [j] takes the ghost from [g0] to [g3]: it is [g1] with a sender handle,
    where it may have to wait, and [g2] when the message is queued. *)
Inductive delivers j m g0 g3 : Prop :=
| delivers_by g1 g2
    (Hgrab : forall w, gstep (view w) g0 (touch (fun x => (x.1, S x.2)) j (view w)) g1)
    (Hput : forall w, gstep (view w) g1 (touch (fun x => (x.1 ++ [m], x.2)) j (view w)) g2)
    (Hrelease : forall w, gstep (view w) g2 (touch (fun x => (x.1, pred x.2)) j (view w)) g3)
    (Hwait : forall w m' q n, lines_view w !! j = Some (m' :: q, n) -> waits (view w) g1).

Lemma follows_send_to_slot i j l m g0 g3 y :
  lines !! j = Some l -> accepts j m -> delivers j m g0 g3 ->
  follows_line i (fun r g y' => r = Ok tt /\ g = g3 /\ y' = y) (send_to_slot (line_slot l) m) g0 y.
Proof.
  intros Hj Hacc [g1 g2 Hgrab Hput Hdrop Hwait]. unfold send_to_slot.
  apply (follows_bind _ _ _ _ _ _ _ (fun r g y' => r = Some (line_chan l) /\ g = g1 /\ y' = y)).
  { apply follows_act. intros w Hp Hy _.
    destruct (line_chan_at w j l (proj1 Hp) Hj) as (Hs & Hcap & c & q & n & Hc & Hv & Hq & _).
    unfold guard_sender. rewrite (proj2 Hs). cbn [fst snd]. rewrite (on_chan_put w _ c _ Hc).
    destruct (line_step w j l c (mpsc_clone_sender c) q (S n) (fun x => (x.1, S x.2)))
      as (? & -> & Hown); [done..| |done| |].
    - by rewrite mpsc_clone_sender_spec, Hv.
    - by rewrite Hv.
    - split_and!; [done|by intros; apply Hown|]. exists g1. rewrite Hown. by split; [right|]. }
  intros r g y' (-> & -> & ->).
  apply (follows_bind _ _ _ _ _ _ _ (fun r g y' => r = Ok tt /\ g = g2 /\ y' = y)).
  { apply follows_owning. unfold Sender_send. intros w Hp Hy _.
    destruct (line_chan_at w j l (proj1 Hp) Hj) as (Hs & Hcap & c & q & n & Hc & Hv & Hq & Hl).
    unfold poll_channel, put_channel. cbn [get_channels set_channels message_channels]. rewrite Hc.
    cbn [mbind option_bind].
    pose proof (mpsc_send_spec m c) as Hsend. rewrite Hv in Hsend.
    unfold view_send, view_try_send, free in Hsend. cbn [receiver queue max_cap negb] in Hsend.
    destruct (mpsc_send m c) as [[r c2]|]; case_decide; simpl in Hsend; try done.
    - injection Hsend as -> Hc2. cbn [mbind option_bind map_err]. destruct Hq as [Hq Hf].
      destruct (line_step w j l c c2 (q ++ [m]) n (fun x => (x.1 ++ [m], x.2)))
        as (? & Hview & Hown); [done..| | |].
      + split; [rewrite length_app; simpl; lia|apply list.Forall_app; by repeat constructor].
      + by rewrite Hv.
      + split_and!; [done|by intros; apply Hown|]. exists g2. rewrite Hown.
        split; [right; rewrite Hview; apply Hput|done].
    - destruct q as [|m' q]; [simpl in *; lia|]. by eapply Hwait. }
  intros r g y' (-> & -> & ->).
  apply (follows_bind _ _ _ _ _ _ _ (fun (_ : unit) g y' => g = g3 /\ y' = y));
    [|by intros ? ? ? [-> ->]].
  apply follows_act. intros w Hp Hy _.
  destruct (line_chan_at w j l (proj1 Hp) Hj) as (Hs & Hcap & c & q & n & Hc & Hv & Hq & _).
  cbn [fst snd]. rewrite (on_chan_put w _ c _ Hc).
  destruct (line_step w j l c (mpsc_drop_sender c) q (pred n) (fun x => (x.1, pred x.2)))
    as (? & -> & Hown); [done..| |done| |].
  - by rewrite mpsc_drop_sender_spec, Hv.
  - by rewrite Hv.
  - split_and!; [done|by intros; apply Hown|]. exists g3. rewrite Hown. by split; [right|].
Qed.

Lemma follows_target_send i j l m g0 g3 y :
  lines !! j = Some l -> accepts j m -> delivers j m g0 g3 ->
  follows_line i (fun r g y' => r = Ok tt /\ g = g3 /\
    y' = y) (RouteTarget_send (line_target l) m) g0 y.
Proof.
  intros Hj Hacc Hd. pose proof (follows_send_to_slot i j l m g0 g3 y Hj Hacc Hd) as Hsend.
  assert (forall w, lines_inv w -> target_slot (line_target l) w = line_slot l) as Hslot.
  { intros w [Hp _]. destruct (line_chan_at w j l Hp Hj) as [Hs _]. apply Hs. }
  destruct (line_target l) as [slot|gr]; cbn [RouteTarget_send target_slot] in *.
  - intros w Hp. rewrite (Hslot w Hp). by apply Hsend.
  - apply (follows_bind _ _ _ _ _ _ _ (fun r g y' => r = line_slot l /\ g = g0 /\ y' = y)).
    + apply follows_read. intros w Hp _. split_and!; [by apply Hslot|done..].
    + by intros r g y' (-> & -> & ->).
Qed.

(** Receiving from a line: the ghost takes the message; it is lost where the line is closed. *)
Lemma follows_recv i j l g (taken : Message -> G) y :
  lines !! j = Some l ->
  (forall w m q n, lines_view w !! j = Some (m :: q, n) ->
     gstep (view w) g (touch (fun _ => (q, n)) j (view w)) (taken m)) ->
  (forall w, lines_view w !! j = Some ([], 0%nat) -> lost (view w) g) ->
  (forall w n, lines_view w !! j = Some ([], S n) -> waits (view w) g) ->
  follows_line i (fun r g' y' => exists m, r = Some m /\ g' = taken m /\ y' = y /\ accepts j m)
    (Subscriber_recv (line_subscriber l)) g y.
Proof.
  intros Hj Htake Hclosed Hwait w Hp Hy Hlost.
  destruct (line_chan_at w j l (proj1 Hp) Hj) as (Hs & Hcap & c & q & n & Hc & Hv & Hq & Hl).
  unfold poll_channel, put_channel. cbn [get_channels set_channels message_channels]. rewrite Hc.
  cbn [mbind option_bind].
  pose proof (mpsc_recv_spec c) as Hrecv. rewrite Hv in Hrecv. unfold view_recv, view_try_recv in Hrecv.
  cbn [queue senders] in Hrecv. destruct q as [|m q].
  - destruct n as [|n]; [by destruct Hlost; apply Hclosed|].
    destruct (mpsc_recv c) as [[r c2]|]; [done|]. by eapply Hwait.
  - destruct (mpsc_recv c) as [[r c2]|]; [|done]. injection Hrecv as -> Hc2.
    destruct Hq as [Hq [Hm Hf]%list.Forall_cons].
    destruct (line_step w j l c c2 q n (fun _ => (q, n))) as (? & Hview & Hown); [done..| |done|].
    { split; [simpl in Hq; lia|done]. }
    cbn [mbind option_bind]. split_and!; [done|by intros; apply Hown|]. rewrite Hown. exists (taken m).
    split; [right; rewrite Hview; by apply Htake|by exists m].
Qed.

(** ** A publisher's cache *)

(** A change of the caches that touches only this thread's cell. *)
Lemma cache_step i k w cs :
  lines_inv w -> cell i = Some k -> (forall k', k' <> k -> cs !! k' = caches w !! k') ->
  lines_inv (set_caches cs w) /\ view (set_caches cs w) = view w /\
  (forall i', i' <> i -> own_cell i' (set_caches cs w) = own_cell i' w).
Proof.
  intros [Hp Hm] Hk Hcs. split_and!; [split; [exact Hp|by apply more_caches]|apply view_caches|].
  intros i' Hi'. unfold own_cell. destruct (cell i') as [k'|] eqn:Hk'; [|done]. simpl.
  apply Hcs. intros ->. apply Hi'. by eapply Hcells.
Qed.

Lemma follows_lock {B} i k (Q : B -> G -> _ -> Prop) K f l l' g :
  cell i = Some k -> f l = Some l' -> follows_line i Q (K tt) g (Some l') ->
  follows_line i Q (bind (cache_lock (E := InMemoryEndpoint) k f) K) g (Some l).
Proof.
  intros Hk Hf HK w Hp Hy _. unfold own_cell in Hy. rewrite Hk in Hy. simpl in Hy.
  cbn [get_caches put_caches in_memory_caches]. rewrite Hy. simpl. rewrite Hf. simpl.
  destruct (cache_step i k w (<[k := l']> (caches w))) as (? & ? & ?); [done..| |].
  { intros k' ?. by rewrite lookup_insert_ne. }
  split_and!; [done..|]. exists g. split; [by left|]. unfold own_cell. rewrite Hk. simpl.
  by rewrite lookup_insert_eq.
Qed.

Lemma follows_update {B} i k (Q : B -> G -> _ -> Prop) K f l g :
  cell i = Some k -> follows_line i Q (K tt) g (Some (f l)) ->
  follows_line i Q (bind (cache_update (E := InMemoryEndpoint) k f) K) g (Some l).
Proof.
  intros Hk HK w Hp Hy _. unfold own_cell in Hy. rewrite Hk in Hy. simpl in Hy.
  cbn [get_caches put_caches in_memory_caches].
  destruct (cache_step i k w (alter f k (caches w))) as (? & ? & ?); [done..| |].
  { intros k' ?. by rewrite lookup_alter_ne. }
  split_and!; [done..|]. exists g. split; [by left|]. unfold own_cell. rewrite Hk. simpl.
  by rewrite lookup_alter_eq, Hy.
Qed.

(** The checks of a cached endpoint only read. *)
Lemma follows_valid_cached {B} i k (Q : B -> G -> _ -> Prop) K l g :
  cell i = Some k ->
  (forall r, (forall ep, r = Some ep -> rw_value l = Some (resolved_inner ep)) ->
     follows_line i Q (K r) g (Some l)) ->
  follows_line i Q (bind (valid_cached (E := InMemoryEndpoint) k) K) g (Some l).
Proof.
  intros Hk HK. set (same := fun g' y => g' = g /\ y = Some l).
  apply (follows_bind _ _ _ _ _ _ _ (fun r g' y =>
    (forall ep, r = Some ep -> rw_value l = Some (resolved_inner ep)) /\ same g' y)).
  2: { intros r g' y (? & -> & ->). by apply HK. }
  unfold valid_cached.
  apply (follows_bind _ _ _ _ _ _ _ (fun x g' y => x = rw_value l /\ same g' y)).
  { apply follows_read. intros w _ Hy. unfold own_cell in Hy. rewrite Hk in Hy. simpl in *.
    by rewrite Hy. }
  intros x g' y (-> & -> & ->). destruct (rw_value l) as [ep|] eqn:Hl; [|done].
  apply (follows_bind _ _ _ _ _ _ _ (fun _ => same)).
  2: { intros b g' y [-> ->]. split; [|done]. intros ep'. destruct b; [|done]. by intros [= <-]. }
  unfold ResolvedEndpoint_is_valid.
  cbn [endpoint_is_valid in_memory_endpoint resolved_inner ResolvedEndpoint_new].
  unfold InMemoryEndpoint_is_valid.
  apply (follows_bind _ _ _ _ _ _ _ (fun _ => same)); [by apply follows_read|].
  intros v g' y [-> ->]. case_decide; [|done].
  apply (follows_bind _ _ _ _ _ _ _ (fun _ => same)); [|done].
  destruct (target ep) as [s|gr]; [|by apply follows_read]. cbn [RouteTarget_is_closed].
  unfold SubscriptionSlot_is_closed.
  apply (follows_bind _ _ _ _ _ _ _ (fun _ => same)); [by apply follows_read|].
  intros [tx|] g' y [-> ->]; [by apply follows_read|done].
Qed.

(** Looking an address up is silent. *)
Definition resolved_to (t : RouteTarget)
    (r : result (ResolvedEndpoint InMemoryEndpoint) TransportError) : Prop :=
  exists ep, r = Ok (mkResolved ep) /\ target ep = t.

Lemma follows_resolve i tr a t g y :
  lookup_inner routes a = Some t ->
  follows_line i (fun r g' y' => resolved_to t r /\ g' = g /\ y' = y)
    (InMemoryTransport_resolve tr a) g y.
Proof.
  intros Ha. unfold InMemoryTransport_resolve, lookup.
  apply (follows_bind _ _ _ _ _ _ _ (fun r g' y' => r = Some t /\ g' = g /\ y' = y)).
  { apply follows_read. intros w [[Hi _] _] _. by rewrite Hi. }
  intros r g' y' (-> & -> & ->). unfold InMemoryEndpoint_new.
  apply (follows_bind _ _ _ _ _ _ _ (fun ep g' y' => target ep = t /\ g' = g /\ y' = y)).
  - apply (follows_bind _ _ _ _ _ _ _ (fun _ g' y' => g' = g /\ y' = y)); [by apply follows_read|].
    by intros v g' y' [-> ->].
  - intros ep g' y' (? & -> & ->). split_and!; [|done..]. by exists ep.
Qed.

(** The endpoint a publisher sends to is on its route, and its cache comes to rest again. *)
Lemma follows_get_or_resolve i self t cached g :
  cell i = Some (cached_endpoint self) ->
  lookup_inner routes (address self) = Some t ->
  from_option (fun ep => target ep = t) True cached ->
  follows_line i (fun r g' y' => resolved_to t r /\ g' = g /\
      exists cached', y' = Some (idle cached') /\ from_option (fun ep => target ep = t) True cached')
    (get_or_resolve_endpoint self) g (Some (idle cached)).
Proof.
  intros Hk Ha Hc. unfold get_or_resolve_endpoint. set (k := cached_endpoint self) in *.
  assert (forall ep : ResolvedEndpoint InMemoryEndpoint,
    cached = Some (resolved_inner ep) -> resolved_to t (Ok ep)) as Hfound.
  { intros [ep] ->. by exists ep. }
  eapply follows_lock; [exact Hk|reflexivity|]. apply follows_valid_cached; [exact Hk|].
  intros fast Hfast. apply follows_update; [exact Hk|].
  destruct fast as [ep|]; [split_and!; [by apply Hfound, Hfast|done|by exists cached]|].
  eapply follows_bind; [by apply follows_resolve|].
  intros r g' y (Hr & -> & ->). destruct Hr as (ep & -> & Hep).
  eapply follows_lock; [exact Hk|reflexivity|]. apply follows_valid_cached; [exact Hk|].
  intros again Hagain. destruct again as [ep'|].
  { apply follows_update; [exact Hk|]. split_and!; [by apply Hfound, Hagain|done|by exists cached]. }
  eapply follows_lock; [exact Hk|reflexivity|]. apply follows_valid_cached; [exact Hk|].
  intros last Hlast. destruct last as [ep'|].
  { apply follows_update; [exact Hk|]. split_and!; [by apply Hfound, Hlast|done|by exists cached]. }
  apply follows_update; [exact Hk|]. apply follows_update; [exact Hk|].
  split_and!; [by exists ep|done|]. by exists (Some ep).
Qed.
(** ** Sending with a client or a publisher *)

(** Sent with [x], the message is routed to the line. *)
Definition goes_along (x : source) (l : line) m : Prop :=
  match x with
  | FromClient _ => exists a, from_utf8 (Protocol.address m) = Ok a /\
                              lookup_inner routes a = Some (line_target l)
  | FromPublisher self => lookup_inner routes (address self) = Some (line_target l)
  end.

(** The cache of a publisher is not locked, and what it holds is on its route. *)
Definition at_rest (x : source) (y : option (rwlock (option InMemoryEndpoint))) : Prop :=
  match x with
  | FromClient _ => True
  | FromPublisher self => exists cached, y = Some (idle cached) /\
      forall ep, cached = Some ep -> lookup_inner routes (address self) = Some (target ep)
  end.

Lemma follows_send_to i j l m g0 g3 y ep (tr : InMemoryTransport) :
  lines !! j = Some l -> accepts j m -> delivers j m g0 g3 -> target ep = line_target l ->
  follows_line i (fun r g y' => r = Ok tt /\ g = g3 /\ y' = y) (send_to tr (mkResolved ep) m) g0 y.
Proof.
  intros Hj Hacc Hd Hep. cbn. unfold InMemoryTransport_send_to, ResolvedEndpoint_send. cbn.
  unfold InMemoryEndpoint_send. rewrite Hep. by eapply follows_target_send.
Qed.

Lemma follows_client_send i j l m g0 g3 y self (tr : InMemoryTransport) :
  lines !! j = Some l -> accepts j m -> delivers j m g0 g3 -> goes_along (FromClient self) l m ->
  follows_line i (fun r g y' => r = Ok tt /\ g = g3 /\ y' = y) (Transport_send tr m) g0 y.
Proof.
  intros Hj Hacc Hd (a & Ha & Hr). unfold Transport_send, address_str. rewrite Ha.
  cbn [map_err resolve in_memory_transport]. eapply follows_bind; [by apply follows_resolve|].
  intros r g y' ((ep & -> & Hep) & -> & ->). by eapply follows_send_to.
Qed.

Lemma follows_publisher_resolve i l g y self m :
  cell i = Some (cached_endpoint self) -> goes_along (FromPublisher self) l m ->
  at_rest (FromPublisher self) y ->
  follows_line i (fun r g' y' => resolved_to (line_target l) r /\ g' = g /\
    at_rest (FromPublisher self) y')
    (get_or_resolve_endpoint self) g y.
Proof.
  intros Hk Hl (cached & -> & Hc). simpl in Hl.
  eapply follows_mono; [|apply (follows_get_or_resolve i self (line_target l)); [done|done|]].
  - intros r g' y' (Hr & -> & cached' & -> & Hc'). split_and!; [done|done|]. exists cached'.
    split; [done|]. intros ep ->. simpl in Hc'. congruence.
  - destruct cached as [ep|]; [|done]. specialize (Hc ep eq_refl). simpl. congruence.
Qed.

Lemma follows_send_or_invalidate i j l m g0 g3 y self ep :
  lines !! j = Some l -> accepts j m -> delivers j m g0 g3 -> target ep = line_target l ->
  follows_line i (fun r g y' => r = Ok tt /\ g = g3 /\ y' = y)
    (send_or_invalidate self (mkResolved ep) m) g0 y.
Proof.
  intros Hj Hacc Hd Hep. unfold send_or_invalidate.
  eapply follows_bind; [by eapply follows_send_to|]. by intros r g y' (-> & -> & ->).
Qed.

Lemma follows_source_send i j l m g0 g3 y x :
  lines !! j = Some l -> accepts j m -> delivers j m g0 g3 -> cell i = source_cell x ->
    goes_along x l m ->
  at_rest x y ->
  follows_line i (fun r g y' => r = Ok tt /\ g = g3 /\ at_rest x y') (source_send x m) g0 y.
Proof.
  intros Hj Hacc Hd Hk Hl Hy. destruct x as [self|self]; cbn [source_send].
  - unfold BrokerClient_send. eapply follows_mono; [|by eapply follows_client_send].
    by intros r g y' (-> & -> & ->).
  - unfold Publisher_send. eapply follows_bind; [by eapply follows_publisher_resolve|].
    intros r g y' ((ep & -> & Hep) & -> & Hy').
    eapply follows_mono; [|by eapply follows_send_or_invalidate]. by intros r g y1 (-> & -> & ->).
Qed.
End Following.
End State.
End Lines.
