(* ===== verification/ConcurrentDelivery.v ===== *)
(** * ConcurrentDelivery: clients, publishers and subscribers under any scheduler

    Threads that send with a client or with a publisher of their own, and exclusive subscribers
    that receive, all at once, step by step in any order, the channels as full as they get. Each
    thread follows a party of Delivery.v, so that whatever the scheduler does, every message
    arrives once and in the order of its sender, and nobody is left waiting. *)

From S2P Require Import Prelude.
From S2P Require Import Utf8.
From S2P Require Import Patterns.
From S2P Require Import Config.
From S2P Require Import RadixIface.
From S2P Require Import ChanIface.
From S2P Require Import Async.
From S2P Require Import Mutex.
From S2P Require Import Simulate.
From S2P Require Import Delivery.
From S2P Require Import Registry.
From S2P Require Import RegistryProps.
From S2P Require Import Protocol.
From S2P Require Import World.
From S2P Require Import Channel.
From S2P Require Import Routing.
From S2P Require Import RegistryOps.
From S2P Require Import Subscriber.
From S2P Require Import ReplyDispatcher.
From S2P Require Import Transport.
From S2P Require Import Publisher.
From S2P Require Import Client.
From S2P Require Import LifecycleProps.
From S2P Require Import MessagingProps.
From S2P Require Import PublisherProps.
From S2P Require Import EndToEnd.
From S2P Require Import Lines.

Local Open Scope broker_scope.

Section Delivering.
Context {D : Deps}.
Implicit Types (w : World) (m : Message) (k : cache_id) (i j : nat).

(** ** Definitions *)

(** A thread's source, and its messages, each with the number of the line it is for. *)
Abbreviation job := (source * list (nat * Message))%type.

(** What the threads of a pool report. *)
Abbreviation report := (list (result unit TransportError) + list (option Message))%type.

Definition sending (x : job) : proc World report :=
  let! rs := send_each x.1 x.2.*2 in Ret (inl rs).

Definition receiving (l : line) (n : nat) : proc World report :=
  let! got := recv_all (line_subscriber l) n in Ret (inr got).

(** How many messages the jobs have for a line. *)
Definition expected (jobs : list job) j : nat :=
  sum_list_with (fun t => length (labelled j t)) jobs.*2.

(** All the threads: the senders, and a subscriber for each line. *)
Definition threads (jobs : list job) (lines : list line) : list (proc World report) :=
  (sending <$> jobs) ++ imap (fun j l => receiving l (expected jobs j)) lines.

(** Each message of the job is routed to its line. *)
Definition routed (routes : RegistryInner Tree) (lines : list line) (x : job) : Prop :=
  Forall (fun e => exists l, lines !! e.1 = Some l /\ goes_along routes x.1 l e.2) x.2.

(** ** The threads and their parties *)

Section Pool.
Context (jobs : list job) (lines : list line) (routes : RegistryInner Tree).
Hypothesis Hprivate : private_caches jobs.*1.
Hypothesis Hlines : NoDup (line_chan <$> lines).

(** The specification of the threads sees the lines alone. *)
Abbreviation touch := (fun f j (v : list line_view) => alter f j v).

#[local] Instance delivery_spec : LineSpec lines (lines_view lines) touch (fun _ => True).
Proof. by split. Qed.

Abbreviation anything := (fun _ _ => True).
Abbreviation inv := (lines_inv lines anything routes (fun _ => True)).
Abbreviation own := (own_cell (cell_at jobs.*1)).
Abbreviation follows_line := (follows inv (lines_view lines) own move waits lost).

Lemma party_delivers j m t :
  delivers lines (lines_view lines) touch move waits j m
    (Between ((j, m) :: t)) (Between t).
Proof.
  apply (delivers_by _ _ _ _ _ _ _ _ _ (Holding ((j, m) :: t)) (Queued j t)).
  - intros w. apply move_grab.
  - intros w. apply move_put.
  - intros w. apply move_release.
  - intros w m' q n Hq. by exists m', q, n.
Qed.

Lemma follows_send_each i x t y :
  cell_at jobs.*1 i = source_cell x -> routed routes lines (x, t) -> at_rest routes x y ->
  follows_line i (fun rs g _ => rs = replicate (length t) (Ok tt) /\ g = Between [])
    (send_each x t.*2) (Between t) y.
Proof.
  intros Hi Ht. unfold routed in Ht. simpl in Ht. revert y.
  induction Ht as [|[j m] t (l & Hj & Hm) _ IH]; intros y Hy; [done|].
  cbn [fmap list_fmap send_each snd].
  eapply follows_bind.
  { eapply (follows_source_send lines anything routes _ touch _ _ _ _ _ (fun i i' k => cell_at_inj _ i i' k Hprivate)
      Hlines); [exact Hj|done|apply party_delivers|done..]. }
  intros r g y' (-> & -> & Hy').
  eapply follows_bind; [by apply IH|]. by intros rs g y1 (-> & ->).
Qed.

Lemma follows_recv_all i j l n got y :
  lines !! j = Some l ->
  follows_line i (fun rs g _ => exists ms, rs = Some <$> ms /\ g = Consumer j 0 (got ++ ms))
    (recv_all (line_subscriber l) n) (Consumer j n got) y.
Proof.
  intros Hj. revert got y. induction n as [|n IH]; intros got y; [exists []; by rewrite app_nil_r|].
  cbn [recv_all]. eapply follows_bind.
  { apply (follows_recv lines anything routes _ touch _ _ _ _ _ Hlines i j l _
      (fun m => Consumer j n (got ++ [m]))); [done|..].
    - intros w m q n'. apply move_take.
    - done.
    - intros w n' Hw. by exists n'. }
  intros r g y' (m & -> & -> & -> & _).
  eapply follows_bind; [by apply IH|]. intros rs g y1 (ms & -> & ->). exists (m :: ms).
  by rewrite <-app_assoc.
Qed.

(** What the report of thread [i] says when its party is in state [g]. *)
Definition reports i (r : report) (g : party) : Prop :=
  match r with
  | inl rs => exists x, g = Between [] /\ jobs !! i = Some x /\ rs = replicate (length x.2) (Ok tt)
  | inr got => exists j ms, g = Consumer j 0 ms /\ got = Some <$> ms
  end.

Lemma threads_follow w :
  in_place lines anything routes w -> lines_view lines w = replicate (length lines) ([], 1%nat) ->
  (forall i x, jobs !! i = Some x ->
     routed routes lines x /\ at_rest routes x.1 (own i w)) ->
  pool_follows inv (lines_view lines) own move waits lost reports (w, threads jobs lines)
    (replicate (length lines) ([], 1%nat), starting jobs.*2 (length lines)).
Proof.
  intros Hp Hv Hjobs. split; simpl; [done|by rewrite Hv|..].
  - unfold threads, starting. by rewrite !length_app, !length_fmap, length_imap, length_seq.
  - intros i p g. unfold threads, starting. rewrite !lookup_app_Some, !length_fmap.
    intros [Hp1|[Hi1 Hp1]] [Hg|[Hi2 Hg]].
    + apply list_lookup_fmap_Some in Hp1 as ([x t] & -> & Hx).
      rewrite !list_lookup_fmap, Hx in Hg. injection Hg as <-.
      destruct (Hjobs i _ Hx) as [Hr Hrest]. unfold sending.
      eapply follows_bind; [apply (follows_send_each i x t); [|done..]|].
      * unfold cell_at. by rewrite list_lookup_fmap, Hx.
      * intros rs g y [-> ->]. by exists (x, t).
    + apply lookup_lt_Some in Hp1. rewrite length_fmap in Hp1. lia.
    + apply lookup_lt_Some in Hg. rewrite !length_fmap in Hg. lia.
    + rewrite list_lookup_imap_Some in Hp1. destruct Hp1 as (l & Hl & ->).
      apply list_lookup_fmap_Some in Hg as (j & -> & [-> _]%lookup_seq).
      unfold receiving. eapply follows_bind; [by apply (follows_recv_all i _ l)|].
      intros rs g y (ms & -> & ->). by exists (i - length jobs)%nat, ms.
Qed.

Lemma reports_done i r g : reports i r g -> done_with g.
Proof. destruct r as [rs|got]; [by intros (x & -> & _)|by intros (j & ms & -> & _)]. Qed.
End Pool.

(** C8: concurrent delivery, whatever the scheduler does. Any number of threads send with clients
    or with publishers of their own, any number of exclusive subscribers receive what is meant
    for them, and every step of any of them may come next. No execution goes on forever; at any
    moment no channel holds more than its capacity; and when no thread can take another step, all
    have ended, every send has succeeded, and one history of sends, made up of what each thread
    sent in its own order, tells what every subscriber has received: exactly the messages for it,
    each once, in the order of the history. The channels are then empty, with no sender left
    behind. *)
Theorem concurrent_delivery jobs lines w
    (Hprivate : private_caches jobs.*1) (Hlines : NoDup (line_chan <$> lines))
    (Hready : Forall (ready w) lines)
    (Hjobs : forall i x, jobs !! i = Some x ->
       routed (inner w) lines x /\ at_rest (inner w) x.1 (own_cell (cell_at jobs.*1) i w)) :
  Acc (fun c' c => pool_step c c') (w, threads jobs lines) /\
  forall w' ps, rtc pool_step (w, threads jobs lines) (w', ps) ->
    Forall (fun l => exists v, chan_view (line_chan l) w' = Some v /\ (0 <= free v)%Z) lines /\
    ((forall c, ~ pool_step (w', ps) c) ->
     exists h : list (nat * (nat * Message)),
       (forall e, e ∈ h -> e.1 < length jobs) /\
       (forall i x, jobs !! i = Some x ->
          ps !! i = Some (Ret (inl (replicate (length x.2) (Ok tt)))) /\ labelled i h = x.2) /\
       (forall j l, lines !! j = Some l ->
          ps !! (length jobs + j) = Some (Ret (inr (Some <$> labelled j h.*2))) /\
          chan_view (line_chan l) w' = Some (mkMpsc [] (line_capacity l) 1 true))).
Proof.
  split; [apply pool_terminates|]. intros w' ps Hrun.
  pose proof (threads_follow jobs lines (inner w) Hprivate Hlines w
    (ready_in_place _ _ _ _ eq_refl Hready) (ready_empty _ _ Hready) Hjobs) as Hstart.
  destruct (pool_follows_rtc _ _ _ _ _ _ _ _ _ _ _ (explainable_step jobs.*2) (explainable_not_lost jobs.*2)
    (ex_intro _ [] (explains_start _ _)) Hstart Hrun) as ([v gs] & Hf & h & Hex).
  pose proof (fun g => explains_not_lost _ _ _ g Hex) as Hnl.
  pose proof (pf_inv _ _ _ _ _ _ _ _ _ Hf) as [Hp _]. simpl in Hp.
  split; [by eapply in_place_bounded|]. intros Hstuck.
  assert (stuck (v, gs)) as Hst.
  { intros i g Hg. destruct (pool_follows_ended _ _ _ _ _ _ _ _ _ _ i g Hf Hstuck (Hnl g) Hg) as [(r & _ & Hr)|Hw];
      [left; by eapply reports_done|by right]. }
  destruct (delivered _ _ _ Hex Hst) as [Hsent Hrecv]. exists h. split_and!.
  - intros e He. pose proof (ex_from _ _ _ Hex e He) as Hlt. by rewrite length_fmap in Hlt.
  - intros i x Hx. destruct (Hsent i x.2) as [Hg Hh]; [by rewrite list_lookup_fmap, Hx|].
    split; [|done].
    destruct (pool_follows_ended _ _ _ _ _ _ _ _ _ _ i _ Hf Hstuck (Hnl _) Hg) as [([rs|got] & Hi & Hr)|Hw]; [| |done].
    + destruct Hr as (x' & _ & Hx' & ->). by simplify_eq.
    + by destruct Hr as (? & ? & ? & _).
  - intros j l Hj. pose proof (pf_view _ _ _ _ _ _ _ _ _ Hf) as Hv. simpl in Hv.
    assert (exists x, lines_view lines w' !! j = Some x) as [x Hx].
    { unfold lines_view. rewrite list_lookup_fmap, Hj. by eexists. }
    destruct (Hrecv j x) as [-> Hg]; [by rewrite Hv|].
    split; [|by eapply in_place_view]. rewrite length_fmap in Hg.
    destruct (pool_follows_ended _ _ _ _ _ _ _ _ _ _ _ _ Hf Hstuck (Hnl _) Hg) as [([rs|got] & Hi & Hr)|Hw]; [| |done].
    + by destruct Hr as (x' & ? & _).
    + by destruct Hr as (j' & ms & [= _ <-] & ->).
Qed.
End Delivering.

(** ** Witness *)

Section Witness.
(** A client and a publisher that send more than the channel of [users] holds. *)
Definition users_line : line := mkLine (Single 1) 1 0 4 users.

Definition crowd : list (source * list (nat * Message)) :=
  [(FromClient a_client, replicate 3 (0, ping)); (FromPublisher a_publisher, replicate 3 (0, ping))].

Lemma concurrent_delivery_witness :
  exists w' ps, rtc pool_step (cached, threads crowd [users_line]) (w', ps) /\
    exists ms, ps !! 2 = Some (Ret (inr (Some <$> ms))) /\
      ps !! 1 = Some (Ret (inl [Ok tt; Ok tt; Ok tt])) /\
      chan_view 0 w' = Some (mkMpsc [] 4 1 true).
Proof.
  assert (private_caches crowd.*1) as Hp.
  { intros [|[|i]] [|[|i']] x x' k Hi Hi' Hx Hx'; simplify_eq/=; done. }
  assert (NoDup (line_chan <$> [users_line])) as Hn by apply NoDup_singleton.
  assert (Forall (ready cached) [users_line]) as Hr.
  { repeat constructor; vm_compute; reflexivity. }
  assert (lookup_inner (inner cached) users = Some (Single 1)) as Hl by (vm_compute; reflexivity).
  assert (from_utf8 (Protocol.address ping) = Ok users) as Hu by (vm_compute; reflexivity).
  assert (forall i x, crowd !! i = Some x -> routed (inner cached) [users_line] x /\
    at_rest (inner cached) x.1 (own_cell (cell_at crowd.*1) i cached)) as Hj.
  { intros [|[|i]] x [= <-];
    (split; [apply (Forall_replicate _ 3 (0, ping)); exists users_line; split; [done|]|]).
    - by exists users.
    - done.
    - exact Hl.
    - exists None. split; [exact cached_cell|done]. }
  destruct (concurrent_delivery crowd [users_line] cached Hp Hn Hr Hj) as [_ Hall].
  destruct (pool_settles (cached, threads crowd [users_line]))
    as ([w' ps] & Hrun & Hstuck). exists w', ps. split; [exact Hrun|].
  destruct (Hall w' ps Hrun) as [_ Hend]. destruct (Hend Hstuck) as (h & _ & Hs & Hd).
  exists (labelled 0 h.*2). destruct (Hd 0 users_line eq_refl) as [H2 H3].
  destruct (Hs 1 _ eq_refl) as [H1 _]. split_and!; [exact H2|exact H1|exact H3].
Defined.
End Witness.
