(* ===== verification/ConcurrentRequests.v ===== *)
(** * ConcurrentRequests: many requests at once

    Threads that make requests through one client and its publishers, all waiting in one map of
    waiters; a service that answers; and the listener task that hands the answers over: step by
    step in any order. Each follows a party of Conversation.v, so that whatever the scheduler
    does, every request gets its own answer. *)

From S2P Require Import Prelude.
From S2P Require Import Utf8.
From S2P Require Import Str.
From S2P Require Import Patterns.
From S2P Require Import Config.
From S2P Require Import RadixIface.
From S2P Require Import ChanIface.
From S2P Require Import Async.
From S2P Require Import Mutex.
From S2P Require Import Simulate.
From S2P Require Import Conversation.
From S2P Require Import Registry.
From S2P Require Import RegistryProps.
From S2P Require Import Protocol.
From S2P Require Import World.
From S2P Require Import Channel.
From S2P Require Import Routing.
From S2P Require Import RegistryOps.
From S2P Require Import Subscriber.
From S2P Require Import ReplyDispatcher.
From S2P Require Import Transport.
From S2P Require Import Publisher.
From S2P Require Import Client.
From S2P Require Import LifecycleProps.
From S2P Require Import MessagingProps.
From S2P Require Import PublisherProps.
From S2P Require Import Lines.

Local Open Scope broker_scope.

Section Requesting.
Context {D : Deps}.
Implicit Types (w : World) (m : Message) (i j : nat) (id : bytes).

(** ** Definitions *)

Definition source_request (x : source) m : proc World (result Message TransportError) :=
  match x with
  | FromClient self => BrokerClient_request self m
  | FromPublisher self => Publisher_request self m
  end.

(** The reply address, the waiters and the timeout of a source's requests. *)
Definition source_reply_to (x : source) : bytes :=
  match x with
  | FromClient self => client_address self
  | FromPublisher self => reply_address self
  end.
Definition source_waiters (x : source) : waiters_id :=
  match x with
  | FromClient self => waiters (client_dispatcher self)
  | FromPublisher self => waiters (reply_dispatcher self)
  end.
Definition source_timeout (x : source) : Z :=
  match x with
  | FromClient self => request_timeout (config (broker self))
  | FromPublisher self => request_timeout (broker_config self)
  end.

(** A thread that makes its requests one after the other, until one fails. *)
Fixpoint request_each (x : source) (ms : list Message)
    : proc World (result (list Message) TransportError) :=
  match ms with
  | [] => Ret (Ok [])
  | m :: ms =>
      let!? a := source_request x m in
      let!? answers := request_each x ms in
      Ret (Ok (a :: answers))
  end.

(** A service that answers [n] requests with a client, and whether all went well. *)
Fixpoint serve (s : Subscriber) (self : BrokerClient) (answer : Message -> Message) (n : nat)
    : proc World bool :=
  match n with
  | O => Ret true
  | S n =>
      let! r := Subscriber_recv s in
      match r with
      | Some q =>
          let! sent := BrokerClient_send self (answer q) in
          match sent with
          | Ok _ => serve s self answer n
          | Err _ => Ret false
          end
      | None => Ret false
      end
  end.

(** [n] rounds of the listener task. *)
Fixpoint listen (s : Subscriber) (k : waiters_id) (n : nat) : proc World bool :=
  match n with
  | O => Ret true
  | S n =>
      let! go_on := listener_step s k in
      if go_on : bool then listen s k n else Ret false
  end.

Abbreviation job := (source * list Message)%type.

(** What the threads of a pool report. *)
Abbreviation report := (result (list Message) TransportError + bool)%type.

Definition reported {A} (f : A -> report) (p : proc World A) : proc World report :=
  let! a := p in Ret (f a).

(** The requests of a job as they are sent. *)
Definition requests (x : job) : list Message :=
  (fun m => force_in_out m (source_reply_to x.1)) <$> x.2.

Definition all_requests (jobs : list job) : list (list Message) := requests <$> jobs.

(** All the threads: the requesters, the service on line [l0], the listener on line [l1]. *)
Definition threads (jobs : list job) (l0 l1 : line) (k : waiters_id) (self : BrokerClient)
    (answer : Message -> Message) : list (proc World report) :=
  let n := length (concat (all_requests jobs)) in
  ((fun x : job => reported inl (request_each x.1 x.2)) <$> jobs) ++
  [reported inr (serve (line_subscriber l0) self answer n);
   reported inr (listen (line_subscriber l1) k n)].

Definition msg_id m : bytes := message_id (header m).

(** ** The threads and their parties *)

Section Pool.
Context (jobs : list job) (l0 l1 : line) (routes : RegistryInner Tree) (k : waiters_id) (start : Z).
Context (self : BrokerClient) (answer : Message -> Message) (me : bytes).
Hypothesis Hprivate : private_caches jobs.*1.
Hypothesis Hlines : line_chan l0 <> line_chan l1.
Hypothesis Hanswer : forall q,
  msg_id (answer q) = msg_id q /\ Protocol.address (answer q) = Protocol.reply_to q.
Hypothesis Hme : exists a, from_utf8 me = Ok a /\ lookup_inner routes a = Some (line_target l1).

Abbreviation lines := [l0; l1].

(** Only requests that are to be answered to [me] are queued for the service. *)
Definition accepted j m : Prop := j = 0%nat -> Protocol.reply_to m = me.

Definition waiting_at w : Prop := now w = start /\ is_Some (waiter_maps w !! k).

Definition conv_at w : conv_view :=
  mkConv (lines_view lines w) (waiter_map k w) (replies_view w) (next_id w).

#[local] Instance requests_spec : LineSpec lines conv_at touch_line waiting_at.
Proof.
  split; try done. intros w cs f j Hl. unfold conv_at, touch_line. cbn [cv_lines]. by rewrite Hl.
Qed.

Abbreviation move := (move msg_id answer).
Abbreviation inv := (lines_inv lines accepted routes waiting_at).
Abbreviation own := (own_cell (cell_at jobs.*1)).
Abbreviation follows_conv := (follows inv conv_at own move waits (lost msg_id)).

Lemma chans_apart : NoDup (line_chan <$> lines).
Proof.
  apply list.NoDup_cons. split; [by rewrite list_elem_of_singleton|apply NoDup_singleton].
Qed.

(** ** One-value channels and waiters *)

Lemma follows_register i d m got t y :
  waiters d = k ->
  follows_conv i (fun r g y' => exists rx, r = Ok (mkGuard k (msg_id m), rx) /\
      g = Requester (Enrolled rx) got (m :: t) /\ y' = y)
    (register_waiter d (msg_id m)) (Requester Idle got (m :: t)) y.
Proof.
  intros Hd. unfold register_waiter, WaiterGuard_new. rewrite Hd. eapply follows_bind.
  { apply (follows_new_oneshot lines accepted routes _ _ _ _ _ _ _ _
      (fun r => Requester (Opened r) got (m :: t))); [done|].
    intros w. unfold conv_at. rewrite with_oneshot_view. apply (move_open _ _ (conv_at w)). }
  intros tx g y' [-> ->]. apply follows_undisturbed. intros w [_ [Hn Hk]] Hlost. simpl in Hlost.
  destruct (waiter_map k w !! msg_id m) as [other|] eqn:Hw; [by destruct Hlost|]. cbn [fst snd].
  set (w' := on_waiters _ _ _). split_and!; [done|split; [done|]|].
  { simpl. rewrite lookup_alter_eq. destruct Hk as [x ->]. by eexists. }
  exists (Requester (Enrolled tx) got (m :: t)). split; [right|by exists tx].
  assert (conv_at w' = mkConv (cv_lines (conv_at w)) (<[msg_id m := tx]> (cv_waiters (conv_at w)))
    (cv_replies (conv_at w)) (cv_fresh (conv_at w))) as ->.
  { unfold conv_at, w'. by rewrite waiter_map_on. }
  by apply (move_register _ _ (conv_at w)).
Qed.

(** Waiting for the answer: no time passes, so the wait never times out. *)
Lemma follows_await i timeout r got m t y :
  (0 < timeout)%Z ->
  follows_conv i (fun res g y' => exists a, res = Ok a /\
      g = Requester (Answered r a) got (m :: t) /\ y' = y)
    (await_reply timeout r) (Requester (Waiting r) got (m :: t)) y.
Proof.
  intros Ht. unfold await_reply.
  apply (follows_bind _ _ _ _ _ _ _ (fun d g y' => d = (start + timeout)%Z /\
    g = Requester (Waiting r) got (m :: t) /\ y' = y)).
  { apply follows_read. intros w [_ [-> _]] _. done. }
  intros d g y' (-> & -> & ->). intros w Hp Hy Hlost. pose proof Hp as [_ [Hn Hk]]. cbv zeta.
  pose proof (reply_recv_poll r w Hlost) as Hpoll.
  destruct (reply_recv r w) as [[w' res]|]; cbn [fmap option_fmap option_map snd].
  - destruct Hpoll as (os & o & a & -> & -> & Ho & Hv & Hview).
    rewrite timeout_ready. cbn [mbind option_bind].
    destruct (undisturbed_step lines accepted routes waiting_at (cell_at jobs.*1) w (set_oneshots os w)
      Hp ltac:(done) ltac:(done)) as (? & Hown & _). split_and!; [done..|]. rewrite Hown.
    eexists. split; [right|by exists a]. unfold conv_at at 2. rewrite Hview.
    by apply (move_receive _ _ (conv_at w)).
  - rewrite timeout_pending by lia. exact Hpoll.
Qed.

(** Dropping the guard and the receiver at the end of a request. *)
Lemma leave_view w r id :
  is_Some (waiter_maps w !! k) ->
  let w' := drop_waiter (mkGuard k id) r false w in
  cv_waiters (conv_at w') = delete id (waiter_map k w) /\
  cv_replies (conv_at w') = cv_replies (leave r id (conv_at w)) /\
  undisturbed w w' /\ now w' = now w /\ next_id w' = next_id w /\ is_Some (waiter_maps w' !! k).
Proof.
  intros Hk. cbv zeta. unfold drop_waiter, WaiterGuard_drop, remove_entry. cbn [guard_waiters guard_id].
  set (w1 := on_oneshot oneshot_drop_receiver r w).
  assert (waiter_map k w1 = waiter_map k w) as Hw1 by done.
  assert (replies_view w1 = alter view_oneshot_drop_receiver r (replies_view w)) as Ho1.
  { apply on_oneshot_view. intros o. apply oneshot_drop_receiver_spec. }
  assert (is_Some (waiter_maps (on_waiters (delete id) k w1) !! k)) as Hk1.
  { simpl. rewrite lookup_alter_eq. destruct Hk as [x ->]. by eexists. }
  assert (waiter_map k (on_waiters (delete id) k w1) = delete id (waiter_map k w)) as Hd.
  { by rewrite waiter_map_on. }
  rewrite Hw1. unfold leave. cbn [cv_waiters cv_replies conv_at].
  destruct (waiter_map k w !! id) as [tx|]; split_and!; try done.
  rewrite (on_oneshot_view _ _ view_oneshot_drop_sender) by (intros o; apply oneshot_drop_sender_spec).
  by rewrite <-Ho1.
Qed.

(** What has become of a request at its end. *)
Abbreviation got_answer R got t := (fun res g y' => exists a : Message, res = Ok a /\
  g = Requester Idle (got ++ [a]) t /\ R y').

Lemma follows_drop_waiter i m got t r (p : proc World (result Message TransportError)) y g0
    (R : option (rwlock (option InMemoryEndpoint)) -> Prop) :
  follows_conv i (fun res g y' => exists a, res = Ok a /\
      g = Requester (Answered r a) got (m :: t) /\ R y') p g0 y ->
  follows_conv i (got_answer R got t) (guarded (drop_waiter (mkGuard k (msg_id m)) r) p) g0 y.
Proof.
  intros Hp. eapply follows_guarded; [exact Hp|]. cbv beta. intros res g y' w (a & -> & -> & HR) Hi Hy.
  pose proof Hi as [_ [Hn Hk]]. destruct (leave_view w r (msg_id m) Hk) as (Hw & Ho & ? & En & Hf & ?).
  destruct (undisturbed_step lines accepted routes waiting_at (cell_at jobs.*1) w
    (drop_waiter (mkGuard k (msg_id m)) r false w)) as (? & Hown & Hl); [done|done|split; congruence|].
  split_and!; [done..|]. rewrite Hown, Hy. eexists. split; [right|by exists a].
  assert (conv_at (drop_waiter (mkGuard k (msg_id m)) r false w) = leave r (msg_id m) (conv_at w)) as ->.
  { unfold leave in *. unfold conv_at at 1. rewrite Hl, Hf. f_equal; [exact Hw|exact Ho]. }
  apply (move_leave _ _ (conv_at w)).
Qed.

Lemma follows_request_with i d timeout m got t y send_it
    (R : option (rwlock (option InMemoryEndpoint)) -> Prop) :
  waiters d = k -> (0 < timeout)%Z ->
  (forall r, follows_conv i (fun res g y' => res = Ok tt /\
    g = Requester (Waiting r) got (m :: t) /\ R y')
     send_it (Requester (Enrolled r) got (m :: t)) y) ->
  follows_conv i (got_answer R got t)
    (request_with d timeout (msg_id m) send_it) (Requester Idle got (m :: t)) y.
Proof.
  intros Hd Ht Hsend. unfold request_with.
  eapply follows_bind; [by apply follows_register|]. intros r g y' (rx & -> & -> & ->).
  apply follows_drop_waiter.
  eapply follows_bind; [apply Hsend|]. intros res g y' (-> & -> & HR).
  eapply follows_mono; [|by apply follows_await]. intros res' g y1 (a & -> & -> & ->). by exists a.
Qed.

(** ** Whole threads *)

Lemma requester_delivers r got m t :
  delivers lines conv_at touch_line move waits 0 m
    (Requester (Enrolled r) got (m :: t)) (Requester (Waiting r) got (m :: t)).
Proof.
  apply (delivers_by _ _ _ _ _ _ _ _ _ (Requester (Sending r) got (m :: t)) (Requester (Posted r) got (m :: t))).
  - intros w. apply move_grab.
  - intros w. apply move_post.
  - intros w. apply move_release.
  - intros w m' q n Hq. by exists m', q, n.
Qed.

Lemma service_delivers q n :
  delivers lines conv_at touch_line move waits 1 (answer q) (Service (Taken q) n) (Service Free n).
Proof.
  apply (delivers_by _ _ _ _ _ _ _ _ _ (Service (Replying q) n) (Service Replied n)).
  - intros w. apply move_service_grab.
  - intros w. apply move_reply.
  - intros w. apply move_service_release.
  - intros w m' q' n' Hq. by exists m', q', n'.
Qed.

(** The job's requests go to the service, and their answers come back to [me]. *)
Record job_ok (x : source) (ms : list Message) : Prop := {
  jo_me : source_reply_to x = me;
  jo_waiters : source_waiters x = k;
  jo_timeout : (0 < source_timeout x)%Z;
  jo_routed : Forall (goes_along routes x l0) ms;
}.

Lemma follows_source_request i x m got t y :
  let m' := force_in_out m (source_reply_to x) in
  job_ok x [m] -> cell_at jobs.*1 i = source_cell x -> at_rest routes x y ->
  follows_conv i (got_answer (at_rest routes x) got t) (source_request x m) (Requester Idle got (m' :: t)) y.
Proof.
  cbv zeta. intros [Hr Hw Ht Hg] Hi Hy. apply list.Forall_cons in Hg as [Hg _].
  pose proof chans_apart as Hapart. pose proof (fun i i' k => cell_at_inj _ i i' k Hprivate) as Hcells.
  assert (accepted 0 (force_in_out m (source_reply_to x))) as Hacc by (intros _; exact Hr).
  destruct x as [c|p]; cbn [source_request source_reply_to source_waiters source_timeout] in *.
  - unfold BrokerClient_request.
    apply (follows_request_with i _ _ (force_in_out m (client_address c))); [done..|].
    intros r. eapply follows_mono;
      [|eapply (follows_client_send lines accepted routes _ touch_line _ _ _ _ _
      Hapart i 0 l0 _ _ _ _ c); [done|exact Hacc|apply requester_delivers|exact Hg]].
    by intros res g y' (-> & -> & ->).
  - unfold Publisher_request.
    eapply follows_bind; [by eapply (follows_publisher_resolve lines accepted routes _ touch_line _ _ _ _ _ Hcells i l0)|].
    intros r g y' ((ep & -> & Hep) & -> & Hy').
    apply (follows_request_with i _ _ (force_in_out m (reply_address p))); [done..|].
    intros rx. eapply follows_mono;
      [|eapply (follows_send_or_invalidate lines accepted routes _ touch_line _ _ _ _ _
      Hapart i 0 l0); [done|exact Hacc|apply requester_delivers|exact Hep]].
    by intros res g y1 (-> & -> & ->).
Qed.

Lemma follows_request_each i x ms got y :
  job_ok x ms -> cell_at jobs.*1 i = source_cell x -> at_rest routes x y ->
  follows_conv i (fun res g _ => exists answers, res = Ok answers /\
    g = Requester Idle (got ++ answers) [])
    (request_each x ms) (Requester Idle got (requests (x, ms))) y.
Proof.
  intros Hx Hi. revert got y.
  induction ms as [|m ms IH]; intros got y Hy; [exists []; by rewrite app_nil_r|].
  destruct Hx as [Hr Hw Ht Hg]. apply list.Forall_cons in Hg as [Hm Hms].
  change (requests (x, m :: ms)) with (force_in_out m (source_reply_to x) :: requests (x, ms)).
  cbn [request_each].
  eapply follows_bind; [apply follows_source_request; [by repeat constructor|done..]|].
  intros res g y' (a & -> & -> & Hy').
  eapply follows_bind; [by apply IH|]. intros res g y1 (answers & -> & ->). exists (a :: answers).
  by rewrite <-app_assoc.
Qed.

Lemma follows_serve i n y :
  follows_conv i (fun (ok : bool) g _ => ok = true /\ g = Service Free 0)
    (serve (line_subscriber l0) self answer n) (Service Free n) y.
Proof.
  pose proof chans_apart as Hapart. revert y. induction n as [|n IH]; intros y; [done|]. cbn [serve].
  eapply follows_bind.
  { apply (follows_recv lines accepted routes _ touch_line _ _ _ _ _ Hapart i 0 l0 _
      (fun q => Service (Taken q) n)); [done|..].
    - intros w m q n' Hq. by apply move_take.
    - done.
    - intros w n' Hq. by exists n'. }
  intros r g y' (q & -> & -> & -> & Hacc).
  assert (goes_along routes (FromClient self) l1 (answer q)) as Hgo.
  { destruct Hme as (a & Ha & Hr). exists a. by rewrite (proj2 (Hanswer q)), (Hacc eq_refl). }
  unfold BrokerClient_send. eapply follows_bind.
  { eapply (follows_client_send lines accepted routes _ touch_line _ _ _ _ _ Hapart i 1 l1 _ _ _ _ self);
      [done|done|apply service_delivers|exact Hgo]. }
  intros r g y' (-> & -> & ->). apply IH.
Qed.

Lemma hand_over_view w a :
  is_Some (waiter_maps w !! k) ->
  let w' := deliver_reply k a w in
  cv_waiters (conv_at w') = cv_waiters (hand_over msg_id a (conv_at w)) /\
  cv_replies (conv_at w') = cv_replies (hand_over msg_id a (conv_at w)) /\
  undisturbed w w' /\ now w' = now w /\ next_id w' = next_id w /\ is_Some (waiter_maps w' !! k).
Proof.
  intros Hk. cbv zeta. unfold deliver_reply, hand_over. cbn [cv_waiters cv_replies conv_at].
  fold (msg_id a). set (w1 := on_waiters _ k w).
  assert (is_Some (waiter_maps w1 !! k)) as Hk1.
  { simpl. rewrite lookup_alter_eq. destruct Hk as [x ->]. by eexists. }
  assert (waiter_map k w1 = delete (msg_id a) (waiter_map k w)) as Hd by (unfold w1;
    by rewrite waiter_map_on).
  destruct (waiter_map k w !! msg_id a) as [r|]; [|by split_and!].
  destruct (reply_send_view r a w1) as (os & -> & Hv & _). by split_and!.
Qed.

Lemma follows_listen i n y :
  follows_conv i (fun (ok : bool) g _ => ok = true /\ g = Listener None 0)
    (listen (line_subscriber l1) k n) (Listener None n) y.
Proof.
  pose proof chans_apart as Hapart. revert y. induction n as [|n IH]; intros y; [done|]. cbn [listen].
  eapply (follows_bind _ _ _ _ _ _ _ (fun b g y' => b = true /\ g = Listener None n /\ y' = y));
    [|intros b g y' (-> & -> & ->); apply IH].
  unfold listener_step. eapply follows_bind.
  { apply (follows_recv lines accepted routes _ touch_line _ _ _ _ _ Hapart i 1 l1 _
      (fun a => Listener (Some a) n)); [done|..].
    - intros w m q n' Hq. by apply move_listen.
    - done.
    - intros w n' Hq. by exists n'. }
  intros r g y' (a & -> & -> & -> & _).
  eapply (follows_bind _ _ _ _ _ _ _ (fun _ g y' => g = Listener None n /\ y' = y));
    [|by intros ? g y' [-> ->]].
  apply follows_undisturbed. intros w [[_ _] [Hn Hk]] _. cbn [fst snd].
  destruct (hand_over_view w a Hk) as (Hw & Ho & Hu & En & Hf & ?).
  split_and!; [done|split; congruence|]. eexists. split; [right|done].
  assert (conv_at (deliver_reply k a w) = hand_over msg_id a (conv_at w)) as ->.
  { unfold hand_over in *. unfold conv_at at 1. rewrite Hf. f_equal; [|exact Hw|exact Ho].
    simpl. destruct Hu as (_ & _ & _ & Ec & _). unfold lines_view, line_state, chan_view.
    by rewrite Ec. }
  apply (move_hand _ _ (conv_at w)).
Qed.

(** What the report of thread [i] says when its party is in state [g]. *)
Definition reports i (r : report) (g : party) : Prop :=
  match r with
  | inl res => exists x answers, jobs !! i = Some x /\ res = Ok answers /\ g = Requester Idle answers []
  | inr ok => ok = true /\ (g = Service Free 0 \/ g = Listener None 0)
  end.

Lemma requesters_follow w :
  Forall (ready w) lines -> inner w = routes -> waiting_at w ->
  (forall i x, jobs !! i = Some x -> job_ok x.1 x.2 /\ at_rest routes x.1 (own i w)) ->
  pool_follows inv conv_at own move waits (lost msg_id) reports
    (w, threads jobs l0 l1 k self answer) (conv_at w, starting (all_requests jobs)).
Proof.
  intros Hr Hi Hw Hjobs. split; simpl; [by split; [by apply ready_in_place|]|done|..].
  - unfold threads, starting, all_requests. by rewrite !length_app, !length_fmap.
  - intros i p g. unfold threads, starting. rewrite !lookup_app_Some, !length_fmap.
    assert (length (all_requests jobs) = length jobs) as -> by apply length_fmap.
    intros [Hp1|[Hi1 Hp1]] [Hg|[Hi2 Hg]].
    + apply list_lookup_fmap_Some in Hp1 as ([x ms] & -> & Hx).
      unfold all_requests in Hg. rewrite !list_lookup_fmap, Hx in Hg. injection Hg as <-.
      destruct (Hjobs i _ Hx) as [Hok Hrest].
      eapply follows_bind; [apply (follows_request_each i x ms []); [done| |done]|].
      * unfold cell_at. by rewrite list_lookup_fmap, Hx.
      * intros res g y (answers & -> & ->). by exists (x, ms), answers.
    + apply lookup_lt_Some in Hp1. rewrite length_fmap in Hp1. lia.
    + apply lookup_lt_Some in Hg. unfold all_requests in Hg. rewrite !length_fmap in Hg. lia.
    + destruct (i - length jobs)%nat as [|[|j]]; simplify_eq/=.
      * eapply follows_bind; [apply follows_serve|]. intros ok g y [-> ->]. split; [done|by left].
      * eapply follows_bind; [apply follows_listen|]. intros ok g y [-> ->]. split; [done|by right].
Qed.

Lemma requests_done i r g : reports i r g -> done_with g.
Proof. destruct r as [res|ok]; [by intros (x & a & _ & _ & ->)|by intros [_ [-> | ->]]]. Qed.
End Pool.

(** C9: concurrent requests, whatever the scheduler does. Any number of threads make requests,
    with a client or with publishers of their own, that wait in one map of waiters; a service
    receives them all and answers each to the address in its reply-to, keeping its id; one
    listener hands the answers to those who wait; and every step of any of them may come next.
    As long as no time passes, no execution goes on forever, no channel ever holds more than its
    capacity, and when no thread can take another step, all have ended: every request of every
    thread has returned its own answer, no waiter is left in the map for any of them, and the
    channels are empty, with no sender left behind. *)
Theorem concurrent_requests jobs l0 l1 k self answer me a w
    (Hprivate : private_caches jobs.*1) (Hlines : line_chan l0 <> line_chan l1)
    (Hready : Forall (ready w) [l0; l1])
    (Hmap : is_Some (waiter_maps w !! k))
    (Hids : NoDup (msg_id <$> concat (all_requests jobs)))
    (Hfree : forall m, m ∈ concat (all_requests jobs) -> waiter_map k w !! msg_id m = None)
    (Hjobs : forall i x, jobs !! i = Some x ->
       job_ok l0 (inner w) k me x.1 x.2 /\ at_rest (inner w) x.1 (own_cell (cell_at jobs.*1) i w))
    (Hanswer : forall q, msg_id (answer q) = msg_id q /\
      Protocol.address (answer q) = Protocol.reply_to q)
    (Hutf8 : from_utf8 me = Ok a) (Hme : lookup_inner (inner w) a = Some (line_target l1)) :
  Acc (fun c' c => pool_step c c') (w, threads jobs l0 l1 k self answer) /\
  forall w' ps, rtc pool_step (w, threads jobs l0 l1 k self answer) (w', ps) ->
    Forall (fun l => exists v, chan_view (line_chan l) w' = Some v /\ (0 <= free v)%Z) [l0; l1] /\
    ((forall c, ~ pool_step (w', ps) c) ->
     (forall i x, jobs !! i = Some x -> ps !! i = Some (Ret (inl (Ok (answer <$> requests x))))) /\
     ps !! length jobs = Some (Ret (inr true)) /\ ps !! S (length jobs) = Some (Ret (inr true)) /\
     (forall m, m ∈ concat (all_requests jobs) -> waiter_map k w' !! msg_id m = None) /\
     Forall (fun l => chan_view (line_chan l) w' = Some (mkMpsc [] (line_capacity l) 1 true)) [l0; l1]).
Proof.
  split; [apply pool_terminates|]. intros w' ps Hrun.
  pose proof (requesters_follow jobs l0 l1 (inner w) k (now w) self answer me Hprivate Hlines Hanswer
    (ex_intro _ a (conj Hutf8 Hme)) w Hready eq_refl (conj eq_refl Hmap) Hjobs) as Hstart.
  pose proof (asked_concat (all_requests jobs)) as Hasked.
  pose proof (fun m (_ : asked (all_requests jobs) m) => proj1 (Hanswer m)) as Hid.
  assert (conversing msg_id answer (all_requests jobs) (conv_at l0 l1 k w,
    starting (all_requests jobs))) as Hd.
  { apply converses_start; [done..|by apply (ready_empty [l0; l1])|]. intros m Hm.
  by apply Hfree, Hasked. }
  destruct (pool_follows_rtc _ _ _ _ _ _ _ _ _ _ _
    (conversing_step msg_id answer (all_requests jobs) Hids Hid)
    (conversing_not_lost msg_id answer (all_requests jobs))
    Hd Hstart Hrun) as ([v gs] & Hf & Hc).
  pose proof (fun i g => conversing_not_lost msg_id answer (all_requests jobs) (v, gs) i g Hc) as Hnl.
  pose proof (pf_inv _ _ _ _ _ _ _ _ _ Hf) as [Hp _]. simpl in Hp.
  split; [by eapply in_place_bounded|]. intros Hstuck.
  assert (forall i g, gs !! i = Some g ->
    (exists r, ps !! i = Some (Ret r) /\ reports jobs i r g) \/ waits v g)
    as Hend. { intros i g Hg.
    apply (pool_follows_ended _ _ _ _ _ _ _ _ _ _ i g Hf Hstuck (Hnl i g Hg) Hg). }
  assert (stuck v gs) as Hst.
  { intros i g Hg. destruct (Hend i g Hg) as [(r & _ & Hr)|Hw];
    [left; by eapply requests_done|by right]. }
  destruct (conversed _ _ _ _ _ Hc Hst) as (Hreq & Hs & Hl & Hempty & Hwait).
  pose proof (pf_view _ _ _ _ _ _ _ _ _ Hf) as Hv. simpl in Hv. rewrite Hv in Hempty, Hwait.
  unfold all_requests in Hs, Hl. rewrite length_fmap in Hs, Hl. split_and!.
  - intros i x Hx. assert (all_requests jobs !! i = Some (requests x)) as Hi.
    { unfold all_requests. by rewrite list_lookup_fmap, Hx. }
    destruct (Hend i _ (Hreq i _ Hi)) as [([res|ok] & Hps & Hr)|[]].
    + destruct Hr as (x' & answers & _ & -> & [= <-]). exact Hps.
    + by destruct Hr as [_ [?|?]].
  - destruct (Hend _ _ Hs) as [([res|ok] & Hps & Hr)|[]].
    + by destruct Hr as (? & ? & _ & _ & ?).
    + by destruct Hr as [-> _].
  - destruct (Hend _ _ Hl) as [([res|ok] & Hps & Hr)|[]].
    + by destruct Hr as (? & ? & _ & _ & ?).
    + by destruct Hr as [-> _].
  - intros m Hm. by apply Hwait, Hasked.
  - by eapply in_place_empty.
Qed.
End Requesting.

(** ** Witness *)

Section Witness.
(** The service's line, and the line of the listener of [a_client] and [a_publisher]. *)
Definition service_line : line := mkLine (Single 1) 1 0 4 users.
Definition reply_line : line := mkLine (Single 9) 9 7 4 (bs "me").

Definition agora : World :=
  set_inner (insert_route (inner subscribed) (bs "me") (Single 9))
    (set_slots (<[9 := mkSlot (Some 7) 1]> (slots subscribed))
      (set_chans (<[7 := mkMpsc [] 4 1 true]> (chans subscribed))
        (set_caches {[8 := idle None]} (set_waiter_maps {[5 := ∅]} subscribed)))).

Definition with_id (n : bytes) (m : Message) : Message :=
  {| header := {| version := 1; flags := 0; priority := 0; session_token := [];
                  message_id := n; sub_message_id := []; ttl := 64;
                  msg_type_len := 4; address_len := 18; payload_len := 2 |};
     msg_type := msg_type m; Protocol.address := Protocol.address m;
     Protocol.reply_to := Protocol.reply_to m; payload := payload m |}.

Definition askers : list (source * list Message) :=
  [(FromClient a_client, [ping; with_id (bs "one") ping]);
    (FromPublisher a_publisher, [with_id (bs "two") ping])].

Definition echo (m : Message) : Message :=
  {| header := header m; msg_type := msg_type m; Protocol.address := Protocol.reply_to m;
     Protocol.reply_to := []; payload := payload m |}.

Lemma concurrent_requests_witness :
  exists w' ps, rtc pool_step (agora, threads askers service_line reply_line 5 a_client echo) (w',
    ps) /\
    ps !! 1 = Some (Ret (inl (Ok [echo (force_in_out (with_id (bs "two") ping) (bs "me"))]))) /\
    waiter_map 5 w' !! ping_id = None.
Proof.
  assert (private_caches askers.*1) as Hp.
  { intros [|[|i]] [|[|i']] x x' k Hi Hi' Hx Hx'; simplify_eq/=; done. }
  assert (Forall (ready agora) [service_line; reply_line]) as Hr.
  { repeat constructor; vm_compute; reflexivity. }
  assert (is_Some (waiter_maps agora !! 5)) as Hm by (eexists; apply (lookup_singleton_eq 5)).
  assert (NoDup (msg_id <$> concat (all_requests askers))) as Hids.
  { apply (bool_decide_unpack _). vm_compute. exact I. }
  assert (forall m, m ∈ concat (all_requests askers) -> waiter_map 5 agora !! msg_id m = None) as Hfree.
  { intros m _. unfold waiter_map.
  change (waiter_maps agora) with ({[5 := ∅]} : gmap nat (gmap bytes nat)).
    by rewrite lookup_singleton_eq. }
  assert (lookup_inner (inner agora) users = Some (Single 1)) as Hl by (vm_compute; reflexivity).
  assert (lookup_inner (inner agora) (bs "me") = Some (Single 9)) as Hb by (vm_compute; reflexivity).
  assert (from_utf8 users = Ok users) as Hu by (vm_compute; reflexivity).
  assert (from_utf8 (bs "me") = Ok (bs "me")) as Hme by (vm_compute; reflexivity).
  assert (forall i x, askers !! i = Some x ->
    job_ok service_line (inner agora) 5 (bs "me") x.1 x.2 /\
    at_rest (inner agora) x.1 (own_cell (cell_at askers.*1) i agora)) as Hj.
  { intros [|[|i]] x [= <-]; (split; [split; [done|done|vm_compute; reflexivity|]|]).
    - repeat constructor; by exists users.
    - done.
    - repeat constructor; exact Hl.
    - exists None. split; [apply (lookup_singleton_eq 8)|done]. }
  destruct (concurrent_requests askers service_line reply_line 5 a_client echo (bs "me") (bs "me") agora
    Hp ltac:(done) Hr Hm Hids Hfree Hj (fun q => conj eq_refl eq_refl) Hme Hb) as [_ Hall].
  destruct (pool_settles (agora, threads askers service_line reply_line 5 a_client echo))
    as ([w' ps] & Hrun & Hstuck). exists w', ps. split; [exact Hrun|].
  destruct (Hall w' ps Hrun) as [_ Hend]. destruct (Hend Hstuck) as (Hans & _ & _ & Hw & _).
  split; [exact (Hans 1 _ eq_refl)|].
  apply (Hw (force_in_out ping (bs "me"))). apply list_elem_of_here.
Defined.
End Witness.
