(* ===== verification/ConcurrentGroup.v ===== *)
(** * ConcurrentGroup: a load-balanced group under any scheduler

    Threads that send to the address of a group, with clients or publishers of their own, the
    group's consumers, and its dispatcher task: step by step in any order. Each follows a party of
    Sharing.v, so that whatever the scheduler does, every message is received once, by one
    consumer, and nobody is left waiting. *)

From S2P Require Import Prelude.
From S2P Require Import Utf8.
From S2P Require Import Patterns.
From S2P Require Import Config.
From S2P Require Import RadixIface.
From S2P Require Import ChanIface.
From S2P Require Import Async.
From S2P Require Import Mutex.
From S2P Require Import Simulate.
From S2P Require Import Sharing.
From S2P Require Import Registry.
From S2P Require Import RegistryProps.
From S2P Require Import Protocol.
From S2P Require Import World.
From S2P Require Import Channel.
From S2P Require Import Routing.
From S2P Require Import RegistryOps.
From S2P Require Import Subscriber.
From S2P Require Import ReplyDispatcher.
From S2P Require Import Transport.
From S2P Require Import Publisher.
From S2P Require Import Client.
From S2P Require Import LifecycleProps.
From S2P Require Import MessagingProps.
From S2P Require Import PublisherProps.
From S2P Require Import EndToEnd.
From S2P Require Import Dispatcher.
From S2P Require Import Lines.

Local Open Scope broker_scope.

Section Balancing.
Context {D : Deps}.
Implicit Types (w : World) (m : Message) (i j n : nat) (env : dispatcher_env).

(** ** Definitions *)

(** [n] rounds of the dispatcher's loop: whether it would go on. *)
Fixpoint dispatch env (at_ : dispatcher_at) (n : nat) : proc World bool :=
  match n with
  | O => Ret true
  | S n =>
      let! next := dispatcher_step env at_ in
      match next with
      | Some at_ => dispatch env at_ n
      | None => Ret false
      end
  end.

Abbreviation job := (source * list Message)%type.

(** What a sender, a consumer and the dispatcher report. *)
Inductive report :=
| Sends (rs : list (result unit TransportError))
| Takes (ms : list (option Message))
| Dispatches (go_on : bool).

Definition reporting {A} (f : A -> report) (p : proc World A) : proc World report :=
  let! a := p in Ret (f a).

(** All the threads: the senders, the consumers with the number of messages each takes, and the
    dispatcher. *)
Definition group_threads (jobs : list job) (wants : list nat) env (gr : group_id) (a : bytes)
    (rounds : nat) : list (proc World report) :=
  ((fun x : job => reporting Sends (send_each x.1 x.2)) <$> jobs) ++
  ((fun n => reporting Takes (recv_all (new_pull (req_rx env) gr a) n)) <$> wants) ++
  [reporting Dispatches (dispatch env WaitRequest rounds)].

(** The channel of tokens is open and empty. *)
Definition tokens_ready env (cap : Z) w : Prop :=
  exists c n, reqs w !! req_rx env = Some c /\ mpsc_look c = mkMpsc [] cap (S n) true /\ (0 < cap)%Z.

(** ** The threads and their parties *)

Section Pool.
Context (jobs : list job) (l : line) (routes : RegistryInner Tree) (env : dispatcher_env) (cap : Z).
Context (gr : group_id) (a : bytes).
Hypothesis Hprivate : private_caches jobs.*1.
Hypothesis Henv : main_receiver env = line_chan l.

(** The channel of tokens stays open, and its capacity is kept. *)
Definition tokens_open w : Prop :=
  exists c q n, reqs w !! req_rx env = Some c /\ mpsc_look c = mkMpsc q cap (S n) true /\
    (Z.of_nat (length q) <= cap)%Z /\ (0 < cap)%Z.

Definition tokens w : list oneshot_id :=
  match reqs w !! req_rx env with Some c => queue (mpsc_look c) | None => [] end.

Definition share_at w : share_view (M := Message) :=
  mkShare (lines_view [l] w) (tokens w) (replies_view w) (next_id w).

#[local] Instance sharing_spec : LineSpec [l] share_at touch_line tokens_open.
Proof.
  split; try done. intros w cs f j Hl. unfold share_at, touch_line. cbn [sv_lines]. by rewrite Hl.
Qed.

Abbreviation anything := (fun _ _ => True).
Abbreviation inv := (lines_inv [l] anything routes tokens_open).
Abbreviation own := (own_cell (cell_at jobs.*1)).
Abbreviation follows_group := (follows inv share_at own move waits lost).

Lemma one_line : NoDup (line_chan <$> [l]).
Proof. apply NoDup_singleton. Qed.

(** ** Senders *)

Lemma sender_delivers m t :
  delivers [l] share_at touch_line move waits 0 m (Sender Between (m :: t)) (Sender Between t).
Proof.
  apply (delivers_by _ _ _ _ _ _ _ _ _ (Sender Holding (m :: t)) (Sender Queued t)).
  - intros w. apply move_grab.
  - intros w. apply move_put.
  - intros w. apply move_release.
  - intros w m' q n Hq. by exists m', q, n.
Qed.

Lemma follows_sends i x t y :
  cell_at jobs.*1 i = source_cell x -> Forall (goes_along routes x l) t -> at_rest routes x y ->
  follows_group i (fun rs g _ => rs = replicate (length t) (Ok tt) /\ g = Sender Between [])
    (send_each x t) (Sender Between t) y.
Proof.
  intros Hi Ht. revert y. induction Ht as [|m t Hm _ IH]; intros y Hy; [done|].
  cbn [send_each]. eapply follows_bind.
  { eapply (follows_source_send [l] anything routes _ touch_line _ _ _ _ _
      (fun i i' k => cell_at_inj _ i i' k Hprivate) one_line i 0 l);
        [done|done|apply sender_delivers|done..]. }
  intros r g y' (-> & -> & Hy'). eapply follows_bind; [by apply IH|].
  by intros rs g y1 (-> & ->).
Qed.

(** ** Consumers *)

(** A step on the channel of tokens. *)
Lemma tokens_step w c c' q n :
  inv w -> reqs w !! req_rx env = Some c -> mpsc_look c' = mkMpsc q cap (S n) true ->
  (Z.of_nat (length q) <= cap)%Z ->
  let w' := set_reqs (<[req_rx env := c']> (reqs w)) w in
  inv w' /\ (forall i, own i w' = own i w) /\
  share_at w' = mkShare (sv_lines (share_at w)) q (sv_replies (share_at w)) (sv_fresh (share_at w)).
Proof.
  intros Hp Hc Hc' Hq. cbv zeta. set (w' := set_reqs _ w).
  assert (tokens_open w') as Ho.
  { destruct Hp as [_ (_ & _ & _ & _ & _ & _ & Hcap)]. exists c', q, n. split_and!; [|done..].
    simpl. apply lookup_insert_eq. }
  destruct (undisturbed_step [l] anything routes tokens_open (cell_at jobs.*1) w w' Hp) as (? & ? & Hl); [done..|].
  split_and!; [done..|]. unfold share_at. rewrite Hl. cbn. f_equal.
  unfold tokens, w'. simpl. by rewrite lookup_insert_eq, Hc'.
Qed.

Lemma follows_ask i r got n y :
  follows_group i (fun res g y' => res = Ok tt /\ g = Consumer (Asked r) got n /\ y' = y)
    (Sender_send (req_rx env) r) (Consumer (Opened r) got n) y.
Proof.
  intros w Hp Hy _. pose proof Hp as [_ (c & q & n' & Hc & Hv & Hq & Hcap)].
  unfold poll_channel, put_channel. cbn [get_channels set_channels request_channels]. rewrite Hc.
  cbn [mbind option_bind].
  pose proof (mpsc_send_spec r c) as Hsend. rewrite Hv in Hsend.
  unfold view_send, view_try_send, free in Hsend. cbn [receiver queue max_cap negb] in Hsend.
  destruct (mpsc_send r c) as [[res c2]|]; case_decide; simpl in Hsend; try done.
  - injection Hsend as -> Hc2. cbn [mbind option_bind map_err].
    destruct (tokens_step w c c2 (q ++ [r]) n' Hp Hc Hc2) as (? & Hown & Hview).
    { rewrite length_app. simpl. lia. }
    split_and!; [done..|]. exists (Consumer (Asked r) got n). rewrite Hown. split; [right|done].
    rewrite Hview. replace q with (sv_tokens (share_at w)) by (cbn; unfold tokens; by rewrite Hc, Hv).
    apply (move_ask (share_at w)).
  - simpl. unfold tokens. rewrite Hc, Hv. simpl. intros ->. simpl in *. lia.
Qed.

Lemma follows_delivery i r got n y :
  follows_group i (fun res g y' => exists m, res = Ok m /\ g = Consumer Resting (got ++ [m]) n /\
    y' = y)
    (await (reply_recv r)) (Consumer (Asked r) got (S n)) y.
Proof.
  intros w Hp Hy Hlost. pose proof (reply_recv_poll r w Hlost) as Hpoll.
  destruct (reply_recv r w) as [[w' res]|]; [|exact Hpoll].
  destruct Hpoll as (os & o & m & -> & -> & Ho & Hv & Hview).
  destruct (undisturbed_step [l] anything routes tokens_open (cell_at jobs.*1) w (set_oneshots os w)
    Hp ltac:(done) (proj2 Hp)) as (? & Hown & _).
  split_and!; [done..|]. rewrite Hown. eexists. split; [right|by exists m].
  unfold share_at at 2. rewrite Hview. by apply (move_receive (share_at w)).
Qed.

Lemma follows_pull i got n y :
  follows_group i (fun r g y' => exists m, r = Some m /\ g = Consumer Resting (got ++ [m]) n /\ y' = y)
    (Subscriber_recv (new_pull (req_rx env) gr a)) (Consumer Resting got (S n)) y.
Proof.
  cbn [Subscriber_recv mode new_pull]. unfold RequestSender_request.
  apply (follows_bind _ _ _ _ _ _ _ (fun res g y' => exists r, res = Ok r /\
    g = Consumer (Asked r) got (S n) /\ y' = y)).
  - eapply follows_bind.
    { apply (follows_new_oneshot [l] anything routes _ _ _ _ _ _ _ _ (fun r => Consumer (Opened r) got (S n)));
        [done|]. intros w. unfold share_at. rewrite with_oneshot_view. apply (move_open (share_at w)). }
    intros r g y' [-> ->]. eapply follows_bind; [apply follows_owning, follows_ask|].
    intros res g y' (-> & -> & ->). by exists r.
  - intros res g y' (r & -> & -> & ->). eapply follows_bind; [apply follows_owning, follows_delivery|].
    intros res g y' (m & -> & -> & ->). by exists m.
Qed.

Lemma follows_takes i n got y :
  follows_group i (fun rs g _ => exists ms, rs = Some <$> ms /\ g = Consumer Resting (got ++ ms) 0)
    (recv_all (new_pull (req_rx env) gr a) n) (Consumer Resting got n) y.
Proof.
  revert got y. induction n as [|n IH]; intros got y; [exists []; by rewrite app_nil_r|].
  cbn [recv_all]. eapply follows_bind; [apply follows_pull|]. intros r g y' (m & -> & -> & ->).
  eapply follows_bind; [apply IH|]. intros rs g y1 (ms & -> & ->). exists (m :: ms).
  by rewrite <-app_assoc.
Qed.

(** ** The dispatcher *)

(** Where the loop is. *)
Definition position (st : serving) : dispatcher_at :=
  match st with Ready => WaitRequest | Token r => WaitMessage r | Handing r m => Deliver r m end.

Abbreviation serves n y := (fun next g y' => exists st', next = Some (position st') /\
  g = Dispatcher st' n /\ y' = y).

Lemma follows_take_token i n y :
  follows_group i (serves n y) (dispatcher_step env WaitRequest) (Dispatcher Ready (S n)) y.
Proof.
  cbn [dispatcher_step]. apply (follows_bind _ _ _ _ _ _ _ (fun res g y' => exists r, res = Some r /\
    g = Dispatcher (Token r) n /\ y' = y)); [|intros res g y' (r & -> & -> & ->); by exists (Token r)].
  intros w Hp Hy _. pose proof Hp as [_ (c & q & n' & Hc & Hv & Hq & Hcap)].
  unfold poll_channel, put_channel. cbn [get_channels set_channels request_channels]. rewrite Hc.
  cbn [mbind option_bind].
  pose proof (mpsc_recv_spec c) as Hrecv. rewrite Hv in Hrecv. unfold view_recv, view_try_recv in Hrecv.
  cbn [queue senders] in Hrecv. destruct q as [|r q].
  - destruct (mpsc_recv c) as [[res c2]|]; [done|]. simpl. unfold tokens. by rewrite Hc, Hv.
  - destruct (mpsc_recv c) as [[res c2]|]; [|done]. injection Hrecv as -> Hc2. cbn [mbind option_bind].
    destruct (tokens_step w c c2 q n' Hp Hc Hc2) as (? & Hown & Hview); [simpl in Hq; lia|].
    split_and!; [done..|]. exists (Dispatcher (Token r) n). rewrite Hown. split; [right|by exists r].
    rewrite Hview. apply (move_token (share_at w)). cbn. unfold tokens. by rewrite Hc, Hv.
Qed.

Lemma follows_take_message i r n y :
  follows_group i (serves n y) (dispatcher_step env (WaitMessage r)) (Dispatcher (Token r) (S n)) y.
Proof.
  cbn [dispatcher_step]. rewrite Henv. eapply follows_bind.
  { apply (follows_recv [l] anything routes _ touch_line _ _ _ _ _ one_line i 0 l _
      (fun m => Dispatcher (Handing r m) n)); [done|..].
    - intros w m q k Hq. by apply move_message.
    - done.
    - intros w k Hk. by exists k. }
  intros res g y' (m & -> & -> & -> & _). by exists (Handing r m).
Qed.

Lemma follows_deliver i r m n y :
  follows_group i (serves n y) (dispatcher_step env (Deliver r m)) (Dispatcher (Handing r m) (S n)) y.
Proof.
  cbn [dispatcher_step]. apply (follows_bind _ _ _ _ _ _ _ (fun res g y' => res = Ok tt /\
    g = Dispatcher Ready n /\ y' = y)); [|intros res g y' (-> & -> & ->); by exists Ready].
  apply follows_undisturbed. intros w [_ Ho] Hlost.
  destruct (reply_send_view r m w) as (os & Hw & Hview & Hres). rewrite Hw in *.
  split_and!; [done|done|].
  exists (Dispatcher Ready n). split.
  - right. unfold share_at at 2. rewrite Hview. apply (move_hand (share_at w)).
  - split; [|done]. rewrite Hres. simpl in Hlost. destruct (replies_view w !! r) as [o|].
    + unfold view_oneshot_send. destruct (receiver_alive o) eqn:Ha; [done|].
      destruct Hlost. intros (o' & [= <-] & Ha'). congruence.
    + destruct Hlost. by intros (o & ? & _).
Qed.

Lemma follows_dispatch i n st y :
  follows_group i (fun ok g _ => ok = true /\ exists st', g = Dispatcher st' 0)
    (dispatch env (position st) n) (Dispatcher st n) y.
Proof.
  revert st y. induction n as [|n IH]; intros st y; [split; [done|by exists st]|]. cbn [dispatch].
  apply (follows_bind _ _ _ _ _ _ _ (serves n y)).
  - destruct st; [apply follows_take_token|apply follows_take_message|apply follows_deliver].
  - intros next g y' (st' & -> & -> & ->). apply IH.
Qed.

(** ** The pool *)

(** What the report of a thread says when its party is in state [g]. *)
Definition reported i (r : report) (g : party) : Prop :=
  match r with
  | Sends rs => exists x, jobs !! i = Some x /\ rs = replicate (length x.2) (Ok tt) /\
    g = Sender Between []
  | Takes ms => exists got, ms = Some <$> got /\ g = Consumer Resting got 0
  | Dispatches ok => ok = true /\ exists st, g = Dispatcher st 0
  end.

Lemma reported_done i r g : reported i r g -> done_with g.
Proof.
  destruct r; [by intros (x & _ & _ & ->)|by intros (got & _ & ->)|by intros [_ [st ->]]].
Qed.

Lemma group_follows wants rounds w :
  inner w = routes -> ready w l -> tokens_open w ->
  (forall i x, jobs !! i = Some x -> Forall (goes_along routes x.1 l) x.2 /\
    at_rest routes x.1 (own i w)) ->
  pool_follows inv share_at own move waits lost reported
    (w, group_threads jobs wants env gr a rounds) (share_at w, starting jobs.*2 wants rounds).
Proof.
  intros Hi Hr Ho Hjobs. split; simpl.
  - split; [|done]. by apply ready_in_place; [|apply list.Forall_singleton].
  - done.
  - unfold group_threads, starting. by rewrite !length_app, !length_fmap.
  - intros i p g Hp [(t & Ht & ->)|[(j & n & -> & Hn & ->)|[-> ->]]]%starting_lookup;
      unfold last_party, group_threads in *; rewrite ?length_fmap in *.
    + apply list_lookup_fmap_Some in Ht as ([x t'] & -> & Hx).
      rewrite lookup_app_l, list_lookup_fmap, Hx in
        Hp by (rewrite length_fmap; by eapply lookup_lt_Some).
      injection Hp as <-. destruct (Hjobs i _ Hx) as [Hgo Hrest].
      eapply follows_bind; [apply (follows_sends i x); [|done..]|].
      * unfold cell_at. by rewrite list_lookup_fmap, Hx.
      * intros rs g y [-> ->]. by exists (x, t').
    + rewrite lookup_app_r, length_fmap, lookup_app_l, list_lookup_fmap in Hp
        by (rewrite !length_fmap; apply lookup_lt_Some in Hn; lia).
      replace (length jobs + j - length jobs)%nat with j in Hp by lia. rewrite Hn in Hp.
      injection Hp as <-.
      eapply follows_bind; [apply follows_takes|]. intros rs g y (ms & -> & ->). by exists ms.
    + rewrite lookup_app_r, length_fmap, lookup_app_r, length_fmap in Hp by (rewrite !length_fmap; lia).
      replace (length jobs + length wants - length jobs - length wants)%nat with 0%nat in Hp by lia.
      injection Hp as <-. eapply follows_bind; [apply (follows_dispatch _ _ Ready)|].
      intros ok g y [-> Hst]. by split.
Qed.
End Pool.

(** C10: a load-balanced group, whatever the scheduler does. Any number of threads send to the
    group, with clients or publishers of their own; any number of consumers take messages, as
    many together as are sent; and the dispatcher moves them, while every step of any of them may
    come next. No execution goes on forever; the group's channel never holds more than its
    capacity; and when no thread can take another step, every send has succeeded, every consumer
    has taken its number of messages, and they are one sequence of messages: seen from the
    senders ([h], labelled by them and by nobody else) it is made up of what each sent, in its own
    order, and seen from the consumers ([d]) of what each has taken, in that order; so every
    message that is sent is taken once, by one consumer, and no other message is taken. The
    channel is then empty, with no sender left behind. *)
Theorem concurrent_group jobs wants l env cap gr a rounds w
    (Hprivate : private_caches jobs.*1) (Henv : main_receiver env = line_chan l)
    (Hready : ready w l) (Htokens : tokens_ready env cap w)
    (Hjobs : forall i x, jobs !! i = Some x ->
       Forall (goes_along (inner w) x.1 l) x.2 /\
         at_rest (inner w) x.1 (own_cell (cell_at jobs.*1) i w))
    (Hwants : sum_list wants = length (concat jobs.*2))
    (Hrounds : (3 * length (concat jobs.*2) <= rounds)%nat) :
  Acc (fun c' c => pool_step c c') (w, group_threads jobs wants env gr a rounds) /\
  forall w' ps, rtc pool_step (w, group_threads jobs wants env gr a rounds) (w', ps) ->
    (exists v, chan_view (line_chan l) w' = Some v /\ (0 <= free v)%Z) /\
    ((forall c, ~ pool_step (w', ps) c) ->
     exists h d : list (nat * Message), h.*2 = d.*2 /\
       (forall e, e ∈ h -> (e.1 < length jobs)%nat) /\ (forall e, e ∈ d -> (e.1 < length wants)%nat) /\
       (forall i x, jobs !! i = Some x ->
          ps !! i = Some (Ret (Sends (replicate (length x.2) (Ok tt)))) /\ labelled i h = x.2) /\
       (forall j n, wants !! j = Some n ->
          ps !! (length jobs + j)%nat = Some (Ret (Takes (Some <$> labelled j d))) /\
          length (labelled j d) = n) /\
       chan_view (line_chan l) w' = Some (mkMpsc [] (line_capacity l) 1 true)).
Proof.
  split; [apply pool_terminates|]. intros w' ps Hrun.
  destruct Htokens as (c & n & Hc & Hv & Hcap).
  assert (tokens_open env cap w) as Ho by (exists c, [], n; split_and!; [done..|simpl; lia|done]).
  pose proof (group_follows jobs l (inner w) env cap gr a Hprivate Henv wants rounds w eq_refl Hready Ho Hjobs) as Hstart.
  assert (sharing jobs.*2 wants (share_at l env w, starting jobs.*2 wants rounds)) as Hd.
  { exists [], [], Ready. apply shares_start; [|simpl; unfold tokens; by rewrite Hc, Hv|done].
    apply (ready_empty [l]). by apply list.Forall_singleton. }
  destruct (pool_follows_rtc _ _ _ _ _ _ _ _ _ _ _ (sharing_step _ _) (sharing_not_lost _ _)
    Hd Hstart Hrun) as ([v gs] & Hf & Hc').
  pose proof (fun i g => sharing_not_lost _ _ (v, gs) i g Hc') as Hnl.
  pose proof (pf_inv _ _ _ _ _ _ _ _ _ Hf) as [Hp _]. simpl in Hp.
  split; [exact (List.Forall_inv (in_place_bounded _ _ _ _ Hp))|].
  intros Hstuck.
  assert (forall i g, gs !! i = Some g ->
    (exists r, ps !! i = Some (Ret r) /\ reported jobs i r g) \/ waits v g)
    as Hend. { intros i g Hg.
    apply (pool_follows_ended _ _ _ _ _ _ _ _ _ _ i g Hf Hstuck (Hnl i g Hg) Hg). }
  assert (stuck v gs) as Hst.
  { intros i g Hg. destruct (Hend i g Hg) as [(r & _ & Hr)|Hw];
    [left; by eapply reported_done|by right]. }
  destruct Hc' as (h & d & st & Hc').
  destruct (shared _ _ _ _ _ _ _ Hc' Hst Hwants) as (Hhd & Hsent & Htaken & Hempty & _).
  pose proof (sh_senders _ _ _ _ _ _ _ Hc') as Hhl. pose proof (sh_consumers _ _ _ _ _ _ _ Hc') as Hdl.
  rewrite length_fmap in Hhl.
  pose proof (pf_view _ _ _ _ _ _ _ _ _ Hf) as Hv'. simpl in Hv'. rewrite Hv' in Hempty.
  exists h, d. split_and!; [done|done|done|..].
  - intros i x Hx. destruct (Hsent i x.2) as [Hg Hh]; [by rewrite list_lookup_fmap, Hx|].
    split; [|done].
    destruct (Hend i _ Hg) as [([rs|ms|ok] & Hps & Hr)|[]];
      [|by destruct Hr as (? & _ & ?)|by destruct Hr as [_ [? ?]]].
    destruct Hr as (x' & Hx' & -> & _). by simplify_eq.
  - intros j n' Hn. rewrite <-(length_fmap snd jobs). destruct (Htaken j n' Hn) as [Hg Hlen].
    split; [|done].
    destruct (Hend _ _ Hg) as [([rs|ms|ok] & Hps & Hr)|[]];
      [by destruct Hr as (? & _ & _ & ?)| |by destruct Hr as [_ [? ?]]].
    destruct Hr as (got & -> & [= <-]). exact Hps.
  - exact (List.Forall_inv (in_place_empty [l] _ _ w' Hp Hempty)).
Qed.
End Balancing.

(** ** Witness *)

Section Witness.
(** The group of LifecycleProps.v, with a publisher to its address. *)
Definition group_line : line := mkLine (LoadBalancedTarget 3) 1 0 4 users.
Definition group_env : dispatcher_env := mkDispatcherEnv 0 2 1 users.
Definition at_work : World := set_caches {[8 := idle None]} grouped.

(** More messages than the channel holds, for two consumers. *)
Definition workload : list (source * list Message) :=
  [(FromClient a_client, replicate 3 ping); (FromPublisher a_publisher, replicate 4 ping)].

Lemma concurrent_group_witness :
  exists w' ps, rtc pool_step (at_work, group_threads workload [5; 2] group_env 3 users 30) (w', ps) /\
    (exists h d : list (nat * Message), h.*2 = d.*2 /\
       (forall e, e ∈ h -> (e.1 < 2)%nat) /\ (forall e, e ∈ d -> (e.1 < 2)%nat) /\
       labelled 0 h = replicate 3 ping /\ labelled 1 h = replicate 4 ping /\
       ps !! 2 = Some (Ret (Takes (Some <$> labelled 0 d))) /\ length (labelled 0 d) = 5 /\
       ps !! 3 = Some (Ret (Takes (Some <$> labelled 1 d))) /\ length (labelled 1 d) = 2) /\
    ps !! 1 = Some (Ret (Sends [Ok tt; Ok tt; Ok tt; Ok tt])) /\
    chan_view 0 w' = Some (mkMpsc [] 4 1 true).
Proof.
  assert (private_caches workload.*1) as Hp.
  { intros [|[|i]] [|[|i']] x x' k Hi Hi' Hx Hx'; simplify_eq/=; done. }
  assert (ready at_work group_line) as Hr.
  { split; [split|split; [|done]]; vm_compute; reflexivity. }
  assert (tokens_ready group_env 1000 at_work) as Ht.
  { exists (mkMpsc [] 1000 1 true), 0%nat. split; [vm_compute; reflexivity|done]. }
  assert (lookup_inner (inner at_work) users = Some (LoadBalancedTarget 3)) as Hl by (vm_compute;
    reflexivity).
  assert (from_utf8 (Protocol.address ping) = Ok users) as Hu by (vm_compute; reflexivity).
  assert (forall i x, workload !! i = Some x ->
    Forall (goes_along (inner at_work) x.1 group_line) x.2 /\
    at_rest (inner at_work) x.1 (own_cell (cell_at workload.*1) i at_work)) as Hj.
  { intros [|[|i]] x [= <-]; split.
    - apply (Forall_replicate _ 3 ping). by exists users.
    - done.
    - apply (Forall_replicate _ 4 ping). exact Hl.
    - exists None. split; [apply (lookup_singleton_eq 8)|done]. }
  destruct (concurrent_group workload [5;
    2] group_line group_env 1000 3 users 30 at_work Hp eq_refl Hr Ht Hj
    eq_refl ltac:(simpl; lia)) as [_ Hall].
  destruct (pool_settles (at_work, group_threads workload [5; 2] group_env 3 users 30))
    as ([w' ps] & Hrun & Hstuck). exists w', ps. split; [exact Hrun|].
  destruct (Hall w' ps Hrun) as [_ Hend].
  destruct (Hend Hstuck) as (h & d & Hhd & Hhl & Hdl & Hs & Hd & Hv).
  destruct (Hs 0 _ eq_refl) as [_ H0]. destruct (Hs 1 _ eq_refl) as [H1 H1'].
  destruct (Hd 0 5 eq_refl) as [H2 H2']. destruct (Hd 1 2 eq_refl) as [H3 H3'].
  split; [|split; [exact H1|exact Hv]].
  exists h, d. split_and!; [exact Hhd|exact Hhl|exact Hdl|exact H0|exact H1'|exact H2|exact H2'
    |exact H3|exact H3'].
Defined.
End Witness.
