(* ===== verification/DispatcherProps.v ===== *)
(** * DispatcherProps: the dispatcher of a load-balanced group

    What one round of the dispatcher does, that messages are handed over in the order they were
    sent and each to one consumer, whatever happens around the dispatcher, and what its
    cancellation releases. *)

From S2P Require Import Prelude.
From S2P Require Import Str.
From S2P Require Import Patterns.
From S2P Require Import RadixIface.
From S2P Require Import ChanIface.
From S2P Require Import Async.
From S2P Require Import Registry.
From S2P Require Import RegistryFacts.
From S2P Require Import RegistryProps.
From S2P Require Import Protocol.
From S2P Require Import World.
From S2P Require Import Channel.
From S2P Require Import Routing.
From S2P Require Import RegistryOps.
From S2P Require Import Dispatcher.
From S2P Require Import Subscriber.
From S2P Require Import RunFacts.
From S2P Require Import LifecycleProps.
From S2P Require Import MessagingProps.

Local Open Scope broker_scope.

Section Dispatching.
Context {D : Deps}.
Implicit Types (w : World) (env : dispatcher_env) (r : oneshot_id) (m : Message).

Definition req_view (k : req_id) w : option (mpsc_view oneshot_id) := mpsc_look <$> reqs w !! k.

(** The message the dispatcher has taken and not yet handed over. *)
Definition in_hand (at_ : dispatcher_at) : list Message :=
  match at_ with Deliver _ m | WaitNext m => [m] | _ => [] end.

Definition main_queue env w : list Message :=
  match chan_view (main_receiver env) w with Some v => queue v | None => [] end.

(** The messages that sit in one-value channels. *)
Definition replies w : gmap oneshot_id Message := omap (fun o => value (oneshot_look o)) (oneshots w).

(** What leaves a queue that becomes [q'], from its front; a change of any other kind counts as
    if everything had left it. *)
Definition left_queue (q q' : list Message) : list Message :=
  let n := (length q - length q')%nat in if decide (drop n q = q') then take n q else q.

(** What a round takes out of the main queue, whatever it does with it. *)
Definition taken env w w' : list Message := left_queue (main_queue env w) (main_queue env w').

(** The replies that hold a message they did not hold before. *)
Definition filled w w' : gmap oneshot_id Message :=
  filter (fun '(r, m) => replies w !! r <> Some m) (replies w').

(** What a round hands over: the messages that appear in replies, whatever its position, and what
    the reply holds that it counts as served; or a message to nobody, when no request is queued
    and no request sender is left. *)
Definition handed env w w' (a b : dispatcher_at) : list (option oneshot_id * Message) :=
  let served : gmap oneshot_id Message :=
    match a, b with
    | Deliver r _, WaitRequest =>
        match replies w' !! r with Some m => {[r := m]} | None => ∅ end
    | _, _ => ∅
    end in
  (prod_map Some id <$> map_to_list (filled w w' ∪ served)) ++
  match a, b with
  | WaitNext m, WaitRequest =>
      if decide ((fun v => (queue v, senders v)) <$> req_view (req_rx env) w = Some ([], 0%nat))
      then [(None, m)] else []
  | _, _ => []
  end.

(** ** One round *)

Lemma run_recv_bind {M B} `{!Channels M} k c (f : option M -> proc World B) w :
  get_channels w !! k = Some c ->
  run (bind (Receiver_recv k) f) w =
    match mpsc_recv c with
    | Some (x, c') => run (f x) (put_channel k c' w)
    | None => Blocked w (bind (Receiver_recv k) f)
    end.
Proof. intros Hc. unfold Receiver_recv. by rewrite (run_poll_bind k c). Qed.

Lemma run_recv_done {M B} `{!Channels M} k (f : option M -> proc World B) w w' b :
  run (bind (Receiver_recv k) f) w = Done w' b ->
  exists c x c', get_channels w !! k = Some c /\ mpsc_recv c = Some (x, c') /\
    run (f x) (put_channel k c' w) = Done w' b.
Proof.
  destruct (get_channels w !! k) as [c|] eqn:Hc.
  - rewrite (run_recv_bind k c) by done.
    destruct (mpsc_recv c) as [[x c']|] eqn:E; [|done]. eauto 10.
  - unfold Receiver_recv, await, poll_channel. cbn [bind run]. by rewrite Hc.
Qed.

Lemma recv_view {M} (c c' : Chan M) x :
  mpsc_recv c = Some (x, c') ->
  match x with
  | Some m => exists q, queue (mpsc_look c) = m :: q /\ mpsc_look c' = set_queue q (mpsc_look c)
  | None => queue (mpsc_look c) = [] /\ senders (mpsc_look c) = 0%nat /\ mpsc_look c' = mpsc_look c
  end.
Proof.
  intros E. pose proof (mpsc_recv_spec c) as Hs. rewrite E in Hs. simpl in Hs.
  unfold view_recv, view_try_recv in Hs. destruct (queue (mpsc_look c)) as [|m q].
  - destruct (decide _); [|done]. injection Hs as -> Hs. done.
  - injection Hs as -> Hs. eauto.
Qed.

(** A delivery: the reply holds the message, or the message comes back. *)
Lemma reply_send_spec r m w :
  match reply_view r w with
  | Some o =>
      if receiver_alive o then
        exists w', reply_send r m w = (w', Ok tt) /\
          reply_view r w' = Some (mkOneshot (Some m) false true)
      else exists w', reply_send r m w = (w', Err m)
  | None => reply_send r m w = (w, Err m)
  end.
Proof.
  unfold reply_view, reply_send. destruct (oneshots w !! r) as [o|]; [|done]. simpl.
  pose proof (oneshot_send_spec m o) as Hs. destruct (oneshot_send m o) as [x o'].
  unfold on_snd, view_oneshot_send in Hs. cbn [fst snd] in Hs.
  destruct (receiver_alive (oneshot_look o)); injection Hs as -> Ho'.
  - eexists. split; [reflexivity|]. simpl. by rewrite lookup_insert_eq, <-Ho'.
  - by eexists.
Qed.

(** The position after a round that starts by receiving on the requests or the messages. *)
Lemma chan_view_recv {x} k w c (c' : Chan Message) :
  chans w !! k = Some c -> mpsc_recv c = Some (x, c') ->
  chan_view k w = Some (mpsc_look c) /\ chan_view k (put_channel k c' w) = Some (mpsc_look c').
Proof.
  intros Hc _. unfold chan_view. rewrite Hc. split; [done|]. simpl. by rewrite lookup_insert_eq.
Qed.

(** What one round does from each position but the last. *)
Lemma round_cases env a w w' b :
  run (dispatcher_step env a) w = Done w' (Some b) ->
  match a with
  | WaitRequest => in_hand b = []
  | WaitMessage r =>
      b = Finished \/
      exists v m q, b = Deliver r m /\ chan_view (main_receiver env) w = Some v /\
        queue v = m :: q /\ chan_view (main_receiver env) w' = Some (set_queue q v)
  | Deliver r m =>
      b = WaitNext m \/
      exists o, b = WaitRequest /\ reply_view r w = Some o /\ receiver_alive o = true /\
        reply_view r w' = Some (mkOneshot (Some m) false true)
  | WaitNext m =>
      (exists r, b = Deliver r m) \/
      exists v, b = WaitRequest /\ req_view (req_rx env) w = Some v /\ queue v = [] /\
        senders v = 0%nat
  | Finished => False
  end.
Proof.
  destruct a as [|r|r m|m|]; cbn [dispatcher_step]; intros Hround.
  - apply run_recv_done in Hround as (c & x & c' & _ & _ & Hr).
    by destruct x; injection Hr as <- <-.
  - apply run_recv_done in Hround as (c & x & c' & Hc & Hx & Hr).
    destruct x as [m|]; injection Hr as <- <-; [right|by left].
    destruct (chan_view_recv _ _ _ _ Hc Hx) as [Hv Hv'].
    apply recv_view in Hx as (q & Hq & Hc'). rewrite Hc' in Hv'. eauto 10.
  - rewrite run_act_bind in Hround. pose proof (reply_send_spec r m w) as Hs.
    destruct (reply_view r w) as [o|] eqn:Ho; [destruct (receiver_alive o) eqn:Ha|].
    + destruct Hs as (w1 & Hs & Hv). rewrite Hs in Hround. injection Hround as <- <-. eauto 10.
    + destruct Hs as (w1 & Hs). rewrite Hs in Hround. injection Hround as <- <-. by left.
    + rewrite Hs in Hround. injection Hround as <- <-. by left.
  - apply run_recv_done in Hround as (c & x & c' & Hc & Hx & Hr).
    destruct x as [r|]; injection Hr as <- <-; [left; by exists r|right].
    apply recv_view in Hx as (? & ? & _). exists (mpsc_look c).
    unfold req_view. cbn [get_channels request_channels] in Hc. by rewrite Hc.
  - revert Hround. unfold unregister. rewrite run_bind, run_mark_removed, run_bind.
    destruct (run (with_lock _) _) as [w1 x|w1|w1 p]; [|done..]. by rewrite run_write_bind.
Qed.

(** *** What a round moves *)

Lemma left_nothing q : left_queue q q = [].
Proof. unfold left_queue. by rewrite Nat.sub_diag, decide_True. Qed.

Lemma left_front m q : left_queue (m :: q) q = [m].
Proof.
  unfold left_queue. replace (length (m :: q) - length q)%nat with 1%nat by (simpl; lia).
  by rewrite decide_True.
Qed.

Lemma replies_lookup r w : replies w !! r = reply_view r w ≫= value.
Proof. unfold replies, reply_view. rewrite lookup_omap. by destruct (oneshots w !! r). Qed.

Lemma replies_drop_sender r w : replies (on_oneshot oneshot_drop_sender r w) = replies w.
Proof.
  apply map_eq. intros k. unfold replies. rewrite !lookup_omap. simpl.
  destruct (decide (r = k)) as [->|Hk]; [|by rewrite lookup_alter_ne].
  rewrite lookup_alter_eq. destruct (oneshots w !! k) as [o|]; [|done]. simpl.
  by rewrite oneshot_drop_sender_spec.
Qed.

(** Sending changes one reply, if any. *)
Lemma replies_send r m w :
  replies (reply_send r m w).1 =
    match (reply_send r m w).2 with Ok _ => <[r := m]> (replies w) | Err _ => replies w end.
Proof.
  unfold reply_send. destruct (oneshots w !! r) as [o|] eqn:Eo; [|done].
  pose proof (oneshot_send_spec m o) as Hs. destruct (oneshot_send m o) as [x o'].
  unfold on_snd, view_oneshot_send in Hs. cbn [fst snd] in Hs.
  destruct (receiver_alive (oneshot_look o)); injection Hs as -> Ho'; cbn [fst snd];
    apply map_eq; intros k; unfold replies; simpl;
    (destruct (decide (r = k)) as [->|Hk];
      [rewrite ?lookup_insert_eq, !lookup_omap, ?lookup_insert_eq
      |rewrite ?lookup_insert_ne, !lookup_omap, ?lookup_insert_ne by done]); simpl; try done.
  - by rewrite Ho'.
  - rewrite Eo. simpl. by rewrite Ho'.
Qed.

Lemma filled_nothing w w' : replies w' = replies w -> filled w w' = ∅.
Proof.
  intros E. unfold filled. rewrite E. apply map_empty. intros r.
  apply map_lookup_filter_None. right. intros m Hm Hn. by rewrite Hm in Hn.
Qed.

Lemma filled_one r m w w' :
  replies w' = <[r := m]> (replies w) -> filled w w' ∪ {[r := m]} = {[r := m]}.
Proof.
  intros E. apply map_subseteq_union, map_subseteq_spec. intros k x.
  unfold filled. rewrite map_lookup_filter_Some, E. intros [Hk Hn].
  destruct (decide (r = k)) as [<-|Hne].
  - rewrite lookup_insert_eq in Hk. injection Hk as ->. apply lookup_singleton_eq.
  - by rewrite lookup_insert_ne in Hk.
Qed.

(** A round that moves no message. *)
Lemma round_moves_nothing env a w w' b :
  main_queue env w' = main_queue env w -> replies w' = replies w -> b <> WaitRequest ->
  taken env w w' = [] /\ handed env w w' a b = [].
Proof.
  intros Hq Hr Hb. unfold taken, handed. rewrite Hq, filled_nothing by done.
  split; [apply left_nothing|]. by destruct a, b.
Qed.

Lemma round_accounts env a w w' b :
  run (dispatcher_step env a) w = Done w' (Some b) ->
  in_hand a ++ taken env w w' = (handed env w w' a b).*2 ++ in_hand b.
Proof.
  intros Hround. pose proof (round_cases env a w w' b Hround) as Hcase.
  destruct a as [|r|r m|m|]; cbn [dispatcher_step] in Hround; [..|done].
  - apply run_recv_done in Hround as (c & x & c' & _ & _ & Hr).
    assert (b <> WaitRequest) as Hb by (by destruct x; injection Hr as _ <-).
    destruct (round_moves_nothing env WaitRequest w w' b) as [-> ->]; [..|by rewrite Hcase];
      [by destruct x; injection Hr as <- _..|done].
  - destruct Hcase as [->|(v & m & q & -> & Hv & Hq & Hv')].
    + apply run_recv_done in Hround as (c & [m|] & c' & Hc & Hx & Hr); [done|]. injection Hr as <-.
      destruct (chan_view_recv _ _ _ _ Hc Hx) as [Hv Hv'].
      apply recv_view in Hx as (_ & _ & Hc'). rewrite Hc' in Hv'.
      edestruct (round_moves_nothing env (WaitMessage r) w) as [-> ->];
        [|etrans; [apply replies_drop_sender|done]|done..].
      unfold main_queue. rewrite Hv. unfold chan_view in *. simpl in *. by rewrite Hv'.
    + apply run_recv_done in Hround as (c & [x|] & c' & _ & _ & Hr); [|done]. injection Hr as <- _.
      unfold taken, handed, main_queue. rewrite Hv, Hv', Hq, filled_nothing by done.
      simpl. by rewrite left_front.
  - rewrite run_act_bind in Hround. pose proof (replies_send r m w) as Hs.
    assert (forall x, reply_send r m w = x -> main_queue env x.1 = main_queue env w) as Hq.
    { intros x <-. unfold reply_send. destruct (oneshots w !! r) as [o|]; [|done].
      by destruct (oneshot_send m o). }
    specialize (Hq _ eq_refl).
    destruct (reply_send r m w) as [w1 [[]|m']] eqn:Em; cbn [fst snd] in *; injection Hround as -> <-.
    + unfold taken, handed. rewrite Hq, Hs, lookup_insert_eq, filled_one, left_nothing by done.
      by rewrite map_to_list_singleton.
    + destruct Hcase as [[= ->]|(o & [=] & _)].
      by destruct (round_moves_nothing env (Deliver r m) w w' (WaitNext m)) as [-> ->].
  - apply run_recv_done in Hround as (c & x & c' & _ & _ & Hr).
    destruct Hcase as [[r ->]|(v & -> & Hv & Hq & Hn)].
    + destruct (round_moves_nothing env (WaitNext m) w w' (Deliver r m)) as [-> ->];
        [by destruct x; injection Hr as <-..|done|done].
    + assert (main_queue env w' = main_queue env w /\ replies w' = replies w) as [Hm Hr']
        by (by destruct x; injection Hr as <-).
      unfold taken, handed. rewrite Hm, left_nothing, filled_nothing, Hv by done. simpl.
      by rewrite Hq, Hn, decide_True.
Qed.

(** One round of the dispatcher, at each of its positions. It takes a message only from the
    front of the main queue, and only for a consumer that has asked for one; a message it hands
    over is in that consumer's reply; a message whose consumer has gone stays with it for the
    next; it gives one up only when no request is queued and no request sender is left. *)
Theorem dispatcher_round env a w w' b
    (Hround : run (dispatcher_step env a) w = Done w' (Some b)) :
  match a with
  | WaitRequest => in_hand b = []
  | WaitMessage r =>
      b = Finished \/
      exists v m q, b = Deliver r m /\ chan_view (main_receiver env) w = Some v /\
        queue v = m :: q /\ chan_view (main_receiver env) w' = Some (set_queue q v)
  | Deliver r m =>
      b = WaitNext m \/
      exists o, b = WaitRequest /\ reply_view r w = Some o /\ receiver_alive o = true /\
        reply_view r w' = Some (mkOneshot (Some m) false true)
  | WaitNext m =>
      (exists r, b = Deliver r m) \/
      exists v, b = WaitRequest /\ req_view (req_rx env) w = Some v /\ queue v = [] /\
        senders v = 0%nat
  | Finished => False
  end.
Proof. by apply round_cases. Qed.

(** ** Whole runs *)

(** Rounds of the dispatcher between which the rest of the world may change in any way. *)
Inductive dispatches env : World * dispatcher_at -> list Message ->
    list (option oneshot_id * Message) -> World * dispatcher_at -> Prop :=
| dispatches_nil w a : dispatches env (w, a) [] [] (w, a)
| dispatches_round w a w1 b c took gave :
    run (dispatcher_step env a) w = Done w1 (Some b) ->
    dispatches env (w1, b) took gave c ->
    dispatches env (w, a) (taken env w w1 ++ took) (handed env w w1 a b ++ gave) c
| dispatches_other w w1 a c took gave :
    dispatches env (w1, a) took gave c ->
    dispatches env (w, a) took gave c.

(** C18: for as long as a dispatcher runs, and whatever others do meanwhile, the messages that
    leave the main queue in its rounds, at whatever position, are, in that order and each once,
    those it has handed over - which now sit in replies, where they were not - followed by the one
    it holds: no message is lost, repeated or reordered, except that one may be handed to nobody
    once no request is queued and no request sender is left. *)
Theorem dispatcher_fifo env w a w' b took gave
    (Hrun : dispatches env (w, a) took gave (w', b)) :
  in_hand a ++ took = gave.*2 ++ in_hand b.
Proof.
  remember (w, a) as c eqn:Ec. remember (w', b) as c' eqn:Ec'. revert w a Ec Ec'.
  induction Hrun as [w0 a0|w0 a0 w1 b0 c0 t g Hr _ IH|w0 w1 a0 c0 t g _ IH]; intros w2 a2 Ec Ec'.
  - simplify_eq. by rewrite app_nil_r.
  - simplify_eq. apply round_accounts in Hr.
    rewrite fmap_app, app_assoc, Hr, <-!app_assoc. f_equal. by eapply IH.
  - simplify_eq. by eapply IH.
Qed.

(** With a request and a message queued and the consumer waiting, three rounds of the
    dispatcher put the first message into the reply of the first request. *)
Theorem dispatcher_delivers env w rv r rs mv m ms
    (Hreq : req_view (req_rx env) w = Some rv) (Hrq : queue rv = r :: rs)
    (Hmain : chan_view (main_receiver env) w = Some mv) (Hmq : queue mv = m :: ms)
    (Hreply : reply_view r w = Some (mkOneshot None true true)) :
  exists w1 w2 w3,
    run (dispatcher_step env WaitRequest) w = Done w1 (Some (WaitMessage r)) /\
    run (dispatcher_step env (WaitMessage r)) w1 = Done w2 (Some (Deliver r m)) /\
    run (dispatcher_step env (Deliver r m)) w2 = Done w3 (Some WaitRequest) /\
    reply_view r w3 = Some (mkOneshot (Some m) false true) /\
    chan_view (main_receiver env) w3 = Some (set_queue ms mv) /\
    req_view (req_rx env) w3 = Some (set_queue rs rv).
Proof.
  unfold req_view, chan_view, reply_view in *.
  destruct (reqs w !! req_rx env) as [rc|] eqn:Erc; [|done]. injection Hreq as Hreq.
  destruct (chans w !! main_receiver env) as [mc|] eqn:Emc; [|done]. injection Hmain as Hmain.
  destruct (oneshots w !! r) as [o|] eqn:Eo; [|done]. injection Hreply as Hreply.
  assert (exists rc', mpsc_recv rc = Some (Some r, rc') /\ mpsc_look rc' = set_queue rs rv)
    as (rc' & Hr1 & Hr2).
  { pose proof (mpsc_recv_spec rc) as Hs. unfold view_recv, view_try_recv in Hs.
    rewrite Hreq, Hrq in Hs. destruct (mpsc_recv rc) as [[x c']|]; [|done].
    injection Hs as -> Hl. eauto. }
  assert (exists mc', mpsc_recv mc = Some (Some m, mc') /\ mpsc_look mc' = set_queue ms mv)
    as (mc' & Hm1 & Hm2).
  { pose proof (mpsc_recv_spec mc) as Hs. unfold view_recv, view_try_recv in Hs.
    rewrite Hmain, Hmq in Hs. destruct (mpsc_recv mc) as [[x c']|]; [|done].
    injection Hs as -> Hl. eauto. }
  pose proof (oneshot_send_spec m o) as Hs. rewrite Hreply in Hs.
  destruct (oneshot_send m o) as [x o'] eqn:Es. unfold on_snd, view_oneshot_send in Hs.
  simpl in Hs. injection Hs as -> Ho'.
  eexists _, _, _. split; [|split; [|split]].
  - cbn [dispatcher_step]. rewrite (run_recv_bind (req_rx env) rc) by done. by rewrite Hr1.
  - cbn [dispatcher_step]. rewrite (run_recv_bind (main_receiver env) mc) by done. by rewrite Hm1.
  - cbn [dispatcher_step]. rewrite run_act_bind. unfold reply_send. simpl. rewrite Eo, Es. done.
  - simpl. rewrite !lookup_insert_eq. simpl. by rewrite Ho', Hm2, Hr2.
Qed.

(** ** Cancellation *)

Lemma drop_sender_view r x w o :
  reply_view r w = Some o ->
  reply_view r (on_oneshot oneshot_drop_sender x w) =
    Some (if decide (x = r) then view_oneshot_drop_sender o else o).
Proof.
  unfold reply_view. simpl. destruct (decide (x = r)) as [->|Hne]; intros Ho;
    [rewrite lookup_alter_eq|by rewrite lookup_alter_ne].
  destruct (oneshots w !! r); [|done]. simpl in *. injection Ho as <-.
  by rewrite oneshot_drop_sender_spec.
Qed.

Lemma drop_senders_view r l w o :
  reply_view r w = Some o ->
  reply_view r (foldr (on_oneshot oneshot_drop_sender) w l) =
    Some (if decide (r ∈ l) then view_oneshot_drop_sender o else o).
Proof.
  intros Ho. induction l as [|x l IH]; [by rewrite decide_False by set_solver|].
  cbn [foldr]. rewrite (drop_sender_view _ _ _ _ IH). f_equal.
  pose proof (elem_of_cons l r x). repeat case_decide; naive_solver.
Qed.

(** C32: when the dispatcher is cancelled, or dropped at any other point of its loop, every
    consumer that waits for a message is released: the senders of the replies queued with it, and
    of the one it was serving, are dropped, so each wait ends with an error; and the main channel
    is closed to publishers. *)
Theorem cancelled_dispatcher_releases env a w rv r o
    (Hreq : req_view (req_rx env) w = Some rv)
    (Hwait : r ∈ queue rv \/ a = WaitMessage r \/ exists m, a = Deliver r m)
    (Hreply : reply_view r w = Some o) :
  let w' := dispatcher_drop env a w in
  reply_view r w' = Some (view_oneshot_drop_sender o) /\
  (value o = None -> exists w'', reply_recv r w' = Some (w'', Err tt)) /\
  (forall v, chan_view (main_receiver env) w = Some v ->
     chan_view (main_receiver env) w' = Some (view_drop_receiver v)).
Proof.
  cbv zeta. unfold dispatcher_drop, drop_req_receiver.
  set (w1 := match a with
             | WaitMessage x | Deliver x _ => on_oneshot oneshot_drop_sender x w
             | _ => w
             end).
  set (w2 := on_chan mpsc_drop_receiver (main_receiver env) w1).
  assert (reqs w2 = reqs w) as Er by (by unfold w2, w1; destruct a).
  unfold req_view in Hreq. rewrite Er. destruct (reqs w !! req_rx env) as [c|] eqn:Ec; [|done].
  injection Hreq as Hc. rewrite Hc.
  set (w3 := on_req mpsc_drop_receiver (req_rx env) w2).
  assert (exists o1, reply_view r w3 = Some o1 /\ (o1 = o \/ o1 = view_oneshot_drop_sender o) /\
    ((a = WaitMessage r \/ exists m, a = Deliver r m) -> o1 = view_oneshot_drop_sender o))
    as (o1 & Ho1 & Hor & Ha).
  { change (reply_view r w3) with (reply_view r w1). pose proof (drop_sender_view r) as Hd.
    unfold w1. destruct a as [|x|x m|m|]; try (exists o; naive_solver);
      (eexists; split; [by apply Hd|]; case_decide; [by auto|naive_solver]). }
  pose proof (drop_senders_view r (queue rv) w3 o1 Ho1) as Hd.
  assert (reply_view r (foldr (on_oneshot oneshot_drop_sender) w3 (queue rv)) =
    Some (view_oneshot_drop_sender o)) as Hfin.
  { rewrite Hd. f_equal. destruct (decide (r ∈ queue rv)); [by destruct Hor as [-> | ->]|].
    destruct Hwait; [done|by apply Ha]. }
  split_and!; [exact Hfin| |].
  - intros Hv. apply reply_recv_view in Hfin. unfold view_oneshot_recv in Hfin. simpl in Hfin.
    rewrite Hv in Hfin. destruct Hfin as (w'' & ? & _). by exists w''.
  - intros v Hv. assert (forall l u, chan_view (main_receiver env)
      (foldr (on_oneshot oneshot_drop_sender) u l) = chan_view (main_receiver env) u) as Hl.
    { intros l u. by induction l. }
    rewrite Hl. change (chan_view (main_receiver env) w3) with (chan_view (main_receiver env) w2).
    unfold w2, chan_view in *. simpl. rewrite lookup_alter_eq.
    assert (chans w1 = chans w) as -> by (by unfold w1; destruct a).
    destruct (chans w !! main_receiver env); [|done]. simpl in *. injection Hv as <-.
    by rewrite mpsc_drop_receiver_spec.
Qed.
End Dispatching.

(** ** Witnesses *)

Section Witnesses.
(** A dispatcher with one request, of reply 7, and one message queued. *)
Definition an_env : dispatcher_env := mkDispatcherEnv 0 2 1 users.

Definition busy : World :=
  set_reqs {[2 := mkMpsc [7] 1000 1 true]}
    (set_chans {[0 := mkMpsc [ping] 4 1 true]} waiting).

Lemma busy_reqs : req_view (req_rx an_env) busy = Some (mkMpsc [7] 1000 1 true).
Proof. vm_compute. reflexivity. Qed.

Lemma busy_main : chan_view (main_receiver an_env) busy = Some (mkMpsc [ping] 4 1 true).
Proof. vm_compute. reflexivity. Qed.

Lemma busy_reply : reply_view 7 busy = Some (mkOneshot None true true).
Proof. exact waiting_reply. Qed.

Lemma dispatcher_delivers_witness :
  exists w1 w2 w3,
    run (dispatcher_step an_env WaitRequest) busy = Done w1 (Some (WaitMessage 7)) /\
    run (dispatcher_step an_env (WaitMessage 7)) w1 = Done w2 (Some (Deliver 7 ping)) /\
    run (dispatcher_step an_env (Deliver 7 ping)) w2 = Done w3 (Some WaitRequest) /\
    reply_view 7 w3 = Some (mkOneshot (Some ping) false true).
Proof.
  pose proof (dispatcher_delivers an_env busy _ 7 [] _ ping [] busy_reqs eq_refl busy_main eq_refl
    busy_reply) as (w1 & w2 & w3 & H1 & H2 & H3 & Hr & _).
  exists w1, w2, w3. split_and!; [exact H1|exact H2|exact H3|exact Hr].
Defined.

(** The message handed to the consumer that waits. *)
Definition handing : World * dispatcher_at := (busy, Deliver 7 ping).

Lemma handing_round : exists w',
  run (dispatcher_step an_env (Deliver 7 ping)) busy = Done w' (Some WaitRequest).
Proof.
  eexists. reflexivity.
Qed.

Lemma dispatcher_round_witness :
  exists w', run (dispatcher_step an_env (Deliver 7 ping)) busy = Done w' (Some WaitRequest) /\
    reply_view 7 w' = Some (mkOneshot (Some ping) false true).
Proof.
  pose proof handing_round as [w' Hr].
  pose proof (dispatcher_round an_env (Deliver 7 ping) busy w' WaitRequest Hr) as Hd.
  exists w'. split; [exact Hr|]. destruct Hd as [Hd|(o & _ & _ & _ & Hv)]; [discriminate Hd|exact Hv].
Defined.

(** Three rounds, in which the queued message leaves the queue and is in the reply. *)
Lemma dispatches_first env w a w1 b c took gave took' gave' :
  run (dispatcher_step env a) w = Done w1 (Some b) ->
  took' = taken env w w1 ++ took -> gave' = handed env w w1 a b ++ gave ->
  dispatches env (w1, b) took gave c -> dispatches env (w, a) took' gave' c.
Proof. intros Hr -> ->. by apply dispatches_round. Qed.

Definition after (a : dispatcher_at) (w : World) : World :=
  final_state (run (dispatcher_step an_env a) w).

Definition served : World := after (Deliver 7 ping) (after (WaitMessage 7) (after WaitRequest busy)).

Lemma three_rounds :
  dispatches an_env (busy, WaitRequest) [ping] [(Some 7, ping)] (served, WaitRequest).
Proof.
  apply (dispatches_first _ _ _ (after WaitRequest busy) (WaitMessage 7) _ [ping] [(Some 7, ping)]);
    [reflexivity|vm_compute; reflexivity..|].
  apply (dispatches_first _ _ _ (after (WaitMessage 7) (after WaitRequest busy)) (Deliver 7 ping) _ []
    [(Some 7, ping)]); [reflexivity|vm_compute; reflexivity..|].
  apply (dispatches_first _ _ _ served WaitRequest _ [] []); [reflexivity|vm_compute; reflexivity..|].
  apply dispatches_nil.
Qed.

Lemma dispatcher_fifo_witness :
  dispatches an_env (busy, WaitRequest) [ping] [(Some 7, ping)] (served, WaitRequest) /\
  in_hand WaitRequest ++ [ping] = [(Some 7, ping)].*2 ++ in_hand WaitRequest.
Proof.
  split; [exact three_rounds|].
  exact (dispatcher_fifo an_env busy WaitRequest served WaitRequest _ _ three_rounds).
Defined.

Lemma cancelled_dispatcher_releases_witness :
  exists w'', reply_recv 7 (dispatcher_drop an_env WaitRequest busy) = Some (w'', Err tt).
Proof.
  pose proof (cancelled_dispatcher_releases an_env WaitRequest busy _ 7 _ busy_reqs
    (or_introl (list_elem_of_here 7 [])) busy_reply) as (_ & Hv & _).
  exact (Hv eq_refl).
Defined.
End Witnesses.
