(* ===== verification/RuntimeDelivery.v ===== *)
(** * RuntimeDelivery: messages that pass through several threads and tasks

    Executions of the whole broker, with the steps of Runtime.v: a consumer of a load-balanced
    group is served by the group's dispatcher task, and a request travels to a service and its
    reply back through the listener task of the client. *)

From S2P Require Import Prelude.
From S2P Require Import Config.
From S2P Require Import Protocol.
From S2P Require Import Utf8.
From S2P Require Import RadixIface.
From S2P Require Import ChanIface.
From S2P Require Import Async.
From S2P Require Import Registry.
From S2P Require Import RegistryProps.
From S2P Require Import World.
From S2P Require Import Channel.
From S2P Require Import Routing.
From S2P Require Import RegistryOps.
From S2P Require Import Dispatcher.
From S2P Require Import Subscriber.
From S2P Require Import Transport.
From S2P Require Import ReplyDispatcher.
From S2P Require Import Publisher.
From S2P Require Import Client.
From S2P Require Import Runtime.
From S2P Require Import RunFacts.
From S2P Require Import RuntimeProps.
From S2P Require Import LifecycleProps.
From S2P Require Import MessagingProps.
From S2P Require Import EndToEnd.
From S2P Require Import DispatcherProps.

Local Open Scope broker_scope.

Section Delivery.
Context {D : Deps}.
Implicit Types (w : World) (ts : list (proc World unit)).
Implicit Types (rs : gmap task_id (proc World (option task_state))).

(** ** Whole computations as steps of the runtime *)

(** A thread runs a part of its program to the end, or as far as it gets. *)
Lemma thread_runs {A} (p : proc World A) (K : A -> proc World unit) ts i w rs :
  ts !! i = Some (bind p K) ->
  match run p w with
  | Done w' a => rtc runtime_step (mkConfig w ts rs) (mkConfig w' (<[i := K a]> ts) rs)
  | Blocked w' q => rtc runtime_step (mkConfig w ts rs) (mkConfig w' (<[i := bind q K]> ts) rs)
  | Panicked _ => True
  end.
Proof.
  revert ts w. induction p as [a| |d0 f IH] using proc_ind'; intros ts w Hi; cbn [run].
  - by rewrite list_insert_id.
  - done.
  - destruct (f w) as [[w1 p1]|] eqn:E; [|by rewrite list_insert_id].
    specialize (IH w w1 p1 E (<[i := bind p1 K]> ts) w1).
    rewrite list_lookup_insert_eq in IH by by eapply lookup_lt_Some.
    specialize (IH eq_refl).
    assert (runtime_step (mkConfig w ts rs) (mkConfig w1 (<[i := bind p1 K]> ts) rs)) as Hs.
    { eapply thread_step; [exact Hi|]. cbn beta. by rewrite E. }
    destruct (run p1 w1); rewrite ?list_insert_insert_eq in IH; [by eapply rtc_l|done|by eapply rtc_l].
Qed.

Lemma thread_done {A} (p : proc World A) (K : A -> proc World unit) ts i w w' a rs :
  ts !! i = Some (bind p K) -> run p w = Done w' a ->
  rtc runtime_step (mkConfig w ts rs) (mkConfig w' (<[i := K a]> ts) rs).
Proof. intros Hi Hr. pose proof (thread_runs p K ts i w rs Hi) as H. by rewrite Hr in H. Qed.

Lemma thread_blocked {A} (p : proc World A) (K : A -> proc World unit) ts i w w' q rs :
  ts !! i = Some (bind p K) -> run p w = Blocked w' q ->
  rtc runtime_step (mkConfig w ts rs) (mkConfig w' (<[i := bind q K]> ts) rs).
Proof. intros Hi Hr. pose proof (thread_runs p K ts i w rs Hi) as H. by rewrite Hr in H. Qed.

(** A round that has been started runs to its end. *)
Lemma round_rest p w w' r rs k ts :
  rs !! k = Some p -> run p w = Done w' r ->
  rtc runtime_step (mkConfig w ts rs) (mkConfig (end_round k r w') ts (delete k rs)).
Proof.
  revert w rs. induction p as [a| |d0 f IH] using proc_ind'; intros w rs Hk Hr; simpl in Hr.
  - simplify_eq. by apply rtc_once, round_end.
  - done.
  - destruct (f w) as [[w1 p1]|] eqn:E; [|done].
    eapply rtc_l; [by eapply round_step|].
    rewrite <-(delete_insert_eq rs k p1). by apply (IH w w1 p1 E); [apply lookup_insert_eq|].
Qed.

(** A task that is not aborted runs one round. *)
Lemma task_runs st w w' r rs k ts :
  tasks w !! k = Some (mkTask st false) -> rs !! k = None -> run (task_round st) w = Done w' r ->
  rtc runtime_step (mkConfig w ts rs) (mkConfig (end_round k r w') ts rs).
Proof.
  intros Hk Hrs Hr. assert (exists dr f, task_round st = Act dr f) as (dr & f & Hf).
  { destruct st as [env []|[[]] ?]; eexists _, _; reflexivity. }
  rewrite Hf in Hr. simpl in Hr. destruct (f w) as [[w1 p1]|] eqn:E; [|done].
  eapply rtc_l; [by eapply round_start|].
  rewrite <-(delete_insert_id rs k p1) at 2 by done.
  eapply round_rest; [apply lookup_insert_eq|done].
Qed.

(** ** Consumers of a group *)

Lemma run_recv_first {M B} `{!Channels M} k (c : Chan M) m q (f : option M -> proc World B) w :
  get_channels w !! k = Some c -> queue (mpsc_look c) = m :: q ->
  exists c', run (bind (Receiver_recv k) f) w = run (f (Some m)) (put_channel k c' w) /\
    mpsc_look c' = set_queue q (mpsc_look c).
Proof.
  intros Hc Hq. rewrite (run_recv_bind k c) by done. pose proof (mpsc_recv_spec c) as Hs.
  unfold view_recv, view_try_recv in Hs. rewrite Hq in Hs.
  destruct (mpsc_recv c) as [[x c']|]; [|done]. injection Hs as -> Hc'. eauto.
Qed.

(** A consumer's request is queued for the dispatcher, and the consumer waits for the reply. When
    it gives up instead, it drops the reply's receiver and leaves its request behind. *)
Lemma pull_waits req g a w rv :
  req_view req w = Some rv -> queue rv = [] -> receiver rv = true -> (1 <= max_cap rv)%Z ->
  exists w1 p, run (Subscriber_recv (new_pull req g a)) w = Blocked w1 p /\
    req_view req w1 = Some (set_queue [next_id w] rv) /\
    reply_view (next_id w) w1 = Some (mkOneshot None true true) /\
    chans w1 = chans w /\ tasks w1 = tasks w /\
    run (abandon impatient (Subscriber_recv (new_pull req g a))) w =
      Done (on_oneshot oneshot_drop_receiver (next_id w) w1) None /\
    forall w2 m sa ra, reply_view (next_id w) w2 = Some (mkOneshot (Some m) sa ra) ->
      exists w3, run p w2 = Done w3 (Some m) /\ chans w3 = chans w2 /\ reqs w3 = reqs w2 /\
        tasks w3 = tasks w2.
Proof.
  intros Hv Hq Hopen Hcap. set (r := next_id w).
  set (w0 := bump_id (set_oneshots (<[r := oneshot_channel]> (oneshots w)) w)).
  unfold req_view in Hv. destruct (reqs w !! req) as [c|] eqn:Hc; [|done]. injection Hv as Hv.
  pose proof (mpsc_send_spec r c) as Hs. unfold view_send, view_try_send in Hs.
  rewrite Hv, Hopen in Hs. cbn [negb] in Hs.
  rewrite decide_True in Hs by (unfold free; rewrite Hq; simpl; lia).
  destruct (mpsc_send r c) as [[x c']|] eqn:Esend; [|done]. injection Hs as -> Hc'.
  set (w1 := put_channel (M := oneshot_id) req c' w0).
  assert (reply_view r w1 = Some (mkOneshot None true true)) as Hr.
  { unfold reply_view. simpl. rewrite lookup_insert_eq. simpl. by rewrite oneshot_channel_spec. }
  set (p := bind (owning (on_oneshot oneshot_drop_receiver r) (await (reply_recv r)))
    (fun m : result Message unit => Ret (match m with Ok m => Some m | Err _ => None end))).
  assert (run (Subscriber_recv (new_pull req g a)) w = Blocked w1 p) as Hrun.
  { unfold Subscriber_recv. cbn [mode new_pull].
    rewrite run_bind. unfold RequestSender_request, new_oneshot. rewrite run_bind.
    unfold alloc. rewrite run_act. cbn [fst snd].
    fold r. change (bump_id (set_oneshots _ w)) with w0. unfold Sender_send.
    rewrite (run_owning_poll_bind (M := oneshot_id) _ req c) by exact Hc. rewrite Esend.
    cbn [mbind option_bind map_err run]. fold w1.
    pose proof (reply_recv_view r w1 _ Hr) as Hn. change (reply_recv r w1 = None) in Hn.
    unfold await at 1. cbn [bind owning run]. by rewrite Hn. }
  exists w1, p. split_and!; [exact Hrun| |done..| |].
  - unfold req_view, w1. simpl. rewrite lookup_insert_eq. simpl. by rewrite Hc', Hq.
  - by rewrite run_impatient, Hrun.
  - intros w2 m sa ra Hm. unfold reply_view in Hm.
    destruct (oneshots w2 !! r) as [o|] eqn:Ho; [|done]. injection Hm as Hm.
    pose proof (oneshot_recv_spec o) as Hs. rewrite Hm in Hs. unfold view_oneshot_recv in Hs.
    simpl in Hs. destruct (oneshot_recv o) as [[x o']|] eqn:Eo; [|done]. injection Hs as -> _.
    eexists. unfold p. rewrite run_bind, run_owning. unfold await, reply_recv. cbn [run].
    rewrite Ho. cbn [mbind option_bind]. rewrite Eo. cbn. split; [reflexivity|done].
Qed.

(** A group: where its dispatcher task is, what is requested and what is queued. *)
Definition group_at d env a rv v w : Prop :=
  tasks w !! d = Some (mkTask (DispatcherTask env a) false) /\
  req_view (req_rx env) w = Some rv /\ chan_view (main_receiver env) w = Some v.

Abbreviation idle_group d env := (group_at d env WaitRequest).

(** One round of the dispatcher, from one position to the next. *)
Lemma round_task env a b w w' d rs ts :
  tasks w !! d = Some (mkTask (DispatcherTask env a) false) -> rs !! d = None ->
  run (dispatcher_step env a) w = Done w' (Some b) -> tasks w' = tasks w ->
  let w2 := end_round d (Some (DispatcherTask env b)) w' in
  rtc runtime_step (mkConfig w ts rs) (mkConfig w2 ts rs) /\
  tasks w2 !! d = Some (mkTask (DispatcherTask env b) false).
Proof.
  intros Hd Hrs Hr Ht. cbv zeta. split.
  - eapply task_runs; [done..|]. unfold task_round. by rewrite run_bind, Hr.
  - simpl. by rewrite lookup_alter_eq, Ht, Hd.
Qed.

Section Rounds.
Context (d : task_id) (env : dispatcher_env) (rs : gmap task_id (proc World (option task_state))).
Context (ts : list (proc World unit)) (Hidle : rs !! d = None).

(** It takes the first request. *)
Lemma take_request a f z rv v r q w :
  dispatcher_step env a = bind (Receiver_recv (M := oneshot_id) (req_rx env))
    (fun x => match x with Some tx => Ret (Some (f tx)) | None => Ret z end) ->
  group_at d env a rv v w -> queue rv = r :: q ->
  exists w', rtc runtime_step (mkConfig w ts rs) (mkConfig w' ts rs) /\
    group_at d env (f r) (set_queue q rv) v w' /\ oneshots w' = oneshots w.
Proof.
  intros Ha (Hd & Hrv & Hv) Hq. unfold req_view in Hrv.
  destruct (reqs w !! req_rx env) as [c|] eqn:Ec; [|done]. injection Hrv as <-.
  destruct (@run_recv_first oneshot_id _ request_channels (req_rx env) c r q (fun x => match x with
    | Some tx => Ret (Some (f tx)) | None => Ret z end) w Ec Hq) as (c' & Hr & Hl).
  rewrite <-Ha in Hr. destruct (round_task env a (f r) _ _ d rs ts Hd Hidle Hr eq_refl) as [S1 D1].
  eexists. split; [exact S1|]. split; [|done]. split; [exact D1|]. split; [|exact Hv].
  unfold req_view. simpl. rewrite lookup_insert_eq. simpl. by rewrite Hl.
Qed.

(** It takes the first message for the consumer it serves. *)
Lemma take_message r rv v m q w :
  group_at d env (WaitMessage r) rv v w -> queue v = m :: q ->
  exists w', rtc runtime_step (mkConfig w ts rs) (mkConfig w' ts rs) /\
    group_at d env (Deliver r m) rv (set_queue q v) w' /\ oneshots w' = oneshots w.
Proof.
  intros (Hd & Hrv & Hv) Hq. unfold chan_view in Hv.
  destruct (chans w !! main_receiver env) as [c|] eqn:Ec; [|done]. injection Hv as <-.
  destruct (@run_recv_first Message _ message_channels (main_receiver env) c m q (fun x => match x with
    | Some m => Ret (Some (Deliver r m))
    | None => let! _ := write (on_oneshot oneshot_drop_sender r) in Ret (Some Finished)
    end) w Ec Hq) as (c' & Hr & Hl).
  destruct (round_task env (WaitMessage r) (Deliver r m) _ _ d rs ts Hd Hidle Hr eq_refl) as [S1 D1].
  eexists. split; [exact S1|]. split; [|done]. split; [exact D1|]. split; [exact Hrv|].
  unfold chan_view. simpl. rewrite lookup_insert_eq. simpl. by rewrite Hl.
Qed.

(** It hands the message over, or keeps it when the consumer has gone. *)
Lemma deliver_or_keep r m rv v o w :
  group_at d env (Deliver r m) rv v w -> reply_view r w = Some o ->
  exists w', rtc runtime_step (mkConfig w ts rs) (mkConfig w' ts rs) /\
    group_at d env (if receiver_alive o then WaitRequest else WaitNext m) rv v w' /\
    (receiver_alive o = true -> reply_view r w' = Some (mkOneshot (Some m) false true)).
Proof.
  intros (Hd & Hrv & Hv) Ho. unfold reply_view in Ho.
  destruct (oneshots w !! r) as [o'|] eqn:Eo; [|done]. injection Ho as Ho.
  pose proof (oneshot_send_spec m o') as Hs. destruct (oneshot_send m o') as [x o2] eqn:Es.
  unfold on_snd, view_oneshot_send in Hs. rewrite Ho in Hs. simpl in Hs.
  set (w1 := set_oneshots (<[r := o2]> (oneshots w)) w).
  assert (run (dispatcher_step env (Deliver r m)) w =
    Done w1 (Some (if receiver_alive o then WaitRequest else WaitNext m))) as Hr.
  { cbn [dispatcher_step]. rewrite run_act_bind. unfold reply_send. rewrite Eo, Es. cbn [fst snd].
    destruct (receiver_alive o); by injection Hs as -> _. }
  destruct (round_task env (Deliver r m) _ w w1 d rs ts Hd Hidle Hr eq_refl) as [S1 D1].
  eexists. split; [exact S1|]. split; [by split|]. intros Ha. rewrite Ha in Hs.
  injection Hs as _ Ho2. unfold reply_view. simpl. rewrite lookup_insert_eq. simpl. by rewrite Ho2.
Qed.
End Rounds.

(** Three rounds hand the first message over to the first request. *)
Lemma serve_request d env w rs ts rv r q v m ms :
  rs !! d = None -> idle_group d env rv v w -> queue rv = r :: q -> queue v = m :: ms ->
  reply_view r w = Some (mkOneshot None true true) ->
  exists w', rtc runtime_step (mkConfig w ts rs) (mkConfig w' ts rs) /\
    idle_group d env (set_queue q rv) (set_queue ms v) w' /\
    reply_view r w' = Some (mkOneshot (Some m) false true).
Proof.
  intros Hrs Hg Hrq Hq Ho.
  destruct (take_request d env rs ts Hrs WaitRequest WaitMessage _ _ _ _ _ _ eq_refl Hg Hrq) as (w1 & S1 & G1 & O1).
  destruct (take_message d env rs ts Hrs _ _ _ _ _ _ G1 Hq) as (w2 & S2 & G2 & O2).
  destruct (deliver_or_keep d env rs ts Hrs _ _ _ _ (mkOneshot None true true) w2 G2) as (w3 & S3 & G3 & O3).
  { unfold reply_view. by rewrite O2, O1. }
  exists w3. split; [etrans; [exact S1|etrans; [exact S2|exact S3]]|]. split; [exact G3|by apply O3].
Qed.

(** A thread that receives [n] times and goes on with what it got. *)
Fixpoint receive_then (s : Subscriber) (n : nat) (got : list (option Message))
    (K : list (option Message) -> proc World unit) : proc World unit :=
  match n with
  | O => K got
  | S n => let! r := Subscriber_recv s in receive_then s n (got ++ [r]) K
  end.

Lemma consume d env g a rs rv v got K i q rest w ts :
  rs !! d = None -> queue rv = [] -> receiver rv = true -> (1 <= max_cap rv)%Z ->
  idle_group d env rv (set_queue (q ++ rest) v) w ->
  ts !! i = Some (receive_then (new_pull (req_rx env) g a) (length q) got K) ->
  exists w', rtc runtime_step (mkConfig w ts rs)
      (mkConfig w' (<[i := K (got ++ (Some <$> q))]> ts) rs) /\
    idle_group d env rv (set_queue rest v) w'.
Proof.
  intros Hrs Hrq Hopen Hcap. revert got w ts.
  induction q as [|m q IH]; intros got w ts Hg Hi.
  { exists w. split; [|done]. rewrite app_nil_r. by rewrite list_insert_id. }
  destruct Hg as (Hd & Hr & Hv).
  destruct (pull_waits (req_rx env) g a w rv Hr Hrq Hopen Hcap)
    as (w1 & p & Hrun & Hr1 & Ho1 & Hc1 & Ht1 & _ & Hdone).
  cbn [length receive_then] in Hi.
  set (F := fun r => receive_then (new_pull (req_rx env) g a) (length q) (got ++ [r]) K) in *.
  pose proof (thread_blocked _ F ts i w w1 p rs Hi Hrun) as S1.
  set (ts1 := <[i := bind p F]> ts) in *.
  destruct (serve_request d env w1 rs ts1 (set_queue [next_id w] rv) (next_id w) []
    (set_queue ((m :: q) ++ rest) v) m (q ++ rest)) as (w2 & S2 & (Hd2 & Hr2 & Hv2) & Ho2);
    [done| |done..|].
  { split; [by rewrite Ht1|]. split; [exact Hr1|]. unfold chan_view. by rewrite Hc1. }
  destruct (Hdone w2 m _ _ Ho2) as (w3 & Hr3 & Hc3 & Hreq3 & Ht3).
  assert (ts1 !! i = Some (bind p F)) as Hi1.
  { apply list_lookup_insert_eq. by eapply lookup_lt_Some. }
  pose proof (thread_done p F ts1 i w2 w3 _ rs Hi1 Hr3) as S3.
  unfold ts1 in S3. rewrite list_insert_insert_eq in S3.
  destruct (IH (got ++ [Some m]) w3 (<[i := F (Some m)]> ts)) as (w' & S4 & Hg).
  - unfold group_at, req_view, chan_view in *. rewrite Ht3, Hreq3, Hc3, Hr2, Hv2.
    destruct rv. simpl in *. by subst.
  - apply list_lookup_insert_eq. by eapply lookup_lt_Some.
  - exists w'. split; [|done]. rewrite list_insert_insert_eq in S4. rewrite <-app_assoc in S4.
    etrans; [exact S1|]. etrans; [exact S2|]. etrans; [exact S3|exact S4].
Qed.

(** A dispatcher left with a message hands it to the next consumer. *)
Lemma keeper_serves d env g a rs rv v m K j w ts :
  rs !! d = None -> queue rv = [] -> receiver rv = true -> (1 <= max_cap rv)%Z ->
  group_at d env (WaitNext m) rv v w ->
  ts !! j = Some (bind (Subscriber_recv (new_pull (req_rx env) g a)) K) ->
  exists w', rtc runtime_step (mkConfig w ts rs) (mkConfig w' (<[j := K (Some m)]> ts) rs) /\
    idle_group d env rv v w'.
Proof.
  intros Hrs Hempty Hopen Hcap (Hd & Hr & Hv) Hj.
  destruct (pull_waits (req_rx env) g a w rv Hr Hempty Hopen Hcap)
    as (w1 & p & Hrun & Hr1 & Ho1 & Hc1 & Ht1 & _ & Hdone).
  pose proof (thread_blocked _ K ts j w w1 p rs Hj Hrun) as S1.
  set (ts1 := <[j := bind p K]> ts) in *.
  assert (group_at d env (WaitNext m) (set_queue [next_id w] rv) v w1) as G1.
  { split; [by rewrite Ht1|]. split; [exact Hr1|]. unfold chan_view. by rewrite Hc1. }
  destruct (take_request d env rs ts1 Hrs (WaitNext m) (fun r => Deliver r m) _ _ _ _ _ _ eq_refl G1 eq_refl)
    as (w2 & S2 & G2 & O2).
  destruct (deliver_or_keep d env rs ts1 Hrs _ _ _ _ (mkOneshot None true true) w2 G2)
    as (w3 & S3 & (Hd3 & Hr3 & Hv3) & O3); [unfold reply_view; by rewrite O2|].
  destruct (Hdone w3 m _ _ (O3 eq_refl)) as (w4 & Hr4 & Hc4 & Hreq4 & Ht4).
  assert (ts1 !! j = Some (bind p K)) as Hj1.
  { apply list_lookup_insert_eq. by eapply lookup_lt_Some. }
  pose proof (thread_done p K ts1 j w3 w4 _ rs Hj1 Hr4) as S4.
  unfold ts1 in S4. rewrite list_insert_insert_eq in S4. exists w4. split.
  - etrans; [exact S1|]. etrans; [exact S2|]. etrans; [exact S3|exact S4].
  - unfold group_at, req_view, chan_view in *. rewrite Ht4, Hreq4, Hc4, Hr3.
    destruct rv. simpl in *. by subst.
Qed.

(** A consumer of a load-balanced group receives its messages through the dispatcher task.
    With the dispatcher at rest and the messages [q] first in the group's channel, a thread that
    receives [length q] times, in steps of the runtime that alternate between it and the
    dispatcher, gets exactly these messages, each once and in order; what came after them is
    still queued, and the dispatcher is at rest again. *)
Theorem group_delivery d env g a w ts rs i K q rest rv v
    (Hgroup : idle_group d env rv v w) (Hround : rs !! d = None) (Hempty : queue rv = [])
    (Hopen : receiver rv = true) (Hcap : (1 <= max_cap rv)%Z) (Hq : queue v = q ++ rest)
    (Hthread : ts !! i = Some (receive_then (new_pull (req_rx env) g a) (length q) [] K)) :
  exists w', rtc runtime_step (mkConfig w ts rs) (mkConfig w' (<[i := K (Some <$> q)]> ts) rs) /\
    idle_group d env rv (set_queue rest v) w'.
Proof.
  apply (consume d env g a rs rv v [] K i q rest w ts); try done. rewrite <-Hq. by destruct v.
Qed.

(** C12: a consumer that gives up loses no message of its group. It has requested one and drops
    its future while it waits, by a timeout, say; the dispatcher, which finds nobody to take the
    message it got for that request, keeps it for the next consumer that asks, and the steps of
    the dispatcher and of that consumer alone bring it the message. *)
Theorem abandoned_consumer d env g a g' a' w ts rs i j K K' m rest rv v
    (Hgroup : idle_group d env rv v w) (Hround : rs !! d = None) (Hempty : queue rv = [])
    (Hopen : receiver rv = true) (Hcap : (1 <= max_cap rv)%Z) (Hq : queue v = m :: rest)
    (Hij : i <> j)
    (Hi : ts !! i = Some (bind (abandon impatient (Subscriber_recv (new_pull (req_rx env) g a))) K))
    (Hj : ts !! j = Some (bind (Subscriber_recv (new_pull (req_rx env) g' a')) K')) :
  exists w1 w', rtc runtime_step (mkConfig w ts rs) (mkConfig w1 (<[i := K None]> ts) rs) /\
    rtc runtime_step (mkConfig w1 (<[i := K None]> ts) rs)
      (mkConfig w' (<[j := K' (Some m)]> (<[i := K None]> ts)) rs) /\
    idle_group d env rv (set_queue rest v) w'.
Proof.
  destruct Hgroup as (Hd & Hr & Hv).
  destruct (pull_waits (req_rx env) g a w rv Hr Hempty Hopen Hcap)
    as (w0 & _ & _ & Hr0 & Ho0 & Hc0 & Ht0 & Hrun & _).
  set (w1 := on_oneshot oneshot_drop_receiver (next_id w) w0) in *.
  pose proof (thread_done _ K ts i w w1 None rs Hi Hrun) as S0.
  set (ts1 := <[i := K None]> ts) in *. exists w1.
  assert (group_at d env WaitRequest (set_queue [next_id w] rv) v w1) as G1.
  { split; [simpl; by rewrite Ht0|]. split; [exact Hr0|]. unfold chan_view. simpl. by rewrite Hc0. }
  destruct (take_request d env rs ts1 Hround WaitRequest WaitMessage _ _ _ _ _ _ eq_refl G1 eq_refl)
    as (w2 & S2 & G2 & O2).
  destruct (take_message d env rs ts1 Hround _ _ _ _ _ _ G2 Hq) as (w3 & S3 & G3 & O3).
  destruct (deliver_or_keep d env rs ts1 Hround _ _ _ _
    (view_oneshot_drop_receiver (mkOneshot None true true)) w3 G3) as (w4 & S4 & G4 & _).
  { unfold reply_view. rewrite O3, O2. unfold reply_view in Ho0. simpl. rewrite lookup_alter_eq.
    destruct (oneshots w0 !! next_id w) as [o|]; [|done]. simpl in *. injection Ho0 as Ho0.
    by rewrite oneshot_drop_receiver_spec, Ho0. }
  destruct (keeper_serves d env g' a' rs rv (set_queue rest v) m K' j w4 ts1) as (w' & S5 & G5);
    [done..| |by unfold ts1; rewrite list_lookup_insert_ne|].
  { destruct G4 as (Hd4 & Hr4 & Hv4). split; [exact Hd4|]. split; [|exact Hv4]. rewrite Hr4.
    destruct rv. simpl in *. by subst. }
  exists w'. split; [exact S0|]. split; [|exact G5].
  etrans; [exact S2|]. etrans; [exact S3|]. etrans; [exact S4|exact S5].
Qed.

(** ** A request and its reply *)

Lemma recv_push a tx w v m q :
  chan_view tx w = Some v -> queue v = m :: q ->
  exists c', run (Subscriber_recv (new_push tx a)) w = Done (put_channel tx c' w) (Some m) /\
    mpsc_look c' = set_queue q v.
Proof.
  unfold chan_view. destruct (chans w !! tx) as [c|] eqn:Hc; [|done]. intros [= <-] Hq.
  pose proof (mpsc_recv_spec c) as Hs. unfold view_recv, view_try_recv in Hs. rewrite Hq in Hs.
  destruct (mpsc_recv c) as [[x c']|] eqn:E; [|done]. injection Hs as -> Hc'. exists c'.
  split; [|done]. unfold Subscriber_recv. cbn [mode new_push]. apply run_await.
  unfold poll_channel. cbn [get_channels message_channels]. rewrite Hc. cbn. by rewrite E.
Qed.

Lemma recv_frame tx (c' : Chan Message) w other :
  other <> tx -> chan_view other (put_channel tx c' w) = chan_view other w.
Proof. intros Ho. unfold chan_view. simpl. by rewrite lookup_insert_ne. Qed.

(** A service that answers one request. *)
Definition serve (subscriber : Subscriber) (self : BrokerClient) (answer : Message -> Message)
    : proc World unit :=
  let! r := Subscriber_recv subscriber in
  match r with
  | Some q => let! _ := BrokerClient_send self (answer q) in Ret tt
  | None => Ret tt
  end.

(** It sends its answer to the channel of the slot the answer's address is routed to. *)
Lemma serve_answers srv answer sa tx q w v rslot rtx rn x :
  chan_view tx w = Some v -> queue v = [q] -> rtx <> tx -> (1 <= rn)%Z ->
  Protocol.address (answer q) = x -> from_utf8 x = Ok x ->
  lookup_inner (inner w) x = Some (Single rslot) -> line rslot rtx rn [] w ->
  exists w', run (serve (new_push tx sa) srv answer) w = Done w' tt /\
    chan_view rtx w' = Some (mkMpsc [answer q] rn 1 true) /\ oneshots w' = oneshots w /\
    waiter_maps w' = waiter_maps w /\ tasks w' = tasks w.
Proof.
  intros Hv Hq Hdiff Hrn Hx H8 Hroute [Hs Hrv].
  destruct (recv_push sa tx w v q [] Hv Hq) as (c' & Hrecv & _).
  set (w1 := put_channel tx c' w) in *.
  assert (chan_view rtx w1 = Some (mkMpsc [] rn 1 true)) as Hrv1 by (unfold w1; by rewrite recv_frame).
  pose proof (run_send_to_slot rslot rtx (answer q) w1 _ Hs Hrv1) as Hsend. cbv zeta in Hsend.
  cbn [receiver negb] in Hsend. rewrite decide_True in Hsend by (unfold free; simpl; lia).
  destruct Hsend as (w2 & Hsend & Hrv2 & _ & _ & _ & Ho & Hw & _ & Ht). exists w2.
  split_and!; [|exact Hrv2|exact Ho|exact Hw|exact Ht].
  unfold serve, BrokerClient_send. rewrite run_bind, Hrecv, run_bind, run_transport_send, Hx, H8.
  change (inner w1) with (inner w). rewrite Hroute. cbn [target_slot]. by rewrite Hsend.
Qed.

(** The listener task of a client waits for replies. *)
Definition listening lt rtx a k w : Prop :=
  tasks w !! lt = Some (mkTask (ListenerTask (new_push rtx a) k) false).

(** One round of the listener gives a reply to the waiter of its id. *)
Lemma listener_round lt rtx a k w rs ts v m r :
  listening lt rtx a k w -> rs !! lt = None -> chan_view rtx w = Some v -> queue v = [m] ->
  waiter_map k w !! message_id (header m) = Some r ->
  reply_view r w = Some (mkOneshot None true true) ->
  exists w', rtc runtime_step (mkConfig w ts rs) (mkConfig w' ts rs) /\
    reply_view r w' = Some (mkOneshot (Some m) false true).
Proof.
  intros Hl Hrs Hv Hq Hw Hr. destruct (recv_push a rtx w v m [] Hv Hq) as (c' & Hrecv & _).
  set (w1 := put_channel rtx c' w) in *.
  exists (end_round lt (Some (ListenerTask (new_push rtx a) k)) (deliver_reply k m w1)). split.
  - eapply task_runs; [exact Hl|done|]. unfold task_round, listener_step.
    by rewrite run_bind, run_bind, Hrecv.
  - exact (deliver_reply_waiter k m w1 r _ Hw Hr).
Qed.

(** C11: a request travels to a service and its answer back. A client's thread makes a request to
    an address routed to the channel of a service; the service's thread receives it, forced to
    [InOut] mode and with the client's own address to reply to, and sends an answer with the same
    id there; the client's listener task gives it to the waiter of that id; and the request
    returns the answer, leaving no waiter behind. *)
Theorem request_reply_cycle self srv answer m w ts rs i j K lt slot tx n rslot rtx rn a sa
    (Hservice : line slot tx n [] w) (Hreplies : line rslot rtx rn [] w) (Hdiff : tx <> rtx)
    (Hn : (1 <= n)%Z) (Hrn : (1 <= rn)%Z)
    (Hutf8 : from_utf8 (Protocol.address m) = Ok a)
    (Hroute : lookup_inner (inner w) a = Some (Single slot))
    (Hback8 : from_utf8 (client_address self) = Ok (client_address self))
    (Hback : lookup_inner (inner w) (client_address self) = Some (Single rslot))
    (Hlisten : listening lt rtx (client_address self) (waiters (client_dispatcher self)) w)
    (Hround : rs !! lt = None)
    (Hmap : is_Some (waiter_maps w !! waiters (client_dispatcher self)))
    (Hid : waiter_map (waiters (client_dispatcher self)) w !! message_id (header m) = None)
    (Htime : (0 < request_timeout (Client.config (broker self)))%Z)
    (Hanswer : forall q, Protocol.address (answer q) = Protocol.reply_to q /\
       message_id (header (answer q)) = message_id (header q))
    (Hij : i <> j) (Hi : ts !! i = Some (bind (BrokerClient_request self m) K))
    (Hj : ts !! j = Some (serve (new_push tx sa) srv answer)) :
  let q := force_in_out m (client_address self) in
  exists w', rtc runtime_step (mkConfig w ts rs)
      (mkConfig w' (<[i := K (Ok (answer q))]> (<[j := Ret tt]> ts)) rs) /\
    waiter_map (waiters (client_dispatcher self)) w' !! message_id (header m) = None.
Proof.
  cbv zeta. set (q := force_in_out m (client_address self)).
  set (k := waiters (client_dispatcher self)) in *.
  destruct Hservice as [Hs Hv], Hreplies as [Hrs Hrv].
  destruct (request_waits self m w a (Single slot) tx (mkMpsc [] n 1 true))
    as (w1 & p & Hreq & Hsent & Hdone); try done; [unfold free; simpl; lia|].
  destruct Hsent as ((v & Hv0 & Hv1) & Hw1 & _ & Ho1 & Hi1 & Hsl1 & Ht1 & Hc1).
  fold k q in Hv1, Hw1, Hdone.
  rewrite Hv in Hv0. injection Hv0 as <-.
  pose proof (thread_blocked _ K ts i w w1 p rs Hi Hreq) as S1.
  set (ts1 := <[i := bind p K]> ts) in *.
  assert (ts1 !! j = Some (serve (new_push tx sa) srv answer)) as Hj1.
  { unfold ts1. by rewrite list_lookup_insert_ne. }
  destruct (Hanswer q) as [Haddr Haid].
  destruct (serve_answers srv answer sa tx q w1 (mkMpsc [q] n 1 true) rslot rtx rn
    (client_address self)) as (w3 & Hserve & Hrv3 & Ho3 & Hw3 & Ht3); try done.
  { by rewrite Hi1. }
  { split; [unfold load_sender in *; by rewrite Hsl1|]. unfold chan_view. by rewrite Hc1. }
  assert (rtc runtime_step (mkConfig w1 ts1 rs) (mkConfig w3 (<[j := Ret tt]> ts1) rs)) as S2.
  { apply (run_thread j _ w1 w3 ts1 rs Hj1 Hserve). }
  destruct (listener_round lt rtx (client_address self) k w3 rs (<[j := Ret tt]> ts1)
    (mkMpsc [answer q] rn 1 true) (answer q) (next_id w)) as (w4 & S3 & Ho4);
    [|done|exact Hrv3|done| | |].
  { unfold listening. by rewrite Ht3, Ht1. }
  { unfold waiter_map. rewrite Hw3, Haid. exact Hw1. }
  { unfold reply_view. rewrite Ho3. exact Ho1. }
  destruct (Hdone _ _ _ _ Ho4) as (w5 & Hr5 & Hfin).
  assert (<[j := Ret tt]> ts1 !! i = Some (bind p K)) as Hi5.
  { rewrite list_lookup_insert_ne by done. apply list_lookup_insert_eq. by eapply lookup_lt_Some. }
  pose proof (thread_done p K _ i w4 w5 _ rs Hi5 Hr5) as S4.
  assert (<[i := K (Ok (answer q))]> (<[j := Ret tt]> ts1) =
    <[i := K (Ok (answer q))]> (<[j := Ret tt]> ts)) as Ets.
  { unfold ts1. by rewrite (list_insert_insert_ne ts), list_insert_insert_eq by done. }
  rewrite Ets in S4. exists w5. split; [|exact Hfin].
  etrans; [exact S1|]. etrans; [exact S2|]. etrans; [exact S3|exact S4].
Qed.
End Delivery.

(** ** Witnesses *)

Section Witnesses.
(** A group whose dispatcher, task 3, waits for requests, with two messages queued. *)
Definition pong : Message := force_in_out ping users.

Definition resting : World :=
  set_tasks {[3 := mkTask (DispatcherTask an_env WaitRequest) false]}
    (set_reqs {[2 := mkMpsc [] 1000 1 true]}
      (set_chans {[0 := mkMpsc [ping; pong] 4 1 true]} subscribed)).

(** A consumer of the group that receives once. *)
Definition consumer : proc World unit :=
  receive_then (new_pull 2 1 users) 1 [] (fun _ => Ret tt).

Lemma resting_group :
  group_at 3 an_env WaitRequest (mkMpsc [] 1000 1 true) (mkMpsc [ping; pong] 4 1 true) resting.
Proof. split; [apply (lookup_singleton_eq 3)|]. split; vm_compute; reflexivity. Qed.

Lemma group_delivery_witness :
  exists w', rtc runtime_step (mkConfig resting [consumer] ∅) (mkConfig w' [Ret tt] ∅) /\
    chan_view 0 w' = Some (mkMpsc [pong] 4 1 true).
Proof.
  pose proof (group_delivery 3 an_env 1 users resting [consumer] ∅ 0 (fun _ => Ret tt) [ping]
    [pong] _ _ resting_group (lookup_empty 3) eq_refl eq_refl ltac:(simpl; lia) eq_refl eq_refl)
    as (w' & Hs & _ & _ & Hv).
  exists w'. split; [exact Hs|exact Hv].
Defined.

(** Two consumers, of which the first does not wait. *)
Definition leaver : proc World unit :=
  let! r := abandon impatient (Subscriber_recv (new_pull 2 1 users)) in Ret tt.
Definition stayer : proc World unit := let! r := Subscriber_recv (new_pull 2 1 users) in Ret tt.

Lemma abandoned_consumer_witness :
  exists w1 w', rtc runtime_step (mkConfig resting [leaver; stayer] ∅) (mkConfig w1 [Ret tt;
    stayer] ∅) /\
    rtc runtime_step (mkConfig w1 [Ret tt; stayer] ∅) (mkConfig w' [Ret tt; Ret tt] ∅) /\
    chan_view 0 w' = Some (mkMpsc [pong] 4 1 true).
Proof.
  pose proof (abandoned_consumer 3 an_env 1 users 1 users resting [leaver; stayer] ∅ 0 1
    (fun _ => Ret tt) (fun _ => Ret tt) ping [pong] _ _ resting_group (lookup_empty 3) eq_refl eq_refl
    ltac:(simpl; lia) eq_refl ltac:(lia) eq_refl eq_refl) as (w1 & w' & S1 & S2 & _ & _ & Hv).
  exists w1, w'. split; [exact S1|]. split; [exact S2|exact Hv].
Defined.

(** A client "me" with its listener, task 6, and a service on the channel of [users]. *)
Definition serving : World :=
  set_inner (insert_route (inner subscribed) (bs "me") (Single 9))
    (set_slots (<[9 := mkSlot (Some 8) 1]> (slots subscribed))
      (set_chans (<[8 := mkMpsc [] 4 1 true]> (chans subscribed))
        (set_tasks {[6 := mkTask (ListenerTask (new_push 8 (bs "me")) 5) false]}
          (set_waiter_maps {[5 := ∅]} subscribed)))).

(** The service sends the request back to where a reply is wanted. *)
Definition echo (m : Message) : Message :=
  {| header := header m; msg_type := msg_type m; Protocol.address := Protocol.reply_to m;
     Protocol.reply_to := []; payload := payload m |}.

Definition asker : proc World unit :=
  let! r := BrokerClient_request a_client ping in Ret tt.

Lemma request_reply_cycle_witness :
  exists w', rtc runtime_step (mkConfig serving [asker; serve (new_push 0 users) a_client echo] ∅)
      (mkConfig w' [Ret tt; Ret tt] ∅) /\
    waiter_map 5 w' !! ping_id = None.
Proof.
  assert (line 1 0 4 [] serving) as H1 by (split; vm_compute; reflexivity).
  assert (line 9 8 4 [] serving) as H2 by (split; vm_compute; reflexivity).
  assert (from_utf8 (Protocol.address ping) = Ok users) as H3 by (vm_compute; reflexivity).
  assert (lookup_inner (inner serving) users = Some (Single 1)) as H4 by (vm_compute; reflexivity).
  assert (from_utf8 (client_address a_client) = Ok (client_address a_client)) as H5
    by (vm_compute; reflexivity).
  assert (lookup_inner (inner serving) (client_address a_client) = Some (Single 9)) as H6
    by (vm_compute; reflexivity).
  assert (listening 6 8 (client_address a_client) (waiters (client_dispatcher a_client)) serving)
    as H7 by (apply (lookup_singleton_eq 6)).
  assert (is_Some (waiter_maps serving !! waiters (client_dispatcher a_client))) as H8
    by (eexists; apply (lookup_singleton_eq 5)).
  assert (waiter_map (waiters (client_dispatcher a_client)) serving !! message_id (header ping) =
    None) as H9 by (vm_compute; reflexivity).
  pose proof (request_reply_cycle a_client a_client echo ping serving
    [asker; serve (new_push 0 users) a_client echo] ∅ 0 1 (fun _ => Ret tt) 6 1 0 4 9 8 4 users users
    H1 H2 ltac:(lia) ltac:(lia) ltac:(lia) H3 H4 H5 H6 H7 (lookup_empty 6) H8 H9
    ltac:(vm_compute; reflexivity) (fun q => conj eq_refl eq_refl) ltac:(lia) eq_refl eq_refl)
    as (w' & Hs & Hw).
  exists w'. split; [exact Hs|exact Hw].
Defined.
End Witnesses.
