(* ===== verification/Upkeep.v ===== *)
(** * Upkeep: operations that any bookkeeping of the state survives

    Some invariants relate the state to what is known beside it (Preserve.v), such as what each
    channel was made for. Most operations drop handles, count or read, and no such invariant minds
    them. [Upkeep] asks of an invariant that it survives the basic updates; [Replies] and
    [Locking] that it also provides for the waiters of requests and for the registry's mutex. What
    is composed of these then keeps the invariant too. *)

From S2P Require Import Prelude.
From S2P Require Import Protocol.
From S2P Require Import RadixIface.
From S2P Require Import ChanIface.
From S2P Require Import Async.
From S2P Require Import Preserve.
From S2P Require Import Registry.
From S2P Require Import World.
From S2P Require Import Channel.
From S2P Require Import Routing.
From S2P Require Import RegistryOps.
From S2P Require Import Dispatcher.
From S2P Require Import Subscriber.
From S2P Require Import ReplyDispatcher.
From S2P Require Import Publisher.
From S2P Require Import Client.
From S2P Require Import Runtime.

Local Open Scope broker_scope.

(** ** Dropping handles, counting and reading *)

Class Upkeep {D : Deps} {K} `{!Knowledge K} (I : K -> World -> Prop) : Prop := {
  up_now n w : harmless I w (set_now n w);
  up_clone_sender k w : harmless I w (on_chan mpsc_clone_sender k w);
  up_drop_sender k w : harmless I w (on_chan mpsc_drop_sender k w);
  up_drop_receiver k w : harmless I w (on_chan mpsc_drop_receiver k w);
  up_drop_req_sender k w : harmless I w (on_req mpsc_drop_sender k w);
  up_drop_req_receiver k w : harmless I w (on_req mpsc_drop_receiver k w);
  up_oneshot_drop_sender k w : harmless I w (on_oneshot oneshot_drop_sender k w);
  up_oneshot_drop_receiver k w : harmless I w (on_oneshot oneshot_drop_receiver k w);
  up_slot f k w : (forall s tx, sender (f s) = Some tx -> sender s = Some tx) ->
    harmless I w (on_slot f k w);
  up_group f k w : (forall g, group_slot (f g) = group_slot g /\ req_tx (f g) = req_tx g) ->
    harmless I w (on_group f k w);
  up_task f k w : (forall t, state (f t) = state t) ->
    harmless I w (set_tasks (alter f k (tasks w)) w);
  up_delete_task k w : harmless I w (set_tasks (delete k (tasks w)) w);
  up_delete_waiter id k w : harmless I w (on_waiters (delete id) k w);
  up_no_waiters k w : harmless I w (on_waiters (fun _ => ∅) k w);
}.

#[export] Hint Resolve up_clone_sender up_drop_sender up_drop_receiver up_drop_req_sender
  up_oneshot_drop_sender up_oneshot_drop_receiver : steady.

Section Upkeep.
Context {D : Deps} {K} `{!Knowledge K} (I : K -> World -> Prop) `{!Upkeep I} (bad : Prop).
Implicit Types (w : World) (slot : slot_id) (g : group_id).

Abbreviation keeping p := (steady I bad p).

Lemma up_bump_version k w : harmless I w (on_slot bump_version k w).
Proof. by apply up_slot. Qed.

Lemma up_abort k w : harmless I w (abort k w).
Proof. by apply up_task. Qed.

Lemma up_strong f k w : harmless I w (on_group (on_strong f) k w).
Proof. by apply up_group. Qed.

Lemma up_consumers f k w : harmless I w (on_group (on_consumers f) k w).
Proof. by apply up_group. Qed.

Lemma up_group_version k w : harmless I w (on_group bump_group_version k w).
Proof. by apply up_group. Qed.

Lemma up_handle h k w : harmless I w (on_group (set_handle h) k w).
Proof. by apply up_group. Qed.

Lemma up_no_sender k w : harmless I w (store_sender None k w).
Proof.
  unfold store_sender. etrans; [|by apply up_slot].
  destruct (slots w !! k) as [[[tx|] v]|]; [apply up_drop_sender|done..].
Qed.

Lemma up_guard_sender k w : harmless I w (guard_sender k w).1.
Proof. unfold guard_sender. destruct (load_sender k w); [apply up_clone_sender|done]. Qed.

Lemma up_take_and_abort g w : harmless I w (take_and_abort g w).
Proof.
  unfold take_and_abort. destruct (groups w !! g) as [x|]; [|done].
  destruct (dispatcher_handle x); [etrans; [|apply up_abort]|]; apply up_handle.
Qed.

Lemma up_req_receiver k w : harmless I w (drop_req_receiver k w).
Proof.
  unfold drop_req_receiver. destruct (reqs w !! k) as [c|]; [|done].
  etrans; [apply up_drop_req_receiver|]. apply harmless_foldr. intros. apply up_oneshot_drop_sender.
Qed.

Lemma up_subscriber_drop s w : harmless I w (Subscriber_drop s w).
Proof.
  unfold Subscriber_drop. destruct (mode s) as [rx|req g]; [apply up_drop_receiver|]. cbv zeta.
  destruct (groups _ !! g); [case_decide; [etrans; [|apply up_drop_req_sender]|]|]; apply up_strong.
Qed.

Lemma up_dispatcher_drop env at_ w : harmless I w (dispatcher_drop env at_ w).
Proof.
  unfold dispatcher_drop. etrans; [|apply up_req_receiver]. etrans; [|apply up_drop_receiver].
  destruct at_; try done; apply up_oneshot_drop_sender.
Qed.

Lemma up_task_drop t w : harmless I w (task_drop t w).
Proof. destruct t; [apply up_dispatcher_drop|apply up_subscriber_drop]. Qed.

Lemma up_cancel k t w : harmless I w (task_drop t (end_round k None w)).
Proof. etrans; [apply up_delete_task|apply up_task_drop]. Qed.

Lemma up_drop_unregistered k ch w : harmless I w (drop_unregistered k ch w).
Proof. unfold drop_unregistered. etrans; [|apply up_drop_receiver]. apply up_no_sender. Qed.

Lemma up_remove_entry k id w : harmless I w (remove_entry k id w).
Proof.
  unfold remove_entry. cbv zeta. destruct (waiter_map k w !! id);
    [etrans; [|apply up_oneshot_drop_sender]|]; apply up_delete_waiter.
Qed.

Lemma up_drop_waiter y r b w : harmless I w (drop_waiter y r b w).
Proof.
  unfold drop_waiter, WaiterGuard_drop. etrans; [apply up_oneshot_drop_receiver|apply up_remove_entry].
Qed.

Lemma up_clear_waiters k w : harmless I w (clear_waiters k w).
Proof.
  unfold clear_waiters. etrans; [apply up_no_waiters|]. apply harmless_foldr. intros.
  apply up_oneshot_drop_sender.
Qed.

#[local] Hint Resolve up_bump_version up_abort up_strong up_consumers up_group_version up_handle
  up_no_sender up_take_and_abort : steady.

Lemma up_mark_removed slot : keeping (mark_removed slot).
Proof. unfold mark_removed. steadily. Qed.

Lemma up_shutdown g : keeping (shutdown g).
Proof. pose proof up_mark_removed. unfold shutdown. steadily. Qed.

Lemma up_remove_slot t slot : keeping (remove_slot t slot).
Proof. pose proof up_mark_removed. pose proof up_shutdown. unfold remove_slot. steadily. Qed.

Lemma up_remove_consumer g : keeping (remove_consumer g).
Proof.
  pose proof up_shutdown. unfold remove_consumer. steadily. apply steady_act. intros.
  apply up_consumers.
Qed.

Lemma up_target_closed t : keeping (RouteTarget_is_closed t).
Proof. unfold RouteTarget_is_closed, SubscriptionSlot_is_closed. steadily. Qed.

Lemma up_dispatcher_end d : keeping (ReplyDispatcher_drop d).
Proof. pose proof up_clear_waiters. unfold ReplyDispatcher_drop. steadily. Qed.
End Upkeep.

#[export] Hint Resolve up_bump_version up_abort up_strong up_consumers up_group_version up_handle
  up_no_sender up_guard_sender up_take_and_abort up_subscriber_drop up_dispatcher_drop
  up_drop_unregistered up_drop_waiter up_clear_waiters up_mark_removed up_shutdown up_remove_slot
  up_remove_consumer up_target_closed up_dispatcher_end : steady.

(** ** Requests *)

(** A waiting request's channel is for the answer with the message id of the request. *)
Class Replies {D : Deps} {K} `{!Knowledge K} (I : K -> World -> Prop) := {
  awaits : K -> bytes -> oneshot_id -> Prop;
  awaits_mono k k' id tx : le k k' -> awaits k id tx -> awaits k' id tx;
  up_new_reply id k w : I k w ->
    exists k', le k k' /\ awaits k' id (next_id w) /\
      I k' (bump_id (set_oneshots (<[next_id w := oneshot_channel]> (oneshots w)) w));
  up_add_waiter k id tx m w : I k w -> awaits k id tx ->
    I k (on_waiters (<[id := tx]>) m w);
  up_deliver_reply m r w : harmless I w (deliver_reply m r w);
  up_reply_recv k tx w w' r : I k w -> reply_recv tx w = Some (w', r) ->
    I k w' /\ forall id m, awaits k id tx -> r = Ok m -> message_id (header m) = id;
}.

#[export] Hint Resolve up_deliver_reply : steady.

(** An answer to the request with message id [id]. *)
Definition answers {K} id (r : result Message TransportError) (_ : K) : Prop :=
  forall m, r = Ok m -> message_id (header m) = id.

Section Replies.
Context {D : Deps} {K} `{!Knowledge K} (I : K -> World -> Prop) `{!Upkeep I, !Replies I}.
Context (bad : Prop).
Implicit Types (k : K) (w : World).

Lemma knows_guard_new m id k :
  knows I bad (fun r k' => forall y rx, r = Ok (y, rx) -> awaits k' id rx) (WaiterGuard_new m id) k.
Proof.
  unfold WaiterGuard_new. apply (knows_bind _ _ (fun tx k' => awaits k' id tx)).
  - apply knows_act. intros k1 w w' tx _ Hw [= <- <-].
    destruct (up_new_reply id k1 w Hw) as (k2 & ? & ? & ?). by exists k2.
  - intros tx k1 _ Htx. apply knows_act. intros k2 w w' r H2 Hw [= E].
    apply (awaits_mono _ _ _ _ H2) in Htx. exists k2. split; [done|].
    destruct (waiter_map m w !! id) as [y|]; injection E as <- <-.
    + split; [|done]. by apply up_oneshot_drop_sender, up_oneshot_drop_receiver.
    + split; [by apply up_add_waiter|]. by intros z rx [= _ <-].
Qed.

Lemma knows_await_reply t rx id k :
  awaits k id rx -> knows I bad (answers id) (await_reply t rx) k.
Proof.
  intros Hrx. unfold await_reply. apply knows_any_bind; [apply steady_read|].
  intros deadline k1 H1. apply knows_await. intros k2 w w' r H2 Hw E. exists k2. split; [done|].
  cbv zeta in E. pose proof (up_reply_recv k2 rx w) as Hs.
  pose proof (awaits_mono _ _ _ _ (transitivity H1 H2) Hrx) as Hid.
  destruct (reply_recv rx w) as [[w2 y]|]; cbn [fmap option_fmap option_map snd] in E.
  - rewrite timeout_ready in E. injection E as <- <-. destruct (Hs w2 y Hw eq_refl) as [Hw2 Hy].
    split; [done|]. destruct y as [m'|]; [|done]. intros m [= <-]. by apply (Hy id m').
  - pose proof (timeout_never_ok (A := result Message unit) deadline (now w)) as Ht.
    destruct (timeout_poll _ _ _) as [[a|e]|]; [by destruct (Ht a)| |done].
    injection E as <- <-. by split.
Qed.

Lemma knows_request_with d t id p k :
  (forall k', le k k' -> knows I bad any p k') -> knows I bad (answers id) (request_with d t id p) k.
Proof.
  intros Hp. unfold request_with, register_waiter.
  eapply knows_bind; [apply knows_guard_new|]. intros [[y rx]|e] k1 H1 Hr; [|done].
  specialize (Hr y rx eq_refl).
  apply knows_guarded; [by intros ????|intros; apply harmless_grows, up_drop_waiter, _|].
  eapply knows_bind; [by apply Hp|]. intros [u|e] k2 H2 _; [|done].
  apply knows_await_reply. by eapply awaits_mono.
Qed.
End Replies.

(** ** The mutex of the registry *)

(** A published snapshot is in order, and so is what a removal makes of it. A poisoned mutex is
    only to be expected where a computation may panic. *)
Class Locking {D : Deps} {K} `{!Knowledge K} (I : K -> World -> Prop) (bad : Prop) := {
  in_order : K -> RegistryInner Tree -> Prop;
  in_order_mono k k' i : le k k' -> in_order k i -> in_order k' i;
  up_mutex m w : (poisoned m = true -> bad) -> harmless I w (set_mutex m w);
  up_sane k w : I k w -> poisoned (register_mutex w) = true -> bad;
  up_load k w : I k w -> in_order k (inner w);
  up_store k i w : in_order k i -> I k w -> I k (set_inner i w);
  up_remove_route k i a : in_order k i -> in_order k (remove_route i a);
}.

Section Locking.
Context {D : Deps} {K} `{!Knowledge K} (I : K -> World -> Prop) (bad : Prop).
Context `{!Upkeep I, !Locking I bad}.
Implicit Types (k : K) (w : World).

Lemma knows_with_lock {A} (Q : A -> K -> Prop) (body : proc World A) k :
  stable le Q -> (forall k', le k k' -> knows I bad Q body k') -> knows I bad Q (with_lock body) k.
Proof.
  intros HQ Hp. unfold with_lock. apply knows_bind with any.
  - intros k1 w H1 Hw. split; [done|]. destruct (held (register_mutex w)); [done|].
    destruct (poisoned (register_mutex w)) eqn:E.
    + exists k1. split_and!; [done..|]. by eapply up_sane.
    + exists k1. split_and!; [done| |done]. by apply up_mutex.
  - intros _ k1 H1 _. apply knows_guarded; [done| |by apply Hp].
    intros b w Hb. apply harmless_grows. by apply up_mutex.
Qed.

(** The snapshot a method loads is in order, and stays so. *)
Lemma knows_load k : knows I bad (fun i k' => in_order k' i) load k.
Proof.
  apply knows_act. intros k1 w w' i _ Hw [= <- <-]. exists k1. split_and!; [done..|].
  by apply up_load.
Qed.

Lemma knows_store i k : in_order k i -> knows I bad any (store i) k.
Proof.
  intros Hi. apply knows_act. intros k1 w w' [] H1 Hw [= <-]. exists k1. split_and!; [done| |done].
  apply up_store; [|done]. by eapply in_order_mono.
Qed.

Lemma up_unregister a slot : steady I bad (unregister a slot).
Proof.
  intros k. apply knows_with_lock; [done|]. intros k1 _.
  eapply knows_bind; [apply knows_load|]. intros i k2 _ Hi.
  destruct (find_route i a) as [t|]; [|done]. apply knows_any_bind; [apply up_remove_slot, _|].
  intros [] k3 H3; [|done]. apply (knows_bind _ _ any); [|done].
  apply knows_store. apply up_remove_route. by eapply in_order_mono.
Qed.

Lemma up_handle_drop h : steady I bad (SubscriptionHandle_drop h).
Proof. pose proof up_unregister. unfold SubscriptionHandle_drop. steadily. Qed.

Lemma up_client_drop self x : steady I bad (BrokerClient_drop self x).
Proof. pose proof up_handle_drop. unfold BrokerClient_drop. steadily. Qed.
End Locking.

#[export] Hint Resolve up_unregister up_handle_drop up_client_drop : steady.

(** ** Executions *)

(** The rounds of a task that is in order return the state of one, and may panic if [bad]. *)
Class Rounds {D : Deps} {K} `{!Knowledge K} (I : K -> World -> Prop) (bad : Prop) := {
  task_in_order : K -> task_state -> Prop;
  task_in_order_mono k k' t : le k k' -> task_in_order k t -> task_in_order k' t;
  up_task_of k w t x : I k w -> tasks w !! t = Some x -> task_in_order k (state x);
  up_put_task k w t x : I k w -> task_in_order k (state x) -> I k (set_tasks (<[t := x]> (tasks w)) w);
  knows_task_round t k : task_in_order k t ->
    knows I bad (fun r k' => forall t', r = Some t' -> task_in_order k' t') (task_round t) k;
}.

Section Executions.
Context {D : Deps} {K} `{!Knowledge K} (I : K -> World -> Prop) (bad : Prop).
Context `{!Upkeep I, !Rounds I bad}.
Implicit Types (k : K) (w : World) (c : config).

Definition next_in_order (r : option task_state) k : Prop :=
  forall t, r = Some t -> task_in_order k t.

Lemma next_in_order_stable : stable le next_in_order.
Proof. intros r k k' Hk Hr t Ht. by eapply task_in_order_mono, Hr. Qed.

Lemma up_end_round t r w k : I k w -> next_in_order r k -> I k (end_round t r w).
Proof.
  intros Hw Hr. destruct r as [x|]; [|by apply up_delete_task]. simpl. rewrite alter_put.
  destruct (tasks w !! t); [|by destruct w]. apply up_put_task; [done|]. by apply Hr.
Qed.

(** [panics i] says whether thread [i] may panic. *)
Record config_known (panics : nat -> Prop) k c : Prop := {
  ck_world : I k (world c);
  ck_threads i p : threads c !! i = Some p -> knows I (panics i) any p k;
  ck_rounds t p : rounds c !! t = Some p -> knows I bad next_in_order p k;
}.

(** The others go on when more is known. *)
Lemma config_known_update panics k k' w w' ts rs rs' :
  config_known panics k (mkConfig w ts rs) -> le k k' -> I k' w' ->
  (forall t p, rs' !! t = Some p -> rs !! t = Some p) -> config_known panics k' (mkConfig w' ts rs').
Proof.
  intros [_ Ht Hr] He Hw' Hrs. simpl in *. split; [done|..]; simpl.
  - intros i p Hi. eapply knows_ext; [apply stable_any|exact He|]. eauto.
  - intros t p Hp. eapply knows_ext; [apply next_in_order_stable|exact He|]. eauto.
Qed.

Lemma config_known_harmless panics k w w' ts rs rs' :
  config_known panics k (mkConfig w ts rs) -> harmless I w w' ->
  (forall t p, rs' !! t = Some p -> rs !! t = Some p) -> config_known panics k (mkConfig w' ts rs').
Proof. intros Hc Hs. eapply config_known_update; [done|done|]. by apply Hs, (ck_world _ _ _ Hc). Qed.

Lemma config_known_round panics k w ts rs t d f w' p :
  config_known panics k (mkConfig w ts rs) -> knows I bad next_in_order (Act d f) k ->
  f w = Some (w', p) -> exists k', config_known panics k' (mkConfig w' ts (<[t := p]> rs)).
Proof.
  intros Hc Hk Hf.
  destruct (knows_step _ _ _ _ _ _ _ _ _ (ck_world _ _ _ Hc) Hk Hf) as (k' & He & Hw' & Hp).
  exists k'. destruct (config_known_update panics k k' w w' ts rs rs Hc) as [_ Ht Hr]; [done..|].
  split; [done|done|simpl]. intros j q [(<- & <-)|[_ Hj]]%lookup_insert_Some; [done|by eapply Hr].
Qed.

Lemma runtime_step_known panics k c c' :
  config_known panics k c -> runtime_step c c' -> exists k', config_known panics k' c'.
Proof.
  assert (forall (rs : gmap task_id (proc World (option task_state))) t j x,
    delete t rs !! j = Some x -> rs !! j = Some x) as Hdel by by intros ???? [_ ?]%lookup_delete_Some.
  intros Hc Hst. destruct Hst as [w ts rs i d0 f w' p Hi Hf|w ts rs t x d0 f w' p Hx Ht Ha Hr Hf
    |w ts rs t d0 f w' p Ht Hf|w ts rs t r Ht|w ts rs t x Ht Hx|w ts rs t x Hx Ht Ha|w ts rs d Hd].
  - destruct (knows_step _ _ _ _ _ _ _ _ _ (ck_world _ _ _ Hc) (ck_threads _ _ _ Hc i _ Hi) Hf)
      as (k' & He & Hw' & Hp). exists k'.
    destruct (config_known_update panics k k' w w' ts rs rs Hc) as [_ Ht Hr]; [done..|].
    split; [done|simpl|done].
    intros j q [(<- & <- & _)|[_ Hj]]%list_lookup_insert_Some; [done|by eapply Ht].
  - eapply config_known_round; [done| |done]. rewrite <-Hr. apply knows_task_round.
    by apply (up_task_of _ _ t _ (ck_world _ _ _ Hc)).
  - eapply config_known_round; [done| |done]. by apply (ck_rounds _ _ _ Hc t).
  - exists k. eapply config_known_update; [done|done| |apply Hdel].
    apply up_end_round; [apply (ck_world _ _ _ Hc)|]. exact (ck_rounds _ _ _ Hc t _ Ht).
  - exists k. eapply config_known_harmless; [done|apply up_cancel, _|apply Hdel].
  - exists k. eapply config_known_harmless; [done|apply up_cancel, _|done].
  - exists k. eapply config_known_harmless; [done|apply up_now|done].
Qed.

Lemma runtime_steps_known panics c c' :
  rtc runtime_step c c' -> (exists k, config_known panics k c) -> exists k, config_known panics k c'.
Proof.
  induction 1 as [|c1 c2 c3 H12 _ IH]; [done|]. intros [k Hc]. by eapply IH, runtime_step_known.
Qed.
End Executions.
