(* ===== verification/Correlation.v ===== *)
(** * Correlation: every answer goes to the request it answers

    A one-value channel serves one of two purposes, which is settled when it is made: to carry the
    answer to the request with some message id, or to carry the next message of a group to the
    consumer that asked for it. The state does not record which; a growing map of purposes, known
    beside the state (Preserve.v), does. What a sound state says of each channel follows its
    purpose, and every operation keeps the state sound. *)

From S2P Require Import Prelude.
From S2P Require Import Protocol.
From S2P Require Import ChanIface.
From S2P Require Import Async.
From S2P Require Import Preserve.
From S2P Require Import World.
From S2P Require Import Channel.
From S2P Require Import Routing.
From S2P Require Import RegistryOps.
From S2P Require Import Dispatcher.
From S2P Require Import Subscriber.
From S2P Require Import Transport.
From S2P Require Import ReplyDispatcher.
From S2P Require Import Publisher.
From S2P Require Import Client.
From S2P Require Import Runtime.
From S2P Require Import Typing.
From S2P Require Import Upkeep.

Local Open Scope broker_scope.

(** ** Definitions *)

Inductive purpose := ForReply (id : bytes) | ForDelivery.

Abbreviation purposes := (gmap oneshot_id purpose).

#[export] Instance purposes_knowledge : Knowledge purposes := {| le := (⊆) |}.

Section Sound.
Context {D : Deps}.
Implicit Types (w : World) (φ : purposes).

Definition for_delivery φ (tx : oneshot_id) : Prop := φ !! tx = Some ForDelivery.

(** A message that may be put in the channel [tx]. *)
Definition fits φ (tx : oneshot_id) (m : Message) : Prop :=
  forall id, φ !! tx = Some (ForReply id) -> message_id (header m) = id.

(** A channel of requests, with the tokens queued in it. *)
Definition requests_sound φ (c : Chan oneshot_id) : Prop :=
  mpsc_ok (mpsc_look c) /\ Forall (for_delivery φ) (queue (mpsc_look c)).

Definition waiters_sound φ (m : gmap bytes oneshot_id) : Prop :=
  map_Forall (fun id tx => φ !! tx = Some (ForReply id)) m.

Definition oneshot_sound φ (tx : oneshot_id) (o : One Message) : Prop :=
  forall m, value (oneshot_look o) = Some m -> fits φ tx m.

Definition at_sound φ (at_ : dispatcher_at) : Prop :=
  match at_ with
  | WaitMessage reply_tx | Deliver reply_tx _ => for_delivery φ reply_tx
  | _ => True
  end.

Definition task_state_sound φ (t : task_state) : Prop :=
  match t with DispatcherTask _ at_ => at_sound φ at_ | ListenerTask _ _ => True end.

Record sound φ w : Prop := {
  so_fresh tx : is_Some (φ !! tx) -> (tx < next_id w)%nat;
  so_requests : map_Forall (fun _ => requests_sound φ) (reqs w);
  so_waiters : map_Forall (fun _ => waiters_sound φ) (waiter_maps w);
  so_oneshots : map_Forall (oneshot_sound φ) (oneshots w);
  so_tasks : map_Forall (fun _ t => task_state_sound φ (state t)) (tasks w);
}.

(** One step that keeps the state sound for the purposes there are. *)
Abbreviation safe := (harmless sound).

(** ** States *)

(** A step that leaves the stores in question alone. *)
Lemma safe_aside w w' :
  next_id w' = next_id w -> reqs w' = reqs w -> waiter_maps w' = waiter_maps w ->
  oneshots w' = oneshots w -> tasks w' = tasks w -> safe w w'.
Proof. intros Hn Hr Hm Ho Ht φ []. split; by rewrite ?Hn, ?Hr, ?Hm, ?Ho, ?Ht. Qed.

Lemma sound_put_req φ k c w :
  sound φ w -> requests_sound φ c -> sound φ (set_reqs (<[k := c]> (reqs w)) w).
Proof. intros [] Hc. split; [done| |done..]. by apply map_Forall_insert_2. Qed.

Lemma sound_put_oneshot φ k o w :
  sound φ w -> oneshot_sound φ k o -> sound φ (set_oneshots (<[k := o]> (oneshots w)) w).
Proof. intros [] Ho. split; [done..| |done]. by apply map_Forall_insert_2. Qed.

Lemma sound_put_waiters φ k m w :
  sound φ w -> waiters_sound φ m -> sound φ (set_waiter_maps (<[k := m]> (waiter_maps w)) w).
Proof. intros [] Hm. split; [done|done| |done..]. by apply map_Forall_insert_2. Qed.

Lemma sound_put_task φ k t w :
  sound φ w -> task_state_sound φ (state t) -> sound φ (set_tasks (<[k := t]> (tasks w)) w).
Proof. intros [] Ht. split; [done..|]. by apply map_Forall_insert_2. Qed.

Lemma sound_delete_task φ k w : sound φ w -> sound φ (set_tasks (delete k (tasks w)) w).
Proof. intros []. split; [done..|]. by apply map_Forall_delete. Qed.

Lemma sound_bump φ w : sound φ w -> sound φ (bump_id w).
Proof. intros [Hf ????]. split; [|done..]. intros tx Htx. apply Hf in Htx. simpl. lia. Qed.

(** The object under a key changes. *)
Lemma safe_on_req f k w :
  (forall φ c, requests_sound φ c -> requests_sound φ (f c)) -> safe w (on_req f k w).
Proof.
  intros Hf φ Hw. unfold on_req. rewrite alter_put.
  destruct (reqs w !! k) as [c|] eqn:E; [|by destruct w]. apply sound_put_req; [done|].
  by apply Hf, (so_requests φ w Hw k).
Qed.

Lemma safe_on_oneshot f k w :
  (forall o m, value (oneshot_look (f o)) = Some m -> value (oneshot_look o) = Some m) ->
  safe w (on_oneshot f k w).
Proof.
  intros Hf φ Hw. unfold on_oneshot. rewrite alter_put.
  destruct (oneshots w !! k) as [o|] eqn:E; [|by destruct w]. apply sound_put_oneshot; [done|].
  intros m Hm. by apply (so_oneshots φ w Hw k o E), Hf.
Qed.

Lemma safe_on_waiters f k w :
  (forall φ m, waiters_sound φ m -> waiters_sound φ (f m)) -> safe w (on_waiters f k w).
Proof.
  intros Hf φ Hw. unfold on_waiters. rewrite alter_put.
  destruct (waiter_maps w !! k) as [m|] eqn:E; [|by destruct w]. apply sound_put_waiters; [done|].
  by apply Hf, (so_waiters φ w Hw k).
Qed.

Lemma safe_alter_task f k w :
  (forall t, state (f t) = state t) -> safe w (set_tasks (alter f k (tasks w)) w).
Proof.
  intros Hf φ Hw. rewrite alter_put. destruct (tasks w !! k) as [t|] eqn:E; [|by destruct w].
  apply sound_put_task; [done|]. rewrite Hf. by apply (so_tasks φ w Hw k).
Qed.

(** What was known of purposes goes on to hold. *)
Lemma for_delivery_mono tx φ φ' : le φ φ' -> for_delivery φ tx -> for_delivery φ' tx.
Proof. intros He Ht. by eapply lookup_weaken. Qed.

Lemma requests_sound_mono c φ φ' : le φ φ' -> requests_sound φ c -> requests_sound φ' c.
Proof.
  intros He [? Hq]. split; [done|]. eapply list.Forall_impl; [exact Hq|].
  intros tx. by apply for_delivery_mono.
Qed.

Lemma waiters_sound_mono m φ φ' : le φ φ' -> waiters_sound φ m -> waiters_sound φ' m.
Proof.
  intros He Hm. eapply map_Forall_impl; [exact Hm|]. intros id tx Ht.
  exact (lookup_weaken _ _ _ _ Ht He).
Qed.

Lemma at_sound_mono at_ φ φ' : le φ φ' -> at_sound φ at_ -> at_sound φ' at_.
Proof. intros He. destruct at_; simpl; try done; by apply for_delivery_mono. Qed.

Lemma task_state_sound_mono t φ φ' : le φ φ' -> task_state_sound φ t -> task_state_sound φ' t.
Proof. intros He. destruct t; [by apply at_sound_mono|done]. Qed.

(** A new channel gets a purpose. *)
Lemma sound_new_oneshot φ x w :
  sound φ w ->
  le φ (<[next_id w := x]> φ) /\
  sound (<[next_id w := x]> φ)
    (bump_id (set_oneshots (<[next_id w := oneshot_channel]> (oneshots w)) w)).
Proof.
  intros [Hf Hr Hm Ho Ht]. assert (φ !! next_id w = None) as Hn.
  { apply eq_None_not_Some. intros Hs%Hf. lia. }
  pose proof (insert_subseteq φ _ x Hn) as He. split; [done|]. split; simpl.
  - intros tx [<-|[_ Hs%Hf]]%lookup_insert_is_Some; lia.
  - eapply map_Forall_impl; [exact Hr|]. intros k c. by apply requests_sound_mono.
  - eapply map_Forall_impl; [exact Hm|]. intros k m. by apply waiters_sound_mono.
  - intros k o [[<- <-]|[Hk E]]%lookup_insert_Some m.
    + by rewrite oneshot_channel_spec.
    + intros Hv id. rewrite lookup_insert_ne by done. by apply (Ho k o E).
  - eapply map_Forall_impl; [exact Ht|]. intros k t. by apply task_state_sound_mono.
Qed.
End Sound.

Abbreviation safe := (harmless sound).

(** A computation that keeps the state sound; [bad] says whether it may panic. *)
Abbreviation sorted bad Q p φ := (knows sound bad Q p φ).
Abbreviation sorts bad p := (steady sound bad p).

(** ** Steps *)

Section Steps.
Context {D : Deps} (bad : Prop).
Implicit Types (w : World) (φ : purposes).

Lemma sorts_alloc put : (forall k w, safe w (put k w)) -> sorts bad (alloc put).
Proof. intros Hp. apply steady_act. intros w φ Hw. by apply sound_bump, Hp. Qed.

Lemma sorted_new_oneshot x φ : sorted bad (fun k φ' => φ' !! k = Some x) new_oneshot φ.
Proof.
  apply knows_act. intros φ1 w w' k _ Hw [= <- <-]. exists (<[next_id w := x]> φ1).
  destruct (sound_new_oneshot φ1 x w Hw). split_and!; [done..|]. apply lookup_insert_eq.
Qed.

Lemma sorts_new_oneshot : sorts bad new_oneshot.
Proof. intros φ. eapply knows_mono; [|apply (sorted_new_oneshot ForDelivery)]. done. Qed.
End Steps.

#[export] Hint Resolve sorts_new_oneshot : steady.

(** ** Instances *)

Section Instances.
Context {D : Deps}.
Implicit Types (w : World) (φ : purposes).

#[export] Instance sound_upkeep : Upkeep sound.
Proof.
  split.
  - intros. by apply safe_aside.
  - intros. by apply safe_aside.
  - intros. by apply safe_aside.
  - intros. by apply safe_aside.
  - intros k w. apply safe_on_req. intros φ c. apply (drop_sender_ok (fun _ => for_delivery φ) w).
  - intros k w. apply safe_on_req. intros φ c. apply (drop_receiver_ok (fun _ => for_delivery φ) w).
  - intros k w. apply safe_on_oneshot. intros o m. by rewrite oneshot_drop_sender_spec.
  - intros k w. apply safe_on_oneshot. intros o m. by rewrite oneshot_drop_receiver_spec.
  - intros. by apply safe_aside.
  - intros. by apply safe_aside.
  - intros. by apply safe_alter_task.
  - intros k w φ. apply sound_delete_task.
  - intros id k w. apply safe_on_waiters. intros φ m Hm. by apply map_Forall_delete.
  - intros k w. by apply safe_on_waiters.
Qed.

(** An answer is put in the channel of a request only when it fits it. *)
Lemma sound_reply_send φ k m w : sound φ w -> fits φ k m -> sound φ (reply_send k m w).1.
Proof.
  intros Hw Hm. unfold reply_send. destruct (oneshots w !! k) as [o|] eqn:E; [|done].
  pose proof (oneshot_send_spec m o) as Hs. destruct (oneshot_send m o) as [r o'].
  apply sound_put_oneshot; [done|]. intros m' Hv. unfold on_snd, view_oneshot_send in Hs.
  simpl in Hs.
  destruct (receiver_alive _); injection Hs as _ Hs; rewrite Hs in Hv; simpl in Hv;
    [by simplify_eq|].
  by apply (so_oneshots φ w Hw k o E).
Qed.

Lemma waiter_map_sound φ w k : sound φ w -> waiters_sound φ (waiter_map k w).
Proof.
  intros Hw. unfold waiter_map. destruct (waiter_maps w !! k) as [m|] eqn:E; [|done].
  by apply (so_waiters φ w Hw k).
Qed.

Lemma safe_deliver_reply k m w : safe w (deliver_reply k m w).
Proof.
  intros φ Hw. unfold deliver_reply. cbv zeta.
  pose proof (up_delete_waiter (message_id (header m)) k w φ Hw).
  destruct (waiter_map k w !! _) as [tx|] eqn:E; [|done]. apply sound_reply_send; [done|].
  apply (waiter_map_sound φ w k Hw) in E. intros id Hid. congruence.
Qed.

Lemma reply_recv_sound φ k w w' r :
  sound φ w -> reply_recv k w = Some (w', r) -> sound φ w' /\ forall m, r = Ok m -> fits φ k m.
Proof.
  intros Hw E. unfold reply_recv in E. destruct (oneshots w !! k) as [o|] eqn:Eo; [|done].
  simpl in E. destruct (oneshot_recv o) as [[x o']|] eqn:Er; [|done]. injection E as <- <-.
  pose proof (so_oneshots φ w Hw k o Eo) as Ho. pose proof (oneshot_recv_spec o) as Hs.
  rewrite Er in Hs. simpl in Hs. unfold on_snd, view_oneshot_recv in Hs. simpl in Hs.
  destruct (value (oneshot_look o)) as [m|] eqn:Ev.
  - injection Hs as -> Hs. split; [|by intros ? [= <-]; apply Ho]. apply sound_put_oneshot; [done|].
    intros m'. by rewrite Hs.
  - destruct (sender_alive _); [done|]. injection Hs as -> Hs. split; [|done].
    apply sound_put_oneshot; [done|]. intros m'. by rewrite Hs, Ev.
Qed.

#[export] Program Instance sound_replies : Replies sound := {
  awaits φ id tx := φ !! tx = Some (ForReply id);
}.
Next Obligation. intros φ φ' id tx He Htx. exact (lookup_weaken _ _ _ _ Htx He). Qed.
Next Obligation.
  intros id φ w Hw. exists (<[next_id w := ForReply id]> φ).
  destruct (sound_new_oneshot φ (ForReply id) w Hw). split_and!; [done| |done]. apply lookup_insert_eq.
Qed.
Next Obligation.
  intros φ id tx m w Hw Htx. unfold on_waiters. rewrite alter_put.
  destruct (waiter_maps w !! m) as [es|] eqn:Em; [|by destruct w].
  apply sound_put_waiters; [done|]. apply map_Forall_insert_2; [done|]. by apply (so_waiters φ w Hw m).
Qed.
Next Obligation. apply safe_deliver_reply. Qed.
Next Obligation.
  intros φ tx w w' r Hw E. destruct (reply_recv_sound φ tx w w' r Hw E) as [? Hr].
  split; [done|]. intros id m Htx ->. by apply (Hr m).
Qed.

#[export] Program Instance sound_locking : Locking sound True := { in_order _ _ := True }.
Next Obligation. done. Qed.
Next Obligation. intros. by apply safe_aside. Qed.
Next Obligation. done. Qed.
Next Obligation. done. Qed.
Next Obligation. intros φ i w _. by apply safe_aside. Qed.
Next Obligation. done. Qed.
End Instances.
