(* ===== verification/CorrelationOps.v ===== *)
(** * CorrelationOps: every operation keeps the channels to their purposes

    Each operation of the broker keeps the state sound in the sense of Correlation.v, and what a
    request returns fits the channel it waited on. *)

From S2P Require Import Prelude.
From S2P Require Import Protocol.
From S2P Require Import ChanIface.
From S2P Require Import Async.
From S2P Require Import Preserve.
From S2P Require Import Registry.
From S2P Require Import World.
From S2P Require Import Channel.
From S2P Require Import Routing.
From S2P Require Import RegistryOps.
From S2P Require Import Dispatcher.
From S2P Require Import Subscriber.
From S2P Require Import Transport.
From S2P Require Import ReplyDispatcher.
From S2P Require Import Publisher.
From S2P Require Import Client.
From S2P Require Import Runtime.
From S2P Require Import Config.
From S2P Require Import Patterns.
From S2P Require Import Quiet.
From S2P Require Import Typing.
From S2P Require Import Upkeep.
From S2P Require Import Correlation.

Local Open Scope broker_scope.

(** ** Operations *)

Section Operations.
Context {D : Deps} (bad : Prop).
Implicit Types (w : World) (φ : purposes) (slot : slot_id) (g : group_id).

(** Channels *)

Lemma safe_poll_message {A} k (f : Chan Message -> option (A * Chan Message)) w w' a :
  poll_channel k f w = Some (w', a) -> safe w w'.
Proof.
  unfold poll_channel. destruct (get_channels w !! k) as [c|]; [|done]. simpl.
  destruct (f c) as [[x c']|]; [|done]. intros [= <- _]. by apply safe_aside.
Qed.

Lemma sorts_send_message k (m : Message) : sorts bad (Sender_send k m).
Proof. apply steady_await. intros w w' a. apply safe_poll_message. Qed.

Lemma sorts_recv_message k : sorts bad (Receiver_recv (M := Message) k).
Proof. apply steady_await. intros w w' a. apply safe_poll_message. Qed.

Lemma sorts_try_recv_message k : sorts bad (Receiver_try_recv (M := Message) k).
Proof. apply steady_block. intros w w' a. apply safe_poll_message. Qed.

Lemma sorted_send_token req tx φ : for_delivery φ tx -> sorted bad any (Sender_send req tx) φ.
Proof.
  intros Htx. apply knows_await. intros φ1 w w' a H1 Hw E. exists φ1. split_and!;
    [done| |done].
  unfold poll_channel in E. destruct (get_channels w !! req) as [c|] eqn:Ec; [|done]. simpl in E.
  destruct (mpsc_send tx c) as [[r c']|] eqn:Es; [|done]. injection E as <- _.
  apply sound_put_req; [done|].
  eapply (send_ok (fun _ => for_delivery φ1) w); [|by apply (so_requests φ1 w Hw req)|exact Es].
  by eapply for_delivery_mono.
Qed.

Lemma sorted_recv_token req φ :
  sorted bad (fun r φ' => forall tx, r = Some tx -> for_delivery φ' tx)
    (Receiver_recv (M := oneshot_id) req) φ.
Proof.
  apply knows_await. intros φ1 w w' a H1 Hw E. exists φ1.
  unfold poll_channel in E. destruct (get_channels w !! req) as [c|] eqn:Ec; [|done]. simpl in E.
  destruct (mpsc_recv c) as [[r c']|] eqn:Es; [|done]. injection E as <- <-.
  eapply (recv_ok (fun _ => for_delivery φ1) w) in Es as [Hc Hr];
    [|by apply (so_requests φ1 w Hw req)].
  split_and!; [done| |done]. by apply sound_put_req.
Qed.

Lemma sorts_create_channel n : bad -> sorts bad (create_channel n).
Proof.
  intros Hb φ. apply knows_act_or_panic; [done|]. apply harmless_learns. intros w w' a E.
  destruct (mpsc_channel n) as [c|]; [|done]. injection E as <- _. intros φ1 Hw.
  apply sound_bump. by apply (safe_aside w).
Qed.

Lemma sorts_create_request_channel n : bad -> sorts bad (create_request_channel n).
Proof.
  intros Hb φ. apply knows_act_or_panic; [done|]. apply harmless_learns. intros w w' a E.
  destruct (mpsc_channel n) as [c|] eqn:Ec; [|done]. injection E as <- _. intros φ1 Hw.
  apply sound_bump, sound_put_req; [done|].
  by apply (channel_new_ok (fun _ => for_delivery φ1) w n).
Qed.

(** Slots, groups and the registry *)

Lemma sorts_new_slot x : sorts bad (new_slot x).
Proof. apply sorts_alloc. intros k w. by apply safe_aside. Qed.

Lemma sorts_new_group x : sorts bad (new_group x).
Proof. apply sorts_alloc. intros k w. by apply safe_aside. Qed.

Lemma sorts_new_waiter_map : sorts bad new_waiter_map.
Proof. apply sorts_alloc. intros k w φ Hw. by apply sound_put_waiters. Qed.

Lemma sorts_spawn t : (forall φ, task_state_sound φ t) -> sorts bad (spawn t).
Proof. intros Ht. apply sorts_alloc. intros k w φ Hw. by apply sound_put_task. Qed.

Lemma sorts_group_subscribe g : sorts bad (LoadBalancedGroup_subscribe g).
Proof.
  unfold LoadBalancedGroup_subscribe. steadily. apply steady_act. intros. by apply up_group.
Qed.

(** Messages and subscribers *)

Lemma sorts_send_to_slot slot m : sorts bad (send_to_slot slot m).
Proof.
  pose proof sorts_send_message. unfold send_to_slot. steadily. apply steady_act, up_guard_sender, _.
Qed.

Lemma sorts_target_send t m : sorts bad (RouteTarget_send t m).
Proof. pose proof sorts_send_to_slot. unfold RouteTarget_send. steadily. Qed.

(** A request for a message makes a channel for the delivery. *)
Lemma sorts_request tx : sorts bad (RequestSender_request tx).
Proof.
  intros φ. unfold RequestSender_request. eapply knows_bind;
    [apply (sorted_new_oneshot _ ForDelivery)|].
  intros reply φ1 _ Hr. eapply knows_bind; [|intros a φ2 _ _; steadily].
  apply knows_owning; [|by apply sorted_send_token]. intros w. apply harmless_grows.
  etrans; [apply up_oneshot_drop_sender|apply up_oneshot_drop_receiver].
Qed.

Lemma sorts_reply_recv k : sorts bad (await (reply_recv k)).
Proof. apply steady_await. intros w w' a E φ Hw. by eapply reply_recv_sound. Qed.

Lemma sorts_subscriber_recv s : sorts bad (Subscriber_recv s).
Proof.
  pose proof sorts_request. pose proof sorts_reply_recv. pose proof sorts_recv_message.
  unfold Subscriber_recv. steadily.
Qed.

Lemma sorts_subscriber_try_recv s : sorts bad (Subscriber_try_recv s).
Proof. pose proof sorts_try_recv_message. unfold Subscriber_try_recv. steadily. Qed.

End Operations.

#[export] Hint Resolve sorts_target_send sorts_subscriber_recv sorts_subscriber_try_recv
  sorts_group_subscribe : steady.

(** ** Publishers and clients *)

Section Publishing.
Context {D : Deps} (bad : Prop).
Implicit Types (w : World) (p : Publisher InMemoryTransport).

Lemma sorts_cache_lock k f : sorts bad (cache_lock (E := InMemoryEndpoint) k f).
Proof.
  apply steady_block. intros w w' a E. cbn in E. destruct (caches w !! k) as [l|]; [|done]. cbn in E.
  destruct (f l) as [l'|]; [|done]. injection E as <- _. by apply safe_aside.
Qed.

Lemma sorts_cache_update k f : sorts bad (cache_update (E := InMemoryEndpoint) k f).
Proof. apply steady_write. intros w. by apply safe_aside. Qed.

#[local] Hint Resolve sorts_cache_lock sorts_cache_update : steady.

Lemma sorts_resolve t address : sorts bad (InMemoryTransport_resolve t address).
Proof. unfold InMemoryTransport_resolve, InMemoryEndpoint_new, lookup. steadily. Qed.

Lemma sorts_transport_send (t : InMemoryTransport) m : sorts bad (Transport_send t m).
Proof. pose proof sorts_resolve. unfold Transport_send. in_memory. steadily. Qed.

Lemma sorts_valid_cached k : sorts bad (valid_cached (E := InMemoryEndpoint) k).
Proof. unfold valid_cached. in_memory. steadily. Qed.

Lemma sorts_get_or_resolve p : sorts bad (get_or_resolve_endpoint p).
Proof.
  pose proof sorts_valid_cached. pose proof sorts_resolve. unfold get_or_resolve_endpoint.
  in_memory.
  steadily.
Qed.

Lemma sorts_send_or_invalidate p ep m : sorts bad (send_or_invalidate p ep m).
Proof. unfold send_or_invalidate, invalidate_cache. in_memory. steadily. Qed.

Lemma sorts_publisher_send p m : sorts bad (Publisher_send p m).
Proof.
  pose proof sorts_get_or_resolve. pose proof sorts_send_or_invalidate. unfold Publisher_send.
  steadily.
Qed.

Lemma sorted_publisher_request p m φ :
  sorted bad (answers (message_id (header m))) (Publisher_request p m) φ.
Proof.
  unfold Publisher_request. apply knows_any_bind; [apply sorts_get_or_resolve|].
  intros [ep|e] φ1 _; [|done]. apply knows_request_with; [apply _..|]. intros.
  apply sorts_send_or_invalidate.
Qed.

Lemma sorted_client_request self m φ :
  sorted bad (answers (message_id (header m))) (BrokerClient_request self m) φ.
Proof. apply knows_request_with; [apply _..|]. intros. apply sorts_transport_send. Qed.

Lemma sorts_publisher_request p m : sorts bad (Publisher_request p m).
Proof. intros φ. by eapply knows_mono, sorted_publisher_request. Qed.

Lemma sorts_client_request self m : sorts bad (BrokerClient_request self m).
Proof. intros φ. by eapply knows_mono, sorted_client_request. Qed.

Lemma sorts_async_call {A} (p : proc World A) : async_call p -> sorts bad p.
Proof.
  pose proof sorts_transport_send. pose proof sorts_publisher_send.
  pose proof sorts_publisher_request. pose proof sorts_client_request.
  induction 1; unfold BrokerClient_send; steadily.
Qed.
End Publishing.

Section Clients.
Context {D : Deps}.
Implicit Types (w : World) (φ : purposes).

Abbreviation sorts_anyway p := (sorts True p).

(** Registration. *)

Lemma sorts_store i : sorts_anyway (store i).
Proof. intros φ. by apply (knows_store sound True). Qed.

Lemma sorts_with_lock {A} (body : proc World A) : sorts_anyway body -> sorts_anyway (with_lock body).
Proof. intros Hp φ. apply knows_with_lock; [apply _|done|intros; apply Hp]. Qed.

Lemma sorts_register a t : sorts_anyway (register a t).
Proof. pose proof sorts_store. apply sorts_with_lock. unfold load. steadily. Qed.

Lemma sorts_group_factory n address : sorts_anyway (group_factory n address).
Proof.
  pose proof (fun n => sorts_create_channel True n I).
  pose proof (fun n => sorts_create_request_channel True n I).
  pose proof (sorts_new_slot True). pose proof (sorts_new_group True).
  unfold group_factory, new_load_balanced, LoadBalancedGroup_new, SubscriptionSlot_new. steadily.
  by apply sorts_spawn.
Qed.

Lemma sorts_join a n : sorts_anyway (get_existing_or_register a (group_factory n a)).
Proof.
  pose proof sorts_store. pose proof (sorts_group_factory n a). apply sorts_with_lock.
  unfold load. steadily.
Qed.

Lemma sorts_register_exclusive n a : sorts_anyway (register_exclusive n a).
Proof.
  pose proof (sorts_create_channel True n I). pose proof sorts_register.
  pose proof (sorts_new_slot True). unfold register_exclusive, SubscriptionSlot_new. steadily.
Qed.

Lemma sorts_client b c a : sorts_anyway (Broker_client b c a).
Proof.
  pose proof sorts_register_exclusive. pose proof (sorts_new_waiter_map True).
  unfold Broker_client, BrokerClient_new, ReplyDispatcher_new. steadily. by apply sorts_spawn.
Qed.

Lemma sorts_subscribe a c : sorts_anyway (subscribe a c).
Proof.
  pose proof sorts_register_exclusive. pose proof (sorts_join a).
  unfold subscribe, subscribe_exclusive, subscribe_load_balanced. steadily.
Qed.

Lemma sorts_client_code {A} (p : proc World A) : client_code p -> sorts_anyway p.
Proof.
  pose proof sorts_client. pose proof sorts_subscribe. pose proof sorts_register.
  pose proof sorts_join. pose proof (sorts_transport_send True).
  pose proof (sorts_publisher_send True). pose proof (sorts_publisher_request True).
  pose proof (sorts_client_request True).
  induction 1;
    [..|by apply steady_abandon, sorts_async_call| | | | | | |];
    unfold BrokerClient_send, BrokerClient_publisher, Publisher_new, has_route, has_local, lookup;
    steadily.
  - by intros φ.
  - apply sorts_alloc. intros k w. by apply safe_aside.
Qed.
End Clients.
