(* ===== verification/CorrelationProps.v ===== *)
(** * CorrelationProps: a request gets its own answer, in every execution

    Rounds of tasks and steps of the runtime keep the state sound in the sense of Correlation.v,
    so no request of a running broker returns the answer to another. *)

From S2P Require Import Prelude.
From S2P Require Import Protocol.
From S2P Require Import ChanIface.
From S2P Require Import Async.
From S2P Require Import Preserve.
From S2P Require Import Registry.
From S2P Require Import World.
From S2P Require Import Channel.
From S2P Require Import Routing.
From S2P Require Import RegistryOps.
From S2P Require Import Dispatcher.
From S2P Require Import Subscriber.
From S2P Require Import Transport.
From S2P Require Import ReplyDispatcher.
From S2P Require Import Publisher.
From S2P Require Import Client.
From S2P Require Import Runtime.
From S2P Require Import Config.
From S2P Require Import Patterns.
From S2P Require Import Str.
From S2P Require Import PatternFacts.
From S2P Require Import RegistryProps.
From S2P Require Import Typing.
From S2P Require Import RuntimeProps.
From S2P Require Import RuntimeTypes.
From S2P Require Import MessagingProps.
From S2P Require Import PublisherProps.
From S2P Require Import RuntimeDelivery.
From S2P Require Import Upkeep.
From S2P Require Import Correlation.
From S2P Require Import CorrelationOps.

Local Open Scope broker_scope.

(** ** The runtime *)

Section Runtime.
Context {D : Deps}.
Implicit Types (w : World) (φ : purposes) (c : config).

Abbreviation next_sound ok := (fun r φ => forall x, r = Some x -> ok φ x).

Lemma next_at at_ φ : at_sound φ at_ -> sorted True (next_sound at_sound) (Ret (Some at_)) φ.
Proof. by intros Ha x [= <-]. Qed.

(** The dispatcher answers only those who asked for a delivery. *)
Lemma sorted_deliver tx m φ : for_delivery φ tx -> sorted True any (act (reply_send tx m)) φ.
Proof.
  intros Htx. apply knows_act. intros φ1 w w' a H1 Hw [= E]. exists φ1. split_and!; [done| |done].
  pose proof (for_delivery_mono _ _ _ H1 Htx) as Hd.
  pose proof (sound_reply_send φ1 tx m w Hw) as Hs. rewrite E in Hs. apply Hs.
  intros id Hid. unfold for_delivery in Hd. congruence.
Qed.

Lemma sorted_dispatcher_step env at_ φ :
  at_sound φ at_ -> sorted True (next_sound at_sound) (dispatcher_step env at_) φ.
Proof.
  intros Ha. destruct at_ as [|tx|tx m|m|]; unfold dispatcher_step.
  - eapply knows_bind; [apply sorted_recv_token|]. intros [tx|] φ1 _ Hr; apply next_at;
      [by apply Hr|done].
  - apply knows_any_bind; [apply sorts_recv_message|]. intros [m|] φ1 H1.
    + apply next_at. by apply (at_sound_mono (WaitMessage tx) φ).
    + apply knows_any_bind; [apply steady_write, up_oneshot_drop_sender|].
      intros _ φ2 _. by apply next_at.
  - eapply knows_bind; [by apply sorted_deliver|]. intros [u|msg] φ1 _ _; by apply next_at.
  - eapply knows_bind; [apply sorted_recv_token|]. intros [tx|] φ1 _ Hr; apply next_at;
      [by apply Hr|done].
  - apply knows_any_bind; [steadily|]. intros _ φ1 _.
    apply knows_any_bind; [steadily|]. intros _ φ2 _.
    apply knows_any_bind; [steadily|]. by intros _ φ3 _.
Qed.

Lemma sorted_task_round t φ :
  task_state_sound φ t -> sorted True (next_sound task_state_sound) (task_round t) φ.
Proof.
  destruct t as [env at_|s k]; intros Ha; unfold task_round.
  - eapply knows_bind; [by apply sorted_dispatcher_step|]. intros [a|] φ1 _ Hr x [= <-].
    by apply Hr.
  - apply knows_any_bind; [unfold listener_step; steadily|]. by intros [] φ1 _ x [= <-].
Qed.

#[export] Program Instance sound_rounds : Rounds sound True := { task_in_order := task_state_sound }.
Next Obligation. intros φ φ' t. apply task_state_sound_mono. Qed.
Next Obligation. intros φ w t x Hw. by apply (so_tasks _ _ Hw). Qed.
Next Obligation. intros φ w t x. apply sound_put_task. Qed.
Next Obligation. intros t φ. apply sorted_task_round. Qed.

Abbreviation config_sorted := (config_known sound True).

(** In every state of a broker the channels are sorted by purpose. *)
Lemma reachable_sorted c : reachable c -> exists φ, config_sorted (fun _ => True) φ c.
Proof.
  intros (ps & Hps & Hr). apply (runtime_steps_known _ _ _ (started ps) c Hr). exists ∅. split;
    [|simpl|done].
  - split; simpl; try apply map_Forall_empty. by intros tx [? [=]].
  - intros i p Hi. eapply Forall_lookup_1 in Hps; [|done]. by apply sorts_client_code.
Qed.

(** A thread that has been seen not to panic never will. *)
Lemma never_panics c c' i p :
  reachable c -> threads c !! i = Some p -> sorts False p -> rtc runtime_step c c' ->
  threads c' !! i <> Some Panic.
Proof.
  intros (φ & [Hw Ht Hr])%reachable_sorted Hi Hp Hst Hpanic.
  destruct (runtime_steps_known sound True (fun j => j <> i) c c' Hst) as (φ' & [_ Ht' _]).
  - exists φ. split; [done| |done]. intros j q Hj. destruct (decide (j = i)) as [->|Hne].
    + simplify_eq. eapply knows_bad; [|apply Hp]. done.
    + eapply knows_bad; [|by apply (Ht j)]. done.
  - by apply (Ht' i Panic Hpanic).
Qed.

(** A program that makes a request of either kind, and panics when the answer is not the answer
    to the message it sent. *)
Definition asserts id (ask : proc World (result Message TransportError)) : proc World unit :=
  let! r := ask in
  match r with
  | Ok m => if decide (message_id (header m) = id) then Ret tt else Panic
  | Err _ => Ret tt
  end.

Lemma sorts_asserts id ask :
  (forall φ, sorted False (answers id) ask φ) -> sorts False (asserts id ask).
Proof.
  intros Ha φ. eapply knows_bind; [apply Ha|]. intros [m|e] φ1 _ Hr; [|done].
  by rewrite (decide_True _ _ (Hr m eq_refl)).
Qed.

(** C6: a request is only ever answered with its own answer. In every state a broker reaches, a
    thread that is about to make a request, as a client or through a publisher, and that would
    panic if the message it got back had another message id than the one it sent, never panics:
    whatever the other threads, tasks, timeouts and aborted tasks do, with any number of requests
    under way on the same reply dispatcher, also with the same message id. *)
Theorem own_answer c c' i self (p : Publisher InMemoryTransport) m (Hreach : reachable c)
    (Hask : threads c !! i = Some (asserts (message_id (header m)) (BrokerClient_request self m)) \/
            threads c !! i = Some (asserts (message_id (header m)) (Publisher_request p m)))
    (Hst : rtc runtime_step c c') :
  threads c' !! i <> Some Panic.
Proof.
  destruct Hask as [Hi|Hi]; (eapply never_panics; [done|exact Hi| |done]); apply sorts_asserts;
    intros φ; [apply sorted_client_request|apply sorted_publisher_request].
Qed.
End Runtime.

(** ** Witness *)

Section Witness.
(** A client that makes a request as soon as it is there, and a service that answers one. *)
Definition new_client := Broker_client (mkBroker BrokerConfig_default) (mkClientConfig 4) (bs "me").
Definition new_service := subscribe users (mkSubscriberConfig 4 Exclusive).

Definition requester id : proc World unit :=
  let! r := new_client in
  match r with Ok self => asserts id (BrokerClient_request self ping) | Err _ => Ret tt end.

Definition responder : proc World unit :=
  let! r := new_service in
  match r with Ok (s, _) => serve s a_client echo | Err _ => Ret tt end.

Lemma these_programs_ok id : Forall client_code [requester id; responder].
Proof.
  constructor; [|constructor; [|done]]; apply code_bind;
    [apply code_client| |apply code_subscribe|].
  - intros [self|e]; [|apply code_ret]. apply code_bind; [apply code_request|].
    intros [m|e]; [|apply code_ret]. case_decide; constructor.
  - intros [[s h]|e]; [|apply code_ret]. apply code_bind; [apply code_recv|].
    intros [m|]; [|apply code_ret]. apply code_bind; [apply code_send|]. intros. apply code_ret.
Qed.

(** One way it may go from the state [w]: the client is made, the service subscribes, the request
    waits, the service answers, the listener, task 3, gives the answer to the request, and the
    request returns it. *)
Definition goes_well (w : World) : bool :=
  match run new_client w with
  | Done w (Ok self) =>
      match run new_service w with
      | Done w (Ok (s, _)) =>
          match run (BrokerClient_request self ping) w with
          | Blocked w p =>
              match run (serve s a_client echo) w with
              | Done w tt =>
                  match tasks w !! 3 with
                  | Some (mkTask listener false) =>
                      match run (task_round listener) w with
                      | Done w r =>
                          match run p (end_round 3 r w) with
                          | Done w (Ok m) => bool_decide (message_id (header m) = ping_id)
                          | _ => false
                          end
                      | _ => false
                      end
                  | _ => false
                  end
              | _ => false
              end
          | _ => false
          end
      | _ => false
      end
  | _ => false
  end.

Lemma it_goes_well : goes_well World_new = true.
Proof. vm_compute. reflexivity. Qed.

(** The thread has its answer, which has the message id of [ping]. *)
Lemma answer_reached w0 :
  goes_well w0 = true -> exists self s w w', forall id,
    rtc runtime_step (mkConfig w0 [requester id; responder] ∅)
      (mkConfig w [asserts id (BrokerClient_request self ping); serve s a_client echo] ∅) /\
    rtc runtime_step (mkConfig w [asserts id (BrokerClient_request self ping);
      serve s a_client echo] ∅)
      (mkConfig w' [if decide (ping_id = id) then Ret tt else Panic; Ret tt] ∅).
Proof.
  unfold goes_well. destruct (run new_client w0) as [w1 [self|]| |] eqn:E1; try done.
  destruct (run new_service w1) as [w2 [[s h]|]| |] eqn:E2; try done.
  destruct (run (BrokerClient_request self ping) w2) as [| |w3 p] eqn:E3; try done.
  destruct (run (serve s a_client echo) w3) as [w4 []| |] eqn:E4; try done.
  destruct (tasks w4 !! 3) as [[t []]|] eqn:E5; try done.
  destruct (run (task_round t) w4) as [w5 r| |] eqn:E6; try done.
  destruct (run p (end_round 3 r w5)) as [w6 [m|]| |] eqn:E7; try done.
  intros <-%bool_decide_eq_true. exists self, s, w2, w6. intros id. split.
  - etrans; [exact (thread_done _ _ [requester id; responder] 0 _ _ _ ∅ eq_refl E1)|].
    exact (thread_done _ _ [asserts id (BrokerClient_request self ping);
      responder] 1 _ _ _ ∅ eq_refl E2).
  - etrans; [exact (thread_blocked _ _ [asserts id _;
      serve s a_client echo] 0 _ _ _ ∅ eq_refl E3)|].
    etrans; [exact (run_thread 1 _ _ _ [bind p _; serve s a_client echo] ∅ eq_refl E4)|].
    etrans; [exact (task_runs _ _ _ _ _ _ _ E5 (lookup_empty 3) E6)|].
    exact (thread_done p _ [bind p _; Ret tt] 0 _ _ _ ∅ eq_refl E7).
Qed.

(** It would panic if it expected another id. *)
Lemma own_answer_witness :
  exists c c' self, reachable c /\
    threads c !! 0 = Some (asserts ping_id (BrokerClient_request self ping)) /\
    rtc runtime_step c c' /\ threads c' !! 0 = Some (Ret tt) /\ threads c' !! 0 <> Some Panic /\
    exists c1 c2, reachable c1 /\
      threads c1 !! 0 = Some (asserts users (BrokerClient_request self ping)) /\
      rtc runtime_step c1 c2 /\ threads c2 !! 0 = Some Panic.
Proof.
  destruct (answer_reached World_new it_goes_well) as (self & s & w & w' & Hrun).
  set (c id := mkConfig w [asserts id (BrokerClient_request self ping); serve s a_client echo] ∅).
  set (c' id := mkConfig w' [if decide (ping_id = id) then Ret tt else Panic; Ret tt] ∅).
  assert (forall id, reachable (c id)) as Hc.
  { intros id. exists [requester id; responder]. split; [apply these_programs_ok|apply Hrun]. }
  assert (forall id, rtc runtime_step (c id) (c' id)) as S by (intros id; apply Hrun).
  exists (c ping_id), (c' ping_id), self. split; [apply Hc|]. split; [reflexivity|]. split;
    [apply S|].
  split; [reflexivity|]. split.
  - exact (own_answer (c ping_id) (c' ping_id) 0 self a_publisher ping (Hc ping_id)
      (or_introl eq_refl) (S ping_id)).
  - exists (c users), (c' users). split; [apply Hc|]. split; [reflexivity|]. split;
      [apply S|reflexivity].
Defined.
End Witness.
