(* ===== verification/Isolation.v ===== *)
(** * Isolation: every channel belongs to an address

    Each channel, slot, group, request and cache is made for an address, or for the answer to a
    request, once and for all. The state does not record which; labels known beside it do
    (Preserve.v). In an isolated state every object refers to objects of its own address only, a
    route leads to a target of its own pattern, and messages lie only in channels of addresses
    they are meant for. What each update of the state does to that. *)

From S2P Require Import Prelude.
From S2P Require Import Utf8.
From S2P Require Import Patterns.
From S2P Require Import Protocol.
From S2P Require Import RadixIface.
From S2P Require Import ChanIface.
From S2P Require Import Async.
From S2P Require Import Preserve.
From S2P Require Import Registry.
From S2P Require Import RegistryFacts.
From S2P Require Import PatternFacts.
From S2P Require Import RegistryProps.
From S2P Require Import World.
From S2P Require Import Channel.
From S2P Require Import Routing.
From S2P Require Import RegistryOps.
From S2P Require Import Dispatcher.
From S2P Require Import Subscriber.
From S2P Require Import ReplyDispatcher.
From S2P Require Import Publisher.
From S2P Require Import Client.
From S2P Require Import Typing.
From S2P Require Import Upkeep.

Local Open Scope broker_scope.

(** ** Definitions *)

(** What an object was made for: an address, as a group with its slot and its channel of requests,
    the answer to a request, or the endpoints of an address. *)
Inductive label :=
| For (a : bytes)
| Group (a : bytes) (slot : slot_id) (req : req_id)
| Reply (id : bytes)
| Cached (a : bytes).

Abbreviation labels := (gmap nat label).

#[export] Instance labels_knowledge : Knowledge labels := {| le := (⊆) |}.

(** A message is meant for the subscriptions that cover its address; one whose address has a [*]
    of its own may reach any pattern. *)
Definition meant_for (a : bytes) (m : Message) : Prop :=
  exists x, from_utf8 (Protocol.address m) = Ok x /\ (concrete x \/ concrete a -> covers a x).

Definition suits (l : label) (m : Message) : Prop :=
  match l with
  | For a => meant_for a m
  | Reply id => message_id (header m) = id
  | _ => False
  end.

Section Isolated.
Context {D : Deps}.
Implicit Types (w : World) (φ : labels).

Definition target_for φ (a : bytes) (t : RouteTarget) : Prop :=
  match t with
  | Single slot => φ !! slot = Some (For a)
  | LoadBalancedTarget group => exists slot req, φ !! group = Some (Group a slot req)
  end.

(** A target to which messages for the address [x] may be sent. *)
Definition reaches φ (x : bytes) (t : RouteTarget) : Prop :=
  exists a, target_for φ a t /\ (concrete x \/ concrete a -> covers a x).

Definition chan_for (a : bytes) (c : Chan Message) : Prop :=
  mpsc_ok (mpsc_look c) /\ Forall (meant_for a) (queue (mpsc_look c)).

Definition req_for φ (a : bytes) (c : Chan oneshot_id) : Prop :=
  mpsc_ok (mpsc_look c) /\ Forall (fun tx => φ !! tx = Some (For a)) (queue (mpsc_look c)).

Definition oneshot_for (l : label) (o : One Message) : Prop :=
  forall m, value (oneshot_look o) = Some m -> suits l m.

Definition slot_for φ (a : bytes) (s : SubscriptionSlot) : Prop :=
  forall tx, sender s = Some tx -> φ !! tx = Some (For a).

Definition cache_for φ (x : bytes) (l : rwlock (option InMemoryEndpoint)) : Prop :=
  forall ep, rw_value l = Some ep -> reaches φ x (target ep).

Definition subscriber_for φ (a : bytes) (s : Subscriber) : Prop :=
  match mode s with
  | Push rx => φ !! rx = Some (For a)
  | Pull req _ => φ !! req = Some (For a)
  end.

Definition env_for φ (a : bytes) (env : dispatcher_env) : Prop :=
  φ !! main_receiver env = Some (For a) /\ φ !! req_rx env = Some (For a).

Definition at_for φ (a : bytes) (at_ : dispatcher_at) : Prop :=
  match at_ with
  | WaitMessage reply_tx => φ !! reply_tx = Some (For a)
  | Deliver reply_tx m => φ !! reply_tx = Some (For a) /\ meant_for a m
  | WaitNext m => meant_for a m
  | _ => True
  end.

Definition task_for φ (t : task_state) : Prop :=
  match t with
  | DispatcherTask env at_ => exists a, env_for φ a env /\ at_for φ a at_
  | ListenerTask s _ => exists a, subscriber_for φ a s
  end.

Definition waiters_for φ (m : gmap bytes oneshot_id) : Prop :=
  map_Forall (fun id tx => φ !! tx = Some (Reply id)) m.

Definition routes_for φ (i : RegistryInner Tree) : Prop :=
  inner_wf i /\ forall a t, route i a t -> target_for φ a t.

(** The entries of a store are as their labels say. *)
Definition addressed {X} φ (ok : bytes -> X -> Prop) (m : gmap nat X) : Prop :=
  map_Forall (fun k x => exists a, φ !! k = Some (For a) /\ ok a x) m.

Record isolated φ w : Prop := {
  is_fresh k : is_Some (φ !! k) -> (k < next_id w)%nat;
  is_chans : addressed φ chan_for (chans w);
  is_reqs : addressed φ (req_for φ) (reqs w);
  is_slots : addressed φ (slot_for φ) (slots w);
  is_oneshots : map_Forall (fun k o => exists l, φ !! k = Some l /\ oneshot_for l o) (oneshots w);
  is_caches : map_Forall (fun k l => exists x, φ !! k = Some (Cached x) /\ cache_for φ x l) (caches w);
  is_groups k a slot req : φ !! k = Some (Group a slot req) ->
    φ !! slot = Some (For a) /\ φ !! req = Some (For a) /\
    exists g, groups w !! k = Some g /\ group_slot g = slot /\ req_tx g = req;
  is_tasks : map_Forall (fun _ t => task_for φ (state t)) (tasks w);
  is_waiters : map_Forall (fun _ => waiters_for φ) (waiter_maps w);
  is_routes : routes_for φ (inner w);
  is_sane : poisoned (register_mutex w) = false;
}.

(** ** More labels *)

Section Mono.
Context (φ φ' : labels) (Hle : le φ φ').

Lemma label_mono k l : φ !! k = Some l -> φ' !! k = Some l.
Proof. intros Hk. exact (lookup_weaken _ _ _ _ Hk Hle). Qed.

Lemma target_for_mono a t : target_for φ a t -> target_for φ' a t.
Proof.
  destruct t; simpl; [apply label_mono|]. intros (s & r & ?). exists s, r.
  by apply label_mono.
Qed.

Lemma reaches_mono x t : reaches φ x t -> reaches φ' x t.
Proof. intros (a & ? & ?). exists a. split; [by apply target_for_mono|done]. Qed.

Lemma req_for_mono a c : req_for φ a c -> req_for φ' a c.
Proof.
  intros [? Hq]. split; [done|]. eapply list.Forall_impl; [exact Hq|]. intros tx. apply label_mono.
Qed.

Lemma slot_for_mono a s : slot_for φ a s -> slot_for φ' a s.
Proof. intros Hs tx ?. by apply label_mono, Hs. Qed.

Lemma cache_for_mono x l : cache_for φ x l -> cache_for φ' x l.
Proof. intros Hl ep ?. by apply reaches_mono, Hl. Qed.

Lemma subscriber_for_mono a s : subscriber_for φ a s -> subscriber_for φ' a s.
Proof. unfold subscriber_for. destruct (mode s); apply label_mono. Qed.

Lemma at_for_mono a at_ : at_for φ a at_ -> at_for φ' a at_.
Proof.
  destruct at_; simpl; try done; [apply label_mono|]. intros [? ?].
  split; [by apply label_mono|done].
Qed.

Lemma task_for_mono t : task_for φ t -> task_for φ' t.
Proof.
  destruct t as [env at_|s k]; simpl.
  - intros (a & [? ?] & ?). exists a. split; [by split; apply label_mono|by apply at_for_mono].
  - intros (a & ?). exists a. by apply subscriber_for_mono.
Qed.

Lemma waiters_for_mono m : waiters_for φ m -> waiters_for φ' m.
Proof. intros Hm. eapply map_Forall_impl; [exact Hm|]. intros id tx. apply label_mono. Qed.

Lemma routes_for_mono i : routes_for φ i -> routes_for φ' i.
Proof. intros [? Hr]. split; [done|]. intros a t ?. by apply target_for_mono, Hr. Qed.

Lemma addressed_mono {X} (ok ok' : bytes -> X -> Prop) m :
  (forall a x, ok a x -> ok' a x) -> addressed φ ok m -> addressed φ' ok' m.
Proof.
  intros Hok Hm. eapply map_Forall_impl; [exact Hm|]. intros k x (a & ? & ?). exists a.
  split; [by apply label_mono|by apply Hok].
Qed.
End Mono.

(** ** Updates of one store *)

(** One step that keeps the state isolated by the labels there are. *)
Abbreviation safe := (harmless isolated).

Ltac put_store := intros []; intros; split; try done; simpl; by apply map_Forall_insert_2; eauto.

Section Put.
Context (φ : labels) (w : World).

Lemma put_chan k a c :
  isolated φ w -> φ !! k = Some (For a) -> chan_for a c ->
    isolated φ (set_chans (<[k := c]> (chans w)) w).
Proof. put_store. Qed.

Lemma put_req k a c :
  isolated φ w -> φ !! k = Some (For a) -> req_for φ a c ->
    isolated φ (set_reqs (<[k := c]> (reqs w)) w).
Proof. put_store. Qed.

Lemma put_slot k a s :
  isolated φ w -> φ !! k = Some (For a) -> slot_for φ a s ->
  isolated φ (set_slots (<[k := s]> (slots w)) w).
Proof. put_store. Qed.

Lemma put_oneshot k l o :
  isolated φ w -> φ !! k = Some l -> oneshot_for l o ->
  isolated φ (set_oneshots (<[k := o]> (oneshots w)) w).
Proof. put_store. Qed.

Lemma put_cache k x l :
  isolated φ w -> φ !! k = Some (Cached x) -> cache_for φ x l ->
  isolated φ (set_caches (<[k := l]> (caches w)) w).
Proof. put_store. Qed.

Lemma put_task k t :
  isolated φ w -> task_for φ (state t) -> isolated φ (set_tasks (<[k := t]> (tasks w)) w).
Proof. put_store. Qed.

Lemma put_waiters k m :
  isolated φ w -> waiters_for φ m -> isolated φ (set_waiter_maps (<[k := m]> (waiter_maps w)) w).
Proof. put_store. Qed.

(** A labelled group keeps its slot and its channel of requests. *)
Lemma put_group k g :
  isolated φ w ->
  (forall g', is_Some (φ !! k) -> groups w !! k = Some g' ->
     group_slot g = group_slot g' /\ req_tx g = req_tx g') ->
  isolated φ (set_groups (<[k := g]> (groups w)) w).
Proof.
  intros [] Hg. split; try done. simpl. intros k' a slot req Hk.
  destruct (is_groups0 k' a slot req Hk) as (? & ? & g' & Hg' & <- & <-). split_and!; [done..|].
  destruct (decide (k' = k)) as [->|].
  - exists g. rewrite lookup_insert_eq. by destruct (Hg g' (mk_is_Some _ _ Hk) Hg') as [-> ->].
  - exists g'. by rewrite lookup_insert_ne.
Qed.

Lemma delete_task k : isolated φ w -> isolated φ (set_tasks (delete k (tasks w)) w).
Proof. intros []. split; try done. simpl. by apply map_Forall_delete. Qed.

Lemma isolated_now n : isolated φ w -> isolated φ (set_now n w).
Proof. by intros []. Qed.

Lemma isolated_bump : isolated φ w -> isolated φ (bump_id w).
Proof. intros []. split; try done. simpl. intros k Hk%is_fresh0. lia. Qed.

Lemma isolated_mutex m : isolated φ w -> poisoned m = false -> isolated φ (set_mutex m w).
Proof. by intros []. Qed.

Lemma isolated_inner i : isolated φ w -> routes_for φ i -> isolated φ (set_inner i w).
Proof. by intros []. Qed.

(** The next key gets a label. *)
Lemma isolated_label l :
  isolated φ w ->
  (forall a slot req, l = Group a slot req -> φ !! slot = Some (For a) /\ φ !! req = Some (For a) /\
     exists g, groups w !! next_id w = Some g /\ group_slot g = slot /\ req_tx g = req) ->
  le φ (<[next_id w := l]> φ) /\ isolated (<[next_id w := l]> φ) (bump_id w).
Proof.
  intros [] Hl. assert (φ !! next_id w = None) as Hn.
  { apply eq_None_not_Some. intros Hs%is_fresh0. lia. }
  assert (le φ (<[next_id w := l]> φ)) as Hle by by apply insert_subseteq.
  split; [exact Hle|]. split; simpl; try done.
  - intros k [<-|[_ Hk%is_fresh0]]%lookup_insert_is_Some; lia.
  - by eapply addressed_mono.
  - eapply addressed_mono; [exact Hle| |done]. intros a c. by apply req_for_mono.
  - eapply addressed_mono; [exact Hle| |done]. intros a c. by apply slot_for_mono.
  - eapply map_Forall_impl; [done|]. intros k o (l' & ? & ?). exists l'.
    split; [by eapply label_mono|done].
  - eapply map_Forall_impl; [done|]. intros k c (x & ? & ?). exists x.
    split; [by eapply label_mono|by eapply cache_for_mono].
  - intros k a slot req [[<- ->]|[Hk Hg]]%lookup_insert_Some.
    + destruct (Hl a slot req eq_refl) as (? & ? & ?). split_and!; [by eapply label_mono..|done].
    + destruct (is_groups0 k a slot req Hg) as (? & ? & ?). split_and!; [by eapply label_mono..|done].
  - eapply map_Forall_impl; [done|]. intros k t. by apply task_for_mono.
  - eapply map_Forall_impl; [done|]. intros k m. by apply waiters_for_mono.
  - by eapply routes_for_mono.
Qed.
End Put.

(** The object under a key changes. *)

Lemma isolated_on_chan f k w : (forall a c, chan_for a c -> chan_for a (f c)) -> safe w (on_chan f k w).
Proof.
  intros Hf φ Hw. unfold on_chan. rewrite alter_put.
  destruct (chans w !! k) as [c|] eqn:E; [|by destruct w].
  destruct (is_chans φ w Hw k c E) as (a & ? & ?). eapply put_chan; eauto.
Qed.

Lemma isolated_on_req f k w :
  (forall φ a c, req_for φ a c -> req_for φ a (f c)) -> safe w (on_req f k w).
Proof.
  intros Hf φ Hw. unfold on_req. rewrite alter_put.
  destruct (reqs w !! k) as [c|] eqn:E; [|by destruct w].
  destruct (is_reqs φ w Hw k c E) as (a & ? & ?). eapply put_req; eauto.
Qed.

Lemma isolated_on_slot f k w :
  (forall s tx, sender (f s) = Some tx -> sender s = Some tx) -> safe w (on_slot f k w).
Proof.
  intros Hf φ Hw. unfold on_slot. rewrite alter_put.
  destruct (slots w !! k) as [s|] eqn:E; [|by destruct w].
  destruct (is_slots φ w Hw k s E) as (a & ? & Hs). eapply put_slot; [done..|].
  intros tx ?. by apply Hs, Hf.
Qed.

Lemma isolated_on_group f k w :
  (forall g, group_slot (f g) = group_slot g /\ req_tx (f g) = req_tx g) -> safe w (on_group f k w).
Proof.
  intros Hf φ Hw. unfold on_group. rewrite alter_put.
  destruct (groups w !! k) as [g|] eqn:E; [|by destruct w].
  apply put_group; [done|]. intros g' _. rewrite E. intros [= <-]. apply Hf.
Qed.

Lemma isolated_on_oneshot f k w :
  (forall o m, value (oneshot_look (f o)) = Some m -> value (oneshot_look o) = Some m) ->
  safe w (on_oneshot f k w).
Proof.
  intros Hf φ Hw. unfold on_oneshot. rewrite alter_put.
  destruct (oneshots w !! k) as [o|] eqn:E; [|by destruct w].
  destruct (is_oneshots φ w Hw k o E) as (l & ? & Ho). eapply put_oneshot; [done..|].
  intros m ?. by apply Ho, Hf.
Qed.

Lemma isolated_on_waiters f k w :
  (forall φ m, waiters_for φ m -> waiters_for φ (f m)) -> safe w (on_waiters f k w).
Proof.
  intros Hf φ Hw. unfold on_waiters. rewrite alter_put.
  destruct (waiter_maps w !! k) as [m|] eqn:E; [|by destruct w]. apply put_waiters; [done|].
  by apply Hf, (is_waiters φ w Hw k).
Qed.

Lemma isolated_alter_task f k w :
  (forall t, state (f t) = state t) -> safe w (set_tasks (alter f k (tasks w)) w).
Proof.
  intros Hf φ Hw. rewrite alter_put. destruct (tasks w !! k) as [t|] eqn:E; [|by destruct w].
  apply put_task; [done|]. rewrite Hf. by apply (is_tasks φ w Hw k).
Qed.
End Isolated.

(** ** Routes *)

Section Routes.
Context {D : Deps}.
Implicit Types (φ : labels) (i : RegistryInner Tree).

(** What a check finds registered is a route. *)
Lemma check_duplicate i a t : inner_wf i -> check_address i a = Ok (Duplicate t) -> route i a t.
Proof.
  intros Hi. unfold check_address. destruct (is_wildcard a) eqn:Hw.
  - destruct (validate_wildcard_pattern a) as [u|] eqn:Hv; [|done]. intros [= E].
    pose proof (get_wildcard_spec i a Hi Hw) as Hs. rewrite E in Hs. apply Hs.
    apply validate_pattern_spec. by destruct u.
  - intros [= E]. pose proof (get_exact_spec i a Hi Hw) as Hs. by rewrite E in Hs.
Qed.

Lemma lookup_route i x t :
  inner_wf i -> lookup_inner i x = Some t ->
  exists a, route i a t /\ (concrete x \/ concrete a -> covers a x).
Proof.
  intros Hi E. destruct (decide (concrete x)) as [Hx|Hx].
  - apply lookup_inner_some in E as (a & ? & ?); [|done..]. exists a. split; [by left|done].
  - assert (forall a, route i a t -> ~ concrete a ->
      exists a, route i a t /\ (concrete x \/ concrete a -> covers a x)) as Hw.
    { intros a ? ?. exists a. split; [done|tauto]. }
    unfold lookup_inner in E. rewrite rx_get_spec in E.
    destruct (rx_entries (exact_tree i) !! x) as [u|] eqn:Ex.
    + destruct Hx. by apply (wf_exact i Hi x).
    + pose proof (rx_get_ancestor_spec (prefix_wildcard_tree i) x) as Ha.
      destruct (rx_get_ancestor _ x) as [u|].
      * injection E as <-. destruct Ha as (a & _ & Ha & _). apply (Hw a); [by right|].
        apply (prefix_is_wildcard i a u Hi) in Ha as [Ha _]. unfold concrete. congruence.
      * apply fmap_Some in E as ([n [a u]] & (Hn%list_elem_of_lookup_2 & _)%list_find_Some & ->).
        apply (Hw a); [by left; right|]. apply (wf_single i Hi) in Hn as [Hn _].
        unfold concrete. congruence.
Qed.

Lemma routes_for_lookup φ i x t : routes_for φ i -> lookup_inner i x = Some t -> reaches φ x t.
Proof.
  intros [Hi Hr] E. apply lookup_route in E as (a & ? & ?); [|done]. exists a.
  split; [by apply Hr|done].
Qed.

Lemma routes_for_duplicate φ i a t :
  routes_for φ i -> check_address i a = Ok (Duplicate t) -> target_for φ a t.
Proof. intros [Hi Hr] E. by apply Hr, check_duplicate. Qed.

Lemma routes_for_insert φ i a t :
  routes_for φ i -> check_address i a = Ok NotFound -> target_for φ a t ->
  routes_for φ (insert_route i a t).
Proof.
  intros [Hi Hr] E Ht. split; [by apply insert_wf|]. intros b u.
  rewrite insert_route_routes by done. intros [[-> ->]|?]; [done|by apply Hr].
Qed.

Lemma routes_for_remove φ i a : routes_for φ i -> routes_for φ (remove_route i a).
Proof.
  intros [Hi Hr]. split; [by apply remove_wf|]. intros b u. rewrite remove_route_routes by done.
  intros [_ ?]. by apply Hr.
Qed.
End Routes.

(** ** Instances *)

Section Instances.
Context {D : Deps}.
Implicit Types (w : World) (φ : labels).

#[export] Instance isolated_upkeep : Upkeep isolated.
Proof.
  split.
  - intros n w φ. apply isolated_now.
  - intros k w. apply isolated_on_chan. intros a c. apply (clone_sender_ok (fun _ => meant_for a) w).
  - intros k w. apply isolated_on_chan. intros a c. apply (drop_sender_ok (fun _ => meant_for a) w).
  - intros k w. apply isolated_on_chan. intros a c. apply (drop_receiver_ok (fun _ => meant_for a) w).
  - intros k w. apply isolated_on_req. intros φ a c.
    apply (drop_sender_ok (fun _ tx => φ !! tx = Some (For a)) w).
  - intros k w. apply isolated_on_req. intros φ a c.
    apply (drop_receiver_ok (fun _ tx => φ !! tx = Some (For a)) w).
  - intros k w. apply isolated_on_oneshot. intros o m. by rewrite oneshot_drop_sender_spec.
  - intros k w. apply isolated_on_oneshot. intros o m. by rewrite oneshot_drop_receiver_spec.
  - intros. by apply isolated_on_slot.
  - intros. by apply isolated_on_group.
  - intros. by apply isolated_alter_task.
  - intros k w φ. apply delete_task.
  - intros id k w. apply isolated_on_waiters. intros φ m Hm. by apply map_Forall_delete.
  - intros k w. by apply isolated_on_waiters.
Qed.

(** A one-value channel takes only what suits its label. *)
Lemma isolated_reply_send φ k l m w :
  isolated φ w -> φ !! k = Some l -> suits l m -> isolated φ (reply_send k m w).1.
Proof.
  intros Hw Hk Hm. unfold reply_send. destruct (oneshots w !! k) as [o|] eqn:E; [|done].
  destruct (is_oneshots φ w Hw k o E) as (l' & Hk' & Ho). simplify_eq.
  pose proof (oneshot_send_spec m o) as Hs. destruct (oneshot_send m o) as [r o'].
  apply put_oneshot with l; [done..|]. intros m' Hv. unfold on_snd, view_oneshot_send in Hs.
  simpl in Hs. destruct (receiver_alive _); injection Hs as _ Hs; rewrite Hs in Hv; simpl in Hv;
    [by simplify_eq|by apply Ho].
Qed.

Lemma isolated_reply_recv φ k w w' r :
  isolated φ w -> reply_recv k w = Some (w', r) ->
  isolated φ w' /\ forall l m, φ !! k = Some l -> r = Ok m -> suits l m.
Proof.
  intros Hw E. unfold reply_recv in E. destruct (oneshots w !! k) as [o|] eqn:Eo; [|done].
  simpl in E. destruct (oneshot_recv o) as [[x o']|] eqn:Er; [|done]. injection E as <- <-.
  destruct (is_oneshots φ w Hw k o Eo) as (l & Hk & Ho). pose proof (oneshot_recv_spec o) as Hs.
  rewrite Er in Hs. simpl in Hs. unfold on_snd, view_oneshot_recv in Hs. simpl in Hs.
  destruct (value (oneshot_look o)) as [m|] eqn:Ev.
  - injection Hs as -> Hs. split; [|intros ?? Hl [= <-]; simplify_eq; by apply Ho].
    apply put_oneshot with l; [done..|]. intros m'. by rewrite Hs.
  - destruct (sender_alive _); [done|]. injection Hs as -> Hs. split; [|done].
    apply put_oneshot with l; [done..|]. intros m'. by rewrite Hs, Ev.
Qed.

Lemma waiter_map_for φ w k : isolated φ w -> waiters_for φ (waiter_map k w).
Proof.
  intros Hw. unfold waiter_map. destruct (waiter_maps w !! k) as [m|] eqn:E; [|done].
  by apply (is_waiters φ w Hw k).
Qed.

Lemma isolated_deliver_reply k m w : harmless isolated w (deliver_reply k m w).
Proof.
  intros φ Hw. unfold deliver_reply. cbv zeta.
  pose proof (up_delete_waiter (message_id (header m)) k w φ Hw).
  destruct (waiter_map k w !! _) as [tx|] eqn:E; [|done].
  apply (waiter_map_for φ w k Hw) in E. by eapply isolated_reply_send.
Qed.

(** A new one-value channel gets its label. *)
Lemma isolated_new_oneshot φ l w :
  isolated φ w -> (forall a slot req, l <> Group a slot req) ->
  le φ (<[next_id w := l]> φ) /\
  isolated (<[next_id w := l]> φ)
    (bump_id (set_oneshots (<[next_id w := oneshot_channel]> (oneshots w)) w)).
Proof.
  intros Hw Hl. destruct (isolated_label φ w l Hw) as [Hle Hi]; [by intros ??? []%Hl|].
  split; [done|]. apply (put_oneshot _ _ (next_id w) l oneshot_channel Hi).
  - apply lookup_insert_eq.
  - intros m. by rewrite oneshot_channel_spec.
Qed.

#[export] Program Instance isolated_replies : Replies isolated := {
  awaits φ id tx := φ !! tx = Some (Reply id);
}.
Next Obligation. intros φ φ' id tx Hle. by apply label_mono. Qed.
Next Obligation.
  intros id φ w Hw. exists (<[next_id w := Reply id]> φ).
  destruct (isolated_new_oneshot φ (Reply id) w Hw); [done|]. split_and!; [done| |done].
  apply lookup_insert_eq.
Qed.
Next Obligation.
  intros φ id tx m w Hw Htx. unfold on_waiters. rewrite alter_put.
  destruct (waiter_maps w !! m) as [es|] eqn:Em; [|by destruct w].
  apply put_waiters; [done|]. apply map_Forall_insert_2; [done|]. by apply (is_waiters φ w Hw m).
Qed.
Next Obligation. apply isolated_deliver_reply. Qed.
Next Obligation.
  intros φ tx w w' r Hw E. destruct (isolated_reply_recv φ tx w w' r Hw E) as [? Hr].
  split; [done|]. intros id m Htx ->. by apply (Hr (Reply id) m).
Qed.

(** The registry's mutex is never poisoned. *)
#[export] Program Instance isolated_locking : Locking isolated False := { in_order := routes_for }.
Next Obligation. intros φ φ' i Hle. by apply routes_for_mono. Qed.
Next Obligation. intros m w Hm φ Hw. apply isolated_mutex; [done|].
  by destruct (poisoned m); [destruct Hm|]. Qed.
Next Obligation. intros φ w Hw Hp. by rewrite (is_sane φ w Hw) in Hp. Qed.
Next Obligation. intros φ w. apply is_routes. Qed.
Next Obligation. intros φ i w Hi Hw. by apply isolated_inner. Qed.
Next Obligation. intros φ i a. apply routes_for_remove. Qed.
End Instances.
