(* ===== verification/IsolationOps.v ===== *)
(** * IsolationOps: every operation stays within its address

    Each operation of the broker keeps the state isolated in the sense of Isolation.v and does not
    panic, if it is called with objects of one address and a capacity in range; what it makes is
    labelled with that address, and what it receives is meant for it. *)

From S2P Require Import Prelude.
From S2P Require Import Utf8.
From S2P Require Import Protocol.
From S2P Require Import RadixIface.
From S2P Require Import ChanIface.
From S2P Require Import Async.
From S2P Require Import Preserve.
From S2P Require Import Registry.
From S2P Require Import World.
From S2P Require Import Channel.
From S2P Require Import Routing.
From S2P Require Import RegistryOps.
From S2P Require Import Dispatcher.
From S2P Require Import Subscriber.
From S2P Require Import Transport.
From S2P Require Import ReplyDispatcher.
From S2P Require Import Publisher.
From S2P Require Import Client.
From S2P Require Import Runtime.
From S2P Require Import Config.
From S2P Require Import Patterns.
From S2P Require Import RegistryFacts.
From S2P Require Import RegistryProps.
From S2P Require Import Quiet.
From S2P Require Import Typing.
From S2P Require Import TypedOps.
From S2P Require Import LifecycleProps.
From S2P Require Import DispatcherProps.
From S2P Require Import Upkeep.
From S2P Require Import Isolation.

Local Open Scope broker_scope.

(** A computation that keeps the state isolated and does not panic. *)
Abbreviation apart Q p φ := (knows isolated False Q p φ).
Abbreviation stays_apart p := (steady isolated False p).

(** What a computation made is labelled [l]. *)
Definition made (l : label) (k : nat) (φ : labels) : Prop := φ !! k = Some l.

(** What was received is meant for [a]. *)
Definition received {K} (a : bytes) (r : option Message) (_ : K) : Prop :=
  forall m, r = Some m -> meant_for a m.

(** What is known grows from step to step. *)
Ltac later := repeat first [eassumption | etrans; [eassumption|]].

(** ** Making objects *)

Section Making.
Context {D : Deps}.
Implicit Types (w : World) (φ : labels).

(** A new object is stored under a key that gets its label. *)
Lemma learns_new l put φ :
  (forall a slot req, l <> Group a slot req) -> (forall k w, bump_id (put k w) = put k (bump_id w)) ->
  (forall φ' k w, le φ φ' -> isolated φ' w -> φ' !! k = Some l -> isolated φ' (put k w)) ->
  learns isolated (made l) φ (fun w => Some (bump_id (put (next_id w) w), next_id w)).
Proof.
  intros Hl Hb Hp φ1 w w' k H1 Hw [= <- <-]. exists (<[next_id w := l]> φ1).
  destruct (isolated_label φ1 w l Hw) as [Hle Hi]; [by intros ??? []%Hl|].
  split_and!; [done| |apply lookup_insert_eq]. rewrite Hb. apply Hp; [by etrans|done|].
  apply lookup_insert_eq.
Qed.

Lemma apart_new l put φ :
  (forall a slot req, l <> Group a slot req) -> (forall k w, bump_id (put k w) = put k (bump_id w)) ->
  (forall φ' k w, le φ φ' -> isolated φ' w -> φ' !! k = Some l -> isolated φ' (put k w)) ->
  apart (made l) (alloc put) φ.
Proof. intros. by apply knows_act, (learns_new l put). Qed.

Lemma apart_alloc put φ :
  (forall φ' k w, le φ φ' -> isolated φ' w -> isolated φ' (put k w)) -> apart any (alloc put) φ.
Proof.
  intros Hp. apply knows_act. intros φ1 w w' k H1 Hw [= <- <-]. exists φ1. split_and!; [done| |done].
  by apply isolated_bump, Hp.
Qed.

Lemma apart_new_slot a s φ : slot_for φ a s -> apart (made (For a)) (new_slot s) φ.
Proof.
  intros Hs. apply apart_new; [done..|]. intros φ1 k w H1 Hw Hk.
  apply put_slot with a; [done..|]. by eapply slot_for_mono.
Qed.

Lemma apart_new_oneshot a φ : apart (made (For a)) new_oneshot φ.
Proof.
  apply apart_new; [done..|]. intros φ1 k w H1 Hw Hk.
  apply put_oneshot with (For a); [done..|]. intros m. by rewrite oneshot_channel_spec.
Qed.

Lemma apart_create_channel n a φ :
  valid_capacity n -> apart (made (For a)) (create_channel n) φ.
Proof.
  intros Hn. destruct (channel_some (M := Message) n Hn) as (c & Hc & Hv).
  apply knows_act_or_panic; [intros w; by rewrite Hc|intros φ1 w w' k; rewrite Hc].
  revert φ1 w w' k. apply (learns_new (For a) (fun k => put_channel k c)); [done..|].
  intros φ2 k w _ Hw Hk.
  apply put_chan with a; [done..|]. by apply (channel_new_ok (fun _ => meant_for a) w n).
Qed.

Lemma apart_create_request_channel n a φ :
  valid_capacity n -> apart (made (For a)) (create_request_channel n) φ.
Proof.
  intros Hn. destruct (channel_some (M := oneshot_id) n Hn) as (c & Hc & Hv).
  apply knows_act_or_panic; [intros w; by rewrite Hc|intros φ1 w w' k; rewrite Hc].
  revert φ1 w w' k. apply (learns_new (For a) (fun k => put_channel k c)); [done..|].
  intros φ2 k w _ Hw Hk.
  apply put_req with a; [done..|].
  by apply (channel_new_ok (fun _ tx => φ2 !! tx = Some (For a)) w n).
Qed.

Lemma apart_new_group a slot req x φ :
  made (For a) slot φ -> made (For a) req φ -> group_slot x = slot -> req_tx x = req ->
  apart (made (Group a slot req)) (new_group x) φ.
Proof.
  intros Hs Hr Es Er. apply knows_act. intros φ1 w w' k H1 Hw [= <- <-].
  exists (<[next_id w := Group a slot req]> φ1). set (w1 := set_groups _ w).
  destruct (isolated_label φ1 w1 (Group a slot req)) as [Hle Hi].
  - apply put_group; [done|]. intros g' Hk%(is_fresh φ1 w Hw). lia.
  - intros ??? [= <- <- <-]. split_and!; [by eapply label_mono..|]. exists x.
    split; [apply lookup_insert_eq|done].
  - split_and!; [done..|]. apply lookup_insert_eq.
Qed.

Lemma stays_new_waiter_map : stays_apart new_waiter_map.
Proof. intros φ. apply apart_alloc. intros φ1 k w _ Hw. by apply put_waiters. Qed.

Lemma apart_spawn t φ : task_for φ t -> apart any (spawn t) φ.
Proof.
  intros Ht. apply apart_alloc. intros φ1 k w H1 Hw. apply put_task; [done|].
  by eapply task_for_mono.
Qed.
End Making.

(** ** Messages *)

Section Messages.
Context {D : Deps}.
Implicit Types (w : World) (φ : labels) (slot : slot_id).

(** An operation on a channel of messages, and on one of requests. *)
Lemma learns_message {A} (Q : A -> Prop) k a f φ :
  made (For a) k φ ->
  (forall w c r c', chan_for a c -> f c = Some (r, c') -> chan_for a c' /\ Q r) ->
  learns isolated (fun r _ => Q r) φ (poll_channel (M := Message) k f).
Proof.
  intros Hk Hf φ1 w w' r H1 Hw E. exists φ1. apply (label_mono _ _ H1) in Hk. unfold poll_channel in E.
  destruct (get_channels w !! k) as [c|] eqn:Ec; [|done]. simpl in E.
  destruct (f c) as [[x c']|] eqn:Es; [|done]. injection E as <- <-.
  destruct (is_chans φ1 w Hw k c Ec) as (b & Hb & Hc). simplify_eq.
  destruct (Hf w c x c' Hc Es). split_and!; [done| |done]. by apply put_chan with a.
Qed.

Lemma learns_token {A} (Q : A -> labels -> Prop) k a f φ :
  made (For a) k φ ->
  (forall w φ' c r c', le φ φ' -> req_for φ' a c -> f c = Some (r, c') -> req_for φ' a c' /\ Q r φ') ->
  learns isolated Q φ (poll_channel (M := oneshot_id) k f).
Proof.
  intros Hk Hf φ1 w w' r H1 Hw E. exists φ1. apply (label_mono _ _ H1) in Hk. unfold poll_channel in E.
  destruct (get_channels w !! k) as [c|] eqn:Ec; [|done]. simpl in E.
  destruct (f c) as [[x c']|] eqn:Es; [|done]. injection E as <- <-.
  destruct (is_reqs φ1 w Hw k c Ec) as (b & Hb & Hc). simplify_eq.
  destruct (Hf w φ1 c x c' H1 Hc Es). split_and!; [done| |done]. by apply put_req with a.
Qed.

Lemma apart_send_message tx a m φ :
  made (For a) tx φ -> meant_for a m -> apart any (Sender_send tx m) φ.
Proof.
  intros Ht Hm. apply knows_await, (learns_message (fun _ => True) tx a); [done|].
  intros w c r c' Hc E. destruct (mpsc_send m c) as [[x c1]|] eqn:Es; [|done]. injection E as _ <-.
  split; [|done]. by eapply (send_ok (fun _ => meant_for a) w).
Qed.

Lemma apart_send_token req a tx φ :
  made (For a) req φ -> made (For a) tx φ -> apart any (Sender_send req tx) φ.
Proof.
  intros Hr Ht. apply knows_await, (learns_token any req a); [done|].
  intros w φ' c r c' H1 Hc E. destruct (mpsc_send tx c) as [[x c1]|] eqn:Es; [|done].
  injection E as _ <-. apply (label_mono _ _ H1) in Ht. split; [|done].
  by eapply (send_ok (fun _ tx => φ' !! tx = Some (For a)) w).
Qed.

Lemma apart_recv_message rx a φ :
  made (For a) rx φ -> apart (received a) (Receiver_recv (M := Message) rx) φ.
Proof.
  intros Hr. apply knows_await, (learns_message (fun r => forall m, r = Some m -> meant_for a m) rx a);
    [done|]. intros w c r c' Hc E. by eapply (recv_ok (fun _ => meant_for a) w).
Qed.

Lemma apart_recv_token req a φ :
  made (For a) req φ ->
  apart (fun r φ' => forall tx, r = Some tx -> made (For a) tx φ')
    (Receiver_recv (M := oneshot_id) req) φ.
Proof.
  intros Hr. apply knows_await, (learns_token _ req a); [done|]. intros w φ' c r c' _ Hc E.
  by eapply (recv_ok (fun _ tx => φ' !! tx = Some (For a)) w).
Qed.

Lemma apart_try_recv_message rx a φ :
  made (For a) rx φ ->
  apart (fun r _ => forall m, r = Ok m -> meant_for a m) (Receiver_try_recv (M := Message) rx) φ.
Proof.
  intros Hr. apply knows_block, (learns_message (fun r => forall m, r = Ok m -> meant_for a m) rx a);
    [done|]. intros w c r c' Hc E. pose proof (try_recv_ok (fun _ => meant_for a) w c Hc) as [Hc' Hm].
  destruct (mpsc_try_recv c) as [x c1]. injection E as <- <-. split; [done|].
  intros m Ex. apply Hm. destruct x; simpl in *; congruence.
Qed.

(** Both kinds of target send through a slot of their address. *)
Lemma apart_send_to_slot slot a m φ :
  made (For a) slot φ -> meant_for a m -> apart any (send_to_slot slot m) φ.
Proof.
  intros Hs Hm. unfold send_to_slot.
  apply (knows_bind _ _ (fun r φ' => forall tx, r = Some tx -> made (For a) tx φ')).
  - apply knows_act. intros φ1 w w' r H1 Hw [= E]. exists φ1. apply (label_mono _ _ H1) in Hs.
    pose proof (up_guard_sender isolated slot w φ1 Hw) as Hg. rewrite E in Hg. split_and!; [done..|].
    intros tx ->. unfold guard_sender, load_sender in E.
    destruct (slots w !! slot) as [s|] eqn:Es; [|done]. simpl in E.
    destruct (is_slots φ1 w Hw slot s Es) as (b & Hb & Ho). simplify_eq. apply Ho.
    destruct (sender s); by simplify_eq.
  - intros [tx|] φ1 H1 Hr; [|done]. apply (knows_bind _ _ any); [|intros r φ2 _ _; steadily].
    apply knows_owning; [intros; apply harmless_grows, up_drop_sender|].
    apply apart_send_message with a; [by apply Hr|done].
Qed.

Lemma apart_slot_of group a slot req φ :
  made (Group a slot req) group φ ->
    apart (fun r φ' => r = slot /\ made (For a) r φ') (read (slot_of group)) φ.
Proof.
  intros Hg. apply knows_act. intros φ1 w w' r H1 Hw [= <- <-]. exists φ1.
  apply (label_mono _ _ H1) in Hg. destruct (is_groups φ1 w Hw _ _ _ _ Hg) as (? & _ & g & Eg & <- & _).
  unfold slot_of. by rewrite Eg.
Qed.

Lemma apart_target_send t a m φ :
  target_for φ a t -> meant_for a m -> apart any (RouteTarget_send t m) φ.
Proof.
  intros Ht Hm. destruct t as [slot|group]; simpl in Ht; [by apply apart_send_to_slot with a|].
  destruct Ht as (slot & req & Hg). eapply knows_bind; [by eapply apart_slot_of|].
  intros s φ1 _ [_ Hs]. by apply apart_send_to_slot with a.
Qed.

(** A message may be sent to a target that was found for its address. *)
Lemma apart_reached_send t x m φ :
  reaches φ x t -> from_utf8 (Protocol.address m) = Ok x -> apart any (RouteTarget_send t m) φ.
Proof. intros (a & Ht & Hx) Hm. apply apart_target_send with a; [done|]. by exists x. Qed.

(** ** Receiving *)

Lemma apart_request req a φ :
  made (For a) req φ ->
  apart (fun r φ' => forall k, r = Ok k -> made (For a) k φ') (RequestSender_request req) φ.
Proof.
  intros Hr. unfold RequestSender_request. eapply knows_bind; [apply (apart_new_oneshot a)|].
  intros reply φ1 H1 Ho. apply (knows_bind _ _ any).
  - apply knows_owning; [|apply apart_send_token with a; [by eapply label_mono|done]].
    intros w. apply harmless_grows.
    etrans; [apply up_oneshot_drop_sender|apply up_oneshot_drop_receiver].
  - intros [u|e] φ2 H2 _; [|by apply knows_any_bind; [steadily|]].
    intros k [= <-]. by eapply label_mono.
Qed.

Lemma apart_reply_recv k a φ :
  made (For a) k φ -> apart (fun r _ => forall m, r = Ok m -> meant_for a m) (await (reply_recv k)) φ.
Proof.
  intros Hk. apply knows_await. intros φ1 w w' r H1 Hw E. exists φ1. apply (label_mono _ _ H1) in Hk.
  destruct (isolated_reply_recv φ1 k w w' r Hw E) as [? Hr]. split_and!; [done..|].
  intros m. by apply (Hr (For a)).
Qed.

(** A subscriber receives only messages meant for its address. *)
Lemma apart_subscriber_recv s a φ :
  subscriber_for φ a s -> apart (received a) (Subscriber_recv s) φ.
Proof.
  unfold subscriber_for, Subscriber_recv.
  destruct (mode s) as [rx|req g]; intros Hs; [by apply apart_recv_message|].
  eapply knows_bind; [by apply apart_request|]. intros [k|[tx]] φ1 H1 Hk.
  - eapply knows_bind; [apply knows_owning; [intros; apply harmless_grows, up_oneshot_drop_receiver|]|].
    + by apply apart_reply_recv, Hk.
    + intros [m|e] φ2 _ Hm; [|done]. intros m' [= <-]. by apply Hm.
  - by apply knows_any_bind; [steadily|].
Qed.

Lemma apart_subscriber_try_recv s a φ :
  subscriber_for φ a s ->
  apart (fun r _ => forall m, r = Ok m -> meant_for a m) (Subscriber_try_recv s) φ.
Proof.
  unfold subscriber_for, Subscriber_try_recv.
  destruct (mode s) as [rx|req g]; intros Hs; [by apply apart_try_recv_message|done].
Qed.
End Messages.

(** ** Registering and subscribing *)

Section Registering.
Context {D : Deps}.
Implicit Types (w : World) (φ : labels) (slot : slot_id).

Lemma apart_register a t φ : target_for φ a t -> apart any (register a t) φ.
Proof.
  intros Ht. apply (knows_with_lock isolated False); [done|]. intros φ1 H1.
  eapply knows_bind; [apply (knows_load isolated False)|].
  intros i φ2 H2 Hi. destruct (register_inner i a t) as [i'|e] eqn:E; [|done].
  apply check_address_of_register in E as [Hc ->]. apply (knows_bind _ _ any); [|done].
  apply (knows_store isolated False), routes_for_insert; [done..|].
  eapply target_for_mono, target_for_mono; eauto.
Qed.

(** The target a client joins is one for its address. *)
Definition joined φ a (r : result RegisterResult RegistryError) : Prop :=
  forall x, r = Ok x -> target_for φ a (match x with Registered t => t | AlreadyExists t => t end).

Lemma apart_join a factory φ :
  (forall φ', le φ φ' -> apart (fun r φ'' => forall t, r = Ok t -> target_for φ'' a t) factory φ') ->
  apart (fun r φ' => joined φ' a r) (get_existing_or_register a factory) φ.
Proof.
  intros Hf. apply (knows_with_lock isolated False).
  { intros r φ1 φ2 Hle Hr x ->. eapply target_for_mono; [exact Hle|]. by apply (Hr x). }
  intros φ1 H1. eapply knows_bind; [apply (knows_load isolated False)|]. intros i φ2 H2 Hi.
  destruct (check_address i a) as [[t|existing|]|e] eqn:E; [|done| |done].
  - intros x [= <-]. exact (routes_for_duplicate φ2 i a t Hi E).
  - eapply knows_bind; [apply Hf; by etrans|]. intros [t|e] φ3 H3 Ht; [|done].
    specialize (Ht t eq_refl). eapply (knows_bind _ _ any).
    + apply (knows_store isolated False), routes_for_insert; [by eapply routes_for_mono|done..].
    + intros _ φ4 H4 _ x [= <-]. by eapply target_for_mono.
Qed.

Lemma apart_slot_new tx a φ :
  made (For a) tx φ -> apart (made (For a)) (SubscriptionSlot_new tx) φ.
Proof. intros Ht. apply apart_new_slot. by intros tx' [= <-]. Qed.

Lemma apart_group_factory n a φ :
  valid_capacity n ->
  apart (fun r φ' => forall t, r = Ok t -> target_for φ' a t) (group_factory n a) φ.
Proof.
  intros Hn. unfold group_factory, new_load_balanced, LoadBalancedGroup_new.
  eapply knows_bind; [by apply (apart_create_channel n a)|]. intros ch φ1 _ Hch.
  eapply knows_bind; [by apply apart_slot_new|]. intros slot φ2 H2 Hs.
  apply (knows_bind _ _ (fun t φ' => target_for φ' a t)); [|by intros t φ3 _ Ht t' [= <-]].
  apply (knows_bind _ _ (fun g φ' => target_for φ' a (LoadBalancedTarget g))); [|done].
  eapply knows_bind; [apply (apart_create_request_channel _ a); by vm_compute|]. intros req φ3 H3 Hr.
  eapply knows_bind; [apply (apart_new_group a slot req); try done; by eapply label_mono|].
  intros g φ4 H4 Hg. apply (knows_bind _ _ any).
  - apply apart_spawn. exists a. split; [split; simpl|done].
    + eapply label_mono; [|exact Hch]. later.
    + by eapply label_mono.
  - intros h φ5 H5 _. apply knows_any_bind; [steadily|]. intros _ φ6 H6. exists slot, req.
    eapply label_mono; [|exact Hg]. by etrans.
Qed.

Lemma apart_register_exclusive n a φ :
  valid_capacity n ->
  apart (fun r φ' => forall slot ch, r = Ok (slot, ch) -> made (For a) ch φ')
    (register_exclusive n a) φ.
Proof.
  intros Hn. unfold register_exclusive.
  eapply knows_bind; [by apply (apart_create_channel n a)|]. intros ch φ1 _ Hch.
  eapply knows_bind; [by apply apart_slot_new|]. intros slot φ2 H2 Hs.
  apply (knows_bind _ _ any); [by apply apart_register|]. intros [u|e] φ3 H3 _.
  - intros slot' ch' [= _ <-]. eapply label_mono; [|exact Hch]. by etrans.
  - by apply knows_any_bind; [steadily|].
Qed.

Lemma apart_client b c a φ :
  valid_capacity (reply_channel_capacity c) -> apart any (Broker_client b c a) φ.
Proof.
  intros Hc. apply (knows_bind _ _ any); [|done]. unfold BrokerClient_new, ReplyDispatcher_new.
  eapply knows_bind; [by apply apart_register_exclusive|]. intros [[slot ch]|e] φ1 _ Hr; [|done].
  specialize (Hr slot ch eq_refl). apply (knows_bind _ _ any); [|done].
  apply knows_any_bind; [apply stays_new_waiter_map|]. intros k φ2 H2.
  apply (knows_bind _ _ any); [|done]. apply apart_spawn. exists a. by eapply label_mono.
Qed.

Lemma apart_group_subscribe g a slot req φ :
  made (Group a slot req) g φ -> apart (made (For a)) (LoadBalancedGroup_subscribe g) φ.
Proof.
  intros Hg. apply knows_any_bind; [apply steady_write; intros; by apply up_group|].
  intros _ φ1 H1. apply knows_act. intros φ2 w w' r H2 Hw [= <- <-]. exists φ2. split; [done|].
  split; [by apply (up_strong isolated)|]. assert (φ2 !! g = Some (Group a slot req)) as Hg2.
  { eapply label_mono; [|exact Hg]. by etrans. }
  destruct (is_groups φ2 w Hw _ _ _ _ Hg2) as (_ & ? & x & -> & _ & ->). done.
Qed.

(** A subscriber gets the messages of the address it subscribed to. *)
Lemma apart_subscribe a c φ :
  valid_capacity (channel_capacity c) ->
  apart (fun r φ' => forall s h, r = Ok (s, h) -> subscriber_for φ' a s) (subscribe a c) φ.
Proof.
  intros Hc. unfold subscribe, subscribe_exclusive, subscribe_load_balanced.
  destruct (routing_policy c).
  - eapply knows_bind; [by apply apart_register_exclusive|]. intros [[slot ch]|e] φ1 _ Hr; [|done].
    intros s h [= <- _]. by apply (Hr slot ch).
  - eapply knows_bind; [by apply apart_join; intros; apply apart_group_factory|].
    intros [x|e] φ1 _ Hr; [|done]. specialize (Hr x eq_refl).
    cbv zeta. destruct (match x with Registered t => t | AlreadyExists t => t end) as [slot|g];
      [done|]. destruct Hr as (slot & req & Hg). eapply knows_bind; [by eapply apart_group_subscribe|].
    by intros k φ2 _ Hk s h [= <- _].
Qed.
End Registering.

(** ** Publishers *)

Section Publishing.
Context {D : Deps}.
Implicit Types (w : World) (φ : labels) (p : Publisher InMemoryTransport) (k : cache_id).

(** What a cache holds, or what was resolved, reaches the address [x]. *)
Definition cached φ x (r : option (ResolvedEndpoint InMemoryEndpoint)) : Prop :=
  forall ep, r = Some ep -> reaches φ x (target (resolved_inner ep)).

Definition resolved φ x (r : result (ResolvedEndpoint InMemoryEndpoint) TransportError) : Prop :=
  forall ep, r = Ok ep -> reaches φ x (target (resolved_inner ep)).

Lemma resolved_stable x : stable le (fun r φ => resolved φ x r).
Proof. intros r φ φ' Hle Hr ep ->. eapply reaches_mono; [exact Hle|]. by apply Hr. Qed.

Lemma isolated_put_cache φ w k l l' :
  isolated φ w -> caches w !! k = Some l -> (forall x, cache_for φ x l -> cache_for φ x l') ->
  isolated φ (set_caches (<[k := l']> (caches w)) w).
Proof.
  intros Hw E Hl. destruct (is_caches φ w Hw k l E) as (x & ? & ?).
  apply put_cache with x; auto.
Qed.

(** Taking and releasing the lock does not touch what it protects. *)
Lemma stays_cache_lock k
    (f : rwlock (option InMemoryEndpoint) -> option (rwlock (option InMemoryEndpoint))) :
  (forall l l', f l = Some l' -> rw_value l' = rw_value l) -> stays_apart (cache_lock k f).
Proof.
  intros Hf. apply steady_block. intros w w' u E φ Hw. cbn in E.
  destruct (caches w !! k) as [l|] eqn:El; [|done]. cbn in E.
  destruct (f l) as [l'|] eqn:E'; [|done]. injection E as <- _.
  apply isolated_put_cache with l; [done..|]. intros x Hx. unfold cache_for. by rewrite (Hf l l' E').
Qed.

Lemma apart_cache_update k f φ :
  (forall φ' x l, le φ φ' -> φ' !! k = Some (Cached x) -> cache_for φ' x l -> cache_for φ' x (f l)) ->
  apart any (cache_update (E := InMemoryEndpoint) k f) φ.
Proof.
  intros Hf. apply knows_act. intros φ1 w w' u H1 Hw [= <- _]. exists φ1. split_and!; [done| |done].
  cbn. rewrite alter_put. destruct (caches w !! k) as [l|] eqn:El; [|by destruct w].
  destruct (is_caches φ1 w Hw k l El) as (x & ? & ?). apply put_cache with x; auto.
Qed.

Lemma stays_cache_update k (f : rwlock (option InMemoryEndpoint) -> rwlock (option InMemoryEndpoint)) :
  (forall l, rw_value (f l) = rw_value l) -> stays_apart (cache_update k f).
Proof. intros Hf φ. apply apart_cache_update. intros φ' x l _ _ Hl ep. rewrite Hf. apply Hl. Qed.

Lemma stays_clear_cache k : stays_apart (cache_update (E := InMemoryEndpoint) k (rw_set None)).
Proof. intros φ. by apply apart_cache_update. Qed.

Lemma stays_new_endpoint t : stays_apart (InMemoryEndpoint_new t).
Proof. unfold InMemoryEndpoint_new. steadily. Qed.

Lemma apart_resolve t x φ :
  apart (fun r φ' => resolved φ' x r) (InMemoryTransport_resolve t x) φ.
Proof.
  unfold InMemoryTransport_resolve.
  apply (knows_bind _ _ (fun r φ' => forall t, r = Some t -> reaches φ' x t)).
  - apply knows_act. intros φ1 w w' r H1 Hw [= <- <-]. exists φ1. split_and!; [done..|].
    intros u. apply routes_for_lookup. by apply is_routes.
  - intros [u|] φ1 _ Hu; [|done]. unfold InMemoryEndpoint_new.
    apply (knows_bind _ _ (fun ep _ => target ep = u)).
    + apply knows_any_bind; [steadily|done].
    + intros e φ2 H2 He ep [= <-]. simpl. rewrite He. eapply reaches_mono; [exact H2|]. by apply Hu.
Qed.

Lemma apart_transport_send (t : InMemoryTransport) m φ : apart any (Transport_send t m) φ.
Proof.
  unfold Transport_send, address_str. destruct (from_utf8 (Protocol.address m)) as [x|] eqn:E; [|done].
  cbn [map_err]. in_memory. eapply knows_bind; [apply apart_resolve|]. intros [ep|e] φ1 _ Hep; [|done].
  apply apart_reached_send with x; [by apply Hep|done].
Qed.

Lemma apart_valid_cached k x φ :
  made (Cached x) k φ -> apart (fun r φ' => cached φ' x r) (valid_cached (E := InMemoryEndpoint) k) φ.
Proof.
  intros Hk. unfold valid_cached.
  apply (knows_bind _ _ (fun r φ' => forall e, r = Some e -> reaches φ' x (target e))).
  - apply knows_act. intros φ1 w w' r H1 Hw [= <- <-]. exists φ1. split_and!; [done..|].
    apply (label_mono _ _ H1) in Hk. cbn. destruct (caches w !! k) as [l|] eqn:El; [|done].
    destruct (is_caches φ1 w Hw k l El) as (y & Hy & Hl). simplify_eq. intros e. apply Hl.
  - intros [e|] φ1 _ He; [|done]. in_memory. apply knows_any_bind; [steadily|].
    intros [] φ2 H2; [|done]. intros ep [= <-]. eapply reaches_mono; [exact H2|]. by apply He.
Qed.
(** Letting the lock go before returning what was found. *)
Lemma apart_release k f ep x φ :
  (forall l, rw_value (f l) = rw_value l) -> resolved φ x (Ok ep) ->
  apart (fun r φ' => resolved φ' x r)
    (let! _ := cache_update (E := InMemoryEndpoint) k f in Ret (Ok ep)) φ.
Proof.
  intros Hf Hep. apply knows_any_bind; [by apply stays_cache_update|]. intros _ φ1 H1.
  by eapply resolved_stable.
Qed.

Lemma apart_get_or_resolve p φ :
  made (Cached (address p)) (cached_endpoint p) φ ->
  apart (fun r φ' => resolved φ' (address p) r) (get_or_resolve_endpoint p) φ.
Proof.
  intros Hk. unfold get_or_resolve_endpoint. cbv zeta.
  apply knows_any_bind; [apply stays_cache_lock, takes_same, rw_read_takes|]. intros _ φ1 H1.
  eapply knows_bind; [apply apart_valid_cached; by eapply label_mono|]. intros fast φ2 H2 Hfast.
  apply knows_any_bind; [by apply stays_cache_update|]. intros _ φ3 H3.
  destruct fast as [ep|]; [intros ? [= <-]; by eapply reaches_mono, Hfast|].
  eapply knows_bind; [apply apart_resolve|]. intros [ep|e] φ4 H4 Hep; [|done].
  apply knows_any_bind; [apply stays_cache_lock, takes_same, rw_upgradable_read_takes|]. intros _ φ5 H5.
  assert (le φ φ5) as Hle by later.
  eapply knows_bind; [apply apart_valid_cached; by eapply label_mono|]. intros [ep1|] φ6 H6 Hup.
  { apply apart_release; [done|]. intros ? [= <-]. by apply Hup. }
  apply knows_any_bind; [apply stays_cache_lock, takes_same, rw_upgrade_takes|]. intros _ φ7 H7.
  eapply knows_bind; [apply apart_valid_cached; eapply label_mono, Hk; later|].
  intros [ep1|] φ8 H8 Hup1.
  { apply apart_release; [done|]. intros ? [= <-]. by apply Hup1. }
  assert (le φ4 φ8) as Hle8 by later.
  eapply (knows_bind _ _ any).
  - apply apart_cache_update. intros φ' x l H' Hx _ e [= <-].
    assert (φ' !! cached_endpoint p = Some (Cached (address p))) as Hk'.
    { eapply label_mono, Hk. etrans; [exact Hle|]. etrans; [|exact H']. later. }
    simplify_eq. eapply reaches_mono; [|by apply Hep]. by etrans.
  - intros _ φ9 H9 _. apply apart_release; [done|]. eapply (resolved_stable _ (Ok ep)); [|exact Hep].
    by etrans.
Qed.

Lemma apart_send_or_invalidate p ep m φ :
  resolved φ (address p) (Ok ep) -> from_utf8 (Protocol.address m) = Ok (address p) ->
  apart any (send_or_invalidate p ep m) φ.
Proof.
  intros Hep Hm. unfold send_or_invalidate, invalidate_cache. in_memory. apply (knows_bind _ _ any).
  - by apply apart_reached_send with (address p); [apply Hep|].
  - intros r φ1 _ _. pose proof (stays_cache_lock (cached_endpoint p) rw_write
      (takes_same _ rw_write_takes)).
    pose proof (stays_clear_cache (cached_endpoint p)).
    pose proof (stays_cache_update (cached_endpoint p) rw_write_unlock (fun _ => eq_refl)). steadily.
Qed.

(** Messages to the address of the publisher. *)
Lemma apart_publisher_send p m φ :
  made (Cached (address p)) (cached_endpoint p) φ -> from_utf8 (Protocol.address m) = Ok (address p) ->
  apart any (Publisher_send p m) φ.
Proof.
  intros Hk Hm. eapply knows_bind; [by apply apart_get_or_resolve|]. intros [ep|e] φ1 _ Hep; [|done].
  by apply apart_send_or_invalidate.
Qed.

Lemma apart_publisher_request p m φ :
  made (Cached (address p)) (cached_endpoint p) φ -> from_utf8 (Protocol.address m) = Ok (address p) ->
  apart (answers (message_id (header m))) (Publisher_request p m) φ.
Proof.
  intros Hk Hm. eapply knows_bind; [by apply apart_get_or_resolve|]. intros [ep|e] φ1 _ Hep; [|done].
  apply knows_request_with; [apply _..|]. intros φ2 H2. apply apart_send_or_invalidate; [|done].
  by eapply resolved_stable.
Qed.

Lemma apart_client_request self m φ :
  apart (answers (message_id (header m))) (BrokerClient_request self m) φ.
Proof. apply knows_request_with; [apply _..|]. intros. apply apart_transport_send. Qed.

Lemma apart_publisher self a φ :
  apart (fun p φ' => address p = a /\ made (Cached a) (cached_endpoint p) φ')
    (BrokerClient_publisher self a) φ.
Proof.
  unfold BrokerClient_publisher, Publisher_new. eapply knows_bind.
  - apply (apart_new (Cached a)); [done..|]. intros φ1 k w _ Hw Hk. cbn.
    by apply put_cache with a.
  - intros k φ1 _ Hk. by split.
Qed.
End Publishing.
