(* ===== verification/IsolationProps.v ===== *)
(** * IsolationProps: well-behaved programs never go wrong

    Contracts for the calls a component makes, and the programs that keep to them. In every
    execution of such programs nothing panics and the registry's mutex is never poisoned, and what
    a subscriber receives is meant for its address. *)

From S2P Require Import Prelude.
From S2P Require Import Utf8.
From S2P Require Import Protocol.
From S2P Require Import RadixIface.
From S2P Require Import ChanIface.
From S2P Require Import Async.
From S2P Require Import Preserve.
From S2P Require Import Registry.
From S2P Require Import World.
From S2P Require Import Channel.
From S2P Require Import Routing.
From S2P Require Import RegistryOps.
From S2P Require Import Dispatcher.
From S2P Require Import Subscriber.
From S2P Require Import Transport.
From S2P Require Import ReplyDispatcher.
From S2P Require Import Publisher.
From S2P Require Import Client.
From S2P Require Import Runtime.
From S2P Require Import Config.
From S2P Require Import Patterns.
From S2P Require Import RegistryFacts.
From S2P Require Import RegistryProps.
From S2P Require Import Typing.
From S2P Require Import RuntimeProps.
From S2P Require Import RuntimeTypes.
From S2P Require Import LifecycleProps.
From S2P Require Import DispatcherProps.
From S2P Require Import Str.
From S2P Require Import MessagingProps.
From S2P Require Import RuntimeDelivery.
From S2P Require Import Upkeep.
From S2P Require Import Isolation.
From S2P Require Import IsolationOps.

Local Open Scope broker_scope.

(** ** Tasks *)

Section Tasks.
Context {D : Deps}.
Implicit Types (w : World) (φ : labels).

Lemma next_position a at_ φ :
  at_for φ a at_ -> apart (fun r φ' => forall x, r = Some x -> at_for φ' a x) (Ret (Some at_)) φ.
Proof. by intros Ha x [= <-]. Qed.

(** The dispatcher hands a message of its address to one who asked for a message of its address,
    or keeps it. *)
Lemma apart_deliver tx m a φ :
  made (For a) tx φ -> meant_for a m ->
  apart (fun r _ => forall m', r = Err m' -> meant_for a m') (act (reply_send tx m)) φ.
Proof.
  intros Ht Hm. apply knows_act. intros φ1 w w' r H1 Hw [= E]. exists φ1.
  apply (label_mono _ _ H1) in Ht. split_and!; [done| |].
  - pose proof (isolated_reply_send φ1 tx (For a) m w Hw Ht Hm) as Hs. by rewrite E in Hs.
  - intros m' ->. unfold reply_send in E. destruct (oneshots w !! tx) as [o|]; [|by simplify_eq].
    pose proof (oneshot_send_spec m o) as Hs. destruct (oneshot_send m o) as [x o'].
    unfold on_snd, view_oneshot_send in Hs. simpl in Hs. destruct (receiver_alive _); simplify_eq. done.
Qed.

Lemma apart_dispatcher_step env at_ a φ :
  env_for φ a env -> at_for φ a at_ ->
  apart (fun r φ' => forall x, r = Some x -> at_for φ' a x) (dispatcher_step env at_) φ.
Proof.
  intros [He Hq] Ha. destruct at_ as [|tx|tx m|m|]; unfold dispatcher_step.
  - eapply knows_bind; [by apply apart_recv_token|]. intros [tx|] φ1 _ Hr; apply next_position;
      [by apply Hr|done].
  - eapply knows_bind; [by apply apart_recv_message|]. intros [m|] φ1 H1 Hr.
    + apply next_position. split; [by eapply label_mono|by apply Hr].
    + apply knows_any_bind; [steadily|]. intros _ φ2 _. by apply next_position.
  - destruct Ha as [Ht Hm]. eapply knows_bind; [by apply apart_deliver|].
    intros [u|m'] φ1 _ Hr; apply next_position; [done|by apply Hr].
  - eapply knows_bind; [by apply apart_recv_token|]. intros [tx|] φ1 _ Hr; apply next_position;
      [|done]. split; [by apply Hr|done].
  - apply knows_any_bind; [steadily|]. intros _ φ1 _.
    apply knows_any_bind; [steadily|]. intros _ φ2 _.
    apply knows_any_bind; [steadily|]. by intros _ φ3 _.
Qed.

Lemma apart_task_round t φ :
  task_for φ t -> apart (fun r φ' => forall x, r = Some x -> task_for φ' x) (task_round t) φ.
Proof.
  destruct t as [env at_|s k]; unfold task_round.
  - intros (a & He & Ha). eapply knows_bind; [by apply apart_dispatcher_step|].
    intros [x|] φ1 H1 Hr y [= <-]. exists a. split; [|by apply Hr].
    destruct He. split; by eapply label_mono.
  - intros Hs. apply (knows_bind _ _ any).
    + destruct Hs as (a & Hs). unfold listener_step.
      eapply knows_bind; [by eapply apart_subscriber_recv|].
      intros r φ1 _ _. steadily.
    + intros [] φ1 H1 _ x [= <-]. by eapply (task_for_mono φ φ1 H1 (ListenerTask s k)).
Qed.

#[export] Program Instance isolated_rounds : Rounds isolated False := { task_in_order := task_for }.
Next Obligation. intros φ φ' t Hle. by apply task_for_mono. Qed.
Next Obligation. intros φ w t x Hw. by apply (is_tasks _ _ Hw). Qed.
Next Obligation. intros φ w t x. apply put_task. Qed.
Next Obligation. intros t φ. apply apart_task_round. Qed.
End Tasks.

(** ** Contracts *)

(** What a component holds: a subscriber to an address, or a publisher. *)
Inductive handle :=
| Subscription (s : Subscriber) (a : bytes)
| Publishing (p : Publisher InMemoryTransport).

(** A message to the address of the publisher. *)
Definition addressed_to (p : Publisher InMemoryTransport) (m : Message) : Prop :=
  from_utf8 (Protocol.address m) = Ok (address p).

Definition handles_of_subscribe a (r : result (Subscriber * SubscriptionHandle) RegistryError)
    : list handle :=
  match r with Ok (s, _) => [Subscription s a] | Err _ => [] end.

Definition nothing {A} (_ : A) : list handle := [].

Definition always {A} (_ : A) : Prop := True.

Section Contracts.
Context {D : Deps}.

(** [behaves may H p Q G]: the program [p], holding [H], keeps to the contracts of the calls it
    makes, and panics of its own accord only if [may]. What it returns satisfies [Q], and then it
    also holds [G]. A capacity must be one a channel can have, and a publisher must be given
    messages to its own address. *)
Inductive behaves (may : Prop)
    : list handle -> forall {A}, proc World A -> (A -> Prop) -> (A -> list handle) -> Prop :=
| behaves_ret H {A} (a : A) : behaves may H (Ret a) (eq a) nothing
| behaves_panic H {A} Q G : may -> behaves may H (Panic (A := A)) Q G
| behaves_bind H {A B} (p : proc World A) (k : A -> proc World B) Q G R F :
    behaves may H p Q G -> (forall a, Q a -> behaves may (G a ++ H) (k a) R F) ->
    behaves may H (bind p k) R F
| behaves_weaken H {A} (p : proc World A) Q G Q' G' :
    behaves may H p Q G -> (forall a, Q a -> Q' a /\ G' a ⊆ G a ++ H) -> behaves may H p Q' G'
| behaves_abandon H {A} stop (p : proc World A) Q G :
    behaves may H p Q G ->
    behaves may H (abandon stop p) (fun r => forall a, r = Some a -> Q a)
      (fun r => match r with Some a => G a | None => [] end)
| behaves_client H b c a :
    valid_capacity (reply_channel_capacity c) -> behaves may H (Broker_client b c a) always nothing
| behaves_subscribe H a c :
    valid_capacity (channel_capacity c) ->
    behaves may H (subscribe a c) always (handles_of_subscribe a)
| behaves_publisher H self a :
    behaves may H (BrokerClient_publisher self a) (fun p => address p = a) (fun p => [Publishing p])
| behaves_recv H s a :
    Subscription s a ∈ H ->
    behaves may H (Subscriber_recv s) (fun r => forall m, r = Some m -> meant_for a m) nothing
| behaves_try_recv H s a :
    Subscription s a ∈ H ->
    behaves may H (Subscriber_try_recv s) (fun r => forall m, r = Ok m -> meant_for a m) nothing
| behaves_send H self m : behaves may H (BrokerClient_send self m) always nothing
| behaves_request H self m :
    behaves may H (BrokerClient_request self m)
      (fun r => forall m', r = Ok m' -> message_id (header m') = message_id (header m)) nothing
| behaves_publisher_send H p m :
    Publishing p ∈ H -> addressed_to p m -> behaves may H (Publisher_send p m) always nothing
| behaves_publisher_request H p m :
    Publishing p ∈ H -> addressed_to p m ->
    behaves may H (Publisher_request p m)
      (fun r => forall m', r = Ok m' -> message_id (header m') = message_id (header m)) nothing
| behaves_subscriber_drop H s : behaves may H (write (Subscriber_drop s)) always nothing
| behaves_handle_drop H h : behaves may H (SubscriptionHandle_drop h) always nothing
| behaves_client_drop H self x : behaves may H (BrokerClient_drop self x) always nothing
| behaves_unregister H a slot : behaves may H (unregister a slot) always nothing
| behaves_read H {A} (f : World -> A) : behaves may H (read f) always nothing.

(** What it means of the labels to hold a handle. *)
Definition holds (φ : labels) (h : handle) : Prop :=
  match h with
  | Subscription s a => subscriber_for φ a s
  | Publishing p => made (Cached (address p)) (cached_endpoint p) φ
  end.

Definition holds_all φ (H : list handle) : Prop := Forall (holds φ) H.

Lemma holds_all_mono φ φ' H : le φ φ' -> holds_all φ H -> holds_all φ' H.
Proof.
  intros Hle HH. eapply list.Forall_impl; [exact HH|]. intros [s a|p]; [by apply subscriber_for_mono|].
  by apply label_mono.
Qed.

Lemma holds_all_app φ H1 H2 : holds_all φ H1 -> holds_all φ H2 -> holds_all φ (H1 ++ H2).
Proof. intros. by apply list.Forall_app. Qed.

Lemma holds_all_sub φ H1 H2 : H1 ⊆ H2 -> holds_all φ H2 -> holds_all φ H1.
Proof. unfold holds_all. rewrite !list.Forall_forall. auto. Qed.

Lemma holds_in φ H h : holds_all φ H -> h ∈ H -> holds φ h.
Proof. intros HH Hh. eapply list.Forall_forall in HH; done. Qed.

(** What a call makes known, of the value and the handles it returns. *)
Definition gives {A} (Q : A -> Prop) (G : A -> list handle) (a : A) φ : Prop :=
  Q a /\ holds_all φ (G a).

Lemma apart_nothing {A} (p : proc World A) Q φ :
  apart (fun a _ => Q a) p φ -> apart (gives Q nothing) p φ.
Proof. apply knows_mono. intros a φ' ?. split; [done|constructor]. Qed.

Lemma apart_call {A} (p : proc World A) may Q G φ :
  apart (gives Q G) p φ -> knows isolated may (gives Q G) p φ.
Proof. by apply knows_bad. Qed.

Lemma stays_call {A} (p : proc World A) may φ :
  stays_apart p -> knows isolated may (gives always nothing) p φ.
Proof. intros Hp. apply apart_call, apart_nothing. eapply knows_mono; [|apply Hp]. done. Qed.

(** The contracts are what the operations provide. *)
Lemma behaves_apart may H {A} (p : proc World A) Q G φ :
  behaves may H p Q G -> holds_all φ H -> knows isolated may (gives Q G) p φ.
Proof.
  intros Hp. revert φ. induction Hp; intros φ HH.
  - split; [done|constructor].
  - done.
  - eapply knows_bind; [by apply IHHp|]. intros a φ1 Hle [Ha Hg].
    eauto using holds_all_app, holds_all_mono.
  - eapply knows_weaken, IHHp; [|done]. intros a φ1 Hle [Ha Hg].
    match goal with Hq : forall a, Q a -> _ |- _ => destruct (Hq a Ha) as [? Hsub] end. split; [done|].
    eapply holds_all_sub; [exact Hsub|]. by eauto using holds_all_app, holds_all_mono.
  - eapply knows_mono, knows_abandon, IHHp; [|done]. intros [a|] φ1 Hr; [|by split; [|constructor]].
    destruct Hr. split; [by intros ? [= <-]|done].
  - by apply apart_call, apart_nothing, apart_client.
  - apply apart_call. eapply knows_mono; [|by apply apart_subscribe].
    intros [[s h]|e] φ1 Hr; (split; [done|]).
    + constructor; [by apply (Hr s h)|constructor].
    + constructor.
  - apply apart_call. eapply knows_mono; [|apply apart_publisher]. intros p φ1 [<- Hp]. split; [done|].
    by constructor; [|constructor].
  - apply apart_call, apart_nothing. by eapply apart_subscriber_recv, (holds_in φ H (Subscription s a)).
  - apply apart_call, apart_nothing.
    by eapply apart_subscriber_try_recv, (holds_in φ H (Subscription s a)).
  - by apply apart_call, apart_nothing, apart_transport_send.
  - by apply apart_call, apart_nothing, apart_client_request.
  - apply apart_call, apart_nothing.
    by apply apart_publisher_send; [apply (holds_in φ H (Publishing p))|].
  - apply apart_call, apart_nothing.
    by apply apart_publisher_request; [apply (holds_in φ H (Publishing p))|].
  - apply stays_call. steadily.
  - apply stays_call. steadily.
  - apply stays_call. steadily.
  - apply stays_call. steadily.
  - apply stays_call. steadily.
Qed.
End Contracts.

(** ** Executions *)

Section Adequacy.
Context {D : Deps}.
Implicit Types (w : World) (φ : labels) (c : config).

(** A new broker has nothing to mix up. *)
Lemma isolated_new : isolated ∅ World_new.
Proof.
  split; simpl; first [done|apply map_Forall_empty|idtac].
  - by intros k [? [=]].
  - split; [apply new_wf|]. unfold route, plain_route, exact_routes, prefix_routes. simpl.
    rewrite rx_new_spec. intros a t [[Hr|Hr]|Hr]; set_solver.
Qed.

(** Behind a route wait only messages meant for it. *)
Lemma isolated_route φ w a slot s tx ch :
  isolated φ w -> route (inner w) a (Single slot) -> slots w !! slot = Some s ->
  sender s = Some tx -> chans w !! tx = Some ch -> Forall (meant_for a) (queue (mpsc_look ch)).
Proof.
  intros Hw Ha Hs Htx Hch. destruct (is_routes φ w Hw) as [_ Hr]. apply Hr in Ha. simpl in Ha.
  destruct (is_slots φ w Hw slot s Hs) as (b & Hb & Ho). simplify_eq. apply Ho in Htx.
  destruct (is_chans φ w Hw tx ch Hch) as (b & Hb' & _ & Hq). by simplify_eq.
Qed.

(** C7: a broker used by the contracts never goes wrong. Components that stay within the
    capacities, give publishers only messages to their own address and otherwise do what they like
    with the calls of the crate and what these gave them - in
      any number of threads, with timeouts and futures dropped at
    any point, some of them panicking of their own accord - can rely on this in every state of
    every execution: no thread panics but of its own accord, no background task panics, and the
    mutex of the registry is never poisoned; and in the channel behind a route wait only messages
    meant for it. As a component may panic when a contract of what it gets back is broken, every
    subscriber receives only messages meant for its address, and every request only its own
    answer. *)
Theorem well_behaved (programs : list (proc World unit)) (own_accord : nat -> Prop) c
    (Hprograms : forall i p, programs !! i = Some p -> behaves (own_accord i) [] p always nothing)
    (Hrun : rtc runtime_step (started programs) c) :
  (forall i, threads c !! i = Some Panic -> own_accord i) /\
  (forall t, rounds c !! t <> Some Panic) /\
  poisoned (register_mutex (world c)) = false /\
  (forall a slot s tx ch, route (inner (world c)) a (Single slot) ->
     slots (world c) !! slot = Some s -> sender s = Some tx -> chans (world c) !! tx = Some ch ->
     Forall (meant_for a) (queue (mpsc_look ch))).
Proof.
  destruct (runtime_steps_known isolated False own_accord (started programs) c Hrun)
    as (φ & [Hw Ht Hr]).
  - exists ∅. split; [apply isolated_new|simpl|done]. intros i p Hi.
    eapply knows_mono, behaves_apart; [|by apply Hprograms|constructor]. done.
  - split_and!; [|intros t Hp; exact (Hr t _ Hp)|by apply (is_sane φ)|].
    + intros i Hp. exact (Ht i _ Hp).
    + intros a slot s tx ch Ha Hs Htx Hch. by eapply isolated_route.
Qed.
End Adequacy.

(** ** Witness *)

(** A subscriber to an address that is not a pattern gets messages to that very address. *)
Lemma meant_for_concrete a m :
  concrete a -> meant_for a m -> from_utf8 (Protocol.address m) = Ok a.
Proof.
  intros Ha (x & -> & Hx). specialize (Hx (or_intror Ha)). unfold covers in Hx.
  unfold concrete in Ha. rewrite Ha in Hx. by subst.
Qed.

Section Witness.
(** A consumer of a group that checks what it gets, a producer, and a component that crashes. *)
Definition expects a (m : Message) : proc World unit :=
  if decide (from_utf8 (Protocol.address m) = Ok a) then Ret tt else Panic.

Definition new_consumer := subscribe users (mkSubscriberConfig 4 LoadBalanced).

Definition consumer a : proc World unit :=
  let! r := new_consumer in
  match r with
  | Ok (s, _) =>
      let! m := Subscriber_recv s in
      match m with Some m => expects a m | None => Ret tt end
  | Err _ => Ret tt
  end.

Definition producer : proc World unit :=
  let! r := Broker_client (mkBroker BrokerConfig_default) (mkClientConfig 4) (bs "me") in
  match r with
  | Ok self =>
      let! p := BrokerClient_publisher self users in
      let! _ := Publisher_send p ping in
      Ret tt
  | Err _ => Ret tt
  end.

Definition crash : proc World unit := Panic.

(** Returning nothing in particular. *)
Lemma behaves_end may H : behaves may H (Ret tt) always nothing.
Proof. eapply behaves_weaken; [apply behaves_ret|]. intros u _. split; [done|set_solver]. Qed.

Lemma consumer_behaves may : behaves may [] (consumer users) always nothing.
Proof.
  eapply behaves_bind; [by apply behaves_subscribe|]. intros [[s h]|e] _; [|apply behaves_end].
  eapply behaves_bind; [apply (behaves_recv _ _ s users); set_solver|].
  intros [m|] Hm; [|apply behaves_end]. unfold expects.
  rewrite decide_True by (apply meant_for_concrete; [done|by apply Hm]). apply behaves_end.
Qed.

Lemma producer_behaves may : behaves may [] producer always nothing.
Proof.
  eapply behaves_bind; [by apply behaves_client|]. intros [self|e] _; [|apply behaves_end].
  eapply behaves_bind; [apply behaves_publisher|]. intros p Hp.
  eapply behaves_bind; [apply behaves_publisher_send; [set_solver|]|intros; apply behaves_end].
  unfold addressed_to. by rewrite Hp.
Qed.
(** One round of task 4, the dispatcher of the group, when it is not waiting. *)
Definition dispatcher_round (w : World) : option World :=
  match tasks w !! 4 with
  | Some (mkTask t false) =>
      match run (task_round t) w with Done w r => Some (end_round 4 r w) | _ => None end
  | _ => None
  end.

Definition three_rounds (w : World) : option World :=
  w ← dispatcher_round w; w ← dispatcher_round w; dispatcher_round w.

(** One way it may go from the state [w]: the consumer subscribes and waits, the producer sends,
    the dispatcher goes round three times, and the consumer has the message. *)
Definition consumer_is_served (w : World) : bool :=
  match run new_consumer w with
  | Done w (Ok (s, _)) =>
      match run (Subscriber_recv s) w with
      | Blocked w p =>
          match run producer w with
          | Done w tt =>
              match three_rounds w with
              | Some w =>
                  match run p w with
                  | Done w (Some m) => bool_decide (from_utf8 (Protocol.address m) = Ok users)
                  | _ => false
                  end
              | None => false
              end
          | _ => false
          end
      | _ => false
      end
  | _ => false
  end.

Lemma consumer_served : consumer_is_served World_new = true.
Proof. vm_compute. reflexivity. Qed.

Lemma dispatcher_round_steps w w' ts :
  dispatcher_round w = Some w' -> rtc runtime_step (mkConfig w ts ∅) (mkConfig w' ts ∅).
Proof.
  unfold dispatcher_round. destruct (tasks w !! 4) as [[t []]|] eqn:E; try done.
  destruct (run (task_round t) w) as [w1 r| |] eqn:Er; try done. intros [= <-].
  by eapply task_runs.
Qed.

Lemma three_rounds_steps w w' ts :
  three_rounds w = Some w' -> rtc runtime_step (mkConfig w ts ∅) (mkConfig w' ts ∅).
Proof.
  intros (w1 & E1 & (w2 & E2 & E3)%bind_Some)%bind_Some.
  do 2 (etrans; [by eapply dispatcher_round_steps|]). by apply dispatcher_round_steps.
Qed.

(** The consumer goes on with the message to [users]. *)
Lemma message_reached w0 a :
  consumer_is_served w0 = true -> exists w m, from_utf8 (Protocol.address m) = Ok users /\
    rtc runtime_step (mkConfig w0 [consumer a; producer; crash] ∅)
      (mkConfig w [expects a m; Ret tt; crash] ∅).
Proof.
  unfold consumer_is_served. destruct (run new_consumer w0) as [w1 [[s h]|]| |] eqn:E1; try done.
  destruct (run (Subscriber_recv s) w1) as [| |w2 p] eqn:E2; try done.
  destruct (run producer w2) as [w3 []| |] eqn:E3; try done.
  destruct (three_rounds w3) as [w6|] eqn:E4; [|done].
  destruct (run p w6) as [w7 [m|]| |] eqn:E7; try done.
  intros Hm%bool_decide_eq_true. exists w7, m. split; [done|].
  etrans; [exact (thread_done _ _ [consumer a; producer; crash] 0 _ _ _ ∅ eq_refl E1)|].
  etrans; [exact (thread_blocked _ _ [_; producer; crash] 0 _ _ _ ∅ eq_refl E2)|].
  etrans; [exact (run_thread 1 _ _ _ [bind p _; producer; crash] ∅ eq_refl E3)|].
  etrans; [exact (three_rounds_steps w3 w6 [bind p _; Ret tt; crash] E4)|].
  exact (thread_done p _ [bind p _; Ret tt; crash] 0 _ _ _ ∅ eq_refl E7).
Qed.

(** Thread 2 crashes, and nothing else does. A consumer that expects the messages of another
    address does not keep to the contract, and panics. *)
Lemma well_behaved_witness :
  exists c, rtc runtime_step (started [consumer users; producer; crash]) c /\
    threads c = [Ret tt; Ret tt; crash] /\
    (forall i, threads c !! i = Some Panic -> i = 2) /\
    (forall t, rounds c !! t <> Some Panic) /\ poisoned (register_mutex (world c)) = false /\
    exists c', rtc runtime_step (started [consumer core; producer; crash]) c' /\
      threads c' !! 0 = Some Panic.
Proof.
  destruct (message_reached World_new users consumer_served) as (w & m & Hm & Hrun).
  assert (expects users m = Ret tt) as He by (unfold expects; by rewrite decide_True).
  exists (mkConfig w [expects users m; Ret tt; crash] ∅).
  destruct (well_behaved [consumer users; producer; crash] (fun i => i = 2)
    (mkConfig w [expects users m; Ret tt; crash] ∅)) as (H1 & H2 & H3 & _).
  - intros [|[|[|i]]] p [= <-];
      [apply consumer_behaves|apply producer_behaves|by apply behaves_panic].
  - exact Hrun.
  - split; [exact Hrun|]. split; [simpl; by rewrite He|]. split; [exact H1|].
    split; [exact H2|]. split; [exact H3|].
    destruct (message_reached World_new core consumer_served) as (w' & m' & Hm' & Hrun').
    exists (mkConfig w' [expects core m'; Ret tt; crash] ∅). split; [exact Hrun'|].
    unfold expects. rewrite Hm'. by rewrite decide_False.
Defined.
End Witness.
