(* ===== verification/ChannelProps.v ===== *)
(** * ChannelProps: receiving with a timeout, channel load, capacities

    Bounds of the channel wrappers of src/src/broker_core/transport/channel.rs and of the
    configuration builders of src/src/config/mod.rs. *)

From Stdlib Require Import SpecFloat.
From S2P Require Import Prelude.
From S2P Require Import Str.
From S2P Require Import Config.
From S2P Require Import Protocol.
From S2P Require Import RadixIface.
From S2P Require Import ChanIface.
From S2P Require Import Async.
From S2P Require Import Registry.
From S2P Require Import RegistryProps.
From S2P Require Import World.
From S2P Require Import Channel.
From S2P Require Import Routing.
From S2P Require Import RegistryOps.
From S2P Require Import RunFacts.
From S2P Require Import LifecycleProps.
From S2P Require Import MessagingProps.

Local Open Scope broker_scope.

Section Channels.
Context {D : Deps}.
Implicit Types (w : World) (rx : chan_id).

Lemma poll_recv_view rx w v :
  chan_view rx w = Some v ->
  match view_recv v with
  | Some (x, v') => exists w', poll_channel (M := Message) rx mpsc_recv w = Some (w', x) /\
                               chan_view rx w' = Some v'
  | None => poll_channel (M := Message) rx mpsc_recv w = None
  end.
Proof.
  unfold chan_view, poll_channel. cbn [get_channels message_channels].
  destruct (chans w !! rx) as [c|]; [|done]. intros [= <-].
  pose proof (mpsc_recv_spec c) as Hs. cbn [mbind option_bind].
  destruct (mpsc_recv c) as [[x c']|]; simpl in Hs; rewrite <-Hs; [|done].
  eexists. split; [reflexivity|]. simpl. by rewrite lookup_insert_eq.
Qed.

(** C33: receiving with a timeout. A queued message is returned at once, first in first out; with
    no message and no sender left the channel is disconnected; otherwise the receiver waits, takes
    a message that arrives even late, and gives up only after the timeout (and the timer's
    granularity), leaving the channel as it was. *)
Theorem recv_timeout_spec rx timeout w v
    (Hview : chan_view rx w = Some v) (Htime : (0 < timeout)%Z) :
  let o := run (Receiver_recv_timeout (M := Message) rx timeout) w in
  match queue v with
  | m :: q => exists w', o = Done w' (Ok m) /\ chan_view rx w' = Some (set_queue q v)
  | [] =>
      if decide (senders v = 0%nat) then
        exists w', o = Done w' (Err RecvTimeout_Disconnected) /\ chan_view rx w' = Some v
      else exists p, o = Blocked w p /\ forall u vu, chan_view rx u = Some vu ->
        (forall m q, queue vu = m :: q ->
           exists u', run p u = Done u' (Ok m) /\ chan_view rx u' = Some (set_queue q vu)) /\
        (queue vu = [] -> senders vu <> 0%nat ->
           ((now u < now w + timeout)%Z -> run p u = Blocked u p) /\
           ((now w + timeout + timeout_slack <= now u)%Z ->
            run p u = Done u (Err RecvTimeout_Timeout)))
  end.
Proof.
  cbv zeta. unfold Receiver_recv_timeout. rewrite run_read_bind. unfold await. cbn [run].
  assert (forall u vu m q, chan_view rx u = Some vu -> queue vu = m :: q ->
    exists u', poll_channel (M := Message) rx mpsc_recv u = Some (u', Some m) /\
      chan_view rx u' = Some (set_queue q vu)) as Hsome.
  { intros u vu m q Hu Hq. apply poll_recv_view in Hu. unfold view_recv, view_try_recv in Hu.
    by rewrite Hq in Hu. }
  assert (forall u vu, chan_view rx u = Some vu -> queue vu = [] -> senders vu <> 0%nat ->
    poll_channel (M := Message) rx mpsc_recv u = None) as Hnone.
  { intros u vu Hu Hq Hn. apply poll_recv_view in Hu. unfold view_recv, view_try_recv in Hu.
    by rewrite Hq, decide_False in Hu. }
  destruct (queue v) as [|m q] eqn:Hq.
  - case_decide as Hn.
    + pose proof (poll_recv_view rx w v Hview) as Hp. unfold view_recv, view_try_recv in Hp.
      rewrite Hq, decide_True in Hp by done. destruct Hp as (w' & Hp & Hv'). rewrite Hp.
      cbn [fmap option_fmap option_map snd]. rewrite timeout_ready. by exists w'.
    + rewrite (Hnone w v) by done. cbn [fmap option_fmap option_map].
      rewrite timeout_pending by lia. cbn [mbind option_bind].
      eexists. split; [reflexivity|]. intros u vu Hu. split.
      * intros m q Hqu. destruct (Hsome u vu m q Hu Hqu) as (u' & Hp & Hu'). cbn [run].
        rewrite Hp. cbn [fmap option_fmap option_map snd]. rewrite timeout_ready. by exists u'.
      * intros Hqu Hsu. cbn [run]. rewrite (Hnone u vu) by done.
        cbn [fmap option_fmap option_map]. split; intros Ht.
        -- by rewrite timeout_pending.
        -- by rewrite timeout_elapsed.
  - destruct (Hsome w v m q Hview Hq) as (w' & Hp & Hv'). rewrite Hp.
    cbn [fmap option_fmap option_map snd]. rewrite timeout_ready. by exists w'.
Qed.

(** The load of a channel counts the messages that wait in it: as long as the queue is within
    its capacity, the pending count is the length of the queue, and free slots and pending
    messages add up to the capacity. *)
Lemma load_counts_queue tx w v
    (Hview : chan_view tx w = Some v)
    (Hcap : (Z.of_nat (length (queue v)) <= max_cap v)%Z) :
  exists l, Sender_load (M := Message) tx w = Some l /\
    pending_messages l = Z.of_nat (length (queue v)) /\
    (Channel.capacity l + pending_messages l)%Z = Channel.max_capacity l /\
    Sender_is_closed (M := Message) tx w = negb (receiver v).
Proof.
  unfold chan_view in Hview. unfold Sender_load, Sender_is_closed.
  cbn [get_channels message_channels]. destruct (chans w !! tx) as [c|]; [|done].
  injection Hview as <-. eexists. split; [reflexivity|].
  unfold pending_messages. cbn [Channel.capacity Channel.max_capacity].
  rewrite mpsc_capacity_spec, mpsc_max_capacity_spec, mpsc_is_closed_spec. unfold free.
  split_and!; [lia..|done].
Qed.

(** The configuration builders accept exactly the capacities from 1 to their documented
    limits, store them and keep the other fields; a channel, and so an exclusive subscription, can
    always be made with an accepted capacity: it never panics. *)
Theorem built_capacity_valid (self : SubscriberConfig) n (Hu : (0 <= n)%Z) :
  (forall c, with_channel_capacity self n = Ok c <->
     capacity_ok MAX_CHANNEL_CAPACITY n /\ c = mkSubscriberConfig n (routing_policy self)) /\
  (forall c, with_reply_channel_capacity ClientConfig_default n = Ok c <->
     capacity_ok MAX_REPLY_CHANNEL_CAPACITY n /\ c = mkClientConfig n) /\
  (capacity_ok MAX_CHANNEL_CAPACITY n \/ capacity_ok MAX_REPLY_CHANNEL_CAPACITY n ->
   forall w, exists w', run (create_channel n) w = Done w' (next_id w) /\
     chan_view (next_id w) w' = Some (mkMpsc [] n 1 true)).
Proof.
  split_and!.
  - intros c. by apply subscriber_builder_ok.
  - intros c. by apply client_builder_ok.
  - intros Hn w. destruct (channel_some (M := Message) n) as (c & Hc & Hl).
    { unfold capacity_ok, valid_capacity, max_permits, MAX_CHANNEL_CAPACITY,
        MAX_REPLY_CHANNEL_CAPACITY in *. lia. }
    unfold create_channel, channel, act_or_panic. cbn [run]. rewrite Hc. cbn.
    eexists. split; [reflexivity|]. unfold chan_view. cbn. by rewrite lookup_insert_eq, <-Hl.
Qed.
End Channels.

(** ** The load of a channel as a number *)

(** Three of four slots in use make 0.75, that is [6755399441055744 * 2^-53]; one of three makes
    the binary64 number nearest to a third. *)
Example utilization_three_of_four :
  utilization_ratio (mkLoad 1 4) = S754_finite false 6755399441055744 (-53).
Proof. vm_compute. reflexivity. Qed.
Example utilization_one_of_three :
  utilization_ratio (mkLoad 2 3) = S754_finite false 6004799503160661 (-54).
Proof. vm_compute. reflexivity. Qed.

(** No slots at all count as unused, and more free slots than there are do not go below zero. *)
Example utilization_edges :
  utilization_ratio (mkLoad 0 0) = f64_zero /\ utilization_ratio (mkLoad 9 4) = f64_zero.
Proof. vm_compute. done. Qed.

(** A full channel has ratio 1.0, also where [usize] is not exact in binary64. *)
Example utilization_full :
  utilization_ratio (mkLoad 0 1000000) = as_f64 1 /\
  utilization_ratio (mkLoad 0 (2 ^ 64 - 1)) = as_f64 1.
Proof. vm_compute. done. Qed.

(** ** Witnesses *)

Section Witnesses.
Lemma recv_timeout_spec_witness :
  exists p, run (Receiver_recv_timeout (M := Message) 0 30) subscribed = Blocked subscribed p /\
    run p (set_now 30 subscribed) = Done (set_now 30 subscribed) (Err RecvTimeout_Timeout).
Proof.
  assert (chan_view 0 subscribed = Some (mkMpsc [] 4 1 true)) as Hv by (vm_compute; reflexivity).
  pose proof (recv_timeout_spec 0 30 subscribed _ Hv ltac:(lia)) as Hs. cbv zeta in Hs.
  simpl in Hs. destruct Hs as (p & Hp & Hu). exists p. split; [exact Hp|].
  apply (Hu (set_now 30 subscribed) _ Hv); simpl; [reflexivity|lia|lia].
Defined.

Lemma built_capacity_valid_witness :
  with_channel_capacity SubscriberConfig_default 8 = Ok (mkSubscriberConfig 8 Exclusive).
Proof.
  apply (proj1 (built_capacity_valid SubscriberConfig_default 8 ltac:(lia))).
  split; [unfold capacity_ok, MAX_CHANNEL_CAPACITY; lia|reflexivity].
Defined.
End Witnesses.
