(* ===== verification/UnitTests.v ===== *)
(** * UnitTests: the unit tests of the crate, run on the definitions

    The test modules of src/src/broker_core/registry/mod.rs and src/src/client/mod.rs, with
    src/src/test_utils.rs. A failed assertion and an [unwrap] of an error are panics. A test of
    the registry starts from a new one with [LocalRegistry_new], and counts the calls of a factory
    in a counter of the store; tests that run on one thread are evaluated, and the race of a
    hundred threads, with all its assertions, is proved for every interleaving. *)

From S2P Require Import Prelude.
From S2P Require Import Config.
From S2P Require Import Protocol.
From S2P Require Import Utf8.
From S2P Require Import Patterns.
From S2P Require Import RadixIface.
From S2P Require Import ChanIface.
From S2P Require Import Async.
From S2P Require Import Mutex.
From S2P Require Import Registry.
From S2P Require Import RegistryFacts.
From S2P Require Import World.
From S2P Require Import Channel.
From S2P Require Import Routing.
From S2P Require Import RegistryOps.
From S2P Require Import RegistrySpec.
From S2P Require Import Subscriber.
From S2P Require Import Client.
From S2P Require Import Quiet.
From S2P Require Import RegistryConc.
From S2P Require Import RunFacts.
From S2P Require Import LifecycleProps.
From S2P Require Import RegistryRace.

Local Open Scope broker_scope.

(** ** Assertions *)

Section Assertions.
Context {D : Deps}.

Definition assert_that (b : bool) : proc World unit := if b then Ret tt else Panic.

Definition unwrap {A E} (r : result A E) : proc World A :=
  match r with Ok a => Ret a | Err _ => Panic end.

Definition unwrap_err {A E} (r : result A E) : proc World E :=
  match r with Ok _ => Panic | Err e => Ret e end.

Definition unwrap_some {A} (r : option A) : proc World A :=
  match r with Some a => Ret a | None => Panic end.

Fixpoint for_each {A B} (l : list A) (f : A -> proc World B) : proc World (list B) :=
  match l with
  | [] => Ret []
  | x :: l => let! y := f x in let! ys := for_each l f in Ret (y :: ys)
  end.

Definition is_some {A} (o : option A) : bool := match o with Some _ => true | None => false end.
Definition is_err {A E} (r : result A E) : bool := negb (is_ok r).
End Assertions.

(** ** registry/mod.rs, [mod matches] *)

Definition pattern_matches (pattern address : bytes) : result bool RegistryError :=
  let? _ := validate_wildcard_pattern (from_utf8_lossy pattern) in
  Ok (compare_segments_bytes pattern address false).

Definition patterns_conflict_bytes (pattern1 pattern2 : bytes) : result bool RegistryError :=
  let? _ := validate_wildcard_pattern (from_utf8_lossy pattern1) in
  let? _ := validate_wildcard_pattern (from_utf8_lossy pattern2) in
  Ok (compare_segments_bytes pattern1 pattern2 true).

(** [assert!(r.unwrap())], [assert!(!r.unwrap())] and [assert!(r.is_err())] hold. *)
Definition holds_ok {E} (r : result bool E) : bool := match r with Ok b => b | Err _ => false end.
Definition fails_ok {E} (r : result bool E) : bool := match r with Ok b => negb b | Err _ => false end.

Definition exact_match : bool :=
  holds_ok (pattern_matches (bs "arcella") (bs "arcella")) &&
  holds_ok (pattern_matches (bs "arcella:core:users") (bs "arcella:core:users")) &&
  fails_ok (pattern_matches (bs "arcella:core:users") (bs "arcella:core:admin")) &&
  fails_ok (pattern_matches (bs "Arcella") (bs "arcella")).

Definition length_mismatch : bool :=
  fails_ok (pattern_matches (bs "a:b:c") (bs "a:b")) &&
  fails_ok (pattern_matches (bs "a:b") (bs "a:b:c")).

Definition empty_strings : bool :=
  is_err (pattern_matches (bs "") (bs "")) &&
  is_err (pattern_matches (bs "a::b") (bs "a:b")) &&
  is_err (pattern_matches (bs "") (bs "a:b")) &&
  fails_ok (pattern_matches (bs "a:b") (bs "")) &&
  fails_ok (pattern_matches (bs "a") (bs "")) &&
  fails_ok (pattern_matches (bs "a:b") (bs "a::b")).

Definition single_segment_wildcard : bool :=
  holds_ok (pattern_matches (bs "a:*:c") (bs "a:b:c")) &&
  holds_ok (pattern_matches (bs "a:b:*") (bs "a:b:c")) &&
  is_err (pattern_matches (bs "*") (bs "a")) &&
  is_err (pattern_matches (bs "*:b:c") (bs "a:b:c")) &&
  is_err (pattern_matches (bs "*:*:*") (bs "a:b:c")) &&
  fails_ok (pattern_matches (bs "a:*:d") (bs "a:b:c")) &&
  fails_ok (pattern_matches (bs "a:*:d") (bs "a:b:c:d")) &&
  fails_ok (pattern_matches (bs "a:*:d") (bs "a:d")).

Definition multi_segment_wildcard : bool :=
  holds_ok (pattern_matches (bs "a:**") (bs "a")) &&
  holds_ok (pattern_matches (bs "a:b:**") (bs "a:b")) &&
  holds_ok (pattern_matches (bs "a:b:**") (bs "a:b:c")) &&
  holds_ok (pattern_matches (bs "a:b:**") (bs "a:b:c:d:e")) &&
  holds_ok (pattern_matches (bs "a:**") (bs "a:b:c:d:e")) &&
  is_err (pattern_matches (bs "**") (bs "a")) &&
  is_err (pattern_matches (bs "**") (bs "a:b:c:d")) &&
  fails_ok (pattern_matches (bs "a:b:**") (bs "a")) &&
  fails_ok (pattern_matches (bs "a:b:**") (bs "x:b:c")).

Definition star_and_starstar_combined : bool :=
  holds_ok (pattern_matches (bs "a:*:c:**") (bs "a:b:c:d:e")) &&
  is_err (pattern_matches (bs "*:b:**") (bs "a:b:c:d:e")) &&
  is_err (pattern_matches (bs "*:**") (bs "x:y:z")) &&
  holds_ok (patterns_conflict_bytes (bs "a:b:c:*") (bs "a:**")).

Definition invalid_patterns : bool :=
  is_err (pattern_matches (bs "a:**:b") (bs "a:b")) &&
  is_err (pattern_matches (bs "a:*:b:") (bs "a:b")) &&
  is_err (pattern_matches (bs "**:a:**") (bs "a:b")) &&
  is_err (pattern_matches (bs "a:**:**") (bs "a:b")).

Definition pattern_tests : list bool :=
  [exact_match; length_mismatch; empty_strings; single_segment_wildcard; multi_segment_wildcard;
   star_and_starstar_combined; invalid_patterns].

(** ** registry/mod.rs, [mod register] *)

Section RegisterTests.
Context {D : Deps}.

(** A test has one registry at a time: a new one takes the place of the last. *)
Definition LocalRegistry_new : proc World unit :=
  write (fun w => set_mutex (mkMutex false false) (set_inner RegistryInner_new w)).

(** The receiver is dropped at the end of the function. *)
Definition create_dummy_sender : proc World chan_id :=
  let! ch := create_channel 10 in
  let! _ := write (on_chan mpsc_drop_receiver ch) in
  Ret ch.

Definition dummy_slot : proc World slot_id :=
  let! sender := create_dummy_sender in
  SubscriptionSlot_new sender.

Definition is_wildcard_conflict (e : RegistryError) : bool :=
  match e with WildcardConflict _ _ => true | _ => false end.
Definition is_conflict_with_wildcard (e : RegistryError) : bool :=
  match e with ConflictsWithWildcard _ _ => true | _ => false end.
Definition is_registered (r : RegisterResult) : bool :=
  match r with Registered _ => true | AlreadyExists _ => false end.

Definition test_register_lookup_and_unregister : proc World unit :=
  let! _ := LocalRegistry_new in
  let address := bs "arcella:core:users" in
  let! slot := dummy_slot in
  let! r := register address (new_exclusive slot) in
  let! _ := assert_that (is_ok r) in
  let! found := lookup address in
  let! _ := assert_that (is_some found) in
  let! routed := has_route address in
  let! _ := assert_that routed in
  let! is_local := has_local address in
  let! _ := assert_that is_local in
  let! r := unregister address slot in
  let! _ := assert_that (is_ok r) in
  let! found := lookup address in
  let! _ := assert_that (negb (is_some found)) in
  let! routed := has_route address in
  assert_that (negb routed).

Definition test_conflict_exact_vs_wildcard : proc World unit :=
  let! _ := LocalRegistry_new in
  let exact_addr := bs "arcella:core:users" in
  let wildcard_addr := bs "arcella:core:*" in
  let! slot := dummy_slot in
  let! r := register exact_addr (new_exclusive slot) in
  let! _ := unwrap r in
  let! slot := dummy_slot in
  let! r := register wildcard_addr (new_exclusive slot) in
  let! err := unwrap_err r in
  let! _ := assert_that (is_wildcard_conflict err) in
  let! _ := LocalRegistry_new in
  let! slot := dummy_slot in
  let! r := register wildcard_addr (new_exclusive slot) in
  let! _ := unwrap r in
  let! slot := dummy_slot in
  let! r := register exact_addr (new_exclusive slot) in
  let! err2 := unwrap_err r in
  assert_that (is_conflict_with_wildcard err2).

Definition test_lookup_priority_exact_over_wildcard : proc World unit :=
  let! _ := LocalRegistry_new in
  let exact_addr := bs "arcella:core:users" in
  let wildcard_addr := bs "arcella:core:*" in
  let! slot1 := dummy_slot in
  let! slot2 := dummy_slot in
  let! r := register wildcard_addr (new_exclusive slot1) in
  let! _ := unwrap r in
  let! r := register exact_addr (new_exclusive slot2) in
  let! err := unwrap_err r in
  let! _ := assert_that (is_conflict_with_wildcard err) in
  let! _ := LocalRegistry_new in
  let! r := register exact_addr (new_exclusive slot2) in
  let! _ := unwrap r in
  let! r := register wildcard_addr (new_exclusive slot1) in
  let! err2 := unwrap_err r in
  assert_that (is_wildcard_conflict err2).

(** The factory of the tests; where these count its calls, in a variable of their own, it is
    [counted]. *)
Definition exclusive_factory : proc World (result RouteTarget RegistryError) :=
  let! slot := dummy_slot in
  Ret (Ok (new_exclusive slot)).

Definition test_get_existing_or_register_atomic : proc World unit :=
  let! _ := LocalRegistry_new in
  let address := bs "arcella:lb:group" in
  let! factory_call_count := AtomicUsize_new 0 in
  let! r := get_existing_or_register address (counted factory_call_count exclusive_factory) in
  let! result1 := unwrap r in
  let! _ := assert_that (is_registered result1) in
  let! count := AtomicUsize_load factory_call_count in
  let! _ := assert_that (count =? 1)%Z in
  let! r := get_existing_or_register address (counted factory_call_count exclusive_factory) in
  let! result2 := unwrap r in
  let! _ := assert_that (negb (is_registered result2)) in
  let! count := AtomicUsize_load factory_call_count in
  assert_that (count =? 1)%Z.

Definition test_unregister_with_wrong_slot_is_noop : proc World unit :=
  let! _ := LocalRegistry_new in
  let address := bs "arcella:test" in
  let! slot1 := dummy_slot in
  let target1 := new_exclusive slot1 in
  let! slot2 := dummy_slot in
  let! r := register address target1 in
  let! _ := unwrap r in
  let! r := unregister address slot2 in
  let! _ := assert_that (is_ok r) in
  let! found := lookup address in
  let! _ := assert_that (is_some found) in
  let! found := lookup address in
  let! t := unwrap_some found in
  assert_that (bool_decide (t = target1)).

Definition register_tests : list (proc World unit) :=
  [test_register_lookup_and_unregister; test_conflict_exact_vs_wildcard;
   test_lookup_priority_exact_over_wildcard; test_get_existing_or_register_atomic;
   test_unregister_with_wrong_slot_is_noop].

(** [mod multithread]: the registry and the shared counter, and the computations of the hundred
    threads. *)
Definition race_setup : proc World counter_id :=
  let! _ := LocalRegistry_new in
  AtomicUsize_new 0.

Definition race_threads (factory_calls : counter_id)
    : list (proc World (result RegisterResult RegistryError)) :=
  replicate 100
    (get_existing_or_register (bs "arcella:lb:race_test") (counted factory_calls exclusive_factory)).

(** What the test asserts of the counter and of the results it collects. *)
Definition test_get_existing_or_register_concurrent_race (factory_calls : Z)
    (results : list (result RegisterResult RegistryError)) : bool :=
  let registered r := match r with Ok (Registered _) => true | _ => false end in
  let already_exists r := match r with Ok (AlreadyExists _) => true | _ => false end in
  (factory_calls =? 1)%Z &&
  bool_decide (length (filter (fun r => registered r = true) results) = 1%nat) &&
  bool_decide (length (filter (fun r => already_exists r = true) results) = 99%nat) &&
  forallb is_ok results.
End RegisterTests.

(** ** test_utils.rs *)

Section ClientTests.
Context {D : Deps}.

(** A fresh broker, and a client of it. *)
Definition test_client (address : bytes) : proc World (result BrokerClient BrokerError) :=
  let '(broker, w) := Broker_new Broker_default_config in
  let! _ := write (fun _ => w) in
  Broker_client broker ClientConfig_default address.

Definition dummy_in_only_message (msg_type address payload : bytes) : proc World Message :=
  unwrap (Message_new InOnly (replicate 32 Byte.x00) (replicate 16 Byte.x01) (replicate 4 Byte.x00)
    0 64 msg_type address [] payload).

Definition dummy_in_out_message (msg_type address reply_to payload : bytes) : proc World Message :=
  unwrap (Message_new InOut (replicate 32 Byte.x00) (replicate 16 Byte.x01) (replicate 4 Byte.x00)
    0 64 msg_type address reply_to payload).

(** ** client/mod.rs, [mod tests] *)

(** What is left goes out of scope at the end of a test, in reverse order of declaration. *)
Definition drop_client (client : BrokerClient) : proc World unit := BrokerClient_drop client true.
Definition drop_subscriber (s : Subscriber) : proc World unit := write (Subscriber_drop s).

Definition test_in_memory_message_delivery_in_only : proc World unit :=
  let! r := test_client (bs "test") in
  let! client := unwrap r in
  let target_address := bs "arcella:core:test:receiver" in
  let! r := subscribe target_address SubscriberConfig_default in
  let! s := unwrap r in
  let '(subscriber, handle) := s in
  let! original_message := dummy_in_only_message (bs "test:ping") target_address
                             (bs "hello from sender") in
  let! send_result := BrokerClient_send client original_message in
  let! _ := assert_that (is_ok send_result) in
  let! received_message := Subscriber_recv subscriber in
  let! _ := assert_that (is_some received_message) in
  let! m := unwrap_some received_message in
  let! _ := assert_that (bool_decide (original_message = m)) in
  let! _ := SubscriptionHandle_drop handle in
  let! _ := drop_subscriber subscriber in
  drop_client client.

Definition test_in_memory_message_delivery_to_unknown_address : proc World unit :=
  let! r := test_client (bs "test") in
  let! client := unwrap r in
  let! msg := dummy_in_only_message (bs "test:ping") (bs "arcella:unknown:address") (bs "") in
  let! result := BrokerClient_send client msg in
  let! _ := assert_that (match result with Err (RecipientNotFound _) => true | _ => false end) in
  drop_client client.

(** [subscribers[i]] and the two assertions on a message that was received. *)
Definition expect_message (subscribers : list Subscriber) (i : nat) (msg_type_ payload_ : bytes)
    : proc World unit :=
  let! s := unwrap_some (subscribers !! i) in
  let! r := Subscriber_recv s in
  let! msg := unwrap_some r in
  let! _ := assert_that (bool_decide (msg_type msg = msg_type_)) in
  assert_that (bool_decide (payload msg = payload_)).

Definition expect_empty (subscribers : list Subscriber) (i : nat) : proc World unit :=
  let! s := unwrap_some (subscribers !! i) in
  let! r := Subscriber_try_recv s in
  assert_that (is_err r).

Definition test_multi_recipient_routing : proc World unit :=
  let! r := test_client (bs "test") in
  let! client := unwrap r in
  let addresses := [bs "arcella:core:users"; bs "arcella:web:api"; bs "arcella:batch:processor"] in
  let! pairs := for_each addresses (fun addr =>
    let! r := subscribe addr SubscriberConfig_default in unwrap r) in
  let subscribers := pairs.*1 in
  let handles := pairs.*2 in
  let test_messages :=
    [(bs "arcella:core:users", bs "user:created", bs "user1");
     (bs "arcella:web:api", bs "http:request", bs "GET /api");
     (bs "arcella:batch:processor", bs "batch:job", bs "job1");
     (bs "arcella:core:users", bs "user:updated", bs "user2");
     (bs "arcella:web:api", bs "http:response", bs "200 OK");
     (bs "arcella:batch:processor", bs "batch:complete", bs "job1:done");
     (bs "arcella:core:users", bs "user:deleted", bs "user3")] in
  let! _ := for_each test_messages (fun '(addr, ty, payload) =>
    let! msg := dummy_in_only_message ty addr payload in
    let! result := BrokerClient_send client msg in
    assert_that (is_ok result)) in
  let! _ := expect_message subscribers 0 (bs "user:created") (bs "user1") in
  let! _ := expect_message subscribers 0 (bs "user:updated") (bs "user2") in
  let! _ := expect_message subscribers 0 (bs "user:deleted") (bs "user3") in
  let! _ := expect_message subscribers 1 (bs "http:request") (bs "GET /api") in
  let! _ := expect_message subscribers 1 (bs "http:response") (bs "200 OK") in
  let! _ := expect_message subscribers 2 (bs "batch:job") (bs "job1") in
  let! _ := expect_message subscribers 2 (bs "batch:complete") (bs "job1:done") in
  let! _ := expect_empty subscribers 0 in
  let! _ := expect_empty subscribers 1 in
  let! _ := expect_empty subscribers 2 in
  let! _ := for_each handles SubscriptionHandle_drop in
  let! _ := for_each subscribers drop_subscriber in
  drop_client client.

Definition test_dynamic_registration : proc World unit :=
  let! r := test_client (bs "test") in
  let! client := unwrap r in
  let address := bs "arcella:test" in
  let payload := bs "" in
  let! msg := dummy_in_only_message (bs "test") address payload in
  let! r := BrokerClient_send client msg in
  let! _ := assert_that (is_err r) in
  let! r := subscribe (bs "arcella:test") SubscriberConfig_default in
  let! s := unwrap r in
  let '(subscriber, handle) := s in
  let! r := BrokerClient_send client msg in
  let! _ := assert_that (is_ok r) in
  let! m := Subscriber_recv subscriber in
  let! _ := assert_that (is_some m) in
  let! _ := SubscriptionHandle_drop handle in
  let! msg2 := dummy_in_only_message (bs "test2") address payload in
  let! r := BrokerClient_send client msg2 in
  let! _ := assert_that (is_err r) in
  let! _ := drop_subscriber subscriber in
  drop_client client.

Definition test_subscription_cleanup_and_re_registration : proc World unit :=
  let! r := test_client (bs "test") in
  let! client := unwrap r in
  let addr := bs "arcella:test:duplicate" in
  let! r := subscribe addr SubscriberConfig_default in
  let! s := unwrap r in
  let '(sub1, hdl1) := s in
  let! sub2_result := subscribe addr SubscriberConfig_default in
  let! _ := assert_that (match sub2_result with
                         | Err (AddressAlreadyOccupied _) => true
                         | _ => false
                         end) in
  let! _ := SubscriptionHandle_drop hdl1 in
  let! r := subscribe addr SubscriberConfig_default in
  let! s := unwrap r in
  let '(sub3, hdl3) := s in
  let! msg := dummy_in_only_message (bs "test") addr (bs "hello") in
  let! result := BrokerClient_send client msg in
  let! _ := assert_that (negb (is_err result)) in
  let! r := Subscriber_try_recv sub3 in
  let! _ := assert_that (negb (is_err r)) in
  let! _ := SubscriptionHandle_drop hdl3 in
  let! _ := drop_subscriber sub3 in
  let! _ := drop_subscriber sub1 in
  drop_client client.

Definition client_tests : list (proc World unit) :=
  [test_in_memory_message_delivery_in_only;
   test_in_memory_message_delivery_to_unknown_address; test_multi_recipient_routing;
   test_dynamic_registration; test_subscription_cleanup_and_re_registration].
End ClientTests.

(** A test passes when it runs to its end. *)
Definition passes (test : proc World unit) : bool := finished (fun _ => true) (run test World_new).

(** The results of a race of [n] threads which thread [j] won. *)
Lemma race_results (t : RouteTarget) (j n : nat) (rs : list (result RegisterResult RegistryError)) :
  (j < n)%nat -> length rs = n ->
  (forall k r, rs !! k = Some r -> r = Ok (race_result t j k)) ->
  rs = replicate j (Ok (AlreadyExists t)) ++
       Ok (Registered t) :: replicate (n - S j) (Ok (AlreadyExists t)).
Proof.
  intros Hj Hn Hr. apply (list_eq_same_length _ _ n); [|done|].
  { rewrite length_app, length_replicate. simpl. rewrite length_replicate. lia. }
  intros k x y Hk Hx Hy. apply Hr in Hx as ->. unfold race_result.
  destruct (decide (k < j)%nat) as [Hlt|Hge].
  - rewrite lookup_app_l in Hy by by rewrite length_replicate.
    apply lookup_replicate in Hy as [-> _]. rewrite decide_False by lia. done.
  - rewrite lookup_app_r, length_replicate in Hy by (rewrite length_replicate; lia).
    destruct (k - j)%nat as [|d] eqn:E; simpl in Hy.
    + injection Hy as <-. by rewrite decide_True by lia.
    + apply lookup_replicate in Hy as [-> _]. by rewrite decide_False by lia.
Qed.

Lemma filter_replicate {A} (P : A -> Prop) `{!forall x, Decision (P x)} n x :
  filter P (replicate n x) = if decide (P x) then replicate n x else [].
Proof. induction n as [|n IH]; cbn [replicate]; [by case_decide|]. rewrite filter_cons, IH.
  by case_decide. Qed.

Lemma forallb_replicate {A} (f : A -> bool) n x : f x = true -> forallb f (replicate n x) = true.
Proof. intros Hx. induction n as [|n IH]; [done|]. cbn [replicate forallb]. by rewrite Hx. Qed.

Lemma exclusive_factory_orderly {D : Deps} k : orderly k exclusive_factory.
Proof.
  destruct (channel_some (M := Message) 10) as (c & Hc & _); [done|].
  unfold exclusive_factory, dummy_slot, create_dummy_sender, create_channel, channel, act_or_panic.
  cbn [bind orderly]. intros w. rewrite Hc. cbn. split; [done|]. intros w1. split; [done|].
  intros w2. by split.
Qed.

(** What the threads of a race return, from what each of them does. *)
Lemma race_returned (t : RouteTarget) j n (ps : list (proc World (result RegisterResult RegistryError))) :
  length ps = n -> (forall k p, ps !! k = Some p -> p = Ret (Ok (race_result t j k))) ->
  ps = Ret <$> ((fun k => Ok (race_result t j k)) <$> seq 0 n).
Proof.
  intros Hl Hps. apply (list_eq_same_length _ _ n); [|done|].
  { by rewrite !length_fmap, length_seq. }
  intros k x y Hk Hx Hy. apply Hps in Hx as ->.
  rewrite !list_lookup_fmap, lookup_seq_lt in Hy by done. by injection Hy as <-.
Qed.

(** ** The tests pass *)

(** The crate's unit tests pass on these definitions: those of the patterns, of the registry and
    of the client are evaluated; and wherever an execution of the race of a hundred threads for
    one address can go no further, all threads have returned, and what the test asserts of the
    counter and of the results holds: the factory was called once, one thread registered the
    address, the other 99 found it taken, and none failed. *)
Theorem unit_tests_pass :
  forallb id pattern_tests = true /\ forallb passes (register_tests ++ client_tests) = true /\
  exists w calls, run race_setup World_new = Done w calls /\
    forall w' ps, rtc pool_step (w, race_threads calls) (w', ps) ->
      (forall c, ~ pool_step (w', ps) c) ->
    exists count results, counters w' !! calls = Some count /\ ps = Ret <$> results /\
      test_get_existing_or_register_concurrent_race count results = true.
Proof.
  split; [vm_compute; reflexivity|]. split; [vm_compute; reflexivity|].
  eexists _, _. split; [reflexivity|]. intros w' ps Hrun Hstuck. unfold race_threads in Hrun.
  rewrite <-(fmap_replicate _ 100 (counted _ _)), <-(fmap_replicate _ 100 exclusive_factory) in Hrun.
  apply race_decided in Hrun as (Hcount & t & j & _ & Hj & Hl & Hps);
    [|done|apply new_wf|vm_compute; reflexivity|done
     |apply Forall_replicate, exclusive_factory_orderly|done|done].
  rewrite length_replicate in Hl, Hj. apply (race_returned t j 100) in Hps; [|done].
  exists 1%Z, ((fun k => Ok (race_result t j k)) <$> seq 0 100). split_and!; [done|done|].
  rewrite (race_results t j 100 _ Hj);
    [|by rewrite length_fmap, length_seq|].
  - unfold test_get_existing_or_register_concurrent_race.
    rewrite !list.filter_app, !filter_cons, !filter_replicate, !length_app, forallb_app.
    rewrite (decide_False (P := false = true)), (decide_True (P := true = true)) by done.
    rewrite (bool_decide_true (_ + _ = 1)%nat), bool_decide_true by (simpl;
      rewrite ?length_replicate; lia).
    cbn [forallb is_ok andb]. by rewrite !forallb_replicate.
  - intros k r Hk. rewrite list_lookup_fmap in Hk. apply fmap_Some in Hk as (i & Hi & ->).
    by apply lookup_seq in Hi as [-> _].
Qed.
